(* ===== verification/_CoqProject ===== *)
-Q . S2P
Prelude.v
CMem.v
SepLogic.v
ParsonText.v
CNum.v
Parson.v
ParsonParse.v
ParsonOps.v
ParsonTree.v
Utils.v
ParsonSerialize.v
JsonSpec.v
ParsonTextProof.v
Utf8.v
JsonRoundTrip.v
CNumProof.v
CDouble.v
ParsonRep.v
ParsonMemProof.v
UtilsProof.v
ParsonParseProof.v
ParsonOpsProof.v
ParsonTreeProof.v
ParsonSerializeProof.v
ParsonTheorems.v
ParsonApi.v
ParsonFile.v
SgxCCLib.v
SgxCCLibProof.v
Base64.v
Ias.v
IasProof.v
StdMap.v
Ledger.v
LedgerSpec.v
LedgerProof.v
LedgerTheorems.v
LedgerVerdicts.v
EnclaveCrypto.v
Shim.v
Enclave.v
EnclaveProof.v
Samples.v
EnclaveTheorems.v
Peer.v
Chaincodes.v
Echo.v
Helloworld.v
Auction.v
ChaincodeJson.v
AuctionProof.v
AuctionTheorems.v
ChaincodeProof.v
ObliviousAsm.v
ObliviousAuction.v
ObliviousProof.v
ObliviousTheorems.v
ObliviousKeys.v
RsaNumbers.v
ObliviousKeysProof.v
Spectrum.v
SpectrumEval.v
SpectrumJson.v
SpectrumStorage.v
SpectrumApi.v
SpectrumProof.v
SpectrumRounds.v
SpectrumAssign.v
SpectrumTheorems.v
SpectrumClaims.v
SpectrumFaults.v
SpectrumJsonProof.v
SpectrumStorageProof.v
SpectrumContext.v
SpectrumRefine.v
SpectrumLock.v
SpectrumResults.v
