(* ===== verification/Prelude.v ===== *)
(** * Verification of Fabric Private Chaincode

    Fabric Private Chaincode runs chaincodes (smart contracts) of Hyperledger Fabric
    inside SGX enclaves.  This development models the C and C++ code of the system and
    proves what makes it correct, and where it is not.

    ** The program

    A peer runs two kinds of enclaves.  The chaincode enclave (src/ecc_enclave) executes
    a chaincode: the peer passes the arguments in, the chaincode reads and writes state
    through the shim, which calls back into the peer, and the enclave signs the result
    together with the keys read and the values written.  The ledger enclave
    (src/tlcc_enclave) follows the blockchain: it parses every block, checks versions
    and signatures, keeps its own copy of the state, and gives out authentication codes
    with which the chaincode enclave checks what the peer says about the state.  Both
    sides exchange JSON (src/common/json/parson.c) and base 64
    (src/common/base64/base64.cpp).  The peer reaches the enclaves through the
    libraries src/ecc_enclave/sgxcclib, src/tlcc_enclave/trusted_ledger and
    src/common/sgxcclib.  Example chaincodes are in src/examples; a larger one, a clock
    auction of radio spectrum, is in src/demo/chaincode/fpc, and a sealed-bid auction that
    compares bids by inline assembly in src/auction_final.cpp and
    src/july_15_2021/july15.cpp.

    ** The files

    Foundations
    - Prelude.v: bytes, C strings, machine integers, shared lemmas, the hint database.
    - CMem.v, SepLogic.v: a heap of blocks with an allocator that may refuse, a monad of
      programs on it with undefined behaviour as a value, and a separation logic (an
      instance of the Iris proof mode) with weakest preconditions; a program may run out
      of fuel, and a triple says that it does not for any fuel above a bound given by
      the heap.
    - StdMap.v: std::map and std::set with string keys, as ordered lists of entries.

    Parson (src/common/json/parson.c, parson.h)
    - ParsonText.v (characters, UTF-8, escapes, comments), CNum.v (strtod and "%1.17g"
      on IEEE doubles), Parson.v (values, arrays, objects in memory), ParsonParse.v,
      ParsonOps.v, ParsonTree.v (deep copy, validation, equality), ParsonSerialize.v:
      the functions of the source, one definition each.
    - ParsonFile.v: the functions on files, over the class [Stdio], and that what is
      written to a file is read back.
    - JsonSpec.v: the abstract trees, [parse_json] and [serialize_json].
    - ParsonTextProof.v, Utf8.v, JsonRoundTrip.v, CNumProof.v, CDouble.v: texts, UTF-8, the
      round trip of trees and of doubles, rounding of integers and quotients.
    - ParsonRep.v: what it means for a block to represent a tree; ParsonMemProof.v,
      ParsonParseProof.v, ParsonOpsProof.v, ParsonTreeProof.v, ParsonSerializeProof.v:
      the specification of every function; ParsonTheorems.v and ParsonApi.v: the public
      statements (the parser computes [parse_json] or returns NULL and frees everything;
      the serializer writes exactly [serialize_json] inside its buffer; freeing gives
      back exactly the blocks of the tree; copy, equality, validation, insertion and
      removal do what their specification says, for every allocator).

    Utilities and libraries
    - Utils.v, UtilsProof.v (src/common/utils.c): append_string, bytes_swap,
      bytes_to_hexstring.
    - SgxCCLib.v, SgxCCLibProof.v (common-sgxcclib.c, sgxcclib.c, trusted_ledger.c,
      logging.c): the calls of the peer, over the class [Platform] of the SGX SDK, the
      bridge and the Go callbacks; every status is propagated.
    - Base64.v (base64.cpp): encoding, decoding and their round trip.
    - Ias.v (tlcc_enclave/enclave/ias.cpp, ias.h): attestation reports, on the heap of
      parson, over the class [AttestationLib] of OpenSSL and the layout of a quote;
      IasProof.v: the checks of a quote are exact, but no report is ever accepted, since
      the strings of the report are used after they were freed.

    The ledger enclave
    - Ledger.v (ledger.cpp, ledger.h, crypto.cpp, asn1_utils.c, ecc_json.cpp): blocks,
      configuration, transactions, read and write sets, queries, as a state and error
      monad [LM].  [Proto] is the protobuf decoder, [OpenSSL] the cryptography, [Stack]
      the contents of uninitialised arrays.
    - LedgerSpec.v: what the theorems say of a block without running the code: the parts
      of composite keys, the writes of a transaction and of a block, and the actions that
      read something stale, plainly or in a range query.
    - LedgerProof.v: how steps preserve relations between states; LedgerTheorems.v:
      transactions with stale reads have no effect, a block changes only what its
      transactions write, all or nothing and in sequence, versions grow in every ledger
      reachable by blocks whose numbers are below 2^32 - 1 (the versions hold 64 bits of
      them, the check of the sequence 32), the hash of a query covers exactly the entries
      asked for; LedgerVerdicts.v: signature checks do not influence the result.

    The chaincode enclave
    - EnclaveCrypto.v (ecc_enclave/enclave/crypto.cpp, common/enclave/common.cpp) over
      the class [SgxCrypto]; Shim.v (shim.cpp, shim_internals.h) as a monad [SM] with
      exceptions and undefined behaviour; Enclave.v (both enclave.cpp): binding,
      invocation and signing, metadata queries.
    - EnclaveProof.v: private values survive the peer, what both enclaves authenticate
      agrees, gaps; EnclaveTheorems.v: the response that is signed is the response that
      is checked, binding.
    - Samples.v: small platforms on which the theorems are instantiated.

    Chaincodes
    - Chaincodes.v, Echo.v, Helloworld.v, Auction.v: the chaincodes of src/examples.
    - Peer.v: the class [HonestPeer], what a chaincode may expect of peer and SDK, with
      an instance; ChaincodeJson.v: texts of objects that are read back from a buffer;
      AuctionProof.v and AuctionTheorems.v: the auction chaincode refines
      the state machine absent, open, closed, and evaluates to the best bid;
      ChaincodeProof.v: the relations between contexts that computations respect, by
      which every chaincode keeps the arguments and the order of the sets.

    The oblivious auction (src/auction_final.cpp, src/july_15_2021/july15.cpp)
    - ObliviousAsm.v: the instructions of the assembly blocks, the blocks, what they
      compute, and the class [Compiler], where their operands are put (any place that the
      constraints of the blocks allow; [fortunate] are the choices with which the blocks of
      auction_final.cpp do what they are meant to); ObliviousAuction.v:
      the global variables and the functions of auction_final.cpp, and the functions of
      july15.cpp that evaluate bids.
    - ObliviousProof.v: bids are read back, the record of the two highest, the loops;
      ObliviousTheorems.v: the two methods of auction_final.cpp agree for [fortunate]
      choices, the evaluation without branches is exact unless the second input of the
      comparison is in EAX; what goes wrong for other registers, negative bids and bids of
      one digit.
    - ObliviousKeys.v: the functions of july15.cpp on RSA keys and encrypted messages, over
      the class [RsaLib] of OpenSSL and the SDK, and its requests; RsaNumbers.v: powers
      modulo a product of two primes; ObliviousKeysProof.v: the keys that are printed
      belong together under the documented laws of OpenSSL's numbers ([RsaLaws]), messages
      cannot be decrypted, the private key is given to anybody.

    The spectrum auction (src/demo/chaincode/fpc)
    - Spectrum.v (territory, principal, bidder, eligibility, bid, error-codes and
      auction-state): the static and dynamic state of an auction, opening of rounds,
      checks and storage of bids; [Implementation] holds what the C++ implementation
      decides, among it the order in which list::sort leaves the bids: the comparison that
      the code passes is not a strict weak ordering, so all that is assumed of the result
      is that it has the same elements.  SpectrumEval.v (evaluate.cpp, and the part of
      SpectrumAuction::endRound that changes the state): clock rounds and the assignment of channels.
      SpectrumJson.v (toJsonObject and fromJsonObject of the classes, the results,
      utils.cpp), SpectrumStorage.v (storage.cpp, the counter of auctions, loading and
      storing), SpectrumApi.v (spectrum-auction-message.cpp, the twelve requests of
      spectrum-auction.cpp, dispatcher.cpp, entry.cpp): a request as a computation [CM]
      that ends with a response, a report or undefined behaviour.
    - SpectrumProof.v: the loop over the queue of bids; SpectrumRounds.v: one clock round;
      SpectrumAssign.v: the random assignment; SpectrumTheorems.v: the steps of an auction
      and its invariant; SpectrumClaims.v: the loop ends and settles the bids, licences,
      eligibility and excess demand stay in balance over every sequence of requests, a
      round can be ended if random numbers can be drawn ([rand_works]), the assignment
      gives out the licences held.
      These theorems ask that identifiers are unique, that the eligibilities are listed
      in the order of the bidders and that the numbers fit their types ([auction_ok]);
      SpectrumFaults.v: what happens to accepted auctions that violate the first two,
      and when no randomness is available.
    - SpectrumJsonProof.v: the class [JsonCodec] of types whose values come back from
      JSON, with an instance for every class of the auction, and the round trip of the
      two states; SpectrumStorageProof.v: strings and auctions that an honest peer
      holds; SpectrumContext.v: requests that fail or only ask write nothing, the context
      stays in order, the response fits; SpectrumRefine.v: what is stored is loaded,
      and the requests implement the steps of the abstract auction of SpectrumTheorems.v;
      SpectrumResults.v: the published results are exactly the channels that were assigned, a
      bidder's results reveal nothing about the others, and a closed auction does not
      check the round it is asked for; SpectrumLock.v: a price that is no integer locks
      an auction, which happens to auctions of integer prices.
      The round trip holds of states whose numbers fit [int] (or [uint32_t] in the
      matrices), whose texts are UTF-8 and shorter than a billion bytes, and whose bids
      have integer prices ([auction_storable]).

    ** Bounds and fuel

    Functions that recurse on C strings or on the heap take fuel.  The parser and the
    tree functions are called with fuel derived from the text or the heap (its number of
    blocks), and the theorems show that this is enough: a triple never ends for lack of
    fuel.  The loop over the bids of a round has fuel too; [enough] computes a sufficient
    amount from the licences the queue asks to change, and the theorems on requests hold
    for all fuel above a bound.  The nesting of JSON is limited to 2048 by the source.
    Sizes are unbounded integers reduced modulo 2^32 where the source uses uint32_t.  The
    serializer's counters are checked to stay in int; its theorems assume that the text is
    shorter than INT_MAX bytes, since the size is an int with 1 added.  Values given to
    put_state are taken to be shorter than 2^32 - 28 bytes.

    ** Not modelled

    json_set_allocation_functions of parson, which nothing calls (the allocator is a
    parameter); the state lock of the ledger and interleaved calls; debug output, and
    print_state, which has no other effect; the debug key pair of ecall_cc_invoke; the
    size of the enclave's stack; that a read of an uninitialised bool is undefined
    (auction-state.cpp:581, where neither value makes a difference); a variable that the
    compiler keeps in a register across a block of assembly that overwrites it without
    declaring so; the JSON trees that the spectrum auction does not
    free when it fails; blocks that OpenSSL allocates; the functions of july15.cpp that
    return a fixed text and that nothing calls; its older variants at the top of the
    repository, which are copies of what is modelled; off_chain_test.cpp, a test program;
    encryption_cc.cpp, which does not compile (it declares an int public_key that is a
    string); the Go code, whose effect is in [Platform] and [HonestPeer]; the vendored PDO
    libraries and interpreters under src/common/crypto. *)
From stdpp Require Import base list strings gmap numbers.
From Stdlib Require Export Strings.Byte.
From Stdlib Require Import ZArith NArith Lia.

(** ** Bytes and C strings *)
Abbreviation byte := Byte.byte.
Abbreviation bytes := (list byte).

#[global] Instance byte_eq_dec : EqDecision byte := Byte.byte_eq_dec.

#[global] Program Instance byte_countable : Countable byte := {|
  encode b := encode (Byte.to_N b);
  decode p := n ← decode p; Byte.of_N n |}.
Next Obligation. intros b; simpl. rewrite decode_encode; simpl. apply Byte.of_to_N. Qed.

Declare Scope c_scope.
Delimit Scope c_scope with c.

(** The value of a byte read as [unsigned char]. *)
Definition uchar (b : byte) : Z := Z.of_N (Byte.to_N b).

(** Conversion of an integer to [unsigned char]: reduction modulo 256. *)
Definition to_byte (z : Z) : byte := default x00 (Byte.of_N (Z.to_N (z mod 256))).

(** String literals of the source as byte lists. *)
Definition bs (s : string) : bytes := String.list_byte_of_string s.

(** [at_c s i] is [s[i]] for a NUL-terminated string whose bytes before the
    terminator are [s]; the terminator itself is [x00]. *)
Definition at_c (s : bytes) (i : nat) : byte := default x00 (s !! i).
Definition hd_c (s : bytes) : byte := at_c s 0.

(** The C string stored in a raw buffer: its bytes up to the first NUL. *)
Fixpoint cstr (raw : bytes) : bytes :=
  match raw with
  | [] => []
  | b :: r => if decide (b = x00) then [] else b :: cstr r
  end.

(** Bytes that may occur inside a C string. *)
Definition nonul (s : bytes) : Prop := x00 ∉ s.

(** [strncmp a b n == 0] for NUL-terminated strings. *)
Fixpoint strncmp_eq (a b : bytes) (n : nat) : bool :=
  match n with
  | O => true
  | S n' =>
      if decide (hd_c a = hd_c b) then
        if decide (hd_c a = x00) then true else strncmp_eq (tail a) (tail b) n'
      else false
  end.

(** [strcmp a b == 0]. *)
Definition strcmp_eq (a b : bytes) : bool := bool_decide (cstr a = cstr b).

(** [strchr s c]: the suffix starting at the first occurrence of [c]. *)
Fixpoint strchr (s : bytes) (c : byte) : option bytes :=
  match s with
  | [] => None
  | b :: r => if decide (b = c) then Some s else strchr r c
  end.

(** [isspace] in the C locale. *)
Definition isspace (b : byte) : bool :=
  let c := uchar b in (c =? 32)%Z || ((9 <=? c)%Z && (c <=? 13)%Z).
Definition isdigit (b : byte) : bool :=
  let c := uchar b in (48 <=? c)%Z && (c <=? 57)%Z.

(** ** Machine integers *)
Definition wrap32 (z : Z) : Z := (z mod 2 ^ 32)%Z.
Lemma wrap32_exact z : (0 <= z < 2 ^ 32)%Z → wrap32 z = z.
Proof. intros Hz. unfold wrap32. rewrite Z.mod_small; lia. Qed.
Definition wrap64 (z : Z) : Z := (z mod 2 ^ 64)%Z.
(** Conversion to [int32_t] *)
Definition to_int32 (z : Z) : Z := ((z + 2 ^ 31) mod 2 ^ 32 - 2 ^ 31)%Z.
Lemma to_int32_exact z : (- 2 ^ 31 <= z < 2 ^ 31)%Z → to_int32 z = z.
Proof. intros Hz. unfold to_int32. rewrite Z.mod_small; lia. Qed.
Definition INT_MAX : Z := (2 ^ 31 - 1)%Z.
Definition PTRDIFF_MAX : Z := (2 ^ 63 - 1)%Z.
Definition in_int (z : Z) : bool := ((- 2 ^ 31 <=? z) && (z <=? INT_MAX))%Z.
(** The numbers below [n], over which a loop counts *)
Definition upto (n : Z) : list Z := Z.of_nat <$> seq 0 (Z.to_nat n).

(** ** Generic lemmas *)

(** Properties of all 256 byte values, checked by evaluation. *)
Definition all_bytes : list byte :=
  (λ n, default x00 (Byte.of_N (N.of_nat n))) <$> seq 0 256.

Lemma elem_of_all_bytes b : b ∈ all_bytes.
Proof.
  unfold all_bytes. apply list_elem_of_fmap. exists (N.to_nat (Byte.to_N b)).
  rewrite N2Nat.id, Byte.of_to_N. split; [done|].
  apply elem_of_seq. pose proof (Byte.to_N_bounded b). lia.
Qed.

Lemma byte_forall (f : byte → bool) : forallb f all_bytes = true → ∀ b, f b = true.
Proof.
  intros H b. rewrite forallb_forall in H. apply H.
  apply list_elem_of_In, elem_of_all_bytes.
Qed.

(** Proves [∀ b, P b] for a decidable [P] by evaluating it on all bytes. *)
Ltac by_bytes :=
  match goal with
  | |- ∀ b : byte, @?P b =>
      let H := fresh in
      pose proof (byte_forall (λ b, bool_decide (P b))) as H; cbv beta in H;
      intros ?; eapply bool_decide_eq_true_1; apply H; vm_compute; reflexivity
  end.

Lemma uchar_range b : (0 ≤ uchar b < 256)%Z.
Proof. unfold uchar. pose proof (Byte.to_N_bounded b). lia. Qed.

Lemma uchar_to_byte z : uchar (to_byte z) = (z mod 256)%Z.
Proof.
  unfold uchar, to_byte. pose proof (Z.mod_pos_bound z 256).
  destruct (Byte.of_N (Z.to_N (z mod 256))) as [b|] eqn:E; simpl.
  - apply Byte.to_of_N in E. lia.
  - apply Byte.of_N_None_iff in E. lia.
Qed.

Lemma to_byte_uchar b : to_byte (uchar b) = b.
Proof.
  unfold to_byte. rewrite Z.mod_small by apply uchar_range.
  unfold uchar. rewrite N2Z.id, Byte.of_to_N. done.
Qed.

Lemma uchar_inj a b : uchar a = uchar b → a = b.
Proof. intros E. by rewrite <-(to_byte_uchar a), E, to_byte_uchar. Qed.

Lemma uchar_nonzero b : b ≠ x00 → uchar b ≠ 0%Z.
Proof. intros Hb E. apply Hb, uchar_inj. by rewrite E. Qed.

Lemma nonul_nil : nonul [].
Proof. unfold nonul. set_solver. Qed.
Lemma nonul_cons b s : nonul (b :: s) ↔ b ≠ x00 ∧ nonul s.
Proof. unfold nonul. set_solver. Qed.
Lemma nonul_app s1 s2 : nonul (s1 ++ s2) ↔ nonul s1 ∧ nonul s2.
Proof. unfold nonul. set_solver. Qed.

Lemma cstr_nonul s : nonul s → cstr s = s.
Proof.
  induction s as [|b s IH]; [done|]. rewrite nonul_cons. intros [Hb Hs]; simpl.
  by rewrite decide_False, IH.
Qed.
Lemma nonul_cstr s : nonul (cstr s).
Proof.
  induction s as [|b s IH]; simpl; [apply nonul_nil|].
  case_decide; [apply nonul_nil|]. by apply nonul_cons.
Qed.
Lemma cstr_app s r : nonul s → cstr (s ++ r) = s ++ cstr r.
Proof.
  induction s as [|b s IH]; [done|]. rewrite nonul_cons. intros [Hb Hs]; simpl.
  by rewrite decide_False, IH.
Qed.
Lemma cstr_app_nul s r : nonul s → cstr (s ++ x00 :: r) = s.
Proof.
  induction s as [|b s IH]; simpl; [done|].
  rewrite nonul_cons. intros [Hb Hs]. by rewrite decide_False, IH.
Qed.
Lemma cstr_app_end s : cstr (s ++ [x00]) = cstr s.
Proof.
  induction s as [|b s IH]; simpl; [done|]. case_decide; [done|]. by rewrite IH.
Qed.
Lemma length_cstr s : length (cstr s) ≤ length s.
Proof. induction s as [|b s IH]; simpl; [done|]. case_decide; simpl; lia. Qed.

(** Literals hold no NUL: checked by evaluation. *)
Lemma nonul_lit s : forallb (λ b, negb (bool_decide (b = x00))) s = true → nonul s.
Proof.
  rewrite forallb_forall. unfold nonul. intros Hs Hin%list_elem_of_In. by apply Hs in Hin.
Qed.

Create HintDb cdb.
#[export] Hint Resolve nonul_nil nonul_cstr cstr_nonul uchar_range : cdb.
