(* ===== verification/CMem.v ===== *)
(** * The C memory model used by the pointer-manipulating components

    A memory is a finite map from addresses to typed blocks together with the
    number of allocation calls made so far.  A computation is a partial state
    transformer: [None] is undefined behaviour (a NULL or dangling pointer is
    dereferenced, a block is freed twice, a block is accessed at another type,
    an index is outside an array, a signed operation overflows), or a recursion
    that does not end.  Whether the k-th call of [malloc] succeeds is decided by
    the environment ([Malloc]), so that every theorem about an operation that
    allocates covers every pattern of allocation failures. *)
From stdpp Require Import base list gmap numbers option.
From Stdlib Require Import ZArith Lia.
From S2P Require Import Prelude.

Abbreviation loc := positive.
(** A pointer: [None] is NULL. *)
Abbreviation ptr := (option loc).

(** The allocator, as the environment sees it: the answer to the k-th request,
    of [sz] bytes.  No object is larger than [PTRDIFF_MAX] bytes. *)
Class Malloc := {
    malloc_ok : positive → Z → bool;
    malloc_bound : ∀ k sz, malloc_ok k sz = true → (sz ≤ PTRDIFF_MAX)%Z
  }.

(** An allocator that refuses only impossible requests, one that refuses all,
    and one that serves the first [n] requests. *)
Program Definition malloc_always : Malloc := {| malloc_ok := λ _ sz, (sz <=? PTRDIFF_MAX)%Z |}.
Next Obligation. intros k sz Hk. by apply Z.leb_le. Qed.
Program Definition malloc_never : Malloc := {| malloc_ok := λ _ _, false |}.
Next Obligation. done. Qed.
Program Definition malloc_first (n : positive) : Malloc :=
  {| malloc_ok := λ k sz, (k <=? n)%positive && (sz <=? PTRDIFF_MAX)%Z |}.
Next Obligation. simpl. intros n k sz [_ Hk]%andb_prop. by apply Z.leb_le. Qed.

Section mem.
Context {B : Type}.

Record mem := Mem { heap : gmap loc B; next : positive }.

Definition M (A : Type) : Type := mem → option (A * mem).

#[global] Instance M_ret : MRet M := λ A a m, Some (a, m).
#[global] Instance M_bind : MBind M :=
  λ A C (k : A → M C) (c : M A), λ m,
    match c m with Some (a, m') => k a m' | None => None end.

(** Undefined behaviour. *)
Definition undef {A} : M A := λ _, None.

(** [assert_def b]: continue if the operation is defined. *)
Definition assert_def (b : bool) : M unit := if b then mret () else undef.

(** [malloc(sz)] whose result the caller initialises to [b]. *)
Definition malloc `{Malloc} (sz : Z) (b : B) : M ptr := λ m,
  let k := next m in
  if malloc_ok k sz then
    Some (Some k, Mem (<[k := b]> (heap m)) (Pos.succ k))
  else Some (None, Mem (heap m) (Pos.succ k)).

(** [free(p)]: no effect on NULL, undefined on a pointer that is not live. *)
Definition cfree (p : ptr) : M unit := λ m,
  match p with
  | None => Some ((), m)
  | Some l =>
      match heap m !! l with
      | Some _ => Some ((), Mem (delete l (heap m)) (next m))
      | None => None
      end
  end.

Definition load (p : ptr) : M B := λ m,
  match p with
  | None => None
  | Some l => match heap m !! l with Some b => Some (b, m) | None => None end
  end.

Definition store (p : ptr) (b : B) : M unit := λ m,
  match p with
  | None => None
  | Some l =>
      match heap m !! l with
      | Some _ => Some ((), Mem (<[l := b]> (heap m)) (next m))
      | None => None
      end
  end.

(** A bound for recursions that follow pointers through live blocks: on an
    acyclic structure no path is longer than the number of live blocks. *)
Definition heap_fuel {A} (f : nat → M A) : M A := λ m, f (S (size (heap m))) m.

(** [for (i = ...)] over the indices [l], with an early [return]. *)
Fixpoint for_each {R} (l : list nat) (body : nat → M (option R)) : M (option R) :=
  match l with
  | [] => mret None
  | i :: l' => r ← body i;
               match r with Some v => mret (Some v) | None => for_each l' body end
  end.

(** [for (i = 0; i < n; i++) body(i)]: [Some r] when the body returned [r]. *)
Definition for_range {R} (n : nat) (body : nat → M (option R)) : M (option R) :=
  for_each (seq 0 n) body.
End mem.
Arguments mem : clear implicits.
Arguments M : clear implicits.

(** Signed 32-bit addition: undefined on overflow. *)
Definition int_add {B} (x y : Z) : M B Z :=
  if in_int (x + y) then mret (x + y)%Z else undef.
