(* ===== verification/SepLogic.v ===== *)
(** * A linear separation logic for the C memory model

    [heapProp] is the logic of assertions over heaps with the Iris proof mode:
    an instance of Iris's [bi] interface whose model is the set of finite heaps.
    Assertions are exact about ownership ([emp] holds of the empty heap only),
    so a postcondition [emp] says that everything was given back to the
    allocator.  [wp c Φ] is total: it says that [c] runs without undefined
    behaviour to a result that satisfies [Φ], for every frame. *)
From stdpp Require Import base list gmap numbers.
From iris.proofmode Require Import proofmode.
From S2P Require Import Prelude CMem.

Section heapprop.
Context {B : Type}.

Record heapProp := HeapProp { hp_holds :> gmap loc B → Prop }.
Implicit Types P Q R : heapProp.
Implicit Types h : gmap loc B.

Local Instance hp_equiv : Equiv heapProp := λ P Q, ∀ h, P h ↔ Q h.
Local Instance hp_equivalence : Equivalence (≡@{heapProp}).
Proof. split; repeat intro; firstorder. Qed.
Canonical Structure heapPropO := discreteO heapProp.

Record hp_entails P Q : Prop := HpEntails { hp_at : ∀ h, P h → Q h }.
Definition hp_emp : heapProp := HeapProp (λ h, h = ∅).
Definition hp_pure (φ : Prop) : heapProp := HeapProp (λ _, φ).
Definition hp_and P Q : heapProp := HeapProp (λ h, P h ∧ Q h).
Definition hp_or P Q : heapProp := HeapProp (λ h, P h ∨ Q h).
Definition hp_impl P Q : heapProp := HeapProp (λ h, P h → Q h).
Definition hp_forall A (Φ : A → heapProp) : heapProp := HeapProp (λ h, ∀ x, Φ x h).
Definition hp_exist A (Φ : A → heapProp) : heapProp := HeapProp (λ h, ∃ x, Φ x h).
Definition hp_sep P Q : heapProp :=
  HeapProp (λ h, ∃ h1 h2, h = h1 ∪ h2 ∧ h1 ##ₘ h2 ∧ P h1 ∧ Q h2).
Definition hp_wand P Q : heapProp :=
  HeapProp (λ h, ∀ h', h ##ₘ h' → P h' → Q (h ∪ h')).
Definition hp_pers P : heapProp := HeapProp (λ _, hp_entails hp_emp P).
Definition hp_later P : heapProp := P.

Lemma heapProp_mixin :
  BiMixin hp_entails hp_emp hp_pure hp_and hp_or hp_impl hp_forall hp_exist
    hp_sep hp_wand.
Proof.
  assert (Heq : ∀ n P Q, P ≡{n}≡ Q → ∀ h, P h ↔ Q h) by done.
  split.
  - split; [by intros P|]. intros P Q R [H1] [H2]. split; auto.
  - intros P Q. split; [intros H; split; split=> h; by apply H|].
    intros [[H1] [H2]] h; split; auto.
  - intros n φ ψ H h. done.
  - intros n P P' HP Q Q' HQ h; simpl. by rewrite (Heq _ _ _ HP) (Heq _ _ _ HQ).
  - intros n P P' HP Q Q' HQ h; simpl. by rewrite (Heq _ _ _ HP) (Heq _ _ _ HQ).
  - intros n P P' HP Q Q' HQ h; simpl. by rewrite (Heq _ _ _ HP) (Heq _ _ _ HQ).
  - intros A n Φ Ψ H h; simpl. split; intros Hx a; by apply (Heq _ _ _ (H a)).
  - intros A n Φ Ψ H h; simpl. split; intros [a Hx]; exists a; by apply (Heq _ _ _ (H a)).
  - intros n P P' HP Q Q' HQ h; simpl.
    by setoid_rewrite (Heq _ _ _ HP); setoid_rewrite (Heq _ _ _ HQ).
  - intros n P P' HP Q Q' HQ h; simpl.
    by setoid_rewrite (Heq _ _ _ HP); setoid_rewrite (Heq _ _ _ HQ).
  - by split.
  - intros φ P H. split=> h Hφ. by apply (H Hφ).
  - intros P Q; split=> h HPQ; by destruct HPQ.
  - intros P Q; split=> h HPQ; by destruct HPQ.
  - intros P Q R [H1] [H2]; split=> h HP. split; auto.
  - intros P Q; split=> h HP; by left.
  - intros P Q; split=> h HP; by right.
  - intros P Q R [H1] [H2]; split=> h [|]; auto.
  - intros P Q R [H]; split=> h HP HQ. by apply H.
  - intros P Q R [H]; split=> h [HP HQ]. by apply H.
  - intros A P Ψ H; split=> h HP a. by apply H.
  - intros A Ψ a; split=> h H. apply H.
  - intros A Ψ a; split=> h H. by exists a.
  - intros A Φ Q H; split=> h [a Ha]. by apply (H a).
  - intros P P' Q Q' [H1] [H2]; split; intros h (h1 & h2 & -> & Hd & HP & HQ). exists h1, h2. auto.
  - intros P; split=> h HP. exists ∅, h. rewrite left_id_L.
    split_and!; [done|apply map_disjoint_empty_l|done|done].
  - intros P; split; intros h (h1 & h2 & -> & _ & -> & HP). by rewrite left_id_L.
  - intros P Q; split; intros h (h1 & h2 & -> & Hd & HP & HQ). exists h2, h1.
    by rewrite map_union_comm.
  - intros P Q R; split; intros h (h12 & h3 & -> & Hd & (h1 & h2 & -> & Hd' & HP & HQ) & HR).
    apply map_disjoint_union_l in Hd as [Hd1 Hd2].
    exists h1, (h2 ∪ h3). rewrite assoc_L. split_and!; [done|..|done|].
    + by apply map_disjoint_union_r.
    + exists h2, h3. naive_solver.
  - intros P Q R [H]; split=> h HP h' Hd HQ. apply H. exists h, h'. naive_solver.
  - intros P Q R [H]; split; intros h (h1 & h2 & -> & Hd & HP & HQ). by apply H.
Qed.

Lemma heapProp_pers_mixin :
  BiPersistentlyMixin hp_entails hp_emp hp_and hp_exist hp_sep hp_pers.
Proof.
  eapply bi_persistently_mixin_discrete, heapProp_mixin; [done| |done].
  intros A Φ [H]. destruct (H ∅ eq_refl) as [x Hx]. exists x. split. by intros h ->.
Qed.

Lemma heapProp_later_mixin :
  BiLaterMixin hp_entails hp_pure hp_or hp_impl hp_forall hp_exist hp_sep
    hp_pers hp_later.
Proof. eapply bi_later_mixin_id; [done|apply heapProp_mixin]. Qed.

Canonical Structure heapPropI : bi :=
  {| bi_ofe_mixin := ofe_mixin_of heapProp; bi_bi_mixin := heapProp_mixin;
     bi_bi_persistently_mixin := heapProp_pers_mixin;
     bi_bi_later_mixin := heapProp_later_mixin |}.

#[global] Instance heapProp_pure_forall : BiPureForall heapPropI.
Proof. intros A φ. split=> h Hx. exact Hx. Qed.
End heapprop.
Arguments heapProp : clear implicits.
Arguments heapPropI : clear implicits.

(** ** Ownership of a block *)
Section points_to.
Context {B : Type}.
Implicit Types P Q : heapProp B.

Definition points_to (l : loc) (b : B) : heapPropI B :=
  HeapProp (λ h, h = {[ l := b ]}).

(** At least [n] blocks are owned. *)
Definition at_least (n : nat) : heapPropI B := HeapProp (λ h, n ≤ size h).
End points_to.
Notation "l ↦ b" := (points_to l b) (at level 20, format "l  ↦  b") : bi_scope.

Section rules.
Context {B : Type}.
Notation hProp := (heapPropI B).
Implicit Types P Q : hProp.

(** Total weakest precondition: for every frame [hf], the computation runs to
    the end, leaves the frame alone, and never reuses an address. *)
Definition wp {A} (c : M B A) (Φ : A → hProp) : hProp := HeapProp (λ h,
  ∀ hf n, h ##ₘ hf → (∀ l, is_Some ((h ∪ hf) !! l) → (l < n)%positive) →
  ∃ a h' n', c (Mem (h ∪ hf) n) = Some (a, Mem (h' ∪ hf) n') ∧ h' ##ₘ hf ∧
    (∀ l, is_Some ((h' ∪ hf) !! l) → (l < n')%positive) ∧ Φ a h').

#[global] Instance wp_proper A (c : M B A) :
  Proper (pointwise_relation _ (⊢) ==> (⊢)) (wp c).
Proof.
  intros Φ Ψ H. split=> h Hw hf n Hd Hn.
  destruct (Hw hf n Hd Hn) as (a & h' & n' & ? & ? & ? & HΦ).
  exists a, h', n'. split_and!; try done. by apply H.
Qed.

Lemma wp_ret {A} (a : A) Φ : Φ a ⊢ wp (mret a) Φ.
Proof. split=> h HΦ hf n Hd Hn. by exists a, h, n. Qed.

Lemma wp_bind {A C} (c : M B A) (k : A → M B C) Φ :
  wp c (λ a, wp (k a) Φ) ⊢ wp (c ≫= k) Φ.
Proof.
  split=> h Hw hf n Hd Hn.
  destruct (Hw hf n Hd Hn) as (a & h' & n' & Hc & Hd' & Hn' & Hk).
  destruct (Hk hf n' Hd' Hn') as (a2 & h2 & n2 & Hc2 & ?).
  exists a2, h2, n2. rewrite /mbind /M_bind Hc. done.
Qed.

Lemma wp_frame_wand {A} (c : M B A) Φ Ψ :
  wp c Φ -∗ (∀ a, Φ a -∗ Ψ a) -∗ wp c Ψ.
Proof.
  apply bi.entails_wand, bi.wand_intro_r. split; intros h (h1 & h2 & -> & Hd & Hw & Hk) hf n Hdf Hn.
  apply map_disjoint_union_l in Hdf as [Hd1 Hd2].
  destruct (Hw (h2 ∪ hf) n) as (a & h' & n' & Hc & Hd' & Hn' & HΦ).
  { by apply map_disjoint_union_r. }
  { intros l. rewrite assoc_L. apply Hn. }
  apply map_disjoint_union_r in Hd' as [Hd1' Hd2'].
  exists a, (h' ∪ h2), n'. rewrite -!assoc_L. split_and!; [done|..].
  - by apply map_disjoint_union_l.
  - done.
  - rewrite map_union_comm //. by apply Hk.
Qed.

Lemma wp_mono {A} (c : M B A) Φ Ψ : (∀ a, Φ a ⊢ Ψ a) → wp c Φ ⊢ wp c Ψ.
Proof. intros H. by apply wp_proper. Qed.

Lemma wp_wand_apply {A} (c : M B A) P Φ Ψ :
  (P ⊢ wp c Φ) → P -∗ (∀ a, Φ a -∗ Ψ a) -∗ wp c Ψ.
Proof. iIntros (H) "HP HΦ". iApply (wp_frame_wand with "[HP] HΦ"). by iApply H. Qed.

Lemma wp_malloc `{Malloc} sz b Φ :
  (∀ r, ⌜if r is Some _ then (sz ≤ PTRDIFF_MAX)%Z
         else ∃ k, malloc_ok k sz = false⌝ →
     (if r is Some l then l ↦ b else emp) -∗ Φ r) ⊢ wp (malloc sz b) Φ.
Proof.
  split=> h HΦ hf n Hd Hn. rewrite /malloc /=.
  destruct (malloc_ok n sz) eqn:Hok.
  - assert (Hfresh : (h ∪ hf) !! n = None).
    { apply eq_None_not_Some. intros Hs. specialize (Hn n Hs). lia. }
    pose proof (lookup_union_None_1 _ _ _ Hfresh) as [Hh Hhf].
    exists (Some n), (<[n:=b]> h), (Pos.succ n). rewrite insert_union_l. split_and!.
    + done.
    + by apply map_disjoint_insert_l.
    + intros l. rewrite -insert_union_l. destruct (decide (l = n)) as [->|]; [lia|].
      rewrite lookup_insert_ne //. intros ?%Hn. lia.
    + rewrite insert_union_singleton_r //.
      apply (HΦ (Some n)); [by apply (malloc_bound n)| |done].
      by apply map_disjoint_singleton_r.
  - exists None, h, (Pos.succ n). split_and!; [done..| |].
    + intros l ?%Hn. lia.
    + rewrite -(right_id_L ∅ (∪) h).
      apply (HΦ None); [by exists n|apply map_disjoint_empty_r|done].
Qed.

Lemma wp_load l b Φ : l ↦ b -∗ (l ↦ b -∗ Φ b) -∗ wp (load (Some l)) Φ.
Proof.
  apply bi.entails_wand, bi.wand_intro_r. split; intros h (h1 & h2 & -> & Hd & Hl & Hk) hf n Hdf Hn.
  rewrite Hl /= in Hd Hdf Hn |- *. rewrite /load /=.
  rewrite -assoc_L lookup_union_l' ?lookup_singleton_eq; [|by eexists].
  exists b, ({[l := b]} ∪ h2), n. rewrite assoc_L. split_and!; [done..|].
  rewrite map_union_comm //. by apply Hk.
Qed.

Lemma wp_store l b b' Φ : l ↦ b -∗ (l ↦ b' -∗ Φ ()) -∗ wp (store (Some l) b') Φ.
Proof.
  apply bi.entails_wand, bi.wand_intro_r. split; intros h (h1 & h2 & -> & Hd & Hl & Hk) hf n Hdf Hn.
  rewrite Hl /= in Hd Hdf Hn |- *. rewrite /store /=.
  rewrite -assoc_L lookup_union_l' ?lookup_singleton_eq; [|by eexists].
  exists (), ({[l := b']} ∪ h2), n. rewrite assoc_L.
  rewrite !insert_union_l insert_singleton_eq. split_and!; [done|..].
  - apply map_disjoint_union_l in Hdf as [H1 ?]. apply map_disjoint_union_l. split; [|done].
    apply map_disjoint_singleton_l. by apply map_disjoint_singleton_l in H1.
  - intros k Hk'. apply Hn. revert Hk'. rewrite !lookup_union_is_Some.
    destruct (decide (k = l)) as [->|]; [rewrite !lookup_singleton_eq; eauto|].
    by rewrite !lookup_singleton_ne.
  - rewrite map_union_comm; [apply Hk; [|done]; symmetry|];
      apply map_disjoint_singleton_l; by apply map_disjoint_singleton_l in Hd.
Qed.

Lemma wp_free l b Φ : l ↦ b -∗ Φ () -∗ wp (cfree (Some l)) Φ.
Proof.
  apply bi.entails_wand, bi.wand_intro_r. split; intros h (h1 & h2 & -> & Hd & Hl & Hk) hf n Hdf Hn.
  rewrite Hl /= in Hd Hdf Hn |- *. rewrite /cfree /=.
  rewrite -assoc_L lookup_union_l' ?lookup_singleton_eq; [|by eexists].
  apply map_disjoint_union_l in Hdf as [H1 H2].
  apply map_disjoint_singleton_l in H1, Hd.
  exists (), h2, n. rewrite delete_union delete_singleton_eq left_id_L.
  rewrite delete_id ?lookup_union_None //. split_and!; [done..| |done].
  intros k Hk'. apply Hn. revert Hk'. rewrite !lookup_union_is_Some. naive_solver.
Qed.

Lemma wp_free_null Φ : Φ () ⊢ wp (cfree None) Φ.
Proof. split=> h HΦ hf n Hd Hn. by exists (), h, n. Qed.

Lemma at_least_0 : ⊢ (at_least 0 : hProp).
Proof. split=> h _ /=. lia. Qed.
Lemma at_least_mono n m : m ≤ n → at_least n ⊢ (at_least m : hProp).
Proof. intros H. split=> h /=. lia. Qed.
Lemma at_least_sep n m : at_least n ∗ at_least m ⊢ (at_least (n + m) : hProp).
Proof. split; intros h (h1 & h2 & -> & Hd & H1 & H2); simpl. rewrite map_size_disj_union //=. simpl in *. lia. Qed.
Lemma points_to_at_least l b : l ↦ b ⊢ (at_least 1 : hProp).
Proof. split=> h -> /=. by rewrite map_size_singleton. Qed.
#[global] Instance at_least_absorbing n : Absorbing (at_least n : hProp).
Proof.
  rewrite /Absorbing /bi_absorbingly. split; intros h (h1 & h2 & -> & Hd & _ & H2); simpl.
  rewrite map_size_disj_union //. simpl in *. lia.
Qed.

(** The recursion bound is at least the number of owned blocks. *)
Lemma wp_heap_fuel {A} (f : nat → M B A) n P Φ :
  (P ⊢ at_least n) → (∀ k, n < k → P ⊢ wp (f k) Φ) → P ⊢ wp (heap_fuel f) Φ.
Proof.
  intros [Hs] H. split=> h HP hf k Hd Hn. rewrite /heap_fuel /=.
  apply (H (S (size (h ∪ hf)))); [|done..].
  pose proof (Hs h HP) as Hle. simpl in Hle. rewrite map_size_disj_union //. lia.
Qed.

Lemma points_to_ne l1 l2 b1 b2 : l1 ↦ b1 -∗ l2 ↦ b2 -∗ (⌜l1 ≠ l2⌝ : hProp).
Proof.
  apply bi.entails_wand, bi.wand_intro_r. split; intros h (h1 & h2 & -> & Hd & H1 & H2); simpl.
  simpl in H1, H2. subst. intros ->.
  apply map_disjoint_singleton_l in Hd. by rewrite lookup_singleton_eq in Hd.
Qed.

(** The meaning of a specification, without the logic: from every memory that
    consists of an owned part satisfying [P] and a frame [hf], whatever addresses
    were used before, the computation runs to the end without undefined behaviour,
    leaves the frame untouched, and what is owned afterwards satisfies [Q]; blocks
    that are not mentioned in [Q] do not exist any more. *)
Definition triple {A} (P : hProp) (c : M B A) (Q : A → hProp) : Prop :=
  ∀ h hf n, P h → h ##ₘ hf → (∀ l, is_Some ((h ∪ hf) !! l) → (l < n)%positive) →
  ∃ a h' n', c (Mem (h ∪ hf) n) = Some (a, Mem (h' ∪ hf) n') ∧ h' ##ₘ hf ∧ Q a h'.

Lemma triple_intro {A} (c : M B A) P (Q : A → hProp) : (P ⊢ wp c Q) → triple P c Q.
Proof.
  intros [Hw] h hf n HP Hd Hn. destruct (Hw h HP hf n Hd Hn) as (a & h' & n' & ? & ? & ? & ?).
  exists a, h', n'. done.
Qed.

(** ** Reasoning about one run

    A proved weakest precondition describes the run from every memory that fits. *)
Definition fits_below (h : gmap loc B) (n : positive) : Prop := ∀ l, is_Some (h !! l) → (l < n)%positive.
Lemma wp_run {A} (c : M B A) P Φ h hf n :
  (P ⊢ wp c Φ) → P h → h ##ₘ hf → fits_below (h ∪ hf) n →
  ∃ a h' n', c (Mem (h ∪ hf) n) = Some (a, Mem (h' ∪ hf) n') ∧ h' ##ₘ hf ∧ fits_below (h' ∪ hf) n' ∧ Φ a h'.
Proof. intros [Hw] HP Hd Hn. exact (Hw h HP hf n Hd Hn). Qed.

(** The block at [l] is owned, whatever it holds. *)
Definition owned (l : loc) : hProp := HeapProp (λ h, is_Some (h !! l)).
Lemma points_to_owned l b : l ↦ b ⊢ owned l.
Proof. split=> h -> /=. rewrite lookup_singleton_eq. by eexists. Qed.
#[global] Instance owned_absorbing l : Absorbing (owned l).
Proof.
  rewrite /Absorbing /bi_absorbingly. split; intros h (h1 & h2 & -> & Hd & _ & H2); simpl in *.
  apply lookup_union_is_Some. by right.
Qed.

(** A computation that only reads leaves every property of the owned heap as it was. *)
Definition reads {A} (c : M B A) : Prop := ∀ m a m', c m = Some (a, m') → m' = m.
Lemma wp_reads {A} (c : M B A) P Q Φ : reads c → (P ⊢ wp c Φ) → P ∧ Q ⊢ wp c (λ a, Φ a ∧ Q).
Proof.
  intros Hr [Hw]. split; intros h [HP HQ] hf n Hd Hn.
  destruct (Hw h HP hf n Hd Hn) as (a & h' & n' & E & Hd' & Hn' & HΦ).
  exists a, h', n'. split_and!; [done..|]. pose proof (Hr _ _ _ E) as [= Heq _].
  assert (h' = h) as -> by (by apply (map_union_cancel_r _ _ hf)). by split.
Qed.
End rules.
#[global] Opaque wp points_to at_least owned.

(** Computations that only read; the database has the components' own. *)
Create HintDb reads.
Section reads.
Context {B : Type}.
Lemma reads_ret {A} (a : A) : reads (mret a : M B A).
Proof. by intros m a' m' [= _ <-]. Qed.
Lemma reads_undef {A} : reads (undef : M B A).
Proof. done. Qed.
Lemma reads_load p : reads (load p : M B B).
Proof. intros m a m'. rewrite /load. destruct p as [l|]; [|done]. by destruct (heap m !! l); intros [= _ <-]. Qed.
Lemma reads_bind {A C} (c : M B A) (k : A → M B C) : reads c → (∀ a, reads (k a)) → reads (c ≫= k).
Proof.
  intros Hc Hk m b m'. rewrite /mbind /M_bind. destruct (c m) as [[a m1]|] eqn:E; [|done].
  intros E'. by rewrite (Hk _ _ _ _ E') (Hc _ _ _ E).
Qed.
Lemma reads_for_each {R} l (body : nat → M B (option R)) : (∀ i, reads (body i)) → reads (for_each l body).
Proof.
  intros Hb. induction l as [|i l IH]; [apply reads_ret|]. apply reads_bind; [apply Hb|]. intros [v|]; [apply reads_ret|done].
Qed.
End reads.
#[export] Hint Resolve reads_ret reads_undef reads_load reads_for_each : reads.
Ltac reads_steps := repeat first
  [ solve [auto with reads]
  | match goal with |- reads (match ?x with _ => _ end) => destruct x end
  | apply reads_for_each; intros ?
  | apply reads_bind; [|intros ?] ].
