(* ===== verification/ParsonText.v ===== *)
(** * Parson: the routines on text (common/json/parson.c)

    Character classification, UTF-8 and UTF-16 handling, quoted strings,
    comments.  A [const char *] cursor is the list of bytes from the cursor to
    the terminating NUL, which the list leaves out; [hd_c] and [at_c] read [x00]
    at the end.  Routines that report failure through their status return
    [None]; every caller abandons the cursor in that case. *)
From stdpp Require Import base list numbers option strings.
From Stdlib Require Import ZArith Lia.
From S2P Require Import Prelude.
Local Open Scope Z_scope.

(** [SKIP_CHAR] *)
Definition SKIP_CHAR (s : bytes) : bytes := tail s.

(** [SKIP_WHITESPACES] *)
Fixpoint SKIP_WHITESPACES (s : bytes) : bytes :=
  match s with
  | b :: r => if isspace b then SKIP_WHITESPACES r else s
  | [] => []
  end.

(** [IS_CONT]: is this a UTF-8 continuation byte? *)
Definition IS_CONT (b : byte) : bool := Z.land (uchar b) 0xC0 =? 0x80.

Definition hex_char_to_int (c : byte) : Z :=
  let z := uchar c in
  if (uchar "0" <=? z) && (z <=? uchar "9") then z - uchar "0"
  else if (uchar "a" <=? z) && (z <=? uchar "f") then z - uchar "a" + 10
  else if (uchar "A" <=? z) && (z <=? uchar "F") then z - uchar "A" + 10
  else -1.

Definition parse_utf16_hex (s : bytes) : option Z :=
  if bool_decide (at_c s 0 = x00) || bool_decide (at_c s 1 = x00) ||
     bool_decide (at_c s 2 = x00) || bool_decide (at_c s 3 = x00) then None
  else
    let x1 := hex_char_to_int (at_c s 0) in
    let x2 := hex_char_to_int (at_c s 1) in
    let x3 := hex_char_to_int (at_c s 2) in
    let x4 := hex_char_to_int (at_c s 3) in
    if (x1 =? -1) || (x2 =? -1) || (x3 =? -1) || (x4 =? -1) then None
    else Some (Z.lor (Z.lor (Z.lor (Z.shiftl x1 12) (Z.shiftl x2 8)) (Z.shiftl x3 4)) x4).

Definition num_bytes_in_utf8_sequence (c : byte) : Z :=
  let z := uchar c in
  if (z =? 0xC0) || (z =? 0xC1) || (z >? 0xF4) || IS_CONT c then 0
  else if Z.land z 0x80 =? 0 then 1
  else if Z.land z 0xE0 =? 0xC0 then 2
  else if Z.land z 0xF0 =? 0xE0 then 3
  else if Z.land z 0xF8 =? 0xF0 then 4
  else 0.

(** The code point assembled by [verify_utf8_sequence], if the lead byte is
    followed by enough continuation bytes. *)
Definition utf8_codepoint (s : bytes) (len : Z) : option Z :=
  let cont cp i := Z.lor (Z.shiftl cp 6) (Z.land (uchar (at_c s i)) 0x3F) in
  if len =? 1 then Some (uchar (at_c s 0))
  else if (len =? 2) && IS_CONT (at_c s 1) then
    Some (cont (Z.land (uchar (at_c s 0)) 0x1F) 1%nat)
  else if (len =? 3) && IS_CONT (at_c s 1) && IS_CONT (at_c s 2) then
    Some (cont (cont (Z.land (uchar (at_c s 0)) 0xF) 1%nat) 2%nat)
  else if (len =? 4) && IS_CONT (at_c s 1) && IS_CONT (at_c s 2) && IS_CONT (at_c s 3) then
    Some (cont (cont (cont (Z.land (uchar (at_c s 0)) 0x7) 1%nat) 2%nat) 3%nat)
  else None.

(** Returns the status and the length written through [len]. *)
Definition verify_utf8_sequence (s : bytes) : bool * Z :=
  let len := num_bytes_in_utf8_sequence (at_c s 0) in
  match utf8_codepoint s len with
  | None => (false, len)
  | Some cp =>
      if ((cp <? 0x80) && (len >? 1)) || ((cp <? 0x800) && (len >? 2)) ||
         ((cp <? 0x10000) && (len >? 3)) then (false, len)
      else if cp >? 0x10FFFF then (false, len)
      else if (cp >=? 0xD800) && (cp <=? 0xDFFF) then (false, len)
      else (true, len)
  end.

(** The loop of [is_valid_utf8]; a verified sequence is at least one byte long,
    so [string_len] iterations are enough. *)
Fixpoint is_valid_utf8_loop (fuel : nat) (s : bytes) (string_len : Z) : bool :=
  match fuel with
  | O => bool_decide (string_len ≤ 0)
  | S fuel =>
      if 0 <? string_len then
        match verify_utf8_sequence s with
        | (true, len) => is_valid_utf8_loop fuel (drop (Z.to_nat len) s) (string_len - len)
        | (false, _) => false
        end
      else true
  end.
Definition is_valid_utf8 (s : bytes) (string_len : Z) : bool :=
  is_valid_utf8_loop (Z.to_nat string_len) s string_len.

(** [while (length--) if (strchr("xX", string[length])) return 0;] *)
Fixpoint no_hex_marker (s : bytes) (length : nat) : bool :=
  match length with
  | O => true
  | S n =>
      let c := at_c s n in
      if bool_decide (c = "x"%byte ∨ c = "X"%byte ∨ c = x00) then false
      else no_hex_marker s n
  end.
Definition is_decimal (s : bytes) (length : nat) : bool :=
  if (1 <? Z.of_nat length) && bool_decide (at_c s 0 = "0"%byte)
       && negb (bool_decide (at_c s 1 = "."%byte)) then false
  else if (2 <? Z.of_nat length) && strncmp_eq s (bs "-0") 2
       && negb (bool_decide (at_c s 2 = "."%byte)) then false
  else no_hex_marker s length.

(** ** Comments *)

(** [strstr s tok], as the offset of the first occurrence. *)
Fixpoint strstr (s tok : bytes) : option nat :=
  if strncmp_eq s tok (length tok) then Some O
  else match s with
       | [] => None
       | _ :: r => S <$> strstr r tok
       end.

(** The loop of [remove_comments]: the result is the buffer after the call. *)
Fixpoint remove_comments_loop (fuel : nat) (s start_token end_token : bytes)
    (in_string escaped : bool) : bytes :=
  match fuel, s with
  | S fuel, c :: r =>
      if bool_decide (c = "\"%byte) && negb escaped then
        c :: remove_comments_loop fuel r start_token end_token in_string true
      else if bool_decide (c = x22) && negb escaped then
        c :: remove_comments_loop fuel r start_token end_token (negb in_string) false
      else if negb in_string && strncmp_eq s start_token (length start_token) then
        let after := drop (length start_token) s in
        let blanked := replicate (length start_token) " "%byte in
        match strstr after end_token with
        | None => blanked ++ after
        | Some k =>
            let n := (k + length end_token)%nat in
            blanked ++ replicate n " "%byte ++
            remove_comments_loop fuel (drop n after) start_token end_token in_string false
        end
      else c :: remove_comments_loop fuel r start_token end_token in_string false
  | _, _ => s
  end.
Definition remove_comments (s start_token end_token : bytes) : bytes :=
  if bool_decide (length start_token = 0%nat) || bool_decide (length end_token = 0%nat)
  then s
  else remove_comments_loop (length s) s start_token end_token false false.

(** ** Quoted strings *)

(** The loop of [skip_quotes], after the opening quote. *)
Fixpoint skip_quotes_loop (s : bytes) : option bytes :=
  match s with
  | [] => None
  | c :: r =>
      if decide (c = x22) then Some r
      else if decide (c = "\"%byte) then
        match r with
        | [] => None
        | _ :: r' => skip_quotes_loop r'
        end
      else skip_quotes_loop r
  end.
Definition skip_quotes (s : bytes) : option bytes :=
  if decide (hd_c s = x22) then skip_quotes_loop (SKIP_CHAR s) else None.

(** [parse_utf16]: [s] is at the [u] of an escape.  The result is the cursor at
    the last character of the escape and the UTF-8 bytes written. *)
Definition parse_utf16 (s : bytes) : option (bytes * bytes) :=
  let p := tail s in
  match parse_utf16_hex p with
  | None => None
  | Some cp =>
      let b z := to_byte z in
      if cp <? 0x80 then Some (drop 3 p, [b cp])
      else if cp <? 0x800 then
        Some (drop 3 p, [b (Z.lor (Z.land (Z.shiftr cp 6) 0x1F) 0xC0);
                         b (Z.lor (Z.land cp 0x3F) 0x80)])
      else if (cp <? 0xD800) || (cp >? 0xDFFF) then
        Some (drop 3 p, [b (Z.lor (Z.land (Z.shiftr cp 12) 0x0F) 0xE0);
                         b (Z.lor (Z.land (Z.shiftr cp 6) 0x3F) 0x80);
                         b (Z.lor (Z.land cp 0x3F) 0x80)])
      else if (cp >=? 0xD800) && (cp <=? 0xDBFF) then
        let lead := cp in
        let p := drop 4 p in
        if negb (bool_decide (hd_c p = "\"%byte)) then None else
        let p := tail p in
        if negb (bool_decide (hd_c p = "u"%byte)) then None else
        let p := tail p in
        match parse_utf16_hex p with
        | None => None
        | Some trail =>
            if (trail <? 0xDC00) || (trail >? 0xDFFF) then None else
            let cp := Z.lor (Z.shiftl (Z.land (lead - 0xD800) 0x3FF) 10)
                            (Z.land (trail - 0xDC00) 0x3FF) + 0x010000 in
            Some (drop 3 p, [b (Z.lor (Z.land (Z.shiftr cp 18) 0x07) 0xF0);
                             b (Z.lor (Z.land (Z.shiftr cp 12) 0x3F) 0x80);
                             b (Z.lor (Z.land (Z.shiftr cp 6) 0x3F) 0x80);
                             b (Z.lor (Z.land cp 0x3F) 0x80)])
        end
      else None
  end.

(** The byte written for a one-character escape. *)
Definition simple_escape (c : byte) : option byte :=
  if decide (c = x22) then Some x22
  else if decide (c = "\"%byte) then Some "\"%byte
  else if decide (c = "/"%byte) then Some "/"%byte
  else if decide (c = "b"%byte) then Some x08
  else if decide (c = "f"%byte) then Some x0c
  else if decide (c = "n"%byte) then Some x0a
  else if decide (c = "r"%byte) then Some x0d
  else if decide (c = "t"%byte) then Some x09
  else None.

(** The loop of [process_string]: [room] is [len - (input_ptr - input)].  The
    result is what was written to the output, and whether the loop ended without
    [goto error]. *)
Fixpoint process_string_loop (fuel : nat) (s : bytes) (room : Z) : bytes * bool :=
  match fuel with
  | O => ([], false)
  | S fuel =>
      if bool_decide (hd_c s = x00) || (room <=? 0) then ([], true)
      else if decide (hd_c s = "\"%byte) then
        let s1 := tail s in
        match simple_escape (hd_c s1) with
        | Some b => let '(o, ok) := process_string_loop fuel (tail s1) (room - 2) in (b :: o, ok)
        | None =>
            if decide (hd_c s1 = "u"%byte) then
              match parse_utf16 s1 with
              | None => ([], false)
              | Some (s2, out) =>
                  let consumed := Z.of_nat (length s) - Z.of_nat (length (tail s2)) in
                  let '(o, ok) := process_string_loop fuel (tail s2) (room - consumed) in
                  (out ++ o, ok)
              end
            else ([], false)
        end
      else if uchar (hd_c s) <? 0x20 then ([], false)
      else let '(o, ok) := process_string_loop fuel (tail s) (room - 1) in (hd_c s :: o, ok)
  end.

(** What [process_string(input, len)] writes before the terminating NUL.  Every
    iteration advances the cursor, so [length input + 1] iterations are enough. *)
Definition process_string_text (input : bytes) (len : Z) : bytes * bool :=
  process_string_loop (S (length input)) input len.

(** The text computed by [get_quoted_string]: the contents of the string, as the
    NUL-terminated string the caller sees, and the cursor after the quote. *)
Definition quoted_text (s : bytes) : option (bytes * bytes) :=
  match skip_quotes s with
  | None => None
  | Some rest =>
      let string_len := Z.of_nat (length s) - Z.of_nat (length rest) - 2 in
      match process_string_text (tail s) string_len with
      | (out, true) => Some (cstr out, rest)
      | (_, false) => None
      end
  end.

(** ** Output *)

(** [json_serialize_string]'s escape of one character. *)
Definition escape_char (c : byte) : bytes :=
  if decide (c = x22) then ["\"%byte; x22]
  else if decide (c = "\"%byte) then bs "\\"
  else if decide (c = "/"%byte) then bs "\/"
  else if decide (c = x08) then bs "\b"
  else if decide (c = x0c) then bs "\f"
  else if decide (c = x0a) then bs "\n"
  else if decide (c = x0d) then bs "\r"
  else if decide (c = x09) then bs "\t"
  else if uchar c <? 0x20 then
    let hex d := to_byte (if d <? 10 then uchar "0" + d else uchar "a" + d - 10) in
    bs "\u00" ++ [hex (uchar c / 16); hex (uchar c mod 16)]
  else [c].

(** The text written by [json_serialize_string]. *)
Definition serialize_string_text (s : bytes) : bytes :=
  [x22] ++ (s ≫= escape_char) ++ [x22].

(** The text written by [append_indent]. *)
Definition indent_text (level : nat) : bytes := concat (replicate level (bs "    ")).
