(* ===== verification/CNum.v ===== *)
(** * C doubles: the parts of [<stdlib.h>] and [<stdio.h>] that parson.c uses

    Doubles are IEEE 754 binary64 values, [spec_float] of the Standard Library
    (53-bit mantissas, exponents down to -1074).  [strtod] follows the grammar of
    the C standard (decimal and hexadecimal floating constants, [inf], [nan]) and
    rounds to nearest even; it reports ERANGE on overflow and when a subnormal or
    zero result is inexact.  [format_g17] is [printf("%1.17g", x)]: seventeen
    significant digits, correctly rounded, trailing zeros removed, exponent
    notation when the decimal exponent is below -4 or at least 17. *)
From stdpp Require Import base list numbers option strings.
From Stdlib Require Import ZArith Lia.
From Stdlib Require Export Floats.SpecFloat.
From S2P Require Import Prelude ParsonText.
Local Open Scope Z_scope.

Abbreviation double := spec_float.

(** ** Ratios of integers *)

(** [n/d * b^(-e)] as a ratio. *)
Definition scale_down (b n d e : Z) : Z * Z :=
  if 0 <=? e then (n, d * b ^ e) else (n * b ^ (- e), d).

(** [n/d] rounded to the nearest integer, ties to even. *)
Definition round_half_even (n d : Z) : Z :=
  let q := n / d in
  let r := n mod d in
  if 2 * r <? d then q
  else if d <? 2 * r then q + 1
  else if Z.even q then q else q + 1.

(** The largest [e] in a range of [fuel] integers ending at [hi] for which
    [b^e <= n/d]. *)
Fixpoint find_exp (fuel : nat) (b n d hi : Z) : Z :=
  match fuel with
  | O => hi
  | S fuel =>
      let '(n', d') := scale_down b n d hi in
      if d' <=? n' then hi else find_exp fuel b n d (hi - 1)
  end.

(** ** Rounding to binary64 *)

(** The binary exponent of the result: [floor(log2(n/d)) - 52], at least -1074. *)
Definition exp2_of (n d : Z) : Z :=
  let k := Z.log2 n - Z.log2 d in
  let '(n', d') := scale_down 2 n d k in
  let k := if d' <=? n' then k else k - 1 in
  Z.max (k - 52) (-1074).

(** [n/d], for positive [n] and [d], rounded to nearest even. *)
Definition round_ratio (sign : bool) (n d : Z) : double :=
  let e := exp2_of n d in
  let '(n', d') := scale_down 2 n d e in
  let q := round_half_even n' d' in
  let '(q, e) := if q =? 2 ^ 53 then (2 ^ 52, e + 1) else (q, e) in
  match q with
  | Zpos m => if e <=? 971 then S754_finite sign m e else S754_infinity sign
  | _ => S754_zero sign
  end.

(** Does the double equal the ratio exactly? *)
Definition is_exact (x : double) (n d : Z) : bool :=
  match x with
  | S754_zero _ => n =? 0
  | S754_finite _ m e =>
      if 0 <=? e then Zpos m * 2 ^ e * d =? n else Zpos m * d =? n * 2 ^ (- e)
  | _ => false
  end.
Definition is_subnormal (x : double) : bool :=
  match x with
  | S754_zero _ => true
  | S754_finite _ m _ => Zpos m <? 2 ^ 52
  | _ => false
  end.

(** ** [strtod] *)

(** The longest prefix of digits (with value [f]) and what follows it. *)
Fixpoint span (p : byte → bool) (s : bytes) : bytes * bytes :=
  match s with
  | c :: r => if p c then let '(a, b) := span p r in (c :: a, b) else ([], s)
  | [] => ([], [])
  end.

Definition digits_value (base : Z) (ds : bytes) : Z :=
  fold_left (λ acc c, acc * base + hex_char_to_int c) ds 0.

Definition isxdigit (c : byte) : bool := negb (hex_char_to_int c =? -1).

(** [mantissa = digits [. digits]]: the digits, the number of them after the
    point, and the rest; [None] when there is no digit. *)
Definition scan_mantissa (p : byte → bool) (s : bytes) : option (bytes * Z * bytes) :=
  let '(a, r) := span p s in
  let '(b, r') :=
    if decide (hd_c r = "."%byte) then span p (tail r) else ([], r) in
  if bool_decide (a = [] ∧ b = []) then None
  else if bool_decide (hd_c r = "."%byte)
       then Some (a ++ b, Z.of_nat (length b), r')
       else Some (a, 0, r).

(** The optional exponent part introduced by one of the two letters. *)
Definition scan_exponent (lo up : byte) (s : bytes) : Z * bytes :=
  if bool_decide (hd_c s = lo ∨ hd_c s = up) then
    let r := tail s in
    let '(neg, r) := if decide (hd_c r = "-"%byte) then (true, tail r)
                     else if decide (hd_c r = "+"%byte) then (false, tail r)
                     else (false, r) in
    let '(ds, r') := span isdigit r in
    if bool_decide (ds = []) then (0, s)
    else ((if neg then -1 else 1) * digits_value 10 ds, r')
  else (0, s).

(** [m * b^e] as a ratio. *)
Definition pow_ratio (m b e : Z) : Z * Z :=
  if 0 <=? e then (m * b ^ e, 1) else (m, b ^ (- e)).

Definition finish_number (sign : bool) (m b e : Z) : double * bool :=
  if m =? 0 then (S754_zero sign, false)
  else
    let '(n, d) := pow_ratio m b e in
    let x := round_ratio sign n d in
    let erange := match x with
                  | S754_infinity _ => true
                  | _ => is_subnormal x && negb (is_exact x n d)
                  end in
    (x, erange).

(** Case-insensitive comparison of a prefix with a lower-case word. *)
Definition to_lower (c : byte) : byte :=
  if (uchar "A" <=? uchar c) && (uchar c <=? uchar "Z") then to_byte (uchar c + 32) else c.
Definition has_word (w s : bytes) : bool :=
  bool_decide (to_lower <$> take (length w) s = w).

(** The part of [strtod] after the sign: value, rest, ERANGE; [None] when no
    conversion can be performed. *)
Definition strtod_body (sign : bool) (s : bytes) : option (double * bytes * bool) :=
  if has_word (bs "infinity") s then Some (S754_infinity sign, drop 8 s, false)
  else if has_word (bs "inf") s then Some (S754_infinity sign, drop 3 s, false)
  else if has_word (bs "nan") s then
    let r := drop 3 s in
    let nchar c := isdigit c || bool_decide (c = "_"%byte) ||
                   ((uchar "a" <=? uchar (to_lower c)) && (uchar (to_lower c) <=? uchar "z")) in
    let '(_, r') := span nchar (tail r) in
    if bool_decide (hd_c r = "("%byte) && bool_decide (hd_c r' = ")"%byte)
    then Some (S754_nan, tail r', false) else Some (S754_nan, r, false)
  else
    match (if has_word (bs "0x") s then scan_mantissa isxdigit (drop 2 s) else None) with
    | Some (ds, frac, r) =>
        let '(e, r') := scan_exponent "p" "P" r in
        let '(x, er) := finish_number sign (digits_value 16 ds) 2 (e - 4 * frac) in
        Some (x, r', er)
    | None =>
        match scan_mantissa isdigit s with
        | Some (ds, frac, r) =>
            let '(e, r') := scan_exponent "e" "E" r in
            let '(x, er) := finish_number sign (digits_value 10 ds) 10 (e - frac) in
            Some (x, r', er)
        | None => None
        end
    end.

(** [strtod(s, &end)]: the value, [end], and whether errno was set. *)
Definition strtod (s : bytes) : double * bytes * bool :=
  let r := SKIP_WHITESPACES s in
  let '(sign, r) := if decide (hd_c r = "-"%byte) then (true, tail r)
                    else if decide (hd_c r = "+"%byte) then (false, tail r)
                    else (false, r) in
  match strtod_body sign r with
  | Some res => res
  | None => (S754_zero false, s, false)
  end.

(** ** [printf("%1.17g")] *)

(** Exactly [n] decimal digits of [z]. *)
Fixpoint dec_digits (n : nat) (z : Z) : bytes :=
  match n with
  | O => []
  | S n => dec_digits n (z / 10) ++ [to_byte (uchar "0" + z mod 10)]
  end.

Fixpoint strip_zeros (s : bytes) : bytes :=
  match s with
  | [] => []
  | c :: r =>
      match strip_zeros r with
      | [] => if decide (c = "0"%byte) then [] else [c]
      | r' => c :: r'
      end
  end.

(** The fractional part after [%g] removed trailing zeros, with its point. *)
Definition with_point (frac : bytes) : bytes :=
  match strip_zeros frac with [] => [] | f => "."%byte :: f end.

(** The seventeen digits and the decimal exponent of a positive ratio; the search for the
    exponent starts lower for numbers of usual size. *)
Definition digits17 (n d : Z) : Z * Z :=
  let x := if n <? d * 10 ^ 10 then find_exp 341 10 n d 9 else find_exp 640 10 n d 308 in
  let '(n', d') := scale_down 10 n d (x - 16) in
  let q := round_half_even n' d' in
  if q =? 10 ^ 17 then (10 ^ 16, x + 1) else (q, x).

Definition format_exp (x : Z) : bytes :=
  let a := Z.abs x in
  [if x <? 0 then "-" else "+"]%byte ++ dec_digits (if a <? 100 then 2 else 3) a.

Definition format_pos (n d : Z) : bytes :=
  let '(q, x) := digits17 n d in
  let ds := dec_digits 17 q in
  if (x <? -4) || (17 <=? x) then
    take 1 ds ++ with_point (drop 1 ds) ++ ["e"%byte] ++ format_exp x
  else if x <? 0 then
    ["0"%byte] ++ with_point (replicate (Z.to_nat (- x - 1)) "0"%byte ++ ds)
  else
    take (Z.to_nat (x + 1)) ds ++ with_point (drop (Z.to_nat (x + 1)) ds).

Definition ratio_of (m : positive) (e : Z) : Z * Z :=
  if 0 <=? e then (Zpos m * 2 ^ e, 1) else (Zpos m, 2 ^ (- e)).

Definition format_g17 (x : double) : bytes :=
  let sgn (s : bool) : bytes := if s then ["-"%byte] else [] in
  match x with
  | S754_zero s => sgn s ++ ["0"%byte]
  | S754_infinity s => sgn s ++ bs "inf"
  | S754_nan => bs "nan"
  | S754_finite s m e => let '(n, d) := ratio_of m e in sgn s ++ format_pos n d
  end.

(** ** Arithmetic *)
Definition dmul (x y : double) : double := SFmul 53 1024 x y.
Definition dsub (x y : double) : double := SFsub 53 1024 x y.
Definition dadd (x y : double) : double := SFadd 53 1024 x y.
Definition ddiv (x y : double) : double := SFdiv 53 1024 x y.
Definition dlt (x y : double) : bool := SFltb x y.
Definition dneq (x y : double) : bool := negb (SFeqb x y).

(** The double nearest to the literal 0.000001. *)
Definition EPSILON : double := S754_finite false 4722366482869645 (-72).

Definition is_finite (x : double) : bool :=
  match x with S754_zero _ | S754_finite _ _ _ => true | _ => false end.

(** An [int] as [double], and back: truncated, undefined outside the range of [int]. *)
Definition double_of_int (z : Z) : double :=
  match z with
  | Z0 => S754_zero false
  | Zpos p => round_ratio false (Zpos p) 1
  | Zneg p => round_ratio true (Zpos p) 1
  end.
Definition int_of_double (d : double) : option Z :=
  match d with
  | S754_zero _ => Some 0
  | S754_finite s m e =>
      let v := if 0 <=? e then Zpos m * 2 ^ e else Zpos m / 2 ^ (- e) in
      let v := if s then - v else v in
      if in_int v then Some v else None
  | _ => None
  end.
(** [(uint32_t)d]: truncated, undefined outside the range *)
Definition uint32_of_double (d : double) : option Z :=
  match d with
  | S754_zero _ => Some 0
  | S754_finite s m e =>
      let v := if 0 <=? e then Zpos m * 2 ^ e else Zpos m / 2 ^ (- e) in
      if s then if v =? 0 then Some 0 else None
      else if v <? 2 ^ 32 then Some v else None
  | _ => None
  end.

Lemma length_dec_digits n z : length (dec_digits n z) = n.
Proof.
  revert z. induction n as [|n IH]; intros z; [done|]. cbn [dec_digits].
  rewrite length_app, IH. simpl. lia.
Qed.
