(* ===== verification/Parson.v ===== *)
(** * Parson: values, objects and arrays in memory (common/json/parson.c)

    One definition per C function, in the memory monad of [CMem].  A
    [JSON_Value *], [JSON_Object *] or [JSON_Array *] is a [ptr]; owned strings
    ([char *] fields) are blocks of characters; names, values and items are blocks
    of pointers.  String arguments are byte lists ([option bytes] where the code
    tests the argument for NULL).  [ENCLAVE_CODE] is defined in this build. *)
From stdpp Require Import base list numbers option gmap strings.
From Stdlib Require Import ZArith Lia.
From S2P Require Import Prelude CMem ParsonText CNum.
Local Open Scope nat_scope.

Definition STARTING_CAPACITY : nat := 16.
Definition MAX_NESTING : nat := 2048.
Definition NUM_BUF_SIZE : nat := 64.

(** [enum json_value_type] *)
Inductive JSON_Value_Type :=
  | JSONError | JSONNull | JSONString | JSONNumber | JSONObject | JSONArray | JSONBoolean.
#[global] Instance JSON_Value_Type_eq_dec : EqDecision JSON_Value_Type.
Proof. solve_decision. Defined.

(** [enum json_result_t] *)
Inductive JSON_Status := JSONSuccess | JSONFailure.
#[global] Instance JSON_Status_eq_dec : EqDecision JSON_Status.
Proof. solve_decision. Defined.

(** The tagged union [value] of [struct json_value_t]; the constructor is the
    [type] field. *)
Inductive JSON_Value_Value :=
  | VString (string : ptr)
  | VNumber (number : double)
  | VObject (object : ptr)
  | VArray (array : ptr)
  | VBoolean (boolean : Z)
  | VNull.

Definition value_type (v : JSON_Value_Value) : JSON_Value_Type :=
  match v with
  | VString _ => JSONString | VNumber _ => JSONNumber | VObject _ => JSONObject
  | VArray _ => JSONArray | VBoolean _ => JSONBoolean | VNull => JSONNull
  end.

(** [struct json_value_t] *)
Record JSON_Value := mkValue { parent : ptr; value : JSON_Value_Value }.

(** [struct json_object_t] *)
Record JSON_Object := mkObject {
  obj_wrapping : ptr; names : ptr; values : ptr; obj_count : nat; obj_capacity : nat }.

(** [struct json_array_t] *)
Record JSON_Array := mkArray {
  arr_wrapping : ptr; items : ptr; arr_count : nat; arr_capacity : nat }.

(** A block: a struct; [size] bytes of characters of which a prefix is
    initialised; or an array of pointers, [None] being an uninitialised slot. *)
Inductive block :=
  | BValue (v : JSON_Value)
  | BObject (o : JSON_Object)
  | BArray (a : JSON_Array)
  | BChars (size : Z) (raw : bytes)
  | BPtrs (slots : list (option ptr)).

Abbreviation MP := (M block).

Definition sizeof_JSON_Value : Z := 24.
Definition sizeof_JSON_Object : Z := 40.
Definition sizeof_JSON_Array : Z := 32.
Definition sizeof_ptr : Z := 8.

Definition load_value (p : ptr) : MP JSON_Value :=
  b ← load p; match b with BValue v => mret v | _ => undef end.
Definition load_object (p : ptr) : MP JSON_Object :=
  b ← load p; match b with BObject o => mret o | _ => undef end.
Definition load_array (p : ptr) : MP JSON_Array :=
  b ← load p; match b with BArray a => mret a | _ => undef end.
Definition load_ptrs (p : ptr) : MP (list (option ptr)) :=
  b ← load p; match b with BPtrs s => mret s | _ => undef end.

(** The NUL-terminated string at [p]. *)
Definition load_cstr (p : ptr) : MP bytes :=
  b ← load p;
  match b with
  | BChars _ raw => if decide (x00 ∈ raw) then mret (cstr raw) else undef
  | _ => undef
  end.

(** [p[i]] and [p[i] = q] for an array of pointers. *)
Definition get_slot (p : ptr) (i : nat) : MP ptr :=
  s ← load_ptrs p; match s !! i with Some (Some q) => mret q | _ => undef end.
Definition set_slot (p : ptr) (i : nat) (q : ptr) : MP unit :=
  s ← load_ptrs p;
  if decide (i < length s) then store p (BPtrs (<[i := Some q]> s)) else undef.

(** [memcpy(dst, src, n * sizeof(void * ))] *)
Definition copy_slots (dst src : ptr) (n : nat) : MP unit :=
  s ← load_ptrs src; d ← load_ptrs dst;
  if decide (n ≤ length s ∧ n ≤ length d) then store dst (BPtrs (take n s ++ drop n d))
  else undef.

Section parson.
Context `{Malloc}.

(** [parson_malloc] and [parson_free] *)
Definition parson_malloc (sz : Z) (b : block) : MP ptr := malloc sz b.
Definition parson_free (p : ptr) : MP unit := cfree p.

Definition malloc_ptrs (n : nat) : MP ptr :=
  parson_malloc (Z.of_nat n * sizeof_ptr) (BPtrs (replicate n None)).

Definition parson_strndup (string : bytes) (n : nat) : MP ptr :=
  let copy := take n string ++ replicate (n - length string) x00 in
  parson_malloc (Z.of_nat n + 1) (BChars (Z.of_nat n + 1) (copy ++ [x00])).

Definition parson_strdup (string : bytes) : MP ptr :=
  parson_strndup string (length string).

(** ** Accessors *)

Definition json_value_get_type (value : ptr) : MP JSON_Value_Type :=
  match value with
  | None => mret JSONError
  | Some _ => v ← load_value value; mret (value_type (Parson.value v))
  end.

Definition json_value_get_object (value : ptr) : MP ptr :=
  t ← json_value_get_type value;
  if decide (t = JSONObject) then
    v ← load_value value;
    match Parson.value v with VObject o => mret o | _ => undef end
  else mret None.

Definition json_value_get_array (value : ptr) : MP ptr :=
  t ← json_value_get_type value;
  if decide (t = JSONArray) then
    v ← load_value value;
    match Parson.value v with VArray a => mret a | _ => undef end
  else mret None.

Definition json_value_get_string (value : ptr) : MP ptr :=
  t ← json_value_get_type value;
  if decide (t = JSONString) then
    v ← load_value value;
    match Parson.value v with VString s => mret s | _ => undef end
  else mret None.

Definition json_value_get_number (value : ptr) : MP double :=
  t ← json_value_get_type value;
  if decide (t = JSONNumber) then
    v ← load_value value;
    match Parson.value v with VNumber d => mret d | _ => undef end
  else mret (S754_zero false).

Definition json_value_get_boolean (value : ptr) : MP Z :=
  t ← json_value_get_type value;
  if decide (t = JSONBoolean) then
    v ← load_value value;
    match Parson.value v with VBoolean b => mret b | _ => undef end
  else mret (-1)%Z.

Definition json_value_get_parent (value : ptr) : MP ptr :=
  match value with None => mret None | Some _ => v ← load_value value; mret (parent v) end.

Definition json_object_get_count (object : ptr) : MP nat :=
  match object with None => mret 0 | Some _ => o ← load_object object; mret (obj_count o) end.

Definition json_object_get_name (object : ptr) (index : nat) : MP ptr :=
  match object with
  | None => mret None
  | Some _ =>
      n ← json_object_get_count object;
      if decide (n ≤ index) then mret None
      else o ← load_object object; get_slot (names o) index
  end.

Definition json_object_get_value_at (object : ptr) (index : nat) : MP ptr :=
  match object with
  | None => mret None
  | Some _ =>
      n ← json_object_get_count object;
      if decide (n ≤ index) then mret None
      else o ← load_object object; get_slot (values o) index
  end.

Definition json_object_get_wrapping_value (object : ptr) : MP ptr :=
  o ← load_object object; mret (obj_wrapping o).

Definition json_array_get_count (array : ptr) : MP nat :=
  match array with None => mret 0 | Some _ => a ← load_array array; mret (arr_count a) end.

Definition json_array_get_value (array : ptr) (index : nat) : MP ptr :=
  match array with
  | None => mret None
  | Some _ =>
      n ← json_array_get_count array;
      if decide (n ≤ index) then mret None
      else a ← load_array array; get_slot (items a) index
  end.

Definition json_array_get_wrapping_value (array : ptr) : MP ptr :=
  a ← load_array array; mret (arr_wrapping a).

(** ** Objects: lookup and insertion *)

Definition json_object_getn_value (object : ptr) (name : bytes) (name_len : nat) : MP ptr :=
  n ← json_object_get_count object;
  r ← for_range n (λ i,
    o ← load_object object;
    p ← get_slot (names o) i;
    nm ← load_cstr p;
    if decide (length nm ≠ name_len) then mret None
    else if strncmp_eq nm name name_len then
      v ← get_slot (values o) i; mret (Some v)
    else mret None);
  match r with Some v => mret v | None => mret None end.

Definition json_object_get_value (object : ptr) (name : option bytes) : MP ptr :=
  match object, name with
  | Some _, Some name => json_object_getn_value object name (length name)
  | _, _ => mret None
  end.

Definition json_object_init (wrapping_value : ptr) : MP ptr :=
  parson_malloc sizeof_JSON_Object (BObject (mkObject wrapping_value None None 0 0)).

Definition json_object_resize (object : ptr) (new_capacity : nat) : MP JSON_Status :=
  o ← load_object object;
  if (bool_decide (names o = None) && negb (bool_decide (values o = None))) ||
     (negb (bool_decide (names o = None)) && bool_decide (values o = None)) ||
     bool_decide (new_capacity = 0)
  then mret JSONFailure
  else
    temp_names ← malloc_ptrs new_capacity;
    match temp_names with
    | None => mret JSONFailure
    | Some _ =>
        temp_values ← malloc_ptrs new_capacity;
        match temp_values with
        | None => parson_free temp_names;; mret JSONFailure
        | Some _ =>
            (if negb (bool_decide (names o = None)) && negb (bool_decide (values o = None))
                && bool_decide (0 < obj_count o)
             then copy_slots temp_names (names o) (obj_count o);;
                  copy_slots temp_values (values o) (obj_count o)
             else mret ());;
            parson_free (names o);;
            parson_free (values o);;
            store object (BObject (mkObject (obj_wrapping o) temp_names temp_values
                                     (obj_count o) new_capacity));;
            mret JSONSuccess
        end
    end.

(** [value->parent = p] *)
Definition set_parent (value p : ptr) : MP unit :=
  v ← load_value value; store value (BValue (mkValue p (Parson.value v))).

Definition json_object_addn (object : ptr) (name : option bytes) (name_len : nat)
    (value : ptr) : MP JSON_Status :=
  match object, name, value with
  | Some _, Some name, Some _ =>
      old ← json_object_getn_value object name name_len;
      match old with
      | Some _ => mret JSONFailure
      | None =>
          o ← load_object object;
          st ← (if decide (obj_capacity o ≤ obj_count o) then
                  json_object_resize object (Nat.max (obj_capacity o * 2) STARTING_CAPACITY)
                else mret JSONSuccess);
          match st with
          | JSONFailure => mret JSONFailure
          | JSONSuccess =>
              o ← load_object object;
              let index := obj_count o in
              copy ← parson_strndup name name_len;
              set_slot (names o) index copy;;
              match copy with
              | None => mret JSONFailure
              | Some _ =>
                  w ← json_object_get_wrapping_value object;
                  set_parent value w;;
                  set_slot (values o) index value;;
                  store object (BObject (mkObject (obj_wrapping o) (names o) (values o)
                                           (S (obj_count o)) (obj_capacity o)));;
                  mret JSONSuccess
              end
          end
      end
  | _, _, _ => mret JSONFailure
  end.

Definition json_object_add (object : ptr) (name : option bytes) (value : ptr) : MP JSON_Status :=
  match name with
  | None => mret JSONFailure
  | Some nm => json_object_addn object name (length nm) value
  end.

(** ** Arrays: growth and insertion *)

Definition json_array_init (wrapping_value : ptr) : MP ptr :=
  parson_malloc sizeof_JSON_Array (BArray (mkArray wrapping_value None 0 0)).

Definition json_array_resize (array : ptr) (new_capacity : nat) : MP JSON_Status :=
  if decide (new_capacity = 0) then mret JSONFailure
  else
    new_items ← malloc_ptrs new_capacity;
    match new_items with
    | None => mret JSONFailure
    | Some _ =>
        a ← load_array array;
        (if negb (bool_decide (items a = None)) && bool_decide (0 < arr_count a)
         then copy_slots new_items (items a) (arr_count a) else mret ());;
        parson_free (items a);;
        store array (BArray (mkArray (arr_wrapping a) new_items (arr_count a) new_capacity));;
        mret JSONSuccess
    end.

Definition json_array_add (array value : ptr) : MP JSON_Status :=
  a ← load_array array;
  st ← (if decide (arr_capacity a ≤ arr_count a) then
          json_array_resize array (Nat.max (arr_capacity a * 2) STARTING_CAPACITY)
        else mret JSONSuccess);
  match st with
  | JSONFailure => mret JSONFailure
  | JSONSuccess =>
      w ← json_array_get_wrapping_value array;
      set_parent value w;;
      a ← load_array array;
      set_slot (items a) (arr_count a) value;;
      store array (BArray (mkArray (arr_wrapping a) (items a) (S (arr_count a)) (arr_capacity a)));;
      mret JSONSuccess
  end.

(** ** Destruction *)

Definition json_object_free_with (rec : ptr → MP unit) (object : ptr) : MP unit :=
  o ← load_object object;
  (for_range (R:=unit) (obj_count o) (λ i,
    o ← load_object object;
    n ← get_slot (names o) i; parson_free n;;
    v ← get_slot (values o) i; rec v;;
    mret None));;
  o ← load_object object;
  parson_free (names o);;
  parson_free (values o);;
  parson_free object.

Definition json_array_free_with (rec : ptr → MP unit) (array : ptr) : MP unit :=
  a ← load_array array;
  (for_range (R:=unit) (arr_count a) (λ i,
    a ← load_array array;
    v ← get_slot (items a) i; rec v;;
    mret None));;
  a ← load_array array;
  parson_free (items a);;
  parson_free array.

Fixpoint json_value_free_rec (fuel : nat) (value : ptr) : MP unit :=
  match fuel with
  | O => undef
  | S fuel =>
      t ← json_value_get_type value;
      match t with
      | JSONObject =>
          v ← load_value value;
          match Parson.value v with
          | VObject o => json_object_free_with (json_value_free_rec fuel) o
          | _ => undef
          end
      | JSONString =>
          v ← load_value value;
          match Parson.value v with VString s => parson_free s | _ => undef end
      | JSONArray =>
          v ← load_value value;
          match Parson.value v with
          | VArray a => json_array_free_with (json_value_free_rec fuel) a
          | _ => undef
          end
      | _ => mret ()
      end;;
      parson_free value
  end.

Definition json_value_free (value : ptr) : MP unit :=
  heap_fuel (λ fuel, json_value_free_rec fuel value).

Definition json_object_free (object : ptr) : MP unit :=
  heap_fuel (λ fuel, json_object_free_with (json_value_free_rec fuel) object).

Definition json_array_free (array : ptr) : MP unit :=
  heap_fuel (λ fuel, json_array_free_with (json_value_free_rec fuel) array).

(** ** Construction *)

Definition init_value (v : JSON_Value_Value) : MP ptr :=
  parson_malloc sizeof_JSON_Value (BValue (mkValue None v)).

Definition json_value_init_string_no_copy (string : ptr) : MP ptr := init_value (VString string).

Definition json_value_init_object : MP ptr :=
  new_value ← init_value (VObject None);
  match new_value with
  | None => mret None
  | Some _ =>
      o ← json_object_init new_value;
      store new_value (BValue (mkValue None (VObject o)));;
      match o with
      | None => parson_free new_value;; mret None
      | Some _ => mret new_value
      end
  end.

Definition json_value_init_array : MP ptr :=
  new_value ← init_value (VArray None);
  match new_value with
  | None => mret None
  | Some _ =>
      a ← json_array_init new_value;
      store new_value (BValue (mkValue None (VArray a)));;
      match a with
      | None => parson_free new_value;; mret None
      | Some _ => mret new_value
      end
  end.

Definition json_value_init_string (string : option bytes) : MP ptr :=
  match string with
  | None => mret None
  | Some string =>
      let string_len := length string in
      if negb (is_valid_utf8 string (Z.of_nat string_len)) then mret None
      else
        copy ← parson_strndup string string_len;
        match copy with
        | None => mret None
        | Some _ =>
            value ← json_value_init_string_no_copy copy;
            match value with
            | None => parson_free copy;; mret None
            | Some _ => mret value
            end
        end
  end.

(** [(number * 0.0) != 0.0] is the nan and inf test. *)
Definition json_value_init_number (number : double) : MP ptr :=
  if dneq (dmul number (S754_zero false)) (S754_zero false) then mret None
  else init_value (VNumber number).

Definition json_value_init_boolean (boolean : Z) : MP ptr :=
  init_value (VBoolean (if (boolean =? 0)%Z then 0 else 1)).

Definition json_value_init_null : MP ptr := init_value VNull.
End parson.
