(* ===== verification/ParsonParse.v ===== *)
(** * Parson: the parser (common/json/parson.c)

    The mutually recursive parsing functions, building values in memory.  A
    parsing function returns the value (NULL on failure) and the cursor it leaves
    in [*string]; after a failure no caller looks at the cursor.  Every call of
    [parse_value] consumes a character before it calls itself again, so fuel
    [length text + 1] is enough; the loops over members and elements consume a
    character per iteration. *)
From stdpp Require Import base list numbers option gmap strings.
From Stdlib Require Import ZArith Lia.
From S2P Require Import Prelude CMem ParsonText CNum Parson.
Local Open Scope nat_scope.

Section parse.
Context `{Malloc}.

Definition process_string (input : bytes) (len : Z) : MP ptr :=
  let initial_size := (len + 1)%Z in
  output ← parson_malloc initial_size (BChars initial_size []);
  match output with
  | None => parson_free output;; mret None
  | Some _ =>
      let '(out, ok) := process_string_text input len in
      assert_def (Z.of_nat (length out) <=? initial_size)%Z;;
      if ok then
        assert_def (Z.of_nat (length out) + 1 <=? initial_size)%Z;;
        store output (BChars initial_size (out ++ [x00]));;
        let final_size := (Z.of_nat (length out) + 1)%Z in
        resized_output ← parson_malloc final_size (BChars final_size (out ++ [x00]));
        match resized_output with
        | None => parson_free output;; mret None
        | Some _ => parson_free output;; mret resized_output
        end
      else parson_free output;; mret None
  end.

Definition get_quoted_string (string : bytes) : MP (ptr * bytes) :=
  match skip_quotes string with
  | None => mret (None, string)
  | Some rest =>
      let string_len := (Z.of_nat (length string) - Z.of_nat (length rest) - 2)%Z in
      s ← process_string (tail string) string_len;
      mret (s, rest)
  end.

Definition parse_string_value (string : bytes) : MP (ptr * bytes) :=
  '(new_string, string) ← get_quoted_string string;
  match new_string with
  | None => mret (None, string)
  | Some _ =>
      value ← json_value_init_string_no_copy new_string;
      match value with
      | None => parson_free new_string;; mret (None, string)
      | Some _ => mret (value, string)
      end
  end.

Definition parse_boolean_value (string : bytes) : MP (ptr * bytes) :=
  if strncmp_eq (bs "true") string 4 then
    v ← json_value_init_boolean 1; mret (v, drop 4 string)
  else if strncmp_eq (bs "false") string 5 then
    v ← json_value_init_boolean 0; mret (v, drop 5 string)
  else mret (None, string).

Definition parse_number_value (string : bytes) : MP (ptr * bytes) :=
  let '(number, end_, errno) := strtod string in
  if errno || negb (is_decimal string (length string - length end_)) then mret (None, string)
  else v ← json_value_init_number number; mret (v, end_).

Definition parse_null_value (string : bytes) : MP (ptr * bytes) :=
  if strncmp_eq (bs "null") string 4 then
    v ← json_value_init_null; mret (v, drop 4 string)
  else mret (None, string).

Section containers.
Context (parse_value : bytes → nat → MP (ptr * bytes)).

(** The [while] loop of [parse_object_value].  [None]: the function has freed
    what it built and returns NULL. *)
Fixpoint parse_object_loop (fuel : nat) (output_value output_object : ptr)
    (string : bytes) (nesting : nat) : MP (option bytes) :=
  match fuel with
  | O => undef
  | S fuel =>
      if decide (hd_c string = x00) then mret (Some string) else
      '(new_key, string) ← get_quoted_string string;
      match new_key with
      | None => json_value_free output_value;; mret None
      | Some _ =>
          let string := SKIP_WHITESPACES string in
          if decide (hd_c string ≠ ":"%byte) then
            parson_free new_key;; json_value_free output_value;; mret None
          else
            let string := SKIP_CHAR string in
            '(new_value, string) ← parse_value string nesting;
            match new_value with
            | None => parson_free new_key;; json_value_free output_value;; mret None
            | Some _ =>
                key ← load_cstr new_key;
                st ← json_object_add output_object (Some key) new_value;
                match st with
                | JSONFailure =>
                    parson_free new_key;; json_value_free new_value;;
                    json_value_free output_value;; mret None
                | JSONSuccess =>
                    parson_free new_key;;
                    let string := SKIP_WHITESPACES string in
                    if decide (hd_c string ≠ ","%byte) then mret (Some string)
                    else parse_object_loop fuel output_value output_object
                           (SKIP_WHITESPACES (SKIP_CHAR string)) nesting
                end
            end
      end
  end.

Definition parse_object_value (string : bytes) (nesting : nat) : MP (ptr * bytes) :=
  output_value ← json_value_init_object;
  match output_value with
  | None => mret (None, string)
  | Some _ =>
      if decide (hd_c string ≠ "{"%byte) then
        json_value_free output_value;; mret (None, string)
      else
        output_object ← json_value_get_object output_value;
        let string := SKIP_WHITESPACES (SKIP_CHAR string) in
        if decide (hd_c string = "}"%byte) then mret (output_value, SKIP_CHAR string)
        else
          r ← parse_object_loop (S (length string)) output_value output_object string nesting;
          match r with
          | None => mret (None, string)
          | Some string =>
              let string := SKIP_WHITESPACES string in
              if decide (hd_c string ≠ "}"%byte) then
                json_value_free output_value;; mret (None, string)
              else
                n ← json_object_get_count output_object;
                st ← json_object_resize output_object n;
                match st with
                | JSONFailure => json_value_free output_value;; mret (None, string)
                | JSONSuccess => mret (output_value, SKIP_CHAR string)
                end
          end
  end.

(** The [while] loop of [parse_array_value]. *)
Fixpoint parse_array_loop (fuel : nat) (output_value output_array : ptr)
    (string : bytes) (nesting : nat) : MP (option bytes) :=
  match fuel with
  | O => undef
  | S fuel =>
      if decide (hd_c string = x00) then mret (Some string) else
      '(new_array_value, string) ← parse_value string nesting;
      match new_array_value with
      | None => json_value_free output_value;; mret None
      | Some _ =>
          st ← json_array_add output_array new_array_value;
          match st with
          | JSONFailure =>
              json_value_free new_array_value;; json_value_free output_value;; mret None
          | JSONSuccess =>
              let string := SKIP_WHITESPACES string in
              if decide (hd_c string ≠ ","%byte) then mret (Some string)
              else parse_array_loop fuel output_value output_array
                     (SKIP_WHITESPACES (SKIP_CHAR string)) nesting
          end
      end
  end.

Definition parse_array_value (string : bytes) (nesting : nat) : MP (ptr * bytes) :=
  output_value ← json_value_init_array;
  match output_value with
  | None => mret (None, string)
  | Some _ =>
      if decide (hd_c string ≠ "["%byte) then
        json_value_free output_value;; mret (None, string)
      else
        output_array ← json_value_get_array output_value;
        let string := SKIP_WHITESPACES (SKIP_CHAR string) in
        if decide (hd_c string = "]"%byte) then mret (output_value, SKIP_CHAR string)
        else
          r ← parse_array_loop (S (length string)) output_value output_array string nesting;
          match r with
          | None => mret (None, string)
          | Some string =>
              let string := SKIP_WHITESPACES string in
              if decide (hd_c string ≠ "]"%byte) then
                json_value_free output_value;; mret (None, string)
              else
                n ← json_array_get_count output_array;
                st ← json_array_resize output_array n;
                match st with
                | JSONFailure => json_value_free output_value;; mret (None, string)
                | JSONSuccess => mret (output_value, SKIP_CHAR string)
                end
          end
  end.
End containers.

Fixpoint parse_value (fuel : nat) (string : bytes) (nesting : nat) : MP (ptr * bytes) :=
  match fuel with
  | O => undef
  | S fuel =>
      if decide (MAX_NESTING < nesting) then mret (None, string) else
      let string := SKIP_WHITESPACES string in
      let c := hd_c string in
      if decide (c = "{"%byte) then parse_object_value (parse_value fuel) string (nesting + 1)
      else if decide (c = "["%byte) then parse_array_value (parse_value fuel) string (nesting + 1)
      else if decide (c = x22) then parse_string_value string
      else if decide (c = "f"%byte ∨ c = "t"%byte) then parse_boolean_value string
      else if decide (c = "-"%byte) then parse_number_value string
      else if isdigit c then parse_number_value string
      else if decide (c = "n"%byte) then parse_null_value string
      else mret (None, string)
  end.

(** [json_parse_string] *)
Definition json_parse_string (string : option bytes) : MP ptr :=
  match string with
  | None => mret None
  | Some s =>
      let s := if decide (at_c s 0 = xef ∧ at_c s 1 = xbb ∧ at_c s 2 = xbf)
               then drop 3 s else s in
      '(v, _) ← parse_value (S (length s)) s 0;
      mret v
  end.

(** [json_parse_string_with_comments]: comments are blanked out in a copy. *)
Definition json_parse_string_with_comments (string : bytes) : MP ptr :=
  string_mutable_copy ← parson_strdup string;
  match string_mutable_copy with
  | None => mret None
  | Some _ =>
      text ← load_cstr string_mutable_copy;
      let text := remove_comments text (bs "/*") (bs "*/") in
      let text := remove_comments text (bs "//") [x0a] in
      store string_mutable_copy (BChars (Z.of_nat (length string) + 1) (text ++ [x00]));;
      '(result, _) ← parse_value (S (length text)) text 0;
      parson_free string_mutable_copy;;
      mret result
  end.
End parse.
