(* ===== verification/ParsonOps.v ===== *)
(** * Parson: the object, array and value API (common/json/parson.c)

    Getters by name and by index, dotted paths, insertion and removal, copy,
    comparison and validation.  Functions that recurse through the structure take
    the recursion bound of [heap_fuel]; functions that recurse along a dotted name
    take the length of the name. *)
From stdpp Require Import base list numbers option gmap strings.
From Stdlib Require Import ZArith Lia.
From S2P Require Import Prelude CMem ParsonText CNum Parson.
Local Open Scope nat_scope.

Section ops.
Context `{Malloc}.

(** ** Getters *)

Definition json_object_get_string (object : ptr) (name : option bytes) : MP ptr :=
  v ← json_object_get_value object name; json_value_get_string v.
Definition json_object_get_number (object : ptr) (name : option bytes) : MP double :=
  v ← json_object_get_value object name; json_value_get_number v.
Definition json_object_get_object (object : ptr) (name : option bytes) : MP ptr :=
  v ← json_object_get_value object name; json_value_get_object v.
Definition json_object_get_array (object : ptr) (name : option bytes) : MP ptr :=
  v ← json_object_get_value object name; json_value_get_array v.
Definition json_object_get_boolean (object : ptr) (name : option bytes) : MP Z :=
  v ← json_object_get_value object name; json_value_get_boolean v.

(** The part of a dotted name before the first dot and the part after it. *)
Definition split_dot (name : bytes) : option (nat * bytes) :=
  match strchr name "."%byte with
  | None => None
  | Some dot_pos => Some (length name - length dot_pos, tail dot_pos)
  end.

Fixpoint json_object_dotget_value_rec (fuel : nat) (object : ptr) (name : bytes) : MP ptr :=
  match fuel with
  | O => undef
  | S fuel =>
      match split_dot name with
      | None => json_object_get_value object (Some name)
      | Some (n, rest) =>
          v ← json_object_getn_value object name n;
          object ← json_value_get_object v;
          json_object_dotget_value_rec fuel object rest
      end
  end.
Definition json_object_dotget_value (object : ptr) (name : bytes) : MP ptr :=
  json_object_dotget_value_rec (S (length name)) object name.

Definition json_object_dotget_string (object : ptr) (name : bytes) : MP ptr :=
  v ← json_object_dotget_value object name; json_value_get_string v.
Definition json_object_dotget_number (object : ptr) (name : bytes) : MP double :=
  v ← json_object_dotget_value object name; json_value_get_number v.
Definition json_object_dotget_object (object : ptr) (name : bytes) : MP ptr :=
  v ← json_object_dotget_value object name; json_value_get_object v.
Definition json_object_dotget_array (object : ptr) (name : bytes) : MP ptr :=
  v ← json_object_dotget_value object name; json_value_get_array v.
Definition json_object_dotget_boolean (object : ptr) (name : bytes) : MP Z :=
  v ← json_object_dotget_value object name; json_value_get_boolean v.

Definition is_some_ptr (p : ptr) : bool := match p with Some _ => true | None => false end.

Definition json_object_has_value (object : ptr) (name : option bytes) : MP bool :=
  v ← json_object_get_value object name; mret (is_some_ptr v).
Definition json_object_has_value_of_type (object : ptr) (name : option bytes)
    (type : JSON_Value_Type) : MP bool :=
  val ← json_object_get_value object name;
  match val with
  | None => mret false
  | Some _ => t ← json_value_get_type val; mret (bool_decide (t = type))
  end.
Definition json_object_dothas_value (object : ptr) (name : bytes) : MP bool :=
  v ← json_object_dotget_value object name; mret (is_some_ptr v).
Definition json_object_dothas_value_of_type (object : ptr) (name : bytes)
    (type : JSON_Value_Type) : MP bool :=
  val ← json_object_dotget_value object name;
  match val with
  | None => mret false
  | Some _ => t ← json_value_get_type val; mret (bool_decide (t = type))
  end.

Definition json_array_get_string (array : ptr) (index : nat) : MP ptr :=
  v ← json_array_get_value array index; json_value_get_string v.
Definition json_array_get_number (array : ptr) (index : nat) : MP double :=
  v ← json_array_get_value array index; json_value_get_number v.
Definition json_array_get_object (array : ptr) (index : nat) : MP ptr :=
  v ← json_array_get_value array index; json_value_get_object v.
Definition json_array_get_array (array : ptr) (index : nat) : MP ptr :=
  v ← json_array_get_value array index; json_value_get_array v.
Definition json_array_get_boolean (array : ptr) (index : nat) : MP Z :=
  v ← json_array_get_value array index; json_value_get_boolean v.

(** ** Removal *)

(** The body of the loop of [json_object_remove_internal] at the matching index. *)
Definition remove_entry (object : ptr) (i last_item_index : nat) (free_value : bool)
    : MP unit :=
  o ← load_object object;
  n ← get_slot (names o) i; parson_free n;;
  (if free_value then v ← get_slot (values o) i; json_value_free v else mret ());;
  (if decide (i = last_item_index) then mret () else
     n ← get_slot (names o) last_item_index; set_slot (names o) i n;;
     v ← get_slot (values o) last_item_index; set_slot (values o) i v);;
  store object (BObject (mkObject (obj_wrapping o) (names o) (values o)
                           (obj_count o - 1) (obj_capacity o))).

Definition json_object_remove_internal (object : ptr) (name : option bytes) (free_value : bool)
    : MP JSON_Status :=
  match object with
  | None => mret JSONFailure
  | Some _ =>
      v ← json_object_get_value object name;
      match v, name with
      | Some _, Some name =>
          n ← json_object_get_count object;
          let last_item_index := n - 1 in
          r ← for_range n (λ i,
            o ← load_object object;
            p ← get_slot (names o) i;
            nm ← load_cstr p;
            if strcmp_eq nm name then
              remove_entry object i last_item_index free_value;;
              mret (Some JSONSuccess)
            else mret None);
          match r with Some st => mret st | None => mret JSONFailure end
      | _, _ => mret JSONFailure
      end
  end.

Fixpoint json_object_dotremove_internal_rec (fuel : nat) (object : ptr) (name : bytes)
    (free_value : bool) : MP JSON_Status :=
  match fuel with
  | O => undef
  | S fuel =>
      match split_dot name with
      | None => json_object_remove_internal object (Some name) free_value
      | Some (n, rest) =>
          temp_value ← json_object_getn_value object name n;
          t ← json_value_get_type temp_value;
          if decide (t ≠ JSONObject) then mret JSONFailure
          else
            temp_object ← json_value_get_object temp_value;
            json_object_dotremove_internal_rec fuel temp_object rest free_value
      end
  end.
Definition json_object_dotremove_internal (object : ptr) (name : bytes) (free_value : bool)
    : MP JSON_Status :=
  json_object_dotremove_internal_rec (S (length name)) object name free_value.

Definition json_object_remove (object : ptr) (name : option bytes) : MP JSON_Status :=
  json_object_remove_internal object name true.
Definition json_object_dotremove (object : ptr) (name : bytes) : MP JSON_Status :=
  json_object_dotremove_internal object name true.

Definition json_object_clear (object : ptr) : MP JSON_Status :=
  match object with
  | None => mret JSONFailure
  | Some _ =>
      n ← json_object_get_count object;
      (for_range (R:=unit) n (λ i,
        o ← load_object object;
        p ← get_slot (names o) i; parson_free p;;
        v ← get_slot (values o) i; json_value_free v;;
        mret None));;
      o ← load_object object;
      store object (BObject (mkObject (obj_wrapping o) (names o) (values o) 0 (obj_capacity o)));;
      mret JSONSuccess
  end.

(** [memmove(items + ix, items + ix + 1, (count - 1 - ix) * sizeof(JSON_Value * ))] *)
Definition move_down (p : ptr) (ix count : nat) : MP unit :=
  s ← load_ptrs p;
  if decide (count ≤ length s) then
    store p (BPtrs (take ix s ++ take (count - 1 - ix) (drop (S ix) s) ++ drop (count - 1) s))
  else undef.

Definition json_array_remove (array : ptr) (ix : nat) : MP JSON_Status :=
  match array with
  | None => mret JSONFailure
  | Some _ =>
      n ← json_array_get_count array;
      if decide (n ≤ ix) then mret JSONFailure
      else
        v ← json_array_get_value array ix;
        json_value_free v;;
        a ← load_array array;
        move_down (items a) ix (arr_count a);;
        store array (BArray (mkArray (arr_wrapping a) (items a) (arr_count a - 1) (arr_capacity a)));;
        mret JSONSuccess
  end.

Definition json_array_clear (array : ptr) : MP JSON_Status :=
  match array with
  | None => mret JSONFailure
  | Some _ =>
      n ← json_array_get_count array;
      (for_range (R:=unit) n (λ i,
        v ← json_array_get_value array i; json_value_free v;; mret None));;
      a ← load_array array;
      store array (BArray (mkArray (arr_wrapping a) (items a) 0 (arr_capacity a)));;
      mret JSONSuccess
  end.

(** ** Insertion *)

(** [value != NULL && value->parent == NULL] *)
Definition detached (value : ptr) : MP bool :=
  match value with
  | None => mret false
  | Some _ => v ← load_value value; mret (negb (is_some_ptr (parent v)))
  end.

Definition json_array_append_value (array value : ptr) : MP JSON_Status :=
  match array with
  | None => mret JSONFailure
  | Some _ =>
      ok ← detached value;
      if (ok : bool) then json_array_add array value else mret JSONFailure
  end.

Definition json_array_replace_value (array : ptr) (ix : nat) (value : ptr) : MP JSON_Status :=
  match array with
  | None => mret JSONFailure
  | Some _ =>
      ok ← detached value;
      if negb (ok : bool) then mret JSONFailure
      else
        n ← json_array_get_count array;
        if decide (n ≤ ix) then mret JSONFailure
        else
          old ← json_array_get_value array ix;
          json_value_free old;;
          w ← json_array_get_wrapping_value array;
          set_parent value w;;
          a ← load_array array;
          set_slot (items a) ix value;;
          mret JSONSuccess
  end.

(** The pattern of the typed insertions: build, insert, free on failure. *)
Definition insert_or_free (make : MP ptr) (insert : ptr → MP JSON_Status) : MP JSON_Status :=
  value ← make;
  match value with
  | None => mret JSONFailure
  | Some _ =>
      st ← insert value;
      match st with
      | JSONFailure => json_value_free value;; mret JSONFailure
      | JSONSuccess => mret JSONSuccess
      end
  end.

Definition json_array_append_string (array : ptr) (string : option bytes) : MP JSON_Status :=
  insert_or_free (json_value_init_string string) (json_array_append_value array).
Definition json_array_append_number (array : ptr) (number : double) : MP JSON_Status :=
  insert_or_free (json_value_init_number number) (json_array_append_value array).
Definition json_array_append_boolean (array : ptr) (boolean : Z) : MP JSON_Status :=
  insert_or_free (json_value_init_boolean boolean) (json_array_append_value array).
Definition json_array_append_null (array : ptr) : MP JSON_Status :=
  insert_or_free json_value_init_null (json_array_append_value array).
Definition json_array_replace_string (array : ptr) (i : nat) (string : option bytes) : MP JSON_Status :=
  insert_or_free (json_value_init_string string) (json_array_replace_value array i).
Definition json_array_replace_number (array : ptr) (i : nat) (number : double) : MP JSON_Status :=
  insert_or_free (json_value_init_number number) (json_array_replace_value array i).
Definition json_array_replace_boolean (array : ptr) (i : nat) (boolean : Z) : MP JSON_Status :=
  insert_or_free (json_value_init_boolean boolean) (json_array_replace_value array i).
Definition json_array_replace_null (array : ptr) (i : nat) : MP JSON_Status :=
  insert_or_free json_value_init_null (json_array_replace_value array i).

Definition json_object_set_value (object : ptr) (name : option bytes) (value : ptr)
    : MP JSON_Status :=
  match object, name with
  | Some _, Some nm =>
      ok ← detached value;
      if negb (ok : bool) then mret JSONFailure
      else
        old_value ← json_object_get_value object name;
        r ← (match old_value with
             | None => mret None
             | Some _ =>
                 json_value_free old_value;;
                 n ← json_object_get_count object;
                 for_range n (λ i,
                   o ← load_object object;
                   p ← get_slot (names o) i;
                   k ← load_cstr p;
                   if strcmp_eq k nm then
                     w ← json_object_get_wrapping_value object;
                     set_parent value w;;
                     set_slot (values o) i value;;
                     mret (Some JSONSuccess)
                   else mret None)
             end);
        match r with
        | Some st => mret st
        | None => json_object_add object name value
        end
  | _, _ => mret JSONFailure
  end.

Definition json_object_set_string (object : ptr) (name : option bytes) (string : option bytes)
    : MP JSON_Status :=
  v ← json_value_init_string string; json_object_set_value object name v.
Definition json_object_set_number (object : ptr) (name : option bytes) (number : double)
    : MP JSON_Status :=
  v ← json_value_init_number number; json_object_set_value object name v.
Definition json_object_set_boolean (object : ptr) (name : option bytes) (boolean : Z)
    : MP JSON_Status :=
  v ← json_value_init_boolean boolean; json_object_set_value object name v.
Definition json_object_set_null (object : ptr) (name : option bytes) : MP JSON_Status :=
  v ← json_value_init_null; json_object_set_value object name v.

Fixpoint json_object_dotset_value_rec (fuel : nat) (object : ptr) (name : bytes) (value : ptr)
    : MP JSON_Status :=
  match fuel with
  | O => undef
  | S fuel =>
      match object, value with
      | Some _, Some _ =>
          match split_dot name with
          | None => json_object_set_value object (Some name) value
          | Some (name_len, rest) =>
              temp_value ← json_object_getn_value object name name_len;
              match temp_value with
              | Some _ =>
                  t ← json_value_get_type temp_value;
                  if decide (t ≠ JSONObject) then mret JSONFailure
                  else
                    temp_object ← json_value_get_object temp_value;
                    json_object_dotset_value_rec fuel temp_object rest value
              | None =>
                  new_value ← json_value_init_object;
                  match new_value with
                  | None => mret JSONFailure
                  | Some _ =>
                      new_object ← json_value_get_object new_value;
                      status ← json_object_dotset_value_rec fuel new_object rest value;
                      match status with
                      | JSONFailure => json_value_free new_value;; mret JSONFailure
                      | JSONSuccess =>
                          status ← json_object_addn object (Some name) name_len new_value;
                          match status with
                          | JSONFailure =>
                              json_object_dotremove_internal new_object rest false;;
                              json_value_free new_value;; mret JSONFailure
                          | JSONSuccess => mret JSONSuccess
                          end
                      end
                  end
              end
          end
      | _, _ => mret JSONFailure
      end
  end.
Definition json_object_dotset_value (object : ptr) (name : option bytes) (value : ptr)
    : MP JSON_Status :=
  match name with
  | None => mret JSONFailure
  | Some nm => json_object_dotset_value_rec (S (length nm)) object nm value
  end.

Definition json_object_dotset_string (object : ptr) (name : option bytes) (string : option bytes)
    : MP JSON_Status :=
  insert_or_free (json_value_init_string string) (json_object_dotset_value object name).
Definition json_object_dotset_number (object : ptr) (name : option bytes) (number : double)
    : MP JSON_Status :=
  insert_or_free (json_value_init_number number) (json_object_dotset_value object name).
Definition json_object_dotset_boolean (object : ptr) (name : option bytes) (boolean : Z)
    : MP JSON_Status :=
  insert_or_free (json_value_init_boolean boolean) (json_object_dotset_value object name).
Definition json_object_dotset_null (object : ptr) (name : option bytes) : MP JSON_Status :=
  insert_or_free json_value_init_null (json_object_dotset_value object name).
End ops.
