(* ===== verification/ParsonTree.v ===== *)
(** * Parson: operations on whole trees (common/json/parson.c)

    Deep copy, schema validation and comparison.  The recursions follow the
    structure in memory and take the bound of [heap_fuel]. *)
From stdpp Require Import base list numbers option gmap strings.
From Stdlib Require Import ZArith Lia.
From S2P Require Import Prelude CMem ParsonText CNum Parson.
Local Open Scope nat_scope.

Section tree.
Context `{Malloc}.

(** [json_object_get_name(object, i)] as the string the callers pass on. *)
Definition get_key (object : ptr) (i : nat) : MP (option bytes) :=
  p ← json_object_get_name object i;
  match p with
  | None => mret None
  | Some _ => s ← load_cstr p; mret (Some s)
  end.

(** The loops of [json_value_deep_copy]; [Some r] is an early return. *)
Definition copy_items (rec : ptr → MP ptr) (temp_array temp_array_copy return_value : ptr)
    : MP (option ptr) :=
  n ← json_array_get_count temp_array;
  for_range n (λ i,
    temp_value ← json_array_get_value temp_array i;
    temp_value_copy ← rec temp_value;
    match temp_value_copy with
    | None => json_value_free return_value;; mret (Some None)
    | Some _ =>
        st ← json_array_add temp_array_copy temp_value_copy;
        match st with
        | JSONFailure =>
            json_value_free return_value;; json_value_free temp_value_copy;; mret (Some None)
        | JSONSuccess => mret None
        end
    end).

Definition copy_members (rec : ptr → MP ptr) (temp_object temp_object_copy return_value : ptr)
    : MP (option ptr) :=
  n ← json_object_get_count temp_object;
  for_range n (λ i,
    temp_key ← get_key temp_object i;
    temp_value ← json_object_get_value temp_object temp_key;
    temp_value_copy ← rec temp_value;
    match temp_value_copy with
    | None => json_value_free return_value;; mret (Some None)
    | Some _ =>
        st ← json_object_add temp_object_copy temp_key temp_value_copy;
        match st with
        | JSONFailure =>
            json_value_free return_value;; json_value_free temp_value_copy;; mret (Some None)
        | JSONSuccess => mret None
        end
    end).

Fixpoint json_value_deep_copy_rec (fuel : nat) (value : ptr) : MP ptr :=
  match fuel with
  | O => undef
  | S fuel =>
      t ← json_value_get_type value;
      match t with
      | JSONArray =>
          temp_array ← json_value_get_array value;
          return_value ← json_value_init_array;
          match return_value with
          | None => mret None
          | Some _ =>
              temp_array_copy ← json_value_get_array return_value;
              r ← copy_items (json_value_deep_copy_rec fuel) temp_array temp_array_copy return_value;
              match r with Some p => mret p | None => mret return_value end
          end
      | JSONObject =>
          temp_object ← json_value_get_object value;
          return_value ← json_value_init_object;
          match return_value with
          | None => mret None
          | Some _ =>
              temp_object_copy ← json_value_get_object return_value;
              r ← copy_members (json_value_deep_copy_rec fuel) temp_object temp_object_copy return_value;
              match r with Some p => mret p | None => mret return_value end
          end
      | JSONBoolean => b ← json_value_get_boolean value; json_value_init_boolean b
      | JSONNumber => d ← json_value_get_number value; json_value_init_number d
      | JSONString =>
          temp_string ← json_value_get_string value;
          match temp_string with
          | None => mret None
          | Some _ =>
              s ← load_cstr temp_string;
              temp_string_copy ← parson_strdup s;
              match temp_string_copy with
              | None => mret None
              | Some _ =>
                  return_value ← json_value_init_string_no_copy temp_string_copy;
                  match return_value with
                  | None => parson_free temp_string_copy;; mret None
                  | Some _ => mret return_value
                  end
              end
          end
      | JSONNull => json_value_init_null
      | JSONError => mret None
      end
  end.
Definition json_value_deep_copy (value : ptr) : MP ptr :=
  heap_fuel (λ fuel, json_value_deep_copy_rec fuel value).

(** ** Validation *)

Definition validate_items (rec : ptr → ptr → MP JSON_Status) (schema value_array : ptr)
    : MP (option JSON_Status) :=
  n ← json_array_get_count value_array;
  for_range n (λ i,
    temp_value ← json_array_get_value value_array i;
    st ← rec schema temp_value;
    match st with JSONFailure => mret (Some JSONFailure) | JSONSuccess => mret None end).

Definition validate_members (rec : ptr → ptr → MP JSON_Status)
    (schema_object value_object : ptr) (count : nat) : MP (option JSON_Status) :=
  for_range count (λ i,
    key ← get_key schema_object i;
    temp_schema_value ← json_object_get_value schema_object key;
    temp_value ← json_object_get_value value_object key;
    match temp_value with
    | None => mret (Some JSONFailure)
    | Some _ =>
        st ← rec temp_schema_value temp_value;
        match st with JSONFailure => mret (Some JSONFailure) | JSONSuccess => mret None end
    end).

Definition or_success (r : option JSON_Status) : JSON_Status := default JSONSuccess r.

Fixpoint json_validate_rec (fuel : nat) (schema value : ptr) : MP JSON_Status :=
  match fuel with
  | O => undef
  | S fuel =>
      match schema, value with
      | Some _, Some _ =>
          schema_type ← json_value_get_type schema;
          value_type ← json_value_get_type value;
          if decide (schema_type ≠ value_type ∧ schema_type ≠ JSONNull) then mret JSONFailure
          else match schema_type with
          | JSONArray =>
              schema_array ← json_value_get_array schema;
              value_array ← json_value_get_array value;
              count ← json_array_get_count schema_array;
              if decide (count = 0) then mret JSONSuccess
              else
                temp_schema_value ← json_array_get_value schema_array 0;
                r ← validate_items (json_validate_rec fuel) temp_schema_value value_array;
                mret (or_success r)
          | JSONObject =>
              schema_object ← json_value_get_object schema;
              value_object ← json_value_get_object value;
              count ← json_object_get_count schema_object;
              if decide (count = 0) then mret JSONSuccess
              else
                n ← json_object_get_count value_object;
                if decide (n < count) then mret JSONFailure
                else
                  r ← validate_members (json_validate_rec fuel) schema_object value_object count;
                  mret (or_success r)
          | JSONString | JSONNumber | JSONBoolean | JSONNull => mret JSONSuccess
          | JSONError => mret JSONFailure
          end
      | _, _ => mret JSONFailure
      end
  end.
Definition json_validate (schema value : ptr) : MP JSON_Status :=
  heap_fuel (λ fuel, json_validate_rec fuel schema value).

(** ** Comparison *)

Definition equal_items (rec : ptr → ptr → MP bool) (a_array b_array : ptr) (count : nat)
    : MP (option bool) :=
  for_range count (λ i,
    x ← json_array_get_value a_array i;
    y ← json_array_get_value b_array i;
    ok ← rec x y;
    mret (if (ok : bool) then None else Some false)).

Definition equal_members (rec : ptr → ptr → MP bool) (a_object b_object : ptr) (count : nat)
    : MP (option bool) :=
  for_range count (λ i,
    key ← get_key a_object i;
    x ← json_object_get_value a_object key;
    y ← json_object_get_value b_object key;
    ok ← rec x y;
    mret (if (ok : bool) then None else Some false)).

Fixpoint json_value_equals_rec (fuel : nat) (a b : ptr) : MP bool :=
  match fuel with
  | O => undef
  | S fuel =>
      a_type ← json_value_get_type a;
      b_type ← json_value_get_type b;
      if decide (a_type ≠ b_type) then mret false
      else match a_type with
      | JSONArray =>
          a_array ← json_value_get_array a;
          b_array ← json_value_get_array b;
          a_count ← json_array_get_count a_array;
          b_count ← json_array_get_count b_array;
          if decide (a_count ≠ b_count) then mret false
          else
            r ← equal_items (json_value_equals_rec fuel) a_array b_array a_count;
            mret (default true r)
      | JSONObject =>
          a_object ← json_value_get_object a;
          b_object ← json_value_get_object b;
          a_count ← json_object_get_count a_object;
          b_count ← json_object_get_count b_object;
          if decide (a_count ≠ b_count) then mret false
          else
            r ← equal_members (json_value_equals_rec fuel) a_object b_object a_count;
            mret (default true r)
      | JSONString =>
          a_string ← json_value_get_string a;
          b_string ← json_value_get_string b;
          match a_string, b_string with
          | Some _, Some _ =>
              x ← load_cstr a_string; y ← load_cstr b_string; mret (strcmp_eq x y)
          | _, _ => mret false
          end
      | JSONBoolean =>
          x ← json_value_get_boolean a; y ← json_value_get_boolean b; mret (x =? y)%Z
      | JSONNumber =>
          x ← json_value_get_number a; y ← json_value_get_number b; mret (SFltb (SFabs (dsub x y)) EPSILON)
      | JSONError | JSONNull => mret true
      end
  end.
Definition json_value_equals (a b : ptr) : MP bool :=
  heap_fuel (λ fuel, json_value_equals_rec fuel a b).

(** ** Short names *)
Definition json_type (value : ptr) : MP JSON_Value_Type := json_value_get_type value.
Definition json_object (value : ptr) : MP ptr := json_value_get_object value.
Definition json_array (value : ptr) : MP ptr := json_value_get_array value.
Definition json_string (value : ptr) : MP ptr := json_value_get_string value.
Definition json_number (value : ptr) : MP double := json_value_get_number value.
Definition json_boolean (value : ptr) : MP Z := json_value_get_boolean value.
End tree.
