(* ===== verification/Utils.v ===== *)
(** * The utilities of the enclave (common/utils.c)

    [append_string], which the serializer calls, the in-place byte swap between
    the two byte orders of SGX and OpenSSL, and the hexadecimal text of a hash. *)
From stdpp Require Import base list numbers option gmap strings.
From Stdlib Require Import ZArith Lia.
From S2P Require Import Prelude CMem Parson.
Local Open Scope nat_scope.

(** [char *buf]: NULL, or an offset into a block. *)
Abbreviation cursor := (option (loc * nat)).

(** [memcpy(l + off, data, strlen(data))]; the bytes before [off] are initialised. *)
Definition write_at (l : loc) (off : nat) (data : bytes) : MP unit :=
  b ← load (Some l);
  match b with
  | BChars size raw =>
      if decide (off ≤ length raw ∧ (Z.of_nat (off + length data) ≤ size)%Z) then
        store (Some l) (BChars size (take off raw ++ data ++ drop (off + length data) raw))
      else undef
  | _ => undef
  end.

(** [append_string] calls [strncpy(buf, string, len + 1)], which copies the
    terminating NUL.  The conversion of the length to [int] must preserve it. *)
Definition append_string (buf : cursor) (string : bytes) : MP Z :=
  len ← int_add 0 (Z.of_nat (length string));
  match buf with
  | None => mret len
  | Some (l, off) => write_at l off (string ++ [x00]);; mret len
  end.

(** The loop of [bytes_swap]: [start] and [end_] are indices into the buffer the
    pointers point into; reading or writing outside it is [None].  The distance
    shrinks in every iteration, so the length is enough fuel. *)
Fixpoint bytes_swap_loop (fuel : nat) (buf : bytes) (start end_ : Z) : option bytes :=
  if (start <? end_)%Z then
    match fuel with
    | O => None
    | S fuel =>
        swap ← buf !! Z.to_nat start;
        e ← buf !! Z.to_nat end_;
        bytes_swap_loop fuel (<[Z.to_nat end_ := swap]> (<[Z.to_nat start := e]> buf))
          (start + 1) (end_ - 1)
    end
  else Some buf.

(** [bytes_swap(buf + off, len)]; [start + len - 1] for an empty range lies before
    [start], so that the loop does nothing. *)
Definition bytes_swap (buf : bytes) (off len : nat) : option bytes :=
  let start := Z.of_nat off in
  bytes_swap_loop len buf start (start + Z.of_nat len - 1).

(** [hexdigs[d]] *)
Definition hexdig (d : Z) : byte := at_c (bs "0123456789abcdef") (Z.to_nat d).

(** The two digits written for a byte *)
Definition hex2 (b : byte) : bytes :=
  [hexdig (Z.shiftr (uchar b) 4); hexdig (Z.land (uchar b) 0x0f)].

Section hexstring.
Context `{Malloc}.

(** [out] is not tested for NULL.  The indices [i * 2] and [i * 2 + 1] are computed
    in [int]. *)
Definition bytes_to_hexstring (data : bytes) (len : nat) : MP ptr :=
  let k := wrap64 (Z.of_nat len * 2 + 1) in
  out ← malloc k (BChars k []);
  (for_range (R:=unit) len (λ i,
     match data !! i with
     | None => undef
     | Some b =>
         i2 ← int_add (Z.of_nat i) (Z.of_nat i);
         i21 ← int_add i2 1;
         match out with
         | None => undef
         | Some l =>
             write_at l (Z.to_nat i2) [hexdig (Z.shiftr (uchar b) 4)];;
             write_at l (Z.to_nat i21) [hexdig (Z.land (uchar b) 0x0f)];;
             mret None
         end
     end));;
  match out with
  | None => undef
  | Some l => write_at l (Z.to_nat (k - 1)) [x00];; mret out
  end.
End hexstring.
