(* ===== verification/ParsonSerialize.v ===== *)
(** * Parson: serialization (common/json/parson.c, common/utils.c)

    The serializer runs twice: with [buf == NULL] it only counts, with a buffer it
    writes at a moving cursor.  The cursor is a block and an offset; every write is
    checked against the size of the block.  The macros [APPEND_STRING] and
    [APPEND_INDENT] are steps on the pair ([buf], [written_total]); a step that
    gives [None] is the early [return -1]. *)
From stdpp Require Import base list numbers option gmap strings.
From Stdlib Require Import ZArith Lia.
From S2P Require Import Prelude CMem ParsonText CNum Parson ParsonTree Utils.
Local Open Scope nat_scope.

Section serialize.
Context `{Malloc}.

(** [buf += n] when [buf != NULL] *)
Definition advance (buf : cursor) (n : Z) : cursor :=
  match buf with None => None | Some (l, off) => Some (l, off + Z.to_nat n) end.

Definition sstate : Type := cursor * Z.
Definition step : Type := sstate → MP (option sstate).

(** [if (written < 0) return -1; if (buf != NULL) buf += written; written_total += written;] *)
Definition account (written : Z) : step := λ '(buf, written_total),
  if (written <? 0)%Z then mret None
  else total ← int_add written_total written; mret (Some (advance buf written, total)).

Definition skip : step := λ s, mret (Some s).
Definition andthen (f g : step) : step := λ s,
  r ← f s; match r with None => mret None | Some s' => g s' end.
Definition when (b : bool) (f : step) : step := if b then f else skip.

(** [return written_total], or [return -1] after a failed step. *)
Definition finish (r : option sstate) : Z :=
  match r with None => (-1)%Z | Some (_, total) => total end.

Definition APPEND_STRING (str : bytes) : step := λ s,
  written ← append_string s.1 str; account written s.

(** [for (i = 0; ...)] over the indices [l]. *)
Fixpoint steps (l : list nat) (body : nat → step) : step :=
  match l with
  | [] => skip
  | i :: r => andthen (body i) (steps r body)
  end.

Definition append_indent (buf : cursor) (level : Z) : MP Z :=
  r ← steps (seq 0 (Z.to_nat level)) (λ _, APPEND_STRING (bs "    ")) (buf, 0%Z);
  mret (finish r).

Definition APPEND_INDENT (level : Z) : step := λ s,
  written ← append_indent s.1 level; account written s.

(** The [default] case of [json_serialize_string]: [buf[0] = c; buf += 1]. *)
Definition append_char (c : byte) : step := λ '(buf, written_total),
  match buf with None => mret () | Some (l, off) => write_at l off [c] end;;
  total ← int_add written_total 1;
  mret (Some (advance buf 1, total)).

(** The cases of the [switch] of [json_serialize_string]. *)
Definition is_escaped (c : byte) : bool :=
  bool_decide (c = x22 ∨ c = "\"%byte ∨ c = "/"%byte) || (uchar c <? 0x20)%Z.
Definition serialize_char (c : byte) : step :=
  if is_escaped c then APPEND_STRING (escape_char c) else append_char c.

Definition json_serialize_string (string : bytes) (buf : cursor) : MP Z :=
  r ← andthen (APPEND_STRING [x22])
        (andthen (steps (seq 0 (length string)) (λ i, serialize_char (at_c string i)))
           (APPEND_STRING [x22])) (buf, 0%Z);
  mret (finish r).

(** [snprintf(buf, NUM_BUF_SIZE, FLOAT_FORMAT, num)] *)
Definition snprintf_num (l : loc) (off : nat) (num : double) : MP Z :=
  let text := format_g17 num in
  write_at l off (take (NUM_BUF_SIZE - 1) text ++ [x00]);;
  mret (Z.of_nat (length text)).

(** A recursive call, or a call of [json_serialize_string], and its bookkeeping. *)
Definition append_call (call : cursor → MP Z) : step := λ s,
  written ← call s.1; account written s.

Section cases.
(** The recursive call, at the given value, cursor and level. *)
Context (rec : ptr → cursor → Z → MP Z).

Definition serialize_array (array : ptr) (buf : cursor) (level : Z) (is_pretty : bool) : MP Z :=
  count ← json_array_get_count array;
  let nonempty := bool_decide (0 < count) in
  r ← andthen (APPEND_STRING (bs "["))
     (andthen (when (nonempty && is_pretty) (APPEND_STRING [x0a]))
     (andthen (steps (seq 0 count) (λ i s,
        level1 ← int_add level 1;
        andthen (when is_pretty (APPEND_INDENT level1))
       (andthen (append_call (λ b, v ← json_array_get_value array i; rec v b level1))
       (andthen (when (bool_decide (i < count - 1)) (APPEND_STRING (bs ",")))
                (when is_pretty (APPEND_STRING [x0a])))) s))
     (andthen (when (nonempty && is_pretty) (APPEND_INDENT level))
              (APPEND_STRING (bs "]"))))) (buf, 0%Z);
  mret (finish r).

Definition serialize_object (object : ptr) (buf : cursor) (level : Z) (is_pretty : bool) : MP Z :=
  count ← json_object_get_count object;
  let nonempty := bool_decide (0 < count) in
  r ← andthen (APPEND_STRING (bs "{"))
     (andthen (when (nonempty && is_pretty) (APPEND_STRING [x0a]))
     (andthen (steps (seq 0 count) (λ i s,
        key ← get_key object i;
        match key with
        | None => mret None
        | Some k =>
            level1 ← int_add level 1;
            andthen (when is_pretty (APPEND_INDENT level1))
           (andthen (append_call (json_serialize_string k))
           (andthen (APPEND_STRING (bs ":"))
           (andthen (when is_pretty (APPEND_STRING (bs " ")))
           (andthen (append_call (λ b, v ← json_object_get_value object key; rec v b level1))
           (andthen (when (bool_decide (i < count - 1)) (APPEND_STRING (bs ",")))
                    (when is_pretty (APPEND_STRING [x0a]))))))) s
        end))
     (andthen (when (nonempty && is_pretty) (APPEND_INDENT level))
              (APPEND_STRING (bs "}"))))) (buf, 0%Z);
  mret (finish r).
End cases.

(** [num_buf] says whether the caller passed a scratch buffer of [NUM_BUF_SIZE]
    bytes, which is all that is observable of it. *)
Fixpoint json_serialize_to_buffer_r (fuel : nat) (value : ptr) (buf : cursor) (level : Z)
    (is_pretty num_buf : bool) : MP Z :=
  match fuel with
  | O => undef
  | S fuel =>
      let rec v b lv := json_serialize_to_buffer_r fuel v b lv is_pretty num_buf in
      t ← json_value_get_type value;
      match t with
      | JSONArray =>
          array ← json_value_get_array value; serialize_array rec array buf level is_pretty
      | JSONObject =>
          object ← json_value_get_object value; serialize_object rec object buf level is_pretty
      | JSONString =>
          string ← json_value_get_string value;
          match string with
          | None => mret (-1)%Z
          | Some _ =>
              s ← load_cstr string;
              r ← append_call (json_serialize_string s) (buf, 0%Z); mret (finish r)
          end
      | JSONBoolean =>
          b ← json_value_get_boolean value;
          r ← (if decide (b ≠ 0%Z) then APPEND_STRING (bs "true")
               else APPEND_STRING (bs "false")) (buf, 0%Z);
          mret (finish r)
      | JSONNumber =>
          num ← json_value_get_number value;
          r ← append_call (λ b,
                match b with
                | Some (l, off) => snprintf_num l off num
                | None => if num_buf then mret (Z.of_nat (length (format_g17 num))) else undef
                end) (buf, 0%Z);
          mret (finish r)
      | JSONNull => r ← APPEND_STRING (bs "null") (buf, 0%Z); mret (finish r)
      | JSONError => mret (-1)%Z
      end
  end.

(** [json_serialization_size] and [json_serialization_size_pretty]: the sum is an [int],
    converted to [size_t] afterwards *)
Definition serialization_size (is_pretty : bool) (value : ptr) : MP Z :=
  res ← heap_fuel (λ fuel, json_serialize_to_buffer_r fuel value None 0 is_pretty true);
  if (res <? 0)%Z then mret 0%Z else int_add res 1.
Definition json_serialization_size : ptr → MP Z := serialization_size false.
Definition json_serialization_size_pretty : ptr → MP Z := serialization_size true.

(** [json_serialize_to_buffer] and [json_serialize_to_buffer_pretty] *)
Definition serialize_to_buffer (is_pretty : bool) (value : ptr) (buf : cursor)
    (buf_size_in_bytes : Z) : MP JSON_Status :=
  needed_size_in_bytes ← serialization_size is_pretty value;
  if ((needed_size_in_bytes =? 0) || (buf_size_in_bytes <? needed_size_in_bytes))%Z
  then mret JSONFailure
  else
    written ← heap_fuel (λ fuel, json_serialize_to_buffer_r fuel value buf 0 is_pretty false);
    mret (if (written <? 0)%Z then JSONFailure else JSONSuccess).
Definition json_serialize_to_buffer : ptr → cursor → Z → MP JSON_Status :=
  serialize_to_buffer false.
Definition json_serialize_to_buffer_pretty : ptr → cursor → Z → MP JSON_Status :=
  serialize_to_buffer true.

Definition json_free_serialized_string (string : ptr) : MP unit := parson_free string.

(** [json_serialize_to_string] and [json_serialize_to_string_pretty] *)
Definition serialize_to_string (is_pretty : bool) (value : ptr) : MP ptr :=
  buf_size_bytes ← serialization_size is_pretty value;
  if (buf_size_bytes =? 0)%Z then mret None
  else
    buf ← parson_malloc buf_size_bytes (BChars buf_size_bytes []);
    match buf with
    | None => mret None
    | Some l =>
        serialization_result ← serialize_to_buffer is_pretty value (Some (l, 0)) buf_size_bytes;
        match serialization_result with
        | JSONFailure => json_free_serialized_string buf;; mret None
        | JSONSuccess => mret buf
        end
    end.
Definition json_serialize_to_string : ptr → MP ptr := serialize_to_string false.
Definition json_serialize_to_string_pretty : ptr → MP ptr := serialize_to_string true.
End serialize.
