(* ===== verification/JsonSpec.v ===== *)
(** * JSON documents: the abstract specification of the parson library

    [json] is the tree a document denotes.  [parse_json] says which text denotes
    which tree and [serialize_json] how a tree is printed; the library's parser
    and serializer, which work on blocks of memory, are proved to compute these
    functions.  Members of an object keep the order of the text. *)
From stdpp Require Import base list numbers option sets strings.
From Stdlib Require Import ZArith Lia.
From S2P Require Import Prelude CNum ParsonText.
Local Open Scope nat_scope.

Inductive json :=
  | JNull
  | JBool (b : bool)
  | JNumber (d : double)
  | JString (s : bytes)
  | JArray (l : list json)
  | JObject (l : list (bytes * json)).

Section json_ind.
Context (P : json → Prop).
Context (HNull : P JNull) (HBool : ∀ b, P (JBool b)) (HNumber : ∀ d, P (JNumber d))
  (HString : ∀ s, P (JString s))
  (HArray : ∀ l, Forall P l → P (JArray l))
  (HObject : ∀ l, Forall (λ kv, P kv.2) l → P (JObject l)).
Fixpoint json_induction (t : json) : P t :=
  match t with
  | JNull => HNull | JBool b => HBool b | JNumber d => HNumber d | JString s => HString s
  | JArray l => HArray l ((fix go l := match l return Forall P l with
                  | [] => Forall_nil_2 _
                  | x :: l' => Forall_cons_2 _ x l' (json_induction x) (go l') end) l)
  | JObject l => HObject l ((fix go l := match l return Forall (λ kv, P kv.2) l with
                  | [] => Forall_nil_2 _
                  | x :: l' => Forall_cons_2 _ x l' (json_induction x.2) (go l') end) l)
  end.
End json_ind.

(** Recursion over trees with a uniform result. *)
Section json_fold.
Context {A : Type} (fnull : A) (fbool : bool → A) (fnumber : double → A) (fstring : bytes → A)
  (farray : list A → A) (fobject : list (bytes * A) → A).
Fixpoint json_fold (t : json) : A :=
  match t with
  | JNull => fnull | JBool b => fbool b | JNumber d => fnumber d | JString s => fstring s
  | JArray l => farray (map json_fold l)
  | JObject l => fobject (map (λ kv, (kv.1, json_fold kv.2)) l)
  end.
End json_fold.

(** The depth of a tree: 1 for a scalar. *)
Fixpoint depth (t : json) : nat :=
  match t with
  | JArray l => S (foldr (λ x n, depth x `max` n) 0 l)
  | JObject l => S (foldr (λ kv n, depth kv.2 `max` n) 0 l)
  | _ => 1
  end.

Lemma depth_elem_array t ts : t ∈ ts → depth t < depth (JArray ts).
Proof.
  simpl. induction ts as [|x ts IH]; [set_solver|].
  intros [->|Ht]%elem_of_cons; simpl; [lia|]. specialize (IH Ht). lia.
Qed.
Lemma depth_elem_object t kvs : t ∈ kvs.*2 → depth t < depth (JObject kvs).
Proof.
  simpl. induction kvs as [|x kvs IH]; [set_solver|].
  intros [->|Ht]%elem_of_cons; simpl; [lia|]. specialize (IH Ht). lia.
Qed.

(** The number of nodes, names and characters of a tree. *)
Fixpoint weight (t : json) : nat :=
  match t with
  | JString s => S (length s)
  | JArray l => S (foldr (λ x n, weight x + n) 0 l)
  | JObject l => S (foldr (λ kv n, S (length kv.1) + weight kv.2 + n) 0 l)
  | _ => 1
  end.
Lemma weight_elem_array t ts : t ∈ ts → weight t < weight (JArray ts).
Proof.
  simpl. induction ts as [|x ts IH]; [set_solver|].
  intros [->|Ht]%elem_of_cons; simpl; [lia|]. specialize (IH Ht). lia.
Qed.
Lemma weight_elem_object kv kvs :
  kv ∈ kvs → S (length kv.1) + weight kv.2 < weight (JObject kvs).
Proof.
  simpl. induction kvs as [|x kvs IH]; [set_solver|].
  intros [->|Ht]%elem_of_cons; simpl; [lia|]. specialize (IH Ht). lia.
Qed.
Lemma weight_pos t : 1 ≤ weight t.
Proof. destruct t; simpl; lia. Qed.
Lemma weight_length_array ts : length ts < weight (JArray ts).
Proof.
  simpl. induction ts as [|x ts IH]; simpl; [lia|]. pose proof (weight_pos x). lia.
Qed.
Lemma weight_length_object kvs : length kvs < weight (JObject kvs).
Proof. simpl. induction kvs as [|x kvs IH]; simpl; lia. Qed.

(** Member lookup: the first member with the name. *)
Fixpoint olookup (k : bytes) (kvs : list (bytes * json)) : option json :=
  match kvs with
  | [] => None
  | (k', v) :: r => if decide (k' = k) then Some v else olookup k r
  end.

(** Well-formed trees: strings hold no NUL, names are distinct, numbers are finite. *)
Fixpoint json_wf (t : json) : Prop :=
  match t with
  | JNull | JBool _ => True
  | JNumber d => is_finite d = true
  | JString s => nonul s
  | JArray l => (fix go l := match l with [] => True | x :: r => json_wf x ∧ go r end) l
  | JObject l => NoDup l.*1 ∧
      (fix go l := match l with [] => True | kv :: r => (nonul kv.1 ∧ json_wf kv.2) ∧ go r end) l
  end.

Lemma json_wf_array l : json_wf (JArray l) ↔ Forall json_wf l.
Proof.
  simpl. induction l as [|x l IH]; [by rewrite Forall_nil|]. by rewrite Forall_cons, IH.
Qed.
Lemma json_wf_object l :
  json_wf (JObject l) ↔ NoDup l.*1 ∧ Forall (λ kv, nonul kv.1 ∧ json_wf kv.2) l.
Proof.
  simpl. f_equiv. induction l as [|x l IH]; [by rewrite Forall_nil|]. by rewrite Forall_cons, IH.
Qed.

(** ** Comparison and validation of trees *)

Section all2.
Context {A B : Type} (f : A → B → bool).
Fixpoint all2 (l1 : list A) (l2 : list B) : bool :=
  match l1, l2 with
  | x :: l1, y :: l2 => f x y && all2 l1 l2
  | _, _ => true
  end.
End all2.

(** [|x - y| < 0.000001] *)
Definition close_numbers (x y : double) : bool := SFltb (SFabs (dsub x y)) EPSILON.

(** Equality of trees: numbers up to epsilon, members in any order. *)
Fixpoint json_equal (a b : json) : bool :=
  match a, b with
  | JNull, JNull => true
  | JBool x, JBool y => Bool.eqb x y
  | JNumber x, JNumber y => close_numbers x y
  | JString x, JString y => bool_decide (x = y)
  | JArray l1, JArray l2 => bool_decide (length l1 = length l2) && all2 json_equal l1 l2
  | JObject l1, JObject l2 => bool_decide (length l1 = length l2) &&
      forallb (λ kv, match olookup kv.1 l2 with
                     | Some v => json_equal kv.2 v | None => false end) l1
  | _, _ => false
  end.

(** A schema is a tree: [null] admits everything, an array gives the schema of its
    elements, an object the schemas of required members. *)
Fixpoint json_valid (schema value : json) : bool :=
  match schema, value with
  | JNull, _ | JBool _, JBool _ | JNumber _, JNumber _ | JString _, JString _ => true
  | JArray ss, JArray vs => match ss with [] => true | s :: _ => forallb (json_valid s) vs end
  | JObject ss, JObject vs =>
      bool_decide (ss = []) ||
      bool_decide (length ss ≤ length vs) &&
      forallb (λ kv, match olookup kv.1 vs with
                     | Some v => json_valid kv.2 v | None => false end) ss
  | _, _ => false
  end.

(** ** Text to tree *)

Section grammar.
Context (pv : bytes → nat → option (json * bytes)).

Fixpoint parse_members (fuel : nat) (acc : list (bytes * json)) (s : bytes) (nesting : nat)
    : option (list (bytes * json) * bytes) :=
  match fuel with
  | O => None
  | S fuel =>
      if decide (hd_c s = x00) then Some (acc, s) else
      '(k, s) ← quoted_text s;
      let s := SKIP_WHITESPACES s in
      if decide (hd_c s ≠ ":"%byte) then None else
      '(v, s) ← pv (SKIP_CHAR s) nesting;
      if decide (k ∈ acc.*1) then None else
      let acc := acc ++ [(k, v)] in
      let s := SKIP_WHITESPACES s in
      if decide (hd_c s ≠ ","%byte) then Some (acc, s)
      else parse_members fuel acc (SKIP_WHITESPACES (SKIP_CHAR s)) nesting
  end.

Fixpoint parse_elements (fuel : nat) (acc : list json) (s : bytes) (nesting : nat)
    : option (list json * bytes) :=
  match fuel with
  | O => None
  | S fuel =>
      if decide (hd_c s = x00) then Some (acc, s) else
      '(v, s) ← pv s nesting;
      let acc := acc ++ [v] in
      let s := SKIP_WHITESPACES s in
      if decide (hd_c s ≠ ","%byte) then Some (acc, s)
      else parse_elements fuel acc (SKIP_WHITESPACES (SKIP_CHAR s)) nesting
  end.

Definition parse_object (s : bytes) (nesting : nat) : option (json * bytes) :=
  let s := SKIP_WHITESPACES (SKIP_CHAR s) in
  if decide (hd_c s = "}"%byte) then Some (JObject [], SKIP_CHAR s) else
  '(l, s) ← parse_members (S (length s)) [] s nesting;
  let s := SKIP_WHITESPACES s in
  if decide (hd_c s = "}"%byte) then Some (JObject l, SKIP_CHAR s) else None.

Definition parse_array (s : bytes) (nesting : nat) : option (json * bytes) :=
  let s := SKIP_WHITESPACES (SKIP_CHAR s) in
  if decide (hd_c s = "]"%byte) then Some (JArray [], SKIP_CHAR s) else
  '(l, s) ← parse_elements (S (length s)) [] s nesting;
  let s := SKIP_WHITESPACES s in
  if decide (hd_c s = "]"%byte) then Some (JArray l, SKIP_CHAR s) else None.
End grammar.

Definition parse_string (s : bytes) : option (json * bytes) :=
  '(str, r) ← quoted_text s; Some (JString str, r).
Definition parse_boolean (s : bytes) : option (json * bytes) :=
  if strncmp_eq (bs "true") s 4 then Some (JBool true, drop 4 s)
  else if strncmp_eq (bs "false") s 5 then Some (JBool false, drop 5 s) else None.
Definition parse_null (s : bytes) : option (json * bytes) :=
  if strncmp_eq (bs "null") s 4 then Some (JNull, drop 4 s) else None.
Definition parse_number (s : bytes) : option (json * bytes) :=
  let '(number, r, errno) := strtod s in
  if errno || negb (is_decimal s (length s - length r)) then None
  else if is_finite number then Some (JNumber number, r) else None.

(** [max_nesting] is the deepest nesting of containers that is accepted. *)
Fixpoint parse_json_at (max_nesting fuel : nat) (s : bytes) (nesting : nat)
    : option (json * bytes) :=
  match fuel with
  | O => None
  | S fuel =>
      if decide (max_nesting < nesting) then None else
      let s := SKIP_WHITESPACES s in
      let c := hd_c s in
      if decide (c = "{"%byte) then parse_object (parse_json_at max_nesting fuel) s (nesting + 1)
      else if decide (c = "["%byte) then parse_array (parse_json_at max_nesting fuel) s (nesting + 1)
      else if decide (c = x22) then parse_string s
      else if decide (c = "f"%byte ∨ c = "t"%byte) then parse_boolean s
      else if decide (c = "-"%byte) then parse_number s
      else if isdigit c then parse_number s
      else if decide (c = "n"%byte) then parse_null s
      else None
  end.

(** The tree a text denotes; what follows the first value is ignored. *)
Definition parse_json (s : bytes) : option json :=
  let s := if decide (at_c s 0 = xef ∧ at_c s 1 = xbb ∧ at_c s 2 = xbf) then drop 3 s else s in
  fst <$> parse_json_at 2048 (S (length s)) s 0.

(** ** Tree to text *)

(** Elements already printed, separated by commas; one per line if [pretty]. *)
Fixpoint join_parts (pretty : bool) (level : nat) (parts : list bytes) : bytes :=
  match parts with
  | [] => []
  | p :: r =>
      (if pretty then indent_text (level + 1) else []) ++ p ++
      (if decide (r = []) then [] else bs ",") ++
      (if pretty then [x0a] else []) ++ join_parts pretty level r
  end.

Definition bracket (pretty : bool) (level : nat) (op cl : bytes) (parts : list bytes) : bytes :=
  op ++ (if pretty && negb (bool_decide (parts = [])) then [x0a] else []) ++
  join_parts pretty level parts ++
  (if pretty && negb (bool_decide (parts = [])) then indent_text level else []) ++ cl.

Definition member_text (pretty : bool) (k v : bytes) : bytes :=
  serialize_string_text k ++ bs ":" ++ (if pretty then bs " " else []) ++ v.

Fixpoint serialize_json (pretty : bool) (level : nat) (t : json) : bytes :=
  match t with
  | JNull => bs "null"
  | JBool b => if b then bs "true" else bs "false"
  | JNumber d => format_g17 d
  | JString s => serialize_string_text s
  | JArray l => bracket pretty level (bs "[") (bs "]") (map (serialize_json pretty (level + 1)) l)
  | JObject l => bracket pretty level (bs "{") (bs "}")
      (map (λ kv, member_text pretty kv.1 (serialize_json pretty (level + 1) kv.2)) l)
  end.
