(* ===== verification/ParsonTextProof.v ===== *)
(** * Parson: properties of the text routines *)
From stdpp Require Import base list numbers option sets strings.
From Stdlib Require Import ZArith Lia.
From S2P Require Import Prelude ParsonText CNum JsonSpec.
Local Open Scope nat_scope.

(** ** Cursors only move forward *)

Lemma length_skip_ws s : length (SKIP_WHITESPACES s) ≤ length s.
Proof. induction s as [|b s IH]; simpl; [done|]. destruct (isspace b); simpl; lia. Qed.

Lemma hd_c_cons s b : hd_c s = b → b ≠ x00 → ∃ r, s = b :: r.
Proof. destruct s as [|c r]; intros <- Hb; [by destruct Hb|]. by exists r. Qed.

Lemma length_tail (s : bytes) : length (tail s) = length s - 1.
Proof. destruct s; simpl; lia. Qed.

Lemma length_tail_lt s b : hd_c s = b → b ≠ x00 → length (tail s) < length s.
Proof. intros Hh Hb. destruct (hd_c_cons s b Hh Hb) as [r ->]. simpl; lia. Qed.

Lemma skip_quotes_loop_length_n n s rest :
  length s ≤ n → skip_quotes_loop s = Some rest → length rest < length s.
Proof.
  revert s. induction n as [|n IH]; intros [|c s] Hn; simpl in *; try done; [lia|].
  repeat case_decide; intros; simplify_eq; try lia.
  - destruct s as [|d s]; [done|]. simpl in *. specialize (IH s). lia || (apply IH in H1; lia).
  - specialize (IH s). assert (length rest < length s) by (apply IH; [lia|done]). lia.
Qed.
Lemma skip_quotes_loop_length s rest : skip_quotes_loop s = Some rest → length rest < length s.
Proof. by apply (skip_quotes_loop_length_n (length s)). Qed.

Lemma skip_quotes_length s rest : skip_quotes s = Some rest → S (length rest) < length s.
Proof.
  unfold skip_quotes, SKIP_CHAR. case_decide as Hc; [|done]. apply hd_c_cons in Hc as [r ->]; [|done].
  simpl. intros Hs%skip_quotes_loop_length. lia.
Qed.

Lemma quoted_text_length s str rest : quoted_text s = Some (str, rest) → length rest < length s.
Proof.
  unfold quoted_text. destruct (skip_quotes s) as [r|] eqn:Hs; [|done].
  apply skip_quotes_length in Hs. destruct (process_string_text _ _) as [o []]; [|done].
  intros [= _ <-]. lia.
Qed.

Lemma quoted_text_nonul s str rest : quoted_text s = Some (str, rest) → nonul str.
Proof.
  unfold quoted_text. destruct (skip_quotes s) as [r|]; [|done].
  destruct (process_string_text _ _) as [o []]; [|done]. intros [= <- _]. apply nonul_cstr.
Qed.

(** ** The output of [process_string] fits its buffer *)

Lemma hex_char_plain : ∀ c, hex_char_to_int c ≠ (-1)%Z → c ≠ x22 ∧ c ≠ "\"%byte ∧ c ≠ x00.
Proof. by_bytes. Qed.

Lemma parse_utf16_hex_Some s cp :
  parse_utf16_hex s = Some cp →
  ∃ a b c d r, s = a :: b :: c :: d :: r ∧
    Forall (λ x, hex_char_to_int x ≠ (-1)%Z) [a; b; c; d].
Proof.
  unfold parse_utf16_hex. case_match eqn:Hz; [done|].
  rewrite !orb_false_iff in Hz. destruct Hz as [[[H0 H1] H2] H3].
  apply bool_decide_eq_false in H0, H1, H2, H3.
  destruct s as [|a [|b [|c [|d r]]]]; unfold at_c in *; simpl in *; try done.
  case_match eqn:Hm; [done|]. intros _. rewrite !orb_false_iff, !Z.eqb_neq in Hm.
  exists a, b, c, d, r. split; [done|]. rewrite !Forall_cons. naive_solver.
Qed.

Lemma skip_quotes_plain c r :
  c ≠ x22 → c ≠ "\"%byte → skip_quotes_loop (c :: r) = skip_quotes_loop r.
Proof. intros H1 H2. simpl. by rewrite decide_False, decide_False. Qed.

Lemma skip_quotes_escape d r : skip_quotes_loop ("\"%byte :: d :: r) = skip_quotes_loop r.
Proof. reflexivity. Qed.

Lemma skip_quotes_hex4 a b c d r :
  Forall (λ x, hex_char_to_int x ≠ (-1)%Z) [a; b; c; d] →
  skip_quotes_loop (a :: b :: c :: d :: r) = skip_quotes_loop r.
Proof.
  rewrite !Forall_cons. intros (Ha & Hb & Hc & Hd & _).
  apply hex_char_plain in Ha, Hb, Hc, Hd. rewrite !skip_quotes_plain; tauto.
Qed.

(** After an escape introduced by [\u] the cursor is still inside the quoted
    string, and more characters were read than are written. *)
Lemma parse_utf16_skip c r s2 out rest :
  skip_quotes_loop r = Some rest →
  parse_utf16 (c :: r) = Some (s2, out) →
  skip_quotes_loop (tail s2) = Some rest ∧ length (tail s2) + length out ≤ length r.
Proof.
  intros Hq. unfold parse_utf16. simpl tail. destruct (parse_utf16_hex r) as [cp|] eqn:Hh; [|done].
  apply parse_utf16_hex_Some in Hh as (x1 & x2 & x3 & x4 & r4 & -> & Hhex).
  rewrite (skip_quotes_hex4 _ _ _ _ _ Hhex) in Hq.
  destruct (cp <? 0x80)%Z; [intros [= <- <-]; simpl; split; [done|lia]|].
  destruct (cp <? 0x800)%Z; [intros [= <- <-]; simpl; split; [done|lia]|].
  destruct (_ || _)%bool; [intros [= <- <-]; simpl; split; [done|lia]|].
  destruct (_ && _)%bool; [|done].
  change (drop 4 (x1 :: x2 :: x3 :: x4 :: r4)) with r4. cbv zeta.
  case_bool_decide as H1; simpl; [|done]. apply hd_c_cons in H1 as [p1 ->]; [|done].
  case_bool_decide as H2; simpl; [|done]. simpl in H2.
  apply hd_c_cons in H2 as [p2 ->]; [|done]. simpl.
  rewrite skip_quotes_escape in Hq.
  destruct (parse_utf16_hex p2) as [trail|] eqn:Hh; [|done].
  apply parse_utf16_hex_Some in Hh as (y1 & y2 & y3 & y4 & r5 & -> & Hhex2).
  destruct (_ || _)%bool; [done|]. intros [= <- <-].
  rewrite (skip_quotes_hex4 _ _ _ _ _ Hhex2) in Hq. simpl. split; [done|lia].
Qed.

Lemma process_string_fits fuel s rest :
  skip_quotes_loop s = Some rest →
  let room := (Z.of_nat (length s) - Z.of_nat (length rest) - 1)%Z in
  (Z.of_nat (length (process_string_loop fuel s room).1) ≤ room)%Z.
Proof.
  revert s. induction fuel as [|fuel IH]; intros s Hq room;
    pose proof (skip_quotes_loop_length _ _ Hq) as Hlen; simpl; [lia|].
  destruct (bool_decide (hd_c s = x00) || (room <=? 0)%Z) eqn:Hstop; [simpl; lia|].
  apply orb_false_iff in Hstop as [Hz Hroom]. apply Z.leb_gt in Hroom.
  destruct s as [|c r]; [done|]. unfold hd_c, at_c in *. simpl in *.
  destruct (decide (c = "\"%byte)) as [->|Hbs].
  - rewrite decide_False in Hq by done. destruct r as [|d r]; [done|]. simpl in *.
    destruct (simple_escape d) as [b|].
    + specialize (IH r Hq). replace (room - 2)%Z with
        (Z.of_nat (length r) - Z.of_nat (length rest) - 1)%Z by lia.
      destruct (process_string_loop _ _ _) as [o ok]. simpl in *. lia.
    + case_decide; [|simpl; lia]. destruct (parse_utf16 (d :: r)) as [[s2 out]|] eqn:Hu; [|simpl; lia].
      destruct (parse_utf16_skip _ _ _ _ _ Hq Hu) as [Hq2 Hout].
      specialize (IH (tail s2) Hq2).
      match goal with |- context [process_string_loop fuel (tail s2) ?x] =>
        replace x with (Z.of_nat (length (tail s2)) - Z.of_nat (length rest) - 1)%Z by lia end.
      destruct (process_string_loop _ _ _) as [o ok]. simpl in *. rewrite length_app. lia.
  - destruct (_ <? 32)%Z; [simpl; lia|]. destruct (decide (c = x22)) as [->|].
    + injection Hq as <-. lia.
    + specialize (IH r Hq). replace (room - 1)%Z with
        (Z.of_nat (length r) - Z.of_nat (length rest) - 1)%Z by lia.
      destruct (process_string_loop _ _ _) as [o ok]. simpl in *. lia.
Qed.

Lemma quoted_text_str_length s str rest :
  quoted_text s = Some (str, rest) → length str ≤ length s.
Proof.
  unfold quoted_text, skip_quotes. case_decide as Hc; [|done].
  apply hd_c_cons in Hc as [r ->]; [|done]. unfold SKIP_CHAR. simpl tail.
  destruct (skip_quotes_loop r) as [rst|] eqn:Hs; [|done].
  pose proof (process_string_fits (S (length r)) r rst Hs) as Hfit. cbv zeta in Hfit.
  pose proof (skip_quotes_loop_length _ _ Hs).
  unfold process_string_text.
  replace (Z.of_nat (length (x22 :: r)) - Z.of_nat (length rst) - 2)%Z with
    (Z.of_nat (length r) - Z.of_nat (length rst) - 1)%Z by (simpl; lia).
  destruct (process_string_loop _ _ _) as [o []]; [|done]. intros [= <- _].
  pose proof (length_cstr o). simpl in *. lia.
Qed.

(** ** Parsing consumes a prefix *)

Lemma span_length p s a r : span p s = (a, r) → length r ≤ length s.
Proof.
  revert a r. induction s as [|c s IH]; intros a r; simpl; [by intros [= <- <-]|].
  destruct (p c); [|intros [= <- <-]; simpl; lia].
  destruct (span p s) as [a' r'] eqn:E. intros [= <- <-]. specialize (IH _ _ eq_refl). lia.
Qed.

Lemma scan_mantissa_length p s ds f r : scan_mantissa p s = Some (ds, f, r) → length r ≤ length s.
Proof.
  unfold scan_mantissa. destruct (span p s) as [a r1] eqn:E1. apply span_length in E1.
  destruct (decide (hd_c r1 = "."%byte)) as [Hd|Hd].
  - destruct (span p (tail r1)) as [b r2] eqn:E2. apply span_length in E2.
    rewrite length_tail in E2. case_bool_decide; [done|]. rewrite bool_decide_true by done.
    intros [= <- <- <-]. lia.
  - case_bool_decide; [done|]. rewrite bool_decide_false by done. intros [= <- <- <-]. done.
Qed.

Lemma scan_exponent_length lo up s e r : scan_exponent lo up s = (e, r) → length r ≤ length s.
Proof.
  unfold scan_exponent. case_bool_decide; [|by intros [= <- <-]].
  destruct (if decide (hd_c (tail s) = "-"%byte) then _ else _) as [neg r0] eqn:E0.
  assert (length r0 ≤ length s).
  { repeat case_decide; simplify_eq; rewrite ?length_tail; lia. }
  destruct (span isdigit r0) as [ds r'] eqn:E. apply span_length in E.
  case_bool_decide; intros [= <- <-]; lia.
Qed.

Lemma strtod_body_length sign s x r er : strtod_body sign s = Some (x, r, er) → length r ≤ length s.
Proof.
  unfold strtod_body.
  destruct (has_word _ _); [intros [= <- <- <-]; rewrite length_drop; lia|].
  destruct (has_word _ _); [intros [= <- <- <-]; rewrite length_drop; lia|].
  destruct (has_word _ _).
  { destruct (span _ _) as [a r'] eqn:E. apply span_length in E.
    rewrite length_tail, length_drop in E.
    destruct (_ && _)%bool; intros [= <- <- <-]; rewrite ?length_tail, ?length_drop; lia. }
  destruct (if has_word _ _ then _ else _) as [[[ds f] r0]|] eqn:E.
  - assert (length r0 ≤ length s).
    { destruct (has_word _ _); [|done]. apply scan_mantissa_length in E.
      rewrite length_drop in E. lia. }
    destruct (scan_exponent _ _ _) as [e r'] eqn:E2. apply scan_exponent_length in E2.
    destruct (finish_number _ _ _ _). intros [= <- <- <-]. lia.
  - clear E. destruct (scan_mantissa _ _) as [[[ds f] r0]|] eqn:E; [|done].
    apply scan_mantissa_length in E.
    destruct (scan_exponent _ _ _) as [e r'] eqn:E2. apply scan_exponent_length in E2.
    destruct (finish_number _ _ _ _). intros [= <- <- <-]. lia.
Qed.

Lemma strtod_length s x r er : strtod s = (x, r, er) → length r ≤ length s.
Proof.
  unfold strtod. pose proof (length_skip_ws s).
  destruct (if decide (_ = "-"%byte) then _ else _) as [sign r0] eqn:E0.
  assert (length r0 ≤ length s).
  { repeat case_decide; simplify_eq; rewrite ?length_tail; lia. }
  destruct (strtod_body sign r0) as [[[x' r'] er']|] eqn:E.
  - apply strtod_body_length in E. intros [= <- <- <-]. lia.
  - intros [= <- <- <-]. done.
Qed.

Lemma parse_number_length s t r : parse_number s = Some (t, r) → length r ≤ length s.
Proof.
  unfold parse_number. destruct (strtod s) as [[x r'] er] eqn:E. apply strtod_length in E.
  repeat case_match; intros; simplify_eq; done.
Qed.

Section lengths.
Context (pv : bytes → nat → option (json * bytes)).
Context (Hpv : ∀ s n t r, pv s n = Some (t, r) → length r ≤ length s).

Lemma parse_members_length fuel acc s n l r :
  parse_members pv fuel acc s n = Some (l, r) → length r ≤ length s.
Proof.
  revert acc s. induction fuel as [|fuel IH]; intros acc s; simpl; [done|].
  case_decide; [by intros [= <- <-]|].
  destruct (quoted_text s) as [[k s1]|] eqn:Hk; simpl; [|done].
  apply quoted_text_length in Hk. case_decide; [done|].
  destruct (pv _ _) as [[v s2]|] eqn:Hv; simpl; [|done]. apply Hpv in Hv.
  unfold SKIP_CHAR in Hv. rewrite length_tail in Hv.
  pose proof (length_skip_ws s1). pose proof (length_skip_ws s2).
  case_decide; [done|]. case_decide; [intros [= <- <-]; lia|].
  intros Hr%IH. pose proof (length_skip_ws (SKIP_CHAR (SKIP_WHITESPACES s2))).
  unfold SKIP_CHAR in *. rewrite length_tail in *. lia.
Qed.

Lemma parse_elements_length fuel acc s n l r :
  parse_elements pv fuel acc s n = Some (l, r) → length r ≤ length s.
Proof.
  revert acc s. induction fuel as [|fuel IH]; intros acc s; simpl; [done|].
  case_decide; [by intros [= <- <-]|].
  destruct (pv _ _) as [[v s2]|] eqn:Hv; simpl; [|done]. apply Hpv in Hv.
  pose proof (length_skip_ws s2). case_decide; [intros [= <- <-]; lia|].
  intros Hr%IH. pose proof (length_skip_ws (SKIP_CHAR (SKIP_WHITESPACES s2))).
  unfold SKIP_CHAR in *. rewrite length_tail in *. lia.
Qed.
End lengths.

Lemma parse_json_at_length m fuel s n t r :
  parse_json_at m fuel s n = Some (t, r) → length r ≤ length s.
Proof.
  revert s n t r. induction fuel as [|fuel IH]; intros s n t r; simpl; [done|].
  case_decide; [done|]. pose proof (length_skip_ws s) as Hs.
  set (s1 := SKIP_WHITESPACES s) in *.
  pose proof (length_skip_ws (tail s1)) as Hs1. rewrite length_tail in Hs1.
  assert (Hdone : ∀ s2 : bytes, length s2 ≤ length s1 → length (tail (SKIP_WHITESPACES s2)) ≤ length s).
  { intros s2 H2. rewrite length_tail. pose proof (length_skip_ws s2). lia. }
  case_decide.
  { unfold parse_object, SKIP_CHAR. case_decide; [intros [= <- <-]; rewrite length_tail; lia|].
    destruct (parse_members _ _ _ _ _) as [[l s2]|] eqn:E; simpl; [|done].
    apply parse_members_length in E; [|done]. case_decide; intros [= <- <-]. apply Hdone. lia. }
  case_decide.
  { unfold parse_array, SKIP_CHAR. case_decide; [intros [= <- <-]; rewrite length_tail; lia|].
    destruct (parse_elements _ _ _ _ _) as [[l s2]|] eqn:E; simpl; [|done].
    apply parse_elements_length in E; [|done]. case_decide; intros [= <- <-]. apply Hdone. lia. }
  case_decide.
  { unfold parse_string. destruct (quoted_text s1) as [[q s2]|] eqn:E; simpl; [|done].
    apply quoted_text_length in E. intros [= <- <-]. lia. }
  case_decide.
  { unfold parse_boolean. repeat case_match; intros; simplify_eq; rewrite length_drop; lia. }
  case_decide; [intros Hn%parse_number_length; lia|].
  destruct (isdigit _); [intros Hn%parse_number_length; lia|].
  case_decide; [|done]. unfold parse_null. case_match; [|done]. intros [= <- <-].
  rewrite length_drop. lia.
Qed.

(** The loops end without an entry only at the end of the text. *)
Lemma parse_members_nil pv fuel acc s n r :
  parse_members pv fuel acc s n = Some ([], r) → hd_c (SKIP_WHITESPACES r) = x00.
Proof.
  revert acc s. induction fuel as [|fuel IH]; intros acc s; simpl; [done|].
  case_decide as Hz.
  { intros [= -> <-]. destruct s as [|c s]; [done|]. unfold hd_c, at_c in *. simpl in *.
    by subst c. }
  destruct (quoted_text s) as [[k s1]|]; simpl; [|done]. case_decide; [done|].
  destruct (pv _ _) as [[v s2]|]; simpl; [|done]. case_decide; [done|].
  case_decide; [|by intros Hr%IH]. intros [= Hl _]. by destruct acc.
Qed.
Lemma parse_elements_nil pv fuel acc s n r :
  parse_elements pv fuel acc s n = Some ([], r) → hd_c (SKIP_WHITESPACES r) = x00.
Proof.
  revert acc s. induction fuel as [|fuel IH]; intros acc s; simpl; [done|].
  case_decide as Hz.
  { intros [= -> <-]. destruct s as [|c s]; [done|]. unfold hd_c, at_c in *. simpl in *.
    by subst c. }
  destruct (pv _ _) as [[v s2]|]; simpl; [|done].
  case_decide; [|by intros Hr%IH]. intros [= Hl _]. by destruct acc.
Qed.

(** ** Parsed trees are well formed and within the nesting limit *)
Section parsed_wf.
Context (pv : bytes → nat → option (json * bytes)) (n m : nat).
Definition good (t : json) : Prop := json_wf t ∧ n + depth t ≤ S m.
Context (Hpv : ∀ s t r, pv s n = Some (t, r) → good t).

Lemma parse_elements_good fuel : ∀ acc s l r,
  Forall good acc → parse_elements pv fuel acc s n = Some (l, r) → Forall good l.
Proof.
  induction fuel as [|fuel IH]; intros acc s l r Hacc; simpl; [done|].
  case_decide; [by intros [= <- _]|].
  destruct (pv s n) as [[v s2]|] eqn:E; simpl; [|done].
  assert (Forall good (acc ++ [v])).
  { apply Forall_app. split; [done|]. apply Forall_singleton. by eapply Hpv. }
  case_decide; [by intros [= <- _]|]. by apply IH.
Qed.

Lemma parse_members_good fuel : ∀ acc s l r,
  NoDup acc.*1 → Forall (λ kv, nonul kv.1 ∧ good kv.2) acc →
  parse_members pv fuel acc s n = Some (l, r) →
  NoDup l.*1 ∧ Forall (λ kv, nonul kv.1 ∧ good kv.2) l.
Proof.
  induction fuel as [|fuel IH]; intros acc s l r Hnd Hacc; simpl; [done|].
  case_decide; [by intros [= <- _]|].
  destruct (quoted_text s) as [[k s1]|] eqn:Eq; simpl; [|done]. case_decide; [done|].
  destruct (pv _ n) as [[v s2]|] eqn:E; simpl; [|done]. case_decide as Hk; [done|].
  assert (Hnd' : NoDup (acc ++ [(k, v)]).*1).
  { rewrite fmap_app. apply NoDup_app. split; [done|]. split; [set_solver|apply NoDup_singleton]. }
  assert (Forall (λ kv, nonul kv.1 ∧ good kv.2) (acc ++ [(k, v)])).
  { apply Forall_app. split; [done|]. apply Forall_singleton.
    split; [by eapply quoted_text_nonul|by eapply Hpv]. }
  case_decide; [by intros [= <- _]|]. by apply IH.
Qed.
End parsed_wf.

Lemma foldr_max_le {A} (f : A → nat) l k :
  (∀ x, x ∈ l → f x ≤ k) → foldr (λ x n, f x `max` n) 0 l ≤ k.
Proof.
  induction l as [|x l IH]; intros Hl; simpl; [lia|].
  pose proof (Hl x ltac:(set_solver)). specialize (IH ltac:(set_solver)). lia.
Qed.

Lemma parse_json_at_good m fuel : ∀ s n t r,
  parse_json_at m fuel s n = Some (t, r) → good n m t.
Proof.
  unfold good. induction fuel as [|fuel IH]; intros s n t r; simpl; [done|].
  case_decide as Hn; [done|]. set (s1 := SKIP_WHITESPACES s).
  assert (Hsc : ∀ u, depth u = 1 → n + depth u ≤ S m) by (intros; lia).
  case_decide.
  { unfold parse_object, SKIP_CHAR. case_decide; [intros [= <- _]; split; [by split; [apply NoDup_nil_2|]|by apply Hsc]|].
    destruct (parse_members _ _ _ _ _) as [[l s2]|] eqn:E; simpl; [|done].
    apply (parse_members_good _ (n + 1) m) in E as [Hnd Hl]; [|by intros; eapply IH|apply NoDup_nil_2|done].
    case_decide; intros [= <- _]. rewrite Forall_forall in Hl. split.
    - apply json_wf_object. split; [done|]. apply Forall_forall. intros kv Hkv.
      destruct (Hl kv Hkv) as [? [? _]]. done.
    - simpl. pose proof (foldr_max_le (λ kv : bytes * json, depth kv.2) l (m - n)) as Hmax.
      ospecialize (Hmax _); [|lia]. intros kv Hkv. destruct (Hl kv Hkv) as [_ [_ ?]]. lia. }
  case_decide.
  { unfold parse_array, SKIP_CHAR. case_decide; [intros [= <- _]; split; [by apply json_wf_array|by apply Hsc]|].
    destruct (parse_elements _ _ _ _ _) as [[l s2]|] eqn:E; simpl; [|done].
    apply (parse_elements_good _ (n + 1) m) in E; [|by intros; eapply IH|done].
    case_decide; intros [= <- _]. rewrite Forall_forall in E. split.
    - apply json_wf_array. apply Forall_forall. intros x Hx. by apply E.
    - simpl. pose proof (foldr_max_le depth l (m - n)) as Hmax.
      ospecialize (Hmax _); [|lia]. intros x Hx. destruct (E x Hx). lia. }
  case_decide.
  { unfold parse_string. destruct (quoted_text s1) as [[q s2]|] eqn:E; simpl; [|done].
    intros [= <- _]. split; [by eapply quoted_text_nonul|by apply Hsc]. }
  assert (Hnum : parse_number s1 = Some (t, r) → json_wf t ∧ n + depth t ≤ S m).
  { unfold parse_number. destruct (strtod s1) as [[d r'] er]. destruct (er || _)%bool; [done|].
    destruct (is_finite d) eqn:Hd; [|done]. intros [= <- _]. split; [done|by apply Hsc]. }
  case_decide.
  { unfold parse_boolean. repeat case_match; intros; simplify_eq; split; try done; by apply Hsc. }
  case_decide; [done|]. destruct (isdigit _); [done|].
  case_decide; [|done]. unfold parse_null. case_match; [|done]. intros [= <- _].
  split; [done|by apply Hsc].
Qed.

(** ** Comments are blanked out in place *)

Lemma strncmp_length_le s tok n :
  nonul tok → n ≤ length tok → strncmp_eq s tok n = true → n ≤ length s.
Proof.
  revert s tok. induction n as [|n IH]; intros s tok Htok Hn; [lia|]. cbn [strncmp_eq].
  destruct tok as [|b tok]; [simpl in Hn; lia|]. apply nonul_cons in Htok as [Hb Htok].
  destruct (decide (hd_c s = hd_c (b :: tok))) as [Hh|]; [|done].
  destruct s as [|c s]; unfold hd_c, at_c in *; simpl in *; subst.
  { by destruct Hb. }
  rewrite decide_False by done.
  intros Hr. apply IH in Hr; [lia|done|lia].
Qed.

Lemma strstr_bound s tok k : nonul tok → strstr s tok = Some k → k + length tok ≤ length s.
Proof.
  intros Htok. revert k. induction s as [|c s IH]; intros k; simpl.
  - destruct (strncmp_eq [] tok (length tok)) eqn:E; [|done]. intros [= <-].
    apply strncmp_length_le in E; [done|done|lia].
  - destruct (strncmp_eq (c :: s) tok (length tok)) eqn:E.
    + intros [= <-]. apply strncmp_length_le in E; [done|done|lia].
    + destruct (strstr s tok) as [j|]; [|done]. intros [= <-]. specialize (IH j eq_refl). lia.
Qed.

Lemma remove_comments_loop_length st en fuel : ∀ s ins esc,
  nonul st → nonul en → length (remove_comments_loop fuel s st en ins esc) = length s.
Proof.
  induction fuel as [|fuel IH]; intros s ins esc Hst Hen; simpl; [by destruct s|].
  destruct s as [|c r]; [done|].
  destruct (_ && _); [simpl; by rewrite IH|]. destruct (_ && _); [simpl; by rewrite IH|].
  destruct (negb ins && strncmp_eq _ _ _) eqn:E; [|simpl; by rewrite IH].
  apply andb_prop in E as [_ E]. apply strncmp_length_le in E; [|done|lia].
  set (after := drop (length st) (c :: r)).
  assert (Hafter : length after = length (c :: r) - length st) by apply length_drop.
  destruct (strstr after en) as [k|] eqn:Ek.
  - apply strstr_bound in Ek; [|done].
    rewrite !length_app, !length_replicate, IH, length_drop by done. simpl in *. lia.
  - rewrite length_app, length_replicate. simpl in *. lia.
Qed.
Lemma remove_comments_length s st en :
  nonul st → nonul en → length (remove_comments s st en) = length s.
Proof.
  intros Hst Hen. unfold remove_comments. destruct (_ || _); [done|].
  by apply remove_comments_loop_length.
Qed.
