(* ===== verification/Utf8.v ===== *)
(** * Parson: UTF-8 validation and UTF-16 escapes against the encoding

    [utf8_encode] is the encoding of a Unicode scalar value as arithmetic;
    [is_valid_utf8] is proved to accept exactly the concatenations of encoded scalar
    values, and [parse_utf16] to write the encoding of the escaped scalar value. *)
From stdpp Require Import base list numbers option sets strings.
From Stdlib Require Import ZArith Lia.
From stdpp Require Import ssreflect.
From S2P Require Import Prelude ParsonText ParsonTextProof.
Local Open Scope Z_scope.

(** Unicode scalar values: code points that are not surrogates. *)
Definition scalar (cp : Z) : Prop := 0 <= cp <= 0x10FFFF ∧ ¬ (0xD800 <= cp <= 0xDFFF).

Definition utf8_encode (cp : Z) : bytes :=
  if cp <? 0x80 then [to_byte cp]
  else if cp <? 0x800 then [to_byte (0xC0 + cp / 64); to_byte (0x80 + cp mod 64)]
  else if cp <? 0x10000 then
    [to_byte (0xE0 + cp / 4096); to_byte (0x80 + cp / 64 mod 64); to_byte (0x80 + cp mod 64)]
  else
    [to_byte (0xF0 + cp / 262144); to_byte (0x80 + cp / 4096 mod 64);
     to_byte (0x80 + cp / 64 mod 64); to_byte (0x80 + cp mod 64)].
Definition utf8_text (cps : list Z) : bytes := cps ≫= utf8_encode.

Ltac zdiv := Z.to_euclidean_division_equations; lia.

(** ** Bit operations as arithmetic *)

Lemma lor_shift a n b : 0 <= n → 0 <= b < 2 ^ n → Z.lor (Z.shiftl a n) b = a * 2 ^ n + b.
Proof.
  intros Hn Hb. rewrite -(Z.shiftl_mul_pow2 a n Hn).
  assert (Hland : Z.land (Z.shiftl a n) b = 0).
  { apply Z.bits_inj'. intros k Hk. rewrite Z.land_spec Z.bits_0.
    destruct (Z.lt_ge_cases k n).
    - by rewrite Z.shiftl_spec_low.
    - rewrite -(Z.mod_small b (2 ^ n)) // Z.mod_pow2_bits_high; [apply andb_false_r|lia]. }
  rewrite Z.add_nocarry_lxor // -Z.lxor_lor //.
Qed.
Lemma land_ones_small z k : 0 <= z < 2 ^ k → 0 <= k → Z.land z (2 ^ k - 1) = z.
Proof. intros Hz Hk. rewrite Z.sub_1_r -Z.ones_equiv Z.land_ones // Z.mod_small //. Qed.
Lemma land_ones_mod z k : 0 <= k → Z.land z (2 ^ k - 1) = z mod 2 ^ k.
Proof. intros Hk. rewrite Z.sub_1_r -Z.ones_equiv Z.land_ones //. Qed.

(** ** Facts about single bytes, by evaluation *)

Lemma is_cont_spec : ∀ b, IS_CONT b = bool_decide (128 <= uchar b < 192).
Proof. by_bytes. Qed.
Lemma num_bytes_spec : ∀ b, num_bytes_in_utf8_sequence b =
  if uchar b <? 128 then 1 else if uchar b <? 194 then 0 else if uchar b <? 224 then 2
  else if uchar b <? 240 then 3 else if uchar b <? 245 then 4 else 0.
Proof. by_bytes. Qed.
Lemma cont_bits : ∀ b, 128 <= uchar b < 192 → Z.land (uchar b) 0x3F = uchar b - 128.
Proof. by_bytes. Qed.
Lemma lead2_bits : ∀ b, 192 <= uchar b < 224 → Z.land (uchar b) 0x1F = uchar b - 192.
Proof. by_bytes. Qed.
Lemma lead3_bits : ∀ b, 224 <= uchar b < 240 → Z.land (uchar b) 0xF = uchar b - 224.
Proof. by_bytes. Qed.
Lemma lead4_bits : ∀ b, 240 <= uchar b < 248 → Z.land (uchar b) 0x7 = uchar b - 240.
Proof. by_bytes. Qed.

Lemma to_byte_eq b z : uchar b = z → to_byte z = b.
Proof. intros <-. apply to_byte_uchar. Qed.
Lemma uchar_small z : 0 <= z < 256 → uchar (to_byte z) = z.
Proof. intros Hz. by rewrite uchar_to_byte Z.mod_small. Qed.

(** The code point of [n] continuation bytes after the lead bits [x]. *)
Lemma cont_step x b : 0 <= x → 128 <= uchar b < 192 →
  Z.lor (Z.shiftl x 6) (Z.land (uchar b) 0x3F) = x * 64 + (uchar b - 128).
Proof. intros Hx Hb. rewrite cont_bits // lor_shift //. change (2 ^ 6) with 64. lia. Qed.

Lemma utf8_codepoint_1 s : utf8_codepoint s 1 = Some (uchar (at_c s 0)).
Proof. done. Qed.
Lemma utf8_codepoint_2 s :
  192 <= uchar (at_c s 0) < 224 →
  utf8_codepoint s 2 =
    if IS_CONT (at_c s 1)
    then Some ((uchar (at_c s 0) - 192) * 64 + (uchar (at_c s 1) - 128)) else None.
Proof.
  intros H0. rewrite /utf8_codepoint /=. destruct (IS_CONT (at_c s 1)) eqn:E1; [|done].
  rewrite is_cont_spec bool_decide_eq_true in E1. rewrite cont_step //; rewrite lead2_bits //. lia.
Qed.
Lemma utf8_codepoint_3 s :
  224 <= uchar (at_c s 0) < 240 →
  utf8_codepoint s 3 =
    if IS_CONT (at_c s 1) && IS_CONT (at_c s 2)
    then Some (((uchar (at_c s 0) - 224) * 64 + (uchar (at_c s 1) - 128)) * 64
               + (uchar (at_c s 2) - 128)) else None.
Proof.
  intros H0. rewrite /utf8_codepoint /=. destruct (IS_CONT (at_c s 1)) eqn:E1; [|done].
  destruct (IS_CONT (at_c s 2)) eqn:E2; [|done]. simpl.
  rewrite is_cont_spec bool_decide_eq_true in E1. rewrite is_cont_spec bool_decide_eq_true in E2.
  rewrite lead3_bits // (cont_step (uchar (at_c s 0) - 224)) //; [|lia].
  rewrite cont_step //. lia.
Qed.
Lemma utf8_codepoint_4 s :
  240 <= uchar (at_c s 0) < 248 →
  utf8_codepoint s 4 =
    if IS_CONT (at_c s 1) && IS_CONT (at_c s 2) && IS_CONT (at_c s 3)
    then Some ((((uchar (at_c s 0) - 240) * 64 + (uchar (at_c s 1) - 128)) * 64
               + (uchar (at_c s 2) - 128)) * 64 + (uchar (at_c s 3) - 128)) else None.
Proof.
  intros H0. rewrite /utf8_codepoint /=. destruct (IS_CONT (at_c s 1)) eqn:E1; [|done].
  destruct (IS_CONT (at_c s 2)) eqn:E2; [|done]. destruct (IS_CONT (at_c s 3)) eqn:E3; [|done]. simpl.
  rewrite is_cont_spec bool_decide_eq_true in E1. rewrite is_cont_spec bool_decide_eq_true in E2.
  rewrite is_cont_spec bool_decide_eq_true in E3.
  rewrite lead4_bits // (cont_step (uchar (at_c s 0) - 240)) //; [|lia].
  rewrite (cont_step _ (at_c s 2)) //; [|lia]. rewrite cont_step //. lia.
Qed.

(** ** One sequence *)

(** The checks after the code point was assembled. *)
Definition codepoint_ok (cp len : Z) : bool :=
  negb (((cp <? 0x80) && (len >? 1)) || ((cp <? 0x800) && (len >? 2)) ||
        ((cp <? 0x10000) && (len >? 3)) || (cp >? 0x10FFFF) ||
        ((cp >=? 0xD800) && (cp <=? 0xDFFF))).
Lemma verify_unfold s len cp :
  num_bytes_in_utf8_sequence (at_c s 0) = len → utf8_codepoint s len = Some cp →
  verify_utf8_sequence s = (codepoint_ok cp len, len).
Proof.
  intros Hn Hc. rewrite /verify_utf8_sequence Hn Hc /codepoint_ok.
  repeat (case_match; simpl; [done|]). by repeat case_match.
Qed.
Lemma verify_none s len :
  num_bytes_in_utf8_sequence (at_c s 0) = len → utf8_codepoint s len = None →
  verify_utf8_sequence s = (false, len).
Proof. intros Hn Hc. by rewrite /verify_utf8_sequence Hn Hc. Qed.

Ltac ltb_lia := rewrite ?Z.gtb_ltb ?Z.geb_leb;
  repeat match goal with
  | |- context [?a <? ?b] => destruct (Z.ltb_spec a b); try lia
  | |- context [?a <=? ?b] => destruct (Z.leb_spec a b); try lia
  end; try done; try lia.

Lemma at_c_cons b s i : at_c (b :: s) (S i) = at_c s i.
Proof. done. Qed.

(** An encoded scalar value is accepted, with its length. *)
Lemma verify_encode cp r :
  scalar cp → verify_utf8_sequence (utf8_encode cp ++ r) = (true, Z.of_nat (length (utf8_encode cp))).
Proof.
  intros [Hcp Hsur]. rewrite /utf8_encode.
  destruct (Z.ltb_spec cp 0x80) as [H1|H1];
    [|destruct (Z.ltb_spec cp 0x800) as [H2|H2]; [|destruct (Z.ltb_spec cp 0x10000) as [H3|H3]]];
    cbn [app length].
  - erewrite verify_unfold; [| |apply utf8_codepoint_1].
    + rewrite /at_c /= uchar_small; [|lia]. rewrite /codepoint_ok. f_equal. ltb_lia.
    + rewrite num_bytes_spec /at_c /= uchar_small; [|lia]. ltb_lia.
  - assert (Hb0 : uchar (to_byte (0xC0 + cp / 64)) = 0xC0 + cp / 64) by (apply uchar_small; zdiv).
    assert (Hb1 : uchar (to_byte (0x80 + cp mod 64)) = 0x80 + cp mod 64) by (apply uchar_small; zdiv).
    erewrite (verify_unfold _ 2 cp).
    + rewrite /codepoint_ok. f_equal. ltb_lia.
    + rewrite num_bytes_spec /at_c /= Hb0. assert (194 <= 0xC0 + cp / 64 < 224) by zdiv. ltb_lia.
    + rewrite utf8_codepoint_2 /at_c /= ?Hb0; [|zdiv].
      rewrite is_cont_spec Hb1 bool_decide_true; [|zdiv]. f_equal. zdiv.
  - assert (Hb0 : uchar (to_byte (0xE0 + cp / 4096)) = 0xE0 + cp / 4096) by (apply uchar_small; zdiv).
    assert (Hb1 : uchar (to_byte (0x80 + cp / 64 mod 64)) = 0x80 + cp / 64 mod 64)
      by (apply uchar_small; zdiv).
    assert (Hb2 : uchar (to_byte (0x80 + cp mod 64)) = 0x80 + cp mod 64) by (apply uchar_small; zdiv).
    erewrite (verify_unfold _ 3 cp).
    + rewrite /codepoint_ok. f_equal. ltb_lia.
    + rewrite num_bytes_spec /at_c /= Hb0. assert (224 <= 0xE0 + cp / 4096 < 240) by zdiv. ltb_lia.
    + rewrite utf8_codepoint_3 /at_c /= ?Hb0; [|zdiv].
      rewrite !is_cont_spec Hb1 Hb2 !bool_decide_true; [|zdiv..]. f_equal. zdiv.
  - assert (Hb0 : uchar (to_byte (0xF0 + cp / 262144)) = 0xF0 + cp / 262144)
      by (apply uchar_small; zdiv).
    assert (Hb1 : uchar (to_byte (0x80 + cp / 4096 mod 64)) = 0x80 + cp / 4096 mod 64)
      by (apply uchar_small; zdiv).
    assert (Hb2 : uchar (to_byte (0x80 + cp / 64 mod 64)) = 0x80 + cp / 64 mod 64)
      by (apply uchar_small; zdiv).
    assert (Hb3 : uchar (to_byte (0x80 + cp mod 64)) = 0x80 + cp mod 64) by (apply uchar_small; zdiv).
    erewrite (verify_unfold _ 4 cp).
    + rewrite /codepoint_ok. f_equal. ltb_lia.
    + rewrite num_bytes_spec /at_c /= Hb0. assert (240 <= 0xF0 + cp / 262144 < 245) by zdiv. ltb_lia.
    + rewrite utf8_codepoint_4 /at_c /= ?Hb0; [|zdiv].
      rewrite !is_cont_spec Hb1 Hb2 Hb3 !bool_decide_true; [|zdiv..]. f_equal. zdiv.
Qed.

Lemma codepoint_ok_scalar cp len :
  0 <= cp → codepoint_ok cp len = true →
  scalar cp ∧ (1 < len → 0x80 <= cp) ∧ (2 < len → 0x800 <= cp) ∧ (3 < len → 0x10000 <= cp).
Proof.
  rewrite /codepoint_ok negb_true_iff !orb_false_iff !andb_false_iff.
  rewrite !Z.gtb_ltb !Z.geb_leb !Z.ltb_ge !Z.leb_gt /scalar. lia.
Qed.

Lemma is_cont_cons s : IS_CONT (at_c s 0) = true → ∃ b r, s = b :: r ∧ 128 <= uchar b < 192.
Proof.
  rewrite is_cont_spec bool_decide_eq_true. destruct s as [|b r]; [intros [Hx _]; by destruct Hx|]. intros Hb. by exists b, r.
Qed.

Ltac cont_byte H b s Hb :=
  let Heq := fresh "Heq" in apply is_cont_cons in H as (b & s & Heq & Hb); subst.

(** An accepted sequence is an encoded scalar value. *)
Lemma verify_decode b s len :
  verify_utf8_sequence (b :: s) = (true, len) →
  ∃ cp r, scalar cp ∧ b :: s = utf8_encode cp ++ r ∧ len = Z.of_nat (length (utf8_encode cp)).
Proof.
  pose proof (uchar_range b) as Hb. pose proof (num_bytes_spec b) as Hn.
  change b with (at_c (b :: s) 0) in Hn at 1.
  destruct (Z.ltb_spec (uchar b) 128) as [H1|H1]; [|destruct (Z.ltb_spec (uchar b) 194) as [H2|H2];
    [|destruct (Z.ltb_spec (uchar b) 224) as [H3|H3]; [|destruct (Z.ltb_spec (uchar b) 240) as [H4|H4];
    [|destruct (Z.ltb_spec (uchar b) 245) as [H5|H5]]]]].
  - erewrite verify_unfold; [|exact Hn|apply utf8_codepoint_1]. intros [= Hok <-].
    change (at_c (b :: s) 0) with b in Hok. apply codepoint_ok_scalar in Hok as [Hsc _]; [|lia].
    exists (uchar b), s. split; [done|]. rewrite /utf8_encode.
    rewrite (proj2 (Z.ltb_lt _ _)) //. by rewrite to_byte_uchar.
  - by rewrite (verify_none _ 0).
  - destruct (utf8_codepoint (b :: s) 2) as [cp|] eqn:Hc; last by rewrite (verify_none _ 2).
    rewrite (verify_unfold _ 2 cp) //. intros [= Hok <-].
    rewrite utf8_codepoint_2 in Hc; [|rewrite /at_c /=; lia]. rewrite !at_c_cons in Hc.
    destruct (IS_CONT (at_c s 0)) eqn:E1; [|done]. injection Hc as <-. cont_byte E1 b1 r Hb1.
    rewrite /at_c /= in Hok |- *. apply codepoint_ok_scalar in Hok as (Hsc & Hmin & _); [|lia].
    eexists _, r. split; [exact Hsc|]. rewrite /utf8_encode.
    rewrite (proj2 (Z.ltb_ge _ _)); [|lia]. rewrite (proj2 (Z.ltb_lt _ _)); [|lia].
    split; [|done]. cbn [app]. repeat f_equal; symmetry; apply to_byte_eq; zdiv.
  - destruct (utf8_codepoint (b :: s) 3) as [cp|] eqn:Hc; last by rewrite (verify_none _ 3).
    rewrite (verify_unfold _ 3 cp) //. intros [= Hok <-].
    rewrite utf8_codepoint_3 in Hc; [|rewrite /at_c /=; lia]. rewrite !at_c_cons in Hc.
    destruct (IS_CONT (at_c s 0)) eqn:E1; [|done]. cont_byte E1 b1 s1 Hb1. rewrite at_c_cons in Hc.
    destruct (IS_CONT (at_c s1 0)) eqn:E2; [|done]. injection Hc as <-. cont_byte E2 b2 r Hb2.
    rewrite /at_c /= in Hok |- *. apply codepoint_ok_scalar in Hok as (Hsc & _ & Hmin & _); [|lia].
    eexists _, r. split; [exact Hsc|]. rewrite /utf8_encode.
    rewrite (proj2 (Z.ltb_ge _ _)); [|lia]. rewrite (proj2 (Z.ltb_ge _ _)); [|lia].
    rewrite (proj2 (Z.ltb_lt _ _)); [|lia].
    split; [|done]. cbn [app]. repeat f_equal; symmetry; apply to_byte_eq; zdiv.
  - destruct (utf8_codepoint (b :: s) 4) as [cp|] eqn:Hc; last by rewrite (verify_none _ 4).
    rewrite (verify_unfold _ 4 cp) //. intros [= Hok <-].
    rewrite utf8_codepoint_4 in Hc; [|rewrite /at_c /=; lia]. rewrite !at_c_cons in Hc.
    destruct (IS_CONT (at_c s 0)) eqn:E1; [|done]. cont_byte E1 b1 s1 Hb1. rewrite !at_c_cons in Hc.
    destruct (IS_CONT (at_c s1 0)) eqn:E2; [|done]. cont_byte E2 b2 s2 Hb2. rewrite !at_c_cons in Hc.
    destruct (IS_CONT (at_c s2 0)) eqn:E3; [|done]. injection Hc as <-. cont_byte E3 b3 r Hb3.
    rewrite /at_c /= in Hok |- *. apply codepoint_ok_scalar in Hok as (Hsc & _ & _ & Hmin); [|lia].
    eexists _, r. split; [exact Hsc|]. rewrite /utf8_encode.
    rewrite (proj2 (Z.ltb_ge _ _)); [|lia]. rewrite (proj2 (Z.ltb_ge _ _)); [|lia].
    rewrite (proj2 (Z.ltb_ge _ _)); [|lia].
    split; [|done]. cbn [app]. repeat f_equal; symmetry; apply to_byte_eq; zdiv.
  - by rewrite (verify_none _ 0).
Qed.

(** ** Whole strings *)

Lemma length_encode cp : (1 <= length (utf8_encode cp))%nat.
Proof. rewrite /utf8_encode. repeat case_match; simpl; lia. Qed.

Lemma is_valid_utf8_loop_spec fuel : ∀ s, (length s <= fuel)%nat →
  is_valid_utf8_loop fuel s (Z.of_nat (length s)) = true ↔
  ∃ cps, Forall scalar cps ∧ s = utf8_text cps.
Proof.
  assert (Hnil : ∃ cps, Forall scalar cps ∧ [] = utf8_text cps) by by exists [].
  induction fuel as [|fuel IH]; intros s Hf.
  { destruct s; [done|simpl in Hf; lia]. }
  destruct s as [|b s]; [done|]. cbn [is_valid_utf8_loop].
  rewrite (proj2 (Z.ltb_lt _ _)); [|simpl; lia].
  assert (Hstep : ∀ cp r, scalar cp → b :: s = utf8_encode cp ++ r →
    is_valid_utf8_loop fuel (drop (Z.to_nat (Z.of_nat (length (utf8_encode cp)))) (b :: s))
      (Z.of_nat (length (b :: s)) - Z.of_nat (length (utf8_encode cp))) = true ↔
    ∃ cps, Forall scalar cps ∧ r = utf8_text cps).
  { intros cp r Hcp Heq. pose proof (length_encode cp). rewrite Heq Nat2Z.id drop_app_length.
    rewrite Heq length_app in Hf.
    replace (Z.of_nat (length (utf8_encode cp ++ r)) - Z.of_nat (length (utf8_encode cp)))
      with (Z.of_nat (length r)) by (rewrite length_app; lia).
    apply IH. lia. }
  split.
  - destruct (verify_utf8_sequence (b :: s)) as [[] len] eqn:Hv; [|done].
    destruct (verify_decode b s len Hv) as (cp & r & Hcp & Heq & ->).
    rewrite (Hstep cp r Hcp Heq). intros (cps & Hcps & ->).
    exists (cp :: cps). split; [by constructor|]. by rewrite Heq.
  - intros (cps & Hcps & Heq). destruct cps as [|cp cps]; [done|].
    apply Forall_cons in Hcps as [Hcp Hcps]. rewrite /utf8_text bind_cons in Heq.
    rewrite Heq verify_encode // -Heq. apply (Hstep cp (utf8_text cps) Hcp Heq). by exists cps.
Qed.

(** C30. [is_valid_utf8] accepts a string exactly if it is a concatenation of encoded
    Unicode scalar values: no overlong forms, no surrogates, nothing above U+10FFFF,
    no truncated sequence. *)
Theorem is_valid_utf8_exact (s : bytes) :
  is_valid_utf8 s (Z.of_nat (length s)) = true ↔
  ∃ cps, Forall scalar cps ∧ s = utf8_text cps.
Proof. rewrite /is_valid_utf8 Nat2Z.id. by apply is_valid_utf8_loop_spec. Qed.

(** ** Escapes *)

Lemma hex_range : ∀ c, hex_char_to_int c ≠ -1 → 0 <= hex_char_to_int c < 16.
Proof. by_bytes. Qed.

Lemma parse_utf16_hex_range s cp : parse_utf16_hex s = Some cp → 0 <= cp < 0x10000.
Proof.
  rewrite /parse_utf16_hex. destruct (_ || _ || _ || _); [done|].
  destruct (_ || _ || _ || _) eqn:E; [done|]. intros [= <-].
  apply orb_false_elim in E as [E E4]. apply orb_false_elim in E as [E E3].
  apply orb_false_elim in E as [E1 E2].
  apply Z.eqb_neq, hex_range in E1, E2, E3, E4.
  revert E1 E2 E3 E4. generalize (hex_char_to_int (at_c s 0)), (hex_char_to_int (at_c s 1)),
    (hex_char_to_int (at_c s 2)), (hex_char_to_int (at_c s 3)). intros x1 x2 x3 x4 H1 H2 H3 H4.
  rewrite (lor_shift x1 12 (Z.shiftl x2 8)); [|lia|rewrite Z.shiftl_mul_pow2 //; lia].
  rewrite Z.shiftl_mul_pow2 //.
  assert (Hs : x1 * 2 ^ 12 + x2 * 2 ^ 8 = Z.shiftl (x1 * 16 + x2) 8).
  { rewrite Z.shiftl_mul_pow2 //. lia. }
  rewrite Hs (lor_shift _ 8 (Z.shiftl x3 4)); [|lia|rewrite Z.shiftl_mul_pow2 //; lia].
  assert (Hs2 : (x1 * 16 + x2) * 2 ^ 8 + Z.shiftl x3 4 = Z.shiftl ((x1 * 16 + x2) * 16 + x3) 4).
  { rewrite !Z.shiftl_mul_pow2 //. lia. }
  rewrite Hs2 lor_shift //. lia.
Qed.

(** The tag bits of a byte of an encoded value. *)
Lemma tag_cont z : to_byte (Z.lor (Z.land z 0x3F) 0x80) = to_byte (0x80 + z mod 64).
Proof.
  change 0x3F with (2 ^ 6 - 1). rewrite land_ones_mod // Z.lor_comm.
  change 0x80 with (Z.shiftl 2 6) at 1. rewrite lor_shift; [done|lia|by apply Z.mod_pos_bound].
Qed.
Lemma tag_lead z k t n : 0 <= z < 2 ^ k → k <= n → 0 <= k →
  to_byte (Z.lor (Z.land z (2 ^ k - 1)) (t * 2 ^ n)) = to_byte (t * 2 ^ n + z).
Proof.
  intros Hz Hkn Hk. rewrite land_ones_small // Z.lor_comm -Z.shiftl_mul_pow2; [|lia].
  rewrite lor_shift; [|lia|split; [lia|]; pose proof (Z.pow_le_mono_r 2 k n); lia].
  by rewrite Z.shiftl_mul_pow2; [|lia].
Qed.

(** A [\u] escape, or a surrogate pair of them, is decoded to the UTF-8 encoding
    of one Unicode scalar value; a lone or misordered surrogate is rejected. *)
Theorem parse_utf16_encodes (s rest out : bytes) (Hp : parse_utf16 s = Some (rest, out)) :
  ∃ cp, scalar cp ∧ out = utf8_encode cp.
Proof.
  revert Hp. rewrite /parse_utf16. destruct (parse_utf16_hex (tail s)) as [cp|] eqn:Hh; [|done].
  apply parse_utf16_hex_range in Hh. cbv zeta.
  destruct (Z.ltb_spec cp 0x80) as [H1|H1].
  { intros [= _ <-]. exists cp. split; [rewrite /scalar; lia|].
    by rewrite /utf8_encode (proj2 (Z.ltb_lt cp 0x80)). }
  destruct (Z.ltb_spec cp 0x800) as [H2|H2].
  { intros [= _ <-]. exists cp. split; [rewrite /scalar; lia|].
    rewrite /utf8_encode (proj2 (Z.ltb_ge cp 0x80)) // (proj2 (Z.ltb_lt cp 0x800)) //.
    rewrite tag_cont Z.shiftr_div_pow2 //.
    rewrite (tag_lead (cp / 2 ^ 6) 5 3 6); [done|split; [by apply Z.div_pos; lia|zdiv]|done|done]. }
  rewrite Z.gtb_ltb Z.geb_leb.
  destruct ((cp <? 0xD800) || (0xDFFF <? cp)) eqn:H3.
  { intros [= _ <-]. exists cp.
    apply orb_prop in H3. rewrite !Z.ltb_lt in H3. split; [rewrite /scalar; lia|].
    rewrite /utf8_encode (proj2 (Z.ltb_ge cp 0x80)) // (proj2 (Z.ltb_ge cp 0x800)) //.
    rewrite (proj2 (Z.ltb_lt cp 0x10000)); [|lia].
    rewrite !tag_cont !Z.shiftr_div_pow2 //.
    rewrite (tag_lead (cp / 2 ^ 12) 4 14 4); [done|split; [by apply Z.div_pos; lia|zdiv]|done|done]. }
  apply orb_false_elim in H3 as [H3 H4]. apply Z.ltb_ge in H3, H4.
  destruct ((0xD800 <=? cp) && (cp <=? 0xDBFF)) eqn:H5; [|done].
  apply andb_prop in H5 as [_ H5]. apply Z.leb_le in H5.
  destruct (negb _); [done|]. destruct (negb _); [done|].
  destruct (parse_utf16_hex _) as [trail|] eqn:Ht; [|done].
  rewrite Z.gtb_ltb. destruct ((trail <? 0xDC00) || (0xDFFF <? trail)) eqn:H6; [done|].
  apply orb_false_elim in H6 as [H6 H7]. apply Z.ltb_ge in H6, H7.
  change 0x3FF with (2 ^ 10 - 1). rewrite !land_ones_small; [|lia..].
  rewrite lor_shift; [|lia..]. set (c := (cp - 0xD800) * 2 ^ 10 + (trail - 0xDC00) + 0x010000).
  assert (Hc : 0x10000 <= c < 0x110000) by lia.
  intros [= _ <-]. exists c. split; [rewrite /scalar; lia|].
  rewrite /utf8_encode (proj2 (Z.ltb_ge c 0x80)); [|lia]. rewrite (proj2 (Z.ltb_ge c 0x800)); [|lia].
  rewrite (proj2 (Z.ltb_ge c 0x10000)); [|lia].
  rewrite !tag_cont !Z.shiftr_div_pow2 //.
  rewrite (tag_lead (c / 2 ^ 18) 3 15 4); [done|split; [by apply Z.div_pos; lia|zdiv]|done|done].
Qed.

(** The escape of U+1F600 as a surrogate pair. *)
Lemma parse_utf16_encodes_witness :
  parse_utf16 (bs "uD83D\uDE00!") = Some (bs "0!", [xf0; x9f; x98; x80]) ∧
  ∃ cp, scalar cp ∧ [xf0; x9f; x98; x80] = utf8_encode cp.
Proof.
  split; [vm_compute; reflexivity|].
  apply (parse_utf16_encodes (bs "uD83D\uDE00!") (bs "0!")). vm_compute. reflexivity.
Defined.
