(* ===== verification/JsonRoundTrip.v ===== *)
(** * Printing a tree and reading the text back gives the tree

    The round trip holds for both layouts, for every string (escapes included) and
    every nesting the parser accepts.  Numbers are treated in CNumProof.v. *)
From stdpp Require Import base list numbers option sets strings.
From Stdlib Require Import ZArith Lia.
From stdpp Require Import ssreflect.
From S2P Require Import Prelude ParsonText CNum JsonSpec ParsonTextProof.
Local Open Scope nat_scope.

(** ** Strings *)

Lemma skip_quotes_escape_char c tl :
  skip_quotes_loop (escape_char c ++ tl) = skip_quotes_loop tl.
Proof. destruct c; reflexivity. Qed.

Lemma process_escape c tl fuel room :
  c ≠ x00 → (0 < room)%Z →
  process_string_loop (S fuel) (escape_char c ++ tl) room =
  let '(o, ok) := process_string_loop fuel tl (room - Z.of_nat (length (escape_char c)))
  in (c :: o, ok).
Proof.
  intros Hc Hroom. apply Z.leb_gt in Hroom.
  assert (Hlen : ∀ k (l : bytes),
    (Z.of_nat (k + length l) - Z.of_nat (length l) = Z.of_nat k)%Z) by (intros; lia).
  destruct c; try done; cbn -[Z.sub Z.leb Z.of_nat]; rewrite Hroom; cbn -[Z.sub Z.leb Z.of_nat];
    try reflexivity.
  all: match goal with |- _ = (let '(_, _) := process_string_loop _ _ (_ - Z.of_nat (length (escape_char ?c))) in _) =>
    transitivity (let '(o, ok) := process_string_loop fuel tl (room -
      (Z.of_nat (length (escape_char c) + length tl) - Z.of_nat (length tl))) in (c :: o, ok));
      [reflexivity | by rewrite Hlen] end.
Qed.

Lemma process_escapes s tl : ∀ fuel,
  nonul s → length s < fuel →
  process_string_loop fuel ((s ≫= escape_char) ++ tl) (Z.of_nat (length (s ≫= escape_char)))
  = (s, true).
Proof.
  induction s as [|c s IH]; intros fuel Hnul Hf.
  - destruct fuel; [lia|]. simpl. by rewrite orb_true_r.
  - apply nonul_cons in Hnul as [Hc Hs]. destruct fuel as [|fuel]; [simpl in Hf; lia|].
    rewrite bind_cons -(assoc_L (++)) process_escape //.
    + rewrite length_app Nat2Z.inj_add Z.add_simpl_l IH //. simpl in Hf. lia.
    + assert (0 < length (escape_char c)) by by destruct c; vm_compute; lia.
      rewrite length_app. lia.
Qed.

Lemma skip_escapes s r : skip_quotes_loop ((s ≫= escape_char) ++ x22 :: r) = Some r.
Proof.
  induction s as [|c s IH]; [done|]. by rewrite bind_cons -(assoc_L (++)) skip_quotes_escape_char.
Qed.

Lemma length_escapes s : length s ≤ length (s ≫= escape_char).
Proof.
  induction s as [|c s IH]; [done|]. rewrite bind_cons length_app.
  assert (0 < length (escape_char c)) by by destruct c; vm_compute; lia. simpl. lia.
Qed.

(** A quoted and escaped string is read back. *)
Lemma quoted_text_serialize s r :
  nonul s → quoted_text (serialize_string_text s ++ r) = Some (s, r).
Proof.
  intros Hs. rewrite /serialize_string_text /quoted_text -!(assoc_L (++)) /=.
  rewrite /skip_quotes /= skip_escapes.
  replace (Z.of_nat _ - Z.of_nat (length r) - 2)%Z with (Z.of_nat (length (s ≫= escape_char)));
    last (rewrite /= length_app /=; lia).
  rewrite /process_string_text process_escapes //; [by rewrite cstr_nonul|].
  pose proof (length_escapes s). rewrite length_app /=. lia.
Qed.

(** ** White space *)

Lemma skip_ws_cons c s : isspace c = false → SKIP_WHITESPACES (c :: s) = c :: s.
Proof. simpl. by intros ->. Qed.
Lemma skip_ws_app ws s : forallb isspace ws = true → SKIP_WHITESPACES (ws ++ s) = SKIP_WHITESPACES s.
Proof.
  induction ws as [|c ws IH]; [done|]. simpl. intros [Hc Hws]%andb_prop. rewrite Hc. by apply IH.
Qed.
Lemma indent_space lv : forallb isspace (indent_text lv) = true.
Proof. rewrite /indent_text. by induction lv. Qed.

(** ** Values *)

(** What may follow a printed value. *)
Definition ends_value (r : bytes) : Prop := hd_c r ∈ [x00; ","%byte; "]"%byte; "}"%byte; x0a].

(** The text of the number is read back as the same number. *)
Definition number_reads (d : double) : Prop :=
  ∀ r, ends_value r → parse_number (format_g17 d ++ r) = Some (JNumber d, r).

(** The numbers of a tree. *)
Definition json_numbers (t : json) : list double :=
  json_fold [] (λ _, []) (λ d, [d]) (λ _, []) (λ l, mjoin l) (λ l, mjoin l.*2) t.

Lemma json_numbers_elem t ts : t ∈ ts → json_numbers t ⊆ json_numbers (JArray ts).
Proof.
  intros Ht d Hd. rewrite /json_numbers /=. apply list_elem_of_join.
  exists (json_numbers t). split; [done|]. by apply list_elem_of_fmap_2.
Qed.
Lemma json_numbers_member kv kvs : kv ∈ kvs → json_numbers kv.2 ⊆ json_numbers (JObject kvs).
Proof.
  intros Ht d Hd. rewrite /json_numbers /=. apply list_elem_of_join.
  exists (json_numbers kv.2). split; [done|]. rewrite -list_fmap_compose.
  by apply (list_elem_of_fmap_2 (snd ∘ λ kv, (kv.1, json_numbers kv.2))).
Qed.

(** How a printed value starts. *)
Definition starts_value (s : bytes) : Prop :=
  ∃ c r, s = c :: r ∧ isspace c = false ∧ c ≠ x00 ∧ c ≠ "]"%byte.

Lemma isdigit_dec_digits n z : Forall (λ c, isdigit c = true) (dec_digits n z).
Proof.
  revert z. induction n as [|n IH]; intros z; simpl; [done|].
  apply Forall_app. split; [done|]. apply Forall_singleton.
  pose proof (Z.mod_pos_bound z 10 ltac:(lia)).
  rewrite /isdigit uchar_to_byte. change (uchar "0") with 48%Z. rewrite Z.mod_small; [|lia].
  apply andb_true_intro. rewrite !Z.leb_le. lia.
Qed.

Lemma format_pos_head n d : ∃ c r, format_pos n d = c :: r ∧ isdigit c = true.
Proof.
  rewrite /format_pos. destruct (digits17 n d) as [q x].
  pose proof (isdigit_dec_digits 17 q) as Hds.
  pose proof (length_dec_digits 17 q) as Hlen.
  destruct (dec_digits 17 q) as [|c ds]; [done|]. apply Forall_cons in Hds as [Hc _].
  destruct ((x <? -4) || (17 <=? x))%Z; [|destruct (x <? 0)%Z eqn:Ex].
  - simpl. eauto.
  - simpl. eauto.
  - apply Z.ltb_ge in Ex. destruct (Z.to_nat (x + 1)) as [|k] eqn:Ek; [lia|]. simpl. eauto.
Qed.

Lemma format_g17_head d :
  is_finite d = true → ∃ c r, format_g17 d = c :: r ∧ (c = "-"%byte ∨ isdigit c = true).
Proof.
  destruct d as [[]|[]| |[] m e]; try done; intros _; rewrite /format_g17; simpl; eauto;
    destruct (ratio_of m e) as [n d']; [eauto|].
  destruct (format_pos_head n d') as (c & r & -> & Hc). eauto.
Qed.

Lemma digit_facts c : isdigit c = true →
  isspace c = false ∧ c ≠ x00 ∧ c ≠ "]"%byte ∧ c ≠ "{"%byte ∧ c ≠ "["%byte ∧ c ≠ x22 ∧
  c ≠ "f"%byte ∧ c ≠ "t"%byte ∧ c ≠ "-"%byte.
Proof. revert c. by_bytes. Qed.


Lemma serialize_starts pretty lv t : json_wf t → starts_value (serialize_json pretty lv t).
Proof.
  destruct t as [|[]|d|s|ts|kvs]; intros Hwf; try by (eexists _, _; split; [reflexivity|done]).
  destruct (format_g17_head d Hwf) as (c & r & Hd & Hc).
  exists c, r. split; [done|]. destruct Hc as [->|Hc]; [done|].
  apply digit_facts in Hc. naive_solver.
Qed.

Lemma starts_skip s r : starts_value s → SKIP_WHITESPACES (s ++ r) = s ++ r.
Proof. intros (c & s' & -> & Hc & _). by apply skip_ws_cons. Qed.
Lemma starts_hd s r : starts_value s → hd_c (s ++ r) ≠ x00 ∧ hd_c (s ++ r) ≠ "]"%byte.
Proof. by intros (c & s' & -> & _ & H0 & H1). Qed.

Section containers.
Context (pretty : bool) (lv : nat).
Context (cl : byte) (r : bytes).
Context (Hcl : cl = "]"%byte ∨ cl = "}"%byte).

(** The text after the last element. *)
Definition closing : bytes := (if pretty then indent_text lv else []) ++ cl :: r.

Lemma closing_facts : SKIP_WHITESPACES closing = cl :: r ∧
  SKIP_WHITESPACES ((if pretty then [x0a] else []) ++ closing) = cl :: r ∧
  ends_value ((if pretty then [x0a] else []) ++ closing) ∧ cl ≠ ","%byte ∧ isspace cl = false.
Proof.
  assert (Hsp : isspace cl = false) by by destruct Hcl as [->| ->].
  assert (H1 : SKIP_WHITESPACES closing = cl :: r).
  { rewrite /closing skip_ws_app; [by apply skip_ws_cons|]. destruct pretty; [apply indent_space|done]. }
  split; [done|]. split; [rewrite skip_ws_app //; by destruct pretty|].
  split; [|split; [by destruct Hcl as [->| ->]|done]].
  rewrite /ends_value /closing. destruct pretty; [set_solver|].
  destruct Hcl as [->| ->]; rewrite /hd_c /at_c /=; set_solver.
Qed.

(** The separator before the next element. *)
Lemma separator_facts tl : starts_value tl →
  let sep := bs "," ++ (if pretty then [x0a] else []) ++
             (if pretty then indent_text (lv + 1) else []) ++ tl in
  ends_value sep ∧ SKIP_WHITESPACES sep = sep ∧ hd_c sep = ","%byte ∧
  SKIP_WHITESPACES (SKIP_CHAR sep) = tl.
Proof.
  intros Htl sep. split; [rewrite /ends_value /sep /hd_c /at_c /=; set_solver|].
  split; [done|]. split; [done|]. rewrite /sep /SKIP_CHAR /=.
  rewrite -(app_nil_r tl) in Htl |- *.
  destruct pretty; simpl; [|rewrite starts_skip ?app_nil_r //; by rewrite app_nil_r in Htl].
  rewrite skip_ws_app; [|apply indent_space]. rewrite app_nil_r in Htl.
  by rewrite starts_skip.
Qed.

Definition body_text (parts : list bytes) : bytes :=
  SKIP_WHITESPACES (join_parts pretty lv parts ++ closing).

Lemma starts_app s s' : starts_value s → starts_value (s ++ s').
Proof. intros (c & s0 & -> & H). exists c, (s0 ++ s'). done. Qed.

(** The text of a nonempty list of elements, from its first element. *)
Lemma body_text_cons p parts : starts_value p → Forall starts_value parts →
  ∃ r', body_text (p :: parts) = p ++ r' ∧ ends_value r' ∧
    match parts with
    | [] => SKIP_WHITESPACES r' = cl :: r
    | _ => SKIP_WHITESPACES r' = r' ∧ hd_c r' = ","%byte ∧
           SKIP_WHITESPACES (SKIP_CHAR r') = body_text parts
    end.
Proof.
  intros Hp Hparts. destruct closing_facts as (Hc1 & Hc2 & Hc3 & _).
  rewrite /body_text /= -!(assoc_L (++)) skip_ws_app; last first.
  { destruct pretty; [apply indent_space|done]. }
  rewrite starts_skip //. eexists. split; [reflexivity|].
  destruct parts as [|q parts]; simpl; [done|]. apply Forall_cons in Hparts as [Hq _].
  set (tl := q ++ (if decide (parts = []) then [] else bs ",") ++
     (if pretty then [x0a] else []) ++ join_parts pretty lv parts ++ closing).
  assert (Htl : starts_value tl) by by apply starts_app.
  rewrite -!(assoc_L (++)).
  destruct (separator_facts tl Htl) as (Hs1 & Hs2 & Hs3 & Hs4).
  split; [exact Hs1|]. split; [exact Hs2|]. split; [exact Hs3|].
  etrans; [exact Hs4|]. rewrite skip_ws_app; last by destruct pretty; [apply indent_space|].
  by rewrite starts_skip.
Qed.

Lemma body_text_count parts : Forall starts_value parts → length parts ≤ length (body_text parts).
Proof.
  induction 1 as [|p parts Hp Hps IH]; [simpl; lia|].
  destruct (body_text_cons p parts Hp Hps) as (r' & -> & _ & Hr').
  rewrite length_app. destruct Hp as (c & p' & -> & _).
  assert (length parts ≤ length r').
  { destruct parts as [|q parts]; [simpl; lia|]. destruct Hr' as (_ & _ & Hnext).
    rewrite -Hnext in IH. pose proof (length_skip_ws (SKIP_CHAR r')) as Hws.
    assert (length (SKIP_CHAR r') ≤ length r') by (destruct r'; simpl; lia). lia. }
  simpl. lia.
Qed.

Lemma parse_elements_join (pv : bytes → nat → option (json * bytes)) n (ser : json → bytes) ts : ∀ acc fuel,
  ts ≠ [] → length ts ≤ fuel → Forall (λ t, starts_value (ser t)) ts →
  (∀ t r', t ∈ ts → ends_value r' → pv (ser t ++ r') n = Some (t, r')) →
  parse_elements pv fuel acc (body_text (map ser ts)) n = Some (acc ++ ts, cl :: r).
Proof.
  induction ts as [|t ts IH]; intros acc fuel Hne Hf Hst Hpv; [done|].
  destruct fuel as [|fuel]; [simpl in Hf; lia|]. apply Forall_cons in Hst as [Ht Hst].
  destruct (body_text_cons (ser t) (map ser ts)) as (r' & Hbody & Hends & Hrest); [done| |].
  { by apply Forall_fmap. }
  cbn [map parse_elements]. rewrite Hbody. destruct (starts_hd _ r' Ht) as [Hnz _].
  rewrite decide_False //. rewrite (Hpv t r') //; [|set_solver]. simpl.
  destruct ts as [|t2 ts]; simpl in Hrest.
  - rewrite Hrest decide_True //. destruct closing_facts as (_ & _ & _ & Hc & _). done.
  - destruct Hrest as (Hws & Hc & Hnext). rewrite Hws decide_False; [|by intros ?].
    rewrite Hnext. rewrite IH //.
    + by rewrite -(assoc_L (++)).
    + simpl in *; lia.
    + intros x r'' Hx. apply Hpv. set_solver.
Qed.

Lemma string_starts s : starts_value (serialize_string_text s).
Proof. by exists x22, ((s ≫= escape_char) ++ [x22]). Qed.

Lemma parse_members_join (pv : bytes → nat → option (json * bytes)) n (ser : json → bytes) kvs : ∀ acc fuel,
  kvs ≠ [] → length kvs ≤ fuel → NoDup (acc ++ kvs).*1 → Forall (λ kv, nonul kv.1) kvs →
  (∀ kv r', kv ∈ kvs → ends_value r' →
     pv ((if pretty then bs " " else []) ++ ser kv.2 ++ r') n = Some (kv.2, r')) →
  parse_members pv fuel acc (body_text (map (λ kv, member_text pretty kv.1 (ser kv.2)) kvs)) n
  = Some (acc ++ kvs, cl :: r).
Proof.
  induction kvs as [|[k t] kvs IH]; intros acc fuel Hne Hf Hnd Hnul Hpv; [done|].
  destruct fuel as [|fuel]; [simpl in Hf; lia|]. apply Forall_cons in Hnul as [Hk Hnul].
  set (part := λ kv : bytes * json, member_text pretty kv.1 (ser kv.2)) in *.
  assert (Hst : ∀ kv, starts_value (part kv)) by (intros kv; apply starts_app, string_starts).
  destruct (body_text_cons (part (k, t)) (map part kvs)) as (r' & Hbody & Hends & Hrest); [done| |].
  { apply Forall_fmap, Forall_true. intros kv. apply Hst. }
  cbn [map parse_members]. rewrite Hbody. destruct (starts_hd _ r' (Hst (k, t))) as [Hnz _].
  case_decide; [done|].
  rewrite /part /member_text. cbn [fst snd].
  rewrite -(assoc_L (++) (serialize_string_text k)) quoted_text_serialize //. simpl.
  rewrite -(assoc_L (++)) (Hpv (k, t)) //; [|set_solver]. simpl.
  rewrite decide_False; last first.
  { rewrite fmap_app NoDup_app in Hnd. intros Hin. destruct Hnd as (_ & Hd & _).
    apply (Hd k Hin). simpl. set_solver. }
  destruct kvs as [|kv2 kvs]; simpl in Hrest.
  - rewrite Hrest decide_True //. destruct closing_facts as (_ & _ & _ & Hc & _). done.
  - destruct Hrest as (Hws & Hc & Hnext). rewrite Hws decide_False; [|by intros ?].
    rewrite Hnext. rewrite IH //.
    + by rewrite -(assoc_L (++)).
    + simpl in *; lia.
    + by rewrite -(assoc_L (++)).
    + intros x r'' Hx. apply Hpv. set_solver.
Qed.
End containers.

Lemma parse_json_at_ws N fuel ws s nesting :
  forallb isspace ws = true → parse_json_at N fuel (ws ++ s) nesting = parse_json_at N fuel s nesting.
Proof. intros Hws. destruct fuel; [done|]. simpl. by rewrite skip_ws_app. Qed.

(** From the cursor after the bracket to the loop over the elements. *)
Lemma bracket_body pretty lv op cl parts r :
  (cl = "]"%byte ∨ cl = "}"%byte) → parts ≠ [] →
  SKIP_WHITESPACES (SKIP_CHAR (bracket pretty lv [op] [cl] parts ++ r)) =
  body_text pretty lv cl r parts.
Proof.
  intros Hcl Hne. rewrite /bracket /body_text /closing.
  rewrite (bool_decide_false (parts = [])) // andb_true_r -!(assoc_L (++)) /SKIP_CHAR /=.
  rewrite skip_ws_app //. by destruct pretty.
Qed.


Lemma parse_array_bracket pv n (pretty : bool) lv (ser : json → bytes) ts r :
  Forall (λ t, starts_value (ser t)) ts →
  (∀ t r', t ∈ ts → ends_value r' → pv (ser t ++ r') n = Some (t, r')) →
  parse_array pv (bracket pretty lv (bs "[") (bs "]") (map ser ts) ++ r) n = Some (JArray ts, r).
Proof.
  intros Hst Hpv. destruct (decide (ts = [])) as [->|Hne].
  { by destruct pretty. }
  assert (Hcl : "]"%byte = "]"%byte ∨ "]"%byte = "}"%byte) by by left.
  assert (Hstm : Forall starts_value (map ser ts)) by by apply Forall_fmap.
  assert (Hmne : map ser ts ≠ []) by by intros ?%map_eq_nil.
  rewrite /parse_array (bracket_body _ _ "["%byte "]"%byte) //.
  pose proof (body_text_count pretty lv "]"%byte r Hcl _ Hstm) as Hcount. rewrite length_map in Hcount.
  pose proof (parse_elements_join pretty lv "]"%byte r Hcl pv n ser ts []
    (S (length (body_text pretty lv "]"%byte r (map ser ts)))) Hne ltac:(lia) Hst Hpv) as Hparse.
  assert (Hhd : hd_c (body_text pretty lv "]"%byte r (map ser ts)) ≠ "]"%byte).
  { destruct ts as [|t ts]; [done|]. apply Forall_cons in Hstm as [Ht Hstm].
    destruct (body_text_cons pretty lv "]"%byte r Hcl _ _ Ht Hstm) as (r' & Hb & _).
    cbn [map]. rewrite Hb. by apply starts_hd. }
  cbv zeta. rewrite decide_False // Hparse. simpl. done.
Qed.

Lemma parse_object_bracket pv n (pretty : bool) lv (ser : json → bytes) kvs r :
  NoDup kvs.*1 → Forall (λ kv, nonul kv.1) kvs →
  (∀ kv r', kv ∈ kvs → ends_value r' →
     pv ((if pretty then bs " " else []) ++ ser kv.2 ++ r') n = Some (kv.2, r')) →
  parse_object pv (bracket pretty lv (bs "{") (bs "}")
    (map (λ kv, member_text pretty kv.1 (ser kv.2)) kvs) ++ r) n = Some (JObject kvs, r).
Proof.
  intros Hnd Hnul Hpv. destruct (decide (kvs = [])) as [->|Hne].
  { by destruct pretty. }
  set (part := λ kv : bytes * json, member_text pretty kv.1 (ser kv.2)) in *.
  assert (Hcl : "}"%byte = "]"%byte ∨ "}"%byte = "}"%byte) by by right.
  assert (Hst : ∀ kv, starts_value (part kv)) by (intros kv; apply starts_app, string_starts).
  assert (Hstm : Forall starts_value (map part kvs)).
  { apply Forall_fmap, Forall_true. intros kv. apply Hst. }
  assert (Hmne : map part kvs ≠ []) by by intros ?%map_eq_nil.
  rewrite /parse_object (bracket_body _ _ "{"%byte "}"%byte) //.
  pose proof (body_text_count pretty lv "}"%byte r Hcl _ Hstm) as Hcount. rewrite length_map in Hcount.
  pose proof (parse_members_join pretty lv "}"%byte r Hcl pv n ser kvs []
    (S (length (body_text pretty lv "}"%byte r (map part kvs)))) Hne ltac:(lia) Hnd Hnul Hpv) as Hparse.
  assert (Hhd : hd_c (body_text pretty lv "}"%byte r (map part kvs)) ≠ "}"%byte).
  { destruct kvs as [|kv kvs]; [done|]. apply Forall_cons in Hstm as [Ht Hstm].
    destruct (body_text_cons pretty lv "}"%byte r Hcl _ _ Ht Hstm) as (r' & Hb & _).
    cbn [map]. rewrite Hb. done. }
  cbv zeta. rewrite decide_False // Hparse. simpl. done.
Qed.

(** The parser reads back what the printer wrote; what follows must end a number, and
    can be anything after other values. *)
Lemma parse_serialize N pretty t : ∀ lv fuel nesting r,
  json_wf t → Forall number_reads (json_numbers t) →
  depth t ≤ fuel → nesting + depth t ≤ S N → (∀ d, t = JNumber d → ends_value r) →
  parse_json_at N fuel (serialize_json pretty lv t ++ r) nesting = Some (t, r).
Proof.
  induction t as [|b|d|s|ts IH|kvs IH] using json_induction;
    intros lv fuel nesting r Hwf Hnum Hd Hn Hr;
    (destruct fuel as [|fuel]; [simpl in Hd; lia|]);
    assert (Hnest : ¬ N < nesting) by (simpl in Hn; lia).
  - simpl. by rewrite decide_False.
  - simpl. rewrite decide_False //. by destruct b.
  - cbn [parse_json_at]. rewrite decide_False //.
    rewrite starts_skip; last by apply (serialize_starts pretty lv (JNumber d)).
    cbn [serialize_json].
    rewrite /json_numbers /= Forall_singleton in Hnum. specialize (Hnum r (Hr d eq_refl)).
    destruct (format_g17_head d Hwf) as (c & s & Hs & Hc).
    rewrite Hs in Hnum |- *. cbv zeta. change (hd_c ((c :: s) ++ r)) with c.
    destruct Hc as [->|Hc]; [exact Hnum|].
    pose proof (digit_facts _ Hc) as (? & ? & ? & ? & ? & ? & ? & ? & ?).
    do 5 (case_decide; [naive_solver|]). by rewrite Hc.
  - cbn [parse_json_at]. rewrite decide_False //. cbn [serialize_json].
    rewrite starts_skip; last apply string_starts. cbv zeta.
    change (hd_c (serialize_string_text s ++ r)) with x22. simpl decide. cbv iota.
    rewrite /parse_string quoted_text_serialize //.
  - cbn [parse_json_at]. rewrite decide_False //.
    rewrite starts_skip; last by apply (serialize_starts pretty lv (JArray ts)).
    cbv zeta. cbn [serialize_json]. change (hd_c _) with "["%byte. cbv beta iota.
    apply parse_array_bracket.
    + apply json_wf_array in Hwf. eapply Forall_impl; [exact Hwf|].
      intros t Ht. by apply serialize_starts.
    + intros t r' Ht Hr'. rewrite json_wf_array Forall_forall in Hwf.
      rewrite Forall_forall in IH. apply IH; [done|by apply Hwf| | | |done].
      * rewrite !Forall_forall in Hnum |- *. intros d Hd'. apply Hnum. by eapply json_numbers_elem.
      * apply depth_elem_array in Ht. lia.
      * apply depth_elem_array in Ht. lia.
  - cbn [parse_json_at]. rewrite decide_False //.
    rewrite starts_skip; last by apply (serialize_starts pretty lv (JObject kvs)).
    cbv zeta. cbn [serialize_json]. change (hd_c _) with "{"%byte. cbv beta iota.
    apply json_wf_object in Hwf as [Hnd Hwf]. rewrite Forall_forall in Hwf.
    rewrite Forall_forall in IH. apply parse_object_bracket; [done|..].
    + apply Forall_forall. intros kv Hkv. by apply Hwf.
    + intros kv r' Hkv Hr'. rewrite parse_json_at_ws; last by destruct pretty.
      assert (Hdep : depth kv.2 < depth (JObject kvs)).
      { apply depth_elem_object. by apply list_elem_of_fmap_2. }
      apply IH; [done|by apply Hwf| |lia|lia|done].
      rewrite !Forall_forall in Hnum |- *. intros d Hd'. apply Hnum. by eapply json_numbers_member.
Qed.

(** ** Printed text has no NUL *)

(** The text of a well-formed tree is a C string. *)
Lemma nonul_concat (l : list bytes) : Forall nonul l → nonul (concat l).
Proof.
  induction 1 as [|x l Hx Hl IH]; simpl; [apply nonul_nil|]. by apply nonul_app.
Qed.
Lemma nonul_indent lv : nonul (indent_text lv).
Proof. apply nonul_concat, Forall_replicate. by vm_compute; set_solver. Qed.
Lemma nonul_dec_digits n z : nonul (dec_digits n z).
Proof.
  revert z. induction n as [|n IH]; intros z; simpl; [apply nonul_nil|].
  apply nonul_app. split; [done|]. apply nonul_cons. split; [|apply nonul_nil].
  intros Hz. apply (f_equal uchar) in Hz. rewrite uchar_to_byte in Hz.
  pose proof (Z.mod_pos_bound z 10 ltac:(lia)).
  rewrite Z.mod_small in Hz; change (uchar "0") with 48%Z in *; change (uchar x00) with 0%Z in *; lia.
Qed.

Lemma nonul_strip s : nonul s → nonul (strip_zeros s).
Proof.
  induction s as [|c s IH]; simpl; [done|]. rewrite nonul_cons. intros [Hc Hs].
  specialize (IH Hs). destruct (strip_zeros s); [case_decide; [apply nonul_nil|]|];
    apply nonul_cons; auto using nonul_nil.
Qed.
Lemma nonul_with_point s : nonul s → nonul (with_point s).
Proof.
  intros Hs%nonul_strip. rewrite /with_point. destruct (strip_zeros s); [done|].
  by apply nonul_cons.
Qed.
Lemma nonul_take n s : nonul s → nonul (take n s).
Proof. rewrite /nonul. intros Hs Hn. apply Hs. rewrite -(take_drop n s). set_solver. Qed.
Lemma nonul_drop n s : nonul s → nonul (drop n s).
Proof. rewrite /nonul. intros Hs Hn. apply Hs. rewrite -(take_drop n s). set_solver. Qed.
Lemma nonul_zeros n : nonul (replicate n "0"%byte).
Proof. rewrite /nonul elem_of_replicate. intros [? _]. done. Qed.
Lemma nonul_format_pos n d : nonul (format_pos n d).
Proof.
  rewrite /format_pos. destruct (digits17 n d) as [q x].
  pose proof (nonul_dec_digits 17 q) as Hq. revert Hq. generalize (dec_digits 17 q). intros ds Hq.
  destruct ((x <? -4) || (17 <=? x))%Z; [|destruct (x <? 0)%Z]; rewrite ?nonul_app;
    auto 6 using nonul_take, nonul_drop, nonul_with_point.
  - split; [by apply nonul_take|]. split; [by apply nonul_with_point, nonul_drop|].
    split; [by apply nonul_lit|].
    split; [|apply nonul_dec_digits]. by destruct (x <? 0)%Z; apply nonul_lit.
  - split; [by apply nonul_lit|]. apply nonul_with_point, nonul_app.
    split; [apply nonul_zeros|done].
Qed.
Lemma nonul_format_g17 x : nonul (format_g17 x).
Proof.
  destruct x as [[]|[]| |[] m e]; try by apply nonul_lit.
  - rewrite /format_g17. destruct (ratio_of m e). apply nonul_app.
    split; [by apply nonul_lit|apply nonul_format_pos].
  - rewrite /format_g17. destruct (ratio_of m e). apply nonul_format_pos.
Qed.
Lemma nonul_escape_char c : c ≠ x00 → nonul (escape_char c).
Proof. revert c. rewrite /nonul. by_bytes. Qed.
Lemma nonul_string_text s : nonul s → nonul (serialize_string_text s).
Proof.
  intros Hs. rewrite /serialize_string_text !nonul_app.
  split; [by apply nonul_lit|split; [|by apply nonul_lit]].
  induction s as [|c s IH]; [apply nonul_nil|]. apply nonul_cons in Hs as [Hc Hs].
  rewrite bind_cons. apply nonul_app. auto using nonul_escape_char.
Qed.
Lemma nonul_join_parts pretty lv parts : Forall nonul parts → nonul (join_parts pretty lv parts).
Proof.
  induction 1 as [|p parts Hp Hps IH]; simpl; [apply nonul_nil|]. rewrite !nonul_app.
  split; [destruct pretty; [apply nonul_indent|apply nonul_nil]|]. split; [done|].
  split; [case_decide; by apply nonul_lit|]. split; [destruct pretty; by apply nonul_lit|done].
Qed.
Lemma nonul_bracket pretty lv op cl parts :
  nonul op → nonul cl → Forall nonul parts → nonul (bracket pretty lv op cl parts).
Proof.
  intros Hop Hcl Hp. rewrite /bracket !nonul_app. split; [done|].
  split; [destruct (_ && _); by apply nonul_lit|]. split; [by apply nonul_join_parts|].
  split; [|done]. destruct (_ && _); [apply nonul_indent|apply nonul_nil].
Qed.
Lemma nonul_serialize pretty t : ∀ lv, json_wf t → nonul (serialize_json pretty lv t).
Proof.
  induction t as [|[]|d|s|ts IH|kvs IH] using json_induction; intros lv Hwf.
  - by apply nonul_lit.
  - by apply nonul_lit.
  - by apply nonul_lit.
  - apply nonul_format_g17.
  - by apply nonul_string_text.
  - apply json_wf_array in Hwf. apply nonul_bracket; [by apply nonul_lit..|].
    apply Forall_fmap. rewrite !Forall_forall in IH Hwf |- *. intros x Hx. by apply IH, Hwf.
  - apply json_wf_object in Hwf as [_ Hwf]. apply nonul_bracket; [by apply nonul_lit..|].
    apply Forall_fmap. rewrite !Forall_forall in IH Hwf |- *. intros x Hx.
    destruct (Hwf x Hx) as [Hk Hv]. simpl. rewrite /member_text.
    apply nonul_app. split; [by apply nonul_string_text|]. rewrite !nonul_app. split; [by apply nonul_lit|].
    split; [destruct pretty; by apply nonul_lit|by apply IH].
Qed.

(** ** The size of printed text *)

Lemma join_parts_length pretty lv parts p :
  p ∈ parts → length p ≤ length (join_parts pretty lv parts).
Proof.
  induction parts as [|q parts IH]; [set_solver|].
  intros [->|Hp]%elem_of_cons; simpl; rewrite !length_app; [lia|]. specialize (IH Hp). lia.
Qed.

Lemma format_pos_ne n d : 1 ≤ length (format_pos n d).
Proof.
  rewrite /format_pos. destruct (digits17 n d) as [q x].
  pose proof (length_dec_digits 17 q) as Hd. revert Hd. generalize (dec_digits 17 q). intros ds Hd.
  destruct ((x <? -4) || (17 <=? x))%Z; [|destruct (x <? 0)%Z eqn:Ex].
  - rewrite !length_app length_take. simpl length. lia.
  - rewrite length_app. simpl length. lia.
  - apply Z.ltb_ge in Ex. rewrite length_app length_take. lia.
Qed.

Lemma foldr_max_elem {A} (f : A → nat) l k :
  k < foldr (λ x n, f x `max` n) 0 l → ∃ x, x ∈ l ∧ k < f x.
Proof.
  induction l as [|x l IH]; simpl; [lia|]. intros Hk.
  destruct (decide (k < f x)); [exists x; set_solver|].
  destruct IH as (y & Hy & Hlt); [lia|]. exists y. set_solver.
Qed.

(** Each level of nesting costs a bracket. *)
Lemma depth_serialize pretty t : ∀ lv, depth t ≤ length (serialize_json pretty lv t).
Proof.
  assert (Hb : ∀ lv op cl parts n, length op = 1 →
    (∀ k, k < n → ∃ p, p ∈ parts ∧ k < length p) →
    S n ≤ length (bracket pretty lv op cl parts)).
  { intros lv op cl parts n Hop Hn. rewrite /bracket !length_app Hop.
    destruct n as [|n]; [lia|]. destruct (Hn n) as (p & Hp & Hlt); [lia|].
    pose proof (join_parts_length pretty lv _ _ Hp). lia. }
  induction t as [|b|d|s|ts IH|kvs IH] using json_induction; intros lv.
  - simpl. lia.
  - destruct b; simpl; lia.
  - simpl. destruct d as [[]|[]| |[] m e]; simpl; try lia; destruct (ratio_of m e); simpl; try lia.
    apply format_pos_ne.
  - simpl. lia.
  - apply Hb; [done|]. intros k (x & Hx & Hk)%foldr_max_elem.
    rewrite Forall_forall in IH. pose proof (IH x Hx (lv + 1)) as Hle.
    exists (serialize_json pretty (lv + 1) x). split; [by apply list_elem_of_fmap_2|].
    eapply Nat.lt_le_trans; [exact Hk|done].
  - apply Hb; [done|]. intros k (x & Hx & Hk)%foldr_max_elem.
    rewrite Forall_forall in IH. pose proof (IH x Hx (lv + 1)) as Hle.
    exists (member_text pretty x.1 (serialize_json pretty (lv + 1) x.2)). split.
    + by apply (list_elem_of_fmap_2 (λ kv, member_text pretty kv.1 (serialize_json pretty (lv + 1) kv.2))).
    + eapply Nat.lt_le_trans; [exact Hk|]. etrans; [exact Hle|]. rewrite /member_text !length_app. lia.
Qed.

(** A printed object is read back whatever follows it: its closing brace ends it. *)
Lemma parse_serialize_object pretty kvs r :
  json_wf (JObject kvs) → Forall number_reads (json_numbers (JObject kvs)) →
  depth (JObject kvs) ≤ 2049 →
  parse_json (serialize_json pretty 0 (JObject kvs) ++ r) = Some (JObject kvs).
Proof.
  intros Hwf Hnum Hd. unfold parse_json. case_decide as Hbom; [by destruct Hbom|].
  pose proof (depth_serialize pretty (JObject kvs) 0) as Hlen.
  rewrite (parse_serialize 2048 pretty (JObject kvs) 0 _ 0 r Hwf Hnum); [done| |lia|done].
  rewrite length_app. lia.
Qed.
