(* ===== verification/CNumProof.v ===== *)
(** * Seventeen digits are enough: [strtod] reads back what [%1.17g] prints

    A normal binary64 number and the seventeen-digit decimal nearest to it differ
    by less than half a unit in the last place, so that reading the decimal and
    rounding to nearest gives the number back.  The error analysis is carried out
    in the real numbers, on the ratios of integers the routines compute with. *)
From stdpp Require Import base list numbers option sets strings.
From Stdlib Require Import ZArith Lia Reals Lra.
From stdpp Require Import ssreflect.
From S2P Require Import Prelude ParsonText CNum JsonSpec ParsonTextProof JsonRoundTrip.
Local Open Scope Z_scope.

(** ** Powers and ratios *)

Definition bpow (b k : Z) : R := powerRZ (IZR b) k.
Definition rat (n d : Z) : R := (IZR n / IZR d)%R.

Section powers.
Context (b : Z) (Hb : 2 <= b).
Lemma base_pos : (0 < IZR b)%R.
Proof using Hb. apply IZR_lt. lia. Qed.
Lemma bpow_pos k : (0 < bpow b k)%R.
Proof using Hb. apply powerRZ_lt, base_pos. Qed.
Lemma bpow_add k j : bpow b (k + j) = (bpow b k * bpow b j)%R.
Proof using Hb. apply powerRZ_add. pose proof base_pos. lra. Qed.
Lemma bpow_Z k : 0 <= k → bpow b k = IZR (b ^ k).
Proof using Type.
  intros Hk. rewrite /bpow -(Z2Nat.id k Hk). rewrite -pow_IZR pow_powerRZ. done.
Qed.
Lemma bpow_opp k : (bpow b k * bpow b (- k) = 1)%R.
Proof using Hb. rewrite -bpow_add Z.add_opp_diag_r. done. Qed.
Lemma bpow_inv k : 0 <= k → bpow b (- k) = (/ IZR (b ^ k))%R.
Proof using Hb.
  intros Hk. pose proof (bpow_opp k) as Ho. rewrite (bpow_Z k Hk) in Ho.
  assert (0 < IZR (b ^ k))%R by (apply IZR_lt, Z.pow_pos_nonneg; lia).
  apply (Rmult_eq_reg_l (IZR (b ^ k))); [|lra]. rewrite Rinv_r; lra.
Qed.
Lemma bpow_lt k j : k < j → (bpow b k < bpow b j)%R.
Proof using Hb.
  intros Hkj. replace j with (k + (j - k)) by lia. rewrite bpow_add.
  rewrite (bpow_Z (j - k)); [|lia].
  assert (1 < IZR (b ^ (j - k)))%R.
  { apply IZR_lt, Z.pow_gt_1; lia. }
  pose proof (bpow_pos k). nra.
Qed.
Lemma bpow_le k j : k <= j → (bpow b k <= bpow b j)%R.
Proof using Hb. intros [Hlt| ->]%Zle_lt_or_eq; [left; by apply bpow_lt|lra]. Qed.

(** The exponent of a number is unique. *)
Lemma bpow_unique v k j :
  (bpow b k <= v < bpow b (k + 1))%R → (bpow b j <= v < bpow b (j + 1))%R → k = j.
Proof using Hb.
  intros Hk Hj. destruct (Z.lt_trichotomy k j) as [Hlt|[?|Hlt]]; [exfalso|done|exfalso].
  - pose proof (bpow_le (k + 1) j ltac:(lia)). lra.
  - pose proof (bpow_le (j + 1) k ltac:(lia)). lra.
Qed.

Lemma scale_down_spec n d e n' d' :
  0 < d → scale_down b n d e = (n', d') → 0 < d' ∧ rat n' d' = (rat n d * bpow b (- e))%R.
Proof using Hb.
  intros Hd. rewrite /scale_down. pose proof (IZR_lt 0 d Hd) as HdR.
  destruct (Z.leb_spec 0 e) as [He|He]; intros [= <- <-].
  - assert (0 < b ^ e) by (apply Z.pow_pos_nonneg; lia). split; [nia|].
    pose proof (IZR_lt 0 (b ^ e) ltac:(lia)). rewrite /rat mult_IZR bpow_inv //. field. lra.
  - split; [done|]. rewrite /rat mult_IZR -bpow_Z; [|lia]. field. lra.
Qed.

Lemma ratio_ge n d : 0 < d → (d <= n ↔ (1 <= rat n d)%R).
Proof using Type.
  intros Hd. pose proof (IZR_lt 0 d Hd). rewrite /rat. split; intros Hn.
  - apply IZR_le in Hn. apply (Rmult_le_reg_r (IZR d)); [lra|]. field_simplify; lra.
  - apply le_IZR. apply (Rmult_le_compat_r (IZR d)) in Hn; [|lra]. field_simplify in Hn; lra.
Qed.

(** The comparison of [find_exp] and [exp2_of]. *)
Lemma scale_test n d e n' d' :
  0 < d → scale_down b n d e = (n', d') → (d' <=? n') = true ↔ (bpow b e <= rat n d)%R.
Proof using Hb.
  intros Hd Hs. destruct (scale_down_spec _ _ _ _ _ Hd Hs) as [Hd' Hr].
  rewrite Z.leb_le ratio_ge // Hr. pose proof (bpow_opp e). pose proof (bpow_pos e).
  pose proof (bpow_pos (- e)). split; intros Hle.
  - nra.
  - apply (Rmult_le_compat_r (bpow b (- e))) in Hle; lra.
Qed.

Lemma find_exp_spec fuel n d : ∀ hi, 0 < d →
  (rat n d < bpow b (hi + 1))%R → (bpow b (hi - Z.of_nat fuel) <= rat n d)%R →
  let k := find_exp fuel b n d hi in
  (bpow b k <= rat n d < bpow b (k + 1))%R ∧ hi - Z.of_nat fuel <= k <= hi.
Proof using Hb.
  induction fuel as [|fuel IH]; intros hi Hd Hlt Hge; cbn [find_exp].
  - rewrite Z.sub_0_r in Hge. split; [lra|lia].
  - destruct (scale_down b n d hi) as [n' d'] eqn:Hs.
    pose proof (scale_test _ _ _ _ _ Hd Hs) as Ht. destruct (d' <=? n').
    + split; [|lia]. split; [by apply Ht|done].
    + assert (¬ (bpow b hi <= rat n d)%R) by (intros ?%Ht; done).
      destruct (IH (hi - 1) Hd) as [Hk Hrange].
      * replace (hi - 1 + 1) with hi by lia. lra.
      * by replace (hi - 1 - Z.of_nat fuel) with (hi - Z.of_nat (S fuel)) by lia.
      * split; [done|lia].
Qed.
End powers.

(** ** Rounding *)

Lemma round_half_even_error n d :
  0 < d → (Rabs (IZR (round_half_even n d) - rat n d) <= 1 / 2)%R.
Proof.
  intros Hd. pose proof (IZR_lt 0 d Hd) as HdR.
  pose proof (Z.div_mod n d ltac:(lia)) as Hdm. pose proof (Z.mod_pos_bound n d Hd) as Hr.
  rewrite /round_half_even. set (q := n / d) in *. set (r := n mod d) in *.
  assert (Hn : rat n d = (IZR q + IZR r / IZR d)%R).
  { rewrite /rat Hdm plus_IZR mult_IZR. field. lra. }
  assert (Hfr : ∀ x y : R, (x * IZR d <= IZR r <= y * IZR d)%R → (x <= IZR r / IZR d <= y)%R).
  { intros x y [H1 H2]. split; apply (Rmult_le_reg_r (IZR d)); try lra; field_simplify; lra. }
  destruct Hr as [Hr0 Hr1]. apply IZR_le in Hr0. apply IZR_lt in Hr1.
  destruct (Z.ltb_spec (2 * r) d) as [H1|H1]; [|destruct (Z.ltb_spec d (2 * r)) as [H2|H2]].
  - apply IZR_lt in H1. rewrite mult_IZR in H1. destruct (Hfr 0%R (1/2)%R); [lra|].
    rewrite Hn. apply Rabs_le. lra.
  - apply IZR_lt in H2. rewrite mult_IZR in H2. destruct (Hfr (1/2)%R 1%R); [lra|].
    rewrite Hn plus_IZR. apply Rabs_le. lra.
  - assert (Heq : IZR (2 * r) = IZR d) by (f_equal; lia). rewrite mult_IZR in Heq.
    destruct (Hfr (1/2)%R (1/2)%R); [lra|].
    rewrite Hn. destruct (Z.even q); rewrite ?plus_IZR; apply Rabs_le; lra.
Qed.

Lemma round_half_even_unique n d z :
  0 < d → (Rabs (IZR z - rat n d) < 1 / 2)%R → round_half_even n d = z.
Proof.
  intros Hd Hz. pose proof (round_half_even_error n d Hd) as He.
  apply Rabs_def2 in Hz as [Hz1 Hz2].
  assert (-(1/2) <= IZR (round_half_even n d) - rat n d <= 1/2)%R as [He1 He2].
  { revert He. rewrite /Rabs. destruct (Rcase_abs _); lra. }
  set (q := round_half_even n d) in *.
  assert (q < z + 1) by (apply lt_IZR; rewrite plus_IZR; lra).
  assert (z < q + 1) by (apply lt_IZR; rewrite plus_IZR; lra). lia.
Qed.

Lemma log2_bounds n : 0 < n → (bpow 2 (Z.log2 n) <= IZR n < bpow 2 (Z.log2 n + 1))%R.
Proof.
  intros Hn. pose proof (Z.log2_spec n Hn) as [H1 H2]. pose proof (Z.log2_nonneg n).
  rewrite !bpow_Z; [|lia..]. split; [by apply IZR_le|]. apply IZR_lt. by rewrite Z.add_1_r.
Qed.

(** [exp2_of] is the exponent of the last place of the rounded result. *)
Lemma exp2_of_spec n d :
  0 < n → 0 < d →
  ∃ k, (bpow 2 k <= rat n d < bpow 2 (k + 1))%R ∧ exp2_of n d = Z.max (k - 52) (-1074).
Proof.
  intros Hn Hd. rewrite /exp2_of. set (k := Z.log2 n - Z.log2 d).
  destruct (scale_down 2 n d k) as [n' d'] eqn:Hs.
  pose proof (scale_test 2 ltac:(lia) _ _ _ _ _ Hd Hs) as Ht.
  pose proof (log2_bounds n Hn) as [Hn1 Hn2]. pose proof (log2_bounds d Hd) as [Hd1 Hd2].
  pose proof (IZR_lt 0 d Hd) as HdR.
  assert (Hup : (rat n d < bpow 2 (k + 1))%R).
  { rewrite /rat. apply (Rmult_lt_reg_r (IZR d)); [lra|]. field_simplify; [|lra].
    pose proof (bpow_add 2 ltac:(lia) (k + 1) (Z.log2 d)) as Ha.
    replace (k + 1 + Z.log2 d) with (Z.log2 n + 1) in Ha by lia.
    pose proof (bpow_pos 2 ltac:(lia) (k + 1)). nra. }
  assert (Hlo : (bpow 2 (k - 1) <= rat n d)%R).
  { rewrite /rat. apply (Rmult_le_reg_r (IZR d)); [lra|]. field_simplify; [|lra].
    pose proof (bpow_add 2 ltac:(lia) (k - 1) (Z.log2 d + 1)) as Ha.
    replace (k - 1 + (Z.log2 d + 1)) with (Z.log2 n) in Ha by lia.
    pose proof (bpow_pos 2 ltac:(lia) (k - 1)). nra. }
  destruct (d' <=? n').
  - exists k. split; [|done]. split; [by apply Ht|done].
  - exists (k - 1). split; [|done]. replace (k - 1 + 1) with k by lia.
    assert (¬ (bpow 2 k <= rat n d)%R) by (intros ?%Ht; done). lra.
Qed.

(** A number whose mantissa uses all 53 bits. *)
Definition normal (m : positive) (e : Z) : Prop :=
  2 ^ 52 <= Zpos m < 2 ^ 53 ∧ -1074 <= e <= 971.

(** The rounding step of [round_ratio], for a ratio within half a unit of [z]. *)
Lemma round_scaled n d e z n' d' :
  0 < d → scale_down 2 n d e = (n', d') →
  (- (1 / 2) * bpow 2 e < rat n d - IZR z * bpow 2 e < 1 / 2 * bpow 2 e)%R →
  round_half_even n' d' = z.
Proof.
  intros Hd Hs Herr. destruct (scale_down_spec 2 ltac:(lia) _ _ _ _ _ Hd Hs) as [Hd' Hr].
  apply round_half_even_unique; [done|]. rewrite Hr.
  pose proof (bpow_opp 2 ltac:(lia) e) as Ho. pose proof (bpow_pos 2 ltac:(lia) (- e)) as Hy.
  revert Ho Hy Herr. generalize (bpow 2 e), (bpow 2 (- e)), (rat n d), (IZR z).
  intros x y w M Ho Hy [H1 H2].
  apply (Rmult_lt_compat_r y) in H1, H2; [|lra..].
  replace ((w - M * x) * y)%R with (w * y - M * (x * y))%R in H1, H2 by ring.
  replace (- (1 / 2) * x * y)%R with (- (1 / 2) * (x * y))%R in H1 by ring.
  replace (1 / 2 * x * y)%R with (1 / 2 * (x * y))%R in H2 by ring.
  rewrite Ho in H1 H2. apply Rabs_def1; lra.
Qed.

Lemma round_ratio_near sign m e n d :
  normal m e → 0 < n → 0 < d →
  (Rabs (rat n d - IZR (Zpos m) * bpow 2 e) < IZR (Zpos m) * bpow 2 e * bpow 2 (-54))%R →
  round_ratio sign n d = S754_finite sign m e.
Proof.
  intros [Hm He] Hn Hd Herr.
  destruct (exp2_of_spec n d Hn Hd) as (k & Hk & Hexp).
  rewrite /round_ratio Hexp. set (w := rat n d) in *. set (M := IZR (Zpos m)) in *.
  pose proof (bpow_pos 2 ltac:(lia) e) as Hpe.
  assert (HM : (IZR (2 ^ 52) <= M <= IZR (2 ^ 53) - 1)%R).
  { split; [apply IZR_le; lia|]. rewrite -minus_IZR. apply IZR_le. lia. }
  rewrite (bpow_inv 2 ltac:(lia) 54) // in Herr.
  change (2 ^ 54) with 18014398509481984 in Herr.
  change (2 ^ 52) with 4503599627370496 in *. change (2 ^ 53) with 9007199254740992 in *.
  apply Rabs_def2 in Herr as [Herr1 Herr2].
  assert (Hup : (w < bpow 2 (e + 53))%R).
  { rewrite bpow_add // (bpow_Z 2 53) //. change (2 ^ 53) with 9007199254740992. nra. }
  assert (H52 : bpow 2 (e + 52) = (bpow 2 e * 4503599627370496)%R).
  { rewrite bpow_add // (bpow_Z 2 52) //. }
  destruct (Rle_or_lt (bpow 2 (e + 52)) w) as [Hlo|Hlo].
  - assert (k = e + 52) as ->.
    { apply (bpow_unique 2 ltac:(lia) w); [done|]. replace (e + 52 + 1) with (e + 53) by lia. lra. }
    replace (Z.max (e + 52 - 52) (-1074)) with e by lia.
    destruct (scale_down 2 n d e) as [n' d'] eqn:Hs.
    rewrite (round_scaled n d e (Zpos m) n' d') //; [|fold w M; nra].
    rewrite (proj2 (Z.eqb_neq _ _)); [|lia]. rewrite (proj2 (Z.leb_le _ _)); [done|lia].
  - assert (Zpos m = 4503599627370496) as Hmin.
    { destruct (Z.eq_dec (Zpos m) 4503599627370496) as [?|Hne]; [done|exfalso].
      assert (4503599627370497 <= M)%R by (apply IZR_le; lia). nra. }
    assert (HM' : M = 4503599627370496%R) by (rewrite /M Hmin; done).
    assert (H51 : bpow 2 (e + 51) = (bpow 2 e * 2251799813685248)%R).
    { rewrite bpow_add // (bpow_Z 2 51) //. }
    assert (k = e + 51) as ->.
    { apply (bpow_unique 2 ltac:(lia) w); [done|]. replace (e + 51 + 1) with (e + 52) by lia. nra. }
    destruct (Z.eq_dec e (-1074)) as [Hmine|Hmine].
    + replace (Z.max (e + 51 - 52) (-1074)) with e by lia.
      destruct (scale_down 2 n d e) as [n' d'] eqn:Hs.
      rewrite (round_scaled n d e (Zpos m) n' d') //; [|fold w M; nra].
      rewrite (proj2 (Z.eqb_neq _ _)); [|lia]. rewrite (proj2 (Z.leb_le _ _)); [done|lia].
    + replace (Z.max (e + 51 - 52) (-1074)) with (e - 1) by lia.
      destruct (scale_down 2 n d (e - 1)) as [n' d'] eqn:Hs.
      assert (Hhalf : bpow 2 e = (2 * bpow 2 (e - 1))%R).
      { pose proof (bpow_add 2 ltac:(lia) 1 (e - 1)) as Ha.
        replace (1 + (e - 1)) with e in Ha by lia. rewrite Ha (bpow_Z 2 1) //. }
      rewrite (round_scaled n d (e - 1) 9007199254740992 n' d') //; [|fold w; nra].
      simpl Z.eqb. replace (e - 1 + 1) with e by lia.
      rewrite Hmin in Hm. injection Hmin as ->. rewrite (proj2 (Z.leb_le _ _)); [done|lia].
Qed.

(** ** Seventeen decimal digits *)

Lemma digits17_scaled n d x n' d' :
  0 < d → scale_down 10 n d (x - 16) = (n', d') →
  (bpow 10 x <= rat n d < bpow 10 (x + 1))%R →
  let q := round_half_even n' d' in
  10 ^ 16 <= q <= 10 ^ 17 ∧
  (Rabs (IZR q * bpow 10 (x - 16) - rat n d) <= rat n d * (1 / 2) * bpow 10 (-16))%R.
Proof.
  intros Hd Hs [Hlo Hhi]. destruct (scale_down_spec 10 ltac:(lia) _ _ _ _ _ Hd Hs) as [Hd' Hr].
  pose proof (round_half_even_error n' d' Hd') as He. rewrite Hr in He.
  set (q := round_half_even n' d') in *. cbv zeta.
  pose proof (bpow_opp 10 ltac:(lia) (x - 16)) as Ho.
  pose proof (bpow_pos 10 ltac:(lia) (x - 16)) as HP.
  pose proof (bpow_pos 10 ltac:(lia) (- (x - 16))) as Hy.
  assert (Hx : bpow 10 x = (bpow 10 (x - 16) * 10000000000000000)%R).
  { replace x with (x - 16 + 16) at 1 by lia. by rewrite bpow_add // (bpow_Z 10 16). }
  assert (Hx1 : bpow 10 (x + 1) = (bpow 10 (x - 16) * 100000000000000000)%R).
  { replace (x + 1) with (x - 16 + 17) at 1 by lia. by rewrite bpow_add // (bpow_Z 10 17). }
  rewrite Hx in Hlo. rewrite Hx1 in Hhi. rewrite (bpow_inv 10 ltac:(lia) 16) //.
  change (10 ^ 16) with 10000000000000000. change (10 ^ 17) with 100000000000000000.
  revert Ho HP Hy He Hlo Hhi. generalize (bpow 10 (x - 16)), (bpow 10 (- (x - 16))), (rat n d).
  clear. intros P y v Ho HP Hy He Hlo Hhi.
  assert (-(1/2) <= IZR q - v * y <= 1/2)%R as [He1 He2].
  { revert He. rewrite /Rabs. destruct (Rcase_abs _); lra. }
  apply (Rmult_le_compat_r y) in Hlo; [|lra]. apply (Rmult_lt_compat_r y) in Hhi; [|lra].
  replace (P * 10000000000000000 * y)%R with ((P * y) * 10000000000000000)%R in Hlo by ring.
  replace (P * 100000000000000000 * y)%R with ((P * y) * 100000000000000000)%R in Hhi by ring.
  rewrite Ho in Hlo Hhi. split; [split|].
  - assert (10000000000000000 - 1 < q); [|lia]. apply lt_IZR. rewrite minus_IZR. lra.
  - assert (q < 100000000000000000 + 1); [|lia]. apply lt_IZR. rewrite plus_IZR. lra.
  - assert (Hv : v = (P * (v * y))%R) by (rewrite (Rmult_comm v) -Rmult_assoc Ho; ring).
    assert (IZR q * P - v = P * (IZR q - v * y))%R as -> by lra.
    apply Rabs_le. nra.
Qed.

Lemma digits17_spec n d :
  0 < d → (bpow 10 (-332) <= rat n d < bpow 10 309)%R →
  ∃ Q X, digits17 n d = (Q, X) ∧ 10 ^ 16 <= Q < 10 ^ 17 ∧ -332 <= X <= 309 ∧
    (Rabs (IZR Q * bpow 10 (X - 16) - rat n d) <= rat n d * (1 / 2) * bpow 10 (-16))%R.
Proof.
  intros Hd [Hlo Hhi]. rewrite /digits17.
  assert (Hfind : let x := if n <? d * 10 ^ 10 then find_exp 341 10 n d 9 else find_exp 640 10 n d 308 in
    (bpow 10 x <= rat n d < bpow 10 (x + 1))%R ∧ -332 <= x <= 308).
  { destruct (Z.ltb_spec n (d * 10 ^ 10)) as [Hsmall|_].
    - destruct (find_exp_spec 10 ltac:(lia) 341 n d 9 Hd) as [Hx Hrange]; [|done|split; [done|lia]].
      apply IZR_lt in Hsmall, Hd. rewrite mult_IZR in Hsmall. rewrite (bpow_Z 10 10) // /rat.
      apply (Rmult_lt_reg_r (IZR d)); [lra|]. field_simplify; lra.
    - destruct (find_exp_spec 10 ltac:(lia) 640 n d 308 Hd Hhi Hlo) as [Hx Hrange]. split; [done|lia]. }
  set (x := if n <? d * 10 ^ 10 then _ else _) in *. cbv zeta in Hfind |- *. destruct Hfind as [Hx Hrange].
  destruct (scale_down 10 n d (x - 16)) as [n' d'] eqn:Hs.
  destruct (digits17_scaled n d x n' d' Hd Hs Hx) as [Hq Herr].
  set (q := round_half_even n' d') in *.
  destruct (Z.eqb_spec q (10 ^ 17)) as [Heq|Hne].
  - exists (10 ^ 16), (x + 1). split; [done|]. split; [lia|]. split; [lia|].
    replace (IZR (10 ^ 16) * bpow 10 (x + 1 - 16))%R with (IZR q * bpow 10 (x - 16))%R; [done|].
    rewrite Heq. replace (x + 1 - 16) with (1 + (x - 16)) by lia.
    rewrite bpow_add // (bpow_Z 10 1) // -Rmult_assoc -mult_IZR. done.
  - exists q, x. split; [done|]. split; [lia|]. split; [lia|done].
Qed.

(** A normal double is in the range of [digits17], and its seventeen digits are
    closer to it than half a unit in the last place. *)
Lemma ratio_of_spec m e n d :
  ratio_of m e = (n, d) → 0 < n ∧ 0 < d ∧ rat n d = (IZR (Zpos m) * bpow 2 e)%R.
Proof.
  rewrite /ratio_of /rat. destruct (Z.leb_spec 0 e) as [He|He]; intros [= <- <-].
  - assert (0 < 2 ^ e) by (apply Z.pow_pos_nonneg; lia). split; [lia|]. split; [lia|].
    rewrite mult_IZR (bpow_Z 2 e He). field.
  - assert (0 < 2 ^ (- e)) by (apply Z.pow_pos_nonneg; lia). split; [lia|]. split; [lia|].
    rewrite -{2}(Z.opp_involutive e) bpow_inv; [|lia..]. done.
Qed.

Lemma normal_range m e :
  normal m e → (bpow 10 (-332) <= IZR (Zpos m) * bpow 2 e < bpow 10 309)%R.
Proof.
  intros [Hm He]. pose proof (bpow_pos 2 ltac:(lia) e) as Hpe.
  pose proof (bpow_le 2 ltac:(lia) (-1074) e ltac:(lia)) as Hlo.
  pose proof (bpow_le 2 ltac:(lia) e 971 ltac:(lia)) as Hhi.
  assert (H1 : (1 <= IZR (Zpos m))%R) by (apply IZR_le; lia).
  assert (H2 : (IZR (Zpos m) <= IZR (2 ^ 53))%R) by (apply IZR_le; lia).
  split.
  - apply Rle_trans with (bpow 2 (-1074)); [|nra].
    rewrite (bpow_inv 10 ltac:(lia) 332) // (bpow_inv 2 ltac:(lia) 1074) //.
    apply Rinv_le_contravar; [apply IZR_lt; by vm_compute|].
    (* 2^1074 <= 10^332 *)
    apply IZR_le. by vm_compute.
  - apply Rle_lt_trans with (IZR (2 ^ 53) * bpow 2 971)%R.
    + apply Rmult_le_compat; lra.
    + rewrite (bpow_Z 2 971) // (bpow_Z 10 309) // -mult_IZR. apply IZR_lt. by vm_compute.
Qed.

(** ** Digits in text *)

Lemma digits_value_acc b l acc :
  fold_left (λ acc c, acc * b + hex_char_to_int c) l acc =
  acc * b ^ Z.of_nat (length l) + digits_value b l.
Proof.
  rewrite /digits_value. revert acc. induction l as [|c l IH]; intros acc.
  - cbn [fold_left length]. change (Z.of_nat 0) with 0. rewrite Z.pow_0_r. lia.
  - cbn [fold_left length]. rewrite (IH (acc * b + _)) (IH (0 * b + _)).
    rewrite Nat2Z.inj_succ Z.pow_succ_r; [|lia]. ring.
Qed.
Lemma digits_value_app b l1 l2 :
  digits_value b (l1 ++ l2) = digits_value b l1 * b ^ Z.of_nat (length l2) + digits_value b l2.
Proof. by rewrite {1}/digits_value fold_left_app digits_value_acc. Qed.

Lemma digit_byte k : 0 <= k < 10 → hex_char_to_int (to_byte (uchar "0" + k)) = k.
Proof.
  intros Hk. assert (k = 0 ∨ k = 1 ∨ k = 2 ∨ k = 3 ∨ k = 4 ∨ k = 5 ∨ k = 6 ∨ k = 7 ∨ k = 8 ∨ k = 9)
    as Hc by lia. by repeat destruct Hc as [->|Hc]; [..|subst k].
Qed.

Lemma dec_digits_value n z : 0 <= z → digits_value 10 (dec_digits n z) = z mod 10 ^ Z.of_nat n.
Proof.
  revert z. induction n as [|n IH]; intros z Hz.
  - cbn [dec_digits]. rewrite Z.mod_1_r. done.
  - cbn [dec_digits]. rewrite digits_value_app IH; [|by apply Z.div_pos].
    change (Z.of_nat (length [_])) with 1. rewrite Nat2Z.inj_succ Z.pow_succ_r; [|lia].
    rewrite Z.rem_mul_r; [|lia|apply Z.pow_pos_nonneg; lia].
    rewrite /digits_value. cbn [fold_left]. rewrite digit_byte; [|by apply Z.mod_pos_bound].
    change (10 ^ 1) with 10. lia.
Qed.

Lemma dec_digits_head n z :
  ∃ ds, dec_digits (S n) z = to_byte (uchar "0" + (z / 10 ^ Z.of_nat n) mod 10) :: ds.
Proof.
  revert z. induction n as [|n IH]; intros z.
  - exists []. cbn [dec_digits app]. change (10 ^ Z.of_nat 0) with 1. by rewrite Z.div_1_r.
  - destruct (IH (z / 10)) as [ds Hds]. exists (ds ++ [to_byte (uchar "0" + z mod 10)]).
    cbn [dec_digits] in Hds |- *. rewrite Hds. cbn [app]. do 4 f_equal.
    rewrite Nat2Z.inj_succ Z.pow_succ_r; [|lia]. rewrite Z.div_div; [done|lia|].
    apply Z.pow_pos_nonneg; lia.
Qed.

Lemma strip_zeros_spec s : ∃ k, s = strip_zeros s ++ replicate k "0"%byte.
Proof.
  induction s as [|c s [k IH]]; [by exists O|]. simpl.
  destruct (strip_zeros s) as [|c' s'] eqn:Hs; simpl in IH.
  - case_decide as Hc.
    + subst c. exists (S k). by rewrite IH.
    + exists k. by rewrite IH.
  - exists k. by rewrite {1}IH.
Qed.
Lemma digits_value_zeros k : digits_value 10 (replicate k "0"%byte) = 0.
Proof.
  induction k as [|k IH]; [done|]. change (replicate (S k) _) with (["0"%byte] ++ replicate k "0"%byte).
  rewrite digits_value_app IH. done.
Qed.

(** ** Reading a number *)

Abbreviation digits := (Forall (λ c, isdigit c = true)).
Definition point_text (f : bytes) : bytes := match f with [] => [] | _ => "."%byte :: f end.
Definition exp_text (ex : option Z) : bytes :=
  match ex with None => [] | Some x => "e"%byte :: format_exp x end.
Definition num_text (a f : bytes) (ex : option Z) : bytes := a ++ point_text f ++ exp_text ex.

Lemma digits_nonul ds : digits ds → nonul ds.
Proof. intros Hd Hin. rewrite Forall_forall in Hd. by specialize (Hd _ Hin). Qed.
Lemma span_app a r : digits a → isdigit (hd_c r) = false → span isdigit (a ++ r) = (a, r).
Proof.
  induction 1 as [|c a Hc Ha IH]; intros Hr; simpl.
  - destruct r as [|c r]; [done|]. simpl. rewrite /hd_c /at_c /= in Hr. by rewrite Hr.
  - by rewrite Hc IH.
Qed.

(** What may follow the digits of a mantissa or of an exponent. *)
Lemma ends_facts r : ends_value r → isdigit (hd_c r) = false ∧ hd_c r ≠ "."%byte ∧
  hd_c r ≠ "e"%byte ∧ hd_c r ≠ "E"%byte ∧ hd_c r ≠ "x"%byte ∧ hd_c r ≠ "X"%byte.
Proof.
  rewrite /ends_value. generalize (hd_c r). intros c Hc.
  repeat (apply elem_of_cons in Hc as [->|Hc]; [done|]). by apply elem_of_nil in Hc.
Qed.

Lemma scan_mantissa_text a f r :
  a ≠ [] → digits a → digits f → isdigit (hd_c r) = false → hd_c r ≠ "."%byte →
  scan_mantissa isdigit (a ++ point_text f ++ r) = Some (a ++ f, Z.of_nat (length f), r).
Proof.
  intros Hne Ha Hf Hr Hdot. rewrite /scan_mantissa. destruct f as [|c f]; cbn [point_text app].
  - rewrite span_app // decide_False //. rewrite bool_decide_false; [|naive_solver].
    by rewrite bool_decide_false // app_nil_r.
  - rewrite span_app //. case_decide as Hx; [|by destruct Hx]. cbn [tail].
    rewrite (span_app (c :: f)) //. rewrite bool_decide_false; [|naive_solver].
    by rewrite bool_decide_true.
Qed.

Lemma scan_exponent_text ex r :
  ends_value r → match ex with Some x => Z.abs x < 1000 | None => True end →
  scan_exponent "e" "E" (exp_text ex ++ r) = (default 0 ex, r).
Proof.
  intros Hr Hx. destruct (ends_facts r Hr) as (Hd & _ & He & HE & _). rewrite /scan_exponent.
  destruct ex as [x|]; cbn [exp_text app].
  - rewrite bool_decide_true; [|by left]. cbn [tail].
    set (k := if Z.abs x <? 100 then 2%nat else 3%nat).
    assert (Hds : span isdigit (dec_digits k (Z.abs x) ++ r) = (dec_digits k (Z.abs x), r)).
    { apply span_app; [apply isdigit_dec_digits|done]. }
    assert (Hval : digits_value 10 (dec_digits k (Z.abs x)) = Z.abs x).
    { rewrite dec_digits_value; [|lia]. apply Z.mod_small. rewrite /k.
      destruct (Z.ltb_spec (Z.abs x) 100); simpl; lia. }
    assert (Hne : dec_digits k (Z.abs x) ≠ []).
    { intros Hn. pose proof (length_dec_digits k (Z.abs x)) as Hl. rewrite Hn in Hl.
      rewrite /k in Hl. by destruct (Z.abs x <? 100). }
    rewrite /format_exp. fold k. rewrite -(assoc_L (++)).
    destruct (Z.ltb_spec x 0); cbn [app]; rewrite /= ?Hds bool_decide_false // Hval; f_equal; lia.
  - rewrite bool_decide_false //. naive_solver.
Qed.

Lemma exp_head ex r : ends_value r →
  isdigit (hd_c (exp_text ex ++ r)) = false ∧ hd_c (exp_text ex ++ r) ≠ "."%byte ∧
  hd_c (exp_text ex ++ r) ≠ "x"%byte ∧ hd_c (exp_text ex ++ r) ≠ "X"%byte.
Proof. intros Hr. destruct ex; [done|]. apply ends_facts in Hr. naive_solver. Qed.

(** A number starts with a digit that no hexadecimal marker follows. *)
Lemma num_text_head a f ex r :
  a ≠ [] → digits a → ends_value r →
  ∃ c s, num_text a f ex ++ r = c :: s ∧ isdigit c = true ∧ hd_c s ≠ "x"%byte ∧ hd_c s ≠ "X"%byte.
Proof.
  intros Hne Ha Hr. destruct a as [|c a]; [done|]. apply Forall_cons in Ha as [Hc Ha].
  exists c, (a ++ point_text f ++ exp_text ex ++ r).
  rewrite /num_text -!(assoc_L (++)) /=. split; [done|]. split; [done|].
  destruct a as [|c2 a].
  - destruct f as [|c3 f]; [|done]. simpl. apply (exp_head ex) in Hr. naive_solver.
  - apply Forall_cons in Ha as [Hc2 _]. rewrite /hd_c /at_c /=.
    clear -Hc2. revert c2 Hc2. by_bytes.
Qed.

Lemma no_words c s : isdigit c = true → hd_c s ≠ "x"%byte → hd_c s ≠ "X"%byte →
  has_word (bs "infinity") (c :: s) = false ∧ has_word (bs "inf") (c :: s) = false ∧
  has_word (bs "nan") (c :: s) = false ∧ has_word (bs "0x") (c :: s) = false.
Proof.
  intros Hc Hx HX.
  assert (Hi : to_lower c ≠ "i"%byte ∧ to_lower c ≠ "n"%byte).
  { clear -Hc. revert c Hc. by_bytes. }
  assert (Hx2 : ∀ b, to_lower b = "x"%byte → b = "x"%byte ∨ b = "X"%byte) by by_bytes.
  destruct Hi as [Hi1 Hi2].
  rewrite /has_word /=. split_and!; apply bool_decide_eq_false; [by intros [= ?]..|].
  destruct s as [|c2 s]; simpl; [done|]. intros [= _ Hl]. apply Hx2 in Hl. naive_solver.
Qed.

Lemma strtod_body_text sign a f ex r :
  a ≠ [] → digits a → digits f → ends_value r →
  match ex with Some x => Z.abs x < 1000 | None => True end →
  strtod_body sign (num_text a f ex ++ r) =
  let '(x, er) := finish_number sign (digits_value 10 (a ++ f)) 10
                    (default 0 ex - Z.of_nat (length f)) in Some (x, r, er).
Proof.
  intros Hne Ha Hf Hr Hex.
  destruct (num_text_head a f ex r Hne Ha Hr) as (c & s & Hcs & Hc & Hx & HX).
  destruct (no_words c s Hc Hx HX) as (Hw1 & Hw2 & Hw3 & Hw4).
  rewrite /strtod_body Hcs Hw1 Hw2 Hw3 Hw4 -Hcs /num_text -!(assoc_L (++)).
  destruct (exp_head ex r Hr) as (Hd & Hdot & _).
  rewrite scan_mantissa_text // scan_exponent_text //.
Qed.

(** The value that a number text denotes. *)
Lemma pow_ratio_spec M E n d :
  0 < M → pow_ratio M 10 E = (n, d) → 0 < n ∧ 0 < d ∧ rat n d = (IZR M * bpow 10 E)%R.
Proof.
  intros HM. rewrite /pow_ratio /rat. destruct (Z.leb_spec 0 E) as [HE|HE]; intros [= <- <-].
  - assert (0 < 10 ^ E) by (apply Z.pow_pos_nonneg; lia). split; [nia|]. split; [lia|].
    rewrite mult_IZR (bpow_Z 10 E HE). field.
  - assert (0 < 10 ^ (- E)) by (apply Z.pow_pos_nonneg; lia). split; [lia|]. split; [lia|].
    rewrite -{2}(Z.opp_involutive E) bpow_inv; [|lia..]. done.
Qed.

Lemma finish_number_near sign m e M E :
  normal m e → 0 < M →
  (Rabs (IZR M * bpow 10 E - IZR (Zpos m) * bpow 2 e)
   <= IZR (Zpos m) * bpow 2 e * (1 / 2) * bpow 10 (-16))%R →
  finish_number sign M 10 E = (S754_finite sign m e, false).
Proof.
  intros Hnorm HM Herr. rewrite /finish_number (proj2 (Z.eqb_neq M 0)); [|lia].
  destruct (pow_ratio M 10 E) as [n d] eqn:Hp.
  destruct (pow_ratio_spec _ _ _ _ HM Hp) as (Hn & Hd & Hr).
  rewrite (round_ratio_near sign m e n d) //.
  - destruct Hnorm as [Hm _]. cbn [is_subnormal]. by rewrite (proj2 (Z.ltb_ge _ _)); [|lia].
  - rewrite Hr. eapply Rle_lt_trans; [exact Herr|].
    rewrite (bpow_inv 10 ltac:(lia) 16) // (bpow_inv 2 ltac:(lia) 54) //.
    change (10 ^ 16) with 10000000000000000. change (2 ^ 54) with 18014398509481984.
    assert (0 < IZR (Zpos m) * bpow 2 e)%R.
    { apply Rmult_lt_0_compat; [by apply IZR_lt|by apply bpow_pos]. }
    lra.
Qed.

(** ** The text of a number *)

(** A leading zero is followed by a point. *)
Definition lead_ok (a f : bytes) : Prop := hd_c a ≠ "0"%byte ∨ (a = ["0"%byte] ∧ f ≠ []).

(** [t] is a number text for [Q * 10^K]. *)
Definition num_text_of (t : bytes) (Q K : Z) : Prop := ∃ a f ex,
  t = num_text a f ex ∧ a ≠ [] ∧ digits a ∧ digits f ∧ lead_ok a f ∧
  match ex with Some x => Z.abs x < 1000 | None => True end ∧
  0 < digits_value 10 (a ++ f) ∧
  (IZR (digits_value 10 (a ++ f)) * bpow 10 (default 0 ex - Z.of_nat (length f))%Z
   = IZR Q * bpow 10 K)%R.

(** Trailing zeros of the fraction do not change the value. *)
Lemma strip_value a f0 ex Q K :
  0 < Q → digits_value 10 (a ++ f0) = Q → default 0 ex - Z.of_nat (length f0) = K →
  let f := strip_zeros f0 in
  0 < digits_value 10 (a ++ f) ∧
  (IZR (digits_value 10 (a ++ f)) * bpow 10 (default 0 ex - Z.of_nat (length f))%Z
   = IZR Q * bpow 10 K)%R.
Proof.
  intros HQ0 HQ HK f. destruct (strip_zeros_spec f0) as [k Hf0]. fold f in Hf0.
  assert (Hval : Q = digits_value 10 (a ++ f) * 10 ^ Z.of_nat k).
  { rewrite -HQ {1}Hf0 (assoc_L (++)) digits_value_app digits_value_zeros length_replicate. lia. }
  assert (Hlen : length f0 = (length f + k)%nat) by by rewrite {1}Hf0 length_app length_replicate.
  assert (Hp : 0 < 10 ^ Z.of_nat k) by (apply Z.pow_pos_nonneg; lia).
  split; [nia|]. rewrite Hval mult_IZR -bpow_Z; [|lia].
  replace (default 0 ex - Z.of_nat (length f)) with (Z.of_nat k + K) by lia.
  rewrite bpow_add //. ring.
Qed.

Lemma digits_strip f : digits f → digits (strip_zeros f).
Proof.
  intros Hf. destruct (strip_zeros_spec f) as [k Hk]. rewrite Hk in Hf.
  by apply Forall_app in Hf as [? _].
Qed.

Lemma num_text_of_strip a f0 ex Q K :
  0 < Q → a ≠ [] → digits a → digits f0 →
  lead_ok a (strip_zeros f0) →
  match ex with Some x => Z.abs x < 1000 | None => True end →
  digits_value 10 (a ++ f0) = Q → default 0 ex - Z.of_nat (length f0) = K →
  num_text_of (a ++ with_point f0 ++ exp_text ex) Q K.
Proof.
  intros HQ0 Hne Ha Hf Hlead Hex HQ HK. exists a, (strip_zeros f0), ex.
  destruct (strip_value a f0 ex Q K HQ0 HQ HK) as [Hpos Hval].
  assert (with_point f0 = point_text (strip_zeros f0)) as ->.
  { rewrite /with_point. by destruct (strip_zeros f0). }
  pose proof (digits_strip _ Hf). by split_and!.
Qed.

Lemma format_pos_text n d Q X :
  digits17 n d = (Q, X) → 10 ^ 16 <= Q < 10 ^ 17 → -332 <= X <= 309 →
  num_text_of (format_pos n d) Q (X - 16).
Proof.
  intros Hq HQ HX. rewrite /format_pos Hq.
  assert (HQ0 : 0 < Q) by lia.
  pose proof (isdigit_dec_digits 17 Q) as Hds. pose proof (length_dec_digits 17 Q) as Hlen.
  assert (Hval : digits_value 10 (dec_digits 17 Q) = Q).
  { rewrite dec_digits_value; [|lia]. apply Z.mod_small. lia. }
  destruct (dec_digits_head 16 Q) as [ds' Hhd].
  assert (Hh : to_byte (uchar "0" + Q / 10 ^ Z.of_nat 16 mod 10) ≠ "0"%byte).
  { change (Z.of_nat 16) with 16. assert (1 <= Q / 10 ^ 16 < 10).
    { split; [apply Z.div_le_lower_bound; lia|apply Z.div_lt_upper_bound; lia]. }
    rewrite Z.mod_small; [|lia]. intros H0%(f_equal hex_char_to_int).
    rewrite digit_byte in H0; [|lia]. change (hex_char_to_int "0") with 0 in H0. lia. }
  revert Hds Hlen Hval Hhd. generalize (dec_digits 17 Q). intros ds Hds Hlen Hval Hhd.
  assert (Hlead : ∀ k, (0 < k)%nat → hd_c (take k ds) ≠ "0"%byte).
  { intros [|k] Hk; [lia|]. by rewrite Hhd. }
  assert (Hsplit : ∀ k, digits (take k ds) ∧ digits (drop k ds)).
  { intros k. by apply Forall_app; rewrite take_drop. }
  destruct ((X <? -4) || (17 <=? X)) eqn:E1; [|destruct (Z.ltb_spec X 0) as [E2|E2]].
  - apply (num_text_of_strip (take 1 ds) (drop 1 ds) (Some X)); try done; try apply Hsplit.
    + by rewrite Hhd.
    + left. apply Hlead. lia.
    + lia.
    + by rewrite take_drop.
    + rewrite length_drop Hlen. simpl. lia.
  - apply orb_false_elim in E1 as [E1 _]. apply Z.ltb_ge in E1.
    rewrite -(app_nil_r (with_point _)).
    apply (num_text_of_strip ["0"%byte] _ None); try done.
    + by constructor.
    + apply Forall_app. split; [|done]. apply Forall_replicate. done.
    + right. split; [done|]. intros Hs.
      destruct (strip_zeros_spec (replicate (Z.to_nat (- X - 1)) "0"%byte ++ ds)) as [k Hk].
      rewrite Hs in Hk. apply (f_equal (digits_value 10)) in Hk.
      rewrite digits_value_zeros digits_value_app Hval digits_value_zeros in Hk. lia.
    + change (["0"%byte] ++ replicate (Z.to_nat (- X - 1)) "0"%byte ++ ds)
        with (replicate (S (Z.to_nat (- X - 1))) "0"%byte ++ ds).
      rewrite digits_value_app Hval digits_value_zeros. lia.
    + rewrite length_app length_replicate Hlen. simpl. lia.
  - apply orb_false_elim in E1 as [_ E1]. apply Z.leb_gt in E1.
    rewrite -(app_nil_r (with_point _)).
    apply (num_text_of_strip (take (Z.to_nat (X + 1)) ds) _ None); try done; try apply Hsplit.
    + intros Hn. apply (f_equal length) in Hn. rewrite length_take Hlen /= in Hn. lia.
    + left. apply Hlead. lia.
    + by rewrite take_drop.
    + rewrite length_drop Hlen. simpl. lia.
Qed.

(** ** [is_decimal] accepts it *)

Definition plain (c : byte) : Prop := c ≠ "x"%byte ∧ c ≠ "X"%byte ∧ c ≠ x00.

Lemma no_hex_marker_plain t r n :
  Forall plain t → (n <= length t)%nat → no_hex_marker (t ++ r) n = true.
Proof.
  intros Ht. induction n as [|n IH]; intros Hn; [done|]. simpl.
  destruct (lookup_lt_is_Some_2 t n ltac:(lia)) as [c Hc].
  assert (at_c (t ++ r) n = c) as ->.
  { rewrite /at_c lookup_app_l; [by rewrite Hc|lia]. }
  rewrite Forall_forall in Ht. destruct (Ht c) as (? & ? & ?); [by eapply list_elem_of_lookup_2|].
  rewrite bool_decide_false; [apply IH; lia|naive_solver].
Qed.

Lemma plain_digits s : digits s → Forall plain s.
Proof. intros Hs. eapply Forall_impl; [exact Hs|]. cbv beta. rewrite /plain. by_bytes. Qed.

Lemma plain_num_text a f ex : digits a → digits f → Forall plain (num_text a f ex).
Proof.
  intros Ha Hf. rewrite /num_text !Forall_app. split; [by apply plain_digits|]. split.
  - destruct f; [done|]. constructor; [done|]. by apply plain_digits.
  - destruct ex as [x|]; [|done]. constructor; [done|]. rewrite /format_exp.
    apply Forall_app. split; [constructor; [by destruct (x <? 0)|done]|].
    apply plain_digits, isdigit_dec_digits.
Qed.

(** After a leading zero comes a point. *)
Lemma num_text_lead a f ex r :
  a ≠ [] → lead_ok a f → hd_c (num_text a f ex ++ r) = "0"%byte →
  at_c (num_text a f ex ++ r) 1 = "."%byte.
Proof.
  intros Hne [Hl|[-> Hf]]; [by destruct a|]. intros _. by destruct f.
Qed.

Lemma strncmp_head s1 s2 n : strncmp_eq s1 s2 (S n) = true → hd_c s1 = hd_c s2.
Proof. cbn [strncmp_eq]. by destruct (decide (hd_c s1 = hd_c s2)). Qed.

Definition sign_text (s : bool) : bytes := if s then ["-"%byte] else [].

Lemma is_decimal_text (s : bool) a f ex r :
  a ≠ [] → digits a → digits f → lead_ok a f →
  is_decimal (sign_text s ++ num_text a f ex ++ r) (length (sign_text s ++ num_text a f ex)) = true.
Proof.
  intros Hne Ha Hf Hl. set (t := num_text a f ex).
  pose proof (num_text_lead a f ex r Hne Hl) as Hpt. fold t in Hpt.
  assert (Hhd : ∃ c t', t = c :: t' ∧ isdigit c = true).
  { destruct a as [|c a']; [done|]. apply Forall_cons in Ha as [Hc _]. by eexists c, _. }
  assert (Hp : Forall plain (sign_text s ++ t)).
  { apply Forall_app. split; [destruct s; by repeat constructor|by apply plain_num_text]. }
  destruct Hhd as (c & t' & Ht & Hc).
  assert (Hc' : c ≠ "-"%byte) by (clear -Hc; revert c Hc; by_bytes).
  clearbody t.
  rewrite /is_decimal (assoc_L (++)) no_hex_marker_plain //.
  revert Hpt. rewrite Ht. destruct s; cbn [sign_text app]; intros Hpt.
  - rewrite (bool_decide_false (at_c _ 0 = _)) // andb_false_r /=.
    case_match eqn:Hb; [|done]. exfalso. revert Hb. rewrite andb_true_iff andb_true_iff.
    intros [[_ Hstr] Hdot]. apply negb_true_iff, bool_decide_eq_false in Hdot. apply Hdot.
    change (at_c ("-"%byte :: c :: t' ++ r) 2) with (at_c (c :: t' ++ r) 1). apply Hpt.
    revert Hstr. rewrite /= /hd_c /at_c /=. by case_decide.
  - case_match eqn:Hb; [exfalso|case_match eqn:Hb2; [exfalso|done]].
    + revert Hb. rewrite andb_true_iff andb_true_iff. intros [[_ H0] Hdot].
      apply bool_decide_eq_true in H0. apply negb_true_iff, bool_decide_eq_false in Hdot. auto.
    + revert Hb2. rewrite andb_true_iff andb_true_iff. intros [[_ Hstr] _].
      apply strncmp_head in Hstr. by destruct (Hc' Hstr).
Qed.

(** ** Round trip *)

(** Numbers whose text the parser reads back: zero and the normal numbers. *)
Definition normal_number (x : double) : Prop :=
  match x with
  | S754_zero _ => True
  | S754_finite _ m e => normal m e
  | _ => False
  end.
#[global] Instance normal_dec m e : Decision (normal m e).
Proof. rewrite /normal. apply _. Defined.
#[global] Instance normal_number_dec x : Decision (normal_number x).
Proof. destruct x; simpl; apply _. Defined.

Lemma parse_number_text s a f ex r x :
  a ≠ [] → digits a → digits f → ends_value r →
  is_decimal (sign_text s ++ num_text a f ex ++ r) (length (sign_text s ++ num_text a f ex)) = true →
  match ex with Some x => Z.abs x < 1000 | None => True end →
  finish_number s (digits_value 10 (a ++ f)) 10 (default 0 ex - Z.of_nat (length f)) = (x, false) →
  is_finite x = true →
  parse_number (sign_text s ++ num_text a f ex ++ r) = Some (JNumber x, r).
Proof.
  intros Hne Ha Hf Hr Hdec Hex Hfin Hx.
  pose proof (strtod_body_text s a f ex r Hne Ha Hf Hr Hex) as Hb. rewrite Hfin in Hb.
  assert (Hst : strtod (sign_text s ++ num_text a f ex ++ r) = (x, r, false)).
  { destruct (num_text_head a f ex r Hne Ha Hr) as (c & t & Hct & Hc & _).
    rewrite Hct in Hb |- *. destruct s; cbn [sign_text app].
    - rewrite /strtod skip_ws_cons //. case_decide as Hm; [|by destruct Hm]. by rewrite Hb.
    - assert (Hcf : isspace c = false ∧ c ≠ "-"%byte ∧ c ≠ "+"%byte).
      { clear -Hc. revert c Hc. by_bytes. }
      destruct Hcf as (Hsp & Hm & Hp). rewrite /strtod skip_ws_cons //.
      case_decide; [done|]. case_decide; [done|]. by rewrite Hb. }
  rewrite /parse_number Hst. cbn [orb].
  assert (length (sign_text s ++ num_text a f ex ++ r) - length r =
          length (sign_text s ++ num_text a f ex))%nat as ->.
  { rewrite !length_app. lia. }
  by rewrite Hdec Hx.
Qed.

(** A number is printed and read back unchanged. *)
Lemma normal_number_reads x : normal_number x → number_reads x.
Proof.
  intros Hx r Hr. destruct x as [s|s| |s m e]; try done.
  - replace (format_g17 (S754_zero s) ++ r) with (sign_text s ++ num_text ["0"%byte] [] None ++ r)
      by by destruct s.
    apply parse_number_text; try done; [by constructor|by destruct s].
  - destruct (ratio_of m e) as [n d] eqn:Hrat.
    destruct (ratio_of_spec _ _ _ _ Hrat) as (Hn & Hd & Hv).
    destruct (digits17_spec n d Hd) as (Q & X & Hq & HQ & HX & Herr).
    { rewrite Hv. by apply normal_range. }
    destruct (format_pos_text n d Q X Hq HQ HX) as
      (a & f & ex & Ht & Hne & Ha & Hf & Hl & Hex & Hpos & Hval).
    assert (format_g17 (S754_finite s m e) = sign_text s ++ num_text a f ex) as ->.
    { rewrite /format_g17 Hrat Ht. done. }
    rewrite -(assoc_L (++)). apply (parse_number_text s a f ex); try done.
    + by apply is_decimal_text.
    + apply finish_number_near; [done..|]. rewrite Hval -Hv. done.
Qed.
