(* ===== verification/CDouble.v ===== *)
(** * Integers as doubles

    An [int] is a double without a rounding error, and dividing such a number by 100, as
    the auctions do with percentages, never gives more than the exact quotient when the
    result is truncated. *)
From stdpp Require Import base list numbers option.
From Stdlib Require Import ZArith Lia.
From S2P Require Import Prelude ParsonText CNum JsonSpec JsonRoundTrip CNumProof.
From Stdlib Require Import ssreflect.
Local Open Scope Z_scope.

(** ** Numbers *)

(** An [int] is a normal double without a rounding error. *)
Lemma round_ratio_int s p : Zpos p < 2 ^ 52 → ∃ m e,
  round_ratio s (Zpos p) 1 = S754_finite s m e ∧ normal m e ∧ e < 0 ∧ Zpos m = Zpos p * 2 ^ (- e).
Proof.
  intros Hp. set (k := Z.log2 (Zpos p)).
  pose proof (Z.log2_spec (Zpos p) ltac:(lia)) as [Hlo Hhi]. fold k in Hlo, Hhi.
  assert (Hk : 0 <= k < 52).
  { split; [apply Z.log2_nonneg|]. apply Z.log2_lt_pow2; lia. }
  assert (Hpow : 2 ^ (52 - k) * 2 ^ k = 2 ^ 52) by (rewrite -Z.pow_add_r; [f_equal; lia|lia..]).
  rewrite Z.pow_succ_r in Hhi; last lia.
  assert (Hpos : 0 < 2 ^ (52 - k)) by (apply Z.pow_pos_nonneg; lia).
  assert (Hm : 2 ^ 52 <= Zpos p * 2 ^ (52 - k) < 2 ^ 53) by nia.
  assert (Hexp : exp2_of (Zpos p) 1 = k - 52).
  { unfold exp2_of. fold k. change (Z.log2 1) with 0. rewrite Z.sub_0_r.
    unfold scale_down. rewrite (proj2 (Z.leb_le 0 k)); last lia. rewrite Z.mul_1_l (proj2 (Z.leb_le _ _)) //. lia. }
  unfold round_ratio. rewrite Hexp. unfold scale_down.
  rewrite (proj2 (Z.leb_gt 0 (k - 52))); last lia. replace (- (k - 52)) with (52 - k) by lia.
  assert (Hr : round_half_even (Zpos p * 2 ^ (52 - k)) 1 = Zpos p * 2 ^ (52 - k)).
  { unfold round_half_even. by rewrite Z.mod_1_r Z.div_1_r. }
  rewrite Hr (proj2 (Z.eqb_neq _ _)); last lia.
  destruct (Zpos p * 2 ^ (52 - k)) as [|m|m] eqn:E; [lia| |lia].
  rewrite (proj2 (Z.leb_le _ _)); last lia. exists m, (k - 52).
  replace (- (k - 52)) with (52 - k) by lia. rewrite E. unfold normal. split_and!; lia || done.
Qed.

Lemma double_of_int_spec z : in_int z = true →
  int_of_double (double_of_int z) = Some z ∧ normal_number (double_of_int z) ∧
  is_finite (double_of_int z) = true.
Proof.
  intros Hz. pose proof Hz as Hz'. unfold in_int, INT_MAX in Hz'.
  apply andb_true_iff in Hz' as [H1%Z.leb_le H2%Z.leb_le].
  destruct z as [|p|p]; [done| |]; cbn [double_of_int].
  - destruct (round_ratio_int false p) as (m & e & -> & Hn & He & Hm); [lia|].
    split; [|done]. cbn [int_of_double]. rewrite (proj2 (Z.leb_gt 0 e)); last done.
    rewrite Hm Z.div_mul; last (apply Z.pow_nonzero; lia). by rewrite Hz.
  - destruct (round_ratio_int true p) as (m & e & -> & Hn & He & Hm); [lia|].
    split; [|done]. cbn [int_of_double]. rewrite (proj2 (Z.leb_gt 0 e)); last done.
    rewrite Hm Z.div_mul; last (apply Z.pow_nonzero; lia). by rewrite Hz.
Qed.

(** ** Division *)

Lemma digits2_log2 p : Zpos (digits2_pos p) = Z.log2 (Zpos p) + 1.
Proof.
  induction p as [p IH|p IH|]; cbn [digits2_pos]; rewrite ?Pos2Z.inj_succ ?IH; [| |done].
  - rewrite (Pos2Z.inj_xI p) Z.log2_succ_double; lia.
  - rewrite (Pos2Z.inj_xO p) Z.log2_double; lia.
Qed.
Lemma digits_of m k : 0 <= k → 2 ^ k <= m < 2 ^ (k + 1) → Zdigits2 m = k + 1.
Proof.
  intros Hk Hm. assert (0 < 2 ^ k) by (apply Z.pow_pos_nonneg; lia). destruct m as [|p|p]; [lia| |lia].
  cbn [Zdigits2]. rewrite digits2_log2 (Z.log2_unique (Zpos p) k) //.
Qed.

(** A mantissa of 53 bits is not shifted, one of 54 by one place. *)
Lemma shr_fexp_53 m e l : 2 ^ 52 <= m < 2 ^ 53 → -1074 <= e →
  shr_fexp 53 1024 m e l = (shr_record_of_loc m l, e).
Proof.
  intros Hm He. unfold shr_fexp. rewrite (digits_of m 52) //. unfold fexp, SpecFloat.emin.
  replace (Z.max (52 + 1 + e - 53) (3 - 1024 - 53) - e) with 0 by lia. done.
Qed.
Lemma shr_fexp_54 m e l : 2 ^ 53 <= m < 2 ^ 54 → -1074 <= e →
  shr_fexp 53 1024 m e l = (shr_1 (shr_record_of_loc m l), e + 1).
Proof.
  intros Hm He. unfold shr_fexp. rewrite (digits_of m 53) //. unfold fexp, SpecFloat.emin.
  replace (Z.max (53 + 1 + e - 53) (3 - 1024 - 53) - e) with 1 by lia. done.
Qed.
Lemma shr_m_loc m l : shr_m (shr_record_of_loc m l) = m.
Proof. by destruct l as [|[]]. Qed.
Lemma shr_m_1 m l : 0 < m → shr_m (shr_1 (shr_record_of_loc m l)) = m / 2.
Proof.
  intros Hm. destruct m as [|p|p]; [lia| |lia]. rewrite -Z.div2_div. by destruct l as [|[]], p.
Qed.
Lemma round_even_near m l : m <= round_nearest_even m l <= m + 1.
Proof. destruct l as [|[]]; simpl; try case_match; lia. Qed.

(** The last step of an operation: from 53 or 54 bits to a double that is not more than
    two units of the input above it *)
Lemma round_aux_near q e l : 2 ^ 52 <= q < 2 ^ 54 → -1074 <= e <= 900 → ∃ m k,
  binary_round_aux 53 1024 false q e l = S754_finite false m (e + k) ∧ 0 <= k <= 2 ∧ Zpos m * 2 ^ k <= q + 2.
Proof.
  intros Hq He. unfold binary_round_aux.
  assert (∃ rec k, shr_fexp 53 1024 q e l = (rec, e + k) ∧ 0 <= k <= 1 ∧
            2 ^ 52 <= shr_m rec < 2 ^ 53 ∧ shr_m rec * 2 ^ k <= q) as (rec & k & -> & Hk & Hr & Hle).
  { destruct (Z.lt_ge_cases q (2 ^ 53)).
    - exists (shr_record_of_loc q l), 0. rewrite shr_fexp_53; [|lia..]. rewrite Z.add_0_r shr_m_loc. split_and!; [done|lia..].
    - exists (shr_1 (shr_record_of_loc q l)), 1. rewrite shr_fexp_54; [|lia..]. rewrite shr_m_1; [|lia].
      pose proof (Z.div_mod q 2). pose proof (Z.mod_pos_bound q 2). split_and!; [done|lia..]. }
  pose proof (round_even_near (shr_m rec) (loc_of_shr_record rec)) as Hn.
  set (z := round_nearest_even _ _) in *.
  assert (H2 : 2 ^ k <= 2) by (assert (k = 0 ∨ k = 1) as [-> | ->] by lia; lia).
  assert (0 < 2 ^ k) by (apply Z.pow_pos_nonneg; lia).
  assert (Hz : z * 2 ^ k <= q + 2) by nia.
  destruct (Z.lt_ge_cases z (2 ^ 53)).
  - rewrite shr_fexp_53; [|lia..]. cbn [shr_record_of_loc shr_m]. destruct z as [|m|m]; [lia| |lia].
    exists m, k. rewrite (proj2 (Z.leb_le _ _)); [|lia]. split_and!; [done|lia..].
  - assert (z = 2 ^ 53) as E by lia. rewrite E shr_fexp_54; [|lia..]. exists 4503599627370496%positive, (k + 1).
    cbn [shr_record_of_loc shr_1 shr_m]. rewrite E in Hz. change (2 ^ 53) with (2 ^ 52 * 2) in Hz.
    rewrite (proj2 (Z.leb_le _ _)); [|lia]. rewrite Z.add_assoc. split_and!; [done|lia..|].
    rewrite Z.pow_add_r; [|lia..]. change (2 ^ 1) with 2. lia.
Qed.

(** Dividing by 100 and truncating *)
Lemma div100_floor x : 0 <= x < 2 ^ 32 → ∃ v,
  uint32_of_double (ddiv (double_of_int x) (double_of_int 100)) = Some v ∧ 0 <= 100 * v <= x.
Proof.
  intros Hx. destruct x as [|p|p]; [by exists 0| |lia]. cbn [double_of_int].
  destruct (round_ratio_int false p) as (m & e1 & -> & Hn & He & Hm); [lia|].
  change (round_ratio false 100 1) with (S754_finite false 7036874417766400 (-46)).
  destruct Hn as [Hm53 _].
  assert (He1 : -52 <= e1 <= -21).
  { split.
    - assert (- e1 < 53) by (apply (Z.pow_lt_mono_r_iff 2); nia). lia.
    - assert (52 < 32 + - e1) by (apply (Z.pow_lt_mono_r_iff 2); [lia..|]; rewrite Z.pow_add_r; nia). lia. }
  unfold ddiv. cbn [SFdiv xorb]. unfold SFdiv_core_binary.
  rewrite !(digits_of _ 52); [|lia..]. unfold fexp, SpecFloat.emin.
  replace (Z.min _ (e1 - -46)) with (e1 - 7) by lia. replace (e1 - -46 - (e1 - 7)) with 53 by lia.
  rewrite Z.shiftl_mul_pow2; [|lia]. set (d := 7036874417766400%positive) in *.
  destruct (Z.div_eucl _ _) as [q r] eqn:E.
  assert (Hq : q = Zpos m * 2 ^ 53 / Zpos d) by (unfold Z.div; by rewrite E).
  pose proof (Z.div_mod (Zpos m * 2 ^ 53) (Zpos d) ltac:(lia)) as Hdm.
  pose proof (Z.mod_pos_bound (Zpos m * 2 ^ 53) (Zpos d) ltac:(lia)) as Hr. rewrite -Hq in Hdm.
  assert (Hd : Zpos d = 100 * 2 ^ 46) by done.
  destruct (round_aux_near q (e1 - 7) (new_location (Zpos d) r)) as (z & k & -> & Hk & Hz); [lia..|].
  cbn [uint32_of_double]. rewrite (proj2 (Z.leb_gt 0 _)); [|lia].
  set (u := 2 ^ (- (e1 - 7))). set (w := 2 ^ (- (e1 - 7 + k))). assert (Hu : u = w * 2 ^ k).
  { unfold u, w. rewrite -Z.pow_add_r; [f_equal; lia|lia..]. }
  assert (H28 : 2 ^ 28 <= u) by (apply Z.pow_le_mono_r; lia).
  assert (Hw : 0 < w) by (apply Z.pow_pos_nonneg; lia). assert (0 < 2 ^ k) by (apply Z.pow_pos_nonneg; lia).
  assert (Hpm : Zpos m * 2 ^ 7 = Zpos p * u).
  { rewrite Hm -Z.mul_assoc -Z.pow_add_r; [|lia..]. unfold u. do 2 f_equal. lia. }
  pose proof (Z.mul_div_le (Zpos z) w Hw) as Hv. pose proof (Z.div_pos (Zpos z) w ltac:(lia) Hw) as Hv0.
  set (v := Zpos z / w) in *.
  assert (Hq100 : 100 * q <= Zpos p * u) by nia.
  assert (Hvu : v * u <= q + 2) by nia.
  assert (Hle : 100 * v <= Zpos p) by nia.
  exists v. rewrite (proj2 (Z.ltb_lt _ _)); [|lia]. split; [done|lia].
Qed.
