(* ===== verification/ParsonRep.v ===== *)
(** * Parson: ownership of JSON values

    [vrep p l t]: the blocks reachable from the [JSON_Value] at [l], whose parent
    field is [p], represent the tree [t], and these blocks are exactly what is
    owned.  The file proves the rules of the primitive operations. *)
From stdpp Require Import base list numbers gmap.
From iris.proofmode Require Import proofmode.
From S2P Require Import Prelude CMem SepLogic ParsonText CNum Parson JsonSpec.

Abbreviation hP := (heapPropI block).
Notation "⌜⌜ φ ⌝⌝" := (<affine> ⌜φ⌝)%I : bi_scope.

(** The NUL-terminated string [s] in an owned block. *)
Definition chars (l : loc) (s : bytes) : hP :=
  ∃ sz raw, l ↦ BChars sz raw ∗ ⌜⌜x00 ∈ raw ∧ cstr raw = s⌝⌝.

Definition cells (ls : list loc) : list (option ptr) := (λ l, Some (Some l)) <$> ls.

(** An array of [cap] pointers that starts with [ls]; NULL when [cap] is 0.  Its
    size in bytes is that of an object, so that [2 * cap * sizeof(void * )] does
    not wrap around. *)
Definition slots (p : ptr) (ls : list loc) (cap : nat) : hP :=
  match p with
  | None => ⌜⌜ls = [] ∧ cap = 0⌝⌝
  | Some l => ∃ junk, l ↦ BPtrs (cells ls ++ junk) ∗
      ⌜⌜(length ls + length junk)%nat = cap ∧ 0 < cap ∧ (Z.of_nat cap * sizeof_ptr ≤ PTRDIFF_MAX)%Z⌝⌝
  end%I.

Definition nreps (ns : list loc) (ks : list bytes) : hP := [∗ list] n;k ∈ ns;ks, chars n k.

(** What a tree owns, given the parent field and the address of its value. *)
Abbreviation owner := (ptr → loc → hP).

Definition array_owner (reps : list owner) (w la : loc) : hP :=
  ∃ p cap ls, la ↦ BArray (mkArray (Some w) p (length reps) cap) ∗ slots p ls cap ∗
    [∗ list] l;r ∈ ls;reps, r (Some w) l.

Definition object_owner (reps : list (bytes * owner)) (w lo : loc) : hP :=
  ∃ pn pv cap ns ls, lo ↦ BObject (mkObject (Some w) pn pv (length reps) cap) ∗
    slots pn ns cap ∗ slots pv ls cap ∗ nreps ns reps.*1 ∗
    [∗ list] l;r ∈ ls;reps, r.2 (Some w) l.

Definition vrep (p : ptr) (l : loc) (t : json) : hP :=
  json_fold (A:=owner)
    (λ p l, l ↦ BValue (mkValue p VNull))%I
    (λ b p l, l ↦ BValue (mkValue p (VBoolean (Z.b2z b))))%I
    (λ d p l, l ↦ BValue (mkValue p (VNumber d)))%I
    (λ s p l, ∃ ls, l ↦ BValue (mkValue p (VString (Some ls))) ∗ chars ls s)%I
    (λ reps p l, ∃ la, l ↦ BValue (mkValue p (VArray (Some la))) ∗ array_owner reps l la)%I
    (λ reps p l, ∃ lo, l ↦ BValue (mkValue p (VObject (Some lo))) ∗ object_owner reps l lo)%I
    t p l.

Definition vreps (w : loc) (ls : list loc) (ts : list json) : hP :=
  [∗ list] l;t ∈ ls;ts, vrep (Some w) l t.

(** The array at [la], wrapped by the value [w]. *)
Definition arep (w la : loc) (ts : list json) : hP :=
  ∃ p cap ls, la ↦ BArray (mkArray (Some w) p (length ts) cap) ∗ slots p ls cap ∗ vreps w ls ts.

(** The object at [lo], wrapped by the value [w]. *)
Definition orep (w lo : loc) (kvs : list (bytes * json)) : hP :=
  ∃ pn pv cap ns ls, lo ↦ BObject (mkObject (Some w) pn pv (length kvs) cap) ∗
    slots pn ns cap ∗ slots pv ls cap ∗ nreps ns kvs.*1 ∗ vreps w ls kvs.*2.

Lemma vrep_null p l : vrep p l JNull ⊣⊢ l ↦ BValue (mkValue p VNull).
Proof. done. Qed.
Lemma vrep_bool p l b : vrep p l (JBool b) ⊣⊢ l ↦ BValue (mkValue p (VBoolean (Z.b2z b))).
Proof. done. Qed.
Lemma vrep_number p l d : vrep p l (JNumber d) ⊣⊢ l ↦ BValue (mkValue p (VNumber d)).
Proof. done. Qed.
Lemma vrep_string p l s :
  vrep p l (JString s) ⊣⊢ ∃ ls, l ↦ BValue (mkValue p (VString (Some ls))) ∗ chars ls s.
Proof. done. Qed.

Lemma vrep_array p l ts :
  vrep p l (JArray ts) ⊣⊢
  ∃ la, l ↦ BValue (mkValue p (VArray (Some la))) ∗ arep l la ts.
Proof.
  rewrite {1}/vrep /=. f_equiv=> la. f_equiv. rewrite /array_owner /arep /vreps.
  f_equiv=> q. f_equiv=> cap. f_equiv=> ls.
  rewrite length_map (big_sepL2_fmap_r _ _ _ ts). done.
Qed.

Lemma vrep_object p l kvs :
  vrep p l (JObject kvs) ⊣⊢
  ∃ lo, l ↦ BValue (mkValue p (VObject (Some lo))) ∗ orep l lo kvs.
Proof.
  rewrite {1}/vrep /=. f_equiv=> lo. f_equiv. rewrite /object_owner /orep /vreps.
  f_equiv=> pn. f_equiv=> pv. f_equiv=> cap. f_equiv=> ns. f_equiv=> ls.
  rewrite length_map (big_sepL2_fmap_r _ _ _ kvs) (big_sepL2_fmap_r _ _ _ kvs) /=.
  by rewrite -list_fmap_compose.
Qed.

(** The tag and the payload a tree has in its [JSON_Value]. *)
Definition type_of (t : json) : JSON_Value_Type :=
  match t with
  | JNull => JSONNull | JBool _ => JSONBoolean | JNumber _ => JSONNumber
  | JString _ => JSONString | JArray _ => JSONArray | JObject _ => JSONObject
  end.

(** Every value starts with its header block. *)
Lemma vrep_header p l t :
  vrep p l t ⊢ ∃ v, l ↦ BValue (mkValue p v) ∗ ⌜⌜value_type v = type_of t⌝⌝ ∗
    (∀ p', l ↦ BValue (mkValue p' v) -∗ vrep p' l t).
Proof.
  destruct t.
  - iIntros "$". iSplit; [done|]. by iIntros (?) "$".
  - iIntros "$". iSplit; [done|]. by iIntros (?) "$".
  - iIntros "$". iSplit; [done|]. by iIntros (?) "$".
  - iIntros "(%ls & $ & H)". iSplit; [done|]. iIntros (?) "$". iFrame.
  - iIntros "(%ls & $ & H)". iSplit; [done|]. iIntros (?) "$". iFrame.
  - iIntros "(%ls & $ & H)". iSplit; [done|]. iIntros (?) "$". iFrame.
Qed.

#[global] Opaque vrep.

(** ** Rules of the primitives *)
Section rules.
Context `{Malloc}.

Lemma wp_load_value l v Φ :
  l ↦ BValue v -∗ (l ↦ BValue v -∗ Φ v) -∗ wp (load_value (Some l)) Φ.
Proof.
  iIntros "Hl HΦ". iApply wp_bind. iApply (wp_load with "Hl"). iIntros "Hl".
  iApply wp_ret. by iApply "HΦ".
Qed.
Lemma wp_load_object l o Φ :
  l ↦ BObject o -∗ (l ↦ BObject o -∗ Φ o) -∗ wp (load_object (Some l)) Φ.
Proof.
  iIntros "Hl HΦ". iApply wp_bind. iApply (wp_load with "Hl"). iIntros "Hl".
  iApply wp_ret. by iApply "HΦ".
Qed.
Lemma wp_load_array l a Φ :
  l ↦ BArray a -∗ (l ↦ BArray a -∗ Φ a) -∗ wp (load_array (Some l)) Φ.
Proof.
  iIntros "Hl HΦ". iApply wp_bind. iApply (wp_load with "Hl"). iIntros "Hl".
  iApply wp_ret. by iApply "HΦ".
Qed.
Lemma wp_load_ptrs l s Φ :
  l ↦ BPtrs s -∗ (l ↦ BPtrs s -∗ Φ s) -∗ wp (load_ptrs (Some l)) Φ.
Proof.
  iIntros "Hl HΦ". iApply wp_bind. iApply (wp_load with "Hl"). iIntros "Hl".
  iApply wp_ret. by iApply "HΦ".
Qed.
Lemma wp_load_cstr l s Φ :
  chars l s -∗ (chars l s -∗ Φ s) -∗ wp (load_cstr (Some l)) Φ.
Proof.
  iIntros "(%sz & %raw & Hl & [%Hin <-]) HΦ". iApply wp_bind. iApply (wp_load with "Hl").
  iIntros "Hl". rewrite decide_True //. iApply wp_ret. iApply "HΦ". iExists sz, raw. by iFrame.
Qed.
Lemma wp_free_chars l s Φ : chars l s -∗ Φ () -∗ wp (parson_free (Some l)) Φ.
Proof. iIntros "(%sz & %raw & Hl & _)". iApply (wp_free with "Hl"). Qed.

Lemma cells_app l1 l2 : cells (l1 ++ l2) = cells l1 ++ cells l2.
Proof. apply fmap_app. Qed.
Lemma length_cells l : length (cells l) = length l.
Proof. apply length_fmap. Qed.
Lemma lookup_cells ls i l : ls !! i = Some l → cells ls !! i = Some (Some (Some l)).
Proof. intros Hi. by rewrite /cells list_lookup_fmap Hi. Qed.

Lemma slots_length p ls cap : slots p ls cap ⊢ ⌜length ls ≤ cap⌝.
Proof.
  destruct p as [l|]; simpl.
  - iIntros "(%junk & _ & (%Hl & _))". iPureIntro. lia.
  - iIntros ([-> ->]). done.
Qed.
Lemma slots_null p ls cap : slots p ls cap ⊢ ⌜p = None ↔ cap = 0⌝.
Proof.
  destruct p as [l|]; simpl.
  - iIntros "(%junk & _ & (%Hl & %Hc & _))". iPureIntro. split; [done|lia].
  - iIntros ([-> ->]). done.
Qed.
Lemma slots_prefix p l1 l2 cap : slots p (l1 ++ l2) cap ⊢ slots p l1 cap.
Proof.
  destruct p as [l|]; simpl.
  - iIntros "(%junk & Hl & %Hx)". destruct Hx as [Hl Hc]. iExists (cells l2 ++ junk).
    rewrite cells_app -assoc_L. iFrame. iPureIntro.
    rewrite length_app in Hl. rewrite length_app length_cells. split; [lia|done].
  - iIntros ([Hl ->]). apply app_nil in Hl as [-> _]. done.
Qed.
Lemma slots_take p ls cap n : slots p ls cap ⊢ slots p (take n ls) cap.
Proof. rewrite -{1}(take_drop n ls). apply slots_prefix. Qed.

Lemma wp_get_slot p ls cap i l Φ :
  ls !! i = Some l →
  slots p ls cap -∗ (slots p ls cap -∗ Φ (Some l)) -∗ wp (get_slot p i) Φ.
Proof.
  intros Hi. destruct p as [a|]; simpl.
  - iIntros "(%junk & Hl & %Hp) HΦ". iApply wp_bind. iApply (wp_load_ptrs with "Hl").
    iIntros "Hl". rewrite (lookup_app_l_Some _ _ _ _ (lookup_cells _ _ _ Hi)).
    iApply wp_ret. iApply "HΦ". iExists junk. by iFrame.
  - iIntros ([-> _]). done.
Qed.

Lemma wp_set_slot p ls cap i l Φ :
  i < length ls →
  slots p ls cap -∗ (slots p (<[i:=l]> ls) cap -∗ Φ ()) -∗ wp (set_slot p i (Some l)) Φ.
Proof.
  intros Hi. destruct p as [a|]; simpl.
  - iIntros "(%junk & Hl & %Hp) HΦ". iApply wp_bind. iApply (wp_load_ptrs with "Hl").
    iIntros "Hl". rewrite decide_True; [|rewrite length_app length_cells; lia].
    iApply (wp_store with "Hl"). iIntros "Hl". iApply "HΦ". iExists junk.
    rewrite insert_app_l ?length_cells // /cells list_fmap_insert. iFrame.
    by rewrite length_insert.
  - iIntros ([-> _]). simpl in Hi. lia.
Qed.

(** Writing the first free slot: a pointer, or the NULL of a failed copy. *)
Lemma wp_set_slot_end p ls cap i (q : ptr) Φ :
  length ls = i → i < cap →
  slots p ls cap -∗
  ((if q is Some l then slots p (ls ++ [l]) cap else slots p ls cap) -∗ Φ ()) -∗
  wp (set_slot p i q) Φ.
Proof.
  intros <- Hi. destruct p as [a|]; simpl.
  - iIntros "(%junk & Hl & %Hx) HΦ". destruct Hx as [Hp Hc]. iApply wp_bind. iApply (wp_load_ptrs with "Hl").
    iIntros "Hl". rewrite decide_True; [|rewrite length_app length_cells; lia].
    iApply (wp_store with "Hl"). iIntros "Hl". iApply "HΦ".
    destruct junk as [|j junk]; [simpl in Hp; lia|].
    rewrite insert_app_r_alt ?length_cells // Nat.sub_diag /=.
    destruct q as [l|]; iExists _; iFrame; [|done].
    rewrite cells_app -assoc_L /=. iFrame. iPureIntro.
    rewrite length_app. simpl in *. split; [lia|done].
  - iIntros ([-> ->]). simpl in Hi. lia.
Qed.

Lemma wp_malloc_ptrs n Φ :
  0 < n →
  (∀ r, ⌜if r is None then ∃ k, malloc_ok k (Z.of_nat n * sizeof_ptr) = false else True⌝ →
     (if r is Some _ then slots r [] n else emp) -∗ Φ r) -∗ wp (malloc_ptrs n) Φ.
Proof.
  iIntros (Hn) "HΦ". iApply wp_malloc. iIntros (r Hr) "Hr".
  iApply "HΦ"; [by destruct r|]. destruct r as [l|]; [|done]. simpl.
  iExists _. iFrame. rewrite length_replicate. iPureIntro. lia.
Qed.

Lemma wp_free_slots p ls cap Φ : slots p ls cap -∗ Φ () -∗ wp (parson_free p) Φ.
Proof.
  destruct p as [l|]; simpl.
  - iIntros "(%junk & Hl & _)". iApply (wp_free with "Hl").
  - iIntros "_". iApply wp_free_null.
Qed.

Lemma wp_copy_slots d s ls cap cap' Φ :
  length ls ≤ cap' →
  slots (Some s) ls cap -∗ slots (Some d) [] cap' -∗
  (slots (Some s) ls cap -∗ slots (Some d) ls cap' -∗ Φ ()) -∗
  wp (copy_slots (Some d) (Some s) (length ls)) Φ.
Proof.
  iIntros (Hle) "(%j1 & H1 & %Hx1) (%j2 & H2 & %Hx2) HΦ".
  destruct Hx1 as [Hj1 Hc1], Hx2 as [Hj2 Hc2].
  iApply wp_bind. iApply (wp_load_ptrs with "H1"). iIntros "H1".
  iApply wp_bind. iApply (wp_load_ptrs with "H2"). iIntros "H2".
  simpl in Hj2. rewrite decide_True; [|rewrite length_app length_cells /=; lia].
  iApply (wp_store with "H2"). iIntros "H2".
  rewrite take_app_le ?length_cells // take_ge ?length_cells //.
  iApply ("HΦ" with "[H1]"); iExists _; iFrame; [done|].
  iPureIntro. rewrite length_drop /=. split; [lia|done].
Qed.

(** A loop with an invariant and an early return. *)
Lemma wp_for_each {R} (l : list nat) (body : nat → MP (option R)) (I : nat → hP) (Q : R → hP) a n :
  l = seq a n →
  (∀ i, a ≤ i < a + n → I i ⊢ wp (body i) (λ r, if r is Some v then Q v else I (S i))) →
  I a ⊢ wp (for_each l body) (λ r, if r is Some v then Q v else I (a + n)).
Proof.
  intros -> Hb. iInduction n as [|n IH] forall (a Hb); simpl.
  - iIntros "HI". iApply wp_ret. by rewrite Nat.add_0_r.
  - iIntros "HI". iApply wp_bind.
    iApply (wp_frame_wand with "[HI]"); [iApply (Hb with "HI"); lia|].
    iIntros ([v|]) "HI"; [by iApply wp_ret|].
    iApply (wp_frame_wand with "[HI]"); [iApply ("IH" with "[] HI")|].
    + iPureIntro. intros i Hi. apply Hb. lia.
    + iIntros (r) "Hr". destruct r; [done|]. by rewrite Nat.add_succ_r.
Qed.

Lemma wp_for_range {R} n (body : nat → MP (option R)) (I : nat → hP) (Q : R → hP) :
  (∀ i, i < n → I i ⊢ wp (body i) (λ r, if r is Some v then Q v else I (S i))) →
  I 0 ⊢ wp (for_range n body) (λ r, if r is Some v then Q v else I n).
Proof. intros Hb. apply (wp_for_each _ body I Q 0 n); [done|]. intros i [_ Hi]. by apply Hb. Qed.
End rules.
#[global] Arguments slots : simpl never.
