(* ===== verification/ParsonMemProof.v ===== *)
(** * Parson: specifications of construction, lookup, insertion and destruction *)
From stdpp Require Import base list numbers gmap.
From iris.proofmode Require Import proofmode.
From S2P Require Import Prelude CMem SepLogic ParsonText CNum Parson JsonSpec ParsonRep.

(** Executes a load at the head of a bind, from the named hypothesis. *)
Ltac wp_ld H :=
  iApply wp_bind;
  first [ iApply (wp_load_value with H) | iApply (wp_load_object with H)
        | iApply (wp_load_array with H) | iApply (wp_load_ptrs with H)
        | iApply (wp_load_cstr with H) ];
  iIntros H.

Section proofs.
Context `{Malloc}.

(** ** Accessors *)
Lemma wp_get_type p l t Φ :
  vrep p l t -∗ (vrep p l t -∗ Φ (type_of t)) -∗ wp (json_value_get_type (Some l)) Φ.
Proof.
  iIntros "Hv HΦ". iDestruct (vrep_header with "Hv") as (v) "(Hl & %Ht & Hclose)".
  wp_ld "Hl". iApply wp_ret. rewrite /= Ht. iApply "HΦ". by iApply "Hclose".
Qed.

(** The header of a value whose payload is a pointer. *)
Lemma wp_get_array p l la Φ :
  l ↦ BValue (mkValue p (VArray (Some la))) -∗
  (l ↦ BValue (mkValue p (VArray (Some la))) -∗ Φ (Some la)) -∗
  wp (json_value_get_array (Some l)) Φ.
Proof.
  iIntros "Hl HΦ". iApply wp_bind. wp_ld "Hl". iApply wp_ret. simpl.
  wp_ld "Hl". iApply wp_ret. by iApply "HΦ".
Qed.
Lemma wp_get_object p l lo Φ :
  l ↦ BValue (mkValue p (VObject (Some lo))) -∗
  (l ↦ BValue (mkValue p (VObject (Some lo))) -∗ Φ (Some lo)) -∗
  wp (json_value_get_object (Some l)) Φ.
Proof.
  iIntros "Hl HΦ". iApply wp_bind. wp_ld "Hl". iApply wp_ret. simpl.
  wp_ld "Hl". iApply wp_ret. by iApply "HΦ".
Qed.

(** ** Destruction *)

Lemma wp_array_free_with rec w la ts Φ :
  (∀ l t Ψ, t ∈ ts → vrep (Some w) l t -∗ Ψ () -∗ wp (rec (Some l)) Ψ) →
  arep w la ts -∗ Φ () -∗ wp (json_array_free_with rec (Some la)) Φ.
Proof.
  iIntros (Hrec) "(%q & %cap & %ls & Hla & Hs & Hts) HΦ".
  iDestruct (big_sepL2_length with "Hts") as %Hlen.
  wp_ld "Hla". iApply wp_bind. simpl.
  iApply (wp_frame_wand with "[Hla Hs Hts]").
  { iApply (wp_for_range _ _ (λ i, la ↦ BArray (mkArray (Some w) q (length ts) cap) ∗
      slots q ls cap ∗ vreps w (drop i ls) (drop i ts))%I (λ _, False)%I); last by iFrame.
    iIntros (i Hi) "(Hla & Hs & Hts)".
    destruct (lookup_lt_is_Some_2 ts i Hi) as [t Ht].
    destruct (lookup_lt_is_Some_2 ls i) as [l Hl]; [lia|].
    rewrite (drop_S _ _ _ Ht) (drop_S _ _ _ Hl) /=. iDestruct "Hts" as "[Ht Hts]".
    wp_ld "Hla". iApply wp_bind. iApply (wp_get_slot with "Hs"); [done|]. iIntros "Hs".
    iApply wp_bind. iApply (Hrec with "Ht"); [by eapply list_elem_of_lookup_2|].
    iApply wp_ret. iFrame. }
  iIntros ([[]|]) "HI"; [done|]. iDestruct "HI" as "(Hla & Hs & Hts)".
  rewrite !drop_ge; [|lia..]. wp_ld "Hla".
  iApply wp_bind. iApply (wp_free_slots with "Hs"). iApply (wp_free with "Hla").
  iDestruct "Hts" as "_". done.
Qed.

Lemma wp_object_free_with rec w lo kvs Φ :
  (∀ l t Ψ, t ∈ kvs.*2 → vrep (Some w) l t -∗ Ψ () -∗ wp (rec (Some l)) Ψ) →
  orep w lo kvs -∗ Φ () -∗ wp (json_object_free_with rec (Some lo)) Φ.
Proof.
  iIntros (Hrec) "(%pn & %pv & %cap & %ns & %ls & Hlo & Hn & Hv & Hks & Hts) HΦ".
  iDestruct (big_sepL2_length with "Hks") as %Hlen1.
  iDestruct (big_sepL2_length with "Hts") as %Hlen2.
  rewrite !length_fmap in Hlen1 Hlen2.
  wp_ld "Hlo". iApply wp_bind. simpl.
  iApply (wp_frame_wand with "[Hlo Hn Hv Hks Hts]").
  { iApply (wp_for_range _ _ (λ i,
      lo ↦ BObject (mkObject (Some w) pn pv (length kvs) cap) ∗ slots pn ns cap ∗
      slots pv ls cap ∗ nreps (drop i ns) (drop i kvs).*1 ∗
      vreps w (drop i ls) (drop i kvs).*2)%I (λ _, False)%I); last by iFrame.
    iIntros (i Hi) "(Hlo & Hn & Hv & Hks & Hts)".
    destruct (lookup_lt_is_Some_2 kvs i Hi) as [kv Hkv].
    destruct (lookup_lt_is_Some_2 ls i) as [l Hl]; [lia|].
    destruct (lookup_lt_is_Some_2 ns i) as [n Hnn]; [lia|].
    rewrite (drop_S _ _ _ Hkv) (drop_S _ _ _ Hl) (drop_S _ _ _ Hnn) /=.
    iDestruct "Hts" as "[Ht Hts]". iDestruct "Hks" as "[Hk Hks]".
    wp_ld "Hlo". iApply wp_bind. iApply (wp_get_slot with "Hn"); [done|]. iIntros "Hn".
    iApply wp_bind. iApply (wp_free_chars with "Hk").
    iApply wp_bind. iApply (wp_get_slot with "Hv"); [done|]. iIntros "Hv".
    iApply wp_bind. iApply (Hrec with "Ht").
    { apply list_elem_of_fmap. exists kv. split; [done|by eapply list_elem_of_lookup_2]. }
    iApply wp_ret. iFrame. }
  iIntros ([[]|]) "HI"; [done|]. iDestruct "HI" as "(Hlo & Hn & Hv & Hks & Hts)".
  rewrite !drop_ge; [|lia..]. wp_ld "Hlo".
  iApply wp_bind. iApply (wp_free_slots with "Hn").
  iApply wp_bind. iApply (wp_free_slots with "Hv"). iApply (wp_free with "Hlo").
  iDestruct "Hts" as "_". iDestruct "Hks" as "_". done.
Qed.

Lemma wp_value_free_rec fuel : ∀ t p l Φ,
  depth t ≤ fuel →
  vrep p l t -∗ Φ () -∗ wp (json_value_free_rec fuel (Some l)) Φ.
Proof.
  induction fuel as [|fuel IH]; intros t p l Φ Hd.
  { destruct t; simpl in Hd; lia. }
  iIntros "Hv HΦ". simpl. iApply wp_bind. iApply (wp_get_type with "Hv"). iIntros "Hv".
  destruct t as [| | |s|ts|kvs]; simpl type_of; cbv iota; iApply wp_bind.
  - rewrite ?vrep_null ?vrep_bool ?vrep_number. iApply wp_ret. iApply (wp_free with "Hv HΦ").
  - rewrite ?vrep_null ?vrep_bool ?vrep_number. iApply wp_ret. iApply (wp_free with "Hv HΦ").
  - rewrite ?vrep_null ?vrep_bool ?vrep_number. iApply wp_ret. iApply (wp_free with "Hv HΦ").
  - rewrite vrep_string. iDestruct "Hv" as (ls) "[Hl Hs]". wp_ld "Hl". simpl.
    iApply (wp_free_chars with "Hs"). iApply (wp_free with "Hl HΦ").
  - rewrite vrep_array. iDestruct "Hv" as (la) "[Hl Ha]". wp_ld "Hl". simpl.
    iApply (wp_array_free_with with "Ha").
    { intros l' t Ψ Ht. apply IH. apply depth_elem_array in Ht. lia. }
    iApply (wp_free with "Hl HΦ").
  - rewrite vrep_object. iDestruct "Hv" as (lo) "[Hl Ho]". wp_ld "Hl". simpl.
    iApply (wp_object_free_with with "Ho").
    { intros l' t Ψ Ht. apply IH. apply depth_elem_object in Ht. lia. }
    iApply (wp_free with "Hl HΦ").
Qed.

(** A tree of depth [d] owns at least [d] blocks. *)
Lemma vreps_at_least w ls ts n :
  (∀ l t, t ∈ ts → vrep (Some w) l t ⊢ at_least (depth t)) →
  n ≤ foldr (λ x n, depth x `max` n) 0 ts →
  vreps w ls ts ⊢ at_least n.
Proof.
  iIntros (Hrep Hn) "Hts". iInduction ts as [|t ts IH] forall (ls n Hn).
  - iApply at_least_mono; [|iApply at_least_0]. simpl in Hn. lia.
  - destruct ls as [|l ls]; [done|]. iDestruct "Hts" as "[Ht Hts]". simpl in Hn.
    destruct (decide (n ≤ depth t)).
    + iApply at_least_mono; [done|]. iApply (Hrep with "Ht"). set_solver.
    + iApply ("IH" with "[] [] Hts"); iPureIntro; [|lia]. intros. apply Hrep. set_solver.
Qed.

Lemma vrep_at_least t : ∀ p l, vrep p l t ⊢ at_least (depth t).
Proof.
  assert (Hbase : ∀ p l t, vrep p l t ⊢ at_least 1).
  { intros p l t'. iIntros "Hv". iDestruct (vrep_header with "Hv") as (v) "[Hl _]".
    by iApply points_to_at_least. }
  induction t as [| | | |ts IH|kvs IH] using json_induction; intros p l; try apply Hbase.
  - rewrite vrep_array. iIntros "(%la & Hl & (%q & %cap & %ls & _ & _ & Hts))".
    iApply (at_least_sep 1). iSplitL "Hl"; [by iApply points_to_at_least|].
    iApply (vreps_at_least with "Hts"); [|done].
    intros. rewrite Forall_forall in IH. by apply IH.
  - rewrite vrep_object. iIntros "(%lo & Hl & (%pn & %pv & %cap & %ns & %ls & _ & _ & _ & _ & Hts))".
    iApply (at_least_sep 1). iSplitL "Hl"; [by iApply points_to_at_least|].
    iApply (vreps_at_least with "Hts").
    + intros l' t Ht. apply list_elem_of_fmap in Ht as (kv & -> & Hkv).
      rewrite Forall_forall in IH. by apply IH.
    + clear IH. rewrite foldr_fmap. done.
Qed.

(** [json_value_free] ends and gives back exactly the blocks of the tree. *)
Lemma wp_value_free p l t Φ :
  vrep p l t -∗ Φ () -∗ wp (json_value_free (Some l)) Φ.
Proof.
  iIntros "Hv HΦ". iApply (wp_frame_wand with "[Hv]").
  { iApply (wp_heap_fuel _ (depth t) (vrep p l t) (λ _, emp)%I with "Hv").
    - apply vrep_at_least.
    - iIntros (k Hk) "Hv". iApply (wp_value_free_rec with "Hv"); [lia|done]. }
  by iIntros ([]) "_".
Qed.

(** ** Lookup *)

(** The index of the first name equal to [k]. *)
Definition find_key (k : bytes) (ks : list bytes) : option nat := fst <$> list_find (k =.) ks.

Lemma find_key_Some k ks i :
  find_key k ks = Some i ↔ ks !! i = Some k ∧ k ∉ take i ks.
Proof.
  rewrite /find_key fmap_Some. split.
  - intros ([j y] & (Hj & <- & Hlt)%list_find_Some & ->). simpl. split; [done|].
    intros (m & Hm)%list_elem_of_lookup. apply lookup_take_Some in Hm as [Hm ?].
    by apply (Hlt m k).
  - intros [Hi Hn]. exists (i, k). split; [|done]. apply list_find_Some.
    split_and!; [done..|]. intros j y Hj Hlt ->. apply Hn.
    apply list_elem_of_lookup. exists j. by apply lookup_take_Some.
Qed.
Lemma find_key_None k ks : find_key k ks = None ↔ k ∉ ks.
Proof.
  rewrite /find_key fmap_None list_find_None Forall_forall. split.
  - intros H1 Hk. by apply (H1 k).
  - intros Hk x Hx <-. done.
Qed.
Lemma find_key_lt k ks i : find_key k ks = Some i → i < length ks.
Proof. intros [Hi _]%find_key_Some. by eapply lookup_lt_Some. Qed.

Lemma strncmp_eq_nonul a b :
  nonul a → strncmp_eq a b (length a) = bool_decide (a = take (length a) b).
Proof.
  revert b. induction a as [|x a IH]; intros b Ha; simpl; [done|].
  apply nonul_cons in Ha as [Hx Ha]. destruct b as [|y b]; rewrite /hd_c /at_c /=.
  - by rewrite decide_False.
  - destruct (decide (x = y)) as [->|Hne].
    + rewrite decide_False // IH //. apply bool_decide_ext. split; [by intros <-|by intros [= ?]].
    + rewrite bool_decide_false //. by intros [= ?].
Qed.

(** [strncmp] with a NUL-free string decides the prefix relation. *)
Lemma strncmp_prefix a b n :
  nonul a → length a = n → strncmp_eq a b n = bool_decide (a = take n b).
Proof. intros Ha <-. by apply strncmp_eq_nonul. Qed.

Lemma chars_nonul l s : chars l s ⊢ ⌜nonul s⌝.
Proof. iIntros "(%sz & %raw & _ & [_ <-])". iPureIntro. apply nonul_cstr. Qed.

(** An object without its values. *)
Definition ohead (w lo : loc) (pn pv : ptr) (cap : nat) (ns ls : list loc) (ks : list bytes) : hP :=
  lo ↦ BObject (mkObject (Some w) pn pv (length ks) cap) ∗
  slots pn ns cap ∗ slots pv ls cap ∗ nreps ns ks.

Lemma ohead_cap w lo pn pv cap ns ls ks : ohead w lo pn pv cap ns ls ks ⊢ ⌜length ls ≤ cap⌝.
Proof. iIntros "(_ & _ & Hs & _)". by iApply slots_length. Qed.

Lemma orep_ohead w lo kvs :
  orep w lo kvs ⊣⊢ ∃ pn pv cap ns ls, ohead w lo pn pv cap ns ls kvs.*1 ∗ vreps w ls kvs.*2.
Proof.
  rewrite /orep /ohead length_fmap. iSplit.
  - iIntros "(%pn & %pv & %cap & %ns & %ls & H1 & H2 & H3 & H4 & H5)". iExists pn, pv, cap, ns, ls. iFrame.
  - iIntros "(%pn & %pv & %cap & %ns & %ls & (H1 & H2 & H3 & H4) & H5)". iExists pn, pv, cap, ns, ls. iFrame.
Qed.

Lemma wp_get_count w lo pn pv cap ns ls ks Φ :
  ohead w lo pn pv cap ns ls ks -∗ (ohead w lo pn pv cap ns ls ks -∗ Φ (length ks)) -∗
  wp (json_object_get_count (Some lo)) Φ.
Proof. iIntros "(Hlo & Hr) HΦ". wp_ld "Hlo". iApply wp_ret. iApply "HΦ". iFrame. Qed.

Lemma wp_getn_value w lo pn pv cap ns ls ks name n Φ :
  length ls = length ks → n ≤ length name →
  ohead w lo pn pv cap ns ls ks -∗
  (ohead w lo pn pv cap ns ls ks -∗
     Φ (i ← find_key (take n name) ks; ls !! i)) -∗
  wp (json_object_getn_value (Some lo) name n) Φ.
Proof.
  iIntros (Hls Hn) "Ho HΦ". iApply wp_bind. iApply (wp_get_count with "Ho"). iIntros "Ho".
  iApply wp_bind.
  iApply (wp_frame_wand with "[Ho]").
  { iApply (wp_for_range _ _ (λ i, ohead w lo pn pv cap ns ls ks ∗ ⌜⌜take n name ∉ take i ks⌝⌝)%I
      (λ v, ohead w lo pn pv cap ns ls ks ∗
            ⌜⌜v = (i ← find_key (take n name) ks; ls !! i)⌝⌝)%I with "[$Ho]");
      last (iPureIntro; set_solver).
    iIntros (i Hi) "((Hlo & Hsn & Hsv & Hks) & %Hnot)".
    iDestruct (big_sepL2_length with "Hks") as %Hlen.
    destruct (lookup_lt_is_Some_2 ks i Hi) as [k Hk].
    destruct (lookup_lt_is_Some_2 ls i) as [l Hl]; [lia|].
    destruct (lookup_lt_is_Some_2 ns i) as [nl Hnl]; [lia|].
    wp_ld "Hlo". iApply wp_bind. iApply (wp_get_slot with "Hsn"); [done|]. iIntros "Hsn".
    iDestruct (big_sepL2_lookup_acc with "Hks") as "[Hk Hclose]"; [done..|].
    iDestruct (chars_nonul with "Hk") as %Hnul.
    wp_ld "Hk". iDestruct ("Hclose" with "Hk") as "Hks".
    assert (HS : k ≠ take n name → take n name ∉ take (S i) ks).
    { intros Hne. rewrite (take_S_r _ _ _ Hk). set_solver. }
    case_decide as Hc.
    { iApply wp_ret. iFrame. iPureIntro. apply HS. intros ->. apply Hc.
      rewrite length_take. lia. }
    rewrite strncmp_prefix //. case_bool_decide as Heq; simpl.
    - iApply wp_bind. iApply (wp_get_slot with "Hsv"); [done|]. iIntros "Hsv".
      iApply wp_ret. iFrame. iPureIntro.
      rewrite (proj2 (find_key_Some (take n name) ks i)) /=; [by rewrite Hl|].
      split; [by rewrite -Heq|done].
    - iApply wp_ret. iFrame. iPureIntro. by apply HS. }
  iIntros ([v|]) "[Ho %Hv]"; iApply wp_ret.
  - rewrite Hv. by iApply "HΦ".
  - rewrite (take_ge ks) // in Hv. rewrite (proj2 (find_key_None _ _) Hv). by iApply "HΦ".
Qed.

(** ** Growth and insertion *)

(** Some request of at most [bound] bytes was refused. *)
Definition malloc_failed (bound : Z) : Prop :=
  ∃ k sz, (sz ≤ bound)%Z ∧ malloc_ok k sz = false.
Lemma malloc_failed_mono b b' : (b ≤ b')%Z → malloc_failed b → malloc_failed b'.
Proof. intros Hb (k & sz & Hsz & Hok). exists k, sz. split; [lia|done]. Qed.
Lemma malloc_failed_intro k sz : malloc_ok k sz = false → malloc_failed sz.
Proof. intros Hok. by exists k, sz. Qed.

Lemma wp_move_slots p q ls cap nc (c : nat) Φ :
  length ls = c → c ≤ nc →
  slots p ls cap -∗ slots (Some q) [] nc -∗
  (slots p ls cap -∗ slots (Some q) ls nc -∗ Φ ()) -∗
  wp (if negb (bool_decide (p = None)) && bool_decide (0 < c)
      then copy_slots (Some q) p c else mret ()) Φ.
Proof.
  iIntros (<- Hc) "Hp Hq HΦ". destruct p as [a|]; simpl.
  - destruct (bool_decide_reflect (0 < length ls)).
    + iApply (wp_copy_slots with "Hp Hq HΦ"). lia.
    + iApply wp_ret. destruct ls; [|simpl in *; lia]. iApply ("HΦ" with "Hp Hq").
  - rewrite {1 2}/slots. iDestruct "Hp" as %[-> ->]. iApply wp_ret. by iApply ("HΦ" with "[] Hq").
Qed.

Lemma wp_object_resize w lo pn pv cap ns ls ks nc Φ :
  length ls = length ks → length ks ≤ nc → 0 < nc →
  ohead w lo pn pv cap ns ls ks -∗
  (∀ st, (match st with
          | JSONSuccess => ∃ pn' pv', ohead w lo pn' pv' nc ns ls ks
          | JSONFailure => ohead w lo pn pv cap ns ls ks ∗ ⌜⌜malloc_failed (Z.of_nat nc * 8)⌝⌝
          end) -∗ Φ st) -∗
  wp (json_object_resize (Some lo) nc) Φ.
Proof.
  iIntros (Hls Hnc Hpos) "(Hlo & Hn & Hv & Hks) HΦ".
  iDestruct (big_sepL2_length with "Hks") as %Hns.
  wp_ld "Hlo". simpl.
  iDestruct (slots_null with "Hn") as %Hnull1. iDestruct (slots_null with "Hv") as %Hnull2.
  assert (Hb : bool_decide (pn = None) = bool_decide (pv = None)) by (apply bool_decide_ext; tauto).
  rewrite Hb andb_negb_r andb_comm andb_negb_r bool_decide_false; [|lia]. simpl.
  iApply wp_bind. iApply (wp_malloc_ptrs _ _ Hpos). iIntros ([tn|] Hr1) "Htn"; last first.
  { iApply wp_ret. iApply "HΦ". iFrame. iPureIntro. destruct Hr1 as [k Hk].
    by eapply malloc_failed_intro. }
  iApply wp_bind. iApply (wp_malloc_ptrs _ _ Hpos). iIntros ([tv|] Hr2) "Htv"; last first.
  { iApply wp_bind. iApply (wp_free_slots with "Htn"). iApply wp_ret. iApply "HΦ". iFrame.
    iPureIntro. destruct Hr2 as [k Hk]. by eapply malloc_failed_intro. }
  iApply wp_bind.
  iApply (wp_frame_wand _ (λ _, slots pn ns cap ∗ slots pv ls cap ∗
    slots (Some tn) ns nc ∗ slots (Some tv) ls nc)%I with "[Hn Hv Htn Htv]").
  { destruct pn as [a|], pv as [b|]; simpl.
    - destruct (bool_decide_reflect (0 < length ks)).
      + iApply wp_bind. rewrite -{1}Hns. iApply (wp_copy_slots with "Hn Htn"); [lia|].
        iIntros "Hn Htn". rewrite -Hls. iApply (wp_copy_slots with "Hv Htv"); [lia|].
        iIntros "Hv Htv". iFrame.
      + iApply wp_ret. destruct ns, ls; simpl in *; try lia. iFrame.
    - naive_solver.
    - naive_solver.
    - rewrite {1 2}/slots. iDestruct "Hn" as %[-> ->]. iDestruct "Hv" as %[-> _].
      iApply wp_ret. rewrite /slots. by iFrame. }
  iIntros ([]) "(Hn & Hv & Htn & Htv)".
  iApply wp_bind. iApply (wp_free_slots with "Hn").
  iApply wp_bind. iApply (wp_free_slots with "Hv").
  iApply wp_bind. iApply (wp_store with "Hlo"). iIntros "Hlo".
  iApply wp_ret. iApply "HΦ". iExists (Some tn), (Some tv). iFrame.
Qed.

Lemma wp_parson_strndup s n Φ :
  n ≤ length s → nonul (take n s) →
  (∀ r, (if r is Some l then chars l (take n s)
         else ⌜⌜malloc_failed (Z.of_nat n + 1)⌝⌝) -∗ Φ r) -∗
  wp (parson_strndup s n) Φ.
Proof.
  iIntros (Hn Hnul) "HΦ". iApply wp_malloc. iIntros (r Hr) "Hr". iApply "HΦ".
  destruct r as [l|].
  - replace (n - length s) with 0 by lia. rewrite /= app_nil_r. iExists _, _. iFrame.
    iPureIntro. split; [set_solver|]. by apply cstr_app_nul.
  - destruct Hr as [k Hk]. iFrame. iPureIntro. by eapply malloc_failed_intro.
Qed.

Lemma wp_set_parent p p' l t Φ :
  vrep p l t -∗ (vrep p' l t -∗ Φ ()) -∗ wp (set_parent (Some l) p') Φ.
Proof.
  iIntros "Hv HΦ". iDestruct (vrep_header with "Hv") as (v) "(Hl & _ & Hclose)".
  wp_ld "Hl". simpl. iApply (wp_store with "Hl"). iIntros "Hl". iApply "HΦ". by iApply "Hclose".
Qed.

(** The object with its capacity made explicit. *)
Definition orepc (w lo : loc) (cap : nat) (kvs : list (bytes * json)) : hP :=
  ∃ pn pv ns ls, ohead w lo pn pv cap ns ls kvs.*1 ∗ vreps w ls kvs.*2.
Lemma orep_orepc w lo kvs : orep w lo kvs ⊣⊢ ∃ cap, orepc w lo cap kvs.
Proof.
  rewrite orep_ohead /orepc. iSplit.
  - iIntros "(%pn & %pv & %cap & %ns & %ls & H)". iExists cap, pn, pv, ns, ls. iFrame.
  - iIntros "(%cap & %pn & %pv & %ns & %ls & H)". iExists pn, pv, cap, ns, ls. iFrame.
Qed.

(** The capacity after room was made for one more entry. *)
Definition grown (cap count : nat) : nat :=
  if decide (cap ≤ count) then Nat.max (cap * 2) STARTING_CAPACITY else cap.

Lemma wp_object_addn w lo cap kvs name n p lv t Φ :
  n ≤ length name → nonul (take n name) →
  orepc w lo cap kvs -∗ vrep p lv t -∗
  (∀ st, (match st with
     | JSONSuccess => ⌜⌜take n name ∉ kvs.*1⌝⌝ ∗
         orepc w lo (grown cap (length kvs)) (kvs ++ [(take n name, t)])
     | JSONFailure => (∃ cap', orepc w lo cap' kvs) ∗ vrep p lv t ∗
         ⌜⌜take n name ∈ kvs.*1 ∨ malloc_failed (Z.of_nat (grown cap (length kvs)) * 8)
           ∨ malloc_failed (Z.of_nat n + 1)⌝⌝
     end) -∗ Φ st) -∗
  wp (json_object_addn (Some lo) (Some name) n (Some lv)) Φ.
Proof.
  iIntros (Hn Hnul) "(%pn & %pv & %ns & %ls & Ho & Hts) Hv HΦ".
  iDestruct (big_sepL2_length with "Hts") as %Hls. rewrite !length_fmap in Hls.
  assert (Hls' : length ls = length kvs.*1) by by rewrite length_fmap.
  iApply wp_bind. iApply (wp_getn_value with "Ho"); [done..|]. iIntros "Ho".
  destruct (find_key (take n name) kvs.*1) as [i|] eqn:Hfind; simpl.
  { pose proof (find_key_lt _ _ _ Hfind) as Hi. rewrite -Hls' in Hi.
    destruct (lookup_lt_is_Some_2 ls i Hi) as [l0 ->]. iApply wp_ret. iApply "HΦ".
    iFrame. iPureIntro.
    left. apply find_key_Some in Hfind as [Hk _]. by eapply list_elem_of_lookup_2. }
  apply find_key_None in Hfind.
  iDestruct (ohead_cap with "Ho") as %Hcap.
  iAssert (lo ↦ BObject (mkObject (Some w) pn pv (length kvs) cap) ∗
    (lo ↦ BObject (mkObject (Some w) pn pv (length kvs) cap) -∗
     ohead w lo pn pv cap ns ls kvs.*1))%I with "[Ho]" as "[Hlo Hclose]".
  { rewrite /ohead length_fmap. iDestruct "Ho" as "[$ Ho]". iIntros "$". iFrame. }
  wp_ld "Hlo". iDestruct ("Hclose" with "Hlo") as "Ho". simpl.
  iApply wp_bind.
  iApply (wp_frame_wand _ (λ st, match st with
     | JSONSuccess => ∃ pn' pv', ohead w lo pn' pv' (grown cap (length kvs)) ns ls kvs.*1
     | JSONFailure => ohead w lo pn pv cap ns ls kvs.*1 ∗
         ⌜⌜malloc_failed (Z.of_nat (grown cap (length kvs)) * 8)⌝⌝ end)%I with "[Ho]").
  { rewrite /grown. case_decide.
    - iApply (wp_object_resize with "Ho"); [done|rewrite length_fmap; lia|rewrite /STARTING_CAPACITY; lia|].
      iIntros ([|]) "Ho"; iFrame.
    - iApply wp_ret. iExists pn, pv. iFrame. }
  iIntros ([|]) "Ho"; last first.
  { iDestruct "Ho" as "[Ho %Hf]". iApply wp_ret. iApply "HΦ". iFrame. auto. }
  iDestruct "Ho" as (pn' pv') "(Hlo & Hsn & Hsv & Hks)". rewrite length_fmap.
  iDestruct (big_sepL2_length with "Hks") as %Hns. rewrite length_fmap in Hns.
  assert (length kvs < grown cap (length kvs)) as Hroom.
  { rewrite /grown /STARTING_CAPACITY. case_decide; lia. }
  wp_ld "Hlo". simpl. iApply wp_bind. iApply (wp_parson_strndup with "[-]"); [done..|].
  iIntros (copy) "Hcopy". iApply wp_bind.
  iApply (wp_set_slot_end with "Hsn"); [done..|]. iIntros "Hsn".
  destruct copy as [lc|]; last first.
  { iDestruct "Hcopy" as %Hf. iApply wp_ret. iApply "HΦ".
    iSplitR "Hv"; [|iFrame; auto]. iExists _, pn', pv', ns, ls. rewrite /ohead length_fmap. iFrame. }
  iApply wp_bind. wp_ld "Hlo". iApply wp_ret. simpl.
  iApply wp_bind. iApply (wp_set_parent with "Hv"). iIntros "Hv".
  iApply wp_bind. iApply (wp_set_slot_end with "Hsv"); [done..|]. iIntros "Hsv".
  iApply wp_bind. iApply (wp_store with "Hlo"). iIntros "Hlo".
  iApply wp_ret. iApply "HΦ". iSplit; [done|].
  iExists pn', pv', (ns ++ [lc]), (ls ++ [lv]).
  rewrite /ohead !fmap_app length_app length_fmap Nat.add_comm /=. iFrame "Hlo Hsn Hsv".
  iSplitL "Hks Hcopy"; [iApply (big_sepL2_app with "Hks"); simpl; by iFrame|].
  iApply (big_sepL2_app with "Hts"). simpl. by iFrame.
Qed.

Lemma wp_object_add w lo cap kvs name p lv t Φ :
  nonul name →
  orepc w lo cap kvs -∗ vrep p lv t -∗
  (∀ st, (match st with
     | JSONSuccess => ⌜⌜name ∉ kvs.*1⌝⌝ ∗
         orepc w lo (grown cap (length kvs)) (kvs ++ [(name, t)])
     | JSONFailure => (∃ cap', orepc w lo cap' kvs) ∗ vrep p lv t ∗
         ⌜⌜name ∈ kvs.*1 ∨ malloc_failed (Z.of_nat (grown cap (length kvs)) * 8)
           ∨ malloc_failed (Z.of_nat (length name) + 1)⌝⌝
     end) -∗ Φ st) -∗
  wp (json_object_add (Some lo) (Some name) (Some lv)) Φ.
Proof.
  iIntros (Hnul) "Ho Hv HΦ".
  iApply (wp_object_addn with "Ho Hv"); [done|by rewrite firstn_all|].
  rewrite firstn_all. done.
Qed.

(** The array with its capacity made explicit. *)
Definition arepc (w la : loc) (cap : nat) (ts : list json) : hP :=
  ∃ p ls, la ↦ BArray (mkArray (Some w) p (length ts) cap) ∗ slots p ls cap ∗ vreps w ls ts.
Lemma arep_arepc w la ts : arep w la ts ⊣⊢ ∃ cap, arepc w la cap ts.
Proof.
  rewrite /arep /arepc. iSplit.
  - iIntros "(%p & %cap & %ls & H)". iExists cap, p, ls. iFrame.
  - iIntros "(%cap & %p & %ls & H)". iExists p, cap, ls. iFrame.
Qed.

Lemma wp_array_resize w la cap ts nc Φ :
  length ts ≤ nc → 0 < nc →
  arepc w la cap ts -∗
  (∀ st, (match st with
          | JSONSuccess => arepc w la nc ts
          | JSONFailure => arepc w la cap ts ∗ ⌜⌜malloc_failed (Z.of_nat nc * 8)⌝⌝
          end) -∗ Φ st) -∗
  wp (json_array_resize (Some la) nc) Φ.
Proof.
  iIntros (Hnc Hpos) "(%p & %ls & Hla & Hs & Hts) HΦ". rewrite /json_array_resize.
  iDestruct (big_sepL2_length with "Hts") as %Hls.
  rewrite decide_False; [|lia]. iApply wp_bind. iApply (wp_malloc_ptrs _ _ Hpos).
  iIntros ([q|] Hr) "Hq"; last first.
  { iApply wp_ret. iApply "HΦ". iSplitL; [iExists p, ls; iFrame|]. iPureIntro.
    destruct Hr as [k Hk]. by eapply malloc_failed_intro. }
  wp_ld "Hla". simpl. iApply wp_bind.
  iApply (wp_move_slots with "Hs Hq"); [done..|]. iIntros "Hs Hq".
  iApply wp_bind. iApply (wp_free_slots with "Hs").
  iApply wp_bind. iApply (wp_store with "Hla"). iIntros "Hla".
  iApply wp_ret. iApply "HΦ". iExists (Some q), ls. iFrame.
Qed.

Lemma wp_array_add w la cap ts p lv t Φ :
  arepc w la cap ts -∗ vrep p lv t -∗
  (∀ st, (match st with
     | JSONSuccess => arepc w la (grown cap (length ts)) (ts ++ [t])
     | JSONFailure => arepc w la cap ts ∗ vrep p lv t ∗
         ⌜⌜malloc_failed (Z.of_nat (grown cap (length ts)) * 8)⌝⌝
     end) -∗ Φ st) -∗
  wp (json_array_add (Some la) (Some lv)) Φ.
Proof.
  iIntros "(%q & %ls & Hla & Hs & Hts) Hv HΦ".
  iDestruct (big_sepL2_length with "Hts") as %Hls.
  iDestruct (slots_length with "Hs") as %Hcap.
  wp_ld "Hla". simpl. iApply wp_bind.
  iApply (wp_frame_wand _ (λ st, match st with
     | JSONSuccess => arepc w la (grown cap (length ts)) ts
     | JSONFailure => arepc w la cap ts ∗
         ⌜⌜malloc_failed (Z.of_nat (grown cap (length ts)) * 8)⌝⌝ end)%I with "[Hla Hs Hts]").
  { iAssert (arepc w la cap ts) with "[Hla Hs Hts]" as "Ha"; [iExists q, ls; iFrame|].
    rewrite /grown. case_decide.
    - iApply (wp_array_resize with "Ha"); [lia|rewrite /STARTING_CAPACITY; lia|].
      iIntros ([|]) "Ha"; iFrame.
    - iApply wp_ret. iFrame. }
  iIntros ([|]) "Ha"; last first.
  { iDestruct "Ha" as "[Ha %Hf]". iApply wp_ret. iApply "HΦ". iFrame. auto. }
  assert (length ts < grown cap (length ts)) as Hroom.
  { rewrite /grown /STARTING_CAPACITY. case_decide; lia. }
  clear Hls Hcap ls q. iDestruct "Ha" as (q ls) "(Hla & Hs & Hts)".
  iDestruct (big_sepL2_length with "Hts") as %Hls.
  iApply wp_bind. wp_ld "Hla". iApply wp_ret. simpl.
  iApply wp_bind. iApply (wp_set_parent with "Hv"). iIntros "Hv".
  wp_ld "Hla". simpl. iApply wp_bind. iApply (wp_set_slot_end with "Hs"); [done..|].
  iIntros "Hs". iApply wp_bind. iApply (wp_store with "Hla"). iIntros "Hla".
  iApply wp_ret. iApply "HΦ". iExists q, (ls ++ [lv]).
  rewrite length_app Nat.add_comm /=. iFrame "Hla Hs".
  iApply (big_sepL2_app with "Hts"). simpl. by iFrame.
Qed.

(** ** Construction *)

(** [parson_malloc] of a header: NULL only if a request of 40 bytes or less was
    refused. *)
Lemma wp_init_value v Φ :
  (∀ r, (if r is Some l then l ↦ BValue (mkValue None v) else ⌜⌜malloc_failed 40⌝⌝) -∗ Φ r) -∗
  wp (init_value v) Φ.
Proof.
  iIntros "HΦ". iApply wp_malloc. iIntros ([l|] Hr) "Hr"; iApply "HΦ"; [done|].
  destruct Hr as [k Hk]. iFrame. iPureIntro. eapply malloc_failed_mono, malloc_failed_intro, Hk.
  by vm_compute.
Qed.

Lemma wp_init_array Φ :
  (∀ r, (if r is Some l then ∃ la, l ↦ BValue (mkValue None (VArray (Some la))) ∗ arepc l la 0 []
         else ⌜⌜malloc_failed 40⌝⌝) -∗ Φ r) -∗ wp json_value_init_array Φ.
Proof.
  iIntros "HΦ". iApply wp_bind. iApply wp_init_value. iIntros ([l|]) "Hl"; last first.
  { iApply wp_ret. by iApply "HΦ". }
  iApply wp_bind. iApply wp_malloc. iIntros (a Ha) "Ha".
  iApply wp_bind. iApply (wp_store with "Hl"). iIntros "Hl".
  destruct a as [la|].
  - iApply wp_ret. iApply "HΦ". iExists la. iFrame. iExists []. rewrite /slots /vreps /=. auto.
  - iApply wp_bind. iApply (wp_free with "Hl"). iApply wp_ret. iApply "HΦ". iFrame. iPureIntro.
    destruct Ha as [k Hk]. eapply malloc_failed_mono, malloc_failed_intro, Hk. by vm_compute.
Qed.

Lemma wp_init_object Φ :
  (∀ r, (if r is Some l then ∃ lo, l ↦ BValue (mkValue None (VObject (Some lo))) ∗ orepc l lo 0 []
         else ⌜⌜malloc_failed 40⌝⌝) -∗ Φ r) -∗ wp json_value_init_object Φ.
Proof.
  iIntros "HΦ". iApply wp_bind. iApply wp_init_value. iIntros ([l|]) "Hl"; last first.
  { iApply wp_ret. by iApply "HΦ". }
  iApply wp_bind. iApply wp_malloc. iIntros (a Ha) "Ha".
  iApply wp_bind. iApply (wp_store with "Hl"). iIntros "Hl".
  destruct a as [lo|].
  - iApply wp_ret. iApply "HΦ". iExists lo. iFrame. iExists [], [].
    rewrite /slots /nreps /vreps /=. auto.
  - iApply wp_bind. iApply (wp_free with "Hl"). iApply wp_ret. iApply "HΦ". iFrame. iPureIntro.
    destruct Ha as [k Hk]. eapply malloc_failed_mono, malloc_failed_intro, Hk. by vm_compute.
Qed.
End proofs.
