(* ===== verification/UtilsProof.v ===== *)
(** * The utilities of the enclave: what they compute

    [bytes_swap] reverses its range in place; [bytes_to_hexstring] returns the
    hexadecimal text, from which the bytes can be read back. *)
From stdpp Require Import base list numbers gmap.
From iris.proofmode Require Import proofmode.
From S2P Require Import Prelude CMem SepLogic ParsonText Parson Utils JsonSpec ParsonRep.
From S2P Require Import ParsonMemProof.
Local Open Scope nat_scope.

(** ** [bytes_swap] *)

(** The range [mid] between [pre] and [post] is reversed. *)
Lemma bytes_swap_loop_reverse fuel pre mid post :
  length mid ≤ fuel →
  bytes_swap_loop fuel (pre ++ mid ++ post) (Z.of_nat (length pre))
    (Z.of_nat (length pre) + Z.of_nat (length mid) - 1) = Some (pre ++ reverse mid ++ post).
Proof.
  revert pre mid post. induction fuel as [|fuel IH]; intros pre mid post Hf.
  { destruct mid; simpl in *; [|lia]. rewrite (proj2 (Z.ltb_ge _ _)) //. lia. }
  simpl. destruct mid as [|a mid]; [rewrite (proj2 (Z.ltb_ge _ _)) //; simpl; lia|].
  destruct mid as [|b mid _] using rev_ind.
  { rewrite (proj2 (Z.ltb_ge _ _)) //. simpl; lia. }
  rewrite (proj2 (Z.ltb_lt _ _)); [|simpl; rewrite length_app /=; lia].
  replace (Z.to_nat (Z.of_nat (length pre) + _ - 1)) with (length (pre ++ a :: mid))
    by (rewrite /= ?length_app /= ?length_app /=; lia).
  rewrite Nat2Z.id.
  replace (pre ++ (a :: mid ++ [b]) ++ post) with ((pre ++ a :: mid) ++ b :: post)
    by by rewrite -!assoc_L /= -assoc_L.
  rewrite {1}(_ : ((pre ++ a :: mid) ++ b :: post) !! length pre = Some a); last first.
  { rewrite -assoc_L. by apply list_lookup_middle. }
  rewrite /= list_lookup_middle //=.
  assert (Hs : <[length (pre ++ a :: mid) := a]> (<[length pre := b]> ((pre ++ a :: mid) ++ b :: post))
               = pre ++ b :: mid ++ a :: post).
  { rewrite -assoc_L insert_app_r_alt // Nat.sub_diag /= length_app.
    rewrite insert_app_r_alt; [|lia]. rewrite (_ : _ - length pre = S (length mid)); [|simpl; lia].
    simpl. by rewrite insert_app_r_alt // Nat.sub_diag. }
  rewrite Hs.
  specialize (IH (pre ++ [b]) mid (a :: post)).
  rewrite reverse_cons reverse_snoc. rewrite /= length_app /= in Hf.
  rewrite -!assoc_L /= in IH |- *. rewrite -IH; [|lia].
  f_equal; rewrite ?length_app /=; lia.
Qed.

(** [bytes_swap(buf + off, len)] reverses the [len] bytes at the offset, changes
    no other byte, and never reads or writes outside the buffer, for every length
    including 0. *)
Theorem bytes_swap_reverses (buf : bytes) (off len : nat) (Hin : off + len ≤ length buf) :
  bytes_swap buf off len =
    Some (take off buf ++ reverse (take len (drop off buf)) ++ drop (off + len) buf).
Proof.
  rewrite /bytes_swap.
  pose proof (bytes_swap_loop_reverse len (take off buf) (take len (drop off buf))
                (drop (off + len) buf)) as E.
  rewrite !length_take length_drop in E.
  replace (off `min` length buf) with off in E by lia.
  replace (len `min` (length buf - off)) with len in E by lia.
  rewrite -drop_drop !take_drop in E. rewrite -drop_drop. apply E. lia.
Qed.

Lemma bytes_swap_reverses_witness :
  bytes_swap [x01; x02; x03; x04; x05] 1 3 = Some [x01; x04; x03; x02; x05].
Proof. rewrite (bytes_swap_reverses [x01; x02; x03; x04; x05] 1 3); [reflexivity|simpl; lia]. Defined.

(** ** [bytes_to_hexstring] *)

(** The bytes that a hexadecimal text stands for. *)
Fixpoint unhex (s : bytes) : bytes :=
  match s with
  | h :: l :: r => to_byte (16 * hex_char_to_int h + hex_char_to_int l) :: unhex r
  | _ => []
  end.

Lemma hex2_unhex : ∀ b, to_byte (16 * hex_char_to_int (hexdig (Z.shiftr (uchar b) 4))
                            + hex_char_to_int (hexdig (Z.land (uchar b) 0x0f))) = b.
Proof. by_bytes. Qed.
Lemma hex2_nonul : ∀ b, hexdig (Z.shiftr (uchar b) 4) ≠ x00 ∧ hexdig (Z.land (uchar b) 0x0f) ≠ x00.
Proof. by_bytes. Qed.
Lemma unhex_hex2 data : unhex (data ≫= hex2) = data.
Proof.
  induction data as [|b data IH]; [done|]. rewrite bind_cons.
  change (unhex (hex2 b ++ (data ≫= hex2))) with
    (to_byte (16 * hex_char_to_int (hexdig (Z.shiftr (uchar b) 4))
       + hex_char_to_int (hexdig (Z.land (uchar b) 0x0f))) :: unhex (data ≫= hex2)).
  by rewrite hex2_unhex IH.
Qed.
Lemma nonul_hex2 data : nonul (data ≫= hex2).
Proof.
  induction data as [|b data IH]; [apply nonul_nil|]. rewrite bind_cons.
  destruct (hex2_nonul b). apply nonul_app. split; [|done]. apply nonul_cons. split; [done|].
  apply nonul_cons. split; [done|apply nonul_nil].
Qed.
Lemma length_hex2 data : length (data ≫= hex2) = 2 * length data.
Proof. induction data as [|b data IH]; [done|]. rewrite bind_cons length_app IH /=. lia. Qed.

Section hexstring_proof.
Context `{Malloc}.

Lemma wp_write_next l sz done data Φ :
  (Z.of_nat (length done + length data) ≤ sz)%Z →
  l ↦ BChars sz done -∗ (l ↦ BChars sz (done ++ data) -∗ Φ ()) -∗
  wp (write_at l (length done) data) Φ.
Proof.
  iIntros (Hsz) "Hl HΦ". iApply wp_bind. iApply (wp_load with "Hl"). iIntros "Hl".
  rewrite decide_True; [|split; lia]. iApply (wp_store with "Hl").
  rewrite firstn_all drop_ge ?app_nil_r //. lia.
Qed.

Lemma wp_for_hex l sz data n i Φ :
  i + n = length data → (Z.of_nat (2 * length data) ≤ sz)%Z →
  (Z.of_nat (2 * length data) ≤ INT_MAX)%Z →
  l ↦ BChars sz (take i data ≫= hex2) -∗
  (l ↦ BChars sz (data ≫= hex2) -∗ Φ None) -∗
  wp (for_each (R:=unit) (seq i n) (λ i,
     match data !! i with
     | None => undef
     | Some b =>
         i2 ← int_add (Z.of_nat i) (Z.of_nat i);
         i21 ← int_add i2 1;
         write_at l (Z.to_nat i2) [hexdig (Z.shiftr (uchar b) 4)];;
         write_at l (Z.to_nat i21) [hexdig (Z.land (uchar b) 0x0f)];;
         mret None
     end)) Φ.
Proof.
  iIntros (Hn Hsz Hmax) "Hl HΦ". iInduction n as [|n] "IH" forall (i Hn).
  { iApply wp_ret. iApply "HΦ". by rewrite take_ge; last lia. }
  destruct (lookup_lt_is_Some_2 data i) as [b Hb]; [lia|].
  simpl. iApply wp_bind. rewrite Hb. iApply wp_bind.
  assert (Hlen : length (take i data ≫= hex2) = 2 * i).
  { rewrite length_hex2 length_take. lia. }
  rewrite /int_add. rewrite /in_int !(proj2 (Z.leb_le _ _)) /=; [|lia..]. iApply wp_ret.
  iApply wp_bind. rewrite !(proj2 (Z.leb_le _ _)) /=; [|lia..]. iApply wp_ret.
  iApply wp_bind. replace (Z.to_nat (Z.of_nat i + Z.of_nat i)) with (length (take i data ≫= hex2)) by lia.
  iApply (wp_write_next with "Hl"); [simpl; lia|]. iIntros "Hl". iApply wp_bind.
  set (d1 := hexdig (Z.shiftr (uchar b) 4)) in *.
  replace (Z.to_nat (Z.of_nat i + Z.of_nat i + 1)) with (length ((take i data ≫= hex2) ++ [d1]))
    by (rewrite length_app /=; lia).
  iApply (wp_write_next with "Hl"); [rewrite length_app /=; lia|]. iIntros "Hl". iApply wp_ret.
  iApply ("IH" with "[%] [Hl] HΦ"); [lia|].
  rewrite (take_S_r _ _ b) // bind_app -assoc_L. done.
Qed.

(** Where memory is available, [bytes_to_hexstring] returns a fresh block of
    exactly [2 * len + 1] bytes that holds the two lower-case digits of every byte, in
    order, and a NUL; the bytes can be read back from the text. *)
Theorem bytes_to_hexstring_exact (data : bytes)
    (Hlen : (Z.of_nat (2 * length data) ≤ INT_MAX)%Z)
    (Hok : ∀ k, malloc_ok k (Z.of_nat (length data) * 2 + 1) = true) :
  triple emp (bytes_to_hexstring data (length data)) (λ r, ∃ l s,
    ⌜⌜r = Some l⌝⌝ ∗ l ↦ BChars (Z.of_nat (length data) * 2 + 1) (s ++ [x00]) ∗
    ⌜⌜nonul s ∧ length s = (2 * length data)%nat ∧ unhex s = data⌝⌝)%I.
Proof.
  apply triple_intro. iIntros "_". rewrite /bytes_to_hexstring.
  assert (Hk : wrap64 (Z.of_nat (length data) * 2 + 1) = (Z.of_nat (length data) * 2 + 1)%Z).
  { rewrite /wrap64 Z.mod_small //. unfold INT_MAX in Hlen. lia. }
  rewrite Hk. iApply wp_bind. iApply wp_malloc. iIntros ([l|] Hr) "Hl".
  2: { destruct Hr as [k Hr]. by rewrite Hok in Hr. }
  iApply wp_bind.
  iApply (wp_for_hex l (Z.of_nat (length data) * 2 + 1) data (length data) 0 with "[Hl]");
    [done|lia|lia|done|]. iIntros "Hl".
  iApply wp_bind.
  replace (Z.to_nat _) with (length (data ≫= hex2)) by (rewrite length_hex2; lia).
  iApply (wp_write_next with "Hl"); [rewrite length_hex2 /=; lia|]. iIntros "Hl".
  iApply wp_ret. iExists l, (data ≫= hex2).
  iFrame. iPureIntro. split; [done|].
  auto using nonul_hex2, length_hex2, unhex_hex2.
Qed.
End hexstring_proof.

Lemma bytes_to_hexstring_exact_witness :
  let H := malloc_always in
  triple emp (bytes_to_hexstring [x0f; xa5] 2) (λ r, ∃ l s,
    ⌜⌜r = Some l⌝⌝ ∗ l ↦ BChars 5 (s ++ [x00]) ∗
    ⌜⌜nonul s ∧ length s = 4%nat ∧ unhex s = [x0f; xa5]⌝⌝)%I.
Proof. intros H. apply (bytes_to_hexstring_exact [x0f; xa5]); [by vm_compute|reflexivity]. Defined.

(** [bytes_to_hexstring] does not test what [malloc] returned: when the request is
    refused it writes through NULL, for every input, the empty one included. *)
Theorem bytes_to_hexstring_unchecked (data : bytes) (m : mem block) :
  let H := malloc_never in bytes_to_hexstring data (length data) m = None.
Proof.
  intros H. rewrite /bytes_to_hexstring /mbind /M_bind /malloc /=.
  destruct data as [|b data]; [done|]. simpl. rewrite /mbind /M_bind.
  done.
Qed.
