(* ===== verification/ParsonParseProof.v ===== *)
(** * Parson: the parser refines the grammar

    For every allocator, parsing runs without undefined behaviour, returns either
    NULL, having freed everything it allocated, or a value that represents exactly
    the tree [parse_json] assigns to the text; and it returns NULL only when the
    text has no tree or the allocator refused a request. *)
From stdpp Require Import base list numbers gmap.
From iris.proofmode Require Import proofmode.
From S2P Require Import Prelude CMem SepLogic ParsonText CNum Parson ParsonParse JsonSpec.
From S2P Require Import ParsonRep ParsonTextProof ParsonMemProof.

Section parse_proof.
Context `{Malloc}.
(** The largest request made while parsing, as a bound on the text requires. *)
Context (Bd : Z).
Definition fits (s : bytes) : Prop := (16 * Z.of_nat (length s) + 128 ≤ Bd)%Z.

Lemma fits_mono s s' : length s' ≤ length s → fits s → fits s'.
Proof. rewrite /fits. lia. Qed.
Lemma failed_small n : (∃ s, fits s ∧ (n ≤ 16 * Z.of_nat (length s) + 128)%Z) →
  malloc_failed n → malloc_failed Bd.
Proof. intros (s & Hs & Hn). apply malloc_failed_mono. rewrite /fits in Hs. lia. Qed.

(** What a parsing function delivers: a tree, or nothing at all. *)
Definition parsed (o : option (json * bytes)) (r : ptr * bytes) : hP :=
  match r.1 with
  | Some l => ∃ t, vrep None l t ∗ ⌜⌜o = Some (t, r.2)⌝⌝
  | None => ⌜⌜o = None ∨ malloc_failed Bd⌝⌝
  end%I.

Lemma parsed_null o s : o = None ∨ malloc_failed Bd → ⊢ parsed o (None, s).
Proof. intros Ho. rewrite /parsed /=. auto. Qed.
Lemma parsed_tree o l t s : o = Some (t, s) → vrep None l t ⊢ parsed o (Some l, s).
Proof. iIntros (->) "Hv". rewrite /parsed /=. iExists t. by iFrame. Qed.

Lemma wp_process_string s rest Φ :
  fits s → skip_quotes_loop s = Some rest →
  let len := (Z.of_nat (length s) - Z.of_nat (length rest) - 1)%Z in
  (∀ r, (match r with
         | Some l => ∃ out, chars l (cstr out) ∗ ⌜⌜process_string_text s len = (out, true)⌝⌝
         | None => ⌜⌜(process_string_text s len).2 = false ∨ malloc_failed Bd⌝⌝
         end) -∗ Φ r) -∗
  wp (process_string s len) Φ.
Proof.
  iIntros (Hfit Hq len) "HΦ".
  pose proof (skip_quotes_loop_length _ _ Hq) as Hlen.
  pose proof (process_string_fits (S (length s)) s rest Hq) as Hout.
  change (process_string_loop _ _ _) with (process_string_text s len) in Hout.
  assert (Hsz : (0 ≤ len < Z.of_nat (length s))%Z) by (rewrite /len; lia).
  change (Z.of_nat (length s) - Z.of_nat (length rest) - 1)%Z with len in Hout.
  rewrite /fits in Hfit.
  iApply wp_bind. iApply wp_malloc. iIntros ([lo|] Hr) "Hr"; last first.
  { destruct Hr as [k Hk]. iApply wp_bind. iApply wp_free_null. iApply wp_ret. iApply "HΦ". iFrame.
    iPureIntro. right. eapply malloc_failed_mono, malloc_failed_intro, Hk. lia. }
  destruct (process_string_text s len) as [out ok] eqn:Htext. simpl in Hout.
  rewrite (proj2 (Z.leb_le (Z.of_nat (length out)) (len + 1))); [|lia].
  iApply wp_bind. iApply wp_ret. destruct ok.
  - rewrite (proj2 (Z.leb_le (Z.of_nat (length out) + 1) (len + 1))); [|lia].
    iApply wp_bind. iApply wp_ret.
    iApply wp_bind. iApply (wp_store with "Hr"). iIntros "Hr".
    iApply wp_bind. iApply wp_malloc. iIntros ([l2|] Hr2) "Hr2"; iApply wp_bind.
    + iApply (wp_free with "Hr"). iApply wp_ret. iApply "HΦ". iExists out.
      rewrite -cstr_app_end. iSplit; [|done]. iExists _, _. iFrame. iPureIntro. set_solver.
    + destruct Hr2 as [k Hk]. iApply (wp_free with "Hr"). iApply wp_ret. iApply "HΦ". iFrame.
      iPureIntro. right. eapply malloc_failed_mono, malloc_failed_intro, Hk. lia.
  - iApply wp_bind. iApply (wp_free with "Hr"). iApply wp_ret. iApply "HΦ". auto.
Qed.

Lemma wp_get_quoted_string s Φ :
  fits s →
  (∀ r s', (match r with
            | Some l => ∃ str, chars l str ∗ ⌜⌜quoted_text s = Some (str, s')⌝⌝
            | None => ⌜⌜quoted_text s = None ∨ malloc_failed Bd⌝⌝
            end) -∗ Φ (r, s')) -∗
  wp (get_quoted_string s) Φ.
Proof.
  iIntros (Hfit) "HΦ". rewrite /get_quoted_string /quoted_text.
  destruct (skip_quotes s) as [rest|] eqn:Hq; last first.
  { iApply wp_ret. iApply "HΦ". auto. }
  rewrite /skip_quotes in Hq. case_decide as Hc; [|done].
  apply hd_c_cons in Hc as [r ->]; [|done]. simpl in Hq |- *.
  replace (Z.of_nat (S (length r)) - Z.of_nat (length rest) - 2)%Z with
    (Z.of_nat (length r) - Z.of_nat (length rest) - 1)%Z by lia.
  iApply wp_bind. iApply (wp_process_string with "[-]"); [by eapply fits_mono; [|done]; simpl; lia|done|].
  iIntros ([l|]) "Hl"; iApply wp_ret; iApply "HΦ".
  - iDestruct "Hl" as (out) "[Hl ->]". iExists _. by iFrame.
  - iDestruct "Hl" as %[Hf|Hf]; iPureIntro; [left|by right].
    destruct (process_string_text r _) as [out ok]. simpl in Hf. by subst.
Qed.

(** ** Scalars *)

Lemma wp_parse_string s Φ :
  fits s → (∀ r, parsed (parse_string s) r -∗ Φ r) -∗ wp (parse_string_value s) Φ.
Proof.
  iIntros (Hfit) "HΦ". iApply wp_bind. iApply wp_get_quoted_string; [done|].
  iIntros ([l|] s') "Hl"; rewrite /parse_string; last first.
  { iApply wp_ret. iApply "HΦ". rewrite /parsed /=. iDestruct "Hl" as %Hx. iPureIntro.
    destruct Hx as [->|]; auto. }
  iDestruct "Hl" as (str) "[Hl ->]". simpl.
  iApply wp_bind. iApply wp_init_value. iIntros ([v|]) "Hv".
  - iApply wp_ret. iApply "HΦ". rewrite /parsed /=. iExists (JString str). iSplit; [|done].
    rewrite vrep_string. iExists l. iFrame.
  - iApply wp_bind. iApply (wp_free_chars with "Hl"). iApply wp_ret. iApply "HΦ".
    rewrite /parsed /=. iDestruct "Hv" as %Hf. iPureIntro. right.
    apply (failed_small 40); [|done]. exists s. split; [done|lia].
Qed.

Lemma wp_scalar v t s s' Φ :
  fits s → (∀ l, l ↦ BValue (mkValue None v) ⊢ vrep None l t) →
  (∀ r, parsed (Some (t, s')) r -∗ Φ r) -∗
  wp (r ← init_value v; mret (r, s')) Φ.
Proof.
  iIntros (Hfit Hv) "HΦ". iApply wp_bind. iApply wp_init_value.
  iIntros ([l|]) "Hl"; iApply wp_ret; iApply "HΦ"; rewrite /parsed /=.
  - iExists t. iSplit; [|done]. by iApply Hv.
  - iDestruct "Hl" as %Hf. iPureIntro. right. apply (failed_small 40); [|done].
    exists s. split; [done|lia].
Qed.

Lemma wp_parse_boolean s Φ :
  fits s → (∀ r, parsed (parse_boolean s) r -∗ Φ r) -∗ wp (parse_boolean_value s) Φ.
Proof.
  iIntros (Hfit) "HΦ". rewrite /parse_boolean_value /parse_boolean.
  destruct (strncmp_eq (bs "true") s 4).
  { iApply (wp_scalar with "HΦ"); [done|]. intros l. by rewrite vrep_bool. }
  destruct (strncmp_eq (bs "false") s 5).
  { iApply (wp_scalar with "HΦ"); [done|]. intros l. by rewrite vrep_bool. }
  iApply wp_ret. iApply "HΦ". rewrite /parsed /=. auto.
Qed.

Lemma wp_parse_null s Φ :
  fits s → (∀ r, parsed (parse_null s) r -∗ Φ r) -∗ wp (parse_null_value s) Φ.
Proof.
  iIntros (Hfit) "HΦ". rewrite /parse_null_value /parse_null.
  destruct (strncmp_eq (bs "null") s 4).
  { iApply (wp_scalar with "HΦ"); [done|]. intros l. by rewrite vrep_null. }
  iApply wp_ret. iApply "HΦ". rewrite /parsed /=. auto.
Qed.

(** [(number * 0.0) != 0.0] singles out infinities and NaNs. *)
Lemma nan_inf_test d : dneq (dmul d (S754_zero false)) (S754_zero false) = negb (is_finite d).
Proof. by destruct d as [[]|[]| |[] m e]. Qed.

Lemma wp_parse_number s Φ :
  fits s → (∀ r, parsed (parse_number s) r -∗ Φ r) -∗ wp (parse_number_value s) Φ.
Proof.
  iIntros (Hfit) "HΦ". rewrite /parse_number_value /parse_number.
  destruct (strtod s) as [[d r] er].
  destruct (er || _)%bool.
  { iApply wp_ret. iApply "HΦ". rewrite /parsed /=. auto. }
  rewrite /json_value_init_number nan_inf_test. destruct (is_finite d); simpl.
  - iApply (wp_scalar with "HΦ"); [done|]. intros l. by rewrite vrep_number.
  - iApply wp_bind. iApply wp_ret. iApply wp_ret. iApply "HΦ". rewrite /parsed /=. auto.
Qed.

(** ** Containers *)

Lemma close_object p l lo cap kvs :
  l ↦ BValue (mkValue p (VObject (Some lo))) -∗ orepc l lo cap kvs -∗ vrep p l (JObject kvs).
Proof.
  iIntros "Hl Ho". rewrite vrep_object. iExists lo. iFrame. rewrite orep_orepc. iExists cap. iFrame.
Qed.
Lemma close_array p l la cap ts :
  l ↦ BValue (mkValue p (VArray (Some la))) -∗ arepc l la cap ts -∗ vrep p l (JArray ts).
Proof.
  iIntros "Hl Ho". rewrite vrep_array. iExists la. iFrame. rewrite arep_arepc. iExists cap. iFrame.
Qed.

Section containers.
Context (N : nat) (pv : bytes → nat → MP (ptr * bytes)) (ps : bytes → nat → option (json * bytes)).
Context (Hpv : ∀ s n Φ, length s < N → fits s →
  (∀ r, parsed (ps s n) r -∗ Φ r) ⊢ wp (pv s n) Φ).
Context (Hps : ∀ s n t r, ps s n = Some (t, r) → length r ≤ length s).
(** The whole text, of which every cursor is a suffix. *)
Context (s0 : bytes) (Hs0 : fits s0).

(** Capacities stay within twice the number of entries. *)
Definition cap_ok (cap n : nat) : Prop := cap ≤ Nat.max 16 (2 * n).
Lemma cap_ok_grown cap n : cap_ok cap n → cap_ok (grown cap n) (S n).
Proof. rewrite /cap_ok /grown /STARTING_CAPACITY. case_decide; lia. Qed.
Lemma grown_failed cap n :
  cap_ok cap n → n ≤ length s0 → malloc_failed (Z.of_nat (grown cap n) * 8) → malloc_failed Bd.
Proof.
  intros Hc Hn. apply failed_small. exists s0. split; [done|].
  rewrite /cap_ok in Hc. rewrite /grown /STARTING_CAPACITY. case_decide; lia.
Qed.

Lemma wp_parse_object_loop fuel : ∀ l lo cap kvs s n Φ,
  length s < fuel → length s < N → length s + length kvs ≤ length s0 → cap_ok cap (length kvs) →
  l ↦ BValue (mkValue None (VObject (Some lo))) -∗ orepc l lo cap kvs -∗
  (∀ r, (match r with
         | Some s' => ∃ kvs' cap', l ↦ BValue (mkValue None (VObject (Some lo))) ∗
             orepc l lo cap' kvs' ∗
             ⌜⌜parse_members ps fuel kvs s n = Some (kvs', s') ∧ length kvs' ≤ length s0⌝⌝
         | None => ⌜⌜parse_members ps fuel kvs s n = None ∨ malloc_failed Bd⌝⌝
         end) -∗ Φ r) -∗
  wp (parse_object_loop pv fuel (Some l) (Some lo) s n) Φ.
Proof.
  induction fuel as [|fuel IH]; intros l lo cap kvs s n Φ Hf HN Hs Hcap; [lia|].
  iIntros "Hl Ho HΦ". simpl. case_decide as Hz.
  { iApply wp_ret. iApply "HΦ". iExists kvs, cap. iFrame. iPureIntro. split; [done|lia]. }
  assert (Hfs : fits s) by (eapply fits_mono, Hs0; lia).
  iApply wp_bind. iApply wp_get_quoted_string; [done|]. iIntros ([lk|] s1) "Hk"; last first.
  { iDestruct "Hk" as %Hk. iApply wp_bind.
    iApply (wp_value_free with "[Hl Ho]"); [iApply (close_object with "Hl Ho")|].
    iApply wp_ret. iApply "HΦ". iPureIntro. destruct Hk as [->|]; auto. }
  iDestruct "Hk" as (k) "[Hk %Hq]". rewrite Hq. simpl.
  pose proof (quoted_text_length _ _ _ Hq) as Hlen1.
  pose proof (quoted_text_nonul _ _ _ Hq) as Hnul.
  pose proof (length_skip_ws s1) as Hws1.
  destruct (decide (hd_c (SKIP_WHITESPACES s1) ≠ ":"%byte)) as [Hc|Hc].
  { iApply wp_bind. iApply (wp_free_chars with "Hk"). iApply wp_bind.
    iApply (wp_value_free with "[Hl Ho]"); [iApply (close_object with "Hl Ho")|].
    iApply wp_ret. iApply "HΦ". auto. }
  assert (Hlt : length (SKIP_CHAR (SKIP_WHITESPACES s1)) ≤ length s).
  { rewrite /SKIP_CHAR length_tail. lia. }
  iApply wp_bind. iApply Hpv; [lia|by eapply fits_mono, Hfs|].
  iIntros ([[lv|] s2]) "Hv"; rewrite /parsed /=; last first.
  { iDestruct "Hv" as %Hv. iApply wp_bind. iApply (wp_free_chars with "Hk"). iApply wp_bind.
    iApply (wp_value_free with "[Hl Ho]"); [iApply (close_object with "Hl Ho")|].
    iApply wp_ret. iApply "HΦ". iPureIntro. destruct Hv as [->|]; auto. }
  iDestruct "Hv" as (t) "[Hv %Hps1]". rewrite Hps1 /=.
  pose proof (Hps _ _ _ _ Hps1) as Hlen2. pose proof (length_skip_ws s2) as Hws2.
  wp_ld "Hk". iApply wp_bind. iApply (wp_object_add with "Ho Hv"); [done|].
  iIntros ([|]) "Hst".
  - iDestruct "Hst" as "[%Hnew Ho]". iApply wp_bind. iApply (wp_free_chars with "Hk").
    rewrite (decide_False (P := k ∈ kvs.*1)) //.
    destruct (decide (hd_c (SKIP_WHITESPACES s2) ≠ ","%byte)) as [Hc2|Hc2].
    + iApply wp_ret. iApply "HΦ". iExists _, _. iFrame. iPureIntro. split; [done|].
      rewrite length_app /=. lia.
    + apply dec_stable in Hc2. pose proof (length_tail_lt _ _ Hc2 ltac:(done)) as Hlt2.
      pose proof (length_skip_ws (SKIP_CHAR (SKIP_WHITESPACES s2))) as Hws3.
      rewrite /SKIP_CHAR in Hws3 Hlt Hlen2 |- *.
      iApply (IH with "Hl Ho HΦ"); rewrite ?length_app ?Nat.add_1_r /=.
      * lia.
      * lia.
      * lia.
      * by apply cap_ok_grown.
  - iDestruct "Hst" as "((%cap' & Ho) & Hv & %Hbad)".
    iApply wp_bind. iApply (wp_free_chars with "Hk").
    iApply wp_bind. iApply (wp_value_free with "Hv"). iApply wp_bind.
    iApply (wp_value_free with "[Hl Ho]"); [iApply (close_object with "Hl Ho")|].
    iApply wp_ret. iApply "HΦ". iPureIntro. destruct Hbad as [Hin|[Hbad|Hbad]].
    + left. by rewrite decide_True.
    + right. eapply grown_failed, Hbad; [done|lia].
    + right. eapply failed_small, Hbad. exists s0. split; [done|].
      pose proof (quoted_text_str_length _ _ _ Hq). lia.
Qed.

Lemma wp_parse_array_loop fuel : ∀ l la cap ts s n Φ,
  length s < fuel → length s < N → length s + length ts ≤ length s0 → cap_ok cap (length ts) →
  l ↦ BValue (mkValue None (VArray (Some la))) -∗ arepc l la cap ts -∗
  (∀ r, (match r with
         | Some s' => ∃ ts' cap', l ↦ BValue (mkValue None (VArray (Some la))) ∗
             arepc l la cap' ts' ∗
             ⌜⌜parse_elements ps fuel ts s n = Some (ts', s') ∧
               (length ts' ≤ S (length s0))%nat⌝⌝
         | None => ⌜⌜parse_elements ps fuel ts s n = None ∨ malloc_failed Bd⌝⌝
         end) -∗ Φ r) -∗
  wp (parse_array_loop pv fuel (Some l) (Some la) s n) Φ.
Proof.
  induction fuel as [|fuel IH]; intros l la cap ts s n Φ Hf HN Hs Hcap; [lia|].
  iIntros "Hl Ha HΦ". simpl. case_decide as Hz.
  { iApply wp_ret. iApply "HΦ". iExists ts, cap. iFrame. iPureIntro. split; [done|lia]. }
  assert (Hfs : fits s) by (eapply fits_mono, Hs0; lia).
  iApply wp_bind. iApply Hpv; [lia|done|].
  iIntros ([[lv|] s2]) "Hv"; rewrite /parsed /=; last first.
  { iDestruct "Hv" as %Hv. iApply wp_bind.
    iApply (wp_value_free with "[Hl Ha]"); [iApply (close_array with "Hl Ha")|].
    iApply wp_ret. iApply "HΦ". iPureIntro. destruct Hv as [->|]; auto. }
  iDestruct "Hv" as (t) "[Hv %Hps1]". rewrite Hps1 /=.
  pose proof (Hps _ _ _ _ Hps1) as Hlen2. pose proof (length_skip_ws s2) as Hws2.
  iApply wp_bind. iApply (wp_array_add with "Ha Hv"). iIntros ([|]) "Hst".
  - destruct (decide (hd_c (SKIP_WHITESPACES s2) ≠ ","%byte)) as [Hc2|Hc2].
    + iApply wp_ret. iApply "HΦ". iExists _, _. iFrame. iPureIntro. split; [done|].
      rewrite length_app /=. lia.
    + apply dec_stable in Hc2. pose proof (length_tail_lt _ _ Hc2 ltac:(done)) as Hlt2.
      pose proof (length_skip_ws (SKIP_CHAR (SKIP_WHITESPACES s2))) as Hws3.
      rewrite /SKIP_CHAR in Hws3 |- *.
      iApply (IH with "Hl Hst HΦ"); rewrite ?length_app ?Nat.add_1_r /=; [lia..|].
      by apply cap_ok_grown.
  - iDestruct "Hst" as "(Ha & Hv & %Hbad)".
    iApply wp_bind. iApply (wp_value_free with "Hv"). iApply wp_bind.
    iApply (wp_value_free with "[Hl Ha]"); [iApply (close_array with "Hl Ha")|].
    iApply wp_ret. iApply "HΦ". iPureIntro. right. eapply grown_failed, Hbad; [done|lia].
Qed.

Lemma wp_parse_object s n Φ :
  hd_c s = "{"%byte → length s ≤ N → length s ≤ length s0 →
  (∀ r, parsed (parse_object ps s n) r -∗ Φ r) -∗ wp (parse_object_value pv s n) Φ.
Proof.
  iIntros (Hc HN Hle) "HΦ". pose proof (length_tail_lt _ _ Hc ltac:(done)) as Htl.
  rewrite /parse_object_value /parse_object.
  pose proof (length_skip_ws (SKIP_CHAR s)) as Hws. rewrite {2}/SKIP_CHAR in Hws.
  iApply wp_bind. iApply wp_init_object. iIntros ([l|]) "Hl"; last first.
  { iDestruct "Hl" as %Hf. iApply wp_ret. iApply "HΦ". iApply parsed_null. right.
    apply (failed_small 40); [|done]. exists s0. split; [done|lia]. }
  iDestruct "Hl" as (lo) "[Hl Ho]". rewrite (decide_False (P := hd_c s ≠ "{"%byte)); [|by intros Hx].
  iApply wp_bind. iApply (wp_get_object with "Hl"). iIntros "Hl".
  set (s1 := SKIP_WHITESPACES (SKIP_CHAR s)) in *. cbv zeta.
  case_decide.
  { iApply wp_ret. iApply "HΦ". iApply parsed_tree; [done|].
    iApply (close_object with "Hl Ho"). }
  iApply wp_bind. iApply (wp_parse_object_loop with "Hl Ho"); [lia|lia|simpl; lia|rewrite /cap_ok; lia|].
  iIntros ([s2|]) "Hr"; last first.
  { iDestruct "Hr" as %Hr. iApply wp_ret. iApply "HΦ". iApply parsed_null.
    destruct Hr as [->|]; auto. }
  iDestruct "Hr" as (kvs cap) "(Hl & Ho & %Hr)". destruct Hr as [Hr Hcount].
  destruct (decide (hd_c (SKIP_WHITESPACES s2) = "}"%byte)) as [Hc2|Hc2]; last first.
  { rewrite (decide_True (P := hd_c (SKIP_WHITESPACES s2) ≠ "}"%byte)) //. iApply wp_bind.
    iApply (wp_value_free with "[Hl Ho]"); [iApply (close_object with "Hl Ho")|].
    iApply wp_ret. iApply "HΦ". iApply parsed_null. left. by rewrite Hr /= decide_False. }
  rewrite (decide_False (P := hd_c (SKIP_WHITESPACES s2) ≠ "}"%byte)); [|by intros Hx].
  assert (Hpos : 0 < length kvs).
  { destruct kvs; [|simpl; lia]. apply parse_members_nil in Hr. congruence. }
  iDestruct "Ho" as (pn pv' ns ls) "[Ho Hts]".
  iDestruct (big_sepL2_length with "Hts") as %Hls. rewrite length_fmap in Hls.
  iApply wp_bind. iApply (wp_get_count with "Ho"). iIntros "Ho". rewrite length_fmap.
  iApply wp_bind. iApply (wp_object_resize with "Ho"); rewrite ?length_fmap; [done..|].
  iIntros ([|]) "Hst".
  - iDestruct "Hst" as (pn' pv2) "Ho". iApply wp_ret. iApply "HΦ".
    iApply (parsed_tree _ _ (JObject kvs)); [by rewrite Hr /= decide_True|]. iApply (close_object with "Hl").
    iExists pn', pv2, ns, ls. iFrame.
  - iDestruct "Hst" as "[Ho %Hf]". iApply wp_bind.
    iApply (wp_value_free with "[Hl Ho Hts]").
    { iApply (close_object with "Hl"). iExists pn, pv', ns, ls. iFrame. }
    iApply wp_ret. iApply "HΦ". iApply parsed_null. right.
    eapply failed_small, Hf. exists s0. split; [done|lia].
Qed.

Lemma wp_parse_array s n Φ :
  hd_c s = "["%byte → length s ≤ N → length s ≤ length s0 →
  (∀ r, parsed (parse_array ps s n) r -∗ Φ r) -∗ wp (parse_array_value pv s n) Φ.
Proof.
  iIntros (Hc HN Hle) "HΦ". pose proof (length_tail_lt _ _ Hc ltac:(done)) as Htl.
  rewrite /parse_array_value /parse_array.
  pose proof (length_skip_ws (SKIP_CHAR s)) as Hws. rewrite {2}/SKIP_CHAR in Hws.
  iApply wp_bind. iApply wp_init_array. iIntros ([l|]) "Hl"; last first.
  { iDestruct "Hl" as %Hf. iApply wp_ret. iApply "HΦ". iApply parsed_null. right.
    apply (failed_small 40); [|done]. exists s0. split; [done|lia]. }
  iDestruct "Hl" as (la) "[Hl Ha]". rewrite (decide_False (P := hd_c s ≠ "["%byte)); [|by intros Hx].
  iApply wp_bind. iApply (wp_get_array with "Hl"). iIntros "Hl".
  set (s1 := SKIP_WHITESPACES (SKIP_CHAR s)) in *. cbv zeta.
  case_decide.
  { iApply wp_ret. iApply "HΦ". iApply parsed_tree; [done|].
    iApply (close_array with "Hl Ha"). }
  iApply wp_bind. iApply (wp_parse_array_loop with "Hl Ha"); [lia|lia|simpl; lia|rewrite /cap_ok; lia|].
  iIntros ([s2|]) "Hr"; last first.
  { iDestruct "Hr" as %Hr. iApply wp_ret. iApply "HΦ". iApply parsed_null.
    destruct Hr as [->|]; auto. }
  iDestruct "Hr" as (ts cap) "(Hl & Ha & %Hr)". destruct Hr as [Hr Hcount].
  destruct (decide (hd_c (SKIP_WHITESPACES s2) = "]"%byte)) as [Hc2|Hc2]; last first.
  { rewrite (decide_True (P := hd_c (SKIP_WHITESPACES s2) ≠ "]"%byte)) //. iApply wp_bind.
    iApply (wp_value_free with "[Hl Ha]"); [iApply (close_array with "Hl Ha")|].
    iApply wp_ret. iApply "HΦ". iApply parsed_null. left. by rewrite Hr /= decide_False. }
  rewrite (decide_False (P := hd_c (SKIP_WHITESPACES s2) ≠ "]"%byte)); [|by intros Hx].
  assert (Hpos : 0 < length ts).
  { destruct ts; [|simpl; lia]. apply parse_elements_nil in Hr. congruence. }
  iApply wp_bind. iDestruct "Ha" as (q ls) "(Hla & Hs & Hts)". wp_ld "Hla". iApply wp_ret. cbn [arr_count].
  iApply wp_bind. iApply (wp_array_resize with "[Hla Hs Hts]"); [done|done|iExists q, ls; iFrame|].
  iIntros ([|]) "Hst".
  - iApply wp_ret. iApply "HΦ".
    iApply (parsed_tree _ _ (JArray ts)); [by rewrite Hr /= decide_True|]. iApply (close_array with "Hl Hst").
  - iDestruct "Hst" as "[Ha %Hf]". iApply wp_bind.
    iApply (wp_value_free with "[Hl Ha]"); [iApply (close_array with "Hl Ha")|].
    iApply wp_ret. iApply "HΦ". iApply parsed_null. right.
    eapply failed_small, Hf. exists s0. split; [done|lia].
Qed.
End containers.

Lemma wp_parse_value fuel : ∀ s n Φ,
  length s < fuel → fits s →
  (∀ r, parsed (parse_json_at MAX_NESTING fuel s n) r -∗ Φ r) ⊢ wp (parse_value fuel s n) Φ.
Proof.
  induction fuel as [|fuel IH]; intros s n Φ Hf Hfit; [lia|].
  iIntros "HΦ". simpl. pose proof (length_skip_ws s) as Hws.
  set (s1 := SKIP_WHITESPACES s) in *. cbv zeta.
  assert (Hfit1 : fits s1) by by eapply fits_mono, Hfit.
  case_decide. { iApply wp_ret. iApply "HΦ". rewrite /parsed /=. auto. }
  case_decide.
  { iApply (wp_parse_object fuel _ (parse_json_at MAX_NESTING fuel) IH with "HΦ");
      [apply parse_json_at_length|done|done|lia|done]. }
  case_decide.
  { iApply (wp_parse_array fuel _ (parse_json_at MAX_NESTING fuel) IH with "HΦ");
      [apply parse_json_at_length|done|done|lia|done]. }
  case_decide; [by iApply wp_parse_string|].
  case_decide; [by iApply wp_parse_boolean|].
  case_decide; [by iApply wp_parse_number|].
  destruct (isdigit _); [by iApply wp_parse_number|].
  case_decide; [by iApply wp_parse_null|].
  iApply wp_ret. iApply "HΦ". rewrite /parsed /=. auto.
Qed.
End parse_proof.
