(* ===== verification/ParsonOpsProof.v ===== *)
(** * Parson: specifications of lookup, replacement and removal

    The effect of each operation on the member list of an object or on the element
    list of an array is a function on lists ([oset], [oremove], [insert],
    [delete]); the operations on memory are proved to compute them. *)
From stdpp Require Import base list numbers gmap.
From iris.proofmode Require Import proofmode.
From S2P Require Import Prelude CMem SepLogic ParsonText CNum Parson ParsonOps JsonSpec.
From S2P Require Import ParsonRep ParsonMemProof ParsonParseProof.

(** ** Member lists *)

(** Replace the first member named [k], or add one at the end. *)
Definition oset (k : bytes) (t : json) (kvs : list (bytes * json)) : list (bytes * json) :=
  match find_key k kvs.*1 with
  | Some i => <[i := (k, t)]> kvs
  | None => kvs ++ [(k, t)]
  end.

(** Remove entry [i] by moving the last entry into its place. *)
Definition swap_remove {A} (i : nat) (l : list A) : list A :=
  match last l with
  | Some x => take (length l - 1) (<[i := x]> l)
  | None => []
  end.
Definition oremove (k : bytes) (kvs : list (bytes * json)) : list (bytes * json) :=
  match find_key k kvs.*1 with Some i => swap_remove i kvs | None => kvs end.

Lemma length_swap_remove {A} i (l : list A) : length (swap_remove i l) = length l - 1.
Proof.
  rewrite /swap_remove. destruct l as [|x l] using rev_ind; [done|].
  rewrite last_snoc length_take length_insert length_app /=. lia.
Qed.

Lemma swap_remove_fmap {A B} (f : A → B) i l : f <$> swap_remove i l = swap_remove i (f <$> l).
Proof.
  rewrite /swap_remove fmap_last. destruct (last l) as [x|]; [|done]. simpl.
  by rewrite fmap_take list_fmap_insert length_fmap.
Qed.

(** Removing an entry removes exactly that entry, up to order. *)
Lemma swap_remove_perm {A} i (l : list A) x :
  l !! i = Some x → l ≡ₚ x :: swap_remove i l.
Proof.
  intros Hi. rewrite /swap_remove. destruct l as [|y l] using rev_ind; [done|].
  rewrite last_snoc length_app /= Nat.add_sub.
  apply lookup_app_Some in Hi as [Hi|[Hle Hi]].
  - rewrite insert_app_l; [|by eapply lookup_lt_Some].
    rewrite take_app_length'; [|by rewrite length_insert].
    rewrite -{1}(take_drop_middle _ _ _ Hi) insert_take_drop; [|by eapply lookup_lt_Some].
    by solve_Permutation.
  - assert (i = length l) as ->.
    { apply lookup_lt_Some in Hi. simpl in Hi. lia. }
    rewrite Nat.sub_diag in Hi. simpl in Hi. injection Hi as ->.
    rewrite insert_app_r_alt // Nat.sub_diag /= take_app_length //. by rewrite Permutation_app_comm.
Qed.

Lemma olookup_find k kvs :
  olookup k kvs = i ← find_key k kvs.*1; kvs.*2 !! i.
Proof.
  rewrite /find_key. induction kvs as [|[k' t] kvs IH]; [done|]. simpl.
  destruct (decide (k' = k)) as [->|Hne].
  - by rewrite decide_True.
  - destruct (decide (k = k')) as [->|_]; [done|]. rewrite IH.
    change (list_fmap _ _ fst kvs) with kvs.*1.
    by destruct (list_find _ kvs.*1) as [[j y]|].
Qed.

Lemma find_key_values k (kvs : list (bytes * json)) i (ls : list loc) :
  find_key k kvs.*1 = Some i → length ls = length kvs →
  ∃ l t, ls !! i = Some l ∧ kvs.*2 !! i = Some t ∧ kvs !! i = Some (k, t).
Proof.
  intros Hi Hls. pose proof (find_key_lt _ _ _ Hi) as Hlt. rewrite length_fmap in Hlt.
  apply find_key_Some in Hi as [Hi _].
  destruct (lookup_lt_is_Some_2 ls i) as [l Hl]; [lia|].
  destruct (lookup_lt_is_Some_2 kvs i Hlt) as [[k' t] Hkv].
  rewrite list_lookup_fmap Hkv /= in Hi. injection Hi as ->.
  exists l, t. rewrite list_lookup_fmap Hkv. done.
Qed.

Lemma big_sepL2_swap_remove {A C} (Φ : A → C → hP) l1 l2 i x y :
  l1 !! i = Some x → l2 !! i = Some y →
  ([∗ list] a;b ∈ l1;l2, Φ a b) ⊢
  Φ x y ∗ [∗ list] a;b ∈ swap_remove i l1;swap_remove i l2, Φ a b.
Proof.
  iIntros (Hx Hy) "H". iDestruct (big_sepL2_length with "H") as %Hlen.
  rewrite big_sepL2_alt. iDestruct "H" as "[_ H]".
  assert (Hz : zip l1 l2 !! i = Some (x, y)).
  { apply lookup_zip_with_Some. by exists x, y. }
  rewrite {1}(swap_remove_perm _ _ _ Hz). simpl. iDestruct "H" as "[$ H]".
  assert (H1 : swap_remove i l1 = (swap_remove i (zip l1 l2)).*1).
  { rewrite swap_remove_fmap fst_zip //. lia. }
  assert (H2 : swap_remove i l2 = (swap_remove i (zip l1 l2)).*2).
  { rewrite swap_remove_fmap snd_zip //. lia. }
  rewrite H1 H2 big_sepL2_alt zip_fst_snd. iSplit; [|done]. iPureIntro. by rewrite !length_fmap.
Qed.

Lemma big_sepL2_remove {A C} (Φ : A → C → hP) l1 l2 i x y :
  l1 !! i = Some x → l2 !! i = Some y →
  ([∗ list] a;b ∈ l1;l2, Φ a b) ⊢ Φ x y ∗ [∗ list] a;b ∈ delete i l1;delete i l2, Φ a b.
Proof.
  iIntros (Hx Hy) "H". rewrite !delete_take_drop.
  rewrite -{1}(take_drop_middle _ _ _ Hx) -{1}(take_drop_middle _ _ _ Hy).
  apply lookup_lt_Some in Hx, Hy.
  rewrite big_sepL2_app_same_length; [|left; rewrite !length_take; lia].
  iDestruct "H" as "(H1 & $ & H2)". iApply (big_sepL2_app with "H1 H2").
Qed.

Lemma oset_id k t kvs : olookup k kvs = Some t → oset k t kvs = kvs.
Proof.
  rewrite olookup_find /oset. destruct (find_key k kvs.*1) as [i|] eqn:Hi; [|done]. simpl.
  intros Ht. apply find_key_Some in Hi as [Hk _]. apply list_insert_id.
  rewrite list_lookup_fmap in Hk. rewrite list_lookup_fmap in Ht.
  destruct (kvs !! i) as [[k' t']|]; naive_solver.
Qed.

(** A dotted name is a path of member names. *)
Fixpoint split_path (s : bytes) : list bytes :=
  match s with
  | [] => [[]]
  | c :: r =>
      if decide (c = "."%byte) then [] :: split_path r
      else match split_path r with p :: ps => (c :: p) :: ps | [] => [[c]] end
  end.
Fixpoint path_lookup (ps : list bytes) (kvs : list (bytes * json)) : option json :=
  match ps with
  | [] => None
  | [k] => olookup k kvs
  | k :: ps => match olookup k kvs with Some (JObject kvs') => path_lookup ps kvs' | _ => None end
  end.
Lemma split_path_ne s : split_path s ≠ [].
Proof. destruct s; simpl; [done|]. case_decide; [done|]. by destruct (split_path s). Qed.
Lemma path_lookup_cons k ps kvs :
  ps ≠ [] →
  path_lookup (k :: ps) kvs =
    match olookup k kvs with Some (JObject kvs') => path_lookup ps kvs' | _ => None end.
Proof. by destruct ps. Qed.

Section ops_proof.
Context `{Malloc}.

(** The scan for a name that the object operations share. *)
Lemma wp_scan_names {R} w lo pn pv cap ns ls ks k i
    (act : JSON_Object → nat → MP (option R)) Φ :
  find_key k ks = Some i → nonul k →
  ohead w lo pn pv cap ns ls ks -∗
  (ohead w lo pn pv cap ns ls ks -∗
     wp (act (mkObject (Some w) pn pv (length ks) cap) i)
        (λ r, if r is Some v then Φ (Some v) else False)) -∗
  wp (for_range (length ks) (λ i,
        o ← load_object (Some lo);
        p ← get_slot (names o) i;
        nm ← load_cstr p;
        if strcmp_eq nm k then act o i else mret None)) Φ.
Proof.
  iIntros (Hk Hnul) "Ho HΦ". pose proof (find_key_lt _ _ _ Hk) as Hlt.
  apply find_key_Some in Hk as [Hk Hnot].
  iApply (wp_frame_wand with "[Ho HΦ]").
  { iApply (wp_for_range _ _ (λ j, ⌜⌜j ≤ i⌝⌝ ∗ ohead w lo pn pv cap ns ls ks ∗
      (ohead w lo pn pv cap ns ls ks -∗
         wp (act (mkObject (Some w) pn pv (length ks) cap) i)
          (λ r, if r is Some v then Φ (Some v) else False)))%I (λ v, Φ (Some v)));
      last (iFrame; iPureIntro; lia).
    iIntros (j Hj) "(%Hji & (Hlo & Hsn & Hsv & Hks) & HΦ)".
    iDestruct (big_sepL2_length with "Hks") as %Hlen.
    destruct (lookup_lt_is_Some_2 ks j Hj) as [k' Hk'].
    destruct (lookup_lt_is_Some_2 ns j) as [nl Hnl]; [lia|].
    wp_ld "Hlo". iApply wp_bind. iApply (wp_get_slot with "Hsn"); [done|]. iIntros "Hsn".
    iDestruct (big_sepL2_lookup_acc with "Hks") as "[Hk Hclose]"; [done..|].
    iDestruct (chars_nonul with "Hk") as %Hnul'.
    wp_ld "Hk". iDestruct ("Hclose" with "Hk") as "Hks".
    rewrite /strcmp_eq !cstr_nonul //. case_bool_decide as Heq.
    - subst k'. assert (j = i) as ->.
      { destruct (decide (j = i)); [done|]. exfalso. apply Hnot, list_elem_of_lookup.
        exists j. apply lookup_take_Some. split; [done|lia]. }
      iApply (wp_mono with "[-]"); last first.
      { iApply "HΦ". iFrame. }
      iIntros ([v|]) "Hv"; [done|]. iDestruct "Hv" as "[]".
    - iApply wp_ret. iFrame. iPureIntro. destruct (decide (j = i)) as [->|]; [congruence|lia]. }
  iIntros ([v|]) "Hr"; [done|]. iDestruct "Hr" as "[%Hbad Hr]". lia.
Qed.

(** The value found under a name can be used and given back. *)
Lemma wp_object_getn_value w lo kvs name n Φ :
  n ≤ length name →
  orep w lo kvs -∗
  (∀ r, (match olookup (take n name) kvs with
         | Some t => ∃ l, ⌜⌜r = Some l⌝⌝ ∗ vrep (Some w) l t ∗
                      (∀ t', vrep (Some w) l t' -∗ orep w lo (oset (take n name) t' kvs))
         | None => ⌜⌜r = None⌝⌝ ∗ orep w lo kvs
         end) -∗ Φ r) -∗
  wp (json_object_getn_value (Some lo) name n) Φ.
Proof.
  iIntros (Hn) "Ho HΦ". rewrite {1}orep_ohead. iDestruct "Ho" as (pn pv cap ns ls) "[Ho Hts]".
  iDestruct (big_sepL2_length with "Hts") as %Hls. rewrite length_fmap in Hls.
  iApply (wp_getn_value with "Ho"); [by rewrite length_fmap|done|].
  iIntros "Ho". iApply "HΦ". rewrite olookup_find.
  destruct (find_key (take n name) kvs.*1) as [i|] eqn:Hi; simpl.
  - destruct (find_key_values _ _ _ ls Hi Hls) as (l & t & Hl & Ht & Hkv).
    rewrite Hl Ht. iExists l. iSplit; [done|].
    iDestruct (big_sepL2_insert_acc with "Hts") as "[$ Hclose]"; [done..|].
    iIntros (t') "Hv". iDestruct ("Hclose" with "Hv") as "Hts".
    rewrite list_insert_id //. rewrite orep_ohead. iExists pn, pv, cap, ns, ls.
    rewrite /oset Hi !list_fmap_insert /= (list_insert_id kvs.*1) //; [iFrame|].
    by rewrite list_lookup_fmap Hkv.
  - iSplit; [done|]. rewrite orep_ohead. iExists pn, pv, cap, ns, ls. iFrame.
Qed.
Lemma wp_object_get_value w lo kvs name Φ :
  orep w lo kvs -∗
  (∀ r, (match olookup name kvs with
         | Some t => ∃ l, ⌜⌜r = Some l⌝⌝ ∗ vrep (Some w) l t ∗
                      (∀ t', vrep (Some w) l t' -∗ orep w lo (oset name t' kvs))
         | None => ⌜⌜r = None⌝⌝ ∗ orep w lo kvs
         end) -∗ Φ r) -∗
  wp (json_object_get_value (Some lo) (Some name)) Φ.
Proof.
  iIntros "Ho HΦ". iApply (wp_object_getn_value with "Ho"); [done|]. rewrite firstn_all. done.
Qed.

Lemma wp_detached p l t Φ :
  vrep p l t -∗ (vrep p l t -∗ Φ (bool_decide (p = None))) -∗ wp (detached (Some l)) Φ.
Proof.
  iIntros "Hv HΦ". iDestruct (vrep_header with "Hv") as (v) "(Hl & _ & Hclose)".
  wp_ld "Hl". iApply wp_ret. iDestruct ("Hclose" with "Hl") as "Hv".
  destruct p; by iApply "HΦ".
Qed.

Lemma oset_new k t kvs : find_key k kvs.*1 = None → oset k t kvs = kvs ++ [(k, t)].
Proof. rewrite /oset. by intros ->. Qed.

Lemma wp_object_set_value w lo cap kvs name lv t Φ :
  nonul name →
  orepc w lo cap kvs -∗ vrep None lv t -∗
  (∀ st, (match st with
     | JSONSuccess => ∃ cap', orepc w lo cap' (oset name t kvs)
     | JSONFailure => (∃ cap', orepc w lo cap' kvs) ∗ vrep None lv t ∗
         ⌜⌜name ∉ kvs.*1 ∧ (malloc_failed (Z.of_nat (grown cap (length kvs)) * 8)
           ∨ malloc_failed (Z.of_nat (length name) + 1))⌝⌝
     end) -∗ Φ st) -∗
  wp (json_object_set_value (Some lo) (Some name) (Some lv)) Φ.
Proof.
  iIntros (Hnul) "Ho Hv HΦ".
  iApply wp_bind. iApply (wp_detached with "Hv"). iIntros "Hv". simpl.
  iDestruct "Ho" as (pn pv ns ls) "[Ho Hts]".
  iDestruct (big_sepL2_length with "Hts") as %Hls. rewrite length_fmap in Hls.
  iApply wp_bind. iApply (wp_getn_value with "Ho"); [by rewrite length_fmap|done|].
  rewrite firstn_all. iIntros "Ho".
  destruct (find_key name kvs.*1) as [i|] eqn:Hi; simpl; last first.
  { iApply wp_bind. iApply wp_ret. iApply (wp_object_add with "[Ho Hts] Hv"); [done|..].
    { iExists pn, pv, ns, ls. iFrame. }
    iIntros ([|]) "Hst"; iApply "HΦ".
    - iDestruct "Hst" as "[_ Ho]". iExists _. rewrite oset_new //.
    - iDestruct "Hst" as "($ & $ & %Hf)". iPureIntro. apply find_key_None in Hi.
      split; [done|]. by destruct Hf. }
  destruct (find_key_values _ _ _ ls Hi Hls) as (l & t0 & Hl & Ht & Hkv). rewrite Hl /=.
  iDestruct (big_sepL2_insert_acc with "Hts") as "[Ht Hclose]"; [done..|].
  iApply wp_bind. iApply wp_bind. iApply (wp_value_free with "Ht").
  iApply wp_bind. iApply (wp_get_count with "Ho"). iIntros "Ho".
  iApply (wp_scan_names _ _ _ _ _ _ _ _ _ i
    (λ o i, w ← json_object_get_wrapping_value (Some lo);
            set_parent (Some lv) w;; set_slot (values o) i (Some lv);; mret (Some JSONSuccess))
    with "Ho"); [done..|].
  iIntros "(Hlo & Hsn & Hsv & Hks)".
  iApply wp_bind. wp_ld "Hlo". iApply wp_ret. simpl.
  iApply wp_bind. iApply (wp_set_parent with "Hv"). iIntros "Hv".
  iApply wp_bind. iApply (wp_set_slot with "Hsv"); [by eapply lookup_lt_Some|]. iIntros "Hsv".
  iApply wp_ret. iApply wp_ret. iApply "HΦ". iDestruct ("Hclose" with "Hv") as "Hts".
  iExists cap, pn, pv, ns, (<[i:=lv]> ls).
  rewrite /oset Hi /ohead !list_fmap_insert /= (list_insert_id kvs.*1).
  - iFrame.
  - by rewrite list_lookup_fmap Hkv.
Qed.

(** A value that already has a parent is refused and nothing changes. *)
Lemma wp_object_set_value_owned w lo kvs name q lv t Φ :
  orep w lo kvs -∗ vrep (Some q) lv t -∗
  (orep w lo kvs -∗ vrep (Some q) lv t -∗ Φ JSONFailure) -∗
  wp (json_object_set_value (Some lo) (Some name) (Some lv)) Φ.
Proof.
  iIntros "Ho Hv HΦ". iApply wp_bind. iApply (wp_detached with "Hv"). iIntros "Hv". simpl.
  iApply wp_ret. iApply ("HΦ" with "Ho Hv").
Qed.

(** ** Removal *)


Lemma wp_remove_entry w lo cap kvs i k t Φ :
  kvs !! i = Some (k, t) →
  orepc w lo cap kvs -∗
  (orepc w lo cap (swap_remove i kvs) -∗ Φ ()) -∗
  wp (remove_entry (Some lo) i (length kvs - 1) true) Φ.
Proof.
  iIntros (Hkv) "(%pn & %pv & %ns & %ls & (Hlo & Hn & Hv & Hks) & Hts) HΦ".
  iDestruct (big_sepL2_length with "Hks") as %Hns.
  iDestruct (big_sepL2_length with "Hts") as %Hls. rewrite !length_fmap in Hns Hls.
  pose proof (lookup_lt_Some _ _ _ Hkv) as Hlt.
  destruct (lookup_lt_is_Some_2 ns i) as [n Hnn]; [lia|].
  destruct (lookup_lt_is_Some_2 ls i) as [l Hl]; [lia|].
  destruct (lookup_lt_is_Some_2 ns (length kvs - 1)) as [nz Hnz]; [lia|].
  destruct (lookup_lt_is_Some_2 ls (length kvs - 1)) as [lz Hlz]; [lia|].
  assert (Hzn : last ns = Some nz) by (rewrite last_lookup -Hnz Hns; f_equal; lia).
  assert (Hzl : last ls = Some lz) by (rewrite last_lookup -Hlz Hls; f_equal; lia).
  rewrite /nreps (big_sepL2_swap_remove _ ns kvs.*1 i n k) //; last by rewrite list_lookup_fmap Hkv.
  rewrite /vreps (big_sepL2_swap_remove _ ls kvs.*2 i l t) //; last by rewrite list_lookup_fmap Hkv.
  iDestruct "Hks" as "[Hk Hks]". iDestruct "Hts" as "[Ht Hts]".
  wp_ld "Hlo". simpl. iApply wp_bind. iApply (wp_get_slot with "Hn"); [done|]. iIntros "Hn".
  iApply wp_bind. iApply (wp_free_chars with "Hk").
  iApply wp_bind. iApply wp_bind. iApply (wp_get_slot with "Hv"); [done|]. iIntros "Hv".
  iApply (wp_value_free with "Ht"). iApply wp_bind.
  iApply (wp_frame_wand _ (λ _, slots pn (<[i:=nz]> ns) cap ∗ slots pv (<[i:=lz]> ls) cap)%I
    with "[Hn Hv]").
  { case_decide as Hil.
    - iApply wp_ret. subst i. rewrite !list_insert_id; [iFrame|congruence..].
    - iApply wp_bind. iApply (wp_get_slot with "Hn"); [done|]. iIntros "Hn".
      iApply wp_bind. iApply (wp_set_slot with "Hn"); [lia|]. iIntros "Hn".
      iApply wp_bind. iApply (wp_get_slot with "Hv"); [done|]. iIntros "Hv".
      iApply (wp_set_slot with "Hv"); [lia|]. iIntros "Hv". iFrame. }
  iIntros ([]) "[Hn Hv]". iApply (wp_store with "Hlo"). iIntros "Hlo". iApply "HΦ".
  iExists pn, pv, (swap_remove i ns), (swap_remove i ls).
  rewrite /ohead !swap_remove_fmap length_swap_remove length_fmap. iFrame "Hlo Hks Hts".
  iSplitL "Hn"; [rewrite /swap_remove Hzn|rewrite /swap_remove Hzl]; by iApply slots_take.
Qed.

Lemma wp_object_remove w lo cap kvs name Φ :
  nonul name →
  orepc w lo cap kvs -∗
  (orepc w lo cap (oremove name kvs) -∗
     Φ (if find_key name kvs.*1 is Some _ then JSONSuccess else JSONFailure)) -∗
  wp (json_object_remove (Some lo) (Some name)) Φ.
Proof.
  iIntros (Hnul) "(%pn & %pv & %ns & %ls & Ho & Hts) HΦ".
  iDestruct (big_sepL2_length with "Hts") as %Hls. rewrite length_fmap in Hls.
  iApply wp_bind. iApply (wp_getn_value with "Ho"); [by rewrite length_fmap|done|].
  rewrite firstn_all. iIntros "Ho". rewrite /oremove.
  destruct (find_key name kvs.*1) as [i|] eqn:Hi; simpl; last first.
  { iApply wp_ret. iApply "HΦ". iExists pn, pv, ns, ls. iFrame. }
  destruct (find_key_values _ _ _ ls Hi Hls) as (l & t & Hl & Ht & Hkv). rewrite Hl.
  iApply wp_bind. iApply (wp_get_count with "Ho"). iIntros "Ho". iApply wp_bind.
  iApply (wp_scan_names _ _ _ _ _ _ _ _ _ i
    (λ _ i, remove_entry (Some lo) i (length kvs.*1 - 1) true;; mret (Some JSONSuccess))
    with "Ho"); [done..|].
  iIntros "Ho". iApply wp_bind. rewrite length_fmap.
  iApply (wp_remove_entry with "[Ho Hts]"); [done|iExists pn, pv, ns, ls; iFrame|].
  iIntros "Ho". iApply wp_ret. iApply wp_ret. by iApply "HΦ".
Qed.

(** ** Arrays *)

Lemma wp_array_get_count w la cap ts Φ :
  arepc w la cap ts -∗ (arepc w la cap ts -∗ Φ (length ts)) -∗ wp (json_array_get_count (Some la)) Φ.
Proof.
  iIntros "(%p & %ls & Hla & Hr) HΦ". wp_ld "Hla". iApply wp_ret. iApply "HΦ".
  iExists p, ls. iFrame.
Qed.

(** The element can be used, replaced, and given back. *)
Lemma wp_array_get_value w la cap ts i t Φ :
  ts !! i = Some t →
  arepc w la cap ts -∗
  (∀ l, vrep (Some w) l t -∗ (∀ t', vrep (Some w) l t' -∗ arepc w la cap (<[i:=t']> ts)) -∗
     Φ (Some l)) -∗
  wp (json_array_get_value (Some la) i) Φ.
Proof.
  iIntros (Ht) "(%p & %ls & Hla & Hs & Hts) HΦ".
  iDestruct (big_sepL2_length with "Hts") as %Hls.
  pose proof (lookup_lt_Some _ _ _ Ht) as Hlt.
  destruct (lookup_lt_is_Some_2 ls i) as [l Hl]; [lia|].
  iApply wp_bind. wp_ld "Hla". iApply wp_ret. rewrite decide_False /=; [|lia].
  wp_ld "Hla". iApply (wp_get_slot with "Hs"); [done|]. iIntros "Hs".
  iDestruct (big_sepL2_insert_acc with "Hts") as "[Hv Hclose]"; [done..|].
  iApply ("HΦ" with "Hv"). iIntros (t') "Hv". iDestruct ("Hclose" with "Hv") as "Hts".
  rewrite list_insert_id //. iExists p, ls. rewrite length_insert. iFrame.
Qed.

Lemma wp_array_append_value w la cap ts lv t Φ :
  arepc w la cap ts -∗ vrep None lv t -∗
  (∀ st, (match st with
     | JSONSuccess => arepc w la (grown cap (length ts)) (ts ++ [t])
     | JSONFailure => arepc w la cap ts ∗ vrep None lv t ∗
         ⌜⌜malloc_failed (Z.of_nat (grown cap (length ts)) * 8)⌝⌝
     end) -∗ Φ st) -∗
  wp (json_array_append_value (Some la) (Some lv)) Φ.
Proof.
  iIntros "Ha Hv HΦ". iApply wp_bind. iApply (wp_detached with "Hv"). iIntros "Hv". simpl.
  iApply (wp_array_add with "Ha Hv HΦ").
Qed.

Lemma wp_array_replace_value w la cap ts i lv t Φ :
  arepc w la cap ts -∗ vrep None lv t -∗
  (if decide (i < length ts) then arepc w la cap (<[i:=t]> ts) -∗ Φ JSONSuccess
   else arepc w la cap ts -∗ vrep None lv t -∗ Φ JSONFailure) -∗
  wp (json_array_replace_value (Some la) i (Some lv)) Φ.
Proof.
  iIntros "Ha Hv HΦ". iApply wp_bind. iApply (wp_detached with "Hv"). iIntros "Hv". simpl.
  iApply wp_bind. iApply (wp_array_get_count with "Ha"). iIntros "Ha".
  destruct (decide (i < length ts)) as [Hi|Hi]; last first.
  { rewrite decide_True; [|lia]. iApply wp_ret. iApply ("HΦ" with "Ha Hv"). }
  rewrite decide_False; [|lia].
  iDestruct "Ha" as (p ls) "(Hla & Hs & Hts)".
  iDestruct (big_sepL2_length with "Hts") as %Hls.
  destruct (lookup_lt_is_Some_2 ts i Hi) as [t0 Ht0].
  destruct (lookup_lt_is_Some_2 ls i) as [l Hl]; [lia|].
  iDestruct (big_sepL2_insert_acc with "Hts") as "[H0 Hclose]"; [done..|].
  iApply wp_bind. iApply wp_bind. wp_ld "Hla". iApply wp_ret.
  rewrite decide_False /=; [|lia]. wp_ld "Hla". iApply (wp_get_slot with "Hs"); [done|].
  iIntros "Hs". iApply wp_bind. iApply (wp_value_free with "H0").
  iApply wp_bind. wp_ld "Hla". iApply wp_ret. simpl.
  iApply wp_bind. iApply (wp_set_parent with "Hv"). iIntros "Hv".
  iDestruct ("Hclose" with "Hv") as "Hts". wp_ld "Hla". simpl.
  iApply wp_bind. iApply (wp_set_slot with "Hs"); [lia|]. iIntros "Hs".
  iApply wp_ret. iApply "HΦ". iExists p, _. rewrite length_insert. iFrame.
Qed.

Lemma wp_move_down p ls cap i n Φ :
  i < length ls → length ls = n →
  slots p ls cap -∗ (slots p (delete i ls) cap -∗ Φ ()) -∗ wp (move_down p i n) Φ.
Proof.
  intros Hi <-. destruct p as [a|].
  - iIntros "(%junk & Hl & %Hx) HΦ". iApply wp_bind. iApply (wp_load_ptrs with "Hl").
    iIntros "Hl". rewrite decide_True; [|rewrite length_app length_cells; lia].
    iApply (wp_store with "Hl"). iIntros "Hl". iApply "HΦ".
    rewrite take_app_le ?length_cells; [|lia]. rewrite drop_app_le ?length_cells; [|lia].
    rewrite take_app_length'; [|rewrite length_drop length_cells; lia].
    rewrite assoc_L /cells -fmap_take -fmap_drop -fmap_app -delete_take_drop.
    iExists _. iFrame. iPureIntro.
    rewrite length_drop length_app length_fmap length_delete; [|by apply lookup_lt_is_Some_2].
    lia.
  - rewrite /slots. iIntros ([-> _]). simpl in Hi. lia.
Qed.

Lemma wp_array_remove w la cap ts i Φ :
  arepc w la cap ts -∗
  (if decide (i < length ts) then arepc w la cap (delete i ts) -∗ Φ JSONSuccess
   else arepc w la cap ts -∗ Φ JSONFailure) -∗
  wp (json_array_remove (Some la) i) Φ.
Proof.
  iIntros "Ha HΦ". iApply wp_bind. iApply (wp_array_get_count with "Ha"). iIntros "Ha".
  destruct (decide (i < length ts)) as [Hi|Hi]; last first.
  { rewrite decide_True; [|lia]. iApply wp_ret. iApply ("HΦ" with "Ha"). }
  rewrite decide_False; [|lia].
  iDestruct "Ha" as (p ls) "(Hla & Hs & Hts)".
  iDestruct (big_sepL2_length with "Hts") as %Hls.
  destruct (lookup_lt_is_Some_2 ts i Hi) as [t0 Ht0].
  destruct (lookup_lt_is_Some_2 ls i) as [l Hl]; [lia|].
  iDestruct (big_sepL2_remove with "Hts") as "[H0 Hts]"; [done..|].
  iApply wp_bind. iApply wp_bind. wp_ld "Hla". iApply wp_ret.
  rewrite decide_False /=; [|lia]. wp_ld "Hla". iApply (wp_get_slot with "Hs"); [done|].
  iIntros "Hs". iApply wp_bind. iApply (wp_value_free with "H0").
  wp_ld "Hla". simpl. iApply wp_bind. iApply (wp_move_down with "Hs"); [lia|done|].
  iIntros "Hs". iApply wp_bind. iApply (wp_store with "Hla"). iIntros "Hla".
  iApply wp_ret. iApply "HΦ". iExists p, _.
  rewrite (length_delete ts); [|by apply lookup_lt_is_Some_2]. iFrame.
Qed.

Lemma wp_array_clear w la cap ts Φ :
  arepc w la cap ts -∗ (arepc w la cap [] -∗ Φ JSONSuccess) -∗ wp (json_array_clear (Some la)) Φ.
Proof.
  iIntros "Ha HΦ". iApply wp_bind. iApply (wp_array_get_count with "Ha"). iIntros "Ha".
  iDestruct "Ha" as (p ls) "(Hla & Hs & Hts)". iDestruct (big_sepL2_length with "Hts") as %Hls.
  iApply wp_bind. iApply (wp_frame_wand with "[Hla Hs Hts]").
  { iApply (wp_for_range _ _ (λ i, la ↦ BArray (mkArray (Some w) p (length ts) cap) ∗
      slots p ls cap ∗ vreps w (drop i ls) (drop i ts))%I (λ _, False)%I); last by iFrame.
    iIntros (i Hi) "(Hla & Hs & Hts)".
    destruct (lookup_lt_is_Some_2 ts i Hi) as [t Ht].
    destruct (lookup_lt_is_Some_2 ls i) as [l Hl]; [lia|].
    rewrite (drop_S _ _ _ Ht) (drop_S _ _ _ Hl) /=. iDestruct "Hts" as "[Ht Hts]".
    iApply wp_bind. iApply wp_bind. wp_ld "Hla". iApply wp_ret. rewrite decide_False /=; [|lia].
    wp_ld "Hla". iApply (wp_get_slot with "Hs"); [done|]. iIntros "Hs".
    iApply wp_bind. iApply (wp_value_free with "Ht"). iApply wp_ret. iFrame. }
  iIntros ([[]|]) "HI"; [done|]. iDestruct "HI" as "(Hla & Hs & Hts)".
  rewrite !drop_ge; [|lia..]. wp_ld "Hla". simpl.
  iApply wp_bind. iApply (wp_store with "Hla"). iIntros "Hla". iApply wp_ret. iApply "HΦ".
  iExists p, []. iFrame. iApply (slots_prefix _ [] ls with "Hs").
Qed.

Lemma wp_object_clear w lo cap kvs Φ :
  orepc w lo cap kvs -∗ (orepc w lo cap [] -∗ Φ JSONSuccess) -∗ wp (json_object_clear (Some lo)) Φ.
Proof.
  iIntros "(%pn & %pv & %ns & %ls & Ho & Hts) HΦ".
  iApply wp_bind. iApply (wp_get_count with "Ho"). iIntros "(Hlo & Hn & Hv & Hks)".
  iDestruct (big_sepL2_length with "Hts") as %Hls. iDestruct (big_sepL2_length with "Hks") as %Hns.
  rewrite !length_fmap in Hls Hns. rewrite length_fmap.
  iApply wp_bind. iApply (wp_frame_wand with "[Hlo Hn Hv Hks Hts]").
  { iApply (wp_for_range _ _ (λ i, lo ↦ BObject (mkObject (Some w) pn pv (length kvs) cap) ∗
      slots pn ns cap ∗ slots pv ls cap ∗ nreps (drop i ns) (drop i kvs).*1 ∗
      vreps w (drop i ls) (drop i kvs).*2)%I (λ _, False)%I); last by iFrame.
    iIntros (i Hi) "(Hlo & Hn & Hv & Hks & Hts)".
    destruct (lookup_lt_is_Some_2 kvs i Hi) as [kv Hkv].
    destruct (lookup_lt_is_Some_2 ls i) as [l Hl]; [lia|].
    destruct (lookup_lt_is_Some_2 ns i) as [n Hnn]; [lia|].
    rewrite (drop_S _ _ _ Hkv) (drop_S _ _ _ Hl) (drop_S _ _ _ Hnn) /=.
    iDestruct "Hts" as "[Ht Hts]". iDestruct "Hks" as "[Hk Hks]".
    wp_ld "Hlo". iApply wp_bind. iApply (wp_get_slot with "Hn"); [done|]. iIntros "Hn".
    iApply wp_bind. iApply (wp_free_chars with "Hk").
    iApply wp_bind. iApply (wp_get_slot with "Hv"); [done|]. iIntros "Hv".
    iApply wp_bind. iApply (wp_value_free with "Ht"). iApply wp_ret. iFrame. }
  iIntros ([[]|]) "HI"; [done|]. iDestruct "HI" as "(Hlo & Hn & Hv & Hks & Hts)".
  rewrite !drop_ge; [|lia..]. wp_ld "Hlo". simpl.
  iApply wp_bind. iApply (wp_store with "Hlo"). iIntros "Hlo". iApply wp_ret. iApply "HΦ".
  iExists pn, pv, [], []. rewrite /ohead /=. iFrame.
  iSplitL "Hn"; [iApply (slots_prefix _ [] ns with "Hn")|iApply (slots_prefix _ [] ls with "Hv")].
Qed.

(** ** Dotted names *)

Lemma strchr_split s c :
  match strchr s c with
  | Some r => ∃ p, s = p ++ r ∧ c ∉ p ∧ ∃ r', r = c :: r'
  | None => c ∉ s
  end.
Proof.
  induction s as [|b s IH]; simpl; [set_solver|]. case_decide as Hb.
  - subst. exists []. split; [done|]. split; [set_solver|]. by exists s.
  - destruct (strchr s c) as [r|].
    + destruct IH as (p & -> & Hp & Hr). exists (b :: p). split; [done|]. set_solver.
    + set_solver.
Qed.

Lemma split_dot_spec name :
  match split_dot name with
  | Some (n, rest) => ∃ k, take n name = k ∧ split_path name = k :: split_path rest ∧
      n ≤ length name ∧ length rest < length name
  | None => split_path name = [name]
  end.
Proof.
  rewrite /split_dot. pose proof (strchr_split name "."%byte) as Hs.
  destruct (strchr name "."%byte) as [r|].
  - destruct Hs as (p & -> & Hp & r' & ->). exists p. rewrite length_app /=.
    replace (length p + S (length r') - S (length r')) with (length p) by lia.
    rewrite take_app_length. split_and!; [done| |lia..].
    clear -Hp. induction p as [|b p IH]; simpl; [done|].
    rewrite decide_False; [|set_solver]. rewrite IH; [done|set_solver].
  - clear -Hs. induction name as [|b p IH]; simpl; [done|].
    rewrite decide_False; [|set_solver]. rewrite IH; [done|set_solver].
Qed.

Lemma wp_dotget_null fuel : ∀ name Φ,
  length name < fuel → Φ None ⊢ wp (json_object_dotget_value_rec fuel None name) Φ.
Proof.
  induction fuel as [|fuel IH]; intros name Φ Hf; [lia|]. iIntros "HΦ". simpl.
  pose proof (split_dot_spec name) as Hs. destruct (split_dot name) as [[n rest]|].
  - destruct Hs as (k & _ & _ & _ & Hlt). iApply wp_bind. iApply wp_bind. iApply wp_ret.
    iApply wp_bind. rewrite /for_range /=. iApply wp_ret. iApply wp_ret.
    iApply wp_bind. iApply wp_bind. iApply wp_ret. iApply wp_ret. iApply (IH with "HΦ"). lia.
  - by iApply wp_ret.
Qed.

Lemma wp_get_object_other p l t Φ :
  type_of t ≠ JSONObject →
  vrep p l t -∗ (vrep p l t -∗ Φ None) -∗ wp (json_value_get_object (Some l)) Φ.
Proof.
  iIntros (Ht) "Hv HΦ". iApply wp_bind. iApply (wp_get_type with "Hv"). iIntros "Hv".
  rewrite decide_False //. iApply wp_ret. by iApply "HΦ".
Qed.

(** The value at the end of a dotted path can be read and given back. *)
Lemma wp_dotget fuel : ∀ w lo kvs name Φ,
  length name < fuel →
  orep w lo kvs -∗
  (∀ r, (match path_lookup (split_path name) kvs with
         | Some t => ∃ p l, ⌜⌜r = Some l⌝⌝ ∗ vrep p l t ∗ (vrep p l t -∗ orep w lo kvs)
         | None => ⌜⌜r = None⌝⌝ ∗ orep w lo kvs
         end) -∗ Φ r) -∗
  wp (json_object_dotget_value_rec fuel (Some lo) name) Φ.
Proof.
  induction fuel as [|fuel IH]; intros w lo kvs name Φ Hf; [lia|]. iIntros "Ho HΦ". simpl.
  pose proof (split_dot_spec name) as Hs. destruct (split_dot name) as [[n rest]|]; last first.
  { rewrite Hs. iApply (wp_object_get_value with "Ho"). iIntros (r) "Hr". iApply "HΦ". simpl.
    destruct (olookup name kvs) as [t|] eqn:Hk; [|done].
    iDestruct "Hr" as (l) "(-> & Hv & Hc)". iExists (Some w), l. iFrame. iSplit; [done|].
    iIntros "Hv". iDestruct ("Hc" with "Hv") as "Ho". by rewrite oset_id. }
  destruct Hs as (k & Htk & Hsp & Hn & Hlt). rewrite Hsp.
  iApply wp_bind. iApply (wp_object_getn_value with "Ho"); [done|]. rewrite Htk.
  iIntros (r) "Hr". rewrite path_lookup_cons; last apply split_path_ne.
  destruct (olookup k kvs) as [t|] eqn:Hk; last first.
  { iDestruct "Hr" as "(-> & Ho)". iApply wp_bind. iApply wp_bind. iApply wp_ret. iApply wp_ret.
    iApply wp_dotget_null; [lia|]. iApply "HΦ". by iFrame. }
  iDestruct "Hr" as (l) "(-> & Hv & Hc)". iApply wp_bind.
  destruct (decide (type_of t = JSONObject)) as [Ht|Ht]; last first.
  { iApply (wp_get_object_other with "Hv"); [done|]. iIntros "Hv".
    iApply wp_dotget_null; [lia|]. iApply "HΦ". iDestruct ("Hc" with "Hv") as "Ho".
    rewrite oset_id //. destruct t; try done; by iFrame. }
  destruct t as [| | | | |kvs']; try done. rewrite vrep_object.
  iDestruct "Hv" as (lo') "[Hl Ho']". iApply (wp_get_object with "Hl"). iIntros "Hl".
  iApply (IH with "Ho'"); [lia|]. iIntros (r) "Hr". iApply "HΦ".
  iAssert (orep l lo' kvs' -∗ orep w lo kvs)%I with "[Hl Hc]" as "Hc".
  { iIntros "Ho'". iDestruct ("Hc" $! (JObject kvs') with "[Hl Ho']") as "Ho".
    - rewrite vrep_object. iExists lo'. iFrame.
    - by rewrite oset_id. }
  destruct (path_lookup _ kvs') as [t|].
  - iDestruct "Hr" as (p l') "(-> & Hv & Hc')". iExists p, l'. iFrame. iSplit; [done|].
    iIntros "Hv". iApply "Hc". by iApply "Hc'".
  - iDestruct "Hr" as "(-> & Ho')". iSplit; [done|]. by iApply "Hc".
Qed.
End ops_proof.
