(* ===== verification/ParsonTreeProof.v ===== *)
(** * Parson: deep copy, validation and comparison compute their tree functions *)
From stdpp Require Import base list numbers gmap.
From iris.proofmode Require Import proofmode.
From S2P Require Import Prelude CMem SepLogic ParsonText CNum Parson ParsonTree JsonSpec.
From S2P Require Import ParsonRep ParsonMemProof ParsonParseProof ParsonOpsProof.

Section tree_proof.
Context `{Malloc}.

Lemma wp_object_get_count w lo kvs Φ :
  orep w lo kvs -∗ (orep w lo kvs -∗ Φ (length kvs)) -∗ wp (json_object_get_count (Some lo)) Φ.
Proof.
  rewrite orep_ohead. iIntros "(%pn & %pv & %cap & %ns & %ls & Ho & Hts) HΦ".
  iApply (wp_get_count with "Ho"). iIntros "Ho". rewrite length_fmap. iApply "HΦ".
  iExists pn, pv, cap, ns, ls. iFrame.
Qed.

Lemma wp_get_key w lo kvs i k t Φ :
  kvs !! i = Some (k, t) →
  orep w lo kvs -∗ (orep w lo kvs -∗ Φ (Some k)) -∗ wp (get_key (Some lo) i) Φ.
Proof.
  iIntros (Hkv) "Ho HΦ". pose proof (lookup_lt_Some _ _ _ Hkv) as Hlt.
  rewrite /get_key. iApply wp_bind. iApply wp_bind.
  iApply (wp_object_get_count with "Ho"). iIntros "Ho".
  rewrite decide_False; [|lia]. iEval (rewrite orep_ohead) in "Ho".
  iDestruct "Ho" as (pn pv cap ns ls) "[(Hlo & Hn & Hv & Hks) Hts]".
  iDestruct (big_sepL2_length with "Hks") as %Hlen. rewrite length_fmap in Hlen.
  destruct (lookup_lt_is_Some_2 ns i) as [nl Hnl]; [lia|].
  wp_ld "Hlo". simpl. iApply (wp_get_slot with "Hn"); [done|]. iIntros "Hn".
  iDestruct (big_sepL2_lookup_acc with "Hks") as "[Hk Hclose]"; [done|..].
  { by rewrite list_lookup_fmap Hkv. }
  wp_ld "Hk". iApply wp_ret. iApply "HΦ". iDestruct ("Hclose" with "Hk") as "Hks".
  rewrite orep_ohead. iExists pn, pv, cap, ns, ls. iFrame.
Qed.

(** In an object with distinct names, the name at [i] finds the value at [i]. *)
Lemma olookup_nodup kvs i k t :
  NoDup kvs.*1 → kvs !! i = Some (k, t) → olookup k kvs = Some t.
Proof.
  intros Hnd Hi. rewrite olookup_find.
  rewrite (proj2 (find_key_Some k kvs.*1 i)); [by rewrite /= list_lookup_fmap Hi|].
  assert (Hki : kvs.*1 !! i = Some k) by by rewrite list_lookup_fmap Hi.
  split; [done|]. intros (j & Hj)%list_elem_of_lookup.
  apply lookup_take_Some in Hj as [Hj Hlt].
  pose proof (NoDup_lookup _ _ _ _ Hnd Hki Hj). lia.
Qed.

(** ** Deep copy *)

(** The largest request made while copying a tree of weight at most [W]. *)
Section copy.
Context (W : nat).
Definition copy_bound : Z := (16 * Z.of_nat W + 128)%Z.

Lemma copy_failed n : (n ≤ copy_bound)%Z → malloc_failed n → malloc_failed copy_bound.
Proof. apply malloc_failed_mono. Qed.
Lemma copy_grown_failed cap n :
  cap_ok cap n → n ≤ W → malloc_failed (Z.of_nat (grown cap n) * 8) → malloc_failed copy_bound.
Proof.
  intros Hc Hn. apply copy_failed. rewrite /cap_ok in Hc.
  rewrite /copy_bound /grown /STARTING_CAPACITY. case_decide; lia.
Qed.

Definition copied (t : json) (r : ptr) : hP :=
  if r is Some l' then vrep None l' t else ⌜⌜malloc_failed copy_bound⌝⌝.

Context (rec : ptr → MP ptr).
Definition copies (t : json) : Prop := ∀ p l Φ,
  vrep p l t -∗ (∀ r, vrep p l t -∗ copied t r -∗ Φ r) -∗ wp (rec (Some l)) Φ.

Lemma wp_copy_items w la cap ts l' la' Φ :
  Forall copies ts → length ts ≤ W →
  arepc w la cap ts -∗ l' ↦ BValue (mkValue None (VArray (Some la'))) -∗ arepc l' la' 0 [] -∗
  (∀ r, arepc w la cap ts -∗
     (match r with
      | Some q => ⌜⌜q = None ∧ malloc_failed copy_bound⌝⌝
      | None => vrep None l' (JArray ts)
      end) -∗ Φ r) -∗
  wp (copy_items rec (Some la) (Some la') (Some l')) Φ.
Proof.
  iIntros (Hrec HW) "Ha Hl' Ha' HΦ". iApply wp_bind.
  iApply (wp_array_get_count with "Ha"). iIntros "Ha".
  iApply (wp_frame_wand with "[Ha Hl' Ha']").
  { iApply (wp_for_range _ _ (λ i, arepc w la cap ts ∗
        l' ↦ BValue (mkValue None (VArray (Some la'))) ∗
        ∃ cap', arepc l' la' cap' (take i ts) ∗ ⌜⌜cap_ok cap' i⌝⌝)%I
      (λ q, arepc w la cap ts ∗ ⌜⌜q = None ∧ malloc_failed copy_bound⌝⌝)%I).
    2: { iFrame. iPureIntro. rewrite /cap_ok. lia. }
    iIntros (i Hi) "(Ha & Hl' & (%cap' & Ha' & %Hcap))".
    destruct (lookup_lt_is_Some_2 ts i Hi) as [t Ht].
    iApply wp_bind. iApply (wp_array_get_value with "Ha"); [done|]. iIntros (l) "Hv Hc".
    rewrite Forall_forall in Hrec. iApply wp_bind.
    iApply (Hrec t with "Hv"); [by eapply list_elem_of_lookup_2|].
    iIntros (r) "Hv Hr". iDestruct ("Hc" with "Hv") as "Ha". rewrite list_insert_id //.
    destruct r as [lc|]; simpl; last first.
    { iDestruct "Hr" as %Hf. iApply wp_bind.
      iApply (wp_value_free with "[Hl' Ha']"); [iApply (close_array with "Hl' Ha'")|].
      iApply wp_ret. iFrame. auto. }
    iApply wp_bind. iApply (wp_array_add with "Ha' Hr"). rewrite length_take_le; [|lia].
    iIntros ([|]) "Hst".
    - iApply wp_ret. iFrame "Ha Hl'". iExists _. rewrite (take_S_r _ _ _ Ht). iFrame.
      iPureIntro. by apply cap_ok_grown.
    - iDestruct "Hst" as "(Ha' & Hr & %Hf)". iApply wp_bind.
      iApply (wp_value_free with "[Hl' Ha']"); [iApply (close_array with "Hl' Ha'")|].
      iApply wp_bind. iApply (wp_value_free with "Hr"). iApply wp_ret. iFrame.
      iPureIntro. split; [done|]. eapply copy_grown_failed, Hf; [done|lia]. }
  iIntros ([q|]) "HI".
  - iDestruct "HI" as "[Ha %Hq]". iApply ("HΦ" with "Ha"). auto.
  - iDestruct "HI" as "(Ha & Hl' & (%cap' & Ha' & _))". rewrite take_ge //.
    iApply ("HΦ" with "Ha"). iApply (close_array with "Hl' Ha'").
Qed.

Lemma wp_copy_members w lo kvs l' lo' Φ :
  NoDup kvs.*1 → Forall (λ kv, nonul kv.1 ∧ S (length kv.1) ≤ W ∧ copies kv.2) kvs → length kvs ≤ W →
  orep w lo kvs -∗ l' ↦ BValue (mkValue None (VObject (Some lo'))) -∗ orepc l' lo' 0 [] -∗
  (∀ r, orep w lo kvs -∗
     (match r with
      | Some q => ⌜⌜q = None ∧ malloc_failed copy_bound⌝⌝
      | None => vrep None l' (JObject kvs)
      end) -∗ Φ r) -∗
  wp (copy_members rec (Some lo) (Some lo') (Some l')) Φ.
Proof.
  iIntros (Hnd Hrec HW) "Ho Hl' Ho' HΦ". iApply wp_bind.
  iApply (wp_object_get_count with "Ho"). iIntros "Ho".
  iApply (wp_frame_wand with "[Ho Hl' Ho']").
  { iApply (wp_for_range _ _ (λ i, orep w lo kvs ∗
        l' ↦ BValue (mkValue None (VObject (Some lo'))) ∗
        ∃ cap', orepc l' lo' cap' (take i kvs) ∗ ⌜⌜cap_ok cap' i⌝⌝)%I
      (λ q, orep w lo kvs ∗ ⌜⌜q = None ∧ malloc_failed copy_bound⌝⌝)%I).
    2: { iFrame. iPureIntro. rewrite /cap_ok. lia. }
    iIntros (i Hi) "(Ho & Hl' & (%cap' & Ho' & %Hcap))".
    destruct (lookup_lt_is_Some_2 kvs i Hi) as [[k t] Hkv].
    rewrite Forall_forall in Hrec.
    destruct (Hrec (k, t) ltac:(by eapply list_elem_of_lookup_2)) as (Hnul & Hk & Hcp).
    iApply wp_bind. iApply (wp_get_key with "Ho"); [done|]. iIntros "Ho".
    iApply wp_bind. iApply (wp_object_get_value with "Ho"). iIntros (r) "Hr".
    rewrite (olookup_nodup _ _ _ _ Hnd Hkv). iDestruct "Hr" as (l) "(-> & Hv & Hc)".
    iApply wp_bind. iApply (Hcp with "Hv").
    iIntros (r) "Hv Hr". iDestruct ("Hc" with "Hv") as "Ho".
    rewrite oset_id; [|by eapply olookup_nodup].
    destruct r as [lc|]; simpl; last first.
    { iDestruct "Hr" as %Hf. iApply wp_bind.
      iApply (wp_value_free with "[Hl' Ho']"); [iApply (close_object with "Hl' Ho'")|].
      iApply wp_ret. iFrame. auto. }
    iApply wp_bind. iApply (wp_object_add with "Ho' Hr"); [done|]. rewrite length_take_le; [|lia].
    iIntros ([|]) "Hst".
    - iDestruct "Hst" as "[_ Ho']". iApply wp_ret. iFrame "Ho Hl'". iExists _.
      rewrite (take_S_r _ _ _ Hkv). iFrame. iPureIntro. by apply cap_ok_grown.
    - iDestruct "Hst" as "((%cap2 & Ho') & Hr & %Hf)". iApply wp_bind.
      iApply (wp_value_free with "[Hl' Ho']"); [iApply (close_object with "Hl' Ho'")|].
      iApply wp_bind. iApply (wp_value_free with "Hr"). iApply wp_ret. iFrame.
      iPureIntro. split; [done|]. destruct Hf as [Hf|[Hf|Hf]].
      + exfalso. rewrite fmap_take in Hf. apply list_elem_of_lookup in Hf as (j & Hj).
        apply lookup_take_Some in Hj as [Hj Hlt].
        assert (kvs.*1 !! i = Some k) as Hki by by rewrite list_lookup_fmap Hkv.
        pose proof (NoDup_lookup _ _ _ _ Hnd Hki Hj). lia.
      + eapply copy_grown_failed, Hf; [done|lia].
      + eapply copy_failed, Hf. rewrite /copy_bound. simpl in Hk. lia. }
  iIntros ([q|]) "HI".
  - iDestruct "HI" as "[Ho %Hq]". iApply ("HΦ" with "Ho"). auto.
  - iDestruct "HI" as "(Ho & Hl' & (%cap' & Ho' & _))". rewrite take_ge //.
    iApply ("HΦ" with "Ho"). iApply (close_object with "Hl' Ho'").
Qed.
End copy.

(** Reading the payload of a scalar. *)
Lemma wp_get_boolean p l b Φ :
  vrep p l (JBool b) -∗ (vrep p l (JBool b) -∗ Φ (Z.b2z b)) -∗ wp (json_value_get_boolean (Some l)) Φ.
Proof.
  rewrite vrep_bool. iIntros "Hv HΦ". iApply wp_bind. wp_ld "Hv". iApply wp_ret. simpl.
  wp_ld "Hv". iApply wp_ret. by iApply "HΦ".
Qed.
Lemma wp_get_number p l d Φ :
  vrep p l (JNumber d) -∗ (vrep p l (JNumber d) -∗ Φ d) -∗ wp (json_value_get_number (Some l)) Φ.
Proof.
  rewrite vrep_number. iIntros "Hv HΦ". iApply wp_bind. wp_ld "Hv". iApply wp_ret. simpl.
  wp_ld "Hv". iApply wp_ret. by iApply "HΦ".
Qed.
Lemma wp_get_string p l s Φ :
  vrep p l (JString s) -∗
  (∀ ls, chars ls s -∗ (chars ls s -∗ vrep p l (JString s)) -∗ Φ (Some ls)) -∗
  wp (json_value_get_string (Some l)) Φ.
Proof.
  iIntros "Hv HΦ". iEval (rewrite vrep_string) in "Hv". iDestruct "Hv" as (ls) "[Hv Hs]".
  iApply wp_bind. wp_ld "Hv". iApply wp_ret. simpl. wp_ld "Hv". iApply wp_ret.
  iApply ("HΦ" with "Hs"). iIntros "Hs". rewrite vrep_string. iExists ls. iFrame.
Qed.
Lemma wp_value_array p l ts Φ :
  vrep p l (JArray ts) -∗
  (∀ la cap, arepc l la cap ts -∗ (∀ ts', arepc l la cap ts' -∗ vrep p l (JArray ts')) -∗ Φ (Some la)) -∗
  wp (json_value_get_array (Some l)) Φ.
Proof.
  iIntros "Hv HΦ". iEval (rewrite vrep_array) in "Hv". iDestruct "Hv" as (la) "[Hl Ha]".
  iApply (wp_get_array with "Hl"). iIntros "Hl". rewrite arep_arepc. iDestruct "Ha" as (cap) "Ha".
  iApply ("HΦ" with "Ha"). iIntros (ts') "Ha". iApply (close_array with "Hl Ha").
Qed.
Lemma wp_value_object p l kvs Φ :
  vrep p l (JObject kvs) -∗
  (∀ lo, orep l lo kvs -∗ (∀ kvs', orep l lo kvs' -∗ vrep p l (JObject kvs')) -∗ Φ (Some lo)) -∗
  wp (json_value_get_object (Some l)) Φ.
Proof.
  iIntros "Hv HΦ". iEval (rewrite vrep_object) in "Hv". iDestruct "Hv" as (lo) "[Hl Ho]".
  iApply (wp_get_object with "Hl"). iIntros "Hl". iApply ("HΦ" with "Ho").
  iIntros (kvs') "Ho". rewrite vrep_object. iExists lo. iFrame.
Qed.

(** A fresh scalar. *)
Lemma wp_copy_scalar W v t p l Φ :
  (∀ l, l ↦ BValue (mkValue None v) ⊢ vrep None l t) →
  vrep p l t -∗ (∀ r, vrep p l t -∗ copied W t r -∗ Φ r) -∗ wp (init_value v) Φ.
Proof.
  iIntros (Hv) "Ht HΦ". iApply wp_init_value. iIntros ([l'|]) "Hl"; iApply ("HΦ" with "Ht").
  - by iApply Hv.
  - iDestruct "Hl" as %Hf. iPureIntro. eapply copy_failed, Hf. rewrite /copy_bound. lia.
Qed.

Lemma wp_deep_copy_rec W fuel : ∀ t,
  json_wf t → depth t ≤ fuel → weight t ≤ W → copies W (json_value_deep_copy_rec fuel) t.
Proof.
  induction fuel as [|fuel IH]; intros t Hwf Hd Hw p l Φ.
  { destruct t; simpl in Hd; lia. }
  iIntros "Hv HΦ". simpl. iApply wp_bind. iApply (wp_get_type with "Hv"). iIntros "Hv".
  destruct t as [|b|d|s|ts|kvs]; simpl type_of; cbv iota.
  - iApply (wp_copy_scalar with "Hv HΦ"). intros l'. by rewrite vrep_null.
  - iApply wp_bind. iApply (wp_get_boolean with "Hv"). iIntros "Hv".
    iApply (wp_copy_scalar with "Hv HΦ"). intros l'. rewrite vrep_bool. by destruct b.
  - iApply wp_bind. iApply (wp_get_number with "Hv"). iIntros "Hv".
    rewrite /json_value_init_number nan_inf_test. simpl in Hwf.
    rewrite Hwf. simpl.
    iApply (wp_copy_scalar with "Hv HΦ"). intros l'. by rewrite vrep_number.
  - iApply wp_bind. iApply (wp_get_string with "Hv"). iIntros (ls) "Hs Hc".
    wp_ld "Hs". iDestruct ("Hc" with "Hs") as "Hv". iApply wp_bind.
    iApply wp_parson_strndup; [done|by rewrite firstn_all|]. rewrite firstn_all.
    iIntros ([lc|]) "Hlc"; last first.
    { iApply wp_ret. iApply ("HΦ" with "Hv"). iDestruct "Hlc" as %Hf. iPureIntro.
      eapply copy_failed, Hf. rewrite /copy_bound. simpl in Hw. lia. }
    iApply wp_bind. iApply wp_init_value. iIntros ([l'|]) "Hl'".
    + iApply wp_ret. iApply ("HΦ" with "Hv"). simpl. rewrite vrep_string. iExists lc. iFrame.
    + iApply wp_bind. iApply (wp_free_chars with "Hlc"). iApply wp_ret. iApply ("HΦ" with "Hv").
      iDestruct "Hl'" as %Hf. iPureIntro. eapply copy_failed, Hf. rewrite /copy_bound. lia.
  - iApply wp_bind. iApply (wp_value_array with "Hv"). iIntros (la cap) "Ha Hc".
    iApply wp_bind. iApply wp_init_array. iIntros ([l'|]) "Hl'"; last first.
    { iApply wp_ret. iDestruct "Hl'" as %Hf. iApply ("HΦ" with "[Ha Hc]"); [by iApply "Hc"|].
      iPureIntro. eapply copy_failed, Hf. rewrite /copy_bound. lia. }
    iDestruct "Hl'" as (la') "[Hl' Ha']". iApply wp_bind.
    iApply (wp_get_array with "Hl'"). iIntros "Hl'".
    apply json_wf_array in Hwf. pose proof (weight_length_array ts) as Hlen.
    iApply wp_bind. iApply (wp_copy_items W with "Ha Hl' Ha'"); [|lia|].
    { apply Forall_forall. intros t Ht. rewrite Forall_forall in Hwf.
      pose proof (depth_elem_array _ _ Ht). pose proof (weight_elem_array _ _ Ht).
      apply IH; [by apply Hwf|lia|lia]. }
    iIntros ([q|]) "Ha Hr"; iDestruct ("Hc" with "Ha") as "Hv"; iApply wp_ret.
    + iDestruct "Hr" as %[-> Hf]. iApply ("HΦ" with "Hv"). auto.
    + iApply ("HΦ" with "Hv"). done.
  - iApply wp_bind. iApply (wp_value_object with "Hv"). iIntros (lo) "Ho Hc".
    iApply wp_bind. iApply wp_init_object. iIntros ([l'|]) "Hl'"; last first.
    { iApply wp_ret. iDestruct "Hl'" as %Hf. iApply ("HΦ" with "[Ho Hc]"); [by iApply "Hc"|].
      iPureIntro. eapply copy_failed, Hf. rewrite /copy_bound. lia. }
    iDestruct "Hl'" as (lo') "[Hl' Ho']". iApply wp_bind.
    iApply (wp_get_object with "Hl'"). iIntros "Hl'".
    apply json_wf_object in Hwf as [Hnd Hwf]. pose proof (weight_length_object kvs) as Hlen.
    iApply wp_bind. iApply (wp_copy_members W with "Ho Hl' Ho'"); [done| |lia|].
    { apply Forall_forall. intros kv Hkv. rewrite Forall_forall in Hwf.
      pose proof (depth_elem_object kv.2 kvs ltac:(by apply list_elem_of_fmap_2)).
      pose proof (weight_elem_object _ _ Hkv). destruct (Hwf kv Hkv).
      split; [done|]. split; [lia|]. apply IH; [done|lia|lia]. }
    iIntros ([q|]) "Ho Hr"; iDestruct ("Hc" with "Ho") as "Hv"; iApply wp_ret.
    + iDestruct "Hr" as %[-> Hf]. iApply ("HΦ" with "Hv"). auto.
    + iApply ("HΦ" with "Hv"). done.
Qed.

Lemma wp_deep_copy p l t Φ :
  json_wf t →
  vrep p l t -∗ (∀ r, vrep p l t -∗ copied (weight t) t r -∗ Φ r) -∗
  wp (json_value_deep_copy (Some l)) Φ.
Proof.
  iIntros (Hwf) "Hv HΦ".
  iApply (wp_heap_fuel _ (depth t) (vrep p l t ∗ (∀ r, vrep p l t -∗ copied (weight t) t r -∗ Φ r))%I
    with "[$Hv $HΦ]").
  - iIntros "[Hv _]". by iApply vrep_at_least.
  - iIntros (k Hk) "[Hv HΦ]". iApply (wp_deep_copy_rec with "Hv HΦ"); [done|lia|done].
Qed.

(** ** Comparison *)

(** A loop that stops at the first failing index computes a conjunction. *)
Lemma wp_all {R} n (body : nat → MP (option R)) (v : R) (ok : nat → bool) (P : hP) Φ :
  (∀ i Ψ, i < n → P -∗ (P -∗ Ψ (if ok i then None else Some v)) -∗ wp (body i) Ψ) →
  P -∗ (P -∗ Φ (if forallb ok (seq 0 n) then None else Some v)) -∗ wp (for_range n body) Φ.
Proof.
  iIntros (Hb) "HP HΦ". iApply (wp_frame_wand with "[HP]").
  { iApply (wp_for_range _ _ (λ i, P ∗ ⌜⌜forallb ok (seq 0 i) = true⌝⌝)%I
      (λ r, P ∗ ⌜⌜r = v ∧ forallb ok (seq 0 n) = false⌝⌝)%I); last by iFrame.
    iIntros (i Hi) "[HP %Hok]". iApply (Hb with "HP"); [done|]. iIntros "HP".
    destruct (ok i) eqn:Hoki.
    - iFrame. iPureIntro. rewrite seq_S forallb_app Hok /= Hoki. done.
    - iFrame. iPureIntro. split; [done|]. apply not_true_is_false. rewrite forallb_forall.
      intros Hall. specialize (Hall i). rewrite Hoki in Hall. discriminate Hall.
      apply in_seq. lia. }
  iIntros ([r|]) "[HP %Hr]"; [destruct Hr as [-> ->]|rewrite Hr]; by iApply "HΦ".
Qed.

Lemma forallb_shift (g : nat → bool) n :
  forallb g (seq 1 n) = forallb (λ i, g (S i)) (seq 0 n).
Proof. rewrite -seq_shift. by induction (seq 0 n) as [|i l IH]; simpl; [|rewrite IH]. Qed.

Lemma forallb_lookup {A} (f : A → bool) (g : nat → bool) l :
  (∀ i x, l !! i = Some x → g i = f x) → forallb g (seq 0 (length l)) = forallb f l.
Proof.
  revert g. induction l as [|x l IH]; intros g Hg; [done|]. simpl.
  rewrite (Hg 0 x) //. f_equal. rewrite -(IH (λ i, g (S i))).
  - apply forallb_shift.
  - intros i y Hi. by apply (Hg (S i)).
Qed.

Lemma all2_lookup {A B} (f : A → B → bool) (g : nat → bool) l1 l2 :
  length l1 = length l2 →
  (∀ i x y, l1 !! i = Some x → l2 !! i = Some y → g i = f x y) →
  forallb g (seq 0 (length l1)) = all2 f l1 l2.
Proof.
  revert g l2. induction l1 as [|x l1 IH]; intros g [|y l2] Hlen Hg; try done. simpl.
  rewrite (Hg 0 x y) //. f_equal. injection Hlen as Hlen.
  rewrite -(IH (λ i, g (S i)) l2) //.
  - apply forallb_shift.
  - intros i a b Ha Hb. by apply (Hg (S i)).
Qed.

Lemma wp_equals_null fuel p l t Φ :
  0 < fuel → vrep p l t -∗ (vrep p l t -∗ Φ false) -∗
  wp (json_value_equals_rec fuel (Some l) None) Φ.
Proof.
  iIntros (Hf) "Hv HΦ". destruct fuel as [|fuel]; [lia|]. simpl.
  iApply wp_bind. iApply (wp_get_type with "Hv"). iIntros "Hv".
  iApply wp_bind. iApply wp_ret. rewrite decide_True; [|by destruct t].
  iApply wp_ret. by iApply "HΦ".
Qed.

Section equal_cases.
Context (rec : ptr → ptr → MP bool).

(** The call compares the two trees, wherever they are. *)
Definition compares (a b : json) : Prop := ∀ pa la pb lb Φ,
  vrep pa la a -∗ vrep pb lb b -∗
  (vrep pa la a -∗ vrep pb lb b -∗ Φ (json_equal a b)) -∗ wp (rec (Some la) (Some lb)) Φ.

Lemma wp_equal_items wa la1 cap1 l1 wb la2 cap2 l2 Φ :
  length l1 = length l2 → (∀ x y, x ∈ l1 → compares x y) →
  arepc wa la1 cap1 l1 -∗ arepc wb la2 cap2 l2 -∗
  (arepc wa la1 cap1 l1 -∗ arepc wb la2 cap2 l2 -∗
     Φ (if all2 json_equal l1 l2 then None else Some false)) -∗
  wp (equal_items rec (Some la1) (Some la2) (length l1)) Φ.
Proof.
  iIntros (Hlen Hrec) "H1 H2 HΦ".
  iApply (wp_all _ _ false (λ i, match l1 !! i, l2 !! i with
      | Some x, Some y => json_equal x y | _, _ => true end)
    (arepc wa la1 cap1 l1 ∗ arepc wb la2 cap2 l2)%I with "[$H1 $H2]").
  { iIntros (i Ψ Hi) "[H1 H2] HΨ".
    destruct (lookup_lt_is_Some_2 l1 i Hi) as [x Hx].
    destruct (lookup_lt_is_Some_2 l2 i) as [y Hy]; [lia|]. rewrite Hx Hy.
    iApply wp_bind. iApply (wp_array_get_value with "H1"); [done|]. iIntros (lx) "Hx Hcx".
    iApply wp_bind. iApply (wp_array_get_value with "H2"); [done|]. iIntros (ly) "Hy Hcy".
    iApply wp_bind. iApply (Hrec x y with "Hx Hy"); [by eapply list_elem_of_lookup_2|].
    iIntros "Hx Hy". iApply wp_ret. iApply "HΨ". iDestruct ("Hcx" with "Hx") as "H1".
    iDestruct ("Hcy" with "Hy") as "H2". rewrite !list_insert_id //. iFrame. }
  iIntros "[H1 H2]". rewrite (all2_lookup json_equal _ l1 l2) //; last by intros i x y -> ->.
  iApply ("HΦ" with "H1 H2").
Qed.

Lemma wp_equal_members wa lo1 l1 wb lo2 l2 Φ :
  NoDup l1.*1 → (∀ kv y, kv ∈ l1 → compares kv.2 y) →
  (∀ p l t Φ, vrep p l t -∗ (vrep p l t -∗ Φ false) -∗ wp (rec (Some l) None) Φ) →
  orep wa lo1 l1 -∗ orep wb lo2 l2 -∗
  (orep wa lo1 l1 -∗ orep wb lo2 l2 -∗
     Φ (if forallb (λ kv, match olookup kv.1 l2 with
                          | Some v => json_equal kv.2 v | None => false end) l1
        then None else Some false)) -∗
  wp (equal_members rec (Some lo1) (Some lo2) (length l1)) Φ.
Proof.
  iIntros (Hnd Hrec Hnull) "H1 H2 HΦ".
  set (ok := λ kv, match olookup kv.1 l2 with Some v => json_equal kv.2 v | None => false end).
  iApply (wp_all _ _ false (λ i, match l1 !! i with Some kv => ok kv | None => true end)
    (orep wa lo1 l1 ∗ orep wb lo2 l2)%I with "[$H1 $H2]").
  { iIntros (i Ψ Hi) "[H1 H2] HΨ".
    destruct (lookup_lt_is_Some_2 l1 i Hi) as [[k x] Hx]. rewrite Hx /ok /=.
    iApply wp_bind. iApply (wp_get_key with "H1"); [done|]. iIntros "H1".
    iApply wp_bind. iApply (wp_object_get_value with "H1"). iIntros (r) "Hr".
    rewrite (olookup_nodup _ _ _ _ Hnd Hx). iDestruct "Hr" as (lx) "(-> & Hv & Hcx)".
    iApply wp_bind. iApply (wp_object_get_value with "H2"). iIntros (r) "Hr".
    assert (Hid : oset k x l1 = l1) by (apply oset_id; by eapply olookup_nodup).
    destruct (olookup k l2) as [y|] eqn:Hy.
    - iDestruct "Hr" as (ly) "(-> & Hw & Hcy)". iApply wp_bind.
      iApply (Hrec (k, x) y with "Hv Hw"); [by eapply list_elem_of_lookup_2|]. iIntros "Hv Hw".
      iApply wp_ret. iApply "HΨ". iDestruct ("Hcx" with "Hv") as "H1".
      iDestruct ("Hcy" with "Hw") as "H2". rewrite Hid oset_id //. iFrame.
    - iDestruct "Hr" as "(-> & H2)". iApply wp_bind.
      iApply (Hnull with "Hv"). iIntros "Hv".
      iApply wp_ret. iApply "HΨ". iDestruct ("Hcx" with "Hv") as "H1". rewrite Hid. iFrame. }
  iIntros "[H1 H2]". rewrite (forallb_lookup ok); last by intros i x ->.
  iApply ("HΦ" with "H1 H2").
Qed.
End equal_cases.

Lemma wp_equals_array fuel l1 l2 :
  (∀ x y, x ∈ l1 → compares (json_value_equals_rec fuel) x y) →
  compares (json_value_equals_rec (S fuel)) (JArray l1) (JArray l2).
Proof.
  iIntros (Hrec pa la pb lb Φ) "Ha Hb HΦ". simpl.
  iApply wp_bind. iApply (wp_get_type with "Ha"). iIntros "Ha".
  iApply wp_bind. iApply (wp_get_type with "Hb"). iIntros "Hb". simpl.
  iApply wp_bind. iApply (wp_value_array with "Ha"). iIntros (la1 cap1) "H1 Hc1".
  iApply wp_bind. iApply (wp_value_array with "Hb"). iIntros (la2 cap2) "H2 Hc2".
  iApply wp_bind. iApply (wp_array_get_count with "H1"). iIntros "H1".
  iApply wp_bind. iApply (wp_array_get_count with "H2"). iIntros "H2".
  destruct (decide (length l1 = length l2)) as [Hlen|Hlen]; last first.
  { rewrite decide_True // bool_decide_false //=. iApply wp_ret.
    iApply ("HΦ" with "[H1 Hc1] [H2 Hc2]"); [by iApply "Hc1"|by iApply "Hc2"]. }
  rewrite decide_False; [|by intros ?]. rewrite bool_decide_true //=. iApply wp_bind.
  iApply (wp_equal_items with "H1 H2"); [done..|]. iIntros "H1 H2". iApply wp_ret.
  iDestruct ("Hc1" with "H1") as "Ha". iDestruct ("Hc2" with "H2") as "Hb".
  destruct (all2 json_equal l1 l2); iApply ("HΦ" with "Ha Hb").
Qed.

Lemma wp_equals_object fuel l1 l2 :
  0 < fuel ∨ l1 = [] → NoDup l1.*1 →
  (∀ kv y, kv ∈ l1 → compares (json_value_equals_rec fuel) kv.2 y) →
  compares (json_value_equals_rec (S fuel)) (JObject l1) (JObject l2).
Proof.
  iIntros (Hf Hnd Hrec pa la pb lb Φ) "Ha Hb HΦ". simpl.
  iApply wp_bind. iApply (wp_get_type with "Ha"). iIntros "Ha".
  iApply wp_bind. iApply (wp_get_type with "Hb"). iIntros "Hb". simpl.
  iApply wp_bind. iApply (wp_value_object with "Ha"). iIntros (lo1) "H1 Hc1".
  iApply wp_bind. iApply (wp_value_object with "Hb"). iIntros (lo2) "H2 Hc2".
  iApply wp_bind. iApply (wp_object_get_count with "H1"). iIntros "H1".
  iApply wp_bind. iApply (wp_object_get_count with "H2"). iIntros "H2".
  destruct (decide (length l1 = length l2)) as [Hlen|Hlen]; last first.
  { rewrite decide_True // bool_decide_false //=. iApply wp_ret.
    iApply ("HΦ" with "[H1 Hc1] [H2 Hc2]"); [by iApply "Hc1"|by iApply "Hc2"]. }
  rewrite decide_False; [|by intros ?]. rewrite bool_decide_true //=.
  destruct Hf as [Hf| ->]; last first.
  { iApply wp_bind. iApply wp_ret. iApply wp_ret.
    iApply ("HΦ" with "[H1 Hc1] [H2 Hc2]"); [by iApply "Hc1"|by iApply "Hc2"]. }
  iApply wp_bind. iApply (wp_equal_members with "H1 H2"); [done..| |].
  { intros. by apply wp_equals_null. }
  iIntros "H1 H2". iApply wp_ret.
  iDestruct ("Hc1" with "H1") as "Ha". iDestruct ("Hc2" with "H2") as "Hb".
  destruct (forallb _ l1); iApply ("HΦ" with "Ha Hb").
Qed.

Lemma wp_equals_rec fuel : ∀ a b,
  depth a ≤ fuel → json_wf a → compares (json_value_equals_rec fuel) a b.
Proof.
  induction fuel as [|fuel IH]; intros a b Hd Hwf.
  { destruct a; simpl in Hd; lia. }
  destruct a as [|x|x|x|l1|l1], b as [|y|y|y|l2|l2];
    try (apply wp_equals_array; intros z w Hz; pose proof (depth_elem_array _ _ Hz);
         apply json_wf_array in Hwf; rewrite Forall_forall in Hwf; apply IH; [lia|by apply Hwf]);
    try (apply json_wf_object in Hwf as [Hnd Hwf]; rewrite Forall_forall in Hwf;
         apply wp_equals_object; [destruct l1 as [|[k []] l]; simpl in Hd; auto with lia|done|];
         intros kv w Hkv;
         pose proof (depth_elem_object kv.2 l1 ltac:(by apply list_elem_of_fmap_2));
         apply IH; [lia|by apply Hwf]);
    iIntros (pa la pb lb Φ) "Ha Hb HΦ"; simpl;
    iApply wp_bind; (iApply (wp_get_type with "Ha"); iIntros "Ha");
    iApply wp_bind; (iApply (wp_get_type with "Hb"); iIntros "Hb"); simpl;
    try by (iApply wp_ret; iApply ("HΦ" with "Ha Hb")).
  - iApply wp_bind. iApply (wp_get_boolean with "Ha"). iIntros "Ha".
    iApply wp_bind. iApply (wp_get_boolean with "Hb"). iIntros "Hb". iApply wp_ret.
    replace (Z.b2z x =? Z.b2z y)%Z with (Bool.eqb x y) by by destruct x, y.
    iApply ("HΦ" with "Ha Hb").
  - iApply wp_bind. iApply (wp_get_number with "Ha"). iIntros "Ha".
    iApply wp_bind. iApply (wp_get_number with "Hb"). iIntros "Hb". iApply wp_ret.
    iApply ("HΦ" with "Ha Hb").
  - iApply wp_bind. iApply (wp_get_string with "Ha"). iIntros (ls1) "H1 Hc1".
    iApply wp_bind. iApply (wp_get_string with "Hb"). iIntros (ls2) "H2 Hc2".
    iDestruct (chars_nonul with "H1") as %Hn1. iDestruct (chars_nonul with "H2") as %Hn2.
    wp_ld "H1". wp_ld "H2". iApply wp_ret. rewrite /strcmp_eq !cstr_nonul //.
    iApply ("HΦ" with "[H1 Hc1] [H2 Hc2]"); [by iApply "Hc1"|by iApply "Hc2"].
Qed.

Lemma wp_equals pa la a pb lb b Φ :
  json_wf a →
  vrep pa la a -∗ vrep pb lb b -∗
  (vrep pa la a -∗ vrep pb lb b -∗ Φ (json_equal a b)) -∗
  wp (json_value_equals (Some la) (Some lb)) Φ.
Proof.
  iIntros (Hwf) "Ha Hb HΦ".
  iApply (wp_heap_fuel _ (depth a) (vrep pa la a ∗ vrep pb lb b ∗
    (vrep pa la a -∗ vrep pb lb b -∗ Φ (json_equal a b)))%I with "[$Ha $Hb $HΦ]").
  - iIntros "[Hv _]". by iApply vrep_at_least.
  - iIntros (k Hk) "(Ha & Hb & HΦ)". iApply (wp_equals_rec with "Ha Hb HΦ"); [lia|done].
Qed.

(** ** Validation *)

Definition status_of (ok : bool) : JSON_Status := if ok then JSONSuccess else JSONFailure.

Section validate_cases.
Context (rec : ptr → ptr → MP JSON_Status).

Definition validates (s v : json) : Prop := ∀ ps ls pv lv Φ,
  vrep ps ls s -∗ vrep pv lv v -∗
  (vrep ps ls s -∗ vrep pv lv v -∗ Φ (status_of (json_valid s v))) -∗
  wp (rec (Some ls) (Some lv)) Φ.

Lemma wp_validate_items s ps ls wb la cap vs Φ :
  (∀ v, validates s v) →
  vrep ps ls s -∗ arepc wb la cap vs -∗
  (vrep ps ls s -∗ arepc wb la cap vs -∗
     Φ (if forallb (json_valid s) vs then None else Some JSONFailure)) -∗
  wp (validate_items rec (Some ls) (Some la)) Φ.
Proof.
  iIntros (Hrec) "Hs Ha HΦ". iApply wp_bind. iApply (wp_array_get_count with "Ha"). iIntros "Ha".
  iApply (wp_all _ _ JSONFailure (λ i, match vs !! i with
      | Some v => json_valid s v | None => true end)
    (vrep ps ls s ∗ arepc wb la cap vs)%I with "[$Hs $Ha]").
  { iIntros (i Ψ Hi) "[Hs Ha] HΨ".
    destruct (lookup_lt_is_Some_2 vs i Hi) as [v Hv]. rewrite Hv.
    iApply wp_bind. iApply (wp_array_get_value with "Ha"); [done|]. iIntros (lv) "Hv Hc".
    iApply wp_bind. iApply (Hrec v with "Hs Hv"). iIntros "Hs Hv".
    iDestruct ("Hc" with "Hv") as "Ha". rewrite list_insert_id //.
    destruct (json_valid s v); iApply wp_ret; iApply "HΨ"; iFrame. }
  iIntros "[Hs Ha]". rewrite (forallb_lookup (json_valid s)); last by intros i x ->.
  iApply ("HΦ" with "Hs Ha").
Qed.

Lemma wp_validate_members ws lo1 ss wv lo2 vs Φ :
  NoDup ss.*1 → (∀ kv v, kv ∈ ss → validates kv.2 v) →
  orep ws lo1 ss -∗ orep wv lo2 vs -∗
  (orep ws lo1 ss -∗ orep wv lo2 vs -∗
     Φ (if forallb (λ kv, match olookup kv.1 vs with
                          | Some v => json_valid kv.2 v | None => false end) ss
        then None else Some JSONFailure)) -∗
  wp (validate_members rec (Some lo1) (Some lo2) (length ss)) Φ.
Proof.
  iIntros (Hnd Hrec) "H1 H2 HΦ".
  set (ok := λ kv, match olookup kv.1 vs with Some v => json_valid kv.2 v | None => false end).
  iApply (wp_all _ _ JSONFailure (λ i, match ss !! i with Some kv => ok kv | None => true end)
    (orep ws lo1 ss ∗ orep wv lo2 vs)%I with "[$H1 $H2]").
  { iIntros (i Ψ Hi) "[H1 H2] HΨ".
    destruct (lookup_lt_is_Some_2 ss i Hi) as [[k x] Hx]. rewrite Hx /ok /=.
    iApply wp_bind. iApply (wp_get_key with "H1"); [done|]. iIntros "H1".
    iApply wp_bind. iApply (wp_object_get_value with "H1"). iIntros (r) "Hr".
    rewrite (olookup_nodup _ _ _ _ Hnd Hx). iDestruct "Hr" as (lx) "(-> & Hv & Hcx)".
    iApply wp_bind. iApply (wp_object_get_value with "H2"). iIntros (r) "Hr".
    assert (Hid : oset k x ss = ss) by (apply oset_id; by eapply olookup_nodup).
    destruct (olookup k vs) as [y|] eqn:Hy.
    - iDestruct "Hr" as (ly) "(-> & Hw & Hcy)". iApply wp_bind.
      iApply (Hrec (k, x) y with "Hv Hw"); [by eapply list_elem_of_lookup_2|]. iIntros "Hv Hw".
      iDestruct ("Hcx" with "Hv") as "H1". iDestruct ("Hcy" with "Hw") as "H2".
      rewrite Hid oset_id //. simpl. destruct (json_valid x y); iApply wp_ret; iApply "HΨ"; iFrame.
    - iDestruct "Hr" as "(-> & H2)". iApply wp_ret. iApply "HΨ".
      iDestruct ("Hcx" with "Hv") as "H1". rewrite Hid. iFrame. }
  iIntros "[H1 H2]". rewrite (forallb_lookup ok); last by intros i x ->.
  iApply ("HΦ" with "H1 H2").
Qed.
End validate_cases.

Lemma wp_validate_array fuel ss vs :
  (∀ s v, s ∈ ss → validates (json_validate_rec fuel) s v) →
  validates (json_validate_rec (S fuel)) (JArray ss) (JArray vs).
Proof.
  iIntros (Hrec ps ls pv lv Φ) "Hs Hv HΦ". simpl.
  iApply wp_bind. iApply (wp_get_type with "Hs"). iIntros "Hs".
  iApply wp_bind. iApply (wp_get_type with "Hv"). iIntros "Hv". simpl.
  iApply wp_bind. iApply (wp_value_array with "Hs"). iIntros (la1 cap1) "H1 Hc1".
  iApply wp_bind. iApply (wp_value_array with "Hv"). iIntros (la2 cap2) "H2 Hc2".
  iApply wp_bind. iApply (wp_array_get_count with "H1"). iIntros "H1".
  destruct ss as [|s ss]; simpl.
  { iApply wp_ret. iApply ("HΦ" with "[H1 Hc1] [H2 Hc2]"); [by iApply "Hc1"|by iApply "Hc2"]. }
  iApply wp_bind. iApply (wp_array_get_value with "H1"); [done|]. iIntros (l0) "H0 Hc0".
  iApply wp_bind. iApply (wp_validate_items with "H0 H2").
  { intros v. apply Hrec. set_solver. }
  iIntros "H0 H2". iDestruct ("Hc0" with "H0") as "H1". simpl. iApply wp_ret.
  iDestruct ("Hc1" with "H1") as "Hs". iDestruct ("Hc2" with "H2") as "Hv".
  destruct (forallb _ vs); iApply ("HΦ" with "Hs Hv").
Qed.

Lemma wp_validate_object fuel ss vs :
  NoDup ss.*1 → (∀ kv v, kv ∈ ss → validates (json_validate_rec fuel) kv.2 v) →
  validates (json_validate_rec (S fuel)) (JObject ss) (JObject vs).
Proof.
  iIntros (Hnd Hrec ps ls pv lv Φ) "Hs Hv HΦ". simpl.
  iApply wp_bind. iApply (wp_get_type with "Hs"). iIntros "Hs".
  iApply wp_bind. iApply (wp_get_type with "Hv"). iIntros "Hv". simpl.
  iApply wp_bind. iApply (wp_value_object with "Hs"). iIntros (lo1) "H1 Hc1".
  iApply wp_bind. iApply (wp_value_object with "Hv"). iIntros (lo2) "H2 Hc2".
  iApply wp_bind. iApply (wp_object_get_count with "H1"). iIntros "H1".
  destruct (decide (ss = [])) as [->|Hne].
  { iApply wp_ret. iApply ("HΦ" with "[H1 Hc1] [H2 Hc2]"); [by iApply "Hc1"|by iApply "Hc2"]. }
  rewrite decide_False; [|by destruct ss].
  rewrite (bool_decide_false (ss = [])) //=.
  iApply wp_bind. iApply (wp_object_get_count with "H2"). iIntros "H2".
  destruct (decide (length vs < length ss)) as [Hlt|Hlt].
  { rewrite bool_decide_false; [|lia]. iApply wp_ret.
    iApply ("HΦ" with "[H1 Hc1] [H2 Hc2]"); [by iApply "Hc1"|by iApply "Hc2"]. }
  rewrite bool_decide_true; [|lia]. iApply wp_bind.
  iApply (wp_validate_members with "H1 H2"); [done..|]. iIntros "H1 H2". iApply wp_ret.
  iDestruct ("Hc1" with "H1") as "Hs". iDestruct ("Hc2" with "H2") as "Hv". simpl.
  destruct (forallb _ ss); iApply ("HΦ" with "Hs Hv").
Qed.

Lemma wp_validate_rec fuel : ∀ s v,
  depth s ≤ fuel → json_wf s → validates (json_validate_rec fuel) s v.
Proof.
  induction fuel as [|fuel IH]; intros s v Hd Hwf.
  { destruct s; simpl in Hd; lia. }
  destruct s as [|x|x|x|ss|ss], v as [|y|y|y|vs|vs];
    try (apply wp_validate_array; intros z w Hz; pose proof (depth_elem_array _ _ Hz);
         apply json_wf_array in Hwf; rewrite Forall_forall in Hwf; apply IH; [lia|by apply Hwf]);
    try (apply json_wf_object in Hwf as [Hnd Hwf]; rewrite Forall_forall in Hwf;
         apply wp_validate_object; [done|]; intros kv w Hkv;
         pose proof (depth_elem_object kv.2 ss ltac:(by apply list_elem_of_fmap_2));
         apply IH; [lia|by apply Hwf]);
    iIntros (ps ls pv lv Φ) "Hs Hv HΦ"; simpl;
    iApply wp_bind; (iApply (wp_get_type with "Hs"); iIntros "Hs");
    iApply wp_bind; (iApply (wp_get_type with "Hv"); iIntros "Hv"); simpl;
    by (iApply wp_ret; iApply ("HΦ" with "Hs Hv")).
Qed.

Lemma wp_validate ps ls s pv lv v Φ :
  json_wf s →
  vrep ps ls s -∗ vrep pv lv v -∗
  (vrep ps ls s -∗ vrep pv lv v -∗ Φ (status_of (json_valid s v))) -∗
  wp (json_validate (Some ls) (Some lv)) Φ.
Proof.
  iIntros (Hwf) "Ha Hb HΦ".
  iApply (wp_heap_fuel _ (depth s) (vrep ps ls s ∗ vrep pv lv v ∗
    (vrep ps ls s -∗ vrep pv lv v -∗ Φ (status_of (json_valid s v))))%I with "[$Ha $Hb $HΦ]").
  - iIntros "[Hv _]". by iApply vrep_at_least.
  - iIntros (k Hk) "(Ha & Hb & HΦ)". iApply (wp_validate_rec with "Ha Hb HΦ"); [lia|done].
Qed.
End tree_proof.
