(* ===== verification/ParsonSerializeProof.v ===== *)
(** * Parson: the serializer writes the text of the tree

    For a well-formed tree whose text is shorter than [INT_MAX] bytes, the counting
    run returns the length of [serialize_json] and the writing run stores exactly
    that text and a terminating NUL inside the buffer. *)
From stdpp Require Import base list numbers gmap.
From iris.proofmode Require Import proofmode.
From S2P Require Import Prelude CMem SepLogic ParsonText CNum Parson ParsonTree Utils ParsonSerialize.
From S2P Require Import JsonSpec JsonRoundTrip ParsonRep ParsonMemProof ParsonParseProof ParsonOpsProof.
From S2P Require Import ParsonTreeProof.

Abbreviation zlen s := (Z.of_nat (length s)).

(** The buffer at the cursor: [done] has been written; if [z], a NUL follows. *)
Definition out (z : bool) (c : cursor) (sz : Z) (done : bytes) : hP :=
  match c with
  | None => emp
  | Some (l, off) => ∃ raw, l ↦ BChars sz raw ∗
      ⌜⌜off = length done ∧ take off raw = done ∧ (z = true → raw !! off = Some x00)⌝⌝
  end%I.

Lemma out_weaken z c sz done : out z c sz done ⊢ out false c sz done.
Proof.
  destruct c as [[l off]|]; simpl; [|done]. iIntros "(%raw & Hl & %Hx)".
  iExists raw. iFrame. iPureIntro. naive_solver.
Qed.
Lemma advance_0 c : advance c 0 = c.
Proof. destruct c as [[l off]|]; [|done]. simpl. by rewrite Nat.add_0_r. Qed.
Lemma advance_add c n m : (0 ≤ n)%Z → (0 ≤ m)%Z → advance (advance c n) m = advance c (n + m).
Proof. destruct c as [[l off]|]; [|done]. simpl. intros. by rewrite -Nat.add_assoc -Z2Nat.inj_add. Qed.
Section serialize_proof.
Context `{Malloc}.
(** Whether the scratch buffer for numbers was passed. *)
Context (num_buf : bool).

(** There is room for [n] characters and a NUL; a counting run has the scratch
    buffer. *)
Definition room (c : cursor) (sz : Z) (n : nat) : Prop :=
  match c with Some _ => (Z.of_nat n + 1 ≤ sz)%Z | None => num_buf = true end.
Lemma room_advance c sz n m : room (advance c m) sz n ↔ room c sz n.
Proof. by destruct c as [[l off]|]. Qed.
Lemma room_mono c sz n m : m ≤ n → room c sz n → room c sz m.
Proof. rewrite /room. destruct c; [lia|done]. Qed.

(** The step writes [txt] and accounts for it; [P] is the structure it reads. *)
Definition writes (z : bool) (P : hP) (f : step) (txt : bytes) : Prop :=
  ∀ c sz done total Φ, room c sz (length (done ++ txt)) →
  (0 ≤ total)%Z → (total + zlen txt ≤ INT_MAX)%Z →
  P -∗ out false c sz done -∗
  (P -∗ out z (advance c (zlen txt)) sz (done ++ txt) -∗
     Φ (Some (advance c (zlen txt), total + zlen txt)%Z)) -∗
  wp (f (c, total)) Φ.

(** The function writes [txt] at the cursor and returns its length. *)
Definition call_ok (z : bool) (P : hP) (call : cursor → MP Z) (txt : bytes) : Prop :=
  ∀ c sz done Φ, room c sz (length (done ++ txt)) → (zlen txt ≤ INT_MAX)%Z →
  P -∗ out false c sz done -∗
  (P -∗ out z (advance c (zlen txt)) sz (done ++ txt) -∗ Φ (zlen txt)) -∗
  wp (call c) Φ.

Lemma wp_int_add x y Φ : in_int (x + y) = true → Φ (x + y)%Z ⊢ wp (int_add (B:=block) x y) Φ.
Proof. iIntros (Hi) "HΦ". rewrite /int_add Hi. by iApply wp_ret. Qed.
Lemma in_int_small x : (0 ≤ x ≤ INT_MAX)%Z → in_int x = true.
Proof. rewrite /in_int. intros Hx. apply andb_true_intro. rewrite !Z.leb_le. lia. Qed.

Lemma wp_write_at z l off sz done data Φ :
  off = length done → (zlen (done ++ data) ≤ sz)%Z →
  out z (Some (l, off)) sz done -∗
  (∀ raw, l ↦ BChars sz raw -∗
     ⌜⌜∃ tl, raw = (done ++ data) ++ tl⌝⌝ -∗ Φ ()) -∗
  wp (write_at l off data) Φ.
Proof.
  iIntros (-> Hsz) "(%raw & Hl & %Hx) HΦ". destruct Hx as (_ & Htk & _).
  iApply wp_bind. iApply (wp_load with "Hl"). iIntros "Hl". simpl.
  rewrite length_app in Hsz.
  assert (length done ≤ length raw) by (rewrite -Htk length_take; lia).
  rewrite decide_True; [|split; [done|lia]].
  iApply (wp_store with "Hl"). iIntros "Hl". iApply ("HΦ" with "Hl"). iPureIntro.
  rewrite Htk. eexists. by rewrite -assoc_L.
Qed.

(** A buffer after a string and its NUL were written. *)
Lemma terminated l sz done s raw :
  (∃ tl, raw = (done ++ s ++ [x00]) ++ tl) →
  l ↦ BChars sz raw ⊢ out true (advance (Some (l, length done)) (zlen s)) sz (done ++ s).
Proof.
  iIntros ([tl ->]) "Hl". iExists _. iFrame. iPureIntro. rewrite length_app Nat2Z.id.
  split; [done|]. rewrite !(assoc_L (++)) -(assoc_L (++) (done ++ s)) -length_app take_app_length.
  split; [done|]. intros _. by rewrite lookup_app_r // Nat.sub_diag.
Qed.

Lemma call_append_string P s : call_ok true P (λ c, append_string c s) s.
Proof.
  iIntros (c sz done Φ Hroom Hlen) "HP Ho HΦ". rewrite /append_string.
  iApply wp_bind. iApply wp_int_add; [apply in_int_small; lia|]. rewrite Z.add_0_l.
  destruct c as [[l off]|]; last by iApply wp_ret; iApply ("HΦ" with "HP").
  iApply wp_bind. iAssert (⌜off = length done⌝)%I as %->.
  { iDestruct "Ho" as (raw) "[_ %Hx]". naive_solver. }
  rewrite /room !length_app in Hroom.
  iApply (wp_write_at with "Ho"); [done|rewrite !length_app /=; lia|].
  iIntros (raw) "Hl [%tl %Hraw]". iApply wp_ret. iApply ("HΦ" with "HP").
  iApply (terminated with "Hl"). by exists tl.
Qed.

Lemma writes_call z P call txt : call_ok z P call txt → writes z P (append_call call) txt.
Proof.
  iIntros (Hc c sz done total Φ Hroom Htot Hlen) "HP Ho HΦ".
  iApply wp_bind. iApply (Hc with "HP Ho"); [done|lia|]. iIntros "HP Ho". simpl.
  rewrite (proj2 (Z.ltb_ge _ _)); [|lia].
  iApply wp_bind. iApply wp_int_add; [apply in_int_small; lia|]. iApply wp_ret.
  iApply ("HΦ" with "HP Ho").
Qed.
Lemma writes_string P s : writes true P (APPEND_STRING s) s.
Proof. apply (writes_call _ _ (λ c, append_string c s)), call_append_string. Qed.

Lemma writes_weaken z P f txt : writes z P f txt → writes false P f txt.
Proof.
  iIntros (Hf c sz done total Φ Hroom Htot Hlen) "HP Ho HΦ".
  iApply (Hf with "HP Ho"); [done..|]. iIntros "HP Ho". iApply ("HΦ" with "HP").
  by iApply out_weaken.
Qed.
Lemma writes_skip P : writes false P skip [].
Proof.
  iIntros (c sz done total Φ Hroom Htot Hlen) "HP Ho HΦ". iApply wp_ret.
  rewrite advance_0 app_nil_r Z.add_0_r. iApply ("HΦ" with "HP Ho").
Qed.
Lemma writes_andthen z1 z2 P f g a b :
  writes z1 P f a → writes z2 P g b → writes z2 P (andthen f g) (a ++ b).
Proof.
  iIntros (Hf Hg c sz done total Φ Hroom Htot Hlen) "HP Ho HΦ".
  rewrite length_app in Hlen. iApply wp_bind. iApply (Hf with "HP Ho"); [|done|lia|].
  { eapply room_mono, Hroom. rewrite !length_app. lia. }
  iIntros "HP Ho". iDestruct (out_weaken with "Ho") as "Ho".
  iApply (Hg with "HP Ho"); [|lia..|].
  { rewrite room_advance. by rewrite -assoc_L. }
  rewrite advance_add; [|lia..]. rewrite -assoc_L -Z.add_assoc -Nat2Z.inj_add -length_app. done.
Qed.
Lemma writes_when P (b : bool) f txt :
  writes false P f txt → writes false P (when b f) (if b then txt else []).
Proof. intros Hf. destruct b; [done|apply writes_skip]. Qed.

Lemma call_finish z P f txt :
  writes z P f txt → call_ok z P (λ c, r ← f (c, 0%Z); mret (finish r)) txt.
Proof.
  iIntros (Hf c sz done Φ Hroom Hlen) "HP Ho HΦ". iApply wp_bind.
  iApply (Hf with "HP Ho"); [done|lia|lia|]. iIntros "HP Ho". iApply wp_ret.
  iApply ("HΦ" with "HP Ho").
Qed.

Lemma writes_steps P (body : nat → step) (txt : nat → bytes) n : ∀ a,
  (∀ i, a ≤ i < a + n → writes false P (body i) (txt i)) →
  writes false P (steps (seq a n) body) (concat (txt <$> seq a n)).
Proof.
  induction n as [|n IH]; intros a Hb; simpl; [apply writes_skip|].
  eapply writes_andthen; [apply Hb; lia|]. apply IH. intros i Hi. apply Hb. lia.
Qed.

Lemma writes_indent P lv : writes false P (APPEND_INDENT (Z.of_nat lv)) (indent_text lv).
Proof.
  apply (writes_call _ _ (λ c, append_indent c (Z.of_nat lv))), call_finish.
  rewrite Nat2Z.id /indent_text.
  replace (replicate lv (bs "    ")) with ((λ _, bs "    ") <$> seq 0 lv).
  - apply writes_steps. intros i _. eapply writes_weaken, writes_string.
  - generalize 0. induction lv as [|lv IH]; intros a; [done|]. simpl. f_equal. apply IH.
Qed.

(** ** Strings *)

Lemma escape_plain c : is_escaped c = false → escape_char c = [c].
Proof.
  rewrite /is_escaped. intros [Hc Hlt]%orb_false_elim.
  apply bool_decide_eq_false in Hc. rewrite /escape_char.
  repeat (case_decide; [naive_solver|]). by rewrite Hlt.
Qed.

Lemma writes_char P c : writes false P (append_char c) [c].
Proof.
  iIntros (cu sz done total Φ Hroom Htot Hlen) "HP Ho HΦ". rewrite /append_char.
  iApply wp_bind.
  iApply (wp_frame_wand _ (λ _, out false (advance cu 1) sz (done ++ [c])) with "[Ho]").
  - destruct cu as [[l off]|]; last by iApply wp_ret.
    iAssert (⌜off = length done⌝)%I as %->. { iDestruct "Ho" as (raw) "[_ %Hx]". naive_solver. }
    rewrite /room !length_app /= in Hroom.
    iApply (wp_write_at with "Ho"); [done|rewrite !length_app /=; lia|].
    iIntros (raw) "Hl [%tl %Hraw]". iExists raw. iFrame. iPureIntro.
    rewrite length_app. split; [done|]. split; [|done]. by rewrite Hraw take_app_length' // length_app.
  - iIntros ([]) "Ho". iApply wp_bind. iApply wp_int_add; [apply in_int_small; simpl in *; lia|].
    iApply wp_ret. iApply ("HΦ" with "HP Ho").
Qed.

Lemma writes_serialize_char P c : writes false P (serialize_char c) (escape_char c).
Proof.
  rewrite /serialize_char. destruct (is_escaped c) eqn:He.
  - eapply writes_weaken, writes_string.
  - rewrite escape_plain //. apply writes_char.
Qed.

Lemma concat_at_c {A} (f : byte → list A) s :
  concat ((λ i, f (at_c s i)) <$> seq 0 (length s)) = s ≫= f.
Proof.
  induction s as [|c s IH]; [done|].
  change (length (c :: s)) with (S (length s)). rewrite -cons_seq fmap_cons -fmap_S_seq bind_cons -IH.
  by rewrite -list_fmap_compose.
Qed.

Lemma call_serialize_string P s :
  call_ok true P (json_serialize_string s) (serialize_string_text s).
Proof.
  apply call_finish. rewrite /serialize_string_text.
  eapply writes_andthen; [apply writes_string|].
  eapply writes_andthen; [|apply writes_string].
  rewrite -(concat_at_c escape_char). apply writes_steps. intros i _.
  apply writes_serialize_char.
Qed.

(** ** Numbers *)

Lemma length_with_point f : length (with_point f) ≤ S (length f).
Proof.
  assert (Hs : length (strip_zeros f) ≤ length f).
  { induction f as [|c f IH]; [done|]. simpl.
    destruct (strip_zeros f); [case_decide|]; simpl in *; lia. }
  rewrite /with_point. destruct (strip_zeros f); simpl in *; lia.
Qed.

(** [%1.17g] needs at most 24 characters, so [NUM_BUF_SIZE] never truncates. *)
Lemma length_format_g17 x : length (format_g17 x) ≤ 24.
Proof.
  assert (Hpos : ∀ n d, length (format_pos n d) ≤ 23).
  { intros n d. rewrite /format_pos. destruct (digits17 n d) as [q x'].
    pose proof (length_dec_digits 17 q) as Hd. revert Hd. generalize (dec_digits 17 q). intros ds Hd.
    destruct ((x' <? -4) || (17 <=? x'))%Z eqn:E1; [|destruct (x' <? 0)%Z eqn:E2].
    - pose proof (length_with_point (drop 1 ds)) as Hw. rewrite length_drop in Hw.
      rewrite /format_exp !length_app length_take length_dec_digits.
      destruct (_ <? 100)%Z; simpl length; lia.
    - pose proof (length_with_point
        (replicate (Z.to_nat (- x' - 1)) "0"%byte ++ ds)) as Hw.
      rewrite length_app length_replicate in Hw. 
      apply orb_false_elim in E1 as [E1 _]. apply Z.ltb_ge in E1. rewrite length_app /=. lia.
    - pose proof (length_with_point (drop (Z.to_nat (x' + 1)) ds)) as Hw.
      rewrite length_drop in Hw. rewrite length_app length_take. lia. }
  destruct x as [[]|[]| |[] m e]; simpl; try lia; destruct (ratio_of m e) as [n d];
    specialize (Hpos n d); simpl; lia.
Qed.

Lemma call_number P num :
  call_ok true P (λ b, match b with
    | Some (l, off) => snprintf_num l off num
    | None => if num_buf then mret (zlen (format_g17 num)) else undef
    end) (format_g17 num).
Proof.
  iIntros (c sz done Φ Hroom Hlen) "HP Ho HΦ".
  destruct c as [[l off]|]; simpl in Hroom; last first.
  { rewrite Hroom. iApply wp_ret. iApply ("HΦ" with "HP"). done. }
  rewrite /snprintf_num take_ge; last first.
  { pose proof (length_format_g17 num). rewrite /NUM_BUF_SIZE. lia. }
  iAssert (⌜off = length done⌝)%I as %->. { iDestruct "Ho" as (raw) "[_ %Hx]". naive_solver. }
  iApply wp_bind. rewrite length_app in Hroom.
  iApply (wp_write_at with "Ho"); [done|rewrite !length_app /=; lia|].
  iIntros (raw) "Hl [%tl %Hraw]". iApply wp_ret. iApply ("HΦ" with "HP").
  iApply (terminated with "Hl"). by exists tl.
Qed.

(** ** Containers *)

Lemma writes_eq z P f txt txt' : txt = txt' → writes z P f txt → writes z P f txt'.
Proof. by intros ->. Qed.

Lemma writes_join P (pretty : bool) lv (body : nat → step) parts : ∀ a N,
  a + length parts = N →
  (∀ i p, parts !! i = Some p → writes false P (body (a + i))
     ((if pretty then indent_text (lv + 1) else []) ++ p ++
      (if bool_decide (a + i < N - 1) then bs "," else []) ++ (if pretty then [x0a] else []))) →
  writes false P (steps (seq a (length parts)) body) (join_parts pretty lv parts).
Proof.
  induction parts as [|p parts IH]; intros a N HN Hb; simpl; [apply writes_skip|].
  eapply writes_eq; last eapply writes_andthen.
  2: { pose proof (Hb 0 p eq_refl) as H0. rewrite Nat.add_0_r in H0. exact H0. }
  2: { apply (IH (S a) N); [simpl in HN; lia|]. intros i q Hq.
       pose proof (Hb (S i) q Hq) as H0. rewrite Nat.add_succ_r in H0. exact H0. }
  simpl in HN. rewrite -!(assoc_L (++)). do 3 f_equal.
  destruct parts; simpl in HN.
  - rewrite bool_decide_false //. lia.
  - rewrite bool_decide_true; [done|lia].
Qed.

Lemma writes_bracket P (pretty : bool) lv op cl (body : nat → step) parts n :
  n = length parts →
  (∀ i p, parts !! i = Some p → writes false P (body i)
     ((if pretty then indent_text (lv + 1) else []) ++ p ++
      (if bool_decide (i < n - 1) then bs "," else []) ++ (if pretty then [x0a] else []))) →
  writes true P
    (andthen (APPEND_STRING op)
    (andthen (when (bool_decide (0 < n) && pretty) (APPEND_STRING [x0a]))
    (andthen (steps (seq 0 n) body)
    (andthen (when (bool_decide (0 < n) && pretty) (APPEND_INDENT (Z.of_nat lv)))
             (APPEND_STRING cl))))) (bracket pretty lv op cl parts).
Proof.
  intros -> Hb. rewrite /bracket.
  assert (Hne : pretty && negb (bool_decide (parts = [])) = bool_decide (0 < length parts) && pretty).
  { rewrite andb_comm. f_equal. by destruct parts. }
  rewrite Hne. eapply writes_andthen; [apply writes_string|].
  eapply writes_andthen; [eapply writes_when, writes_weaken, writes_string|].
  eapply writes_andthen; [apply (writes_join P pretty lv body parts 0 (length parts)); [done|exact Hb]|].
  eapply writes_andthen; [apply writes_when, writes_indent|]. apply writes_string.
Qed.

(** The level of the elements is computed before each of them. *)
Lemma writes_level P (f : Z → step) lv txt :
  (Z.of_nat lv + 1 ≤ INT_MAX)%Z → writes false P (f (Z.of_nat (lv + 1))) txt →
  writes false P (λ s, level1 ← int_add (Z.of_nat lv) 1; f level1 s) txt.
Proof.
  iIntros (Hlv Hf c sz done total Φ Hroom Htot Hlen) "HP Ho HΦ". iApply wp_bind.
  iApply wp_int_add; [apply in_int_small; lia|].
  replace (Z.of_nat lv + 1)%Z with (Z.of_nat (lv + 1)) by lia.
  iApply (Hf with "HP Ho HΦ"); done.
Qed.

Section containers.
Context (rec : ptr → cursor → Z → MP Z) (pretty : bool) (lv : nat).
Context (Hlv : (Z.of_nat lv + 1 ≤ INT_MAX)%Z).

Lemma call_array w la cap ts :
  (∀ l t, t ∈ ts → call_ok true (vrep (Some w) l t)
     (λ b, rec (Some l) b (Z.of_nat (lv + 1))) (serialize_json pretty (lv + 1) t)) →
  call_ok true (arepc w la cap ts) (λ c, serialize_array rec (Some la) c (Z.of_nat lv) pretty)
    (serialize_json pretty lv (JArray ts)).
Proof.
  iIntros (Hrec c sz done Φ Hroom Hlen) "Ha Ho HΦ". iApply wp_bind.
  iApply (wp_array_get_count with "Ha"). iIntros "Ha".
  iApply (call_finish with "Ha Ho HΦ"); [|done..]. simpl.
  apply writes_bracket; [by rewrite length_map|]. intros i p Hp.
  rewrite list_lookup_fmap in Hp. destruct (ts !! i) as [t|] eqn:Ht; [|done]. injection Hp as <-.
  apply (writes_level _ (λ lv1, andthen (when pretty (APPEND_INDENT lv1)) _)); [done|].
  eapply writes_andthen; [apply writes_when, writes_indent|].
  eapply writes_andthen; [|eapply writes_andthen;
    [eapply writes_when, writes_weaken, writes_string|eapply writes_when, writes_weaken, writes_string]].
  apply writes_call. clear c sz done Φ Hroom Hlen.
  iIntros (c sz done Φ Hroom Hlen) "Ha Ho HΦ". iApply wp_bind.
  iApply (wp_array_get_value with "Ha"); [done|]. iIntros (l) "Hv Hc".
  iApply (Hrec with "Hv Ho"); [by eapply list_elem_of_lookup_2|done..|]. iIntros "Hv".
  iApply "HΦ". iDestruct ("Hc" with "Hv") as "Ha". by rewrite list_insert_id.
Qed.

Lemma call_object w lo kvs :
  NoDup kvs.*1 →
  (∀ l t, t ∈ kvs.*2 → call_ok true (vrep (Some w) l t)
     (λ b, rec (Some l) b (Z.of_nat (lv + 1))) (serialize_json pretty (lv + 1) t)) →
  call_ok true (orep w lo kvs) (λ c, serialize_object rec (Some lo) c (Z.of_nat lv) pretty)
    (serialize_json pretty lv (JObject kvs)).
Proof.
  iIntros (Hnd Hrec c sz done Φ Hroom Hlen) "Ha Ho HΦ". iApply wp_bind.
  iApply (wp_object_get_count with "Ha"). iIntros "Ha".
  iApply (call_finish with "Ha Ho HΦ"); [|done..]. simpl.
  apply writes_bracket; [by rewrite length_map|]. intros i p Hp.
  rewrite list_lookup_fmap in Hp. destruct (kvs !! i) as [[k t]|] eqn:Ht; [|done]. injection Hp as <-.
  clear c sz done Φ Hroom Hlen.
  iIntros (c sz done total Φ Hroom Htot Hlen) "Ha Ho HΦ". iApply wp_bind.
  iApply (wp_get_key with "Ha"); [done|]. iIntros "Ha".
  iApply (writes_level _ (λ lv1, andthen (when pretty (APPEND_INDENT lv1)) _) with "Ha Ho HΦ");
    [done| |done..].
  eapply writes_andthen; [apply writes_when, writes_indent|].
  apply (writes_eq _ _ _ (serialize_string_text k ++ bs ":" ++ (if pretty then bs " " else []) ++
    serialize_json pretty (lv + 1) t ++ (if bool_decide (i < length kvs - 1) then bs "," else []) ++
    (if pretty then [x0a] else []))).
  { rewrite /member_text. cbn [fst snd]. generalize (serialize_string_text k). intros sk.
    by rewrite -!(assoc_L (++)). }
  eapply writes_andthen; [apply writes_call, call_serialize_string|].
  eapply writes_andthen; [apply writes_string|].
  eapply writes_andthen; [eapply writes_when, writes_weaken, writes_string|].
  eapply writes_andthen; [|eapply writes_andthen;
    [eapply writes_when, writes_weaken, writes_string|eapply writes_when, writes_weaken, writes_string]].
  apply writes_call. clear c sz done Φ total Hroom Htot Hlen.
  iIntros (c sz done Φ Hroom Hlen) "Ha Ho HΦ". iApply wp_bind.
  iApply (wp_object_get_value with "Ha"). iIntros (r) "Hr".
  rewrite (olookup_nodup _ _ _ _ Hnd Ht). iDestruct "Hr" as (l) "(-> & Hv & Hc)".
  iApply (Hrec with "Hv Ho"); [|done..|].
  { apply list_elem_of_fmap. exists (k, t). split; [done|by eapply list_elem_of_lookup_2]. }
  iIntros "Hv". iApply "HΦ". iDestruct ("Hc" with "Hv") as "Ha".
  by rewrite oset_id; [|by eapply olookup_nodup].
Qed.
End containers.

Lemma call_value fuel (pretty : bool) : ∀ t lv p l,
  json_wf t → depth t ≤ fuel → (Z.of_nat (lv + depth t) ≤ INT_MAX)%Z →
  call_ok true (vrep p l t)
    (λ c, json_serialize_to_buffer_r fuel (Some l) c (Z.of_nat lv) pretty num_buf)
    (serialize_json pretty lv t).
Proof.
  induction fuel as [|fuel IH]; intros t lv p l Hwf Hd Hlv.
  { destruct t; simpl in Hd; lia. }
  iIntros (c sz done Φ Hroom Hlen) "Hv Ho HΦ". simpl.
  iApply wp_bind. iApply (wp_get_type with "Hv"). iIntros "Hv".
  destruct t as [|b|d|s|ts|kvs]; simpl type_of; cbv iota.
  - iApply (call_finish with "Hv Ho HΦ"); [apply writes_string|done..].
  - rewrite vrep_bool. iApply wp_bind. iApply wp_bind. wp_ld "Hv". iApply wp_ret. simpl.
    wp_ld "Hv". iApply wp_ret.
    iApply (call_finish with "Hv Ho HΦ"); [|done..]. destruct b; apply writes_string.
  - rewrite vrep_number. iApply wp_bind. iApply wp_bind. wp_ld "Hv". iApply wp_ret. simpl.
    wp_ld "Hv". iApply wp_ret.
    iApply (call_finish with "Hv Ho HΦ"); [|done..]. apply writes_call, call_number.
  - rewrite vrep_string. iDestruct "Hv" as (ls) "[Hv Hs]".
    iApply wp_bind. iApply wp_bind. wp_ld "Hv". iApply wp_ret. simpl.
    wp_ld "Hv". iApply wp_ret. wp_ld "Hs".
    iApply (call_finish _ (l ↦ BValue (mkValue p (VString (Some ls))) ∗ chars ls s)%I
      with "[$Hv $Hs] Ho [HΦ]"); [|done..|].
    + apply writes_call, call_serialize_string.
    + iIntros "[Hv Hs]". iApply "HΦ". iExists ls. iFrame.
  - rewrite vrep_array. iDestruct "Hv" as (la) "[Hl Ha]". iApply wp_bind.
    iApply (wp_get_array with "Hl"). iIntros "Hl". rewrite arep_arepc. iDestruct "Ha" as (cap) "Ha".
    iApply (call_array with "Ha Ho"); [simpl in Hlv; lia| |done..|].
    + intros l' t Ht. rewrite json_wf_array Forall_forall in Hwf.
      pose proof (depth_elem_array _ _ Ht). apply IH; [by apply Hwf|lia|lia].
    + iIntros "Ha". iApply "HΦ". iExists la. iFrame. rewrite arep_arepc. iExists cap. iFrame.
  - rewrite vrep_object. iDestruct "Hv" as (lo) "[Hl Ha]". iApply wp_bind.
    iApply (wp_get_object with "Hl"). iIntros "Hl".
    apply json_wf_object in Hwf as [Hnd Hwf]. rewrite Forall_forall in Hwf.
    iApply (call_object with "Ha Ho"); [simpl in Hlv; lia|done| |done..|].
    + intros l' t Ht. pose proof (depth_elem_object _ _ Ht).
      apply list_elem_of_fmap in Ht as (kv & -> & Hkv). apply IH; [by apply Hwf|lia|lia].
    + iIntros "Ha". iApply "HΦ". iExists lo. iFrame.
Qed.
End serialize_proof.

(** ** The public functions *)

Section public.
Context `{Malloc}.

Lemma wp_serialize_r num_buf (pretty : bool) p l t c sz Φ :
  json_wf t → (zlen (serialize_json pretty 0 t) ≤ INT_MAX)%Z →
  room num_buf c sz (length (serialize_json pretty 0 t)) →
  vrep p l t -∗ out false c sz [] -∗
  (vrep p l t -∗
     out true (advance c (zlen (serialize_json pretty 0 t))) sz (serialize_json pretty 0 t) -∗
     Φ (zlen (serialize_json pretty 0 t))) -∗
  wp (heap_fuel (λ fuel, json_serialize_to_buffer_r fuel (Some l) c 0 pretty num_buf)) Φ.
Proof.
  iIntros (Hwf Hlen Hroom) "Hv Ho HΦ". pose proof (depth_serialize pretty t 0) as Hd.
  iApply (wp_heap_fuel _ (depth t) (vrep p l t ∗ (out false c sz [] ∗
    (vrep p l t -∗
     out true (advance c (zlen (serialize_json pretty 0 t))) sz (serialize_json pretty 0 t) -∗
     Φ (zlen (serialize_json pretty 0 t)))))%I with "[$Hv $Ho $HΦ]").
  - iIntros "[Hv _]". by iApply vrep_at_least.
  - iIntros (k Hk) "(Hv & Ho & HΦ)".
    iApply (call_value num_buf k pretty t 0 with "Hv Ho HΦ"); [done|lia|lia|done..].
Qed.

Lemma wp_serialization_size (pretty : bool) p l t Φ :
  json_wf t → (zlen (serialize_json pretty 0 t) < INT_MAX)%Z →
  vrep p l t -∗ (vrep p l t -∗ Φ (zlen (serialize_json pretty 0 t) + 1)%Z) -∗
  wp (serialization_size pretty (Some l)) Φ.
Proof.
  iIntros (Hwf Hlen) "Hv HΦ". iApply wp_bind.
  iApply (wp_serialize_r true pretty p l t None 0 with "Hv"); [done|lia|done..|]. iIntros "Hv _".
  rewrite (proj2 (Z.ltb_ge _ _)); [|lia]. iApply wp_int_add; [apply in_int_small; lia|]. by iApply "HΦ".
Qed.

(** The buffer after the call: the text, a NUL, and the rest of what it held. *)
Definition holds_text (lb : loc) (sz : Z) (txt : bytes) : hP :=
  ∃ tl, lb ↦ BChars sz (txt ++ x00 :: tl).

Lemma out_holds_text l sz txt :
  out true (advance (Some (l, 0)) (zlen txt)) sz txt ⊢ holds_text l sz txt.
Proof.
  iIntros "(%raw & Hl & %Hx)". destruct Hx as (_ & Htk & Hz). rewrite Nat2Z.id /= in Htk Hz.
  specialize (Hz eq_refl). iExists (drop (S (length txt)) raw).
  rewrite -{1}(take_drop_middle _ _ _ Hz) Htk. done.
Qed.

Lemma holds_text_chars l sz txt : nonul txt → holds_text l sz txt ⊢ chars l txt.
Proof.
  iIntros (Hnul) "(%tl & Hl)". iExists sz, _. iFrame. iPureIntro.
  split; [set_solver|by apply cstr_app_nul].
Qed.

Lemma wp_serialize_to_buffer (pretty : bool) p l t lb raw sz size Φ :
  json_wf t → (zlen (serialize_json pretty 0 t) < INT_MAX)%Z → (size ≤ sz)%Z →
  vrep p l t -∗ lb ↦ BChars sz raw -∗
  (if decide (zlen (serialize_json pretty 0 t) + 1 ≤ size)%Z
   then vrep p l t -∗ holds_text lb sz (serialize_json pretty 0 t) -∗ Φ JSONSuccess
   else vrep p l t -∗ lb ↦ BChars sz raw -∗ Φ JSONFailure) -∗
  wp (serialize_to_buffer pretty (Some l) (Some (lb, 0)) size) Φ.
Proof.
  iIntros (Hwf Hlen Hsz) "Hv Hb HΦ". iApply wp_bind.
  iApply (wp_serialization_size with "Hv"); [done..|]. iIntros "Hv".
  rewrite (proj2 (Z.eqb_neq _ _)); [|lia]. simpl.
  case_decide as Hfit.
  - rewrite (proj2 (Z.ltb_ge _ _)); [|lia]. iApply wp_bind.
    iApply (wp_serialize_r false pretty p l t (Some (lb, 0)) sz with "Hv [Hb]"); [done|lia|simpl; lia| |].
    { iExists raw. iFrame. done. }
    iIntros "Hv Ho". iApply wp_ret. rewrite (proj2 (Z.ltb_ge _ _)); [|lia].
    iApply ("HΦ" with "Hv"). by iApply out_holds_text.
  - rewrite (proj2 (Z.ltb_lt _ _)); [|lia]. iApply wp_ret. iApply ("HΦ" with "Hv Hb").
Qed.

Lemma wp_serialize_to_string (pretty : bool) p l t Φ :
  json_wf t → (zlen (serialize_json pretty 0 t) < INT_MAX)%Z →
  vrep p l t -∗
  (∀ r, vrep p l t -∗
     (if r is Some lb then holds_text lb (zlen (serialize_json pretty 0 t) + 1)
                             (serialize_json pretty 0 t)
      else ⌜⌜malloc_failed (zlen (serialize_json pretty 0 t) + 1)⌝⌝) -∗ Φ r) -∗
  wp (serialize_to_string pretty (Some l)) Φ.
Proof.
  iIntros (Hwf Hlen) "Hv HΦ". iApply wp_bind.
  iApply (wp_serialization_size with "Hv"); [done..|]. iIntros "Hv".
  rewrite (proj2 (Z.eqb_neq _ _)); [|lia]. iApply wp_bind. iApply wp_malloc.
  iIntros ([lb|] Hr) "Hb"; last first.
  { iApply wp_ret. iApply ("HΦ" with "Hv"). destruct Hr as [k Hk]. iFrame. iPureIntro.
    by eapply malloc_failed_intro. }
  iApply wp_bind. iApply (wp_serialize_to_buffer with "Hv Hb"); [done..|].
  rewrite decide_True //. iIntros "Hv Hb". iApply wp_ret. by iApply ("HΦ" with "Hv").
Qed.
End public.
