(* ===== verification/ParsonTheorems.v ===== *)
(** * Parson: the theorems

    Specifications of the public functions of common/json/parson.c, as [triple]s:
    total correctness, absence of undefined behaviour and of leaks, for every
    behaviour of the allocator. *)
From stdpp Require Import base list numbers gmap.
From iris.proofmode Require Import proofmode.
From S2P Require Import Prelude CMem SepLogic ParsonText CNum Parson ParsonParse ParsonOps.
From S2P Require Import ParsonTree ParsonSerialize JsonSpec ParsonTextProof JsonRoundTrip.
From S2P Require Import CNumProof ParsonRep ParsonMemProof ParsonParseProof ParsonOpsProof.
From S2P Require Import ParsonTreeProof ParsonSerializeProof.

(** The largest request made while parsing a text. *)
Definition parse_bound (s : bytes) : Z := (16 * Z.of_nat (length s) + 128)%Z.

Section specs.
Context `{Malloc}.

Lemma wp_json_parse_string s Φ :
  (∀ r, (match r with
         | Some l => ∃ t, vrep None l t ∗ ⌜⌜parse_json s = Some t⌝⌝
         | None => ⌜⌜parse_json s = None ∨ malloc_failed (parse_bound s)⌝⌝
         end) -∗ Φ r) ⊢ wp (json_parse_string (Some s)) Φ.
Proof.
  iIntros "HΦ". rewrite /json_parse_string /parse_json. set (s' := if decide _ then _ else _).
  assert (Hlen : length s' ≤ length s).
  { rewrite /s'. case_decide; [rewrite length_drop; lia|done]. }
  iApply wp_bind. iApply (wp_parse_value (parse_bound s)); [lia|rewrite /fits /parse_bound; lia|].
  iIntros ([[l|] r]) "Hr"; iApply wp_ret; iApply "HΦ"; rewrite /parsed /=.
  - iDestruct "Hr" as (t) "[Hv %Ht]". iExists t. iFrame. iPureIntro.
    change 2048 with MAX_NESTING. by rewrite Ht.
  - iDestruct "Hr" as %Hr. iPureIntro. destruct Hr as [Hr|]; [left|by right].
    change 2048 with MAX_NESTING. by rewrite Hr.
Qed.

Lemma wp_value_free_null Φ : Φ () ⊢ wp (json_value_free None) Φ.
Proof.
  iIntros "HΦ". iApply (wp_frame_wand _ (λ _, emp)%I); [|by iIntros ([]) "_"].
  iApply (wp_heap_fuel _ 0 emp (λ _, emp)%I); [| |done].
  - iIntros "_". iApply at_least_0.
  - iIntros (k Hk) "_". destruct k as [|k]; [lia|]. simpl.
    iApply wp_bind. iApply wp_ret. iApply wp_bind. iApply wp_ret. by iApply wp_free_null.
Qed.

Lemma wp_free_parsed (r : ptr) Φ :
  (if r is Some l then ∃ t, vrep None l t else emp) -∗ Φ () -∗ wp (json_value_free r) Φ.
Proof.
  iIntros "Hr HΦ". destruct r as [l|].
  - iDestruct "Hr" as (t) "Hv". iApply (wp_value_free with "Hv HΦ").
  - iApply (wp_value_free_null with "HΦ").
Qed.

(** The text after both kinds of comments were blanked out. *)
Definition without_comments (s : bytes) : bytes :=
  remove_comments (remove_comments s (bs "/*") (bs "*/")) (bs "//") [x0a].
Lemma without_comments_length s : length (without_comments s) = length s.
Proof. rewrite /without_comments !remove_comments_length //; by apply nonul_lit. Qed.

Lemma wp_parse_with_comments s Φ :
  nonul s →
  (∀ r, (match r with
         | Some l => ∃ t, vrep None l t ∗ ⌜⌜fst <$> parse_json_at MAX_NESTING (S (length s))
                                              (without_comments s) 0 = Some t⌝⌝
         | None => ⌜⌜parse_json_at MAX_NESTING (S (length s)) (without_comments s) 0 = None
                     ∨ malloc_failed (parse_bound s)⌝⌝
         end) -∗ Φ r) ⊢ wp (json_parse_string_with_comments s) Φ.
Proof.
  iIntros (Hs) "HΦ". rewrite /json_parse_string_with_comments.
  iApply wp_bind. iApply wp_parson_strndup; [done|by rewrite firstn_all|]. rewrite firstn_all.
  iIntros ([lc|]) "Hc"; last first.
  { iApply wp_ret. iDestruct "Hc" as %Hf. iApply "HΦ". iPureIntro. right.
    eapply malloc_failed_mono, Hf. rewrite /parse_bound. lia. }
  wp_ld "Hc". iDestruct "Hc" as (sz raw) "[Hc _]". cbv zeta.
  change (remove_comments (remove_comments s _ _) _ _) with (without_comments s).
  iApply wp_bind. iApply (wp_store with "Hc"). iIntros "Hc". rewrite without_comments_length.
  iApply wp_bind. iApply (wp_parse_value (parse_bound s)).
  { rewrite without_comments_length. lia. }
  { rewrite /fits /parse_bound without_comments_length. lia. }
  iIntros ([[l|] r]) "Hr"; rewrite /parsed /=;
    (iApply wp_bind; iApply (wp_free with "Hc"); iApply wp_ret; iApply "HΦ").
  - iDestruct "Hr" as (t) "[Hv %Ht]". iExists t. iFrame. iPureIntro. by rewrite Ht.
  - done.
Qed.

(** ** Parsing *)

(** C1. [json_parse_string] refines the grammar.  On every text and for every
    allocator it runs to the end without undefined behaviour; it returns either a
    value that owns exactly a representation of the tree [parse_json] assigns to the
    text, or NULL, in which case it has freed everything it allocated and either the
    text has no tree or a request of at most [parse_bound] bytes was refused. *)
Theorem json_parse_string_refines (s : bytes) :
  triple emp (json_parse_string (Some s)) (λ r,
    match r with
    | Some l => ∃ t, vrep None l t ∗ ⌜⌜parse_json s = Some t⌝⌝
    | None => ⌜⌜parse_json s = None ∨ malloc_failed (parse_bound s)⌝⌝
    end)%I.
Proof. apply triple_intro. iIntros "_". iApply wp_json_parse_string. by iIntros (r) "Hr". Qed.

(** [json_parse_string_with_comments] parses the text in which both kinds of
    comments are blanked out: it frees its copy of the text on every path, and what it
    returns represents the tree of the blanked text. *)
Theorem parse_with_comments_refines (s : bytes) (Hs : nonul s) :
  triple emp (json_parse_string_with_comments s) (λ r,
    match r with
    | Some l => ∃ t, vrep None l t ∗ ⌜⌜fst <$> parse_json_at MAX_NESTING (S (length s))
                                         (without_comments s) 0 = Some t⌝⌝
    | None => ⌜⌜parse_json_at MAX_NESTING (S (length s)) (without_comments s) 0 = None
                ∨ malloc_failed (parse_bound s)⌝⌝
    end)%I.
Proof.
  apply triple_intro. iIntros "_". iApply wp_parse_with_comments; [done|]. by iIntros (r) "Hr".
Qed.

(** Parsing a text and freeing the result leaves no block behind, whatever the
    text and whichever allocation requests fail. *)
Theorem parse_free_no_leak (s : bytes) :
  triple emp (v ← json_parse_string (Some s); json_value_free v) (λ _, emp)%I.
Proof.
  apply triple_intro. iIntros "_". iApply wp_bind. iApply wp_json_parse_string.
  iIntros (r) "Hr". iApply (wp_free_parsed with "[Hr]"); [|done]. destruct r as [l|].
  - iDestruct "Hr" as (t) "[Hv _]". iExists t. iFrame.
  - by iDestruct "Hr" as "_".
Qed.

(** ** Destruction, copy, comparison, validation *)

(** C27. [json_value_free] terminates on every represented tree, without touching a
    freed block, and gives back exactly the blocks of the tree: nothing leaks and
    nothing else is freed. *)
Theorem json_value_free_exact p l t : triple (vrep p l t) (json_value_free (Some l)) (λ _, emp)%I.
Proof. apply triple_intro. iIntros "Hv". by iApply (wp_value_free with "Hv"). Qed.

(** C29. [json_value_deep_copy] returns a detached value that represents the same tree
    in fresh blocks and leaves the original alone; if a request of at most
    [copy_bound] bytes is refused it returns NULL and frees the partial copy. *)
Theorem json_value_deep_copy_exact p l t (Ht : json_wf t) :
  triple (vrep p l t) (json_value_deep_copy (Some l)) (λ r,
    vrep p l t ∗ (if r is Some l' then vrep None l' t
                  else ⌜⌜malloc_failed (copy_bound (weight t))⌝⌝))%I.
Proof.
  apply triple_intro. iIntros "Hv". iApply (wp_deep_copy with "Hv"); [done|].
  iIntros (r) "$ Hr". iFrame.
Qed.

(** C32. [json_value_equals] decides [json_equal] on two values in memory and changes
    neither of them. *)
Theorem json_value_equals_decides pa la a pb lb b (Ha : json_wf a) :
  triple (vrep pa la a ∗ vrep pb lb b) (json_value_equals (Some la) (Some lb)) (λ r,
    vrep pa la a ∗ vrep pb lb b ∗ ⌜⌜r = json_equal a b⌝⌝)%I.
Proof.
  apply triple_intro. iIntros "[Ha Hb]". iApply (wp_equals with "Ha Hb"); [done|].
  iIntros "$ $". done.
Qed.

(** C33. [json_validate] decides [json_valid]: whether the value has the shape the
    schema asks for. *)
Theorem json_validate_decides ps ls s pv lv v (Hs : json_wf s) :
  triple (vrep ps ls s ∗ vrep pv lv v) (json_validate (Some ls) (Some lv)) (λ r,
    vrep ps ls s ∗ vrep pv lv v ∗
    ⌜⌜r = if json_valid s v then JSONSuccess else JSONFailure⌝⌝)%I.
Proof.
  apply triple_intro. iIntros "[Ha Hb]". iApply (wp_validate with "Ha Hb"); [done|].
  iIntros "$ $". done.
Qed.

(** ** Serialization *)

(** C26. [json_serialize_to_string] (and the pretty variant) returns a fresh
    NUL-terminated string that is exactly the text of the tree, in a block of exactly
    the size the counting run computed; every write stays inside the block.  It
    returns NULL only if that one allocation is refused.  The text is shorter than
    INT_MAX bytes: the size is the sum of an [int] and 1. *)
Theorem json_serialize_to_string_exact (pretty : bool) p l t
    (Ht : json_wf t) (Hlen : (zlen (serialize_json pretty 0 t) < INT_MAX)%Z) :
  triple (vrep p l t) (serialize_to_string pretty (Some l)) (λ r,
    vrep p l t ∗
    (if r is Some lb then holds_text lb (zlen (serialize_json pretty 0 t) + 1)
                            (serialize_json pretty 0 t)
     else ⌜⌜malloc_failed (zlen (serialize_json pretty 0 t) + 1)⌝⌝))%I.
Proof.
  apply triple_intro. iIntros "Hv". iApply (wp_serialize_to_string with "Hv"); [done..|].
  iIntros (r) "$ Hr". iFrame.
Qed.

(** C28. [json_serialize_to_buffer] never writes outside the caller's buffer: if the
    text and its NUL do not fit it fails and the buffer is unchanged, otherwise the
    buffer holds the text followed by a NUL.  The text is shorter than INT_MAX bytes. *)
Theorem json_serialize_to_buffer_bounded (pretty : bool) p l t lb raw sz size
    (Ht : json_wf t) (Hlen : (zlen (serialize_json pretty 0 t) < INT_MAX)%Z)
    (Hsize : (size ≤ sz)%Z) :
  triple (vrep p l t ∗ lb ↦ BChars sz raw)
    (serialize_to_buffer pretty (Some l) (Some (lb, 0)) size) (λ st,
    vrep p l t ∗
    if decide (zlen (serialize_json pretty 0 t) + 1 ≤ size)%Z
    then ⌜⌜st = JSONSuccess⌝⌝ ∗ holds_text lb sz (serialize_json pretty 0 t)
    else ⌜⌜st = JSONFailure⌝⌝ ∗ lb ↦ BChars sz raw)%I.
Proof.
  apply triple_intro. iIntros "[Hv Hb]". iApply (wp_serialize_to_buffer with "Hv Hb"); [done..|].
  case_decide; iIntros "$ Hb"; by iFrame.
Qed.

(** ** Round trips *)

Lemma parse_serialize_json pretty t :
  json_wf t → Forall normal_number (json_numbers t) → depth t ≤ 2049 →
  parse_json (serialize_json pretty 0 t) = Some t.
Proof.
  intros Ht Hn Hd. rewrite /parse_json.
  rewrite decide_False; last first.
  { destruct t as [|[]|d|s|ts|kvs]; try by intros [? _].
    simpl. destruct (format_g17_head d Ht) as (c & r & -> & Hc). intros [Hef _].
    rewrite /at_c /= in Hef. subst c. by destruct Hc. }
  rewrite -{2}(app_nil_r (serialize_json pretty 0 t)).
  assert (Hnr : Forall number_reads (json_numbers t)).
  { eapply Forall_impl; [exact Hn|]. apply normal_number_reads. }
  assert (He : ends_value []) by (rewrite /ends_value /hd_c /at_c /=; set_solver).
  pose proof (depth_serialize pretty t 0) as Hlen.
  by rewrite parse_serialize; [..|lia|lia|done].
Qed.

(** Printing a tree, compactly or indented, and parsing the text gives the tree
    back, for every nesting the parser accepts, every string and every tree whose
    numbers are zero or normal. *)
Theorem parse_serialize_roundtrip (pretty : bool) t
    (Ht : json_wf t) (Hn : Forall normal_number (json_numbers t)) (Hd : depth t ≤ 2049) :
  parse_json (serialize_json pretty 0 t) = Some t.
Proof. by apply parse_serialize_json. Qed.

(** C11. The same in memory: serializing a value with [json_serialize_to_string] and
    parsing the string with [json_parse_string] gives a detached value that represents
    the same tree, or NULL if an allocation is refused; the string is freed and the
    original value is unchanged.  This asks that the numbers of the tree are zero or
    normal doubles ([strtod] reports a range error for others, and parson rejects the
    text), that the nesting is within the parser's limit, and that the text is shorter
    than INT_MAX bytes, so that the serializer's [int] counters do not overflow. *)
Theorem serialize_parse_roundtrip (pretty : bool) p l t
    (Ht : json_wf t) (Hn : Forall normal_number (json_numbers t)) (Hd : depth t ≤ 2049)
    (Hlen : (zlen (serialize_json pretty 0 t) < INT_MAX)%Z) :
  triple (vrep p l t)
    (s ← serialize_to_string pretty (Some l);
     match s with
     | None => mret None
     | Some _ =>
         text ← load_cstr s;
         v ← json_parse_string (Some text);
         json_free_serialized_string s;;
         mret v
     end)
    (λ r, vrep p l t ∗
      (if r is Some l' then vrep None l' t
       else ⌜⌜malloc_failed (parse_bound (serialize_json pretty 0 t))⌝⌝))%I.
Proof.
  apply triple_intro. iIntros "Hv". iApply wp_bind.
  iApply (wp_serialize_to_string with "Hv"); [done..|]. iIntros ([lb|]) "Hv Hb"; last first.
  { iApply wp_ret. iFrame. iDestruct "Hb" as %Hf. iPureIntro. eapply malloc_failed_mono, Hf.
    rewrite /parse_bound. lia. }
  iDestruct (holds_text_chars with "Hb") as "Hb"; [by apply nonul_serialize|].
  wp_ld "Hb". iApply wp_bind. iApply wp_json_parse_string. iIntros (r) "Hr".
  iApply wp_bind. iApply (wp_free_chars with "Hb"). iApply wp_ret. iFrame.
  pose proof (parse_serialize_json pretty t Ht Hn Hd) as Hp. destruct r as [l'|].
  - iDestruct "Hr" as (t') "[Hv %Ht']". rewrite Hp in Ht'. by injection Ht' as ->.
  - iDestruct "Hr" as %[Hnone|Hf]; [congruence|done].
Qed.
End specs.

(** ** Instances *)

(** A small document: [{"a":[1,true],"b":"x\/y"}]. *)
Definition sample : json :=
  JObject [(bs "a", JArray [JNumber (S754_finite false 4503599627370496 (-52)); JBool true]);
           (bs "b", JString (bs "x/y"))].
Lemma sample_wf : json_wf sample.
Proof.
  apply json_wf_object. split; [by apply (bool_decide_eq_true_1 _); vm_compute|].
  repeat constructor; apply nonul_lit; reflexivity.
Qed.
Lemma sample_normal : Forall normal_number (json_numbers sample).
Proof. by apply (bool_decide_eq_true_1 _); vm_compute. Qed.
Lemma sample_depth : depth sample ≤ 2049.
Proof. vm_compute. lia. Qed.
Lemma sample_length pretty : (zlen (serialize_json pretty 0 sample) < INT_MAX)%Z.
Proof. by destruct pretty; vm_compute. Qed.

Section instances.
#[local] Existing Instance malloc_always.

Lemma parse_with_comments_refines_witness :
  nonul (bs "/* c */ [1]") ∧
  triple emp (json_parse_string_with_comments (bs "/* c */ [1]")) (λ r,
    match r with
    | Some l => ∃ t, vrep None l t ∗ ⌜⌜fst <$> parse_json_at MAX_NESTING (S (length (bs "/* c */ [1]")))
                                         (without_comments (bs "/* c */ [1]")) 0 = Some t⌝⌝
    | None => ⌜⌜parse_json_at MAX_NESTING (S (length (bs "/* c */ [1]")))
                  (without_comments (bs "/* c */ [1]")) 0 = None
                ∨ malloc_failed (parse_bound (bs "/* c */ [1]"))⌝⌝
    end)%I.
Proof.
  assert (Hs : nonul (bs "/* c */ [1]")) by (apply nonul_lit; reflexivity).
  split; [exact Hs|]. apply (parse_with_comments_refines (bs "/* c */ [1]")). exact Hs.
Defined.

Lemma json_value_deep_copy_exact_witness :
  json_wf sample ∧
  triple (vrep None 1%positive sample) (json_value_deep_copy (Some 1%positive)) (λ r,
    vrep None 1%positive sample ∗ (if r is Some l' then vrep None l' sample
                  else ⌜⌜malloc_failed (copy_bound (weight sample))⌝⌝))%I.
Proof.
  split; [exact sample_wf|]. apply (json_value_deep_copy_exact None 1%positive sample sample_wf).
Defined.

Lemma json_value_equals_decides_witness :
  json_wf sample ∧
  triple (vrep None 1%positive sample ∗ vrep None 2%positive JNull)
    (json_value_equals (Some 1%positive) (Some 2%positive)) (λ r,
    vrep None 1%positive sample ∗ vrep None 2%positive JNull ∗ ⌜⌜r = json_equal sample JNull⌝⌝)%I.
Proof.
  split; [exact sample_wf|].
  apply (json_value_equals_decides None 1%positive sample None 2%positive JNull sample_wf).
Defined.

Lemma json_validate_decides_witness :
  json_wf sample ∧
  triple (vrep None 1%positive sample ∗ vrep None 2%positive sample)
    (json_validate (Some 1%positive) (Some 2%positive)) (λ r,
    vrep None 1%positive sample ∗ vrep None 2%positive sample ∗
    ⌜⌜r = if json_valid sample sample then JSONSuccess else JSONFailure⌝⌝)%I.
Proof.
  split; [exact sample_wf|].
  apply (json_validate_decides None 1%positive sample None 2%positive sample sample_wf).
Defined.

Lemma json_serialize_to_string_exact_witness :
  json_wf sample ∧ (zlen (serialize_json true 0 sample) < INT_MAX)%Z ∧
  triple (vrep None 1%positive sample) (serialize_to_string true (Some 1%positive)) (λ r,
    vrep None 1%positive sample ∗
    (if r is Some lb then holds_text lb (zlen (serialize_json true 0 sample) + 1)
                            (serialize_json true 0 sample)
     else ⌜⌜malloc_failed (zlen (serialize_json true 0 sample) + 1)⌝⌝))%I.
Proof.
  split; [exact sample_wf|]. split; [exact (sample_length true)|].
  apply (json_serialize_to_string_exact true None 1%positive sample sample_wf (sample_length true)).
Defined.

Lemma json_serialize_to_buffer_bounded_witness :
  json_wf sample ∧ (zlen (serialize_json false 0 sample) < INT_MAX)%Z ∧ (10 ≤ 64)%Z ∧
  triple (vrep None 1%positive sample ∗ 9%positive ↦ BChars 64 [])
    (serialize_to_buffer false (Some 1%positive) (Some (9%positive, 0)) 10) (λ st,
    vrep None 1%positive sample ∗
    if decide (zlen (serialize_json false 0 sample) + 1 ≤ 10)%Z
    then ⌜⌜st = JSONSuccess⌝⌝ ∗ holds_text 9%positive 64 (serialize_json false 0 sample)
    else ⌜⌜st = JSONFailure⌝⌝ ∗ 9%positive ↦ BChars 64 [])%I.
Proof.
  split; [exact sample_wf|]. split; [exact (sample_length false)|]. split; [lia|].
  apply (json_serialize_to_buffer_bounded false None 1%positive sample 9%positive [] 64 10
           sample_wf (sample_length false)). lia.
Defined.

Lemma parse_serialize_roundtrip_witness :
  json_wf sample ∧ Forall normal_number (json_numbers sample) ∧ depth sample ≤ 2049 ∧
  parse_json (serialize_json true 0 sample) = Some sample.
Proof.
  split; [exact sample_wf|]. split; [exact sample_normal|]. split; [exact sample_depth|].
  apply (parse_serialize_roundtrip true sample sample_wf sample_normal sample_depth).
Defined.

Lemma serialize_parse_roundtrip_witness :
  json_wf sample ∧ Forall normal_number (json_numbers sample) ∧ depth sample ≤ 2049 ∧
  (zlen (serialize_json false 0 sample) < INT_MAX)%Z ∧
  triple (vrep None 1%positive sample)
    (s ← serialize_to_string false (Some 1%positive);
     match s with
     | None => mret None
     | Some _ =>
         text ← load_cstr s;
         v ← json_parse_string (Some text);
         json_free_serialized_string s;;
         mret v
     end)
    (λ r, vrep None 1%positive sample ∗
      (if r is Some l' then vrep None l' sample
       else ⌜⌜malloc_failed (parse_bound (serialize_json false 0 sample))⌝⌝))%I.
Proof.
  split; [exact sample_wf|]. split; [exact sample_normal|]. split; [exact sample_depth|].
  split; [exact (sample_length false)|].
  apply (serialize_parse_roundtrip false None 1%positive sample sample_wf sample_normal
           sample_depth (sample_length false)).
Defined.
End instances.
