(* ===== verification/ParsonApi.v ===== *)
(** * Parson: theorems about the object and array operations

    What the operations promise to a client that holds an object or an array: the
    effect on lookups and on the sequence of elements, with failures that change
    nothing.  The file ends with two behaviours of the code that a client should
    know about. *)
From stdpp Require Import base list numbers gmap.
From iris.proofmode Require Import proofmode.
From S2P Require Import Prelude CMem SepLogic ParsonText CNum Parson ParsonParse ParsonOps.
From S2P Require Import ParsonTree ParsonSerialize JsonSpec ParsonTextProof ParsonRep.
From S2P Require Import ParsonMemProof ParsonParseProof ParsonOpsProof ParsonTreeProof.
From S2P Require Import ParsonTheorems.

(** ** Laws of member lists *)

Lemma lookup_find_key k kvs i t :
  find_key k kvs.*1 = Some i → kvs !! i = Some (k, t) → olookup k kvs = Some t.
Proof. intros Hi Hkv. by rewrite olookup_find Hi /= list_lookup_fmap Hkv. Qed.

Lemma olookup_app k kvs1 kvs2 :
  olookup k (kvs1 ++ kvs2) =
  match olookup k kvs1 with Some t => Some t | None => olookup k kvs2 end.
Proof. induction kvs1 as [|[k' t] kvs1 IH]; [done|]. simpl. by case_decide. Qed.

Lemma olookup_None k kvs : olookup k kvs = None ↔ k ∉ kvs.*1.
Proof.
  induction kvs as [|[k' t] kvs IH]; simpl; [set_solver|]. case_decide; [set_solver|].
  rewrite IH. set_solver.
Qed.

Lemma olookup_oset k k' t kvs :
  olookup k' (oset k t kvs) = if decide (k' = k) then Some t else olookup k' kvs.
Proof.
  rewrite /oset. destruct (find_key k kvs.*1) as [i|] eqn:Hi.
  - apply find_key_Some in Hi as [Hk Hnot].
    rewrite list_lookup_fmap in Hk. destruct (kvs !! i) as [[k0 t0]|] eqn:Hkv; [|done].
    injection Hk as ->. apply list_elem_of_split_length in Hkv as (pre & post & -> & ->).
    rewrite insert_app_r_alt // Nat.sub_diag /= !olookup_app /=.
    rewrite fmap_app take_app_length' in Hnot; [|by rewrite length_fmap].
    apply olookup_None in Hnot.
    destruct (decide (k' = k)) as [->|Hd]; [rewrite Hnot; by case_decide|].
    destruct (decide (k = k')) as [|_]; [congruence|]. by destruct (olookup k' pre).
  - apply find_key_None, olookup_None in Hi. rewrite olookup_app /=.
    destruct (decide (k' = k)) as [->|Hd]; [rewrite Hi; by case_decide|].
    destruct (decide (k = k')) as [|_]; [congruence|]. by destruct (olookup k' kvs).
Qed.

Lemma nodup_oset k t kvs : NoDup kvs.*1 → NoDup (oset k t kvs).*1.
Proof.
  rewrite /oset. destruct (find_key k kvs.*1) as [i|] eqn:Hi; intros Hnd.
  - apply find_key_Some in Hi as [Hk _].
    by rewrite list_fmap_insert list_insert_id.
  - apply find_key_None in Hi. rewrite fmap_app. apply NoDup_app.
    split; [done|]. split; [set_solver|apply NoDup_singleton].
Qed.

Lemma oremove_perm k kvs t :
  olookup k kvs = Some t → kvs ≡ₚ (k, t) :: oremove k kvs.
Proof.
  rewrite olookup_find /oremove. destruct (find_key k kvs.*1) as [i|] eqn:Hi; [|done].
  simpl. intros Ht. apply find_key_Some in Hi as [Hk _]. apply swap_remove_perm.
  rewrite list_lookup_fmap in Hk. rewrite list_lookup_fmap in Ht.
  destruct (kvs !! i) as [[k' t']|]; naive_solver.
Qed.

(** ** Reflexivity of the comparison *)

Lemma dsub_diag d : is_finite d = true → dsub d d = S754_zero false.
Proof.
  destruct d as [[]|[]| |s m e]; try done. intros _.
  rewrite /dsub /SFsub Z.sub_diag. done.
Qed.
Lemma close_numbers_refl d : is_finite d = true → close_numbers d d = true.
Proof. intros Hd. by rewrite /close_numbers dsub_diag. Qed.

Lemma json_equal_refl t : json_wf t → json_equal t t = true.
Proof.
  induction t as [|[]|d|s|ts IH|kvs IH] using json_induction; intros Hwf; simpl.
  - done.
  - done.
  - done.
  - by apply close_numbers_refl.
  - by apply bool_decide_eq_true.
  - rewrite bool_decide_true //=. apply json_wf_array in Hwf.
    induction ts as [|t ts IHts]; [done|]. apply Forall_cons in IH as [Ht Hts].
    apply Forall_cons in Hwf as [Hwt Hwts]. simpl. rewrite Ht //. by apply IHts.
  - rewrite bool_decide_true //=. apply json_wf_object in Hwf as [Hnd Hwf].
    apply forallb_forall. intros [k t] Hin%list_elem_of_In. simpl.
    rewrite !Forall_forall in IH Hwf. pose proof Hin as (i & Hi)%list_elem_of_lookup.
    rewrite (olookup_nodup _ _ _ _ Hnd Hi). apply (IH _ Hin), (Hwf _ Hin).
Qed.

(** Members may come in any order. *)
Lemma json_equal_perm kvs kvs' :
  json_wf (JObject kvs) → kvs ≡ₚ kvs' → json_equal (JObject kvs) (JObject kvs') = true.
Proof.
  intros Hwf Hp. simpl. rewrite bool_decide_true; [|by rewrite Hp]. simpl.
  apply json_wf_object in Hwf as [Hnd Hwf]. rewrite Forall_forall in Hwf.
  apply forallb_forall. intros [k t] Hin%list_elem_of_In. simpl.
  assert (Hin' : (k, t) ∈ kvs') by by rewrite -Hp.
  assert (Hnd' : NoDup kvs'.*1) by by rewrite -Hp.
  apply list_elem_of_lookup in Hin' as (i & Hi).
  rewrite (olookup_nodup _ _ _ _ Hnd' Hi). apply json_equal_refl, (Hwf _ Hin).
Qed.

Section api.
Context `{Malloc}.

(** [json_object_set_value]: on success the object maps [name] to the new value
    and every other name to what it had (a previous value under [name] has been
    freed), and distinct names stay distinct.  It fails only if the name is new and an
    allocation was refused, and then both the object and the value are as before. *)
Theorem json_object_set_value_exact w lo cap kvs name lv t (Hname : nonul name) :
  triple (orepc w lo cap kvs ∗ vrep None lv t)
    (json_object_set_value (Some lo) (Some name) (Some lv)) (λ st,
    match st with
    | JSONSuccess => ∃ kvs', orep w lo kvs' ∗
        ⌜⌜(∀ k, olookup k kvs' = if decide (k = name) then Some t else olookup k kvs) ∧
          (NoDup kvs.*1 → NoDup kvs'.*1)⌝⌝
    | JSONFailure => orep w lo kvs ∗ vrep None lv t ∗
        ⌜⌜name ∉ kvs.*1 ∧ (malloc_failed (Z.of_nat (grown cap (length kvs)) * 8) ∨
                          malloc_failed (Z.of_nat (length name) + 1))⌝⌝
    end)%I.
Proof.
  apply triple_intro. iIntros "[Ho Hv]". iApply (wp_object_set_value with "Ho Hv"); [done|].
  iIntros ([|]) "Hst".
  - iDestruct "Hst" as (cap') "Ho". iExists (oset name t kvs). rewrite orep_orepc.
    iSplitL; [iExists cap'; iFrame|]. iPureIntro.
    split; [intros k; apply olookup_oset|apply nodup_oset].
  - iDestruct "Hst" as "((%cap' & Ho) & $ & $)". rewrite orep_orepc. iExists cap'. iFrame.
Qed.

(** A value that already belongs to a container cannot be inserted a second time:
    [json_object_set_value] refuses it and changes nothing, so that no value ever has
    two owners. *)
Theorem json_object_set_value_single_owner w lo kvs name q lv t :
  triple (orep w lo kvs ∗ vrep (Some q) lv t)
    (json_object_set_value (Some lo) (Some name) (Some lv)) (λ st,
    orep w lo kvs ∗ vrep (Some q) lv t ∗ ⌜⌜st = JSONFailure⌝⌝)%I.
Proof.
  apply triple_intro. iIntros "[Ho Hv]". iApply (wp_object_set_value_owned with "Ho Hv").
  iIntros "$ $". done.
Qed.

(** [json_object_remove] frees the first member with the name and keeps exactly
    the other members (the last one takes its place); it fails, changing nothing, if
    there is no such member. *)
Theorem json_object_remove_exact w lo cap kvs name (Hname : nonul name) :
  triple (orepc w lo cap kvs) (json_object_remove (Some lo) (Some name)) (λ st,
    match olookup name kvs with
    | Some t => ∃ kvs', orep w lo kvs' ∗ ⌜⌜st = JSONSuccess ∧ kvs ≡ₚ (name, t) :: kvs'⌝⌝
    | None => orep w lo kvs ∗ ⌜⌜st = JSONFailure⌝⌝
    end)%I.
Proof.
  apply triple_intro. iIntros "Ho". iApply (wp_object_remove with "Ho"); [done|]. iIntros "Ho".
  destruct (olookup name kvs) as [t|] eqn:Hk.
  - iExists (oremove name kvs). rewrite orep_orepc. iSplitL; [iExists cap; iFrame|].
    iPureIntro. split; [|by apply oremove_perm].
    rewrite olookup_find in Hk. by destruct (find_key name kvs.*1).
  - apply olookup_None, find_key_None in Hk. rewrite /oremove Hk. iSplit; [|done].
    rewrite orep_orepc. iExists cap. iFrame.
Qed.

(** [json_object_dotget_value] follows the dotted path through nested objects and
    returns the value at its end, which can be read and given back; it returns NULL
    exactly when the path leads nowhere. *)
Theorem json_object_dotget_value_path w lo kvs name :
  triple (orep w lo kvs) (json_object_dotget_value (Some lo) name) (λ r,
    match path_lookup (split_path name) kvs with
    | Some t => ∃ p l, ⌜⌜r = Some l⌝⌝ ∗ vrep p l t ∗ (vrep p l t -∗ orep w lo kvs)
    | None => ⌜⌜r = None⌝⌝ ∗ orep w lo kvs
    end)%I.
Proof.
  apply triple_intro. iIntros "Ho". iApply (wp_dotget with "Ho"); [lia|]. by iIntros (r) "Hr".
Qed.

(** [json_array_append_value] puts the value at the end of the array, keeping the
    other elements; a refused growth leaves the array and the value as they were. *)
Theorem json_array_append_value_exact w la cap ts lv t :
  triple (arepc w la cap ts ∗ vrep None lv t) (json_array_append_value (Some la) (Some lv)) (λ st,
    match st with
    | JSONSuccess => arepc w la (grown cap (length ts)) (ts ++ [t])
    | JSONFailure => arepc w la cap ts ∗ vrep None lv t ∗
        ⌜⌜malloc_failed (Z.of_nat (grown cap (length ts)) * 8)⌝⌝
    end)%I.
Proof.
  apply triple_intro. iIntros "[Ha Hv]". iApply (wp_array_append_value with "Ha Hv").
  by iIntros (st) "Hst".
Qed.

(** [json_array_remove] frees the element at the index and shifts the following
    ones down; an index past the end is refused without any change. *)
Theorem json_array_remove_exact w la cap ts i :
  triple (arepc w la cap ts) (json_array_remove (Some la) i) (λ st,
    if decide (i < length ts) then arepc w la cap (delete i ts) ∗ ⌜⌜st = JSONSuccess⌝⌝
    else arepc w la cap ts ∗ ⌜⌜st = JSONFailure⌝⌝)%I.
Proof.
  apply triple_intro. iIntros "Ha". iApply (wp_array_remove with "Ha").
  case_decide; iIntros "$"; done.
Qed.

(** [json_array_replace_value] frees the element at the index and stores the new
    value there; an index past the end is refused and the value stays with the caller. *)
Theorem json_array_replace_value_exact w la cap ts i lv t :
  triple (arepc w la cap ts ∗ vrep None lv t)
    (json_array_replace_value (Some la) i (Some lv)) (λ st,
    if decide (i < length ts) then arepc w la cap (<[i := t]> ts) ∗ ⌜⌜st = JSONSuccess⌝⌝
    else arepc w la cap ts ∗ vrep None lv t ∗ ⌜⌜st = JSONFailure⌝⌝)%I.
Proof.
  apply triple_intro. iIntros "[Ha Hv]". iApply (wp_array_replace_value with "Ha Hv").
  case_decide; [iIntros "$"|iIntros "$ $"]; done.
Qed.

(** Two objects whose members are the same in another order compare equal. *)
Theorem json_value_equals_unordered pa la kvs pb lb kvs'
    (Hwf : json_wf (JObject kvs)) (Hp : kvs ≡ₚ kvs') :
  triple (vrep pa la (JObject kvs) ∗ vrep pb lb (JObject kvs'))
    (json_value_equals (Some la) (Some lb)) (λ r,
    vrep pa la (JObject kvs) ∗ vrep pb lb (JObject kvs') ∗ ⌜⌜r = true⌝⌝)%I.
Proof.
  apply triple_intro. iIntros "[Ha Hb]". iApply (wp_equals with "Ha Hb"); [done|].
  iIntros "$ $". by rewrite json_equal_perm.
Qed.

(** C34. What the parser builds is well formed (names of an object are distinct,
    strings hold no NUL, numbers are finite) and nested at most [MAX_NESTING] deep. *)
Theorem json_parse_string_well_formed (s : bytes) :
  triple emp (json_parse_string (Some s)) (λ r,
    if r is Some l then ∃ t, vrep None l t ∗ ⌜⌜json_wf t ∧ depth t ≤ S MAX_NESTING⌝⌝ else emp)%I.
Proof.
  apply triple_intro. iIntros "_". iApply wp_json_parse_string. iIntros ([l|]) "Hr".
  - iDestruct "Hr" as (t) "[Hv %Ht]". iExists t. iFrame. iPureIntro.
    rewrite /parse_json in Ht. apply fmap_Some in Ht as ([t' r] & Ht & ->).
    by apply parse_json_at_good in Ht.
  - by iDestruct "Hr" as "_".
Qed.
End api.

(** ** Instances *)
Section api_instances.
#[local] Existing Instance malloc_always.

Lemma json_object_set_value_exact_witness :
  nonul (bs "k") ∧
  triple (orepc 1%positive 2%positive 16 [(bs "a", JNull)] ∗ vrep None 3%positive (JBool true))
    (json_object_set_value (Some 2%positive) (Some (bs "k")) (Some 3%positive)) (λ st,
    match st with
    | JSONSuccess => ∃ kvs', orep 1%positive 2%positive kvs' ∗
        ⌜⌜(∀ k, olookup k kvs' = if decide (k = bs "k") then Some (JBool true)
                                 else olookup k [(bs "a", JNull)]) ∧
          (NoDup [(bs "a", JNull)].*1 → NoDup kvs'.*1)⌝⌝
    | JSONFailure => orep 1%positive 2%positive [(bs "a", JNull)] ∗
        vrep None 3%positive (JBool true) ∗
        ⌜⌜bs "k" ∉ [(bs "a", JNull)].*1 ∧
          (malloc_failed (Z.of_nat (grown 16 (length [(bs "a", JNull)])) * 8) ∨
           malloc_failed (Z.of_nat (length (bs "k")) + 1))⌝⌝
    end)%I.
Proof.
  assert (Hk : nonul (bs "k")) by (apply nonul_lit; reflexivity). split; [exact Hk|].
  apply (json_object_set_value_exact 1%positive 2%positive 16 [(bs "a", JNull)] (bs "k")
           3%positive (JBool true) Hk).
Defined.

Lemma json_object_remove_exact_witness :
  nonul (bs "a") ∧
  triple (orepc 1%positive 2%positive 16 [(bs "a", JNull); (bs "b", JNull)])
    (json_object_remove (Some 2%positive) (Some (bs "a"))) (λ st,
    match olookup (bs "a") [(bs "a", JNull); (bs "b", JNull)] with
    | Some t => ∃ kvs', orep 1%positive 2%positive kvs' ∗
        ⌜⌜st = JSONSuccess ∧ [(bs "a", JNull); (bs "b", JNull)] ≡ₚ (bs "a", t) :: kvs'⌝⌝
    | None => orep 1%positive 2%positive [(bs "a", JNull); (bs "b", JNull)] ∗ ⌜⌜st = JSONFailure⌝⌝
    end)%I.
Proof.
  assert (Hk : nonul (bs "a")) by (apply nonul_lit; reflexivity). split; [exact Hk|].
  apply (json_object_remove_exact 1%positive 2%positive 16 [(bs "a", JNull); (bs "b", JNull)]
           (bs "a") Hk).
Defined.

Lemma two_members_wf : json_wf (JObject [(bs "a", JNull); (bs "b", JBool true)]).
Proof.
  apply json_wf_object. split; [by apply (bool_decide_eq_true_1 _); vm_compute|].
  repeat constructor; apply nonul_lit; reflexivity.
Qed.
Lemma json_value_equals_unordered_witness :
  json_wf (JObject [(bs "a", JNull); (bs "b", JBool true)]) ∧
  [(bs "a", JNull); (bs "b", JBool true)] ≡ₚ [(bs "b", JBool true); (bs "a", JNull)] ∧
  triple (vrep None 1%positive (JObject [(bs "a", JNull); (bs "b", JBool true)]) ∗
          vrep None 2%positive (JObject [(bs "b", JBool true); (bs "a", JNull)]))
    (json_value_equals (Some 1%positive) (Some 2%positive)) (λ r,
    vrep None 1%positive (JObject [(bs "a", JNull); (bs "b", JBool true)]) ∗
    vrep None 2%positive (JObject [(bs "b", JBool true); (bs "a", JNull)]) ∗ ⌜⌜r = true⌝⌝)%I.
Proof.
  split; [exact two_members_wf|]. split; [apply Permutation_swap|].
  apply (json_value_equals_unordered None 1%positive _ None 2%positive _ two_members_wf).
  apply Permutation_swap.
Defined.
End api_instances.

(** ** Two behaviours to know about *)

(** An object and a call of [json_object_set_string] (or of
    [json_array_append_string]) on an allocator that serves four requests only. *)
Definition set_string_run : option (JSON_Status * nat) :=
  let H := malloc_first 4 in
  match (v ← json_value_init_object; o ← json_value_get_object v;
         json_object_set_string o (Some (bs "k")) (Some (bs "v"))) (Mem ∅ 1) with
  | Some (st, m) => Some (st, size (heap m))
  | None => None
  end.
Definition append_string_run : option (JSON_Status * nat) :=
  let H := malloc_first 4 in
  match (v ← json_value_init_array; a ← json_value_get_array v;
         json_array_append_string a (Some (bs "v"))) (Mem ∅ 1) with
  | Some (st, m) => Some (st, size (heap m))
  | None => None
  end.

(** The two typed insertions treat a failed insertion differently:
    [json_array_append_string] frees the value it made, so that only the two blocks of
    the array remain, while [json_object_set_string] returns [JSONFailure] and leaves
    the value and its string allocated, reachable from nowhere. *)
Theorem json_object_set_string_leaks :
  set_string_run = Some (JSONFailure, 4) ∧ append_string_run = Some (JSONFailure, 2).
Proof. split; vm_compute; reflexivity. Qed.

(** A minus sign without digits is accepted as the number 0: [strtod] converts
    nothing, and [is_decimal] of an empty prefix is true. *)
Theorem json_parse_string_minus :
  (let H := malloc_always in
   match json_parse_string (Some (bs "-")) (Mem ∅ 1) with
   | Some (Some l, m) => heap m !! l
   | _ => None
   end) = Some (BValue (mkValue None (VNumber (S754_zero false)))).
Proof. vm_compute. reflexivity. Qed.
