(* ===== verification/ParsonFile.v ===== *)
(** * Parson: files (common/json/parson.c, outside enclaves)

    The functions that read and write files, which ENCLAVE_CODE removes from the enclaves.
    What the C library says about files is the class [Stdio].  The theorems: a file is
    parsed as the text it holds, what is written is the text of the tree, and nothing is
    leaked on any path. *)
From stdpp Require Import base list gmap numbers option strings.
From Stdlib Require Import ZArith Lia.
From iris.proofmode Require Import proofmode.
From S2P Require Import Prelude CMem SepLogic ParsonText CNum Parson ParsonParse ParsonOps ParsonSerialize JsonSpec.
From S2P Require Import JsonRoundTrip CNumProof ParsonRep ParsonMemProof ParsonSerializeProof ParsonTheorems.
Local Open Scope Z_scope.

(** A file opened for reading: what [ftell] says at its end, what [fread] delivers, and
    whether [ferror] holds afterwards *)
Record FILE := mkFile { ftell_end : Z; contents : bytes; ferror : bool }.
(** [fopen_w], [fputs] and [fclose] say whether the call succeeds. *)
Class Stdio := {
  fopen_r : bytes → option FILE;
  fopen_w : bytes → bool;
  fputs : bytes → bytes → bool;
  fclose : bytes → bool }.

Section files.
Context `{Malloc} `{Stdio}.

Definition read_file (filename : bytes) : MP ptr :=
  match fopen_r filename with
  | None => mret None
  | Some fp =>
      if ftell_end fp <? 0 then mret None
      else
        let size_to_read := ftell_end fp in
        file_contents ← parson_malloc (size_to_read + 1) (BChars (size_to_read + 1) []);
        match file_contents with
        | None => mret None
        | Some _ =>
            let data := take (Z.to_nat size_to_read) (contents fp) in
            if (length data =? 0)%nat || ferror fp then
              parson_free file_contents;; mret None
            else
              store file_contents (BChars (size_to_read + 1) (data ++ [x00]));;
              mret file_contents
        end
  end.

Definition json_parse_file (filename : bytes) : MP ptr :=
  file_contents ← read_file filename;
  match file_contents with
  | None => mret None
  | Some _ =>
      text ← load_cstr file_contents;
      output_value ← json_parse_string (Some text);
      parson_free file_contents;;
      mret output_value
  end.

Definition json_parse_file_with_comments (filename : bytes) : MP ptr :=
  file_contents ← read_file filename;
  match file_contents with
  | None => mret None
  | Some _ =>
      text ← load_cstr file_contents;
      output_value ← json_parse_string_with_comments text;
      parson_free file_contents;;
      mret output_value
  end.

(** The status, and what was given to [fputs] if the file was opened *)
Definition serialize_to_file (is_pretty : bool) (value : ptr) (filename : bytes) : MP (JSON_Status * option bytes) :=
  serialized_string ← serialize_to_string is_pretty value;
  match serialized_string with
  | None => mret (JSONFailure, None)
  | Some _ =>
      if negb (fopen_w filename) then
        json_free_serialized_string serialized_string;; mret (JSONFailure, None)
      else
        text ← load_cstr serialized_string;
        let return_code := if fputs filename text then JSONSuccess else JSONFailure in
        let return_code := if fclose filename then return_code else JSONFailure in
        json_free_serialized_string serialized_string;;
        mret (return_code, Some text)
  end.
Definition json_serialize_to_file : ptr → bytes → MP (JSON_Status * option bytes) := serialize_to_file false.
Definition json_serialize_to_file_pretty : ptr → bytes → MP (JSON_Status * option bytes) := serialize_to_file true.

(** ** Specifications *)

(** The text of a file: what was read up to the first NUL *)
Definition file_text (filename : bytes) : option bytes :=
  match fopen_r filename with
  | Some fp =>
      let data := take (Z.to_nat (ftell_end fp)) (contents fp) in
      if (ftell_end fp <? 0) || (length data =? 0)%nat || ferror fp then None else Some (cstr data)
  | None => None
  end.
(** The largest request made for the buffer *)
Definition file_bound (filename : bytes) : Z := if fopen_r filename is Some fp then ftell_end fp + 1 else 0.

Lemma wp_read_file filename Φ :
  (∀ r, (match r with
         | Some l => ∃ s, chars l s ∗ ⌜⌜file_text filename = Some s⌝⌝
         | None => ⌜⌜file_text filename = None ∨ malloc_failed (file_bound filename)⌝⌝
         end) -∗ Φ r) ⊢ wp (read_file filename) Φ.
Proof.
  iIntros "HΦ". rewrite /read_file /file_text /file_bound.
  destruct (fopen_r filename) as [fp|]; [|iApply wp_ret; iApply "HΦ"; auto].
  destruct (ftell_end fp <? 0); [iApply wp_ret; iApply "HΦ"; auto|]. cbv zeta.
  iApply wp_bind. iApply wp_malloc. iIntros ([l|] Hl) "Hl"; last first.
  { iApply wp_ret. iApply "HΦ". iPureIntro. right. destruct Hl as [k Hk]. by eapply malloc_failed_intro. }
  set (data := take _ (contents fp)). simpl. destruct ((length data =? 0)%nat || ferror fp).
  { iApply wp_bind. iApply (wp_free with "Hl"). iApply wp_ret. iApply "HΦ". auto. }
  iApply wp_bind. iApply (wp_store with "Hl"). iIntros "Hl". iApply wp_ret. iApply "HΦ".
  iExists (cstr data). iSplit; [|done]. iExists _, _. iFrame. iPureIntro. split; [set_solver|apply cstr_app_end].
Qed.

Lemma wp_json_parse_file filename Φ :
  (∀ r, (match r with
         | Some l => ∃ t, vrep None l t ∗ ⌜⌜file_text filename ≫= parse_json = Some t⌝⌝
         | None => ⌜⌜file_text filename ≫= parse_json = None ∨ malloc_failed (file_bound filename) ∨
                     ∃ s, file_text filename = Some s ∧ malloc_failed (parse_bound s)⌝⌝
         end) -∗ Φ r) ⊢ wp (json_parse_file filename) Φ.
Proof.
  iIntros "HΦ". iApply wp_bind. iApply wp_read_file. iIntros ([lf|]) "Hf"; last first.
  { iApply wp_ret. iApply "HΦ". iDestruct "Hf" as %[Hf|Hf]; iPureIntro; [left; by rewrite Hf|auto]. }
  iDestruct "Hf" as (s) "[Hs %Hs]". wp_ld "Hs". iApply wp_bind. iApply wp_json_parse_string. iIntros (r) "Hr".
  iApply wp_bind. iApply (wp_free_chars with "Hs"). iApply wp_ret. iApply "HΦ". destruct r as [l|].
  - iDestruct "Hr" as (t) "[Hv %Ht]". iExists t. iFrame. iPureIntro. by rewrite Hs.
  - iDestruct "Hr" as %[Hr|Hr]; iPureIntro; [left; by rewrite Hs|right; right; eauto].
Qed.

(** [json_parse_file] parses what the file holds: it returns a value that represents the
    tree of its text and owns nothing else, or NULL if there is no such text or tree or an
    allocation was refused; the buffer of the file is freed on every path. *)
Theorem json_parse_file_refines (filename : bytes) :
  triple emp (json_parse_file filename) (λ r,
    match r with
    | Some l => ∃ t, vrep None l t ∗ ⌜⌜file_text filename ≫= parse_json = Some t⌝⌝
    | None => ⌜⌜file_text filename ≫= parse_json = None ∨ malloc_failed (file_bound filename) ∨
                ∃ s, file_text filename = Some s ∧ malloc_failed (parse_bound s)⌝⌝
    end)%I.
Proof. apply triple_intro. iIntros "_". iApply wp_json_parse_file. by iIntros (r) "Hr". Qed.

(** The same for the variant that blanks out comments *)
Theorem json_parse_file_with_comments_frees (filename : bytes) :
  triple emp (v ← json_parse_file_with_comments filename; json_value_free v) (λ _, emp)%I.
Proof.
  apply triple_intro. iIntros "_". iApply wp_bind. iApply wp_bind. iApply wp_read_file.
  iIntros ([lf|]) "Hf"; last first.
  { iDestruct "Hf" as "_". iApply wp_ret. by iApply wp_value_free_null. }
  iDestruct "Hf" as (s) "[Hs %Hs]". wp_ld "Hs". iDestruct (chars_nonul with "Hs") as %Hn.
  iApply wp_bind. iApply wp_parse_with_comments; [done|]. iIntros (r) "Hr".
  iApply wp_bind. iApply (wp_free_chars with "Hs"). iApply wp_ret.
  iApply (wp_free_parsed with "[Hr]"); [|done]. destruct r as [l|]; [|by iDestruct "Hr" as "_"].
  iDestruct "Hr" as (t) "[Hv _]". iExists t. iFrame.
Qed.

Lemma wp_serialize_to_file pretty p l t filename Φ :
  json_wf t → zlen (serialize_json pretty 0 t) < INT_MAX →
  vrep p l t -∗
  (∀ r, vrep p l t -∗ ⌜⌜r = (JSONFailure, None) ∧
            (fopen_w filename = false ∨ malloc_failed (zlen (serialize_json pretty 0 t) + 1)) ∨
          r = (if fputs filename (serialize_json pretty 0 t) && fclose filename then JSONSuccess else JSONFailure,
               Some (serialize_json pretty 0 t)) ∧ fopen_w filename = true⌝⌝ -∗ Φ r) -∗
  wp (serialize_to_file pretty (Some l) filename) Φ.
Proof.
  iIntros (Ht Hlen) "Hv HΦ". iApply wp_bind. iApply (wp_serialize_to_string with "Hv"); [done..|].
  iIntros ([lb|]) "Hv Hb"; last first.
  { iApply wp_ret. iDestruct "Hb" as %Hf. iApply ("HΦ" with "Hv"). auto. }
  destruct (fopen_w filename) eqn:Ew; simpl; last first.
  { iApply wp_bind. iDestruct (holds_text_chars with "Hb") as "Hb"; [by apply nonul_serialize|].
    iApply (wp_free_chars with "Hb"). iApply wp_ret. iApply ("HΦ" with "Hv"). auto. }
  iDestruct (holds_text_chars with "Hb") as "Hb"; [by apply nonul_serialize|]. wp_ld "Hb".
  iApply wp_bind. iApply (wp_free_chars with "Hb"). iApply wp_ret. iApply ("HΦ" with "Hv").
  iPureIntro. right. split; [|done]. by destruct (fputs filename _), (fclose filename).
Qed.

(** A tree written to a file is read back: if the file holds what was given to [fputs] when
    writing has succeeded, then parsing it gives a new value that represents the same tree,
    or NULL for lack of memory; the original is unchanged and nothing is leaked. *)
Theorem file_roundtrip (pretty : bool) p l t filename
    (Ht : json_wf t) (Hn : Forall normal_number (json_numbers t)) (Hd : (depth t ≤ 2049)%nat)
    (Hlen : zlen (serialize_json pretty 0 t) < INT_MAX)
    (Hfile : file_text filename = Some (serialize_json pretty 0 t)) :
  triple (vrep p l t)
    ('(status, _) ← serialize_to_file pretty (Some l) filename;
     if decide (status = JSONSuccess) then json_parse_file filename else mret None)
    (λ r, vrep p l t ∗ if r is Some l' then vrep None l' t else emp)%I.
Proof.
  apply triple_intro. iIntros "Hv". iApply wp_bind. iApply (wp_serialize_to_file with "Hv"); [done..|].
  iIntros ([st w]) "Hv _". case_decide; [|iApply wp_ret; by iFrame].
  iApply wp_json_parse_file. iIntros ([l'|]) "Hr"; last by iFrame.
  iDestruct "Hr" as (t') "[Hv' %Ht']". rewrite Hfile /= parse_serialize_json // in Ht'. injection Ht' as ->. iFrame.
Qed.
End files.

(** ** Examples *)
Section instances.
#[local] Existing Instance malloc_always.
#[local] Instance sample_stdio : Stdio := {|
  fopen_r _ := Some (mkFile (zlen (serialize_json false 0 sample)) (serialize_json false 0 sample) false);
  fopen_w _ := true; fputs _ _ := true; fclose _ := true |}.
Lemma file_roundtrip_witness :
  triple (vrep None 1%positive sample)
    ('(status, _) ← serialize_to_file false (Some 1%positive) (bs "a.json");
     if decide (status = JSONSuccess) then json_parse_file (bs "a.json") else mret None)
    (λ r, vrep None 1%positive sample ∗ if r is Some l' then vrep None l' sample else emp)%I.
Proof.
  apply (file_roundtrip false None 1%positive sample (bs "a.json") sample_wf sample_normal sample_depth (sample_length false)).
  by vm_compute.
Defined.
End instances.
