(* ===== verification/SgxCCLib.v ===== *)
(** * The untrusted side of the enclaves (common/sgxcclib/common-sgxcclib.c,
      ecc_enclave/sgxcclib/sgxcclib.c, tlcc_enclave/trusted_ledger/trusted_ledger.c,
      common/logging.c)

    The library between the Go peer code and the enclaves: it creates and destroys
    enclaves, forwards calls to them through the bridge functions that the SGX tool
    chain generates, collects attestation data, and forwards the callbacks of an
    enclave to the peer.  The SGX SDK, the bridge and the peer are not part of the
    repository: they are the operations of the class [Platform], over a state [W] of
    their own.  Every operation gives its status, the new contents of the buffers it
    may write, and the new state.  Structures that the library only passes on
    (reports, quotes, keys) are byte strings. *)
From stdpp Require Import base list numbers option strings pretty.
From Stdlib Require Import ZArith Lia.
From S2P Require Import Prelude.
Local Open Scope Z_scope.

(** What the library relies on. *)
Class Platform (W : Type) := {
  SGX_SUCCESS : Z;
  SGX_ERROR_UNEXPECTED : Z;
  SGX_ERROR_OUT_OF_MEMORY : Z;
  sgx_unexpected_error : SGX_ERROR_UNEXPECTED ≠ SGX_SUCCESS;
  sgx_memory_error : SGX_ERROR_OUT_OF_MEMORY ≠ SGX_SUCCESS;
  (** sizes of SDK structures, and of the [printf] buffer of the enclave's C library *)
  sizeof_target_info : nat;
  sizeof_gid : nat;
  BUFSIZ : nat;
  (** the file system and the log of the peer *)
  access_ok : bytes → W → bool;
  golog : bytes → W → W;
  (** SDK: file name, old eid; status, eid *)
  sgx_create_enclave : bytes → Z → W → Z * Z * W;
  sgx_destroy_enclave : Z → W → Z * W;
  sgx_calc_quote_size : option bytes → Z → Z → W → Z * Z * W;
  sgx_get_target_info : Z → bytes → W → Z * bytes * W;
  (** old target info and group id *)
  sgx_init_quote : bytes → bytes → W → Z * bytes * bytes * W;
  (** report, spid, signature revocation list and its size, old quote, quote size; the
      sign type is a constant, the nonce and the QE report are NULL *)
  sgx_get_quote : bytes → bytes → option bytes → Z → bytes → Z → W → Z * bytes * W;
  (** bridge: the status of the transition, the status the enclave returned (its old
      value is an argument), and what the enclave wrote *)
  ecall_init : Z → Z → W → Z * Z * W;
  ecall_create_report : Z → Z → bytes → bytes → bytes → W → Z * Z * bytes * bytes * W;
  ecall_get_pk : Z → Z → bytes → W → Z * Z * bytes * W;
  ecall_bind_tlcc : Z → Z → option bytes → option bytes → W → Z * Z * W;
  (** arguments, client key, old response, its size, old response length and signature *)
  ecall_cc_invoke : Z → Z → bytes → option bytes → bytes → Z → Z → bytes → W →
                    Z * Z * bytes * Z * bytes * W;
  ecall_join_channel : Z → Z → bytes → Z → W → Z * Z * W;
  ecall_next_block : Z → Z → bytes → Z → W → Z * Z * W;
  ecall_get_state_metadata : Z → Z → bytes → bytes → bytes → W → Z * Z * bytes * W;
  ecall_get_multi_state_metadata : Z → Z → bytes → bytes → bytes → W → Z * Z * bytes * W;
  ecall_print_state : Z → Z → W → Z * Z * W;
  (** callbacks of the peer *)
  get_creator_name : bytes → Z → bytes → Z → W → bytes * bytes * W;
  get_state : bytes → bytes → Z → Z → bytes → W → bytes * Z * bytes * W;
  get_state_by_partial_composite_key : bytes → bytes → Z → Z → bytes → W → bytes * Z * bytes * W;
  put_state : bytes → bytes → Z → W → W
}.

Section sgxcclib.
Context {W : Type} `{Platform W}.

(** ** Logging *)

Definition BUF_SIZE : nat := 1024.
Definition LARGE_BUF_SIZE : nat := (BUF_SIZE * 2)%nat.
Definition NRM : bytes := x1b :: bs "[0m".
Definition RED : bytes := x1b :: bs "[31m".
Definition CYN : bytes := x1b :: bs "[36m".

(** [vsnprintf(msg, n, ...)] of an argument list that formats to [text]. *)
Definition snprintf_buf (n : nat) (text : bytes) : bytes := take (n - 1)%nat text.

(** [colored_msg] for the formatted text, with the prefix of the level *)
Definition colored (color level text : bytes) : bytes :=
  let msg := snprintf_buf BUF_SIZE text in
  snprintf_buf LARGE_BUF_SIZE (color ++ level ++ msg ++ NRM ++ [x0a]).

Definition LOG_ERROR (text : bytes) (w : W) : W := golog (colored RED (bs "ERROR: ") text) w.
Definition LOG_DEBUG (text : bytes) (w : W) : W := golog (colored CYN (bs "DEBUG: ") text) w.

(** The [%d] of an [int] and the [%u] of a [uint32_t]. *)
Definition show_int (z : Z) : bytes := bs (pretty z).

(** ** Status checks

    A function works on the buffers [O] it was given and the state, and returns a
    status. *)
Definition lib (O : Type) : Type := O * W → Z * (O * W).

Definition RETURN {O} (status : Z) : lib O := λ s, (status, s).

(** [CHECK_SGX_ERROR_AND_RETURN_ON_ERROR(var)] at a line of a function. *)
Definition CHECK {O} (func : string) (line : Z) (var : string) (status : Z) (k : lib O) : lib O :=
  λ '(o, w),
    if bool_decide (status ≠ SGX_SUCCESS) then
      (status, (o, LOG_ERROR (bs "Lib: ERROR - " ++ bs func ++ bs ":" ++ show_int line ++ bs ": " ++
                              bs var ++ bs "=" ++ show_int status) w))
    else k (o, w).

(** The two checks after a call into an enclave. *)
Definition CHECK2 {O} (func : string) (line : Z) (ret enclave_ret : Z) (k : lib O) : lib O :=
  CHECK func line "ret" ret (CHECK func (line + 1) "enclave_ret" enclave_ret k).

(** ** common-sgxcclib.c *)

Definition sgxcc_create_enclave (enclave_file : bytes) : lib Z := λ '(eid, w),
  if negb (access_ok enclave_file w) then
    (SGX_ERROR_UNEXPECTED,
      (eid, LOG_ERROR (bs "Lib: enclave file does not exist! " ++ enclave_file) w))
  else
    let '(ret, eid, w) := sgx_create_enclave enclave_file eid w in
    CHECK "sgxcc_create_enclave" 73 "ret" ret (λ '(eid, w),
      let '(ret, enclave_ret, w) := ecall_init eid SGX_ERROR_UNEXPECTED w in
      CHECK2 "sgxcc_create_enclave" 77 ret enclave_ret (RETURN SGX_SUCCESS) (eid, w)) (eid, w).

Definition sgxcc_destroy_enclave (eid : Z) : lib unit := λ '(_, w),
  let '(ret, w) := sgx_destroy_enclave eid w in
  CHECK "sgxcc_destroy_enclave" 86 "ret" ret (RETURN SGX_SUCCESS) ((), w).

(** The result is [None] where the code dereferences NULL. *)
Definition sgxcc_get_quote_size (p_sig_rl : option bytes) (sig_rl_size : Z)
    (p_quote_size : option Z) (w : W) : option (Z * (Z * W)) :=
  match p_quote_size with
  | None => None
  | Some _ =>
      let quote_size := 0 in
      if (sig_rl_size >? 0) && bool_decide (p_sig_rl = None) then
        Some (SGX_ERROR_UNEXPECTED,
          (quote_size, LOG_ERROR (bs "Lib: Error: sigrlsize not zero but null sig_rl") w))
      else
        let '(ret, quote_size, w) := sgx_calc_quote_size p_sig_rl sig_rl_size quote_size w in
        Some (CHECK "sgxcc_get_quote_size" 105 "ret" ret (RETURN SGX_SUCCESS) (quote_size, w))
  end.

Definition sgxcc_get_target_info (eid : Z) : lib bytes := λ '(target_info, w),
  let '(ret, target_info, w) := sgx_get_target_info eid target_info w in
  CHECK "sgxcc_get_target_info" 113 "ret" ret (RETURN SGX_SUCCESS) (target_info, w).

(** The buffers are the report and the public key. *)
Definition sgxcc_get_local_attestation_report (eid : Z) (target_info : bytes)
    : lib (bytes * bytes) := λ '(report, pubkey, w),
  let '(ret, enclave_ret, report, pubkey, w) :=
    ecall_create_report eid SGX_ERROR_UNEXPECTED target_info report pubkey w in
  CHECK2 "sgxcc_get_local_attestation_report" 123 ret enclave_ret
    (RETURN SGX_SUCCESS) ((report, pubkey), w).

(** [{0}] of a structure of [n] bytes. *)
Definition zeroed (n : nat) : bytes := replicate n x00.

(** The buffers are the quote and the public key; [report0] is the uninitialised
    [report] on the stack. *)
Definition sgxcc_get_remote_attestation_report (report0 : bytes) (eid quote_size : Z)
    (spid : bytes) (p_sig_rl : option bytes) (sig_rl_size : Z)
    : lib (bytes * bytes) := λ '(quote, pubkey, w),
  let f := "sgxcc_get_remote_attestation_report" in
  let '(ret, qe_target_info, gid, w) :=
    sgx_init_quote (zeroed sizeof_target_info) (zeroed sizeof_gid) w in
  CHECK f 141 "ret" ret (λ '((quote, pubkey), w),
    let '(ret, enclave_ret, report, pubkey, w) :=
      ecall_create_report eid SGX_ERROR_UNEXPECTED qe_target_info report0 pubkey w in
    CHECK2 f 146 ret enclave_ret (λ '((quote, pubkey), w),
      match sgxcc_get_quote_size p_sig_rl sig_rl_size (Some 0) w with
      | None => (SGX_ERROR_UNEXPECTED, ((quote, pubkey), w)) (* not reached *)
      | Some (ret, (required_quote_size, w)) =>
          CHECK f 151 "ret" ret (λ '((quote, pubkey), w),
            if quote_size <? required_quote_size then
              (SGX_ERROR_OUT_OF_MEMORY, ((quote, pubkey),
                LOG_ERROR (bs "Lib: ERROR - quote size too small. Required " ++
                           show_int required_quote_size ++ bs " have " ++ show_int quote_size) w))
            else
              let '(ret, quote, w) :=
                sgx_get_quote report spid p_sig_rl sig_rl_size quote quote_size w in
              CHECK f 166 "ret" ret (RETURN SGX_SUCCESS) ((quote, pubkey), w))
            ((quote, pubkey), w)
      end) ((quote, pubkey), w)) ((quote, pubkey), w).

Definition sgxcc_get_pk (eid : Z) : lib bytes := λ '(pubkey, w),
  let '(ret, enclave_ret, pubkey, w) := ecall_get_pk eid SGX_ERROR_UNEXPECTED pubkey w in
  CHECK2 "sgxcc_get_pk" 174 ret enclave_ret (RETURN SGX_SUCCESS) (pubkey, w).

(** The number a group id is logged as: four bytes, least significant first. *)
Definition egid_number (egid : bytes) : Z :=
  uchar (at_c egid 0) + 256 * uchar (at_c egid 1) + 256 ^ 2 * uchar (at_c egid 2)
    + 256 ^ 3 * uchar (at_c egid 3).

Definition sgxcc_get_egid : lib bytes := λ '(egid, w),
  let '(ret, target_info, egid, w) := sgx_init_quote (zeroed sizeof_target_info) egid w in
  let w := LOG_DEBUG (bs "EGID: " ++ show_int (egid_number egid)) w in
  CHECK "sgxcc_get_egid" 184 "ret" ret (RETURN SGX_SUCCESS) (egid, w).

(** ** sgxcclib.c *)

Definition sgxcc_bind (eid : Z) (report pubkey : option bytes) : lib unit := λ '(_, w),
  let '(ret, enclave_ret, w) := ecall_bind_tlcc eid SGX_ERROR_UNEXPECTED report pubkey w in
  CHECK2 "sgxcc_bind" 48 ret enclave_ret (RETURN SGX_SUCCESS) ((), w).

(** The buffers are the response, its length and the signature. *)
Definition sgxcc_invoke (eid : Z) (encoded_args : bytes) (pk : option bytes)
    (response_len_in : Z) : lib (bytes * Z * bytes) := λ '(response, len_out, signature, w),
  let '(ret, enclave_ret, response, len_out, signature, w) :=
    ecall_cc_invoke eid SGX_ERROR_UNEXPECTED encoded_args pk response response_len_in
      len_out signature w in
  CHECK2 "sgxcc_invoke" 69 ret enclave_ret (RETURN SGX_SUCCESS)
    ((response, len_out, signature), w).

Definition ocall_get_creator_name (msp_id : bytes) (max_msp_id_len : Z) (dn : bytes)
    (max_dn_len : Z) (w : W) : bytes * bytes * W :=
  get_creator_name msp_id max_msp_id_len dn max_dn_len w.
Definition ocall_get_state (key val : bytes) (max_val_len val_len : Z) (cmac : bytes) (w : W)
    : bytes * Z * bytes * W := get_state key val max_val_len val_len cmac w.
Definition ocall_put_state (key val : bytes) (val_len : Z) (w : W) : W :=
  put_state key val val_len w.
Definition ocall_get_state_by_partial_composite_key (key bids_bytes : bytes)
    (max_len bids_bytes_len : Z) (cmac : bytes) (w : W) : bytes * Z * bytes * W :=
  get_state_by_partial_composite_key key bids_bytes max_len bids_bytes_len cmac w.
Definition ocall_print_string (str : bytes) (w : W) : W := golog str w.

(** ** trusted_ledger.c *)

Definition tlcc_init_with_genesis (eid : Z) (genesis : bytes) (genesis_size : Z) : lib unit :=
  λ '(_, w),
  let '(ret, enclave_ret, w) := ecall_join_channel eid SGX_ERROR_UNEXPECTED genesis genesis_size w in
  CHECK2 "tlcc_init_with_genesis" 25 ret enclave_ret (RETURN SGX_SUCCESS) ((), w).

Definition tlcc_send_block (eid : Z) (block : bytes) (block_size : Z) : lib unit := λ '(_, w),
  let '(ret, enclave_ret, w) := ecall_next_block eid SGX_ERROR_UNEXPECTED block block_size w in
  CHECK2 "tlcc_send_block" 34 ret enclave_ret (RETURN SGX_SUCCESS) ((), w).

(** The buffer is the message authentication code. *)
Definition tlcc_get_state_metadata (eid : Z) (key nonce : bytes) : lib bytes := λ '(cmac, w),
  let '(ret, enclave_ret, cmac, w) :=
    ecall_get_state_metadata eid SGX_ERROR_UNEXPECTED key nonce cmac w in
  CHECK2 "tlcc_get_state_metadata" 43 ret enclave_ret (RETURN SGX_SUCCESS) (cmac, w).

Definition tlcc_get_multi_state_metadata (eid : Z) (comp_key nonce : bytes) : lib bytes :=
  λ '(cmac, w),
  let '(ret, enclave_ret, cmac, w) :=
    ecall_get_multi_state_metadata eid SGX_ERROR_UNEXPECTED comp_key nonce cmac w in
  CHECK2 "tlcc_get_multi_state_metadata" 53 ret enclave_ret (RETURN SGX_SUCCESS) (cmac, w).

Definition tlcc_print_state (eid : Z) : lib unit := λ '(_, w),
  let '(ret, enclave_ret, w) := ecall_print_state eid SGX_ERROR_UNEXPECTED w in
  CHECK2 "tlcc_print_state" 63 ret enclave_ret (RETURN SGX_SUCCESS) ((), w).

(** ** common/logging.c: [printf] inside an enclave *)

Definition enclave_printf (text : bytes) (w : W) : Z * W :=
  let buf := snprintf_buf BUFSIZ text in
  (Z.of_nat (length (cstr buf)), ocall_print_string (cstr buf) w).
End sgxcclib.
