(* ===== verification/SgxCCLibProof.v ===== *)
(** * The untrusted side of the enclaves: what a status means

    Success is reported exactly when every step succeeded, and what the caller's
    buffers hold then is what the enclave and the quoting service produced. *)
From stdpp Require Import base list numbers option strings.
From Stdlib Require Import ZArith Lia ssreflect.
From S2P Require Import Prelude SgxCCLib.
Local Open Scope Z_scope.

Section sgxcclib_proof.
Context {W : Type} `{Platform W}.

(** ** Status checks *)
Lemma CHECK_ok {O} f l v (k : lib O) o w : CHECK f l v SGX_SUCCESS k (o, w) = k (o, w).
Proof. rewrite /CHECK. by case_bool_decide. Qed.
Lemma CHECK_success {O} f l v st (k : lib O) o w s :
  CHECK f l v st k (o, w) = (SGX_SUCCESS, s) ↔ st = SGX_SUCCESS ∧ k (o, w) = (SGX_SUCCESS, s).
Proof. rewrite /CHECK. case_bool_decide; naive_solver. Qed.
Lemma CHECK2_success {O} f l r e (k : lib O) o w s :
  CHECK2 f l r e k (o, w) = (SGX_SUCCESS, s) ↔
  r = SGX_SUCCESS ∧ e = SGX_SUCCESS ∧ k (o, w) = (SGX_SUCCESS, s).
Proof. by rewrite /CHECK2 CHECK_success CHECK_success. Qed.

(** The status of a call is that of the first step that failed, and the buffers are
    passed on whatever happens. *)
Lemma CHECK2_status {O} f l r e (o : O) w :
  ∃ w', CHECK2 f l r e (RETURN SGX_SUCCESS) (o, w) =
    (if bool_decide (r = SGX_SUCCESS) then e else r, (o, w')).
Proof.
  rewrite /CHECK2 /CHECK /RETURN. repeat case_bool_decide; subst; eauto; try done.
Qed.

(** Two results of the same call are the same. *)
Ltac same_call :=
  simplify_eq;
  repeat match goal with
  | H1 : ?c = ?a, H2 : ?c = ?b |- _ => rewrite H1 in H2; simplify_eq
  end.

(** [sgxcc_get_remote_attestation_report] succeeds exactly if the whole attestation
    chain does: the quoting enclave's target info was obtained, the enclave made a
    report for that target, a revocation list was given if its size is not 0, the
    caller's buffer is at least as large as the quote the SDK asks for, and the quote was
    made from this report.  The buffers then hold that quote and the enclave's key. *)
Theorem sgxcc_remote_attestation_exact report0 eid quote_size spid sig_rl sig_rl_size
    quote pubkey w quote' pubkey' w' :
  sgxcc_get_remote_attestation_report report0 eid quote_size spid sig_rl sig_rl_size
    (quote, pubkey, w) = (SGX_SUCCESS, (quote', pubkey', w')) ↔
  ∃ target gid w1 report w2 required w3,
    sgx_init_quote (zeroed sizeof_target_info) (zeroed sizeof_gid) w
      = (SGX_SUCCESS, target, gid, w1) ∧
    ecall_create_report eid SGX_ERROR_UNEXPECTED target report0 pubkey w1
      = (SGX_SUCCESS, SGX_SUCCESS, report, pubkey', w2) ∧
    (0 < sig_rl_size → sig_rl ≠ None) ∧
    sgx_calc_quote_size sig_rl sig_rl_size 0 w2 = (SGX_SUCCESS, required, w3) ∧
    required ≤ quote_size ∧
    sgx_get_quote report spid sig_rl sig_rl_size quote quote_size w3
      = (SGX_SUCCESS, quote', w').
Proof.
  rewrite /sgxcc_get_remote_attestation_report.
  destruct (sgx_init_quote _ _ w) as [[[r1 target] gid] w1] eqn:E1.
  rewrite CHECK_success.
  destruct (ecall_create_report _ _ _ _ _ w1) as [[[[r2 e2] report] pk2] w2] eqn:E2.
  rewrite CHECK2_success /sgxcc_get_quote_size.
  pose proof sgx_unexpected_error as Hu. pose proof sgx_memory_error as Hm.
  destruct ((sig_rl_size >? 0) && bool_decide (sig_rl = None)) eqn:Erl.
  { apply andb_prop in Erl as [Hs%Z.gtb_lt Hn%bool_decide_eq_true]. rewrite CHECK_success.
    split; [naive_solver|]. intros (? & ? & ? & ? & ? & ? & ? & ? & ? & Hrl & _).
    by destruct (Hrl Hs). }
  destruct (sgx_calc_quote_size _ _ _ w2) as [[r3 required] w3] eqn:E3.
  destruct (CHECK "sgxcc_get_quote_size" 105 "ret" r3 (RETURN SGX_SUCCESS) (required, w3))
    as [r4 [req4 w4]] eqn:E4.
  assert (Hrl : 0 < sig_rl_size → sig_rl ≠ None).
  { intros Hs ->. apply andb_false_iff in Erl as [Hg|Hg]; [|by apply bool_decide_eq_false in Hg].
    apply Z.gtb_ltb in Hs || (rewrite Z.gtb_ltb in Hg; apply Z.ltb_ge in Hg; lia). }
  rewrite CHECK_success.
  destruct (sgx_get_quote _ _ _ _ _ _ w4) as [[r5 q5] w5] eqn:E5.
  rewrite /CHECK /RETURN in E4.
  destruct (quote_size <? req4) eqn:Eq; [|rewrite CHECK_success /RETURN].
  - apply Z.ltb_lt in Eq. case_bool_decide; simplify_eq; (split; [naive_solver|]);
      intros (? & ? & ? & ? & ? & ? & ? & ? & ? & ? & ? & ? & ?); same_call; lia || done.
  - apply Z.ltb_ge in Eq. case_bool_decide; simplify_eq; (split; [naive_solver|]);
      intros (? & ? & ? & ? & ? & ? & ? & ? & ? & ? & ? & ? & ?); same_call; done.
Qed.

(** A call of the chaincode enclave succeeds exactly if the transition into the
    enclave and the enclave itself report success.  Otherwise the caller gets the error
    of the transition, or else the enclave's, never success; in every case the response,
    its length and the signature are what the enclave wrote. *)
Theorem sgxcc_invoke_status eid args pk len response n signature w :
  let '(ret, enclave_ret, response', n', signature', w1) :=
    ecall_cc_invoke eid SGX_ERROR_UNEXPECTED args pk response len n signature w in
  ∃ w', sgxcc_invoke eid args pk len (response, n, signature, w) =
    (if bool_decide (ret = SGX_SUCCESS) then enclave_ret else ret,
      (response', n', signature', w')) ∧
    (ret = SGX_SUCCESS → enclave_ret = SGX_SUCCESS → w' = w1).
Proof.
  rewrite /sgxcc_invoke.
  destruct (ecall_cc_invoke _ _ _ _ _ _ _ _ _) as [[[[[ret e] r'] n'] s'] w1].
  destruct (CHECK2_status "sgxcc_invoke" 69 ret e (r', n', s') w1) as [w' E].
  exists w'. split; [done|]. intros -> ->. revert E. rewrite /CHECK2 !CHECK_ok /RETURN. naive_solver.
Qed.

(** A new enclave is handed out only after its own initialisation succeeded:
    [sgxcc_create_enclave] succeeds exactly if the file exists, the SDK loaded it, and
    the enclave's initialisation routine was reached and succeeded. *)
Theorem sgxcc_create_enclave_exact file eid w eid' w' :
  sgxcc_create_enclave file (eid, w) = (SGX_SUCCESS, (eid', w')) ↔
  access_ok file w = true ∧
  ∃ w1, sgx_create_enclave file eid w = (SGX_SUCCESS, eid', w1) ∧
    ecall_init eid' SGX_ERROR_UNEXPECTED w1 = (SGX_SUCCESS, SGX_SUCCESS, w').
Proof.
  rewrite /sgxcc_create_enclave. pose proof sgx_unexpected_error as Hu.
  destruct (access_ok file w); cbn [negb]; [|naive_solver].
  destruct (sgx_create_enclave file eid w) as [[r1 eid1] w1].
  rewrite CHECK_success. destruct (ecall_init eid1 _ w1) as [[r2 e2] w2] eqn:E2.
  rewrite CHECK2_success /RETURN. split; [naive_solver|].
  intros (_ & w3 & E & E3). simplify_eq. rewrite E2 in E3. by simplify_eq.
Qed.

(** [sgxcc_get_quote_size] guards against a NULL [p_quote_size] too late: it has
    already written through it, so that its check never runs with a NULL pointer.  With
    a pointer it returns a status and writes a size, 0 if the revocation list is
    missing. *)
Theorem sgxcc_get_quote_size_null sig_rl sig_rl_size w :
  sgxcc_get_quote_size sig_rl sig_rl_size None w = None ∧
  ∀ old, ∃ st size w', sgxcc_get_quote_size sig_rl sig_rl_size (Some old) w = Some (st, (size, w')) ∧
    (0 < sig_rl_size → sig_rl = None → st ≠ SGX_SUCCESS ∧ size = 0).
Proof.
  split; [done|]. intros old. rewrite /sgxcc_get_quote_size. pose proof sgx_unexpected_error.
  destruct ((sig_rl_size >? 0) && bool_decide (sig_rl = None)) eqn:E; [by eauto 10|].
  destruct (sgx_calc_quote_size _ _ _ w) as [[r q] w1]. rewrite /CHECK /RETURN.
  assert (0 < sig_rl_size → sig_rl = None → False).
  { intros Hs Hn. apply andb_false_iff in E as [E|E]; [|by apply bool_decide_eq_false in E].
    rewrite Z.gtb_ltb in E. apply Z.ltb_ge in E. lia. }
  destruct (bool_decide (r ≠ SGX_SUCCESS)); eexists _, _, _; (split; [reflexivity|]);
    intros; exfalso; auto.
Qed.

(** A logged message is cut at [BUF_SIZE - 1] characters but never loses the
    escape sequence that resets the terminal, and both buffers are large enough. *)
Theorem log_message_complete color level text :
  (color, level) = (RED, bs "ERROR: ") ∨ (color, level) = (CYN, bs "DEBUG: ") →
  colored color level text = color ++ level ++ take (BUF_SIZE - 1) text ++ NRM ++ [x0a] ∧
  (length (colored color level text) < LARGE_BUF_SIZE)%nat.
Proof.
  intros Hc.
  assert (Hl : (length color + length level = 12)%nat) by (destruct Hc; simplify_eq; done).
  assert (Hn : length NRM = 4%nat) by done.
  assert (E : colored color level text = color ++ level ++ take (BUF_SIZE - 1) text ++ NRM ++ [x0a]).
  { rewrite /colored /snprintf_buf take_ge //.
    rewrite !length_app length_take Hn /LARGE_BUF_SIZE /BUF_SIZE; cbn [length]; lia. }
  split; [done|]. rewrite E !length_app length_take Hn /LARGE_BUF_SIZE /BUF_SIZE; cbn [length]; lia.
Qed.
End sgxcclib_proof.

(** ** A platform on which everything succeeds

    Its state is the log; the quote starts with the report it was made from. *)
Definition sample_platform : Platform (list bytes) := {|
  SGX_SUCCESS := 0; SGX_ERROR_UNEXPECTED := 1; SGX_ERROR_OUT_OF_MEMORY := 3;
  sgx_unexpected_error := ltac:(discriminate); sgx_memory_error := ltac:(discriminate);
  sizeof_target_info := 512; sizeof_gid := 4; BUFSIZ := 8192;
  access_ok _ _ := true;
  golog msg w := msg :: w;
  sgx_create_enclave _ _ w := (0, 7, w);
  sgx_destroy_enclave _ w := (0, w);
  sgx_calc_quote_size _ _ _ w := (0, 4, w);
  sgx_get_target_info _ ti w := (0, ti, w);
  sgx_init_quote _ gid w := (0, bs "qe", gid, w);
  sgx_get_quote report _ _ _ _ n w := (0, take (Z.to_nat n) (bs "q:" ++ report), w);
  ecall_init _ _ w := (0, 0, w);
  ecall_create_report _ _ ti _ _ w := (0, 0, bs "r" ++ ti, bs "pk", w);
  ecall_get_pk _ _ _ w := (0, 0, bs "pk", w);
  ecall_bind_tlcc _ _ _ _ w := (0, 0, w);
  ecall_cc_invoke _ _ _ _ response _ n sig w := (0, 0, response, n, sig, w);
  ecall_join_channel _ _ _ _ w := (0, 0, w);
  ecall_next_block _ _ _ _ w := (0, 0, w);
  ecall_get_state_metadata _ _ _ _ cmac w := (0, 0, cmac, w);
  ecall_get_multi_state_metadata _ _ _ _ cmac w := (0, 0, cmac, w);
  ecall_print_state _ _ w := (0, 0, w);
  get_creator_name msp _ dn _ w := (msp, dn, w);
  get_state _ val _ n cmac w := (val, n, cmac, w);
  get_state_by_partial_composite_key _ val _ n cmac w := (val, n, cmac, w);
  put_state _ _ _ w := w
|}.

Lemma sgxcc_remote_attestation_sample :
  let P := sample_platform in
  sgxcc_get_remote_attestation_report [] 7 5 (bs "spid") None 0 ([], [], [])
    = (SGX_SUCCESS, (bs "q:rqe", bs "pk", [])) ∧
  (sgxcc_get_remote_attestation_report [] 7 3 (bs "spid") None 0 ([], [], [])).1
    = SGX_ERROR_OUT_OF_MEMORY.
Proof. by vm_compute. Qed.

Lemma log_message_complete_witness :
  colored RED (bs "ERROR: ") (bs "x") = RED ++ bs "ERROR: " ++ bs "x" ++ NRM ++ [x0a] ∧
  (length (colored RED (bs "ERROR: ") (bs "x")) < LARGE_BUF_SIZE)%nat.
Proof. apply (log_message_complete RED (bs "ERROR: ") (bs "x")). by left. Defined.
