(* ===== verification/Base64.v ===== *)
(** * Base 64 (common/base64/base64.cpp)

    [base64_encode] and [base64_decode], which carry ciphertexts, hashes and keys
    through JSON, with their round trip and the length of an encoding. *)
From stdpp Require Import base list numbers option strings.
From Stdlib Require Import ZArith Lia.
From S2P Require Import Prelude.
Local Open Scope Z_scope.

Definition base64_chars : bytes :=
  bs "ABCDEFGHIJKLMNOPQRSTUVWXYZabcdefghijklmnopqrstuvwxyz0123456789+/".

(** [isalnum] in the C locale *)
Definition isalnum (c : byte) : bool :=
  let z := uchar c in
  ((uchar "0" <=? z) && (z <=? uchar "9")) || ((uchar "A" <=? z) && (z <=? uchar "Z")) ||
  ((uchar "a" <=? z) && (z <=? uchar "z")).
Definition is_base64 (c : byte) : bool :=
  isalnum c || bool_decide (c = "+"%byte) || bool_decide (c = "/"%byte).

(** [base64_chars[n]] *)
Definition base64_char (n : Z) : byte := at_c base64_chars (Z.to_nat n).

(** [base64_chars.find(c)], as the [unsigned char] it is assigned to: 255 for
    [std::string::npos] *)
Fixpoint find_from (s : bytes) (c : byte) (n : Z) : Z :=
  match s with
  | [] => 255
  | b :: r => if decide (b = c) then n else find_from r c (n + 1)
  end.
Definition base64_find (c : byte) : Z := find_from base64_chars c 0.

(** [char_array_4] computed from [char_array_3] *)
Definition quad (b0 b1 b2 : byte) : bytes :=
  base64_char <$>
    [ Z.shiftr (Z.land (uchar b0) 0xfc) 2;
      Z.shiftl (Z.land (uchar b0) 0x03) 4 + Z.shiftr (Z.land (uchar b1) 0xf0) 4;
      Z.shiftl (Z.land (uchar b1) 0x0f) 2 + Z.shiftr (Z.land (uchar b2) 0xc0) 6;
      Z.land (uchar b2) 0x3f ].

(** The loop over the input: [a3] is the part of [char_array_3] filled so far; the
    last case is the code after the loop. *)
Fixpoint base64_encode_loop (input : bytes) (a3 : bytes) : bytes :=
  match input with
  | b :: rest =>
      match a3 with
      | [b0; b1] => quad b0 b1 b ++ base64_encode_loop rest []
      | _ => base64_encode_loop rest (a3 ++ [b])
      end
  | [] =>
      match a3 with
      | [] => []
      | [b0] => take 2 (quad b0 x00 x00) ++ bs "=="
      | b0 :: b1 :: _ => take 3 (quad b0 b1 x00) ++ bs "="
      end
  end.
Definition base64_encode (bytes_to_encode : bytes) : bytes := base64_encode_loop bytes_to_encode [].

(** [char_array_3] computed from [char_array_4] *)
Definition triple64 (c0 c1 c2 c3 : byte) : bytes :=
  let n0 := base64_find c0 in let n1 := base64_find c1 in
  let n2 := base64_find c2 in let n3 := base64_find c3 in
  to_byte <$>
    [ Z.shiftl n0 2 + Z.shiftr (Z.land n1 0x30) 4;
      Z.shiftl (Z.land n1 0xf) 4 + Z.shiftr (Z.land n2 0x3c) 2;
      Z.shiftl (Z.land n2 0x3) 6 + n3 ].

(** The loop over the input: [a4] is the part of [char_array_4] filled so far.  What
    the code after the loop emits does not depend on the unfilled part. *)
Fixpoint base64_decode_loop (input : bytes) (a4 : bytes) : bytes :=
  let finish :=
    match a4 with
    | [c0; c1] => take 1 (triple64 c0 c1 "A"%byte "A"%byte)
    | [c0; c1; c2] => take 2 (triple64 c0 c1 c2 "A"%byte)
    | _ => []
    end in
  match input with
  | c :: rest =>
      if negb (bool_decide (c = "="%byte)) && is_base64 c then
        match a4 with
        | [c0; c1; c2] => triple64 c0 c1 c2 c ++ base64_decode_loop rest []
        | _ => base64_decode_loop rest (a4 ++ [c])
        end
      else finish
  | [] => finish
  end.
Definition base64_decode (encoded_string : bytes) : bytes := base64_decode_loop encoded_string [].

(** ** Round trip *)
From Stdlib Require Import ssreflect.

(** Facts about the 64 indices, by evaluation. *)
Definition index_ok (n : Z) : bool :=
  (base64_find (base64_char n) =? n) && is_base64 (base64_char n) &&
  negb (bool_decide (base64_char n = "="%byte)) &&
  (Z.shiftr (Z.land n 0x30) 4 =? n / 16) && (Z.shiftl (Z.land n 0xf) 4 =? n mod 16 * 16) &&
  (Z.shiftr (Z.land n 0x3c) 2 =? n / 4) && (Z.shiftl (Z.land n 0x3) 6 =? n mod 4 * 64).

Lemma index_facts n : 0 ≤ n < 64 → index_ok n = true.
Proof.
  intros Hn.
  assert (Hall : forallb (λ k, index_ok (Z.of_nat k)) (seq 0 64) = true) by by vm_compute.
  rewrite forallb_forall in Hall. specialize (Hall (Z.to_nat n)). replace (Z.of_nat (Z.to_nat n)) with n in Hall by lia.
  apply Hall, in_seq. lia.
Qed.

Lemma base64_char_ok n : 0 ≤ n < 64 →
  base64_find (base64_char n) = n ∧
  negb (bool_decide (base64_char n = "="%byte)) && is_base64 (base64_char n) = true.
Proof.
  intros Hn. pose proof (index_facts n Hn) as Hi. unfold index_ok in Hi.
  rewrite !andb_true_iff in Hi. rewrite andb_true_iff. split; [|tauto]. apply Z.eqb_eq. tauto.
Qed.
Lemma index_bits n : 0 ≤ n < 64 →
  Z.shiftr (Z.land n 0x30) 4 = n / 16 ∧ Z.shiftl (Z.land n 0xf) 4 = n mod 16 * 16 ∧
  Z.shiftr (Z.land n 0x3c) 2 = n / 4 ∧ Z.shiftl (Z.land n 0x3) 6 = n mod 4 * 64.
Proof.
  intros Hn. pose proof (index_facts n Hn) as Hi. unfold index_ok in Hi.
  rewrite !andb_true_iff !Z.eqb_eq in Hi. tauto.
Qed.
Lemma byte_bits : ∀ b,
  Z.shiftr (Z.land (uchar b) 0xfc) 2 = uchar b / 4 ∧
  Z.shiftl (Z.land (uchar b) 0x03) 4 = uchar b mod 4 * 16 ∧
  Z.shiftr (Z.land (uchar b) 0xf0) 4 = uchar b / 16 ∧
  Z.shiftl (Z.land (uchar b) 0x0f) 2 = uchar b mod 16 * 4 ∧
  Z.shiftr (Z.land (uchar b) 0xc0) 6 = uchar b / 64 ∧
  Z.land (uchar b) 0x3f = uchar b mod 64.
Proof. by_bytes. Qed.

(** The four indices of a group, as numbers below 64. *)
Lemma quad_indices b0 b1 b2 : ∃ n0 n1 n2 n3,
  quad b0 b1 b2 = base64_char <$> [n0; n1; n2; n3] ∧
  (0 ≤ n0 < 64 ∧ 0 ≤ n1 < 64 ∧ 0 ≤ n2 < 64 ∧ 0 ≤ n3 < 64) ∧
  n0 = uchar b0 / 4 ∧ n1 = uchar b0 mod 4 * 16 + uchar b1 / 16 ∧
  n2 = uchar b1 mod 16 * 4 + uchar b2 / 64 ∧ n3 = uchar b2 mod 64.
Proof.
  unfold quad. eexists _, _, _, _. split; [reflexivity|].
  destruct (byte_bits b0) as (-> & -> & _), (byte_bits b1) as (_ & _ & -> & -> & _).
  destruct (byte_bits b2) as (_ & _ & _ & _ & -> & ->).
  pose proof (uchar_range b0). pose proof (uchar_range b1). pose proof (uchar_range b2).
  split; [|done]. Z.to_euclidean_division_equations. lia.
Qed.

Lemma to_byte_eq64 z b : z = uchar b → to_byte z = b.
Proof. intros ->. apply to_byte_uchar. Qed.

Lemma triple64_quad b0 b1 b2 c0 c1 c2 c3 :
  quad b0 b1 b2 = [c0; c1; c2; c3] → triple64 c0 c1 c2 c3 = [b0; b1; b2].
Proof.
  destruct (quad_indices b0 b1 b2) as (n0 & n1 & n2 & n3 & -> & (H0 & H1 & H2 & H3) & E0 & E1 & E2 & E3).
  intros [= <- <- <- <-]. unfold triple64. cbv zeta.
  destruct (base64_char_ok n0 H0) as [-> _], (base64_char_ok n1 H1) as [-> _].
  destruct (base64_char_ok n2 H2) as [-> _], (base64_char_ok n3 H3) as [-> _].
  destruct (index_bits n1 H1) as (-> & -> & _), (index_bits n2 H2) as (_ & _ & -> & ->).
  rewrite Z.shiftl_mul_pow2; [lia|].
  pose proof (uchar_range b0). pose proof (uchar_range b1). pose proof (uchar_range b2).
  cbn [fmap list_fmap]. f_equal; [|f_equal; [|f_equal]]; apply to_byte_eq64;
    subst; Z.to_euclidean_division_equations; lia.
Qed.

Lemma decode_char n rest a4 : 0 ≤ n < 64 → (length a4 < 3)%nat →
  base64_decode_loop (base64_char n :: rest) a4 = base64_decode_loop rest (a4 ++ [base64_char n]).
Proof.
  intros Hn Ha. simpl. destruct (base64_char_ok n Hn) as [_ ->].
  destruct a4 as [|? [|? [|? [|]]]]; simpl in *; try done; lia.
Qed.
Ltac decode_step := rewrite decode_char; [lia|simpl; lia|]; cbn [app].
Lemma decode_quad b0 b1 b2 rest :
  base64_decode_loop (quad b0 b1 b2 ++ rest) [] = [b0; b1; b2] ++ base64_decode_loop rest [].
Proof.
  destruct (quad_indices b0 b1 b2) as (n0 & n1 & n2 & n3 & Hq & (H0 & H1 & H2 & H3) & _).
  assert (Ht := triple64_quad b0 b1 b2 _ _ _ _ Hq). rewrite Hq. cbn [fmap list_fmap app].
  do 3 decode_step. cbn [app base64_decode_loop].
  destruct (base64_char_ok n3 H3) as [_ ->]. by rewrite Ht.
Qed.

(** The two ways an encoding ends. *)
Lemma decode_tail1 b0 : base64_decode_loop (take 2 (quad b0 x00 x00) ++ bs "==") [] = [b0].
Proof.
  destruct (quad_indices b0 x00 x00) as (n0 & n1 & n2 & n3 & Hq & (H0 & H1 & H2 & H3) & E).
  assert (Ht := triple64_quad b0 x00 x00 _ _ _ _ Hq). rewrite Hq. cbn [fmap list_fmap take app].
  do 2 decode_step.
  assert (E2 : base64_char n2 = "A"%byte) by (destruct E as (_ & _ & -> & _); reflexivity).
  assert (E3 : base64_char n3 = "A"%byte) by (destruct E as (_ & _ & _ & ->); reflexivity).
  rewrite E2 E3 in Ht.
  change (take 1 (triple64 (base64_char n0) (base64_char n1) "A" "A") = [b0]). by rewrite Ht.
Qed.
Lemma decode_tail2 b0 b1 : base64_decode_loop (take 3 (quad b0 b1 x00) ++ bs "=") [] = [b0; b1].
Proof.
  destruct (quad_indices b0 b1 x00) as (n0 & n1 & n2 & n3 & Hq & (H0 & H1 & H2 & H3) & E).
  assert (Ht := triple64_quad b0 b1 x00 _ _ _ _ Hq). rewrite Hq. cbn [fmap list_fmap take app].
  do 3 decode_step.
  assert (E3 : base64_char n3 = "A"%byte) by (destruct E as (_ & _ & _ & ->); reflexivity).
  rewrite E3 in Ht.
  change (take 2 (triple64 (base64_char n0) (base64_char n1) (base64_char n2) "A") = [b0; b1]).
  by rewrite Ht.
Qed.

(** Induction over byte strings in groups of three. *)
Lemma bytes_ind3 (P : bytes → Prop) :
  P [] → (∀ a, P [a]) → (∀ a b, P [a; b]) → (∀ a b c r, P r → P (a :: b :: c :: r)) → ∀ s, P s.
Proof.
  intros H0 H1 H2 H3. fix IH 1. intros [|a [|b [|c r]]]; [exact H0|apply H1|apply H2|].
  apply H3, IH.
Qed.

Lemma base64_decode_encode (s : bytes) : base64_decode (base64_encode s) = s.
Proof.
  unfold base64_decode, base64_encode. induction s as [|a|a b|a b c r IH] using bytes_ind3.
  - done.
  - apply decode_tail1.
  - apply decode_tail2.
  - cbn [base64_encode_loop app]. by rewrite decode_quad IH.
Qed.

(** An encoding has four characters for every group of three bytes begun. *)
Lemma base64_encode_length (s : bytes) :
  length (base64_encode s) = ((length s + 2) / 3 * 4)%nat.
Proof.
  unfold base64_encode. induction s as [|a|a b|a b c r IH] using bytes_ind3; [done..|].
  cbn [base64_encode_loop app]. rewrite length_app IH.
  replace (length (a :: b :: c :: r) + 2)%nat with ((length r + 2) + 1 * 3)%nat by (simpl; lia).
  rewrite Nat.div_add //=. lia.
Qed.

(** An encoding is a C string. *)
Lemma quad_nonul b0 b1 b2 : nonul (quad b0 b1 b2).
Proof.
  destruct (quad_indices b0 b1 b2) as (n0 & n1 & n2 & n3 & -> & (H0 & H1 & H2 & H3) & _).
  assert (Hc : ∀ n, 0 ≤ n < 64 → base64_char n ≠ x00).
  { intros n Hn E. destruct (base64_char_ok n Hn) as [_ Hok]. by rewrite E in Hok. }
  cbn [fmap list_fmap]. rewrite !nonul_cons. auto 10 using nonul_nil.
Qed.
Lemma base64_encode_nonul (s : bytes) : nonul (base64_encode s).
Proof.
  unfold base64_encode. induction s as [|a|a b|a b c r IH] using bytes_ind3.
  - apply nonul_nil.
  - cbn [base64_encode_loop]. apply nonul_app. split; [|by apply nonul_lit].
    pose proof (quad_nonul a x00 x00) as Hq. rewrite -(take_drop 2 (quad a x00 x00)) in Hq. by apply nonul_app in Hq as [? _].
  - cbn [base64_encode_loop]. apply nonul_app. split; [|by apply nonul_lit].
    pose proof (quad_nonul a b x00) as Hq. rewrite -(take_drop 3 (quad a b x00)) in Hq. by apply nonul_app in Hq as [? _].
  - cbn [base64_encode_loop app]. apply nonul_app. split; [apply quad_nonul|done].
Qed.

(** Decoding an encoding gives back the bytes, for every input, and the encoding has
    four characters for every group of three bytes begun. *)
Theorem base64_roundtrip (s : bytes) :
  base64_decode (base64_encode s) = s ∧ length (base64_encode s) = ((length s + 2) / 3 * 4)%nat.
Proof. split; [apply base64_decode_encode|apply base64_encode_length]. Qed.
