(* ===== verification/Ias.v ===== *)
(** * Attestation reports (tlcc_enclave/enclave/ias.cpp, ias.h)

    The Intel Attestation Service signs a report about the quote of an enclave.  The ledger
    enclave gets it as a JSON object with the report, its signature and the public key of
    the enclave, and is to check the signature, that the quote is for that key and for the
    expected code.  The functions run on the heap of parson, since what they do to the
    parsed tree matters.

    [AttestationLib] is what the code uses of OpenSSL and of the layout of a quote. *)
From stdpp Require Import base list gmap numbers option strings.
From Stdlib Require Import ZArith Lia.
From S2P Require Import Prelude CMem ParsonText CNum Parson ParsonParse ParsonOps Base64.
Local Open Scope Z_scope.

Definition IAS_SUCCESS : Z := 0.
Definition IAS_ERROR : Z := -1.

Class AttestationLib := {
  EVP_PKEY : Type;
  RSA_KEY : Type;
  BIO_puts : bytes → Z;
  PEM_read_bio_PUBKEY : bytes → option EVP_PKEY;
  EVP_PKEY_get1_RSA : EVP_PKEY → option RSA_KEY;
  IAS_SHA256 : bytes → bytes;
  (** hash, signature and key *)
  RSA_verify : bytes → bytes → option RSA_KEY → Z;
  (** the affine coordinates of the point, as [BN_bn2bin] writes them *)
  EC_PUBKEY_coordinates : bytes → option (bytes * bytes);
  (** where the fields [report_body.mr_enclave.m] and [report_body.report_data.d] of an
      [sgx_quote_t] are *)
  mr_enclave_offset : nat;
  report_data_offset : nat }.

Definition INTEL_PUB_PEM : bytes :=
  bs "-----BEGIN PUBLIC KEY-----" ++ [x0a] ++
  bs "MIIBIjANBgkqhkiG9w0BAQEFAAOCAQ8AMIIBCgKCAQEAqXot4OZuphR8nudFrAFi" ++ [x0a] ++
  bs "aGxxkgma/Es/BA+tbeCTUR106AL1ENcWA4FX3K+E9BBL0/7X5rj5nIgX/R/1ubhk" ++ [x0a] ++
  bs "KWw9gfqPG3KeAtIdcv/uTO1yXv50vqaPvE1CRChvzdS/ZEBqQ5oVvLTPZ3VEicQj" ++ [x0a] ++
  bs "lytKgN9cLnxbwtuvLUK7eyRPfJW/ksddOzP8VBBniolYnRCD2jrMRZ8nBM2ZWYwn" ++ [x0a] ++
  bs "XnwYeOAHV+W9tOhAImwRwKF/95yAsVwd21ryHMJBcGH70qLagZ7Ttyt++qO/6+KA" ++ [x0a] ++
  bs "XJuKwZqjRlEtSEz8gZQeFfVYgcwSfo96oSMAzVr7V0L6HSDLRnpb6xxmbPdqNol4" ++ [x0a] ++
  bs "tQIDAQAB" ++ [x0a] ++
  bs "-----END PUBLIC KEY-----".

(** [memcmp] of equally many bytes: the sign of the first difference *)
Fixpoint memcmp (a b : bytes) : Z :=
  match a, b with
  | x :: a, y :: b => if decide (x = y) then memcmp a b else if uchar x <? uchar y then -1 else 1
  | _, _ => 0
  end.

Section ias.
Context `{Malloc} `{AttestationLib}.

(** [std::string s(p)] *)
Definition std_string (p : ptr) : MP bytes := load_cstr p.

(** [json_object_get_string(json_object(root), name)] *)
Definition root_string (root : ptr) (name : string) : MP ptr :=
  object ← json_value_get_object root; json_object_get_string object (Some (bs name)).

(** The field of a quote in memory: undefined where the block is too short *)
Definition quote_field (quote : ptr) (offset n : nat) : MP bytes :=
  b ← load quote;
  match b with
  | BChars _ raw => if (offset + n <=? length raw)%nat then mret (take n (drop offset raw)) else undef
  | _ => undef
  end.

Definition quote_from_attestation_report_body (report_body : bytes) : MP ptr :=
  root ← json_parse_string (Some report_body);
  base64_quote ← root_string root "isvEnclaveQuoteBody";
  text ← std_string base64_quote;
  let _quote := base64_decode text in
  json_value_free root;;
  quote ← malloc (Z.of_nat (length _quote)) (BChars (Z.of_nat (length _quote)) _quote);
  match quote with
  | None => undef
  | Some _ => mret quote
  end.

Definition verify_mrenclave_in_quote (quote : ptr) (mrenclave : option bytes) : MP Z :=
  match quote, mrenclave with
  | Some _, Some m => mr_enclave ← quote_field quote mr_enclave_offset 32; mret (memcmp mr_enclave (take 32 m))
  | _, _ => mret (-1)
  end.

(** The bytes [bin] of a number are written to where [to] points: undefined for NULL unless
    there are none. *)
Definition write_number (bin : bytes) (to : ptr) : MP unit :=
  match to, bin with None, _ :: _ => undef | _, _ => mret () end.
Definition verify_enclave_pk_in_quote (quote : ptr) (enclave_pk_der : option bytes) : MP Z :=
  match quote, enclave_pk_der with
  | Some _, Some der =>
      match EC_PUBKEY_coordinates der with
      | None => mret (-1)
      | Some (x, y) =>
          x_bin ← malloc (Z.of_nat (length x)) (BChars (Z.of_nat (length x)) x);
          y_bin ← malloc (Z.of_nat (length y)) (BChars (Z.of_nat (length y)) y);
          write_number x x_bin;;
          write_number y y_bin;;
          let pk_hash := IAS_SHA256 (x ++ y) in
          cfree x_bin;;
          cfree y_bin;;
          report_data ← quote_field quote report_data_offset 32; mret (memcmp report_data (take 32 pk_hash))
      end
  | _, _ => mret (-1)
  end.

(** The pointers that are read from the tree: the key, the signature, the certificate
    (which is not used) and the report *)
Definition report_strings (root : ptr) : MP (ptr * ptr * ptr * ptr) :=
  base64_enclave_pk ← root_string root "EnclavePk";
  base64_signature ← root_string root "IASReport-Signature";
  base64_signing_cert ← root_string root "IASReport-Signing-Certificate";
  base64_report_body ← root_string root "IASResponseBody";
  mret (base64_enclave_pk, base64_signature, base64_signing_cert, base64_report_body).

(** What is done with the strings after the tree was freed *)
Definition check_report (intel_pubkey_rsa : option RSA_KEY) (base64_enclave_pk base64_signature base64_report_body : ptr)
    (mrenclave : option bytes) : MP Z :=
  signature_text ← std_string base64_signature;
  let signature := base64_decode signature_text in
  report_text ← std_string base64_report_body;
  let report_body := base64_decode report_text in
  let ret := RSA_verify (IAS_SHA256 report_body) signature intel_pubkey_rsa in
  if (ret =? 0) || (ret =? -1) then mret IAS_ERROR
  else
    quote ← quote_from_attestation_report_body (cstr report_body);
    pk_text ← std_string base64_enclave_pk;
    let enclave_pk := base64_decode pk_text in
    pk ← verify_enclave_pk_in_quote quote (Some enclave_pk);
    if negb (pk =? 0) then mret IAS_ERROR
    else
      mr ← verify_mrenclave_in_quote quote mrenclave;
      if negb (mr =? 0) then mret IAS_ERROR else mret IAS_SUCCESS.

Definition verify_attestation_report (json_bytes : bytes) (mrenclave : option bytes) : MP Z :=
  if BIO_puts INTEL_PUB_PEM <? 1 then mret IAS_ERROR
  else
    match PEM_read_bio_PUBKEY INTEL_PUB_PEM with
    | None => mret IAS_ERROR
    | Some intel_pkey =>
        let intel_pubkey_rsa := EVP_PKEY_get1_RSA intel_pkey in
        root ← json_parse_string (Some (cstr json_bytes));
        match root with
        | None => mret IAS_ERROR
        | Some _ =>
            '(base64_enclave_pk, base64_signature, _, base64_report_body) ← report_strings root;
            json_value_free root;;
            check_report intel_pubkey_rsa base64_enclave_pk base64_signature base64_report_body mrenclave
        end
    end.
End ias.
