(* ===== verification/IasProof.v ===== *)
(** * Attestation reports: theorems

    The quote is taken out of a report and compared as the code means to.  But the strings
    of the JSON object are used after the object was freed: the verification of a report
    that parses is undefined, so no report is ever accepted. *)
From stdpp Require Import base list gmap numbers option strings.
From Stdlib Require Import ZArith Lia.
From iris.proofmode Require Import proofmode.
From S2P Require Import Prelude CMem SepLogic ParsonText CNum Parson ParsonParse ParsonOps JsonSpec Base64.
From S2P Require Import ParsonRep ParsonMemProof ParsonOpsProof ParsonTreeProof ParsonTheorems Ias.
Local Open Scope Z_scope.

Section ias.
Context `{Malloc} `{AttestationLib}.

(** ** What is read from a tree *)

Lemma reads_get_type p : reads (json_value_get_type p).
Proof. rewrite /json_value_get_type /load_value. reads_steps. Qed.
#[local] Hint Resolve reads_get_type : reads.
Lemma reads_get_object p : reads (json_value_get_object p).
Proof. rewrite /json_value_get_object /load_value. reads_steps. Qed.
Lemma reads_get_string p : reads (json_value_get_string p).
Proof. rewrite /json_value_get_string /load_value. reads_steps. Qed.
Lemma reads_object_get_string p name : reads (json_object_get_string p name).
Proof.
  rewrite /json_object_get_string /json_object_get_value /json_object_getn_value /json_object_get_count /load_object
    /get_slot /load_ptrs /load_cstr /for_range. pose proof reads_get_string. reads_steps.
Qed.

(** A pointer to a block of the tree, or NULL *)
Definition owned_ptr (p : ptr) : hP := if p is Some l then owned l else True%I.

(** The string member of an object, if the tree is an object and has one *)
Definition string_member_of (t : json) (name : bytes) : option bytes :=
  if t is JObject kvs then if olookup name kvs is Some (JString s) then Some s else None else None.

(** Reading a member gives a pointer into the tree, or NULL if there is none. *)
Lemma wp_root_string l t name Φ :
  vrep None l t -∗
  (∀ p, (match string_member_of t (bs name) with
         | Some s => ∃ ls, ⌜⌜p = Some ls⌝⌝ ∗ chars ls s ∗ (chars ls s -∗ vrep None l t)
         | None => ⌜⌜p = None⌝⌝ ∗ vrep None l t
         end) -∗ Φ p) -∗
  wp (root_string (Some l) name) Φ.
Proof.
  iIntros "Hv HΦ". iApply wp_bind.
  destruct (decide (type_of t = JSONObject)) as [Ht|Ht]; last first.
  { iApply (wp_get_object_other with "Hv"); [done|]. iIntros "Hv".
    iApply wp_bind. iApply wp_ret. iApply wp_bind. iApply wp_ret. iApply wp_ret. iApply "HΦ".
    destruct t; try done; simpl; by iFrame. }
  destruct t as [| | | | |kvs]; try done.
  iApply (wp_value_object with "Hv"). iIntros (lo) "Ho Hclose". rewrite /json_object_get_string.
  iApply wp_bind. iApply (wp_object_get_value with "Ho"). iIntros (r) "Hr". simpl.
  destruct (olookup (bs name) kvs) as [t|] eqn:Ek; last first.
  { iDestruct "Hr" as "(-> & Ho)". iApply wp_bind. iApply wp_ret. iApply wp_ret. iApply "HΦ".
    iSplit; [done|]. by iApply "Hclose". }
  iDestruct "Hr" as (lt) "(-> & Ht & Ho)".
  destruct (decide (type_of t = JSONString)) as [Hs|Hs]; last first.
  { iApply wp_bind. iApply (wp_get_type with "Ht"). iIntros "Ht". rewrite decide_False //. iApply wp_ret.
    iApply "HΦ". iDestruct ("Ho" with "Ht") as "Ho". rewrite oset_id //. destruct t; try done; simpl;
      (iSplit; [done|]; by iApply "Hclose"). }
  destruct t as [| | |s| |]; try done.
  iApply (wp_get_string with "Ht"). iIntros (ls) "Hs Ht". iApply "HΦ". iExists ls. iSplit; [done|]. iFrame "Hs".
  iIntros "Hs". iApply "Hclose". iDestruct ("Ho" with "[Hs Ht]") as "Ho"; [by iApply "Ht"|]. by rewrite oset_id.
Qed.

Lemma reads_root_string p name :
  reads (root_string p name).
Proof. apply reads_bind; [apply reads_get_object|]. intros q. apply reads_object_get_string. Qed.
Lemma chars_owned ls s (P : hP) : chars ls s ∗ P ⊢ owned ls.
Proof. iIntros "[(%sz & %raw & Hl & _) _]". by iApply points_to_owned. Qed.
Lemma root_string_owned l t name :
  vrep None l t ⊢ wp (root_string (Some l) name)
    (λ p, vrep None l t ∧ owned_ptr p).
Proof.
  iIntros "Hv". iApply (wp_root_string with "Hv"). iIntros (p) "Hp".
  destruct (string_member_of t (bs name)) as [s|].
  - iDestruct "Hp" as (ls) "(-> & Hs & Hc)". simpl. iSplit.
    + by iApply "Hc".
    + iApply (chars_owned ls s (chars ls s -∗ vrep None l t)). iFrame.
  - iDestruct "Hp" as "[-> Hv]". simpl. by iSplit.
Qed.

(** The pointers that are read, one after the other, stay pointers into the tree. *)
Lemma root_string_keeps l t name (Q : hP) :
  vrep None l t ∧ Q ⊢ wp (root_string (Some l) name)
    (λ p, vrep None l t ∧ (owned_ptr p ∧ Q)).
Proof.
  etrans; [exact (wp_reads _ _ Q _ (reads_root_string (Some l) name) (root_string_owned l t name))|].
  apply wp_mono. intros p. by rewrite assoc.
Qed.
Lemma report_strings_owned l t :
  vrep None l t ⊢ wp (report_strings (Some l))
    (λ ps, vrep None l t ∧ (owned_ptr ps.1.1.1 ∧ owned_ptr ps.1.1.2 ∧ owned_ptr ps.2)).
Proof.
  rewrite /report_strings. etrans; [apply (root_string_owned l t "EnclavePk")|].
  etrans; [|apply wp_bind]. apply wp_mono. intros p1.
  etrans; [apply (root_string_keeps l t "IASReport-Signature")|].
  etrans; [|apply wp_bind]. apply wp_mono. intros p2.
  etrans; [apply (root_string_keeps l t "IASReport-Signing-Certificate")|].
  etrans; [|apply wp_bind]. apply wp_mono. intros p3.
  etrans; [apply (root_string_keeps l t "IASResponseBody")|].
  etrans; [|apply wp_bind]. apply wp_mono. intros p4. iIntros "Hv". iApply wp_ret. simpl.
  iSplit; [by iDestruct "Hv" as "[$ _]"|]. iDestruct "Hv" as "[_ Hv]".
  iSplit; [by iDestruct "Hv" as "[_ [_ [_ $]]]"|].
  iSplit; [by iDestruct "Hv" as "[_ [_ [$ _]]]"|by iDestruct "Hv" as "[$ _]"].
Qed.

(** ** Use after free *)

(** A block that was owned and is no longer in memory cannot be read. *)
Lemma std_string_dangling p h hf n : (owned_ptr p) h → h ##ₘ hf → std_string p (Mem hf n) = None.
Proof.
  intros Ho Hd. destruct p as [l|]; [|done]. rewrite /std_string /load_cstr /mbind /M_bind /load /=.
  assert (is_Some (h !! l)) as [b Hb] by exact Ho. by rewrite (map_disjoint_Some_l _ _ _ _ Hd Hb).
Qed.

Lemma parse_run s : emp ⊢ wp (json_parse_string (Some s)) (λ r,
  if r is Some l then ∃ t, vrep None l t else ⌜parse_json s = None ∨ malloc_failed (parse_bound s)⌝)%I.
Proof.
  iIntros "_". iApply wp_json_parse_string. iIntros ([l|]) "Hr"; [|by iDestruct "Hr" as %?].
  iDestruct "Hr" as (t) "[Hv _]". by iExists t.
Qed.
Lemma free_run l t : vrep None l t ⊢ wp (json_value_free (Some l)) (λ _, emp)%I.
Proof. iIntros "Hv". by iApply (wp_value_free with "Hv"). Qed.

(** C36. No attestation report is ever accepted: [verify_attestation_report] reads the strings
    of the JSON object after it has freed the object.  Whatever the report, if it returns
    at all it returns an error; and when the public key of Intel can be read, memory
    suffices and the report is JSON, it does not return, its behaviour is undefined. *)
Theorem no_report_accepted (json_bytes : bytes) (mrenclave : option bytes) (m : mem block)
    (Hm : fits_below (heap m) (next m)) :
  (∀ r m', verify_attestation_report json_bytes mrenclave m = Some (r, m') → r = IAS_ERROR) ∧
  (1 ≤ BIO_puts INTEL_PUB_PEM → is_Some (PEM_read_bio_PUBKEY INTEL_PUB_PEM) →
   is_Some (parse_json (cstr json_bytes)) → ¬ malloc_failed (parse_bound (cstr json_bytes)) →
   verify_attestation_report json_bytes mrenclave m = None).
Proof.
  rewrite /verify_attestation_report. destruct (Z.ltb_spec (BIO_puts INTEL_PUB_PEM) 1).
  { split; [by intros r m' [= <- _]|lia]. }
  destruct (PEM_read_bio_PUBKEY INTEL_PUB_PEM) as [key|]; last first.
  { split; [by intros r m' [= <- _]|by intros _ []]. }
  rewrite /mbind /M_bind. destruct m as [hf n]. simpl in Hm.
  destruct (wp_run _ emp _ ∅ hf n (parse_run (cstr json_bytes))) as (root & h1 & n1 & E1 & Hd1 & Hn1 & Hroot);
    [done|apply map_disjoint_empty_l|by rewrite left_id_L|].
  rewrite left_id_L in E1. rewrite E1. destruct root as [l|]; last first.
  { split; [by intros r m' [= <- _]|]. intros _ _ [t Ht] Hf. exfalso. destruct Hroot as [Hroot|Hroot]; [congruence|done]. }
  destruct Hroot as (t & Hv).
  destruct (wp_run _ _ _ h1 hf n1 (report_strings_owned l t) Hv Hd1 Hn1)
    as ([[[p1 p2] p3] p4] & h2 & n2 & E2 & Hd2 & Hn2 & Hv2 & _ & Ho & _).
  rewrite E2.
  destruct (wp_run _ _ _ h2 hf n2 (free_run l t) Hv2 Hd2 Hn2) as ([] & h3 & n3 & E3 & _ & _ & Hemp).
  rewrite E3. assert (h3 = ∅) as -> by exact Hemp. rewrite left_id_L.
  rewrite /check_report /mbind /M_bind (std_string_dangling p2 h2 hf n3 Ho Hd2). done.
Qed.

(** ** The quote *)

Lemma memcmp_zero a b : length a = length b → memcmp a b = 0 ↔ a = b.
Proof.
  revert b. induction a as [|x a IH]; intros [|y b] Hl; try done. simpl in Hl |- *.
  case_decide as E; [subst; rewrite IH; [|lia]; naive_solver|].
  destruct (uchar x <? uchar y); split; congruence.
Qed.
Lemma wp_quote_field lq sz raw offset n Φ : (offset + n ≤ length raw)%nat →
  lq ↦ BChars sz raw -∗ (lq ↦ BChars sz raw -∗ Φ (take n (drop offset raw))) -∗ wp (quote_field (Some lq) offset n) Φ.
Proof.
  iIntros (Hle) "Hq HΦ". iApply wp_bind. iApply (wp_load with "Hq"). iIntros "Hq".
  rewrite (proj2 (Nat.leb_le _ _)) //. iApply wp_ret. by iApply "HΦ".
Qed.

(** The coordinates of the key are written into blocks that are freed before the end. *)
Lemma wp_pk_in_quote lq sz raw der x_bin y_bin Φ : EC_PUBKEY_coordinates der = Some (x_bin, y_bin) →
  (∀ k, malloc_ok k (Z.of_nat (length x_bin)) = true) → (∀ k, malloc_ok k (Z.of_nat (length y_bin)) = true) →
  (report_data_offset + 32 ≤ length raw)%nat →
  lq ↦ BChars sz raw -∗
  (lq ↦ BChars sz raw -∗ Φ (memcmp (take 32 (drop report_data_offset raw)) (take 32 (IAS_SHA256 (x_bin ++ y_bin))))) -∗
  wp (verify_enclave_pk_in_quote (Some lq) (Some der)) Φ.
Proof.
  iIntros (Hpk Hx Hy Hle) "Hq HΦ". rewrite /verify_enclave_pk_in_quote Hpk.
  iApply wp_bind. iApply wp_malloc. iIntros ([lx|] Hlx) "Hx"; [|destruct Hlx as [k Hk]; by rewrite Hx in Hk].
  iApply wp_bind. iApply wp_malloc. iIntros ([ly|] Hly) "Hy"; [|destruct Hly as [k Hk]; by rewrite Hy in Hk].
  iApply wp_bind. iApply wp_ret. iApply wp_bind. iApply wp_ret.
  iApply wp_bind. iApply (wp_free with "Hx"). iApply wp_bind. iApply (wp_free with "Hy").
  iApply wp_bind. iApply (wp_quote_field with "Hq"); [done|]. iIntros "Hq". iApply wp_ret. by iApply "HΦ".
Qed.

(** C25. The checks of a quote mean what they are called: taken out of the report and decoded
    into a block of its own (which the caller never frees), it passes the first exactly if
    its report data is the hash of the coordinates of the key, and the second exactly if
    its measurement is the expected one; the parsed report and the blocks with the
    coordinates are freed.  Memory suffices for what is allocated. *)
Theorem quote_checks_exact (report_body text der x_bin y_bin mr : bytes) kvs
    (Hparse : parse_json report_body = Some (JObject kvs))
    (Htext : olookup (bs "isvEnclaveQuoteBody") kvs = Some (JString text))
    (Hmem : ¬ malloc_failed (parse_bound report_body))
    (Halloc : ∀ k b, b ∈ [base64_decode text; x_bin; y_bin] → malloc_ok k (Z.of_nat (length b)) = true)
    (Hpk : EC_PUBKEY_coordinates der = Some (x_bin, y_bin))
    (Hhash : length (IAS_SHA256 (x_bin ++ y_bin)) = 32%nat) (Hmr : length mr = 32%nat)
    (Hdata : (report_data_offset + 32 ≤ length (base64_decode text))%nat)
    (Hcode : (mr_enclave_offset + 32 ≤ length (base64_decode text))%nat) :
  let q := base64_decode text in
  triple emp
    (quote ← quote_from_attestation_report_body report_body;
     pk ← verify_enclave_pk_in_quote quote (Some der);
     code ← verify_mrenclave_in_quote quote (Some mr); mret (quote, pk, code))
    (λ r, ∃ lq, lq ↦ BChars (Z.of_nat (length q)) q ∗
      ⌜⌜r.1.1 = Some lq ∧ (r.1.2 = 0 ↔ take 32 (drop report_data_offset q) = IAS_SHA256 (x_bin ++ y_bin)) ∧
        (r.2 = 0 ↔ take 32 (drop mr_enclave_offset q) = mr)⌝⌝)%I.
Proof.
  intros q. apply triple_intro. iIntros "_". iApply wp_bind. rewrite /quote_from_attestation_report_body.
  iApply wp_bind. iApply wp_json_parse_string. iIntros ([l|]) "Hr"; last first.
  { iDestruct "Hr" as %[Hnone|Hf]; [congruence|done]. }
  iDestruct "Hr" as (t) "[Hv %Ht]". rewrite Hparse in Ht. injection Ht as <-.
  iApply wp_bind. iApply (wp_root_string with "Hv"). iIntros (p) "Hp". rewrite /= Htext.
  iDestruct "Hp" as (ls) "(-> & Hs & Hv)". iApply wp_bind. iApply (wp_load_cstr with "Hs"). iIntros "Hs".
  iDestruct ("Hv" with "Hs") as "Hv". cbv zeta. fold q. iApply wp_bind. iApply (wp_value_free with "Hv").
  iApply wp_bind. iApply wp_malloc. iIntros ([lq|] Hlq) "Hq"; last first.
  { destruct Hlq as [k Hk]. fold q in Halloc. by rewrite Halloc in Hk; [|left]. }
  iApply wp_ret. iApply wp_bind.
  iApply (wp_pk_in_quote with "Hq"); [done|intros k; apply Halloc; set_solver..|done|]. iIntros "Hq".
  iApply wp_bind. iApply wp_bind. iApply (wp_quote_field with "Hq"); [done|]. iIntros "Hq". iApply wp_ret.
  iApply wp_ret. iExists lq. iFrame. iPureIntro. simpl.
  fold q in Hdata, Hcode. rewrite (take_ge mr) ?(take_ge (IAS_SHA256 _)); [|lia..].
  rewrite !memcmp_zero ?length_take ?length_drop; [done|lia..].
Qed.
End ias.

(** ** Examples *)

Lemma malloc_always_enough bound : bound ≤ PTRDIFF_MAX → ¬ malloc_failed (H := malloc_always) bound.
Proof. intros Hb (k & sz & Hsz & Hok). simpl in Hok. apply Z.leb_gt in Hok. lia. Qed.

Definition sample_attestation : AttestationLib := {|
  EVP_PKEY := unit; RSA_KEY := unit; BIO_puts t := Z.of_nat (length t);
  PEM_read_bio_PUBKEY _ := Some (); EVP_PKEY_get1_RSA := Some;
  IAS_SHA256 t := take 32 (t ++ replicate 32 x00);
  RSA_verify _ _ _ := 1; EC_PUBKEY_coordinates der := Some (der, []);
  mr_enclave_offset := 0; report_data_offset := 32 |}.
#[local] Existing Instances malloc_always sample_attestation.

(** A report with a key and a signature *)
Definition sample_report : bytes :=
  bs "{" ++ [x22] ++ bs "EnclavePk" ++ [x22] ++ bs ":" ++ [x22] ++ bs "AAAA" ++ [x22] ++ bs "," ++
  [x22] ++ bs "IASReport-Signature" ++ [x22] ++ bs ":" ++ [x22] ++ bs "AAAA" ++ [x22] ++ bs "}".
Lemma no_report_accepted_witness :
  verify_attestation_report sample_report (Some (replicate 32 x00)) (Mem ∅ 1) = None.
Proof.
  apply (no_report_accepted sample_report (Some (replicate 32 x00)) (Mem ∅ 1)).
  - intros l [b Hb]. by rewrite lookup_empty in Hb.
  - by vm_compute.
  - by eexists.
  - vm_compute. by eexists.
  - apply malloc_always_enough. by vm_compute.
Defined.

Definition sample_quote : bytes := replicate 32 x01 ++ [x41] ++ replicate 31 x00.
Definition sample_body : bytes :=
  bs "{" ++ [x22] ++ bs "isvEnclaveQuoteBody" ++ [x22] ++ bs ":" ++ [x22] ++ base64_encode sample_quote ++ [x22] ++ bs "}".
Lemma quote_checks_exact_witness :
  let q := base64_decode (base64_encode sample_quote) in
  triple emp
    (quote ← quote_from_attestation_report_body sample_body;
     pk ← verify_enclave_pk_in_quote quote (Some [x41]);
     code ← verify_mrenclave_in_quote quote (Some (replicate 32 x01)); mret (quote, pk, code))
    (λ r, ∃ lq, lq ↦ BChars (Z.of_nat (length q)) q ∗
      ⌜⌜r.1.1 = Some lq ∧ (r.1.2 = 0 ↔ take 32 (drop report_data_offset q) = IAS_SHA256 ([x41] ++ [])) ∧
        (r.2 = 0 ↔ take 32 (drop mr_enclave_offset q) = replicate 32 x01)⌝⌝)%I.
Proof.
  apply (quote_checks_exact sample_body (base64_encode sample_quote) [x41] [x41] [] (replicate 32 x01)
    [(bs "isvEnclaveQuoteBody", JString (base64_encode sample_quote))]).
  - by vm_compute.
  - by vm_compute.
  - apply malloc_always_enough. by vm_compute.
  - intros k b Hb. rewrite !elem_of_cons in Hb. destruct Hb as [->|[->|[->|Hb]]]; [by vm_compute..|by apply elem_of_nil in Hb].
  - done.
  - done.
  - done.
  - apply (bool_decide_eq_true_1 _). by vm_compute.
  - apply (bool_decide_eq_true_1 _). by vm_compute.
Defined.
