(* ===== verification/StdMap.v ===== *)
(** * Ordered maps: the part of [std::map<std::string, V>] and [std::set] the enclaves use

    A map is the list of its entries in iteration order, which is the order of
    [std::string]: lexicographic, on [unsigned char].  [insert] keeps an entry that
    is already there; assignment through [operator[]] replaces it. *)
From stdpp Require Import base list numbers option sets strings.
From Stdlib Require Import ZArith Lia Sorting.Sorted.
From S2P Require Import Prelude.

(** [a < b] for [std::string] *)
Fixpoint str_ltb (a b : bytes) : bool :=
  match a, b with
  | _, [] => false
  | [], _ :: _ => true
  | x :: a', y :: b' =>
      if decide (x = y) then str_ltb a' b' else (uchar x <? uchar y)%Z
  end.

Abbreviation omap V := (list (bytes * V)).

Section omap.
Context {V : Type}.
Implicit Types (m : omap V) (k : bytes) (v : V).

(** [find] *)
Fixpoint map_find m k : option V :=
  match m with
  | [] => None
  | (k', v) :: m' => if decide (k' = k) then Some v else map_find m' k
  end.

(** [insert({k, v})] *)
Fixpoint map_insert m k v : omap V :=
  match m with
  | [] => [(k, v)]
  | (k', v') :: m' =>
      if decide (k' = k) then m
      else if str_ltb k k' then (k, v) :: m else (k', v') :: map_insert m' k v
  end.

(** [m[k] = v] *)
Fixpoint map_assign m k v : omap V :=
  match m with
  | [] => [(k, v)]
  | (k', v') :: m' =>
      if decide (k' = k) then (k, v) :: m'
      else if str_ltb k k' then (k, v) :: m else (k', v') :: map_assign m' k v
  end.

(** The entries from [lower_bound(k)] on *)
Fixpoint map_lower_bound m k : omap V :=
  match m with
  | [] => []
  | (k', v) :: m' => if str_ltb k' k then map_lower_bound m' k else m
  end.
End omap.

(** [std::set<std::string>::insert] *)
Definition set_insert (s : omap unit) (k : bytes) : omap unit := map_insert s k ().
Definition set_elements (s : omap unit) : list bytes := s.*1.

(** [s.compare(0, k.size(), k) == 0]: [s] starts with [k] *)
Fixpoint has_prefix (k s : bytes) : bool :=
  match k, s with
  | [], _ => true
  | a :: k', b :: s' => if decide (a = b) then has_prefix k' s' else false
  | _ :: _, [] => false
  end.

(** The index of the first ['.'], as [find_first_of] gives it *)
Fixpoint find_dot (s : bytes) : option nat :=
  match s with
  | [] => None
  | b :: r => if decide (b = "."%byte) then Some 0 else S <$> find_dot r
  end.

From Stdlib Require Import ssreflect.

(** ** The order *)
Definition str_lt (a b : bytes) : Prop := str_ltb a b = true.

Lemma str_lt_irrefl a : ¬ str_lt a a.
Proof.
  unfold str_lt. induction a as [|x a IH]; [done|]. simpl. by destruct (decide (x = x)).
Qed.
Lemma str_lt_cons x y a b :
  str_lt (x :: a) (y :: b) ↔ (uchar x < uchar y)%Z ∨ (x = y ∧ str_lt a b).
Proof.
  unfold str_lt. simpl. destruct (decide (x = y)) as [->|Hne].
  - split; [by right|]. intros [?|[_ ?]]; [lia|done].
  - rewrite Z.ltb_lt. naive_solver.
Qed.
Lemma str_lt_trans a b c : str_lt a b → str_lt b c → str_lt a c.
Proof.
  revert b c. induction a as [|x a IH]; intros [|y b] [|z c] H1 H2; try done.
  apply str_lt_cons in H1, H2. apply str_lt_cons.
  destruct H1 as [?|[-> ?]], H2 as [?|[-> ?]]; [left; lia|by left|by left|right; eauto].
Qed.
Lemma str_lt_trichotomy a b : a ≠ b → ¬ str_lt a b → str_lt b a.
Proof.
  revert b. induction a as [|x a IH]; intros [|y b] Hne Hn; [done|by destruct Hn|reflexivity|].
  rewrite str_lt_cons in Hn. apply str_lt_cons.
  destruct (decide (x = y)) as [->|Hxy].
  - right. split; [done|]. apply IH; [congruence|]. naive_solver.
  - left. assert (uchar x ≠ uchar y) by (intros E; by apply Hxy, uchar_inj).
    assert (¬ (uchar x < uchar y)%Z) by naive_solver. lia.
Qed.
Lemma str_lt_asym a b : str_lt a b → ¬ str_lt b a.
Proof. intros H1 H2. by apply (str_lt_irrefl a), (str_lt_trans a b). Qed.

(** A common prefix does not change the order. *)
Lemma str_lt_app p a b : str_lt (p ++ a) (p ++ b) ↔ str_lt a b.
Proof.
  induction p as [|x p IH]; [done|]. cbn [app]. rewrite str_lt_cons IH.
  split; [intros [?|[_ ?]]; [lia|done]|by right].
Qed.

Lemma has_prefix_spec k s : has_prefix k s = true ↔ ∃ r, s = k ++ r.
Proof.
  revert s. induction k as [|a k IH]; intros s; simpl.
  - split; [by exists s|done].
  - destruct s as [|b s]; [split; [done|by intros [? ?]]|].
    destruct (decide (a = b)) as [->|Hne].
    + rewrite IH. split; intros [r Hr]; exists r; by simplify_eq.
    + split; [done|intros [r Hr]; by simplify_eq].
Qed.
Lemma has_prefix_not_lt k s : has_prefix k s = true → ¬ str_lt s k.
Proof.
  intros [r ->]%has_prefix_spec Hlt.
  assert (str_lt (k ++ r) (k ++ [])) as Hr by by rewrite app_nil_r.
  apply str_lt_app in Hr. by destruct r.
Qed.

(** The strings with a given prefix are an interval that starts at the prefix. *)
Lemma prefix_convex k x z :
  ¬ str_lt x k → str_lt x z → has_prefix k z = true → has_prefix k x = true.
Proof.
  revert x z. induction k as [|a k IH]; intros x z Hx Hz Hp; [done|].
  destruct z as [|c z]; [done|]. simpl in Hp. destruct (decide (a = c)) as [->|]; [|done].
  destruct x as [|b x]; [by destruct Hx|].
  rewrite str_lt_cons in Hx. rewrite str_lt_cons in Hz. simpl.
  assert (b = c) as ->.
  { destruct Hz as [Hz|[-> _]]; [|done]. exfalso. naive_solver. }
  rewrite decide_True_pi. apply (IH x z); [naive_solver| |done].
  destruct Hz as [Hz|[_ Hz]]; [lia|done].
Qed.

(** ** The map operations *)
Section omap_facts.
Context {V : Type}.
Implicit Types (m : omap V) (k : bytes) (v : V).

Definition sorted m : Prop := StronglySorted (λ a b, str_lt a.1 b.1) m.

Lemma find_above m k : Forall (λ e, str_lt k e.1) m → map_find m k = None.
Proof.
  induction 1 as [|[k' v'] m Hk _ IH]; [done|]. simpl in *.
  destruct (decide (k' = k)) as [->|]; [by apply str_lt_irrefl in Hk|done].
Qed.
Lemma sorted_cons k v m : sorted ((k, v) :: m) ↔ sorted m ∧ Forall (λ e, str_lt k e.1) m.
Proof. split; [by inversion 1|]. intros [? ?]. by constructor. Qed.
Lemma above_trans k k' m : str_lt k k' →
  Forall (λ e, str_lt k' e.1) m → Forall (λ e, str_lt k e.1) m.
Proof. intros Hk Hm. eapply Forall_impl; [exact Hm|]. intros e. by apply str_lt_trans. Qed.

Lemma insert_above k m k' v : str_lt k' k →
  Forall (λ e, str_lt k' e.1) m → Forall (λ e, str_lt k' e.1) (map_insert m k v).
Proof.
  intros Hk. induction 1 as [|[k1 v1] m H1 H IH]; simpl; [by repeat constructor|].
  destruct (decide (k1 = k)); [by constructor|]. destruct (str_ltb k k1); repeat constructor; done.
Qed.
Lemma assign_above k m k' v : str_lt k' k →
  Forall (λ e, str_lt k' e.1) m → Forall (λ e, str_lt k' e.1) (map_assign m k v).
Proof.
  intros Hk. induction 1 as [|[k1 v1] m H1 H IH]; simpl; [by repeat constructor|].
  destruct (decide (k1 = k)); [by constructor|]. destruct (str_ltb k k1); repeat constructor; done.
Qed.

Lemma insert_sorted m k v : sorted m → sorted (map_insert m k v).
Proof.
  induction m as [|[k1 v1] m IH]; simpl; [repeat constructor|].
  intros [Hm Ha]%sorted_cons. destruct (decide (k1 = k)) as [->|Hne]; [by apply sorted_cons|].
  destruct (str_ltb k k1) eqn:E.
  - apply sorted_cons. split; [by apply sorted_cons|]. constructor; [done|]. by apply (above_trans k k1).
  - apply sorted_cons. split; [by apply IH|]. apply insert_above; [|done].
    apply str_lt_trichotomy; [congruence|]. unfold str_lt. by rewrite E.
Qed.
Lemma assign_sorted m k v : sorted m → sorted (map_assign m k v).
Proof.
  induction m as [|[k1 v1] m IH]; simpl; [repeat constructor|].
  intros [Hm Ha]%sorted_cons. destruct (decide (k1 = k)) as [->|Hne]; [by apply sorted_cons|].
  destruct (str_ltb k k1) eqn:E.
  - apply sorted_cons. split; [by apply sorted_cons|]. constructor; [done|]. by apply (above_trans k k1).
  - apply sorted_cons. split; [by apply IH|]. apply assign_above; [|done].
    apply str_lt_trichotomy; [congruence|]. unfold str_lt. by rewrite E.
Qed.

Lemma find_insert m k v k' : sorted m →
  map_find (map_insert m k v) k' =
    if bool_decide (k = k') then Some (default v (map_find m k)) else map_find m k'.
Proof.
  induction m as [|[k1 v1] m IH]; simpl; [by case_bool_decide; case_decide|].
  intros [Hm Ha]%sorted_cons. destruct (decide (k1 = k)) as [->|Hne]; simpl.
  - case_bool_decide; by case_decide.
  - destruct (str_ltb k k1) eqn:E; simpl.
    + rewrite (find_above m k); [by apply (above_trans k k1)|].
      case_bool_decide; repeat case_decide; naive_solver.
    + rewrite IH //. case_bool_decide; repeat case_decide; naive_solver.
Qed.
Lemma find_assign m k v k' :
  map_find (map_assign m k v) k' = if bool_decide (k = k') then Some v else map_find m k'.
Proof.
  induction m as [|[k1 v1] m IH]; simpl; [by case_bool_decide; case_decide|].
  destruct (decide (k1 = k)) as [->|Hne]; simpl.
  - case_bool_decide; by case_decide.
  - destruct (str_ltb k k1); simpl; [by case_bool_decide; repeat case_decide|].
    rewrite IH. case_bool_decide; repeat case_decide; naive_solver.
Qed.

(** [find] and the entries *)
Lemma find_elem m k v : sorted m → map_find m k = Some v ↔ (k, v) ∈ m.
Proof.
  induction m as [|[k1 v1] m IH]; simpl; [split; [done|set_solver]|].
  intros [Hm Ha]%sorted_cons. rewrite elem_of_cons -IH //.
  destruct (decide (k1 = k)) as [->|Hne]; [|naive_solver].
  split; [intros [= ->]; by left|]. intros [?|Hf]; [naive_solver|].
  by rewrite (find_above m k) in Hf.
Qed.

(** The entries whose key has the prefix, found by scanning from the lower bound
    until the first key without it. *)
Fixpoint scan_prefix m k : omap V :=
  match m with
  | [] => []
  | (k', v) :: m' => if has_prefix k k' then (k', v) :: scan_prefix m' k else []
  end.
Lemma filter_none (P : bytes * V → Prop) `{∀ x, Decision (P x)} m :
  Forall (λ e, ¬ P e) m → filter P m = [].
Proof. induction 1 as [|e m He _ IH]; [done|]. rewrite filter_cons. by case_decide. Qed.
Lemma scan_none m k : sorted m → Forall (λ e, ¬ str_lt e.1 k) m →
  scan_prefix m k = filter (λ e, has_prefix k e.1 = true) m.
Proof.
  induction m as [|[k1 v1] m IH]; simpl; [done|].
  intros [Hm Ha]%sorted_cons [Hk Hall]%Forall_cons_1. rewrite filter_cons /=.
  destruct (has_prefix k k1) eqn:E; case_decide; try done; [by rewrite IH|]. symmetry. apply filter_none.
  eapply Forall_impl; [exact Ha|].
  intros [k2 v2] Hlt Hp; simpl in *. pose proof (prefix_convex k k1 k2 Hk Hlt Hp). congruence.
Qed.
Lemma lower_bound_spec m k : sorted m →
  sorted (map_lower_bound m k) ∧ Forall (λ e, ¬ str_lt e.1 k) (map_lower_bound m k) ∧
  filter (λ e, has_prefix k e.1 = true) (map_lower_bound m k) =
    filter (λ e, has_prefix k e.1 = true) m.
Proof.
  induction m as [|[k1 v1] m IH]; simpl; [done|].
  intros [Hm Ha]%sorted_cons. destruct (str_ltb k1 k) eqn:E.
  - destruct (IH Hm) as (? & ? & Hf). split; [done|]. split; [done|].
    rewrite Hf filter_cons /=. case_decide as Hp; [|done]. by apply has_prefix_not_lt in Hp.
  - split; [by apply sorted_cons|]. split; [|done]. constructor; [by unfold str_lt; rewrite E|].
    eapply Forall_impl; [exact Ha|]. intros e Hlt Hc.
    assert (str_lt k1 k) as Hk by exact (str_lt_trans _ _ _ Hlt Hc). unfold str_lt in Hk. congruence.
Qed.
Lemma scan_lower_bound m k : sorted m →
  scan_prefix (map_lower_bound m k) k = filter (λ e, has_prefix k e.1 = true) m.
Proof. intros Hm. destruct (lower_bound_spec m k Hm) as (? & ? & <-). by apply scan_none. Qed.

(** Inserting an entry with the greatest key appends it. *)
Lemma insert_last m k v : sorted (m ++ [(k, v)]) → map_insert m k v = m ++ [(k, v)].
Proof.
  induction m as [|[k' v'] m IH]; [done|]. cbn [app]. intros [Hm Ha]%sorted_cons. simpl.
  apply Forall_app in Ha as [_ [Hk _]%Forall_cons_1]. simpl in Hk.
  case_decide as E; [subst; by apply str_lt_irrefl in Hk|].
  destruct (str_ltb k k') eqn:E'; [by apply str_lt_asym in Hk|]. by rewrite IH.
Qed.
Lemma sorted_app_l m m' : sorted (m ++ m') → sorted m.
Proof.
  induction m as [|[k v] m IH]; [constructor|]. cbn [app]. intros [Hm [Ha _]%Forall_app]%sorted_cons.
  apply sorted_cons. eauto.
Qed.
End omap_facts.
