(* ===== verification/Ledger.v ===== *)
(** * The trusted ledger (tlcc_enclave/enclave/ledger.cpp, ledger.h, crypto.cpp,
      asn1_utils.c, ecc_json.cpp)

    The ledger enclave follows the blockchain: it checks the number of each block,
    walks through its transactions, applies the read/write sets of the valid ones to
    its copy of the state, and answers queries with hashes of that state.

    The protobuf decoder (nanopb, generated code) and OpenSSL are not part of the
    repository: they are the operations of the classes [Proto] and [OpenSSL].  A
    message is a record of the fields the code reads; a [bytes] or [char *] field that
    the decoder allocates is an option, NULL when it is absent.  [strings] keep the
    bytes the decoder stored before the terminating NUL it adds, which may include
    NULs.  Reading through NULL or outside an array is [Undefined].  Allocation is
    assumed to succeed; the [LOG_ERROR] messages are recorded as [event]s, debug
    output is left out. *)
From stdpp Require Import base list numbers option strings.
From Stdlib Require Import ZArith Lia.
From S2P Require Import Prelude ParsonText CNum Utils JsonSpec Base64 StdMap.
Local Open Scope Z_scope.

Definition LEDGER_SUCCESS : Z := 0.
Definition LEDGER_ERROR_DECODING : Z := -1.
Definition LEDGER_INVALID_BLOCK_NUMBER : Z := -3.
Definition LEDGER_ERROR_CRYPTO : Z := -5.
Definition LEDGER_NOT_FOUND : Z := -9.

(** ** Messages *)

Record BlockHeader := mkBlockHeader {
  number : Z; previous_hash : bytes; data_hash : bytes }.
(** [data] and [metadata] of the sub-messages *)
Record Block := mkBlock {
  blk_header : BlockHeader; blk_data : list bytes; blk_metadata : list bytes }.
Record MetadataSignature := mkMetadataSignature {
  ms_signature_header : option bytes; ms_signature : option bytes }.
Record Metadata := mkMetadata { md_value : option bytes; md_signatures : list MetadataSignature }.
Record SignatureHeader := mkSignatureHeader { creator : option bytes; nonce : option bytes }.
Record SerializedIdentity := mkSerializedIdentity { mspid : bytes; id_bytes : option bytes }.
Record Envelope := mkEnvelope { env_payload : option bytes; env_signature : option bytes }.
(** with the fields of its [header] *)
Record Payload := mkPayload {
  channel_header : option bytes; signature_header : option bytes; p_data : option bytes }.
Record ChannelHeader := mkChannelHeader { ch_type : Z; tx_id : option bytes }.

(** Configuration: a group's nested groups are the organisations, of which the code
    reads the values *)
Record ConfigOrg := mkConfigOrg { org_values : list (option bytes * option bytes) }.
Record ConfigGroup := mkConfigGroup { grp_key : option bytes; grp_orgs : list ConfigOrg }.
Record FabricMSPConfig := mkFabricMSPConfig { root_certs : list bytes; admins : list bytes }.

Record ChaincodeActionPayload := mkChaincodeActionPayload {
  chaincode_proposal_payload : option bytes; proposal_response_payload : option bytes }.
(** [chaincode_id.name], [results], [response.payload] *)
Record ChaincodeAction := mkChaincodeAction {
  cc_name : option bytes; results : option bytes; response_payload : option bytes }.

Record version_t := mkVersion { block_num : Z; tx_num : Z }.

Record KVRead := mkKVRead { read_key : option bytes; read_version : version_t }.
Record KVWrite := mkKVWrite { write_key : option bytes; write_value : option bytes }.
(** the raw reads of each range query, the reads and the writes *)
Record KVRWSet := mkKVRWSet {
  range_queries : list (list KVRead); reads : list KVRead; writes : list KVWrite }.
Record NsReadWriteSet := mkNsReadWriteSet { rw_ns : option bytes; rwset : option bytes }.

Class Proto := {
  decode_Block : bytes → option Block;
  decode_Metadata : bytes → option Metadata;
  decode_SignatureHeader : bytes → option SignatureHeader;
  decode_SerializedIdentity : bytes → option SerializedIdentity;
  decode_Envelope : bytes → option Envelope;
  decode_Payload : bytes → option Payload;
  decode_ChannelHeader : bytes → option ChannelHeader;
  decode_ConfigEnvelope : bytes → option (list ConfigGroup);
  decode_MSPConfig : bytes → option (option bytes);
  decode_FabricMSPConfig : bytes → option FabricMSPConfig;
  decode_Transaction : bytes → option (list (option bytes));
  decode_ChaincodeActionPayload : bytes → option ChaincodeActionPayload;
  decode_ChaincodeProposalPayload : bytes → option (option bytes);
  decode_ChaincodeInvocationSpec : bytes → option (list bytes);
  decode_ProposalResponsePayload : bytes → option (option bytes);
  decode_ChaincodeAction : bytes → option ChaincodeAction;
  decode_TxReadWriteSet : bytes → option (list NsReadWriteSet);
  decode_KVRWSet : bytes → option KVRWSet
}.

(** OpenSSL: certificates, key stores, ECDSA, SHA-256 and DER.  Hashing in several
    updates is hashing the concatenation. *)
Class OpenSSL := {
  X509 : Type; X509_STORE : Type; EC_KEY : Type; ECDSA_SIG : Type;
  SHA256 : bytes → bytes;
  i2d_ASN1BlockHeader : Z → bytes → bytes → bytes;
  PEM_read_bio_X509 : bytes → option X509;
  (** the result of the k-th call *)
  X509_STORE_new : nat → option X509_STORE;
  X509_STORE_add_cert : X509_STORE → X509 → Z * X509_STORE;
  X509_verify_cert : option X509_STORE → X509 → Z;
  X509_EC_KEY : X509 → option EC_KEY;
  PUBKEY_EC_KEY : bytes → option EC_KEY;
  d2i_ECDSA_SIG : bytes → option ECDSA_SIG;
  ECDSA_do_verify : bytes → option ECDSA_SIG → option EC_KEY → Z
}.

(** ** State *)

Definition kvs_value_t : Type := bytes * version_t.
Definition kvs_t : Type := omap kvs_value_t.
Definition write_set_t : Type := omap bytes.
Definition read_set_t : Type := omap unit.

(** The conditions reported with [LOG_ERROR]. *)
Inductive event :=
  | BlockSignatureInvalid | EnvelopeSignatureInvalid | IncorrectTxId | InvalidEnvelopeType
  | UnknownChannelGroup | CannotStoreRootCert | InvalidAdminCert | ErccSingleWrite
  | EccSignatureInvalid.

(** The static variables of ledger.cpp, the [updates] of the block being parsed, and
    the errors reported. *)
Record ledger {STORE : Type} := mkLedger {
  root_certs_orderer : option STORE;
  root_certs_apps : option STORE;
  state : kvs_t;
  sequence_number : Z;
  updates : kvs_t;
  events : list event }.
Arguments ledger : clear implicits.

(** The ledger before the genesis block: [sequence_number] is -1 as [uint32_t]. *)
Definition initial_ledger {STORE} : ledger STORE := mkLedger _ None None [] (2 ^ 32 - 1) [] [].

(** A step on the ledger: a value, a [return] with a status, or undefined behaviour. *)
Inductive result (S A : Type) :=
  | Value (a : A) (s : S)
  | Return (status : Z) (s : S)
  | Undefined.
Arguments Value {_ _}.
Arguments Return {_ _}.
Arguments Undefined {_ _}.

Section monad.
Context {STORE : Type}.

Definition LM (A : Type) : Type := ledger STORE → result (ledger STORE) A.
#[global] Instance LM_ret : MRet LM := λ A a s, Value a s.
#[global] Instance LM_bind : MBind LM := λ A B (k : A → LM B) (c : LM A), λ s,
  match c s with
  | Value a s' => k a s'
  | Return st s' => Return st s'
  | Undefined => Undefined
  end.
Definition undefined {A} : LM A := λ _, Undefined.
Definition return_status {A} (status : Z) : LM A := λ s, Return status s.
Definition get : LM (ledger STORE) := λ s, Value s s.
Definition put (s : ledger STORE) : LM unit := λ _, Value () s.

(** A call: a [return] of the callee gives its status to the caller. *)
Definition call (c : LM Z) : LM Z := λ s,
  match c s with Return st s' => Value st s' | r => r end.

Fixpoint for_list {A} (l : list A) (body : A → LM unit) : LM unit :=
  match l with
  | [] => mret ()
  | a :: l' => body a;; for_list l' body
  end.
Fixpoint fold_list {A B} (l : list A) (b : B) (body : B → A → LM B) : LM B :=
  match l with
  | [] => mret b
  | a :: l' => b' ← body b a; fold_list l' b' body
  end.

(** [p->bytes], [p->size] *)
Definition deref (p : option bytes) : LM bytes :=
  match p with Some b => mret b | None => undefined end.

(** [decode_pb] *)
Definition decode_pb {A} (decoded : option A) : LM A :=
  match decoded with Some a => mret a | None => return_status LEDGER_ERROR_DECODING end.

Definition LOG_ERR (e : event) : LM unit := λ s,
  Value () (mkLedger _ (root_certs_orderer s) (root_certs_apps s) (state s)
              (sequence_number s) (updates s) (events s ++ [e])).
Definition set_stores (orderer apps : option STORE) : LM unit := λ s,
  Value () (mkLedger _ orderer apps (state s) (sequence_number s) (updates s) (events s)).
Definition set_updates (u : kvs_t) : LM unit := λ s,
  Value () (mkLedger _ (root_certs_orderer s) (root_certs_apps s) (state s)
              (sequence_number s) u (events s)).
Definition set_state (st : kvs_t) (seq : Z) : LM unit := λ s,
  Value () (mkLedger _ (root_certs_orderer s) (root_certs_apps s) st seq (updates s) (events s)).
End monad.
Arguments LM : clear implicits.

(** ** crypto.cpp *)
Section crypto.
Context `{OpenSSL}.

(** The result is the status and the store afterwards; adding to a NULL store is
    undefined. *)
Definition store_root_cert (cert_bytes : bytes) (root_certs : option X509_STORE)
    : option (Z * option X509_STORE) :=
  match PEM_read_bio_X509 cert_bytes with
  | None => Some (-1, root_certs)
  | Some cert =>
      match root_certs with
      | None => None
      | Some store => let '(ret, store) := X509_STORE_add_cert store cert in Some (ret, Some store)
      end
  end.

Definition validate_cert (cert_bytes : bytes) (root_certs : option X509_STORE) : Z :=
  match PEM_read_bio_X509 cert_bytes with
  | None => -1
  | Some cert => X509_verify_cert root_certs cert
  end.

Definition verify_signature (sig_bytes input cert_bytes : bytes) (root_certs : option X509_STORE) : Z :=
  match PEM_read_bio_X509 cert_bytes with
  | None => -1
  | Some cert =>
      if X509_verify_cert root_certs cert =? 0 then 0
      else ECDSA_do_verify input (d2i_ECDSA_SIG sig_bytes) (X509_EC_KEY cert)
  end.

Definition verify_enclave_signature (sig_bytes input pk : bytes) : Z :=
  ECDSA_do_verify input (d2i_ECDSA_SIG sig_bytes) (PUBKEY_EC_KEY pk).

(** ** asn1_utils.c *)

(** The [long] that [ASN1_INTEGER_set] gets *)
Definition to_long (n : Z) : Z := (n + 2 ^ 63) mod 2 ^ 64 - 2 ^ 63.
Definition block_header2DER (header : BlockHeader) : bytes :=
  i2d_ASN1BlockHeader (to_long (number header))
    (if number header >? 0 then take 32 (previous_hash header) else [])
    (take 32 (data_hash header)).
End crypto.

(** ** ecc_json.cpp *)

(** [marshal_ecc_args]: the array of the arguments as strings.  An argument that is not
    valid UTF-8 has no JSON string and is left out. *)
Definition ecc_args_json (argss : list bytes) : json :=
  JArray (JString <$> filter (λ s, is_valid_utf8 s (Z.of_nat (length s)) = true) (cstr <$> argss)).
Definition marshal_ecc_args (argss : list bytes) : bytes :=
  serialize_json false 0 (ecc_args_json argss).

(** [base64_decode(json_object_get_string(json_object(root), name))]; building a string
    from a NULL pointer is undefined *)
Definition ecc_field (root : option json) (name : bytes) : option bytes :=
  match root with
  | Some (JObject kvs) =>
      match olookup name kvs with Some (JString s) => Some (base64_decode s) | _ => None end
  | _ => None
  end.

(** What [unmarshal_ecc_response] leaves in the three buffers, of the given capacities;
    [old] are the previous contents with their lengths.  The payload is taken to be
    followed by a NUL in memory. *)
Definition unmarshal_ecc_response (payload : bytes) (old : bytes * bytes * bytes)
    (response_len signature_len pk_len : Z) : option (Z * (bytes * bytes * bytes)) :=
  let '(response0, signature0, pk0) := old in
  let root := parse_json (cstr payload) in
  response ← ecc_field root (bs "ResponseData");
  if Z.of_nat (length response) >? response_len then Some (0, (response0, signature0, pk0)) else
  signature ← ecc_field root (bs "Signature");
  if Z.of_nat (length signature) >? signature_len then Some (0, (response, signature0, pk0)) else
  pk ← ecc_field root (bs "PublicKey");
  if Z.of_nat (length pk) >? pk_len then Some (0, (response, signature, pk0)) else
  Some (1, (response, signature, pk)).

(** The contents of an uninitialised array of the given size. *)
Class Stack := { uninit : nat → bytes }.

(** ** ledger.h, ledger.cpp *)
Section ledger.
Context `{Proto} `{OpenSSL} `{Stack}.
Local Abbreviation LM := (LM X509_STORE).
Local Abbreviation ledger := (ledger X509_STORE).

Definition cmp_version (v1 v2 : version_t) : Z :=
  if block_num v1 >? block_num v2 then 1
  else if block_num v1 <? block_num v2 then -1
  else if tx_num v1 >? tx_num v2 then 1
  else if tx_num v1 <? tx_num v2 then -1
  else 0.

Definition has_version_conflict (key : bytes) (st : kvs_t) (v : version_t) : Z :=
  match map_find st key with
  | Some (_, version) => if cmp_version v version =? -1 then 1 else 0
  | None => 0
  end.

Definition init_ledger : LM Z :=
  s ← get;
  match X509_STORE_new 0 with
  | None => set_stores None (root_certs_apps s);; mret LEDGER_ERROR_CRYPTO
  | Some orderer =>
      set_stores (Some orderer) (X509_STORE_new 1);;
      mret (match X509_STORE_new 1 with None => LEDGER_ERROR_CRYPTO | Some _ => LEDGER_SUCCESS end)
  end.

Definition commit_state_updates (block_sequence_number : Z) : LM Z :=
  s ← get;
  if block_sequence_number =? wrap32 (sequence_number s + 1) then
    set_state (foldl (λ st e, map_assign st e.1 e.2) (state s) (updates s)) block_sequence_number;;
    mret LEDGER_SUCCESS
  else undefined.

(** *** Configuration *)

(** [X509_STORE* root_certs] points to one of the static stores, or is NULL. *)
Inductive store_ptr := OrdererStore | AppsStore | NoStore.
Definition read_store (p : store_ptr) : LM (option X509_STORE) :=
  s ← get;
  mret (match p with
        | OrdererStore => root_certs_orderer s
        | AppsStore => root_certs_apps s
        | NoStore => None
        end).
Definition write_store (p : store_ptr) (store : option X509_STORE) : LM unit :=
  s ← get;
  match p with
  | OrdererStore => set_stores store (root_certs_apps s)
  | AppsStore => set_stores (root_certs_orderer s) store
  | NoStore => mret ()
  end.

(** One MSP value of an organisation *)
Definition parse_msp (p : store_ptr) (msp_value : option bytes) : LM unit :=
  value ← deref msp_value;
  config ← decode_pb (decode_MSPConfig value);
  config ← deref config;
  fabric_msp_config ← decode_pb (decode_FabricMSPConfig config);
  for_list (root_certs fabric_msp_config) (λ cert,
    store ← read_store p;
    match store_root_cert cert store with
    | None => undefined
    | Some (ret, store) =>
        write_store p store;;
        if negb (ret =? 1) then LOG_ERR CannotStoreRootCert else mret ()
    end);;
  for_list (admins fabric_msp_config) (λ cert,
    store ← read_store p;
    if negb (validate_cert cert store =? 1) then LOG_ERR InvalidAdminCert else mret ()).

Definition parse_org (p : store_ptr) (org : ConfigOrg) : LM unit :=
  for_list (org_values org) (λ '(key, value),
    key ← deref key;
    if negb (bool_decide (cstr key = bs "MSP")) then mret () else parse_msp p value).

Definition parse_group (group : ConfigGroup) : LM unit :=
  key ← deref (grp_key group);
  p ← (if bool_decide (cstr key = bs "Orderer") then mret OrdererStore
       else if bool_decide (cstr key = bs "Application") then mret AppsStore
       else LOG_ERR UnknownChannelGroup;; mret NoStore);
  for_list (grp_orgs group) (parse_org p).

Definition parse_config (config_data : bytes) : LM Z :=
  groups ← decode_pb (decode_ConfigEnvelope config_data);
  for_list groups parse_group;;
  mret LEDGER_SUCCESS.

(** *** Transactions *)

(** The loop over the components of a composite key: [buf] is the memory from [idx]
    to the end of the allocated string; each component is followed by ["."]. *)
Fixpoint append_components (fuel : nat) (buf : bytes) : option bytes :=
  match fuel, buf with
  | S fuel, b :: _ =>
      if decide (b = x00) then Some []
      else let c := cstr buf in
           r ← append_components fuel (drop (S (length c)) buf); Some (c ++ bs "." ++ r)
  | _, _ => None
  end.
(** From [key + 1] on *)
Definition components (key : bytes) : LM bytes :=
  match append_components (S (length key)) (tail (key ++ [x00])) with
  | Some r => mret r
  | None => undefined
  end.

(** [has_version_conflict] in the state, or in the updates of this block *)
Definition conflict (s : ledger) (key : bytes) (v : version_t) : bool :=
  (has_version_conflict key (state s) v =? 1) || (has_version_conflict key (updates s) v =? 1).

(** What the loops over the read sets keep: [valid_tx] and [ecc_read_set]. *)
Definition reads_t : Type := bool * read_set_t.

(** One read, after its key and the key for the enclave's read set were computed. *)
Definition check_read (ecc_namespace ns key kkey : bytes) (v : version_t) (r : reads_t) : LM reads_t :=
  s ← get;
  let '(valid_tx, ecc_read_set) := r in
  let ecc_read_set :=
    if bool_decide (ns = ecc_namespace) then set_insert ecc_read_set kkey else ecc_read_set in
  mret (if conflict s key v then (false, ecc_read_set) else (valid_tx, ecc_read_set)).

Definition check_range_read (ecc_namespace ns : bytes) (r : reads_t) (kv : KVRead) : LM reads_t :=
  raw ← deref (read_key kv);
  comps ← components raw;
  check_read ecc_namespace ns (ns ++ bs "." ++ comps) comps (read_version kv) r.

Definition check_plain_read (ecc_namespace ns : bytes) (r : reads_t) (kv : KVRead) : LM reads_t :=
  raw ← deref (read_key kv);
  check_read ecc_namespace ns (ns ++ bs "." ++ cstr raw) (cstr raw) (read_version kv) r.

(** The read set of one name space *)
Definition check_ns_reads (ecc_namespace : bytes) (r : reads_t) (nrw : NsReadWriteSet) : LM reads_t :=
  data ← deref (rwset nrw);
  kvrwset ← decode_pb (decode_KVRWSet data);
  ns ← deref (rw_ns nrw);
  r ← fold_list (range_queries kvrwset) r (λ r raw_reads,
        fold_list raw_reads r (check_range_read ecc_namespace (cstr ns)));
  fold_list (reads kvrwset) r (check_plain_read ecc_namespace (cstr ns)).

(** [updates->insert(kvs_item_t(key, kvs_value_t(val, version)))] *)
Definition insert_update (key val : bytes) (version : version_t) : LM unit :=
  s ← get; set_updates (map_insert (updates s) key (val, version)).

(** A write of the name spaces lscc and ercc *)
Definition plain_write (ns : bytes) (version : version_t) (w : KVWrite) : LM unit :=
  raw ← deref (write_key w);
  val ← deref (write_value w);
  insert_update (ns ++ bs "." ++ cstr raw) val version.

(** A write of a private chaincode, which may have a composite key *)
Definition ecc_write (ns : bytes) (version : version_t) (ecc_write_set : write_set_t) (w : KVWrite)
    : LM write_set_t :=
  raw ← deref (write_key w);
  '(key, kkey) ← (if decide (at_c raw 0 = x00) then
                    comps ← components raw;
                    mret (ns ++ bs "." ++ comps, bs "." ++ comps)
                  else mret (ns ++ bs "." ++ cstr raw, cstr raw));
  val ← deref (write_value w);
  insert_update key val version;;
  mret (map_insert ecc_write_set kkey val).

(** The write set of one name space; [valid_tx] is not looked at afterwards. *)
Definition apply_ns_writes (version : version_t) (ecc_write_set : write_set_t) (nrw : NsReadWriteSet)
    : LM write_set_t :=
  data ← deref (rwset nrw);
  kvrwset ← decode_pb (decode_KVRWSet data);
  ns ← deref (rw_ns nrw);
  let ns := cstr ns in
  if bool_decide (ns = bs "lscc") then
    for_list (writes kvrwset) (plain_write ns version);; mret ecc_write_set
  else if bool_decide (ns = bs "ercc") then
    (if negb (length (writes kvrwset) =? 1)%nat then LOG_ERR ErccSingleWrite else mret ());;
    match writes kvrwset with
    | [] => undefined
    | w :: _ => plain_write ns version w
    end;;
    mret ecc_write_set
  else if has_prefix (bs "ecc") ns then
    fold_list (writes kvrwset) ecc_write_set (ecc_write ns version)
  else mret ecc_write_set.

(** The message the enclave signed: type, arguments, response, read and write sets *)
Definition ecc_message (txType encoded_args response_data : bytes) (ecc_read_set : read_set_t)
    (ecc_write_set : write_set_t) : bytes :=
  txType ++ encoded_args ++ response_data ++ concat (set_elements ecc_read_set) ++
  concat ((λ e, e.1 ++ e.2) <$> ecc_write_set).

(** [Validate ECC tx]: a failure is only reported. *)
Definition validate_ecc_tx (function : bytes) (args : list bytes) (payload : option bytes)
    (ecc_read_set : read_set_t) (ecc_write_set : write_set_t) : LM unit :=
  payload ← deref payload;
  let size := Z.of_nat (length payload) in
  match unmarshal_ecc_response payload (uninit (length payload), uninit 96, uninit 96) size 96 96 with
  | None => undefined
  | Some (_, (response_data, signature, pk)) =>
      let '(txType, argss) :=
        if bool_decide (function = bs "__init") then (bs "init", tail args) else (bs "invoke", args) in
      let encoded_args := marshal_ecc_args argss in
      let hash := SHA256 (ecc_message txType encoded_args response_data ecc_read_set ecc_write_set) in
      let hash2 := SHA256 hash in
      if negb (verify_enclave_signature signature hash2 pk =? 1) then LOG_ERR EccSignatureInvalid
      else mret ()
  end.

(** The read/write set of an action, if the action has results *)
Definition process_results (function : bytes) (args : list bytes) (cc_action : ChaincodeAction)
    (res : bytes) (tx_version : version_t) : LM unit :=
  tx_rw_set ← decode_pb (decode_TxReadWriteSet res);
  name ← deref (cc_name cc_action);
  let ecc_namespace := if has_prefix (bs "ecc") (cstr name) then cstr name else [] in
  '(valid_tx, ecc_read_set) ← fold_list tx_rw_set (true, []) (check_ns_reads ecc_namespace);
  if negb (valid_tx : bool) then mret ()
  else
    ecc_write_set ← fold_list tx_rw_set [] (apply_ns_writes tx_version);
    if negb (bool_decide (ecc_namespace = [])) && negb (bool_decide (function = bs "__setup")) then
      validate_ecc_tx function args (response_payload cc_action) ecc_read_set ecc_write_set
    else mret ().

Definition parse_action (payload : option bytes) (tx_version : version_t) : LM unit :=
  payload ← deref payload;
  action_payload ← decode_pb (decode_ChaincodeActionPayload payload);
  cpp ← deref (chaincode_proposal_payload action_payload);
  input ← decode_pb (decode_ChaincodeProposalPayload cpp);
  input ← deref input;
  args ← decode_pb (decode_ChaincodeInvocationSpec input);
  let function := default [] (head args) in
  prp ← deref (proposal_response_payload action_payload);
  extension ← decode_pb (decode_ProposalResponsePayload prp);
  extension ← deref extension;
  cc_action ← decode_pb (decode_ChaincodeAction extension);
  match results cc_action with
  | None => mret ()
  | Some res => process_results function args cc_action res tx_version
  end.

Definition parse_endorser_transaction (tx_data : bytes) (tx_version : version_t) : LM Z :=
  actions ← decode_pb (decode_Transaction tx_data);
  for_list actions (λ payload, parse_action payload tx_version);;
  mret LEDGER_SUCCESS.

(** *** Blocks *)

Definition SIGNATURES : nat := 0.
Definition TRANSACTIONS_FILTER : nat := 2.
Definition CONFIG : Z := 1.
Definition ENDORSER_TRANSACTION : Z := 3.

(** [block.metadata.metadata[i]] *)
Definition metadata_at (block : Block) (i : nat) : LM bytes := deref (blk_metadata block !! i).

Definition verify_block_signature (metadata : Metadata) (header_DER : bytes)
    (metadata_signature : MetadataSignature) : LM unit :=
  sh ← deref (ms_signature_header metadata_signature);
  header ← decode_pb (decode_SignatureHeader sh);
  cr ← deref (creator header);
  identity ← decode_pb (decode_SerializedIdentity cr);
  let sig_hash := SHA256 (default [] (md_value metadata) ++ sh ++ header_DER) in
  sig ← deref (ms_signature metadata_signature);
  cert ← deref (id_bytes identity);
  s ← get;
  if negb (verify_signature sig sig_hash cert (root_certs_orderer s) =? 1)
  then LOG_ERR BlockSignatureInvalid else mret ().

(** The text [bytes_to_hexstring] makes of a hash *)
Definition hexstring (data : bytes) : bytes := data ≫= hex2.

(** Envelope [i] of the block *)
Definition process_envelope (block : Block) (i : nat) (data : bytes) : LM unit :=
  let version := mkVersion (number (blk_header block)) (Z.of_nat i) in
  envelope ← decode_pb (decode_Envelope data);
  pl ← deref (env_payload envelope);
  payload ← decode_pb (decode_Payload pl);
  sh ← deref (signature_header payload);
  header ← decode_pb (decode_SignatureHeader sh);
  cr ← deref (creator header);
  identity ← decode_pb (decode_SerializedIdentity cr);
  let sig_hash := SHA256 pl in
  (if number (blk_header block) >? 0 then
     sig ← deref (env_signature envelope);
     cert ← deref (id_bytes identity);
     s ← get;
     if negb (verify_signature sig sig_hash cert (root_certs_apps s) =? 1)
     then LOG_ERR EnvelopeSignatureInvalid else mret ()
   else mret ());;
  ch ← deref (channel_header payload);
  chdr ← decode_pb (decode_ChannelHeader ch);
  (if number (blk_header block) >? 0 then
     nc ← deref (nonce header);
     let tx := hexstring (SHA256 (nc ++ cr)) in
     id ← deref (tx_id chdr);
     if (length tx =? length (cstr id))%nat && negb (bool_decide (tx = cstr id))
     then LOG_ERR IncorrectTxId else mret ()
   else mret ());;
  if ch_type chdr =? CONFIG then
    if number (blk_header block) =? 0 then
      d ← deref (p_data payload); call (parse_config d);; mret ()
    else mret ()
  else if ch_type chdr =? ENDORSER_TRANSACTION then
    d ← deref (p_data payload); call (parse_endorser_transaction d version);; mret ()
  else LOG_ERR InvalidEnvelopeType.

Definition parse_block (block_data : bytes) : LM Z :=
  block ← decode_pb (decode_Block block_data);
  let block_sequence_number := wrap32 (number (blk_header block)) in
  let header_DER := block_header2DER (blk_header block) in
  s ← get;
  if negb (block_sequence_number =? wrap32 (sequence_number s + 1)) then
    mret LEDGER_INVALID_BLOCK_NUMBER
  else
    metadata_bytes ← metadata_at block SIGNATURES;
    metadata ← decode_pb (decode_Metadata metadata_bytes);
    for_list (md_signatures metadata) (verify_block_signature metadata header_DER);;
    tx_filter_pb ← metadata_at block TRANSACTIONS_FILTER;
    (if (length (blk_data block) <? length tx_filter_pb)%nat then undefined else mret ());;
    let tx_filter i := default x00 (tx_filter_pb !! i) in
    set_updates [];;
    for_list (imap pair (blk_data block)) (λ '(i, data),
      if decide (tx_filter i = x01) then mret () else process_envelope block i data);;
    commit_state_updates block_sequence_number.

(** *** Queries *)

(** The status, and the hash written to [out_hash] *)
Definition ledger_get_state_hash (key : bytes) (s : ledger) : Z * option bytes :=
  match map_find (state s) key with
  | Some (value, _) => (LEDGER_SUCCESS, Some (SHA256 value))
  | None => (LEDGER_NOT_FOUND, None)
  end.

(** [key.erase(0, found)] for the first ["."] *)
Definition strip_namespace (key : bytes) : bytes :=
  match find_dot key with Some found => drop found key | None => key end.

(** The loop from the lower bound to the first key without the prefix: what is hashed *)
Fixpoint multi_state_loop (entries : kvs_t) (k : bytes) : bytes :=
  match entries with
  | [] => []
  | (key, value) :: rest =>
      if has_prefix k key then strip_namespace key ++ value.1 ++ multi_state_loop rest k else []
  end.
Definition ledger_get_multi_state_hash (comp_key : bytes) (s : ledger) : Z * bytes :=
  (LEDGER_SUCCESS, SHA256 (multi_state_loop (map_lower_bound (state s) comp_key) comp_key)).
End ledger.
