(* ===== verification/LedgerSpec.v ===== *)
(** * The trusted ledger: what blocks say

    The contents of blocks and transactions, apart from how the ledger goes through them:
    the parts of composite keys, the transaction in an envelope, the keys and values that
    a transaction writes, and what it means that a transaction read stale data. *)
From stdpp Require Import base list numbers option strings.
From Stdlib Require Import ZArith Lia.
From S2P Require Import Prelude ParsonText CNum Utils JsonSpec Base64 StdMap Ledger.
From Stdlib Require Import ssreflect.
Local Open Scope Z_scope.

(** ** Composite keys *)

(** How Fabric builds a composite key: every part is followed by a NUL. *)
Definition composite_key (parts : list bytes) : bytes := x00 :: concat ((λ c, c ++ [x00]) <$> parts).
(** What the ledger makes of it *)
Definition dotted (parts : list bytes) : bytes := concat ((λ c, c ++ bs ".") <$> parts).

(** The parts of the key [raw], a C string with NULs inside: those up to the first empty one *)
Definition key_parts_of (raw : bytes) (parts : list bytes) : Prop :=
  Forall (λ c, nonul c ∧ c ≠ []) parts ∧
  ∃ rest, tail (raw ++ [x00]) = concat ((λ c, c ++ [x00]) <$> parts) ++ x00 :: rest.

Lemma composite_key_parts parts : Forall (λ c, nonul c ∧ c ≠ []) parts → key_parts_of (composite_key parts) parts.
Proof. intros Hparts. split; [done|]. by exists []. Qed.

Lemma append_components_exact parts rest : ∀ fuel, (length parts < fuel)%nat →
  Forall (λ c, nonul c ∧ c ≠ []) parts →
  append_components fuel (concat ((λ c, c ++ [x00]) <$> parts) ++ x00 :: rest) = Some (dotted parts).
Proof.
  induction parts as [|c parts IH]; intros [|fuel] Hf Hparts; simpl in Hf; try lia; [done|].
  apply Forall_cons in Hparts as [[Hn Hne] Hparts]. unfold dotted in *. cbn [fmap list_fmap concat].
  set (buf := concat _ ++ x00 :: rest) in IH |- *.
  assert (E : ((c ++ [x00]) ++ concat ((λ c, c ++ [x00]) <$> parts)) ++ x00 :: rest = c ++ x00 :: buf).
  { by rewrite -!assoc_L. }
  rewrite E. assert (Hc : cstr (c ++ x00 :: buf) = c) by by apply cstr_app_nul.
  assert (Hd : drop (S (length c)) (c ++ x00 :: buf) = buf).
  { rewrite (cons_middle x00) assoc_L drop_app_length' //. rewrite length_app /=. lia. }
  destruct c as [|b c]; [done|]. apply nonul_cons in Hn as [Hb _]. cbn [app append_components] in *.
  case_decide; [done|]. rewrite Hc Hd (IH fuel) //; [lia|]. cbn [mbind option_bind]. by rewrite -assoc_L.
Qed.

Lemma cstr_split (s : bytes) : (length (cstr s) < length s)%nat → s = cstr s ++ x00 :: drop (S (length (cstr s))) s.
Proof.
  induction s as [|b s IH]; cbn [length]; [lia|]. cbn [cstr].
  case_decide as Hb; [by subst b|]. cbn [length app drop]. intros Hlt. f_equal. apply IH. lia.
Qed.
Lemma append_components_inv fuel : ∀ buf r, append_components fuel buf = Some r →
  ∃ parts rest, Forall (λ c, nonul c ∧ c ≠ []) parts ∧ r = dotted parts ∧
    buf = concat ((λ c, c ++ [x00]) <$> parts) ++ x00 :: rest.
Proof.
  induction fuel as [|fuel IH]; intros [|b buf] r; try done. cbn [append_components].
  case_decide as Hb; [intros [= <-]; subst b; exists [], buf; by split_and!|].
  set (c := cstr (b :: buf)). destruct (append_components fuel _) as [r'|] eqn:E; [|done]. intros [= <-].
  destruct (IH _ _ E) as (parts & rest & Hparts & -> & Hbuf). exists (c :: parts), rest.
  assert (Hlt : (length c < length (b :: buf))%nat).
  { destruct (decide (length c < length (b :: buf))%nat) as [|Hge]; [done|].
    rewrite drop_ge in Hbuf; [lia|]. by destruct (concat _). }
  split_and!; [|by unfold dotted; cbn; rewrite -assoc_L|].
  - constructor; [|done]. split; [apply nonul_cstr|]. unfold c. cbn [cstr]. by rewrite decide_False.
  - cbn [fmap list_fmap concat]. rewrite -!assoc_L -Hbuf. exact (cstr_split _ Hlt).
Qed.

Section contents.
Context `{Proto} `{OpenSSL} `{Stack}.
Local Abbreviation LM := (LM X509_STORE).
Local Abbreviation ledger := (ledger X509_STORE).

(** The loops over the parts of a composite key compute exactly its parts, each followed by
    a dot, and end inside the key. *)
Lemma components_spec raw (s : ledger) r :
  components raw s = Value r s ↔ ∃ parts, key_parts_of raw parts ∧ r = dotted parts.
Proof.
  unfold components. split.
  - destruct (append_components _ _) as [r'|] eqn:E; [|done]. intros [= ->].
    destruct (append_components_inv _ _ _ E) as (parts & rest & Hparts & -> & Hbuf).
    exists parts. split; [|done]. split; [done|by exists rest].
  - intros (parts & [Hparts [rest Hbuf]] & ->). rewrite Hbuf append_components_exact //.
    assert (Hle : (length parts <= length (concat ((λ c : bytes, c ++ [x00]) <$> parts)))%nat).
    { clear. induction parts as [|c parts IH]; [done|]. cbn [fmap list_fmap concat length].
      rewrite !length_app. cbn [length]. lia. }
    apply (f_equal length) in Hbuf. rewrite length_app in Hbuf. cbn [length] in Hbuf.
    destruct raw as [|b raw]; cbn [app tail length] in *; [lia|]. rewrite length_app in Hbuf. cbn [length] in Hbuf. lia.
Qed.

(** ** Transactions *)

(** The read and write sets of an action, if it has results *)
Definition action_results (payload : option bytes) : option (list NsReadWriteSet) :=
  p ← payload; action_payload ← decode_ChaincodeActionPayload p;
  prp ← proposal_response_payload action_payload; extension ← decode_ProposalResponsePayload prp;
  extension ← extension; cc_action ← decode_ChaincodeAction extension;
  res ← results cc_action; decode_TxReadWriteSet res.

(** The endorser transaction that is in an envelope *)
Definition envelope_transaction (data : bytes) : option bytes :=
  envelope ← decode_Envelope data; pl ← env_payload envelope; payload ← decode_Payload pl;
  ch ← channel_header payload; chdr ← decode_ChannelHeader ch;
  if bool_decide (ch_type chdr = ENDORSER_TRANSACTION) then p_data payload else None.

(** *** Writes *)

(** The write [w] of the name space [ns] is for the key [k] of the ledger: private
    chaincodes may write composite keys. *)
Inductive write_names (ns : bytes) (w : KVWrite) : bytes → Prop :=
  | write_plain raw : write_key w = Some raw → (has_prefix (bs "ecc") ns = true → at_c raw 0 ≠ x00) →
      write_names ns w (ns ++ bs "." ++ cstr raw)
  | write_composite raw parts : write_key w = Some raw → has_prefix (bs "ecc") ns = true → at_c raw 0 = x00 →
      key_parts_of raw parts → write_names ns w (ns ++ bs "." ++ dotted parts).

(** The set of one name space, of those the ledger keeps, writes [val] to [k]. *)
Definition ns_writes (n : NsReadWriteSet) (k val : bytes) : Prop := ∃ data kvs ns w,
  rwset n = Some data ∧ decode_KVRWSet data = Some kvs ∧ rw_ns n = Some ns ∧ w ∈ writes kvs ∧
  (cstr ns = bs "lscc" ∨ cstr ns = bs "ercc" ∨ has_prefix (bs "ecc") (cstr ns) = true) ∧
  write_names (cstr ns) w k ∧ write_value w = Some val.
Definition action_writes (payload : option bytes) (k val : bytes) : Prop :=
  ∃ sets n, action_results payload = Some sets ∧ n ∈ sets ∧ ns_writes n k val.
Definition transaction_writes (tx_data : bytes) (k val : bytes) : Prop :=
  ∃ actions payload, decode_Transaction tx_data = Some actions ∧ payload ∈ actions ∧ action_writes payload k val.

(** Transaction [i] of the block is not marked invalid and writes [val] to [k]. *)
Definition block_writes (b : Block) (i : nat) (k val : bytes) : Prop := ∃ filter data tx_data,
  blk_metadata b !! TRANSACTIONS_FILTER = Some filter ∧ filter !! i ≠ Some x01 ∧
  blk_data b !! i = Some data ∧ envelope_transaction data = Some tx_data ∧ transaction_writes tx_data k val.

(** *** Reads *)

(** The order of versions *)
Definition version_lt (v1 v2 : version_t) : Prop :=
  block_num v1 < block_num v2 ∨ (block_num v1 = block_num v2 ∧ tx_num v1 < tx_num v2).

(** [rd] is a read of the key [k] of the ledger, by itself or in a range query *)
Inductive read_names (ns : bytes) (kvs : KVRWSet) (rd : KVRead) : bytes → Prop :=
  | read_plain raw : rd ∈ reads kvs → read_key rd = Some raw → read_names ns kvs rd (ns ++ bs "." ++ cstr raw)
  | read_range raw_reads raw parts : raw_reads ∈ range_queries kvs → rd ∈ raw_reads → read_key rd = Some raw →
      key_parts_of raw parts → read_names ns kvs rd (ns ++ bs "." ++ dotted parts).

(** Some read is older than what the state, or the updates of the block so far, hold for
    its key. *)
Definition reads_stale (s : ledger) (sets : list NsReadWriteSet) : Prop := ∃ n data kvs ns rd k value cur,
  n ∈ sets ∧ rwset n = Some data ∧ decode_KVRWSet data = Some kvs ∧ rw_ns n = Some ns ∧
  read_names (cstr ns) kvs rd k ∧
  (map_find (state s) k = Some (value, cur) ∨ map_find (updates s) k = Some (value, cur)) ∧
  version_lt (read_version rd) cur.
Definition action_stale (s : ledger) (payload : option bytes) : Prop :=
  ∃ sets, action_results payload = Some sets ∧ reads_stale s sets.
End contents.
