(* ===== verification/LedgerProof.v ===== *)
(** * The trusted ledger: blocks are applied atomically and in order

    What a block can change, which transactions take effect, and what the hashes that
    answer queries are computed from. *)
From stdpp Require Import base list numbers option strings.
From Stdlib Require Import ZArith Lia.
From S2P Require Import Prelude ParsonText CNum Utils JsonSpec Base64 StdMap Ledger LedgerSpec.
From Stdlib Require Import ssreflect.
Local Open Scope Z_scope.

(** The status and the ledger after a call, if it is defined. *)
Definition run {STORE} (c : LM STORE Z) (s : ledger STORE) : option (Z * ledger STORE) :=
  match c s with Value st s' => Some (st, s') | Return st s' => Some (st, s') | Undefined => None end.

(** ** Steps that only move along a preorder

    [preserves R c]: from every ledger, [c] ends in one that is related to it; the only
    status it returns early with is the one of a failed decoding. *)
Section preserves.
Context {STORE : Type}.
Local Abbreviation LM := (LM STORE).
Local Abbreviation ledger := (ledger STORE).

Definition preserves {A} (R : ledger → ledger → Prop) (c : LM A) : Prop := ∀ s,
  match c s with
  | Value _ s' => R s s'
  | Return st s' => st = LEDGER_ERROR_DECODING ∧ R s s'
  | Undefined => True
  end.

Section rules.
Context (R : ledger → ledger → Prop) {HR : PreOrder R}.

Lemma preserves_ret {A} (a : A) : preserves R (mret a).
Proof. intros s. change (R s s). reflexivity. Qed.
Lemma preserves_bind {A B} (c : LM A) (k : A → LM B) :
  preserves R c → (∀ a, preserves R (k a)) → preserves R (c ≫= k).
Proof.
  intros Hc Hk s. unfold mbind, LM_bind. specialize (Hc s). destruct (c s) as [a s'|st s'|]; [|done..].
  specialize (Hk a s'). destruct (k a s') as [b s''|st s''|];
    [by transitivity s'|destruct Hk; split; [done|by transitivity s']|done].
Qed.
Lemma preserves_for {A} (l : list A) body : (∀ a, preserves R (body a)) → preserves R (for_list l body).
Proof.
  intros Hb. induction l as [|a l IH]; [apply preserves_ret|]. apply preserves_bind; [apply Hb|]. by intros _.
Qed.
Lemma preserves_fold {A B} (l : list A) (b : B) body :
  (∀ b a, preserves R (body b a)) → preserves R (fold_list l b body).
Proof.
  intros Hb. revert b. induction l as [|a l IH]; intros b; [apply preserves_ret|].
  apply preserves_bind; [apply Hb|done].
Qed.
Lemma preserves_for_in {A} (l : list A) body : (∀ a, a ∈ l → preserves R (body a)) → preserves R (for_list l body).
Proof.
  intros Hb. induction l as [|a l IH]; [apply preserves_ret|]. apply preserves_bind; [apply Hb; left|].
  intros _. apply IH. intros a' Ha. apply Hb. by right.
Qed.
Lemma preserves_fold_in {A B} (l : list A) (b : B) body :
  (∀ b a, a ∈ l → preserves R (body b a)) → preserves R (fold_list l b body).
Proof.
  revert b. induction l as [|a l IH]; intros b Hb; [apply preserves_ret|].
  apply preserves_bind; [apply Hb; left|]. intros b'. apply IH. intros b2 a' Ha. apply Hb. by right.
Qed.
Lemma preserves_call (c : LM Z) : preserves R c → preserves R (call c).
Proof. intros Hc s. unfold call. specialize (Hc s). destruct (c s); naive_solver. Qed.
Lemma preserves_undefined {A} : preserves R (undefined (A:=A)).
Proof. done. Qed.
Lemma preserves_get : preserves R get.
Proof. intros s. change (R s s). reflexivity. Qed.
Lemma preserves_deref p : preserves R (deref p).
Proof. destruct p; [apply preserves_ret|done]. Qed.
Lemma preserves_decode {A} (d : option A) : preserves R (decode_pb d).
Proof. destruct d; [apply preserves_ret|]. intros s. split; [done|]. change (R s s). reflexivity. Qed.
(** What was decoded or read is known to the rest. *)
Lemma preserves_decode_bind {A B} (d : option A) (k : A → LM B) :
  (∀ a, d = Some a → preserves R (k a)) → preserves R (decode_pb d ≫= k).
Proof.
  intros Hk. destruct d as [a|]; [by apply Hk|]. intros s. split; [done|]. change (R s s). reflexivity.
Qed.
Lemma preserves_deref_bind {B} p (k : bytes → LM B) :
  (∀ b, p = Some b → preserves R (k b)) → preserves R (deref p ≫= k).
Proof. intros Hk. destruct p as [b|]; [by apply Hk|done]. Qed.
Lemma preserves_if {A} (b : bool) (c d : LM A) :
  preserves R c → preserves R d → preserves R (if b then c else d).
Proof. by destruct b. Qed.
Lemma preserves_decide {A} P `{Decision P} (c d : LM A) :
  preserves R c → preserves R d →
  preserves R (match decide P with left _ => c | right _ => d end).
Proof. by destruct (decide P). Qed.
End rules.

(** The possible results of a program from a given ledger. *)
Definition spec {A} (c : LM A) (s : ledger) (Q : A → ledger → Prop) (E : Z → ledger → Prop) : Prop :=
  match c s with Value a s' => Q a s' | Return st s' => E st s' | Undefined => True end.
Lemma spec_bind {A B} (c : LM A) (k : A → LM B) s Q E :
  spec c s (λ a s', spec (k a) s' Q E) E → spec (c ≫= k) s Q E.
Proof. unfold spec, mbind, LM_bind. by destruct (c s). Qed.
Lemma spec_preserves {A} R (c : LM A) s Q (E : Z → ledger → Prop) :
  preserves R c → (∀ a s', R s s' → Q a s') → (∀ s', R s s' → E LEDGER_ERROR_DECODING s') →
  spec c s Q E.
Proof. intros Hc HQ HE. unfold spec. specialize (Hc s). destruct (c s); naive_solver. Qed.
Lemma spec_decode {A} (d : option A) s Q E :
  (∀ a, d = Some a → Q a s) → (d = None → E LEDGER_ERROR_DECODING s) → spec (decode_pb d) s Q E.
Proof. unfold spec. destruct d; simpl; auto. Qed.
Lemma spec_run (c : LM Z) s (P : Z → ledger → Prop) st s' :
  spec c s P P → run c s = Some (st, s') → P st s'.
Proof. unfold spec, run. destruct (c s); naive_solver. Qed.
End preserves.

Create HintDb ledger.
(** Decomposes a program into its steps; the database holds what is known of calls. *)
Ltac step_preserves :=
  repeat first
    [ progress (intros; cbv beta)
    | solve [eauto 2 with ledger nocore]
    | apply preserves_bind; [typeclasses eauto|..]
    | apply preserves_for; [typeclasses eauto|]
    | apply preserves_fold; [typeclasses eauto|]
    | apply preserves_call
    | apply preserves_ret; typeclasses eauto
    | apply preserves_get; typeclasses eauto
    | apply preserves_deref; typeclasses eauto
    | apply preserves_decode; typeclasses eauto
    | apply preserves_undefined
    | apply preserves_if
    | apply preserves_decide
    | match goal with |- context [match ?x with _ => _ end] => destruct x end
    | progress cbv zeta ].

(** ** The frame of a block: only the commit touches the state and the counter *)
Section frame.
Context {STORE : Type}.
Definition same_state (s s' : ledger STORE) : Prop :=
  state s' = state s ∧ sequence_number s' = sequence_number s.
#[export] Instance same_state_preorder : PreOrder same_state.
Proof. split; [by split|]. intros s1 s2 s3 [] []. split; congruence. Qed.

(** What reading leaves alone: everything except the errors reported. *)
Definition same_but_events (s s' : ledger STORE) : Prop :=
  same_state s s' ∧ updates s' = updates s ∧
  root_certs_orderer s' = root_certs_orderer s ∧ root_certs_apps s' = root_certs_apps s.
#[export] Instance same_but_events_preorder : PreOrder same_but_events.
Proof.
  split; [by repeat split|]. intros s1 s2 s3 ([] & ? & ? & ?) ([] & ? & ? & ?).
  repeat split; congruence.
Qed.

(** The updates only grow: an entry that is there stays as it is, and new entries are
    as [V] says. *)
Definition extends (V : bytes → kvs_value_t → Prop) (s s' : ledger STORE) : Prop :=
  sorted (updates s) → sorted (updates s') ∧
  (∀ k x, map_find (updates s) k = Some x → map_find (updates s') k = Some x) ∧
  (∀ k x, map_find (updates s') k = Some x → map_find (updates s) k = Some x ∨ V k x).
#[export] Instance extends_preorder V : PreOrder (extends V).
Proof.
  split; [by intros s Hs; split_and!; auto|].
  intros s1 s2 s3 H1 H2 Hs. destruct (H1 Hs) as (Hs2 & ? & Hv1).
  destruct (H2 Hs2) as (? & ? & Hv2). split_and!; [done|by auto|].
  intros k x Hx. destruct (Hv2 k x Hx); auto.
Qed.
End frame.

(** Two relations at once *)
Section both.
Context {STORE : Type} (R1 R2 : ledger STORE → ledger STORE → Prop).
Definition both (s s' : ledger STORE) : Prop := R1 s s' ∧ R2 s s'.
#[export] Instance both_preorder `{!PreOrder R1} `{!PreOrder R2} : PreOrder both.
Proof.
  split; [intros s; split; reflexivity|]. intros s1 s2 s3 [] []. by split; transitivity s2.
Qed.
Lemma preserves_both {A} (c : LM STORE A) : preserves R1 c → preserves R2 c → preserves both c.
Proof.
  intros H1 H2 s. specialize (H1 s). specialize (H2 s). unfold both. destruct (c s); naive_solver.
Qed.
End both.

Section ledger_proof.
Context `{Proto} `{OpenSSL} `{Stack}.
Local Abbreviation LM := (LM X509_STORE).
Local Abbreviation ledger := (ledger X509_STORE).

Lemma log_same e : preserves same_state (LOG_ERR (STORE:=X509_STORE) e).
Proof. intros s. by split. Qed.
Lemma stores_same o a : preserves same_state (set_stores (STORE:=X509_STORE) o a).
Proof. intros s. by split. Qed.
Lemma updates_same u : preserves same_state (set_updates (STORE:=X509_STORE) u).
Proof. intros s. by split. Qed.
Hint Resolve log_same stores_same updates_same : ledger.

Lemma parse_config_same d : preserves same_state (parse_config d).
Proof.
  unfold parse_config, parse_group, parse_org, parse_msp, read_store, write_store. step_preserves.
Qed.
Lemma components_same key : preserves same_state (components key).
Proof. unfold components. step_preserves. Qed.
Hint Resolve components_same : ledger.
Lemma check_ns_reads_same e r n : preserves same_state (check_ns_reads e r n).
Proof.
  unfold check_ns_reads, check_range_read, check_plain_read, check_read. step_preserves.
Qed.
Lemma insert_update_same k v ver : preserves same_state (insert_update k v ver).
Proof. unfold insert_update. step_preserves. Qed.
Hint Resolve insert_update_same : ledger.
Lemma apply_ns_writes_same v w n : preserves same_state (apply_ns_writes v w n).
Proof. unfold apply_ns_writes, ecc_write, plain_write. step_preserves. Qed.
Lemma validate_ecc_same f a p r w : preserves same_state (validate_ecc_tx f a p r w).
Proof. unfold validate_ecc_tx. step_preserves. Qed.
Hint Resolve check_ns_reads_same apply_ns_writes_same validate_ecc_same : ledger.
Lemma parse_endorser_same d v : preserves same_state (parse_endorser_transaction d v).
Proof. unfold parse_endorser_transaction, parse_action, process_results. step_preserves. Qed.
Hint Resolve parse_config_same parse_endorser_same : ledger.
Lemma process_envelope_same b i d : preserves same_state (process_envelope b i d).
Proof. unfold process_envelope. step_preserves. Qed.
Lemma verify_block_same m h g : preserves same_state (verify_block_signature m h g).
Proof. unfold verify_block_signature. step_preserves. Qed.

Section updates.
Context (V : bytes → kvs_value_t → Prop).
Lemma log_extends e : preserves (extends V) (LOG_ERR (STORE:=X509_STORE) e).
Proof. intros s Hs. by split_and!; auto. Qed.
Lemma stores_extends o a : preserves (extends V) (set_stores (STORE:=X509_STORE) o a).
Proof. intros s Hs. by split_and!; auto. Qed.
Lemma insert_update_extends k v ver : V k (v, ver) → preserves (extends V) (insert_update k v ver).
Proof.
  intros Hv s Hs. simpl. split; [by apply insert_sorted|]. split; intros k' x.
  - rewrite find_insert //. case_bool_decide as E; [subst|done]. by intros ->.
  - rewrite find_insert //. case_bool_decide as E; [subst|by left].
    intros [= <-]. destruct (map_find (updates s) k') as [y|]; [by left|by right].
Qed.
#[local] Hint Resolve log_extends stores_extends : ledger.

Lemma parse_config_extends d : preserves (extends V) (parse_config d).
Proof.
  unfold parse_config, parse_group, parse_org, parse_msp, read_store, write_store. step_preserves.
Qed.
Lemma check_ns_reads_extends e r n : preserves (extends V) (check_ns_reads e r n).
Proof. unfold check_ns_reads, check_range_read, check_plain_read, check_read, components. step_preserves. Qed.
Lemma validate_ecc_extends f a p r w : preserves (extends V) (validate_ecc_tx f a p r w).
Proof. unfold validate_ecc_tx. step_preserves. Qed.
#[local] Hint Resolve parse_config_extends check_ns_reads_extends validate_ecc_extends : ledger.

Lemma plain_write_extends ns ver w : has_prefix (bs "ecc") ns = false →
  (∀ k val, write_names ns w k → write_value w = Some val → V k (val, ver)) →
  preserves (extends V) (plain_write ns ver w).
Proof.
  intros Hns HV. apply preserves_deref_bind. intros raw Hraw. apply preserves_deref_bind. intros val Hval.
  apply insert_update_extends, HV; [|done]. apply write_plain; [done|]. by rewrite Hns.
Qed.
Lemma ecc_write_extends ns ver ws w : has_prefix (bs "ecc") ns = true →
  (∀ k val, write_names ns w k → write_value w = Some val → V k (val, ver)) →
  preserves (extends V) (ecc_write ns ver ws w).
Proof.
  intros Hns HV. apply preserves_deref_bind. intros raw Hraw. case_decide as Hc.
  - unfold components. destruct (append_components _ _) as [comps|] eqn:E; [|done].
    destruct (append_components_inv _ _ _ E) as (parts & rest & Hparts & -> & Hbuf).
    change (preserves (extends V) (val ← deref (write_value w);
      insert_update (ns ++ bs "." ++ dotted parts) val ver;; mret (map_insert ws (bs "." ++ dotted parts) val))).
    apply preserves_deref_bind. intros val Hval. apply preserves_bind; [exact _| |intros; apply preserves_ret; exact _].
    apply insert_update_extends, HV; [|done]. apply (write_composite ns w raw parts); [done..|]. split; [done|by exists rest].
  - change (preserves (extends V) (val ← deref (write_value w);
      insert_update (ns ++ bs "." ++ cstr raw) val ver;; mret (map_insert ws (cstr raw) val))).
    apply preserves_deref_bind. intros val Hval. apply preserves_bind; [exact _| |intros; apply preserves_ret; exact _].
    apply insert_update_extends, HV; [|done]. by apply write_plain.
Qed.
Lemma apply_ns_writes_extends ver ws n : (∀ k val, ns_writes n k val → V k (val, ver)) →
  preserves (extends V) (apply_ns_writes ver ws n).
Proof.
  intros HV. apply preserves_deref_bind. intros data Hdata. apply preserves_decode_bind; [exact _|]. intros kvs Hkvs.
  apply preserves_deref_bind. intros ns Hns. cbv zeta.
  assert (Hw : ∀ w, w ∈ writes kvs →
    cstr ns = bs "lscc" ∨ cstr ns = bs "ercc" ∨ has_prefix (bs "ecc") (cstr ns) = true →
    ∀ k val, write_names (cstr ns) w k → write_value w = Some val → V k (val, ver)).
  { intros w Hin Hc k val Hk Hval. apply HV. by exists data, kvs, ns, w. }
  case_bool_decide as E1; [|case_bool_decide as E2; [|destruct (has_prefix _ _) eqn:E3]].
  - apply preserves_bind; [exact _| |intros; apply preserves_ret; exact _]. apply preserves_for_in; [exact _|]. intros w Hin.
    apply plain_write_extends; [by rewrite E1|]. by apply Hw; [|left].
  - apply preserves_bind; [exact _|step_preserves|intros _]. apply preserves_bind; [exact _| |intros; apply preserves_ret; exact _].
    destruct (writes kvs) as [|w l]; [done|]. apply plain_write_extends; [by rewrite E2|]. apply Hw; [left|by right; left].
  - apply preserves_fold_in; [exact _|]. intros ws' w Hin. apply ecc_write_extends; [done|]. by apply Hw; [|right; right].
  - apply preserves_ret; exact _.
Qed.
Lemma process_results_extends f a c res sets ver : decode_TxReadWriteSet res = Some sets →
  (∀ n k val, n ∈ sets → ns_writes n k val → V k (val, ver)) →
  preserves (extends V) (process_results f a c res ver).
Proof.
  intros Hsets HV. apply preserves_decode_bind; [exact _|]. rewrite Hsets. intros ? [= <-]. apply preserves_deref_bind. intros name _.
  apply preserves_bind; [exact _|step_preserves|intros [valid rs]]. destruct (negb valid); [apply preserves_ret; exact _|].
  apply preserves_bind; [exact _| |step_preserves]. apply preserves_fold_in; [exact _|]. intros ws n Hn.
  apply apply_ns_writes_extends. intros k val. by apply HV.
Qed.
Lemma parse_action_extends payload ver : (∀ k val, action_writes payload k val → V k (val, ver)) →
  preserves (extends V) (parse_action payload ver).
Proof.
  intros HV. unfold parse_action.
  apply preserves_deref_bind. intros p Hp. apply preserves_decode_bind; [exact _|]. intros ap Hap.
  apply preserves_deref_bind. intros cpp _. apply preserves_decode_bind; [exact _|]. intros input _.
  apply preserves_deref_bind. intros input' _. apply preserves_decode_bind; [exact _|]. intros args _. cbv zeta.
  apply preserves_deref_bind. intros prp Hprp. apply preserves_decode_bind; [exact _|]. intros ext Hext.
  apply preserves_deref_bind. intros ext' Hext'. apply preserves_decode_bind; [exact _|]. intros cc Hcc.
  destruct (results cc) as [res|] eqn:Hres; [|apply preserves_ret; exact _].
  assert (Hall : action_results payload = decode_TxReadWriteSet res).
  { unfold action_results. rewrite Hp /= Hap /= Hprp /= Hext /= Hext' /= Hcc /= Hres. done. }
  destruct (decode_TxReadWriteSet res) as [sets|] eqn:Hsets.
  - eapply process_results_extends; [exact Hsets|]. intros n k val Hn Hk. apply HV. exists sets, n. by rewrite Hall.
  - unfold process_results. rewrite Hsets. apply preserves_decode_bind; [exact _|done].
Qed.
Lemma parse_endorser_extends tx_data ver : (∀ k val, transaction_writes tx_data k val → V k (val, ver)) →
  preserves (extends V) (parse_endorser_transaction tx_data ver).
Proof.
  intros HV. apply preserves_decode_bind; [exact _|]. intros actions Hactions.
  apply preserves_bind; [exact _| |intros; apply preserves_ret; exact _]. apply preserves_for_in; [exact _|].
  intros payload Hin. apply parse_action_extends. intros k val Hk. apply HV. by exists actions, payload.
Qed.
Lemma process_envelope_extends b i data :
  (∀ tx_data k val, envelope_transaction data = Some tx_data → transaction_writes tx_data k val →
    V k (val, mkVersion (number (blk_header b)) (Z.of_nat i))) →
  preserves (extends V) (process_envelope b i data).
Proof.
  intros HV. unfold process_envelope. cbv zeta. apply preserves_decode_bind; [exact _|]. intros env Henv.
  apply preserves_deref_bind. intros pl Hpl. apply preserves_decode_bind; [exact _|]. intros payload Hpayload.
  apply preserves_deref_bind. intros sh _. apply preserves_decode_bind; [exact _|]. intros header _.
  apply preserves_deref_bind. intros cr _. apply preserves_decode_bind; [exact _|]. intros identity _.
  apply preserves_bind; [exact _|step_preserves|intros _]. apply preserves_deref_bind. intros ch Hch.
  apply preserves_decode_bind; [exact _|]. intros chdr Hchdr. apply preserves_bind; [exact _|step_preserves|intros _].
  destruct (ch_type chdr =? CONFIG); [step_preserves|].
  destruct (Z.eqb_spec (ch_type chdr) ENDORSER_TRANSACTION) as [Htype|]; [|step_preserves].
  apply preserves_deref_bind. intros d Hd. apply preserves_bind; [exact _| |intros; apply preserves_ret; exact _].
  apply preserves_call, parse_endorser_extends. intros k val. apply HV.
  unfold envelope_transaction. rewrite Henv /= Hpl /= Hpayload /= Hch /= Hchdr /=. by rewrite bool_decide_eq_true_2.
Qed.
End updates.
End ledger_proof.
