(* ===== verification/LedgerTheorems.v ===== *)
(** * The trusted ledger: theorems

    Blocks are applied atomically and in sequence; the versions of a key grow; a
    transaction that read stale data has no effect; what is not checked. *)
From stdpp Require Import base list numbers option strings.
From Stdlib Require Import ZArith Lia.
From S2P Require Import Prelude ParsonText CNum Utils JsonSpec Base64 StdMap Ledger LedgerSpec LedgerProof.
From Stdlib Require Import ssreflect.
Local Open Scope Z_scope.

(** ** The commit *)
Lemma find_commit (u st : kvs_t) k : sorted u →
  map_find (foldl (λ st e, map_assign st e.1 e.2) st u) k =
    match map_find u k with Some x => Some x | None => map_find st k end.
Proof.
  revert st. induction u as [|[k1 v1] u IH]; intros st; [done|]. simpl.
  intros [Hu Ha]%sorted_cons. rewrite IH // find_assign.
  destruct (decide (k1 = k)) as [->|Hne].
  - rewrite (find_above u k) //. by case_bool_decide.
  - destruct (map_find u k); [done|]. by case_bool_decide.
Qed.
Lemma commit_sorted (u st : kvs_t) : sorted st →
  sorted (foldl (λ st e, map_assign st e.1 e.2) st u).
Proof. revert st. induction u as [|e u IH]; intros st Hs; [done|]. by apply IH, assign_sorted. Qed.

Lemma cmp_version_lt v1 v2 : cmp_version v1 v2 = -1 ↔ version_lt v1 v2.
Proof.
  unfold cmp_version, version_lt. rewrite !Z.gtb_ltb.
  destruct (block_num v2 <? block_num v1) eqn:E1; [lia|].
  destruct (block_num v1 <? block_num v2) eqn:E2; [lia|].
  destruct (tx_num v2 <? tx_num v1) eqn:E3; [lia|].
  destruct (tx_num v1 <? tx_num v2) eqn:E4; lia.
Qed.

Section theorems.
Context `{Proto} `{OpenSSL} `{Stack}.
Local Abbreviation LM := (LM X509_STORE).
Local Abbreviation ledger := (ledger X509_STORE).

(** The entry is the write of a transaction of the block that is not marked invalid, with
    the version of that transaction. *)
Definition from_block (b : Block) (k : bytes) (x : kvs_value_t) : Prop :=
  ∃ i, block_writes b i k x.1 ∧ x.2 = mkVersion (number (blk_header b)) (Z.of_nat i).

(** The loop over the envelopes. *)
Lemma preserves_envelopes (R : ledger → ledger → Prop) {HR : PreOrder R} b (f : nat → bytes → LM unit) :
  (∀ i d, blk_data b !! i = Some d → preserves R (f i d)) →
  preserves R (for_list (imap pair (blk_data b)) (λ '(i, d), f i d)).
Proof.
  intros Hf. apply preserves_for_in; [exact _|]. intros [i d] (j & Hj)%list_elem_of_lookup.
  rewrite list_lookup_imap in Hj. destruct (blk_data b !! j) eqn:E; simplify_eq/=. by apply Hf.
Qed.

(** What parsing a block does to the state and the counter: nothing, with an error, or
    the commit of a set of updates made by the block's transactions. *)
Definition applied (d : bytes) (s : ledger) (st : Z) (s' : ledger) : Prop :=
  (st ≠ LEDGER_SUCCESS ∧ same_state s s') ∨
  ∃ block,
    decode_Block d = Some block ∧ st = LEDGER_SUCCESS ∧
    wrap32 (number (blk_header block)) = wrap32 (sequence_number s + 1) ∧
    sorted (updates s') ∧ (∀ k x, map_find (updates s') k = Some x → from_block block k x) ∧
    sequence_number s' = wrap32 (number (blk_header block)) ∧
    state s' = foldl (λ st e, map_assign st e.1 e.2) (state s) (updates s').

Lemma spec_deref p s Q (E : Z → ledger → Prop) : (∀ b, p = Some b → Q b s) → spec (deref p) s Q E.
Proof. destruct p as [b|]; unfold spec; simpl; auto. Qed.
Lemma rejected d s s' : same_state s s' → applied d s LEDGER_ERROR_DECODING s'.
Proof. intros Hs. by left. Qed.

Lemma parse_block_applied d s st s' : run (parse_block d) s = Some (st, s') → applied d s st s'.
Proof.
  apply (spec_run _ _ (applied d s)). unfold parse_block.
  apply spec_bind, spec_decode; [|intros _; by apply rejected]. intros block Ed. apply spec_bind.
  unfold spec at 1, get. cbv beta zeta.
  destruct (wrap32 _ =? _) eqn:Eseq; cbn [negb]; [|by left]. apply Z.eqb_eq in Eseq.
  apply spec_bind. eapply (spec_preserves same_state); [unfold metadata_at; step_preserves| |apply rejected].
  intros mb s1 F1. apply spec_bind, spec_decode; [|intros _; by apply rejected].
  intros metadata _. apply spec_bind.
  eapply (spec_preserves same_state).
  { apply preserves_for; [typeclasses eauto|]. intros; apply verify_block_same. }
  2: { intros s2 F2. apply rejected. by transitivity s1. }
  intros _ s2 F2. apply spec_bind.
  assert (H02 : same_state s s2) by by transitivity s1.
  apply spec_deref. intros filter Hfilter. apply spec_bind.
  destruct (_ <? _)%nat; [done|]. unfold spec at 1, mret, LM_ret. apply spec_bind.
  unfold spec at 1, set_updates.
  set (s4 := mkLedger _ _ _ _ _ _ _). apply spec_bind.
  eapply (spec_preserves (both same_state (extends (from_block block)))).
  { apply preserves_envelopes; [typeclasses eauto|]. intros i data Hi.
    case_decide as Hvalid; [by apply preserves_ret; typeclasses eauto|].
    apply preserves_both; [apply process_envelope_same|apply process_envelope_extends].
    intros tx k val Htx Hw. exists i. split; [|done]. exists filter, data, tx. split_and!; [done| |done..].
    intros E. by rewrite E in Hvalid. }
  2: { intros s5 [F5 _]. apply rejected. by transitivity s4. }
  intros _ s5 [F5 Hext]. unfold spec, commit_state_updates, mbind, LM_bind, get.
  destruct F5 as [Hst Hsq], H02 as [Hst0 Hsq0]. destruct Hext as (Hso & _ & Hin); [constructor|].
  rewrite Hsq /= Hsq0 Eseq Z.eqb_refl /=. right. exists block. simpl. rewrite Hst /= Hst0.
  split_and!; try done. intros k x Hx. by destruct (Hin k x Hx).
Qed.

(** ** Stale reads *)

Lemma has_version_conflict_spec key st v :
  has_version_conflict key st v = 1 ↔
  ∃ value cur, map_find st key = Some (value, cur) ∧ version_lt v cur.
Proof.
  unfold has_version_conflict. setoid_rewrite <- cmp_version_lt.
  destruct (map_find st key) as [[value cur]|]; [|naive_solver].
  destruct (cmp_version v cur =? -1) eqn:E; [apply Z.eqb_eq in E|apply Z.eqb_neq in E]; naive_solver.
Qed.

(** A loop body that only looks at the ledger and never makes an invalid transaction
    valid again. *)
Definition reading {A} (body : reads_t → A → LM reads_t) : Prop := ∀ r a s,
  spec (body r a) s (λ r' s', s' = s ∧ (r.1 = false → r'.1 = false)) (λ _ s', s' = s).
(** ... and that finds a conflict at [a]. *)
Definition detects {A} (body : reads_t → A → LM reads_t) (a : A) (s : ledger) : Prop := ∀ r,
  spec (body r a) s (λ r' s', s' = s ∧ r'.1 = false) (λ _ s', s' = s).

Lemma spec_mono {A} (c : LM A) s (Q Q' : A → ledger → Prop) (E E' : Z → ledger → Prop) :
  (∀ a s', Q a s' → Q' a s') → (∀ st s', E st s' → E' st s') → spec c s Q E → spec c s Q' E'.
Proof. intros HQ HE. unfold spec. destruct (c s); auto. Qed.

Lemma fold_reading {A} (body : reads_t → A → LM reads_t) l :
  reading body → reading (λ r _, fold_list l r body : LM reads_t) (A:=unit).
Proof.
  intros Hb. intros r u s. revert r. induction l as [|a l IH]; intros r; [by split|].
  apply spec_bind. eapply spec_mono; [| |apply Hb].
  - intros r' s' [-> Hr]. eapply spec_mono; [| |apply IH]; naive_solver.
  - done.
Qed.
Lemma fold_detects {A} (body : reads_t → A → LM reads_t) l a s r :
  reading body → a ∈ l → detects body a s →
  spec (fold_list l r body) s (λ r' s', s' = s ∧ r'.1 = false) (λ _ s', s' = s).
Proof.
  intros Hb Hin Ha. revert r. induction l as [|x l IH]; intros r; [by apply not_elem_of_nil in Hin|].
  apply spec_bind. apply elem_of_cons in Hin as [->|Hin].
  - eapply spec_mono; [| |apply Ha]; [|done]. intros r' s' [-> Hr].
    eapply spec_mono; [| |apply (fold_reading body l Hb r' tt)]; naive_solver.
  - eapply spec_mono; [| |apply Hb]; [|done]. intros r' s' [-> _]. by apply IH.
Qed.

Lemma check_read_spec e ns key kkey v r s :
  spec (check_read e ns key kkey v r) s
    (λ r' s', s' = s ∧ r'.1 = r.1 && negb (conflict s key v)) (λ _ s', s' = s).
Proof.
  unfold spec, check_read, mbind, LM_bind, get. destruct r as [valid rs]. simpl.
  destruct (conflict s key v); simpl; [by rewrite andb_false_r|by rewrite andb_true_r].
Qed.
Lemma range_reading e ns : reading (check_range_read e ns).
Proof.
  intros r kv s. apply spec_bind, spec_deref. intros raw _. apply spec_bind.
  unfold components. destruct (append_components _ _); [|done]. unfold spec at 1, mret, LM_ret.
  eapply spec_mono; [| |apply check_read_spec]; [|done]. intros r' s' [-> ->]. split; [done|].
  by intros ->.
Qed.
Lemma plain_reading e ns : reading (check_plain_read e ns).
Proof.
  intros r kv s. apply spec_bind, spec_deref. intros raw _.
  eapply spec_mono; [| |apply check_read_spec]; [|done]. intros r' s' [-> ->]. split; [done|].
  by intros ->.
Qed.
Lemma ns_reading e : reading (check_ns_reads e).
Proof.
  intros r n s. apply spec_bind, spec_deref. intros data _. apply spec_bind, spec_decode; [|done].
  intros kvs _. apply spec_bind, spec_deref. intros ns _. apply spec_bind.
  eapply spec_mono; [| |apply (fold_reading (λ r raw_reads, fold_list raw_reads r _) _); [|exact tt]];
    [|done|].
  - intros r' s' [-> Hr]. eapply spec_mono; [| |apply (fold_reading _ _ (plain_reading _ _) r' tt)]; naive_solver.
  - intros r' l s'. apply (fold_reading _ l (range_reading _ _) r' tt).
Qed.

Lemma conflict_stale s k v value cur :
  map_find (state s) k = Some (value, cur) ∨ map_find (updates s) k = Some (value, cur) → version_lt v cur →
  conflict s k v = true.
Proof.
  intros Hk Hlt. unfold conflict. apply orb_true_iff. rewrite !Z.eqb_eq !has_version_conflict_spec. naive_solver.
Qed.

(** A stale read is found, in the loop over the range queries or in that over the reads. *)
Lemma stale_detects e n data kvs ns rd k s :
  rwset n = Some data → decode_KVRWSet data = Some kvs → rw_ns n = Some ns →
  read_names (cstr ns) kvs rd k → conflict s k (read_version rd) = true →
  detects (check_ns_reads e) n s.
Proof.
  intros Hdata Hkvs Hns Hrd Hc r. unfold check_ns_reads. rewrite Hdata Hns.
  apply spec_bind, spec_deref. intros ? [= <-]. rewrite Hkvs.
  apply spec_bind, spec_decode; [|done]. intros ? [= <-].
  apply spec_bind, spec_deref. intros ? [= <-]. apply spec_bind.
  assert (Hrange : reading (λ r raw_reads, fold_list raw_reads r (check_range_read e (cstr ns)))).
  { intros r' l s'. apply (fold_reading _ l (range_reading _ _) r' tt). }
  destruct Hrd as [raw Hin Hraw|raw_reads raw parts Hq Hin Hraw Hparts].
  - eapply spec_mono; [| |apply (fold_reading _ _ Hrange r tt)]; [|done].
    intros r' s' [-> _]. apply (fold_detects _ _ rd); [apply plain_reading|done|].
    intros r2. unfold check_plain_read. rewrite Hraw. apply spec_bind, spec_deref. intros ? [= <-].
    eapply spec_mono; [| |apply check_read_spec]; [|done]. intros r3 s3 [-> ->].
    by rewrite Hc andb_false_r.
  - eapply spec_mono; [| |apply (fold_detects _ _ raw_reads s r Hrange Hq)]; [|done|].
    + intros r' s' [-> Hr]. eapply spec_mono; [| |apply (fold_reading _ _ (plain_reading _ _) r' tt)]; naive_solver.
    + intros r1. apply (fold_detects _ _ rd); [apply range_reading|done|].
      intros r2. unfold check_range_read. rewrite Hraw. apply spec_bind, spec_deref. intros ? [= <-]. apply spec_bind.
      unfold spec at 1. rewrite (proj2 (components_spec raw s (dotted parts))); [by exists parts|].
      eapply spec_mono; [| |apply check_read_spec]; [|done]. intros r3 s3 [-> ->].
      by rewrite Hc andb_false_r.
Qed.

Lemma stale_action payload v s : action_stale s payload →
  spec (parse_action payload v) s (λ _ s', s' = s) (λ _ s', s' = s).
Proof.
  intros (sets & Hsets & n & data & kvs & ns & rd & k & value & cur & Hn & Hd & Hk & Hns & Hrd & Hf & Hlt).
  unfold parse_action, action_results in *.
  apply spec_bind, spec_deref. intros p Hp. apply spec_bind, spec_decode; [|done]. intros ap Hap.
  apply spec_bind, spec_deref. intros cpp _. apply spec_bind, spec_decode; [|done]. intros input _.
  apply spec_bind, spec_deref. intros input' _. apply spec_bind, spec_decode; [|done]. intros args _.
  apply spec_bind, spec_deref. intros prp Hprp. apply spec_bind, spec_decode; [|done]. intros ext Hext.
  apply spec_bind, spec_deref. intros ext' Hext'. apply spec_bind, spec_decode; [|done]. intros cc Hcc.
  destruct (results cc) as [res|] eqn:Hres; [|done].
  rewrite Hp /= Hap /= Hprp /= Hext /= Hext' /= Hcc /= Hres /= in Hsets.
  unfold process_results. apply spec_bind, spec_decode; [|done]. rewrite Hsets. intros ? [= <-].
  apply spec_bind, spec_deref. intros name _. apply spec_bind.
  eapply spec_mono; [| |apply (fold_detects _ _ n); [apply ns_reading|done|]]; [|done|].
  - by intros [valid rs] s1 [-> Hv]; simpl in Hv; subst valid.
  - apply (stale_detects _ n data kvs ns rd k); [done..|]. by apply (conflict_stale s k _ value cur).
Qed.

(** C4. Stale reads have no effect: an action that read an older version of a key, by itself
    or in a range query, than the state or an earlier transaction of the same block holds
    is skipped.  A transaction all of whose actions did (a transaction of Fabric has one
    action) has no effect at all: no update, no reported error, nothing of the ledger
    changes. *)
Theorem stale_read_no_effect tx_data v s actions st s'
    (Hactions : decode_Transaction tx_data = Some actions) (Hstale : Forall (action_stale s) actions)
    (Hrun : run (parse_endorser_transaction tx_data v) s = Some (st, s')) :
  s' = s.
Proof.
  revert Hrun. apply (spec_run _ _ (λ _ s', s' = s)). unfold parse_endorser_transaction.
  apply spec_bind, spec_decode; [|done]. rewrite Hactions. intros ? [= <-]. apply spec_bind. clear Hactions.
  induction Hstale as [|payload actions Hp _ IH]; [done|]. apply spec_bind.
  eapply spec_mono; [| |by apply stale_action]; [|done]. by intros _ s1 ->.
Qed.

(** ** Blocks *)

(** C19. [parse_block] is atomic and sequential.  It succeeds only for the block whose
    number follows the last one (modulo 2^32); the counter then is that number, and every
    key either keeps its entry or has a value that a transaction of this block, not marked
    invalid in the block's metadata, writes to this key, with the version of that
    transaction.  If it does not succeed, neither the state nor the counter changes, even
    if the error occurs in the last transaction. *)
Theorem parse_block_atomic d s st s' (Hrun : run (parse_block d) s = Some (st, s')) :
  if bool_decide (st = LEDGER_SUCCESS) then
    ∃ block, decode_Block d = Some block ∧
      wrap32 (number (blk_header block)) = wrap32 (sequence_number s + 1) ∧
      sequence_number s' = wrap32 (number (blk_header block)) ∧
      ∀ k, map_find (state s') k = map_find (state s) k ∨
           ∃ i val, block_writes block i k val ∧
             map_find (state s') k = Some (val, mkVersion (number (blk_header block)) (Z.of_nat i))
  else state s' = state s ∧ sequence_number s' = sequence_number s.
Proof.
  apply parse_block_applied in Hrun as [[Hst Hsame]|(b & Hd & -> & Hn & Hso & Hin & Hseq & Hs)].
  { rewrite bool_decide_eq_false_2 //. }
  rewrite bool_decide_eq_true_2 //. exists b. split_and!; [done..|]. intros k.
  rewrite Hs find_commit //. destruct (map_find (updates s') k) as [[val v]|] eqn:E; [|by left].
  right. destruct (Hin k _ E) as (i & Hw & Hv). exists i, val. split; [done|]. simpl in Hv. by rewrite Hv.
Qed.

(** An update made by an earlier transaction of a block is never replaced by a later
    one: [updates->insert] keeps the first value of a key, so that of two valid writes
    of one key in a block the first is committed. *)
Theorem first_write_is_kept tx_data v s st s'
    (Hso : sorted (updates s)) (Hrun : run (parse_endorser_transaction tx_data v) s = Some (st, s')) :
  sorted (updates s') ∧
  (∀ k x, map_find (updates s) k = Some x → map_find (updates s') k = Some x) ∧
  (∀ k x, map_find (updates s') k = Some x → map_find (updates s) k = Some x ∨ x.2 = v).
Proof.
  pose proof (parse_endorser_extends (λ _ x, x.2 = v) tx_data v (λ _ _ _, eq_refl) s) as He.
  unfold run in Hrun. destruct (parse_endorser_transaction tx_data v s); simplify_eq.
  - by apply He.
  - destruct He as [_ He]. by apply He.
Qed.

(** ** Chains of blocks *)

(** What happens to a ledger: it joins a channel, or it gets a block; the numbers of the
    blocks are below the last 32-bit number. *)
Inductive reachable : ledger → Prop :=
  | reachable_initial : reachable initial_ledger
  | reachable_init s st s' : reachable s → run init_ledger s = Some (st, s') → reachable s'
  | reachable_block d s st s' :
      reachable s →
      (∀ b, decode_Block d = Some b → 0 ≤ number (blk_header b) < 2 ^ 32 - 1) →
      run (parse_block d) s = Some (st, s') → reachable s'.

(** The entries of a reachable state: sorted, and no version is from the future. *)
Definition state_ok (s : ledger) : Prop :=
  sorted (state s) ∧ 0 ≤ sequence_number s < 2 ^ 32 ∧
  ∀ k x, map_find (state s) k = Some x →
    sequence_number s < 2 ^ 32 - 1 ∧ 0 ≤ block_num x.2 ≤ sequence_number s.

Lemma block_number_next (n q : Z) :
  0 ≤ n < 2 ^ 32 - 1 → 0 ≤ q < 2 ^ 32 → wrap32 n = wrap32 (q + 1) →
  wrap32 n = n ∧ (q = 2 ^ 32 - 1 ∧ n = 0 ∨ q < 2 ^ 32 - 1 ∧ n = q + 1).
Proof.
  unfold wrap32. intros Hn Hq E. rewrite Z.mod_small in E; [lia|].
  rewrite Z.mod_small; [lia|]. split; [done|]. destruct (decide (q = 2 ^ 32 - 1)) as [->|Hne].
  - left. split; [done|]. rewrite E. reflexivity.
  - right. split; [lia|]. rewrite Z.mod_small in E; lia.
Qed.

Lemma reachable_state_ok s : reachable s → state_ok s.
Proof.
  induction 1 as [|s st s' _ IH Hrun|d s st s' _ IH Hb Hrun].
  - split_and!; [constructor|done..|]. by intros k x.
  - revert Hrun. unfold run, init_ledger, mbind, LM_bind, get.
    destruct (X509_STORE_new 0); simpl; intros [= <- <-]; exact IH.
  - destruct IH as (Hs & Hq & Hv).
    apply parse_block_applied in Hrun as [[_ [E1 E2]]|(b & Hd & -> & Hn & Hso & Hin & Hseq & Hst)].
    { unfold state_ok. by rewrite E1 E2. }
    specialize (Hb b Hd). destruct (block_number_next _ _ Hb Hq Hn) as [Hw Hcase].
    unfold state_ok. rewrite Hst Hseq Hw. split_and!; [by apply commit_sorted|lia..|].
    intros k x. rewrite find_commit //. destruct (map_find (updates s') k) as [y|] eqn:E.
    + intros [= <-]. destruct (Hin k y E) as (i & _ & ->). simpl. lia.
    + intros Hx. specialize (Hv k x Hx). lia.
Qed.

(** C20. As long as every block that is parsed has a number below 2^32 - 1, the version of
    a key only grows: after a block, a key that was there has its old entry or one with a
    strictly later version, so that no committed write is ever rolled back.  The
    restriction is needed: versions hold the 64-bit number of the block, but the check of
    the sequence compares 32 bits ([block_number_truncated]). *)
Theorem versions_grow s d st s' k x
    (Hr : reachable s) (Hb : ∀ b, decode_Block d = Some b → 0 ≤ number (blk_header b) < 2 ^ 32 - 1)
    (Hrun : run (parse_block d) s = Some (st, s')) (Hx : map_find (state s) k = Some x) :
  map_find (state s') k = Some x ∨
  ∃ y, map_find (state s') k = Some y ∧ version_lt x.2 y.2.
Proof.
  destruct (reachable_state_ok s Hr) as (_ & Hq & Hv). destruct (Hv k x Hx) as [Hlt Hbx].
  apply parse_block_applied in Hrun as [[_ [E1 E2]]|(b & Hd & -> & Hn & Hso & Hin & Hseq & Hst)].
  { left. by rewrite E1. }
  rewrite Hst find_commit //. destruct (map_find (updates s') k) as [y|] eqn:E; [|by left].
  right. exists y. split; [done|]. left. destruct (Hin k y E) as (i & _ & ->). simpl.
  destruct (block_number_next _ _ (Hb b Hd) Hq Hn) as [_ ?]. lia.
Qed.

(** ** Queries *)
Lemma multi_state_scan (m : kvs_t) k :
  multi_state_loop m k = concat ((λ e, strip_namespace e.1 ++ e.2.1) <$> scan_prefix m k).
Proof.
  induction m as [|[key value] m IH]; [done|]. simpl. destruct (has_prefix k key); [|done].
  cbn [fmap list_fmap concat fst snd]. by rewrite IH assoc_L.
Qed.

(** The hash that answers a query by partial composite key covers exactly the entries
    of the state whose key starts with the given one, in the order of the keys, although
    the loop starts at [lower_bound] and stops at the first key without the prefix. *)
Theorem multi_state_hash_exact s comp_key (Hs : sorted (state s)) :
  ledger_get_multi_state_hash comp_key s =
    (LEDGER_SUCCESS, SHA256 (concat ((λ e, strip_namespace e.1 ++ e.2.1) <$>
       filter (λ e, has_prefix comp_key e.1 = true) (state s)))).
Proof. unfold ledger_get_multi_state_hash. by rewrite multi_state_scan scan_lower_bound. Qed.

(** The loops over the parts of a composite key end inside the key, for any number of
    parts, and give the parts each followed by a dot. *)
Theorem components_exact parts (s : ledger) (Hparts : Forall (λ c, nonul c ∧ c ≠ []) parts) :
  components (composite_key parts) s = Value (dotted parts) s.
Proof. apply components_spec. exists parts. split; [by apply composite_key_parts|done]. Qed.
End theorems.

(** ** A small instance

    Block [n] is the byte [n]; its transactions are named by a letter and write their
    name to the key [k] of lscc, ["r"] after reading version (0, 0) of it. *)
Definition sample_openssl : OpenSSL := {|
  X509 := unit; X509_STORE := unit; EC_KEY := unit; ECDSA_SIG := unit;
  SHA256 s := s; i2d_ASN1BlockHeader _ _ _ := []; PEM_read_bio_X509 _ := Some ();
  X509_STORE_new _ := Some (); X509_STORE_add_cert _ _ := (1, ()); X509_verify_cert _ _ := 1;
  X509_EC_KEY _ := Some (); PUBKEY_EC_KEY _ := Some (); d2i_ECDSA_SIG _ := Some ();
  ECDSA_do_verify _ _ _ := 1 |}.
Definition sample_proto : Proto := {|
  decode_Block d := Some (mkBlock (mkBlockHeader (uchar (hd_c d)) [] [])
    (if bool_decide (hd_c d = x00) then [bs "a"] else [bs "b"; bs "c"]) [[]; []; []]);
  decode_Metadata _ := Some (mkMetadata None []);
  decode_SignatureHeader _ := Some (mkSignatureHeader (Some []) (Some []));
  decode_SerializedIdentity _ := Some (mkSerializedIdentity [] (Some []));
  decode_Envelope d := Some (mkEnvelope (Some d) (Some []));
  decode_Payload d := Some (mkPayload (Some []) (Some []) (Some d));
  decode_ChannelHeader _ := Some (mkChannelHeader ENDORSER_TRANSACTION (Some []));
  decode_ConfigEnvelope _ := Some []; decode_MSPConfig _ := None; decode_FabricMSPConfig _ := None;
  decode_Transaction d := Some [Some d];
  decode_ChaincodeActionPayload d := Some (mkChaincodeActionPayload (Some []) (Some d));
  decode_ChaincodeProposalPayload _ := Some (Some []);
  decode_ChaincodeInvocationSpec _ := Some [];
  decode_ProposalResponsePayload d := Some (Some d);
  decode_ChaincodeAction d := Some (mkChaincodeAction (Some (bs "lscc")) (Some d) None);
  decode_TxReadWriteSet d := Some [mkNsReadWriteSet (Some (bs "lscc")) (Some d)];
  decode_KVRWSet d := Some (mkKVRWSet []
    (if bool_decide (d = bs "r") then [mkKVRead (Some (bs "k")) (mkVersion 0 0)] else [])
    [mkKVWrite (Some (bs "k")) (Some d)]) |}.
Definition sample_stack : Stack := {| uninit n := replicate n x00 |}.
#[local] Existing Instances sample_openssl sample_proto sample_stack.

Definition after_block (n : byte) (s : ledger X509_STORE) : ledger X509_STORE :=
  match run (parse_block [n]) s with Some (_, s') => s' | None => s end.
Definition sample_ledger : ledger X509_STORE := after_block x01 (after_block x00 initial_ledger).

Lemma sample_sorted : sorted (state sample_ledger) ∧ sorted (updates sample_ledger).
Proof. split; vm_compute; repeat constructor. Qed.
Lemma sample_reachable : reachable (after_block x00 initial_ledger).
Proof.
  apply (reachable_block [x00] initial_ledger LEDGER_SUCCESS); [constructor| |reflexivity].
  intros b [= <-]. vm_compute. by split.
Qed.

Lemma parse_block_atomic_witness : state (after_block x01 initial_ledger) = [].
Proof.
  pose proof (parse_block_atomic [x01] initial_ledger LEDGER_INVALID_BLOCK_NUMBER
                (after_block x01 initial_ledger) eq_refl) as [E _]. exact E.
Defined.
Lemma first_write_is_kept_witness :
  map_find (updates (after_block x01 (after_block x00 initial_ledger))) (bs "lscc.k")
    = Some (bs "b", mkVersion 1 0) ∧
  ∀ st s', run (parse_endorser_transaction (bs "c") (mkVersion 1 1)) sample_ledger = Some (st, s') →
    map_find (updates s') (bs "lscc.k") = Some (bs "b", mkVersion 1 0).
Proof.
  split; [reflexivity|]. intros st s' Hrun.
  destruct (first_write_is_kept (bs "c") (mkVersion 1 1) sample_ledger st s' (proj2 sample_sorted) Hrun)
    as (_ & Hk & _). by apply Hk.
Defined.
Lemma stale_read_no_effect_witness :
  run (parse_endorser_transaction (bs "r") (mkVersion 2 0)) sample_ledger = Some (LEDGER_SUCCESS, sample_ledger).
Proof.
  destruct (run _ _) as [[st s']|] eqn:E; [|by vm_compute in E].
  rewrite (stale_read_no_effect (H:=sample_proto) (H0:=sample_openssl) (H1:=sample_stack) (bs "r") (mkVersion 2 0) sample_ledger [Some (bs "r")] st s' eq_refl); [|exact E|].
  - constructor; [|constructor]. eexists. split; [reflexivity|].
    eexists _, _, _, _, (mkKVRead (Some (bs "k")) (mkVersion 0 0)), (bs "lscc.k"), (bs "b"), (mkVersion 1 0).
    split; [left|]. split; [reflexivity|]. split; [reflexivity|]. split; [reflexivity|]. split_and!.
    + apply (read_plain (bs "lscc") _ _ (bs "k")); [vm_compute; left|done].
    + by left.
    + by left.
  - f_equal. f_equal. vm_compute in E. by injection E.
Defined.
Lemma versions_grow_witness :
  ∃ y, map_find (state sample_ledger) (bs "lscc.k") = Some y ∧ version_lt (mkVersion 0 0) y.2.
Proof.
  destruct (versions_grow (after_block x00 initial_ledger) [x01] LEDGER_SUCCESS sample_ledger
              (bs "lscc.k") (bs "a", mkVersion 0 0) sample_reachable) as [E|E]; [|reflexivity..|discriminate|exact E].
  intros b [= <-]. vm_compute. by split.
Defined.
Lemma components_exact_witness :
  components (composite_key [bs "a"; bs "b"]) sample_ledger = Value (bs "a.b.") sample_ledger.
Proof.
  apply (components_exact [bs "a"; bs "b"] sample_ledger).
  repeat constructor; by apply nonul_lit || discriminate.
Defined.
Lemma multi_state_hash_exact_witness :
  ledger_get_multi_state_hash (bs "lscc") sample_ledger = (LEDGER_SUCCESS, bs ".kb").
Proof. by rewrite (multi_state_hash_exact sample_ledger (bs "lscc") (proj1 sample_sorted)). Defined.

(** The block number is compared with the counter only modulo 2^32: right after block
    number [n] of a channel, a block with number [n + 1 + 2^32] is accepted in place of
    block [n + 1]. *)
Theorem block_number_truncated :
  let P := {| decode_Block _ := Some (mkBlock (mkBlockHeader (2 ^ 32) [] []) [] [[]; []; []]);
              decode_Metadata _ := Some (mkMetadata None []);
              decode_SignatureHeader _ := None; decode_SerializedIdentity _ := None;
              decode_Envelope _ := None; decode_Payload _ := None; decode_ChannelHeader _ := None;
              decode_ConfigEnvelope _ := None; decode_MSPConfig _ := None;
              decode_FabricMSPConfig _ := None; decode_Transaction _ := None;
              decode_ChaincodeActionPayload _ := None; decode_ChaincodeProposalPayload _ := None;
              decode_ChaincodeInvocationSpec _ := None; decode_ProposalResponsePayload _ := None;
              decode_ChaincodeAction _ := None; decode_TxReadWriteSet _ := None;
              decode_KVRWSet _ := None |} in
  option_map fst (run (parse_block (H:=P) []) initial_ledger) = Some LEDGER_SUCCESS.
Proof. by vm_compute. Qed.
