(* ===== verification/LedgerVerdicts.v ===== *)
(** * The trusted ledger does not act on signatures

    Two runs of [parse_block] that differ in what OpenSSL says about certificates and
    signatures: they end with the same status, state, counter and certificate stores,
    and differ at most in the errors they report. *)
From stdpp Require Import base list numbers option strings.
From Stdlib Require Import ZArith Lia.
From S2P Require Import Prelude ParsonText CNum Utils JsonSpec Base64 StdMap Ledger LedgerProof.
From Stdlib Require Import ssreflect.
Local Open Scope Z_scope.

(** The same library with other verdicts. *)
Definition with_verdicts (O : OpenSSL)
    (verify_cert : option (@X509_STORE O) → @X509 O → Z)
    (do_verify : bytes → option (@ECDSA_SIG O) → option (@EC_KEY O) → Z) : OpenSSL := {|
  X509 := X509; X509_STORE := X509_STORE; EC_KEY := EC_KEY; ECDSA_SIG := ECDSA_SIG;
  SHA256 := SHA256; i2d_ASN1BlockHeader := i2d_ASN1BlockHeader;
  PEM_read_bio_X509 := PEM_read_bio_X509; X509_STORE_new := X509_STORE_new;
  X509_STORE_add_cert := X509_STORE_add_cert; X509_verify_cert := verify_cert;
  X509_EC_KEY := X509_EC_KEY; PUBKEY_EC_KEY := PUBKEY_EC_KEY; d2i_ECDSA_SIG := d2i_ECDSA_SIG;
  ECDSA_do_verify := do_verify |}.

(** Two programs that agree on everything except the errors reported. *)
Section agree.
Context {STORE : Type}.
Local Abbreviation LM := (LM STORE).

Definition agree {A} (c1 c2 : LM A) : Prop := ∀ s1 s2, same_but_events s1 s2 →
  match c1 s1, c2 s2 with
  | Value a1 t1, Value a2 t2 => a1 = a2 ∧ same_but_events t1 t2
  | Return e1 t1, Return e2 t2 => e1 = e2 ∧ same_but_events t1 t2
  | Undefined, Undefined => True
  | _, _ => False
  end.

Lemma agree_ret {A} (a : A) : agree (mret a) (mret a).
Proof. by intros s1 s2 Hs. Qed.
Lemma agree_undefined {A} : agree (undefined (A:=A)) undefined.
Proof. by intros s1 s2 Hs. Qed.
Lemma agree_deref p : agree (deref p) (deref p).
Proof. destruct p; [apply agree_ret|apply agree_undefined]. Qed.
Lemma agree_decode {A} (d : option A) : agree (decode_pb d) (decode_pb d).
Proof. destruct d; [apply agree_ret|]. by intros s1 s2 Hs. Qed.
Lemma agree_bind {A B} (c1 c2 : LM A) (k1 k2 : A → LM B) :
  agree c1 c2 → (∀ a, agree (k1 a) (k2 a)) → agree (c1 ≫= k1) (c2 ≫= k2).
Proof.
  intros Hc Hk s1 s2 Hs. specialize (Hc s1 s2 Hs). unfold mbind, LM_bind.
  destruct (c1 s1) as [a1 t1|e1 t1|], (c2 s2) as [a2 t2|e2 t2|]; try done.
  destruct Hc as [-> Ht]. by apply Hk.
Qed.
Lemma agree_get {B} (k1 k2 : ledger STORE → LM B) :
  (∀ s1 s2, state s2 = state s1 → sequence_number s2 = sequence_number s1 →
     updates s2 = updates s1 → root_certs_orderer s2 = root_certs_orderer s1 →
     root_certs_apps s2 = root_certs_apps s1 → agree (k1 s1) (k2 s2)) →
  agree (get ≫= k1) (get ≫= k2).
Proof.
  intros Hk s1 s2 Hs. unfold mbind, LM_bind, get. pose proof Hs as ([??] & ? & ? & ?). by apply Hk.
Qed.
Lemma agree_for {A} (l : list A) body1 body2 :
  (∀ a, agree (body1 a) (body2 a)) → agree (for_list l body1) (for_list l body2).
Proof.
  intros Hb. induction l as [|a l IH]; [apply agree_ret|]. apply agree_bind; [apply Hb|]. by intros _.
Qed.
Lemma agree_fold {A B} (l : list A) (b : B) body1 body2 :
  (∀ b a, agree (body1 b a) (body2 b a)) → agree (fold_list l b body1) (fold_list l b body2).
Proof.
  intros Hb. revert b. induction l as [|a l IH]; intros b; [apply agree_ret|].
  apply agree_bind; [apply Hb|done].
Qed.
Lemma agree_call c1 c2 : agree c1 c2 → agree (call c1) (call c2).
Proof.
  intros Hc s1 s2 Hs. specialize (Hc s1 s2 Hs). unfold call.
  by destruct (c1 s1), (c2 s2).
Qed.
Lemma agree_log e : agree (LOG_ERR e) (LOG_ERR e).
Proof. intros s1 s2 ([??] & ? & ? & ?). by repeat split. Qed.
(** A reported error is not a difference. *)
Lemma agree_report (b1 b2 : bool) e :
  agree (if b1 then LOG_ERR e else mret ()) (if b2 then LOG_ERR e else mret ()).
Proof. intros s1 s2 ([??] & ? & ? & ?). destruct b1, b2; by repeat split. Qed.
Lemma agree_stores o a : agree (set_stores o a) (set_stores o a).
Proof. intros s1 s2 ([??] & ? & ? & ?). by repeat split. Qed.
Lemma agree_updates u : agree (set_updates u) (set_updates u).
Proof. intros s1 s2 ([??] & ? & ? & ?). by repeat split. Qed.
Lemma agree_state st q : agree (set_state st q) (set_state st q).
Proof. intros s1 s2 ([??] & ? & ? & ?). by repeat split. Qed.
End agree.

Create HintDb verdicts.
#[export] Hint Resolve agree_ret agree_undefined agree_deref agree_decode agree_log agree_report
  agree_stores agree_updates agree_state : verdicts.

Ltac step_agree :=
  repeat first
    [ progress (intros; cbv beta zeta)
    | match goal with
      | H : _ ?s2 = _ ?s1 |- agree _ _ => rewrite ?H; clear H
      end
    | solve [eauto 2 with verdicts nocore]
    | match goal with
      | |- agree (get ≫= _) _ => apply agree_get
      | |- agree (_ ≫= _) _ => apply agree_bind
      | |- agree (for_list _ _) _ => apply agree_for
      | |- agree (fold_list _ _ _) _ => apply agree_fold
      | |- agree (call _) _ => apply agree_call
      | |- agree (match ?x with _ => _ end) _ => destruct x
      end ].

Section verdicts.
Context `{Proto} `{O : OpenSSL} `{Stack}.
Context (verify_cert : option X509_STORE → X509 → Z).
Context (do_verify : bytes → option ECDSA_SIG → option EC_KEY → Z).
Local Abbreviation O' := (with_verdicts O verify_cert do_verify).

Lemma agree_config d : agree (parse_config d) (parse_config (H0:=O') d).
Proof.
  unfold parse_config, parse_group, parse_org, parse_msp, read_store, write_store, store_root_cert.
  cbn [PEM_read_bio_X509 X509_STORE_add_cert with_verdicts]. step_agree.
Qed.
Lemma agree_endorser d v : agree (parse_endorser_transaction d v) (parse_endorser_transaction (H0:=O') d v).
Proof.
  unfold parse_endorser_transaction, parse_action, process_results, check_ns_reads,
    check_range_read, check_plain_read, check_read, components, apply_ns_writes, ecc_write,
    plain_write, insert_update, conflict, validate_ecc_tx. step_agree.
Qed.
Hint Resolve agree_config agree_endorser : verdicts.
Lemma agree_envelope b i d : agree (process_envelope b i d) (process_envelope (H0:=O') b i d).
Proof. unfold process_envelope. step_agree. Qed.
Lemma agree_signature m h g :
  agree (verify_block_signature m h g) (verify_block_signature (H0:=O') m h g).
Proof. unfold verify_block_signature. step_agree. Qed.
Hint Resolve agree_envelope agree_signature : verdicts.
Lemma agree_block d : agree (parse_block d) (parse_block (H0:=O') d).
Proof. unfold parse_block, metadata_at, commit_state_updates. step_agree. Qed.

(** Invalid signatures and certificates are reported but never enforced: whatever
    OpenSSL says about the signatures of a block, of its transactions and of the private
    chaincode's enclave, and about all certificates, the block is accepted or rejected
    with the same status and leaves the same state, counter and certificate stores. *)
Theorem signatures_not_enforced d s :
  match run (parse_block d) s, run (parse_block (H0:=O') d) s with
  | Some (st1, s1), Some (st2, s2) => st1 = st2 ∧ same_but_events s1 s2
  | None, None => True
  | _, _ => False
  end.
Proof.
  pose proof (agree_block d s s (reflexivity s)) as Hd. unfold run.
  by destruct (parse_block d s), (parse_block (H0:=O') d s).
Qed.
End verdicts.
