(* ===== verification/EnclaveCrypto.v ===== *)
(** * Cryptographic services of the enclaves (ecc_enclave/enclave/crypto.cpp,
      common/enclave/common.cpp)

    The key pair of an enclave and its attestation report, the message authentication
    code that protects what the peer reports of the state, and the authenticated
    encryption of the private state.  The SGX SDK's cryptography is the class
    [SgxCrypto], over the state [W] of the platform, which also holds the source of
    randomness.  Hashing or authenticating in several updates is doing so for the
    concatenation. *)
From stdpp Require Import base list numbers option strings.
From Stdlib Require Import ZArith Lia.
From S2P Require Import Prelude Utils SgxCCLib.
Local Open Scope Z_scope.

Class SgxCrypto (W : Type) `{Platform W} := {
  SGX_ERROR_INVALID_PARAMETER : Z;
  sgx_invalid_error : SGX_ERROR_INVALID_PARAMETER ≠ SGX_SUCCESS;
  sgx_sha256_msg : bytes → bytes;
  (** key and message *)
  sgx_cmac128 : bytes → bytes → bytes;
  (** status and random bytes *)
  sgx_read_rand : nat → W → Z * bytes * W;
  (** key, nonce and plaintext; status, ciphertext and tag *)
  sgx_rijndael128GCM_encrypt : bytes → bytes → bytes → Z * bytes * bytes;
  (** key, nonce, tag and ciphertext; status and plaintext *)
  sgx_rijndael128GCM_decrypt : bytes → bytes → bytes → bytes → Z * bytes;
  sgx_ecc256_open_context : W → Z * W;
  (** private and public key, little endian *)
  sgx_ecc256_create_key_pair : W → Z * bytes * bytes * W;
  (** hash and private key; status and signature *)
  sgx_ecdsa_sign : bytes → bytes → Z * bytes;
  sgx_ecc256_compute_shared_dhkey : bytes → bytes → Z * bytes;
  (** target and report data; status and report *)
  sgx_create_report : bytes → bytes → Z * bytes;
  sgx_verify_report : bytes → Z;
  (** [report->body.report_data] *)
  report_data : bytes → bytes
}.

Definition SGX_AESGCM_IV_SIZE : nat := 12.
Definition SGX_AESGCM_MAC_SIZE : nat := 16.

(** The state of an enclave: its key pair and the ledger enclave it is bound to. *)
Record enclave := mkEnclave { enclave_sk : bytes; enclave_pk : bytes; tlcc_pk : bytes }.

Section crypto.
Context {W : Type} `{SgxCrypto W}.

(** ** crypto.cpp *)

Definition check_cmac (key state_hash cmac_key cmac : bytes) : Z :=
  let tmp_cmac := sgx_cmac128 cmac_key (key ++ state_hash) in
  if bool_decide (tmp_cmac = cmac) then 0 else -1.

(** The cipher buffer holds the nonce, the tag and the ciphertext; a failed [assert] is
    [None]. *)
Definition encrypt_state (key plain : bytes) (cipher_len : Z) (w : W) : option (Z * bytes * W) :=
  let needed_size :=
    wrap32 (Z.of_nat (length plain) + Z.of_nat (SGX_AESGCM_IV_SIZE + SGX_AESGCM_MAC_SIZE)) in
  if cipher_len >=? needed_size then
    let '(_, iv, w) := sgx_read_rand SGX_AESGCM_IV_SIZE w in
    let '(ret, ct, mac) := sgx_rijndael128GCM_encrypt key iv plain in
    Some (ret, iv ++ mac ++ ct, w)
  else None.

Definition decrypt_state (key cipher : bytes) (plain_len : Z) : option (Z * bytes) :=
  let needed_size :=
    wrap32 (Z.of_nat (length cipher) - Z.of_nat (SGX_AESGCM_IV_SIZE + SGX_AESGCM_MAC_SIZE)) in
  if plain_len >=? needed_size then
    let iv := take SGX_AESGCM_IV_SIZE cipher in
    let mac := take SGX_AESGCM_MAC_SIZE (drop SGX_AESGCM_IV_SIZE cipher) in
    let ct := drop (SGX_AESGCM_IV_SIZE + SGX_AESGCM_MAC_SIZE) cipher in
    Some (sgx_rijndael128GCM_decrypt key iv mac (take (Z.to_nat plain_len) ct))
  else None.

Definition get_random_bytes (length : nat) (w : W) : Z * bytes * W := sgx_read_rand length w.

(** ** common.cpp *)

(** Each function gives its status, the enclave afterwards and what it wrote. *)
Definition ecall_init (e : enclave) (w : W) : Z * enclave * W :=
  let '(ret, w) := sgx_ecc256_open_context w in
  if negb (bool_decide (ret = SGX_SUCCESS)) then (ret, e, w)
  else
    let '(ret, sk, pk, w) := sgx_ecc256_create_key_pair w in
    (ret, mkEnclave sk pk (tlcc_pk e), w).

(** The big-endian form of a key of two 32-byte numbers *)
Definition swap_key (key : bytes) : option bytes :=
  k ← bytes_swap key 0 32; bytes_swap k 32 32.

(** The report carries the hash of the big-endian public key; [None]: the key has not
    its 64 bytes. *)
Definition ecall_create_report (e : enclave) (target report_out : bytes)
    : option (Z * bytes * bytes) :=
  enclave_pk_be ← swap_key (enclave_pk e);
  let data := sgx_sha256_msg enclave_pk_be ++ replicate 32 x00 in
  let '(ret, report) := sgx_create_report target data in
  Some (if bool_decide (ret = SGX_SUCCESS) then (SGX_SUCCESS, report, enclave_pk_be)
        else (ret, report_out, enclave_pk_be)).

Definition ecall_get_pk (e : enclave) : option (Z * bytes) :=
  enclave_pk_be ← swap_key (enclave_pk e); Some (SGX_SUCCESS, enclave_pk_be).
End crypto.
