(* ===== verification/Shim.v ===== *)
(** * The chaincode shim (ecc_enclave/enclave/shim.cpp, shim_internals.h)

    What a private chaincode calls inside its enclave: reading and writing the state
    through the untrusted peer.  The context records the keys that were read and the
    values that were written; private values are encrypted and carried in base 64, and
    what the peer reports comes with a code of the ledger enclave.

    A function runs on the context and the state [W] of the peer: it returns, throws
    ([std::runtime_error]), or is undefined (a NULL string, a write outside a buffer).
    The [LOG_ERROR] messages are recorded in the context's log. *)
From stdpp Require Import base list numbers option strings.
From Stdlib Require Import ZArith Lia.
From S2P Require Import Prelude ParsonText CNum JsonSpec Base64 StdMap SgxCCLib EnclaveCrypto.
Local Open Scope Z_scope.

Inductive shim_event :=
  | CmacMismatch | EncryptionFailed | CannotParseValues | CannotParseArgs | NoFunctionName.

(** [t_shim_ctx], with the state of the peer behind [u_shim_ctx] and the log *)
Record t_shim_ctx {W : Type} := mkCtx {
  world : W;
  read_set : omap unit;
  write_set : omap bytes;
  encoded_args : bytes;
  json_args : bytes;
  shim_log : list shim_event }.
Arguments t_shim_ctx : clear implicits.

Inductive outcome (W A : Type) :=
  | Done (a : A) (ctx : t_shim_ctx W)
  | Throw (what : bytes) (ctx : t_shim_ctx W)
  | Crash.
Arguments Done {_ _}.
Arguments Throw {_ _}.
Arguments Crash {_ _}.

Definition SM (W A : Type) : Type := t_shim_ctx W → outcome W A.
#[global] Instance SM_ret W : MRet (SM W) := λ A a ctx, Done a ctx.
#[global] Instance SM_bind W : MBind (SM W) := λ A B (k : A → SM W B) (c : SM W A), λ ctx,
  match c ctx with
  | Done a ctx' => k a ctx'
  | Throw e ctx' => Throw e ctx'
  | Crash => Crash
  end.

(** The hard-coded keys of enclave.cpp *)
Definition session_key : bytes :=
  [x3f; xe2; x59; xdf; x62; x7f; xef; x99; x5b; x4b; x00; xde; x44; xc1; x26; x33].
Definition state_encryption_key : bytes :=
  [x6a; xb0; x46; xb3; x8d; x14; x2d; x17; x3f; x52; xf3; x9f; xda; x1d; x63; x4a].

Section shim.
Context {W : Type} `{SgxCrypto W}.
Local Abbreviation SM := (SM W).

Definition throw {A} (what : bytes) : SM A := λ ctx, Throw what ctx.
Definition crash {A} : SM A := λ _, Crash.
Definition ctx_get : SM (t_shim_ctx W) := λ ctx, Done ctx ctx.
Definition set_world (w : W) : SM unit := λ c,
  Done () (mkCtx _ w (read_set c) (write_set c) (encoded_args c) (json_args c) (shim_log c)).
Definition set_read_set (r : omap unit) : SM unit := λ c,
  Done () (mkCtx _ (world c) r (write_set c) (encoded_args c) (json_args c) (shim_log c)).
Definition set_write_set (m : omap bytes) : SM unit := λ c,
  Done () (mkCtx _ (world c) (read_set c) m (encoded_args c) (json_args c) (shim_log c)).
Definition set_json_args (a : bytes) : SM unit := λ c,
  Done () (mkCtx _ (world c) (read_set c) (write_set c) (encoded_args c) a (shim_log c)).
Definition shim_error (e : shim_event) : SM unit := λ c,
  Done () (mkCtx _ (world c) (read_set c) (write_set c) (encoded_args c) (json_args c)
             (shim_log c ++ [e])).

(** A C string that becomes a [std::string]: undefined for NULL. *)
Definition string_of (s : option bytes) : SM bytes :=
  match s with Some s => mret s | None => crash end.

Definition get_creator_name (max_msp_id_len max_dn_len : Z) : SM (bytes * bytes) :=
  c ← ctx_get;
  let '(msp_id, dn, w) := ocall_get_creator_name [] max_msp_id_len [] max_dn_len (world c) in
  set_world w;; mret (msp_id, dn).

(** The result is the buffer, which had the contents [val0], and the length. *)
Definition get_public_state (key val0 : bytes) (max_val_len : Z) : SM (bytes * Z) :=
  c ← ctx_get;
  set_read_set (set_insert (read_set c) key);;
  let '(val, val_len, cmac, w) :=
    ocall_get_state key val0 max_val_len 0 (replicate 16 x00) (world c) in
  set_world w;;
  if val_len >? max_val_len then throw (bs "Enclave: val_len greater than max_val_len")
  else
    (* [val_len > 0] compares the pointer, so the hash is always computed *)
    let state_hash := sgx_sha256_msg (take (Z.to_nat val_len) val) in
    (if negb (check_cmac key state_hash session_key cmac =? 0)
     then shim_error CmacMismatch else mret ());;
    mret (val, val_len).

(** The size of [encoded_cipher], in [uint32_t] arithmetic *)
Definition encoded_size (max_val_len : Z) : Z :=
  wrap32 (wrap32 (max_val_len + Z.of_nat (SGX_AESGCM_IV_SIZE + SGX_AESGCM_MAC_SIZE) + 2) / 3 * 4).

(** The value written to the caller's buffer of [max_val_len] bytes; nothing bounds the
    length of the plaintext, which is undefined behaviour when it does not fit. *)
Definition get_state (key : bytes) (max_val_len : Z) : SM bytes :=
  let size := encoded_size max_val_len in
  '(encoded_cipher, encoded_cipher_len) ←
    get_public_state key (replicate (Z.to_nat size) x00) size;
  if encoded_cipher_len =? 0 then mret []
  else if encoded_cipher_len >? size then
    throw (bs "Enclave: encoded_cipher_len greater than buffer length")
  else
    let cipher := base64_decode (take (Z.to_nat encoded_cipher_len) encoded_cipher) in
    if (length cipher <? SGX_AESGCM_IV_SIZE + SGX_AESGCM_MAC_SIZE)%nat then
      throw (bs "Enclave: base64 decoding failed/produced too short a value")
    else
      let val_len := Z.of_nat (length cipher - (SGX_AESGCM_IV_SIZE + SGX_AESGCM_MAC_SIZE)) in
      match decrypt_state state_encryption_key cipher val_len with
      | None => crash
      | Some (ret, plain) =>
          if val_len >? max_val_len then crash
          else if negb (bool_decide (ret = SGX_SUCCESS)) then
            throw (bs "Enclave: Error decrypting state")
          else mret plain
      end.

Definition put_public_state (key val : bytes) : SM unit :=
  c ← ctx_get;
  set_write_set (map_insert (write_set c) key val);;
  set_world (ocall_put_state key val (Z.of_nat (length val)) (world c)).

(** A value that is given to [put_state] is taken to be shorter than 2^32 - 28 bytes, more
    than the memory of an enclave holds.  For a longer one the length of the cipher text
    wraps around in the source, and the array on the stack is too short; the model has no
    outcome of its own for that case. *)
Definition put_state (key val : bytes) : SM unit :=
  c ← ctx_get;
  let cipher_len :=
    wrap32 (Z.of_nat (length val) + Z.of_nat (SGX_AESGCM_IV_SIZE + SGX_AESGCM_MAC_SIZE)) in
  match encrypt_state state_encryption_key val cipher_len (world c) with
  | None => crash
  | Some (ret, cipher, w) =>
      set_world w;;
      (if negb (bool_decide (ret = SGX_SUCCESS)) then shim_error EncryptionFailed else mret ());;
      put_public_state key (base64_encode cipher)
  end.

(** ** JSON *)

(** [json_object_get_string(pair, name)] *)
Definition member_string (j : json) (name : bytes) : option bytes :=
  match j with
  | JObject kvs => match olookup name kvs with Some (JString s) => Some s | _ => None end
  | _ => None
  end.

Fixpoint insert_pairs (pairs : list json) (values : omap bytes) : SM (omap bytes) :=
  match pairs with
  | [] => mret values
  | p :: rest =>
      key ← string_of (member_string p (bs "key"));
      value ← string_of (member_string p (bs "value"));
      insert_pairs rest (map_insert values key value)
  end.

(** The status and the map; the buffer is a string only if it holds a NUL. *)
Definition unmarshal_values (values : omap bytes) (json_bytes : bytes) : SM (Z * omap bytes) :=
  if negb (bool_decide (x00 ∈ json_bytes)) then crash
  else match parse_json (cstr json_bytes) with
       | Some (JArray pairs) => values ← insert_pairs pairs values; mret (1, values)
       | _ => shim_error CannotParseValues;; mret (-1, values)
       end.

(** ** Queries by partial composite key *)

Definition JSON_BUFFER : Z := 262144.

Definition get_public_state_by_partial_composite_key (comp_key : bytes) (values : omap bytes)
    : SM (omap bytes) :=
  c ← ctx_get;
  let '(json, len, cmac, w) :=
    ocall_get_state_by_partial_composite_key comp_key (replicate (Z.to_nat JSON_BUFFER) x00)
      JSON_BUFFER 0 (replicate 16 x00) (world c) in
  set_world w;;
  if len >? JSON_BUFFER then throw (bs "Enclave: len greater than json buffer size")
  else
    '(_, values) ← unmarshal_values values json;
    c ← ctx_get;
    set_read_set (foldl set_insert (read_set c) values.*1);;
    let state_hash := sgx_sha256_msg (concat ((λ u, u.1 ++ u.2) <$> values)) in
    (if negb (check_cmac comp_key state_hash session_key cmac =? 0)
     then shim_error CmacMismatch else mret ());;
    mret values.

(** The loop that replaces every value by its plaintext *)
Fixpoint decrypt_values (values : omap bytes) : SM (omap bytes) :=
  match values with
  | [] => mret []
  | (k, v) :: rest =>
      let cipher := base64_decode (cstr v) in
      (* [plain_len] wraps around for a short value *)
      if (length cipher <? SGX_AESGCM_IV_SIZE + SGX_AESGCM_MAC_SIZE)%nat then crash
      else
        let plain_len := Z.of_nat (length cipher - (SGX_AESGCM_IV_SIZE + SGX_AESGCM_MAC_SIZE)) in
        match decrypt_state state_encryption_key cipher plain_len with
        | None => crash
        | Some (ret, plain) =>
            if negb (bool_decide (ret = SGX_SUCCESS)) then
              throw (bs "Enclave: Error decrypting state")
            else r ← decrypt_values rest; mret ((k, plain) :: r)
        end
  end.
Definition get_state_by_partial_composite_key (comp_key : bytes) (values : omap bytes)
    : SM (omap bytes) :=
  values ← get_public_state_by_partial_composite_key comp_key values;
  decrypt_values values.

(** ** Arguments *)

(** [json_array_get_string(args, i)] for all elements, as [std::string]s *)
Fixpoint push_strings (l : list json) : SM (list bytes) :=
  match l with
  | [] => mret []
  | j :: rest =>
      s ← string_of (match j with JString s => Some s | _ => None end);
      r ← push_strings rest; mret (s :: r)
  end.

(** The status and the arguments *)
Definition get_string_args : SM (Z * list bytes) :=
  c ← ctx_get;
  match parse_json (json_args c) with
  | Some (JArray l) => argss ← push_strings l; mret (1, argss)
  | _ => shim_error CannotParseArgs;; mret (-1, [])
  end.

(** The status, the function name and its parameters *)
Definition get_func_and_params : SM (Z * bytes * list bytes) :=
  c ← ctx_get;
  match parse_json (json_args c) with
  | Some (JArray []) => shim_error NoFunctionName;; mret (-1, [], [])
  | Some (JArray (f :: l)) =>
      func_name ← string_of (match f with JString s => Some s | _ => None end);
      params ← push_strings l; mret (1, func_name, params)
  | _ => shim_error CannotParseArgs;; mret (-1, [], [])
  end.
End shim.
