(* ===== verification/Enclave.v ===== *)
(** * The chaincode enclave (ecc_enclave/enclave/enclave.cpp) and the calls of the
      ledger enclave (tlcc_enclave/enclave/enclave.cpp)

    Binding the two enclaves, running a chaincode on clear or encrypted arguments and
    signing what it did, and answering queries about the ledger with a message
    authentication code.  The chaincode itself is a parameter, [invoke]. *)
From stdpp Require Import base list numbers option strings.
From Stdlib Require Import ZArith Lia.
From S2P Require Import Prelude ParsonText CNum JsonSpec Base64 StdMap Utils SgxCCLib.
From S2P Require Import EnclaveCrypto Ledger Shim.
Local Open Scope Z_scope.

Section ecc.
Context {W : Type} `{SgxCrypto W}.

(** The status and the enclave afterwards; with one NULL argument the code reads
    through it. *)
Definition ecall_bind_tlcc (e : enclave) (report pubkey : option bytes) : option (Z * enclave) :=
  match report, pubkey with
  | None, None => Some (SGX_SUCCESS, e)
  | Some report, Some pubkey =>
      let pk_hash := sgx_sha256_msg (take 64 pubkey) in
      if negb (bool_decide (take 32 pk_hash = take 32 (report_data report))) then
        Some (SGX_ERROR_INVALID_PARAMETER, e)
      else
        let ver_ret := sgx_verify_report report in
        if negb (bool_decide (ver_ret = SGX_SUCCESS)) then Some (ver_ret, e)
        else Some (SGX_SUCCESS, mkEnclave (enclave_sk e) (enclave_pk e) (take 64 pubkey))
  | _, _ => None
  end.

(** What is hashed for the signature *)
Definition response_message (txType response : bytes) (ctx : t_shim_ctx W) : bytes :=
  txType ++ encoded_args ctx ++ response ++ concat (set_elements (read_set ctx)) ++
  concat ((λ it, it.1 ++ it.2) <$> write_set ctx).

(** The status and the signature, big endian; [signature] is what the buffer held. *)
Definition gen_response (e : enclave) (txType response signature : bytes) (ctx : t_shim_ctx W)
    : option (Z * bytes) :=
  let hash := sgx_sha256_msg (response_message txType response ctx) in
  let '(ret, sig) := sgx_ecdsa_sign hash (enclave_sk e) in
  if negb (bool_decide (ret = SGX_SUCCESS)) then Some (ret, signature)
  else sig ← swap_key sig; Some (ret, sig).

Section invoke.
(** The chaincode: given the size of the response buffer, a status and the response *)
Context (invoke : Z → SM W (Z * bytes)).

(** Decrypts the arguments with the key shared with the client. *)
Definition invoke_enc (e : enclave) (pk : bytes) (max_response_len : Z) : SM W (Z * bytes) :=
  c ← ctx_get;
  match swap_key (base64_decode pk) with
  | None => crash
  | Some pk_bytes =>
      let client_pk := take 64 pk_bytes in
      let '(sgx_ret, shared_dhkey) := sgx_ecc256_compute_shared_dhkey (enclave_sk e) client_pk in
      if negb (bool_decide (sgx_ret = SGX_SUCCESS)) then mret (sgx_ret, [])
      else match bytes_swap shared_dhkey 0 32 with
      | None => crash
      | Some shared =>
          let key := take 16 (sgx_sha256_msg shared) in
          let cipher := base64_decode (encoded_args c) in
          if (length cipher <? SGX_AESGCM_IV_SIZE + SGX_AESGCM_MAC_SIZE)%nat then crash
          else
            let iv := take SGX_AESGCM_IV_SIZE cipher in
            let mac := take SGX_AESGCM_MAC_SIZE (drop SGX_AESGCM_IV_SIZE cipher) in
            let '(sgx_ret, plain) := sgx_rijndael128GCM_decrypt key iv mac
              (drop (SGX_AESGCM_IV_SIZE + SGX_AESGCM_MAC_SIZE) cipher) in
            if negb (bool_decide (sgx_ret = SGX_SUCCESS)) then mret (sgx_ret, [])
            else set_json_args (cstr plain);; invoke max_response_len
      end
  end.

(** The status, the response and the signature, and the peer afterwards; [None] if the
    chaincode crashes or throws, which leaves the enclave. *)
Definition ecall_cc_invoke (e : enclave) (args pk : bytes) (response_len_in : Z)
    (signature : bytes) (w : W) : option (Z * bytes * bytes * t_shim_ctx W) :=
  let ctx := mkCtx W w [] [] args [] [] in
  let call :=
    if decide (length pk = 0%nat) then set_json_args args;; invoke response_len_in
    else invoke_enc e pk response_len_in in
  match call ctx with
  | Done (ret, response) ctx =>
      if negb (ret =? 0) then Some (SGX_ERROR_UNEXPECTED, response, signature, ctx)
      else
        '(ret, sig) ← gen_response e (bs "invoke") response signature ctx;
        Some (ret, response, sig, ctx)
  | _ => None
  end.
End invoke.
End ecc.

(** ** The ledger enclave *)
Section tlcc.
Context `{Proto} `{OpenSSL} `{Stack} {W : Type} `{SgxCrypto W}.
Local Abbreviation LM := (LM X509_STORE).

(** [SGX_SUCCESS] and [LEDGER_SUCCESS] are both 0; the result of [init_ledger] is not
    looked at. *)
Definition ecall_join_channel (genesis : bytes) : LM Z :=
  call init_ledger;;
  sgx_ret ← call (parse_block genesis);
  mret (if negb (sgx_ret =? 0) then sgx_ret else 0).

Definition ecall_next_block (block_bytes : bytes) : LM Z := call (parse_block block_bytes).

(** The key without the name of the channel and the dot *)
Definition strip_channel (key : bytes) : bytes :=
  match find_dot key with Some found => drop (S found) key | None => key end.

(** The code of a key; the nonce is not used. *)
Definition ecall_get_state_metadata (key nonce : bytes) (s : ledger X509_STORE) : bytes :=
  let state_hash := default (replicate 32 x00) (snd (ledger_get_state_hash key s)) in
  sgx_cmac128 session_key (strip_channel key ++ state_hash).

Definition ecall_get_multi_state_metadata (comp_key nonce : bytes) (s : ledger X509_STORE) : bytes :=
  let state_hash := snd (ledger_get_multi_state_hash comp_key s) in
  sgx_cmac128 session_key (strip_namespace comp_key ++ state_hash).
End tlcc.
