(* ===== verification/EnclaveProof.v ===== *)
(** * The enclaves: what they protect and what they do not

    Private values survive the trip through the peer; the two enclaves authenticate the
    same message for what the ledger holds; where the checks have gaps. *)
From stdpp Require Import base list numbers option strings.
From Stdlib Require Import ZArith Lia.
From S2P Require Import Prelude ParsonText CNum JsonSpec Base64 StdMap Utils SgxCCLib.
From S2P Require Import EnclaveCrypto Ledger LedgerProof LedgerTheorems Shim Enclave.
From Stdlib Require Import ssreflect.
Local Open Scope Z_scope.

Section private_state.
Context {W : Type} `{SgxCrypto W}.

(** The documented behaviour of AES-GCM: decryption undoes encryption, the ciphertext is
    as long as the plaintext and the tag has its size. *)
Definition gcm_correct : Prop := ∀ key iv plain ct mac,
  sgx_rijndael128GCM_encrypt key iv plain = (SGX_SUCCESS, ct, mac) →
  sgx_rijndael128GCM_decrypt key iv mac ct = (SGX_SUCCESS, plain) ∧
  length ct = length plain ∧ length mac = SGX_AESGCM_MAC_SIZE.
Definition rand_correct : Prop := ∀ n w, length (sgx_read_rand n w).1.2 = n.

(** What [put_state] hands to the peer for a value. *)
Definition seals (stored val : bytes) : Prop := ∃ iv mac ct,
  stored = base64_encode (iv ++ mac ++ ct) ∧ length iv = SGX_AESGCM_IV_SIZE ∧
  length mac = SGX_AESGCM_MAC_SIZE ∧ length ct = length val ∧
  sgx_rijndael128GCM_decrypt state_encryption_key iv mac ct = (SGX_SUCCESS, val).

Lemma decrypt_sealed iv mac ct val :
  length iv = SGX_AESGCM_IV_SIZE → length mac = SGX_AESGCM_MAC_SIZE → length ct = length val →
  sgx_rijndael128GCM_decrypt state_encryption_key iv mac ct = (SGX_SUCCESS, val) →
  decrypt_state state_encryption_key (iv ++ mac ++ ct) (Z.of_nat (length val)) = Some (SGX_SUCCESS, val).
Proof.
  intros Hiv Hmac Hct Hd. unfold decrypt_state.
  rewrite (_ : _ >=? _ = true).
  { apply Z.geb_le. unfold wrap32. rewrite !length_app Hiv Hmac Hct.
    replace (Z.of_nat _ - Z.of_nat _) with (Z.of_nat (length val)) by (unfold SGX_AESGCM_IV_SIZE, SGX_AESGCM_MAC_SIZE; lia).
    apply Z.mod_le; lia. }
  cbv zeta. rewrite take_app_length' // drop_app_length' // take_app_length' //.
  rewrite assoc_L drop_app_length'; [by rewrite length_app Hiv Hmac|].
  rewrite Nat2Z.id take_ge; [lia|]. by rewrite Hd.
Qed.

(** The buffer of [get_state] is large enough for every value that fits the caller's. *)
Lemma sealed_size val stored max :
  seals stored val → Z.of_nat (length val) ≤ max → max + 30 < 3 * 2 ^ 30 →
  Z.of_nat (length stored) ≤ encoded_size max.
Proof.
  intros (iv & mac & ct & -> & Hiv & Hmac & Hct & _) Hle Hmax.
  rewrite base64_encode_length !length_app Hiv Hmac Hct. unfold encoded_size.
  assert (E : wrap32 (max + Z.of_nat (SGX_AESGCM_IV_SIZE + SGX_AESGCM_MAC_SIZE) + 2) = max + 30).
  { unfold wrap32. rewrite Z.mod_small; unfold SGX_AESGCM_IV_SIZE, SGX_AESGCM_MAC_SIZE; lia. }
  rewrite E Nat2Z.inj_mul Nat2Z.inj_div. unfold wrap32, SGX_AESGCM_IV_SIZE, SGX_AESGCM_MAC_SIZE.
  rewrite Z.mod_small; Z.to_euclidean_division_equations; lia.
Qed.

(** The decryption loop of a query *)
Lemma decrypt_sealed_values keys (stored vals : list bytes) ctx : Forall2 seals stored vals →
  length keys = length stored →
  decrypt_values (zip keys stored) ctx = Done (zip keys vals) ctx.
Proof.
  intros Hs. revert keys. induction Hs as [|st v stored vals Hv _ IH]; intros [|k keys] Hlen; try done.
  destruct Hv as (iv & mac & ct & -> & Hiv & Hmac & Hct & Hd). cbn [zip zip_with decrypt_values].
  rewrite cstr_nonul; [apply base64_encode_nonul|]. rewrite base64_decode_encode. cbv zeta.
  assert (Hl : length (iv ++ mac ++ ct) = (SGX_AESGCM_IV_SIZE + SGX_AESGCM_MAC_SIZE + length v)%nat).
  { rewrite !length_app. lia. }
  rewrite Hl (proj2 (Nat.ltb_ge _ _)); [lia|].
  replace (_ + _ + length v - _)%nat with (length v) by lia.
  rewrite decrypt_sealed // bool_decide_eq_true_2 //. cbn [negb]. unfold mbind, SM_bind.
  rewrite IH //. by injection Hlen.
Qed.

Lemma sealed_nonempty val stored : seals stored val → 0 < Z.of_nat (length stored).
Proof.
  intros (iv & mac & ct & -> & Hiv & Hmac & Hct & _).
  rewrite base64_encode_length !length_app Hiv Hmac Hct.
  pose proof (Nat.div_le_mono 3 (12 + (16 + length val) + 2) 3 ltac:(done) ltac:(lia)).
  change (3 / 3)%nat with 1%nat in *. unfold SGX_AESGCM_IV_SIZE, SGX_AESGCM_MAC_SIZE. lia.
Qed.

(** The peer answers a read of [key] with [stored], in a buffer of [size] bytes. *)
Definition peer_returns (key : bytes) (size : Z) (stored : bytes) (w : W) : Prop :=
  ∃ rest cmac w', ocall_get_state key (replicate (Z.to_nat size) x00) size 0 (replicate 16 x00) w =
    (stored ++ rest, Z.of_nat (length stored), cmac, w').

Lemma get_public_state_done key val0 size ctx val len cmac w' :
  ocall_get_state key val0 size 0 (replicate 16 x00) (world ctx) = (val, len, cmac, w') →
  len ≤ size →
  get_public_state key val0 size ctx =
    Done (val, len) (mkCtx _ w' (set_insert (read_set ctx) key) (write_set ctx) (encoded_args ctx)
      (json_args ctx)
      (if check_cmac key (sgx_sha256_msg (take (Z.to_nat len) val)) session_key cmac =? 0
       then shim_log ctx else shim_log ctx ++ [CmacMismatch])).
Proof.
  intros Ho Hle. unfold get_public_state, mbind, SM_bind, ctx_get, set_read_set. rewrite Ho.
  rewrite Z.gtb_ltb (proj2 (Z.ltb_ge _ _)) //. unfold set_world. simpl.
  by destruct (check_cmac _ _ _ _ =? 0).
Qed.

(** What [get_state] does with a sealed value that fits its own buffer *)
Lemma get_sealed_at key val stored max ctx rest cmac w' :
  seals stored val → Z.of_nat (length stored) ≤ encoded_size max →
  ocall_get_state key (replicate (Z.to_nat (encoded_size max)) x00) (encoded_size max) 0
    (replicate 16 x00) (world ctx) = (stored ++ rest, Z.of_nat (length stored), cmac, w') →
  ∃ ctx', get_state key max ctx = (if Z.of_nat (length val) >? max then Crash else Done val ctx') ∧
    write_set ctx' = write_set ctx ∧ encoded_args ctx' = encoded_args ctx ∧
    json_args ctx' = json_args ctx ∧ world ctx' = w'.
Proof.
  intros Hs Hsize Ho.
  pose proof (sealed_nonempty val stored Hs) as Hpos.
  unfold get_state, mbind, SM_bind. cbv zeta.
  rewrite (get_public_state_done _ _ _ _ _ _ _ _ Ho Hsize).
  rewrite (proj2 (Z.eqb_neq _ _)); [lia|].
  rewrite (Z.gtb_ltb _ (encoded_size max)) (proj2 (Z.ltb_ge _ _)) // Nat2Z.id take_app_length.
  destruct Hs as (iv & mac & ct & -> & Hiv & Hmac & Hct & Hd). rewrite base64_decode_encode.
  assert (Hlen : length (iv ++ mac ++ ct) = (SGX_AESGCM_IV_SIZE + SGX_AESGCM_MAC_SIZE + length val)%nat).
  { rewrite !length_app. lia. }
  rewrite Hlen (proj2 (Nat.ltb_ge _ _)); [lia|].
  replace (_ + _ + length val - _)%nat with (length val) by lia.
  rewrite decrypt_sealed // bool_decide_eq_true_2 //. cbn [negb].
  eexists. split; [by destruct (_ >? max)|done].
Qed.

Lemma get_sealed key val stored max ctx :
  seals stored val → Z.of_nat (length stored) ≤ encoded_size max →
  peer_returns key (encoded_size max) stored (world ctx) →
  ∃ ctx', get_state key max ctx = (if Z.of_nat (length val) >? max then Crash else Done val ctx').
Proof.
  intros Hs Hsize (rest & cmac & w' & Ho).
  destruct (get_sealed_at key val stored max ctx rest cmac w' Hs Hsize Ho) as (ctx' & E & _).
  by exists ctx'.
Qed.

Lemma put_sealed key val ctx ctx' :
  gcm_correct → rand_correct → put_state key val ctx = Done () ctx' →
  EncryptionFailed ∉ shim_log ctx' →
  ∃ stored w, seals stored val ∧
    world ctx' = ocall_put_state key stored (Z.of_nat (length stored)) w ∧
    write_set ctx' = map_insert (write_set ctx) key stored ∧ read_set ctx' = read_set ctx.
Proof.
  intros Hgcm Hrand. unfold put_state, encrypt_state, mbind, SM_bind, ctx_get. cbv zeta.
  rewrite Z.geb_leb Z.leb_refl. pose proof (Hrand SGX_AESGCM_IV_SIZE (world ctx)) as Hiv.
  destruct (sgx_read_rand _ (world ctx)) as [[st iv] w1]. simpl in Hiv.
  destruct (sgx_rijndael128GCM_encrypt _ iv val) as [[ret ct] mac] eqn:E.
  unfold set_world. simpl. case_bool_decide as Hret; simpl.
  - intros [= <-] _. subst ret. destruct (Hgcm _ _ _ _ _ E) as (Hd & Hct & Hmac).
    exists (base64_encode (iv ++ mac ++ ct)), w1. simpl. split_and!; [|done..].
    exists iv, mac, ct. split_and!; [done..|]. exact Hd.
  - intros [= <-] Hn. destruct Hn. simpl. apply elem_of_app. right. left.
Qed.

(** C9. A private value survives the untrusted peer: what [put_state] hands out, when the
    peer returns it to any later invocation, is decrypted by [get_state] to the same
    value, for every value that fits the caller's buffer. *)
Theorem private_state_roundtrip key val ctx ctx'
    (Hgcm : gcm_correct) (Hrand : rand_correct)
    (Hput : put_state key val ctx = Done () ctx') (Hlog : EncryptionFailed ∉ shim_log ctx') :
  ∃ stored w, world ctx' = ocall_put_state key stored (Z.of_nat (length stored)) w ∧
    ∀ max ctx1, Z.of_nat (length val) ≤ max → max + 30 < 3 * 2 ^ 30 →
      peer_returns key (encoded_size max) stored (world ctx1) →
      ∃ ctx2, get_state key max ctx1 = Done val ctx2.
Proof.
  destruct (put_sealed key val ctx ctx' Hgcm Hrand Hput Hlog) as (stored & w & Hs & Hw & _).
  exists stored, w. split; [done|]. intros max ctx1 Hle Hmax Hp.
  destruct (get_sealed key val stored max ctx1 Hs) as (ctx2 & ->); [|done|].
  { by apply (sealed_size val stored max Hs Hle). }
  rewrite Z.gtb_ltb (proj2 (Z.ltb_ge _ _)) //. by exists ctx2.
Qed.

(** C40. The size of the decrypted value is not compared with the caller's buffer: when the
    peer returns the sealed form of a longer value that still fits the rounded-up buffer
    for the encoding, [get_state] writes past the end of the caller's buffer. *)
Theorem get_state_overflow key val stored max ctx
    (Hs : seals stored val) (Hlong : max < Z.of_nat (length val))
    (Hfit : Z.of_nat (length stored) ≤ encoded_size max)
    (Hpeer : peer_returns key (encoded_size max) stored (world ctx)) :
  get_state key max ctx = Crash.
Proof.
  destruct (get_sealed key val stored max ctx Hs Hfit Hpeer) as (ctx' & ->).
  by rewrite Z.gtb_ltb (proj2 (Z.ltb_lt _ _)).
Qed.

(** A wrong code is reported but not acted on: [get_public_state] returns what the
    peer says, whatever code came with it, as long as it fits the buffer. *)
Theorem cmac_not_enforced key val0 size ctx val len cmac w'
    (Ho : ocall_get_state key val0 size 0 (replicate 16 x00) (world ctx) = (val, len, cmac, w'))
    (Hlen : len ≤ size) :
  ∃ ctx', get_public_state key val0 size ctx = Done (val, len) ctx' ∧
    read_set ctx' = set_insert (read_set ctx) key ∧ write_set ctx' = write_set ctx ∧
    (CmacMismatch ∈ shim_log ctx' → CmacMismatch ∈ shim_log ctx ∨
       cmac ≠ sgx_cmac128 session_key (key ++ sgx_sha256_msg (take (Z.to_nat len) val))).
Proof.
  rewrite (get_public_state_done _ _ _ _ _ _ _ _ Ho Hlen). eexists. split; [reflexivity|].
  split; [done|]. split; [done|]. simpl. unfold check_cmac. case_bool_decide; simpl; [by left|].
  intros _. right. congruence.
Qed.

(** [put_public_state] records only the first value written to a key, while the peer
    is given every value: after two writes of one key the signed write set holds the
    first and the peer the second. *)
Theorem write_set_keeps_first key v1 v2 ctx
    (Hnew : map_find (write_set ctx) key = None) (Hs : sorted (write_set ctx)) :
  ∃ ctx1 ctx2, put_public_state key v1 ctx = Done () ctx1 ∧
    put_public_state key v2 ctx1 = Done () ctx2 ∧
    map_find (write_set ctx2) key = Some v1 ∧
    world ctx2 = ocall_put_state key v2 (Z.of_nat (length v2)) (world ctx1).
Proof.
  eexists _, _. split; [reflexivity|]. split; [reflexivity|]. simpl. split; [|done].
  rewrite find_insert; [by apply insert_sorted|]. rewrite bool_decide_eq_true_2 //.
  rewrite find_insert // bool_decide_eq_true_2 // Hnew //.
Qed.
End private_state.

(** ** What the two enclaves authenticate *)
Section agreement.
Context `{Proto} `{OpenSSL} `{Stack} {W : Type} `{SgxCrypto W}.
Implicit Types (ns key k v : bytes) (s : ledger X509_STORE).

(** Both libraries implement SHA-256. *)
Definition same_hash : Prop := ∀ m, sgx_sha256_msg m = SHA256 m.

Lemma find_dot_app ns k : find_dot ns = None → find_dot (ns ++ bs "." ++ k) = Some (length ns).
Proof.
  induction ns as [|b ns IH]; [done|]. simpl. case_decide; [done|].
  destruct (find_dot ns); [done|]. intros _. by rewrite IH.
Qed.
Lemma strip_channel_app ns k : find_dot ns = None → strip_channel (ns ++ bs "." ++ k) = k.
Proof.
  intros E. unfold strip_channel. rewrite find_dot_app //.
  by rewrite (drop_app_ge ns); [lia|]; replace (S _ - _)%nat with 1%nat by lia.
Qed.
Lemma strip_namespace_app ns k : find_dot ns = None → strip_namespace (ns ++ bs "." ++ k) = bs "." ++ k.
Proof. intros E. unfold strip_namespace. by rewrite find_dot_app // drop_app_length. Qed.

(** The context after a read of [key]: the key is recorded, the peer is in state [w]. *)
Definition after_read (ctx : t_shim_ctx W) key (w : W) (log : list shim_event) : t_shim_ctx W :=
  mkCtx _ w (set_insert (read_set ctx) key) (write_set ctx) (encoded_args ctx) (json_args ctx)
    (shim_log ctx ++ log).

(** The code the ledger enclave computes for a key it holds is the one the chaincode
    enclave expects: a peer that returns the value of the ledger with that code is
    believed without complaint. *)
Theorem honest_read_accepted ns key v ver s nonce val0 rest size ctx w'
    (Hhash : same_hash) (Hns : find_dot ns = None)
    (Hf : map_find (state s) (ns ++ bs "." ++ key) = Some (v, ver))
    (Ho : ocall_get_state key val0 size 0 (replicate 16 x00) (world ctx) =
      (v ++ rest, Z.of_nat (length v), ecall_get_state_metadata (ns ++ bs "." ++ key) nonce s, w'))
    (Hsize : Z.of_nat (length v) ≤ size) :
  get_public_state key val0 size ctx =
    Done (v ++ rest, Z.of_nat (length v)) (after_read ctx key w' []).
Proof.
  rewrite (get_public_state_done _ _ _ _ _ _ _ _ Ho Hsize) Nat2Z.id take_app_length.
  unfold check_cmac, ecall_get_state_metadata, ledger_get_state_hash.
  rewrite Hf strip_channel_app // Hhash bool_decide_eq_true_2 //. unfold after_read. by rewrite app_nil_r.
Qed.

(** For a key the ledger does not hold the two enclaves disagree: the ledger enclave
    authenticates 32 zero bytes, the chaincode enclave expects the hash of the empty
    value, so an honest peer is reported as soon as the two codes differ. *)
Theorem honest_absent_read_reported ns key s nonce val0 val size ctx w'
    (Hns : find_dot ns = None)
    (Hf : map_find (state s) (ns ++ bs "." ++ key) = None)
    (Ho : ocall_get_state key val0 size 0 (replicate 16 x00) (world ctx) =
      (val, 0, ecall_get_state_metadata (ns ++ bs "." ++ key) nonce s, w'))
    (Hsize : 0 ≤ size)
    (Hmac : sgx_cmac128 session_key (key ++ sgx_sha256_msg []) ≠
            sgx_cmac128 session_key (key ++ replicate 32 x00)) :
  get_public_state key val0 size ctx = Done (val, 0) (after_read ctx key w' [CmacMismatch]).
Proof.
  rewrite (get_public_state_done _ _ _ _ _ _ _ _ Ho Hsize).
  unfold check_cmac, ecall_get_state_metadata, ledger_get_state_hash.
  rewrite Hf strip_channel_app // bool_decide_eq_false_2 //.
Qed.

(** *** Queries *)

(** What the ledger holds below a partial composite key, without the name space *)
Definition entries_below (s : ledger X509_STORE) (comp_key : bytes) : omap bytes :=
  (λ e, (strip_namespace e.1, e.2.1)) <$> filter (λ e, has_prefix comp_key e.1 = true) (state s).
(** How the peer puts an entry into JSON *)
Definition pair_json (e : bytes * bytes) : json :=
  JObject [(bs "key", JString e.1); (bs "value", JString e.2)].

Lemma strip_order ns ck k k' : find_dot ns = None →
  has_prefix (ns ++ bs "." ++ ck) k = true → has_prefix (ns ++ bs "." ++ ck) k' = true →
  str_lt k k' → str_lt (strip_namespace k) (strip_namespace k').
Proof.
  intros Hns [r ->]%has_prefix_spec [r' ->]%has_prefix_spec.
  rewrite -!assoc_L !strip_namespace_app // str_lt_app //.
Qed.
Lemma entries_sorted s ns ck : find_dot ns = None → sorted (state s) →
  sorted (entries_below s (ns ++ bs "." ++ ck)).
Proof.
  intros Hns Hs. unfold entries_below. induction (state s) as [|[k v] m IH]; [constructor|].
  apply sorted_cons in Hs as [Hm Ha]. rewrite filter_cons. case_decide as Hp; [|by apply IH].
  apply sorted_cons. split; [by apply IH|].
  apply Forall_fmap, Forall_forall. intros [k' v'] [Hp' Hin]%list_elem_of_filter.
  rewrite Forall_forall in Ha. exact (strip_order ns ck k k' Hns Hp Hp' (Ha _ Hin)).
Qed.

Lemma insert_pairs_sorted (l m : omap bytes) (ctx : t_shim_ctx W) : sorted (m ++ l) →
  insert_pairs (pair_json <$> l) m ctx = Done (m ++ l) ctx.
Proof.
  revert m. induction l as [|[k v] l IH]; intros m Hs; [by rewrite app_nil_r|].
  rewrite (_ : m ++ (k, v) :: l = (m ++ [(k, v)]) ++ l) in Hs |- *; [by rewrite -assoc_L|].
  cbn [fmap list_fmap insert_pairs]. unfold mbind, SM_bind. simpl.
  rewrite insert_last; [by apply sorted_app_l in Hs|]. by apply IH.
Qed.

(** What a query gives for well-formed JSON, whatever code comes with it *)
Lemma query_done key entries json len cmac ctx w' :
  sorted entries →
  ocall_get_state_by_partial_composite_key key (replicate (Z.to_nat JSON_BUFFER) x00)
    JSON_BUFFER 0 (replicate 16 x00) (world ctx) = (json, len, cmac, w') →
  len ≤ JSON_BUFFER → x00 ∈ json → parse_json (cstr json) = Some (JArray (pair_json <$> entries)) →
  get_public_state_by_partial_composite_key key [] ctx = Done entries
    (mkCtx W w' (foldl set_insert (read_set ctx) entries.*1) (write_set ctx) (encoded_args ctx)
       (json_args ctx)
       (if check_cmac key (sgx_sha256_msg (concat ((λ u, u.1 ++ u.2) <$> entries))) session_key cmac =? 0
        then shim_log ctx else shim_log ctx ++ [CmacMismatch])).
Proof.
  intros Hs Ho Hlen Hnul Hjson.
  unfold get_public_state_by_partial_composite_key, unmarshal_values, mbind, SM_bind, ctx_get.
  rewrite Ho Z.gtb_ltb (proj2 (Z.ltb_ge _ _)) //. unfold set_world.
  rewrite bool_decide_eq_true_2 // Hjson. cbn [negb]. cbv beta.
  rewrite (insert_pairs_sorted _ []) //. unfold set_read_set. cbv [mret SM_ret]. cbn [app].
  cbv beta iota zeta. by destruct (check_cmac _ _ _ _ =? 0).
Qed.

Lemma multi_state_entries s comp_key : sorted (state s) →
  snd (ledger_get_multi_state_hash comp_key s) =
    SHA256 (concat ((λ u, u.1 ++ u.2) <$> entries_below s comp_key)).
Proof.
  intros Hs. unfold ledger_get_multi_state_hash, entries_below. cbn [snd].
  by rewrite multi_state_scan scan_lower_bound // -list_fmap_compose.
Qed.

(** C21. The two enclaves compute the same code for a query by partial composite key: if the
    peer returns the entries of the ledger below the key, as JSON that fits the buffer, with
    the code of the ledger enclave, then the chaincode enclave, which hashes the entries it
    has parsed, reports no violation; it hands out these entries and records their keys as
    read. *)
Theorem honest_query_accepted ns ck s nonce json len ctx w'
    (Hhash : same_hash) (Hns : find_dot ns = None) (Hs : sorted (state s))
    (Ho : ocall_get_state_by_partial_composite_key (bs "." ++ ck) (replicate (Z.to_nat JSON_BUFFER) x00)
            JSON_BUFFER 0 (replicate 16 x00) (world ctx) =
          (json, len, ecall_get_multi_state_metadata (ns ++ bs "." ++ ck) nonce s, w'))
    (Hlen : len ≤ JSON_BUFFER) (Hnul : x00 ∈ json)
    (Hjson : parse_json (cstr json) =
             Some (JArray (pair_json <$> entries_below s (ns ++ bs "." ++ ck)))) :
  get_public_state_by_partial_composite_key (bs "." ++ ck) [] ctx =
    Done (entries_below s (ns ++ bs "." ++ ck))
      (mkCtx _ w' (foldl set_insert (read_set ctx) (entries_below s (ns ++ bs "." ++ ck)).*1)
         (write_set ctx) (encoded_args ctx) (json_args ctx) (shim_log ctx)).
Proof.
  pose proof (entries_sorted s ns ck Hns Hs) as Hsort.
  rewrite (query_done _ _ _ _ _ _ _ Hsort Ho Hlen Hnul Hjson).
  unfold check_cmac, ecall_get_multi_state_metadata.
  rewrite multi_state_entries // strip_namespace_app // Hhash bool_decide_eq_true_2 //.
Qed.
End agreement.
