(* ===== verification/Samples.v ===== *)
(** * Small platforms for examples

    A platform whose SDK calls succeed, given what the peer does, and transparent
    cryptography: hashes and codes are the message, a ciphertext is the plaintext, keys
    and signatures have their 64 bytes. *)
From stdpp Require Import base list numbers option strings.
From Stdlib Require Import ZArith Lia.
From S2P Require Import Prelude SgxCCLib EnclaveCrypto.
Local Open Scope Z_scope.

Section toy.
Context {W : Type}.
(** The value, length and code for a key, the same for a query, and the effect of a write *)
Context (get query : bytes → W → bytes * Z * bytes) (put : bytes → bytes → W → W).

Definition toy_platform : Platform W := {|
  SGX_SUCCESS := 0; SGX_ERROR_UNEXPECTED := 1; SGX_ERROR_OUT_OF_MEMORY := 3;
  sgx_unexpected_error := ltac:(discriminate); sgx_memory_error := ltac:(discriminate);
  sizeof_target_info := 512; sizeof_gid := 4; BUFSIZ := 8192;
  access_ok _ _ := true;
  golog _ w := w;
  sgx_create_enclave _ _ w := (0, 7, w);
  sgx_destroy_enclave _ w := (0, w);
  sgx_calc_quote_size _ _ _ w := (0, 4, w);
  sgx_get_target_info _ ti w := (0, ti, w);
  sgx_init_quote _ gid w := (0, bs "qe", gid, w);
  sgx_get_quote report _ _ _ _ n w := (0, take (Z.to_nat n) report, w);
  SgxCCLib.ecall_init _ _ w := (0, 0, w);
  SgxCCLib.ecall_create_report _ _ ti _ _ w := (0, 0, ti, bs "pk", w);
  SgxCCLib.ecall_get_pk _ _ _ w := (0, 0, bs "pk", w);
  ecall_bind_tlcc _ _ _ _ w := (0, 0, w);
  ecall_cc_invoke _ _ _ _ response _ n sig w := (0, 0, response, n, sig, w);
  ecall_join_channel _ _ _ _ w := (0, 0, w);
  ecall_next_block _ _ _ _ w := (0, 0, w);
  ecall_get_state_metadata _ _ _ _ cmac w := (0, 0, cmac, w);
  ecall_get_multi_state_metadata _ _ _ _ cmac w := (0, 0, cmac, w);
  ecall_print_state _ _ w := (0, 0, w);
  get_creator_name msp _ dn _ w := (msp, dn, w);
  get_state key _ _ _ _ w := (get key w, w);
  get_state_by_partial_composite_key key _ _ _ _ w := (query key w, w);
  put_state key val _ w := put key val w
|}.

Lemma toy_invalid : 2 ≠ SGX_SUCCESS (Platform := toy_platform).
Proof. discriminate. Qed.

Definition toy_crypto : SgxCrypto W (H := toy_platform) := {|
  SGX_ERROR_INVALID_PARAMETER := 2; sgx_invalid_error := toy_invalid;
  sgx_sha256_msg m := m;
  sgx_cmac128 _ m := m;
  sgx_read_rand n w := (0, replicate n x00, w);
  sgx_rijndael128GCM_encrypt _ _ plain := (0, plain, replicate 16 x00);
  sgx_rijndael128GCM_decrypt _ _ _ ct := (0, ct);
  sgx_ecc256_open_context w := (0, w);
  sgx_ecc256_create_key_pair w := (0, replicate 32 x01, replicate 64 x02, w);
  sgx_ecdsa_sign _ _ := (0, replicate 64 x03);
  sgx_ecc256_compute_shared_dhkey _ _ := (0, replicate 32 x04);
  sgx_create_report _ data := (0, data);
  sgx_verify_report _ := 0;
  report_data r := r
|}.
End toy.
