(* ===== verification/EnclaveTheorems.v ===== *)
(** * The two enclaves together: signed responses, binding, and concrete instances

    The response the chaincode enclave signs is the one the ledger enclave checks; the
    binding of the two; where what is signed is weaker than intended. *)
From stdpp Require Import base list numbers option sets strings.
From Stdlib Require Import ZArith Lia.
From S2P Require Import Prelude ParsonText CNum JsonSpec Base64 StdMap Utils SgxCCLib.
From S2P Require Import EnclaveCrypto Ledger LedgerProof LedgerTheorems Shim Enclave EnclaveProof Samples.
From Stdlib Require Import ssreflect.
Local Open Scope Z_scope.

Section signing.
Context `{Proto} `{OpenSSL} `{Stack} {W : Type} `{SgxCrypto W}.
Implicit Types (ctx : t_shim_ctx W) (e : enclave).

(** The documented behaviour of ECDSA: what the SDK signs for a hash, which it hashes
    once more, OpenSSL verifies, once the two numbers of the signature are big endian
    and DER-encoded ([der], done by the peer). *)
Definition ecdsa_correct (der : bytes → bytes) (sk pk : bytes) : Prop := ∀ hash sig sig_be,
  sgx_ecdsa_sign hash sk = (SGX_SUCCESS, sig) → swap_key sig = Some sig_be →
  ECDSA_do_verify (SHA256 hash) (d2i_ECDSA_SIG (der sig_be)) (PUBKEY_EC_KEY pk) = 1.

(** A chaincode gets an opaque context and cannot change the recorded arguments. *)
Definition keeps_args (invoke : Z → SM W (Z * bytes)) : Prop := ∀ n ctx a ctx',
  invoke n ctx = Done a ctx' → encoded_args ctx' = encoded_args ctx.

(** The payload the peer makes of a response: three fields in base 64 *)
Definition response_json (response signature pk : bytes) : json :=
  JObject [(bs "ResponseData", JString (base64_encode response));
           (bs "Signature", JString (base64_encode signature));
           (bs "PublicKey", JString (base64_encode pk))].

Lemma response_fields response signature pk :
  let root := Some (response_json response signature pk) in
  ecc_field root (bs "ResponseData") = Some response ∧
  ecc_field root (bs "Signature") = Some signature ∧ ecc_field root (bs "PublicKey") = Some pk.
Proof. split_and!; exact (f_equal Some (base64_decode_encode _)). Qed.
Lemma unmarshal_response payload old n response signature pk :
  parse_json (cstr payload) = Some (response_json response signature pk) →
  Z.of_nat (length response) ≤ n →
  (length signature ≤ 96)%nat → (length pk ≤ 96)%nat →
  unmarshal_ecc_response payload old n 96 96 = Some (1, (response, signature, pk)).
Proof.
  intros Hp Hr Hs Hk. destruct old as [[r0 s0] p0]. unfold unmarshal_ecc_response. rewrite Hp.
  destruct (response_fields response signature pk) as (-> & -> & ->). cbn [mbind option_bind].
  by do 3 (rewrite Z.gtb_ltb (proj2 (Z.ltb_ge _ _)); [lia|]).
Qed.

Lemma gen_response_signed e txType response sig0 ctx sig :
  gen_response e txType response sig0 ctx = Some (SGX_SUCCESS, sig) →
  ∃ sig_le, sgx_ecdsa_sign (sgx_sha256_msg (response_message txType response ctx)) (enclave_sk e)
              = (SGX_SUCCESS, sig_le) ∧ swap_key sig_le = Some sig.
Proof.
  unfold gen_response. destruct (sgx_ecdsa_sign _ _) as [ret sig_le] eqn:E. cbv zeta.
  case_bool_decide as Hret; simpl; [|naive_solver].
  destruct (swap_key sig_le) eqn:E'; [|done]. intros [= -> <-]. by exists sig_le.
Qed.

Lemma invoke_enc_keeps invoke e pk : keeps_args invoke → keeps_args (invoke_enc invoke e pk).
Proof.
  intros Hkeep n ctx a ctx'. unfold invoke_enc, mbind, SM_bind, ctx_get, set_json_args.
  destruct (swap_key _) as [pk_bytes|]; [|done]. cbv zeta. destruct (sgx_ecc256_compute_shared_dhkey _ _) as [ret dh].
  destruct (negb _); [by intros [= _ <-]|]. destruct (bytes_swap _ _ _) as [shared|]; [|done].
  destruct (_ <? _)%nat; [done|]. destruct (sgx_rijndael128GCM_decrypt _ _ _ _) as [ret' plain].
  destruct (negb _); [by intros [= _ <-]|]. intros E. by apply Hkeep in E.
Qed.
Lemma invoke_signed invoke e args client_pk n sig0 w response sig ctx :
  keeps_args invoke →
  ecall_cc_invoke invoke e args client_pk n sig0 w = Some (SGX_SUCCESS, response, sig, ctx) →
  encoded_args ctx = args ∧ gen_response e (bs "invoke") response sig0 ctx = Some (SGX_SUCCESS, sig).
Proof.
  intros Hkeep. unfold ecall_cc_invoke. cbv zeta.
  assert (Hcall : keeps_args (λ n, match decide (length client_pk = 0%nat) with
    left _ => set_json_args args;; invoke n | right _ => invoke_enc invoke e client_pk n end)).
  { intros n' c a c'. destruct (decide _); [|by apply invoke_enc_keeps]. intros E. by apply Hkeep in E. }
  specialize (Hcall n). cbv beta in Hcall.
  match goal with |- match ?call with _ => _ end = _ → _ => destruct call as [[ret r] c| |] eqn:E end; [|done..]. apply Hcall in E. simpl in E.
  destruct (ret =? 0); simpl.
  - destruct (gen_response e _ r sig0 c) as [[ret' sig']|] eqn:E'; simpl; [|done].
    intros [= -> -> -> ->]. by split.
  - intros [= Hu]. by destruct sgx_unexpected_error.
Qed.

Lemma messages_agree txType response ctx :
  ecc_message txType (encoded_args ctx) response (read_set ctx) (write_set ctx)
    = response_message txType response ctx.
Proof. reflexivity. Qed.


(** C31. Binding stores the key of the ledger enclave only when its attestation report is
    verified and carries the hash of that key; every other outcome leaves the enclave as
    it was, and reports success only for the call without report and key. *)
Theorem bind_tlcc_exact e report pubkey ret e'
    (Hbind : ecall_bind_tlcc e report pubkey = Some (ret, e')) :
  (e' = e ∧ (ret = SGX_SUCCESS → report = None ∧ pubkey = None)) ∨
  (∃ r pk, report = Some r ∧ pubkey = Some pk ∧ ret = SGX_SUCCESS ∧
     sgx_verify_report r = SGX_SUCCESS ∧
     take 32 (sgx_sha256_msg (take 64 pk)) = take 32 (report_data r) ∧
     e' = mkEnclave (enclave_sk e) (enclave_pk e) (take 64 pk)).
Proof.
  destruct report as [r|], pubkey as [pk|]; simpl in Hbind; try done; [|naive_solver].
  case_bool_decide as Hd; simpl in Hbind.
  - case_bool_decide as Hv; simpl in Hbind; injection Hbind as <- <-; [|left; done].
    right. by exists r, pk.
  - injection Hbind as <- <-. left. split; [done|]. intros E. by destruct sgx_invalid_error.
Qed.
End signing.

Section gaps.
Context `{Proto} `{OpenSSL} `{Stack}.

(** A composite key gets two names in the sets the ledger enclave rebuilds: a range
    query records it without the leading dot, a write with it.  The chaincode enclave
    uses the second form for both, so the read set of a range query never matches. *)
Theorem range_read_name_differs ns raw v val version comps (s : ledger X509_STORE)
    (Hraw : at_c raw 0 = x00) (Hcomps : components raw s = Value comps s) :
  (∃ valid, check_range_read ns ns (true, []) (mkKVRead (Some raw) v) s
              = Value (valid, [(comps, ())]) s) ∧
  (∃ s', ecc_write ns version [] (mkKVWrite (Some raw) (Some val)) s
              = Value [(bs "." ++ comps, val)] s') ∧
  comps ≠ bs "." ++ comps.
Proof.
  split_and!.
  - unfold check_range_read, mbind, LM_bind, deref. cbn [read_key read_version].
    cbv [mret LM_ret]. rewrite Hcomps. unfold check_read, mbind, LM_bind, get.
    rewrite bool_decide_eq_true_2 //. destruct (conflict _ _ _); by eexists.
  - unfold ecc_write, mbind, LM_bind, deref. cbn [write_key write_value].
    cbv [mret LM_ret]. case_decide; [|done]. rewrite Hcomps. eexists. reflexivity.
  - intros E. apply (f_equal length) in E. rewrite length_app in E. simpl in E. lia.
Qed.

(** The signed message is a concatenation without lengths: different read sets, or a
    key of the read set moved to the response, give the same message, hence the same
    signature. *)
Theorem response_message_ambiguous {W} (w : W) (args a b : bytes) :
  let ctx r := mkCtx W w r [] args [] [] in
  response_message (bs "invoke") [] (ctx [(a, ()); (b, ())]) =
    response_message (bs "invoke") [] (ctx [(a ++ b, ())]) ∧
  response_message (bs "invoke") [] (ctx [(a, ())]) = response_message (bs "invoke") a (ctx []).
Proof.
  unfold response_message, set_elements. simpl. by rewrite !app_nil_r.
Qed.
End gaps.

(** ** A small instance

    The peer holds one answer, which a write replaces. *)
Definition cell : Type := bytes * Z * bytes.
Definition cell_platform : Platform cell :=
  toy_platform (λ _ w, w) (λ _ w, w) (λ _ val _, (val, Z.of_nat (length val), [])).
#[local] Existing Instance cell_platform.
Definition cell_crypto : SgxCrypto cell := toy_crypto _ _ _.
#[local] Existing Instances cell_crypto sample_openssl sample_proto sample_stack.

Definition cell_ctx (w : cell) : t_shim_ctx cell := mkCtx cell w [] [] (bs "[]") (bs "[]") [].

Lemma cell_gcm : gcm_correct ∧ rand_correct.
Proof.
  split.
  - intros key iv plain ct mac [= <- <-]. done.
  - intros n w. apply length_replicate.
Qed.
Lemma cell_seals val : seals (base64_encode (replicate 12 x00 ++ replicate 16 x00 ++ val)) val.
Proof. by exists (replicate 12 x00), (replicate 16 x00), val. Qed.

Lemma private_state_roundtrip_witness :
  ∃ stored ctx2, get_state (bs "k") 3 (cell_ctx (stored, Z.of_nat (length stored), [])) = Done (bs "abc") ctx2.
Proof.
  destruct (private_state_roundtrip (bs "k") (bs "abc") (cell_ctx ([], 0, []))
    match put_state (bs "k") (bs "abc") (cell_ctx ([], 0, [])) with Done _ c => c | _ => cell_ctx ([], 0, []) end
    (proj1 cell_gcm) (proj2 cell_gcm)) as (stored & w & _ & Hget); [reflexivity|vm_compute; set_solver|].
  destruct (Hget 3 (cell_ctx (stored, Z.of_nat (length stored), []))) as [ctx2 E]; [done|lia| |by exists stored, ctx2].
  exists [], [], (stored, Z.of_nat (length stored), []). by rewrite app_nil_r.
Defined.

Lemma get_state_overflow_witness :
  let stored := base64_encode (replicate 12 x00 ++ replicate 16 x00 ++ bs "0123456789a") in
  get_state (bs "k") 10 (cell_ctx (stored, Z.of_nat (length stored), [])) = Crash.
Proof.
  intros stored. apply (get_state_overflow (bs "k") (bs "0123456789a") stored 10).
  - apply cell_seals.
  - reflexivity.
  - vm_compute. discriminate.
  - exists [], [], (stored, Z.of_nat (length stored), []). by rewrite app_nil_r.
Defined.

Lemma cmac_not_enforced_witness :
  ∃ ctx', get_public_state (bs "k") [] 9 (cell_ctx (bs "forged", 6, bs "bad")) = Done (bs "forged", 6) ctx' ∧
    read_set ctx' = [(bs "k", ())].
Proof.
  destruct (cmac_not_enforced (bs "k") [] 9 (cell_ctx (bs "forged", 6, bs "bad")) (bs "forged") 6 (bs "bad")
    (bs "forged", 6, bs "bad")) as (ctx' & E & Hr & _); [reflexivity|done|]. by exists ctx'.
Defined.

Lemma write_set_keeps_first_witness :
  ∃ ctx2, map_find (write_set ctx2) (bs "k") = Some (bs "one") ∧ world ctx2 = ((bs "three", 5, []) : cell).
Proof.
  destruct (write_set_keeps_first (bs "k") (bs "one") (bs "three") (cell_ctx ([], 0, [])))
    as (ctx1 & ctx2 & _ & _ & E & Hw); [reflexivity|constructor|]. by exists ctx2.
Defined.

Lemma cell_hash : same_hash.
Proof. done. Qed.
(** The ledger of the instance holds ["b"] under [lscc.k]. *)
Lemma honest_read_accepted_witness :
  let cmac := ecall_get_state_metadata (bs "lscc.k") [] sample_ledger in
  get_public_state (bs "k") [] 9 (cell_ctx (bs "b", 1, cmac)) =
    Done (bs "b", 1) (after_read (cell_ctx (bs "b", 1, cmac)) (bs "k") (bs "b", 1, cmac) []).
Proof.
  intros cmac. apply (honest_read_accepted (bs "lscc") (bs "k") (bs "b") (mkVersion 1 0) sample_ledger [] []
    [] 9 (cell_ctx (bs "b", 1, cmac)) (bs "b", 1, cmac) cell_hash eq_refl); [reflexivity|reflexivity|done].
Defined.
Lemma honest_absent_read_reported_witness :
  let cmac := ecall_get_state_metadata (bs "lscc.q") [] sample_ledger in
  get_public_state (bs "q") [] 9 (cell_ctx ([], 0, cmac)) =
    Done ([], 0) (after_read (cell_ctx ([], 0, cmac)) (bs "q") ([], 0, cmac) [CmacMismatch]).
Proof.
  intros cmac. apply (honest_absent_read_reported (bs "lscc") (bs "q") sample_ledger [] []
    [] 9 (cell_ctx ([], 0, cmac)) ([], 0, cmac) eq_refl); [reflexivity|reflexivity|done|vm_compute; discriminate].
Defined.

Definition cell_query : bytes := serialize_json false 0 (JArray [pair_json (bs ".k", bs "b")]) ++ [x00].
Lemma honest_query_accepted_witness :
  let w := (cell_query, 0, ecall_get_multi_state_metadata (bs "lscc.") [] sample_ledger) in
  get_public_state_by_partial_composite_key (bs ".") [] (cell_ctx w) =
    Done [(bs ".k", bs "b")] (mkCtx cell w [(bs ".k", ())] [] (bs "[]") (bs "[]") []).
Proof.
  intros w. apply (honest_query_accepted (bs "lscc") [] sample_ledger [] cell_query 0 (cell_ctx w) w cell_hash
    eq_refl (proj1 sample_sorted)); [reflexivity|done|vm_compute; set_solver|vm_compute; reflexivity].
Defined.

(** A chaincode that writes one key and answers ["ok"] *)
Definition cell_invoke (_ : Z) : SM cell (Z * bytes) :=
  put_public_state (bs "k") (bs "v");; mret (0, bs "ok").
Definition cell_enclave : enclave := mkEnclave (replicate 32 x01) (replicate 64 x02) (replicate 64 x00).
Definition cell_payload : bytes :=
  serialize_json false 0 (response_json (bs "ok") (replicate 64 x03) (bs "pk")).
Definition cell_done : t_shim_ctx cell :=
  mkCtx cell (bs "v", 1, []) [] [(bs "k", bs "v")] (marshal_ecc_args []) (marshal_ecc_args []) [].


Lemma bind_tlcc_exact_witness :
  let key := replicate 64 x05 in
  ∃ e', ecall_bind_tlcc (W:=cell) cell_enclave (Some key) (Some key) = Some (0, e') ∧
    tlcc_pk e' = key.
Proof.
  intros key. eexists. split; [reflexivity|].
  destruct (bind_tlcc_exact (W:=cell) cell_enclave (Some key) (Some key) 0
    (mkEnclave (replicate 32 x01) (replicate 64 x02) key)) as [[E _]|(r & pk & _ & [= <-] & _ & _ & _ & E)];
    [reflexivity|discriminate E|]. reflexivity.
Defined.

Lemma range_read_name_differs_witness :
  ∃ valid, check_range_read (bs "ecc") (bs "ecc") (true, [])
             (mkKVRead (Some (x00 :: bs "a" ++ x00 :: bs "b" ++ [x00])) (mkVersion 0 0)) sample_ledger
             = Value (valid, [(bs "a.b.", ())]) sample_ledger.
Proof.
  destruct (range_read_name_differs (bs "ecc") (x00 :: bs "a" ++ x00 :: bs "b" ++ [x00]) (mkVersion 0 0) []
    (mkVersion 0 0) (bs "a.b.") sample_ledger eq_refl) as [E _]; [reflexivity|exact E].
Defined.
