(* ===== verification/Peer.v ===== *)
(** * An honest peer

    What the chaincodes may expect of the peer and the SDK when both do their work: the
    peer returns what was written last, random bytes have their length, and AES-GCM
    always encrypts and decrypts what it encrypted.  The theorems about chaincodes are
    proved against this interface. *)
From stdpp Require Import base list numbers option strings.
From Stdlib Require Import ZArith Lia.
From S2P Require Import Prelude JsonSpec Base64 StdMap SgxCCLib EnclaveCrypto Ledger Shim EnclaveProof Samples.
Local Open Scope Z_scope.

Class HonestPeer (W : Type) `{SgxCrypto W} := {
  (** what the peer holds under a key *)
  holds : W → bytes → option bytes;
  peer_get key buf size cmac w :
    Z.of_nat (length (default [] (holds w key))) ≤ size →
    ∃ rest cmac' w', ocall_get_state key buf size 0 cmac w =
      (default [] (holds w key) ++ rest, Z.of_nat (length (default [] (holds w key))), cmac', w') ∧
      ∀ k, holds w' k = holds w k;
  peer_put key val w k :
    holds (ocall_put_state key val (Z.of_nat (length val)) w) k =
      if decide (k = key) then Some val else holds w k;
  peer_rand n w k : holds (sgx_read_rand n w).2 k = holds w k;
  peer_rand_size : rand_correct;
  peer_gcm : gcm_correct;
  peer_gcm_total key iv plain : ∃ ct mac,
    sgx_rijndael128GCM_encrypt key iv plain = (SGX_SUCCESS, ct, mac)
}.

(** ** A peer that is a map

    Keys are assigned; a query answers with the entries below the key, in JSON. *)
Definition store_get (key : bytes) (w : omap bytes) : bytes * Z * bytes :=
  let v := default [] (map_find w key) in (v, Z.of_nat (length v), []).
Definition store_query (key : bytes) (w : omap bytes) : bytes * Z * bytes :=
  let text := serialize_json false 0 (JArray (pair_json <$> filter (λ e, has_prefix key e.1 = true) w)) in
  (text ++ [x00], Z.of_nat (length text), []).
Definition store_platform : Platform (omap bytes) := toy_platform store_get store_query (λ k v w, map_assign w k v).
Definition store_crypto : SgxCrypto (omap bytes) (H := store_platform) := toy_crypto _ _ _.

Section store.
#[local] Existing Instances store_platform store_crypto.
Lemma store_peer_get key (buf : bytes) (size : Z) (cmac : bytes) (w : omap bytes) :
  Z.of_nat (length (default [] (map_find w key))) ≤ size →
  ∃ rest cmac' w', ocall_get_state key buf size 0 cmac w =
    (default [] (map_find w key) ++ rest, Z.of_nat (length (default [] (map_find w key))), cmac', w') ∧
    ∀ k, map_find w' k = map_find w k.
Proof. intros _. exists [], [], w. by rewrite app_nil_r. Qed.
Lemma store_peer_put key val (w : omap bytes) k :
  map_find (ocall_put_state key val (Z.of_nat (length val)) w) k =
    if decide (k = key) then Some val else map_find w k.
Proof.
  etrans; [apply find_assign|]. case_bool_decide as E; case_decide as E'; congruence.
Qed.
Lemma store_gcm : gcm_correct.
Proof. by intros key iv plain ct mac [= <- <-]. Qed.
Lemma store_rand : rand_correct.
Proof. intros n w. apply length_replicate. Qed.

Definition store_peer : HonestPeer (omap bytes) := {|
  holds := map_find;
  peer_get := store_peer_get;
  peer_put := store_peer_put;
  peer_rand _ _ _ := eq_refl;
  peer_rand_size := store_rand;
  peer_gcm := store_gcm;
  peer_gcm_total key iv plain := ex_intro _ plain (ex_intro _ (replicate 16 x00) eq_refl) |}.
End store.

From Stdlib Require Import ssreflect.

Section peer.
Context {W : Type} `{HonestPeer W}.
Implicit Types (ctx : t_shim_ctx W) (w : W) (key val : bytes).

(** The private value under a key: what the peer holds is its sealed form. *)
Definition private w key val : Prop := ∃ stored, holds w key = Some stored ∧ seals stored val.

(** Two states of the peer that hold the same. *)
Definition same_holds w w' : Prop := ∀ k, holds w' k = holds w k.
#[export] Instance same_holds_preorder : PreOrder same_holds.
Proof. split; [by intros w k|]. intros w1 w2 w3 H12 H23 k. by rewrite H23. Qed.

Lemma private_same w w' key val : same_holds w w' → private w key val → private w' key val.
Proof. intros Hs (stored & Hh & Hv). exists stored. by rewrite Hs. Qed.

(** A read of a private value that fits the buffer *)
Lemma get_private key val max ctx :
  private (world ctx) key val → Z.of_nat (length val) ≤ max → max + 30 < 3 * 2 ^ 30 →
  ∃ ctx', get_state key max ctx = Done val ctx' ∧ same_holds (world ctx) (world ctx') ∧
    json_args ctx' = json_args ctx.
Proof.
  intros (stored & Hh & Hs) Hle Hmax. pose proof (sealed_size val stored max Hs Hle Hmax) as Hsize.
  destruct (peer_get key (replicate (Z.to_nat (encoded_size max)) x00) (encoded_size max)
              (replicate 16 x00) (world ctx)) as (rest & cmac & w' & Ho & Hw); [by rewrite Hh|].
  rewrite Hh /= in Ho.
  destruct (get_sealed_at key val stored max ctx rest cmac w' Hs Hsize Ho) as (ctx' & -> & _ & _ & Hj & <-).
  exists ctx'. rewrite Z.gtb_ltb (proj2 (Z.ltb_ge _ _)) //.
Qed.

(** A read of a key the peer does not hold *)
Lemma get_absent key max ctx : holds (world ctx) key = None →
  ∃ ctx', get_state key max ctx = Done [] ctx' ∧ same_holds (world ctx) (world ctx') ∧
    json_args ctx' = json_args ctx.
Proof.
  intros Hh. assert (Hsize : 0 ≤ encoded_size max) by (unfold encoded_size; apply Z.mod_pos_bound; lia).
  destruct (peer_get key (replicate (Z.to_nat (encoded_size max)) x00) (encoded_size max)
              (replicate 16 x00) (world ctx)) as (rest & cmac & w' & Ho & Hw); [by rewrite Hh|].
  rewrite Hh /= in Ho.
  unfold get_state, mbind, SM_bind. cbv zeta. rewrite (get_public_state_done _ _ _ _ _ _ _ _ Ho Hsize).
  eexists. split; [reflexivity|]. done.
Qed.

(** A write *)
Lemma put_private key val ctx : ∃ ctx', put_state key val ctx = Done () ctx' ∧
  private (world ctx') key val ∧ (∀ k, k ≠ key → holds (world ctx') k = holds (world ctx) k) ∧
  json_args ctx' = json_args ctx.
Proof.
  unfold put_state, encrypt_state, mbind, SM_bind, ctx_get. cbv zeta. rewrite Z.geb_leb Z.leb_refl.
  pose proof (peer_rand_size SGX_AESGCM_IV_SIZE (world ctx)) as Hiv.
  pose proof (peer_rand SGX_AESGCM_IV_SIZE (world ctx)) as Hkeep.
  destruct (sgx_read_rand _ (world ctx)) as [[st iv] w1]. simpl in Hiv, Hkeep.
  destruct (peer_gcm_total state_encryption_key iv val) as (ct & mac & E). rewrite E.
  unfold set_world. rewrite bool_decide_eq_true_2 //. eexists. split; [reflexivity|]. simpl.
  destruct (peer_gcm _ _ _ _ _ E) as (Hd & Hct & Hmac). split_and!; [| |done].
  - exists (base64_encode (iv ++ mac ++ ct)). rewrite peer_put decide_True //. split; [done|].
    exists iv, mac, ct. done.
  - intros k Hk. rewrite peer_put decide_False //.
Qed.
End peer.

