(* ===== verification/Chaincodes.v ===== *)
(** * What the chaincodes share

    A chaincode is an [invoke] of the enclave: it reads its arguments from the context,
    reads and writes state through the shim and leaves a response: the status and the
    bytes written to the response buffer.  Here is what the chaincodes use of the C++
    library, and the code that ends each of them. *)
From stdpp Require Import base list numbers option strings.
From Stdlib Require Import ZArith Lia.
From S2P Require Import Prelude ParsonText CNum JsonSpec SgxCCLib EnclaveCrypto Shim.
Local Open Scope Z_scope.

Section cplusplus.
Context {W : Type} `{SgxCrypto W}.
Local Abbreviation SM := (SM W).

(** [v[i]] of a [std::vector]: undefined outside it *)
Definition vector_at {A} (l : list A) (i : nat) : SM A :=
  match l !! i with Some a => mret a | None => crash end.

(** [std::stoi(s)]: blanks, a sign and decimal digits; what follows is ignored *)
Definition stoi (s : bytes) : SM Z :=
  let s := SKIP_WHITESPACES (cstr s) in
  let '(neg, s) :=
    if decide (hd_c s = "-"%byte) then (true, tail s)
    else if decide (hd_c s = "+"%byte) then (false, tail s) else (false, s) in
  let '(ds, _) := span isdigit s in
  if decide (ds = []) then throw (bs "stoi: invalid_argument")
  else
    let v := if neg : bool then - digits_value 10 ds else digits_value 10 ds in
    if in_int v then mret v else throw (bs "stoi: out_of_range").

(** The end of every chaincode: the result is copied if it fits the response buffer. *)
Definition respond (result : bytes) (max_response_len : Z) : SM (Z * bytes) :=
  if max_response_len <? Z.of_nat (length result) then mret (-1, []) else mret (0, result).
End cplusplus.

(** The memory of an [int], little endian *)
Definition int_bytes (v : Z) : bytes :=
  [to_byte v; to_byte (v / 2 ^ 8); to_byte (v / 2 ^ 16); to_byte (v / 2 ^ 24)].
(** The number whose bytes are [l], the least significant first *)
Definition of_little_endian (l : bytes) : Z := foldr (λ b a, uchar b + 256 * a) 0 l.

(** ** JSON *)

(** [json_object_set_string]: a string that is not UTF-8 makes no value and is left out. *)
Definition string_entry (k s : bytes) : list (bytes * json) :=
  if is_valid_utf8 s (Z.of_nat (length s)) then [(k, JString s)] else [].

(** [json_object_get_value(json_object(root), name)] *)
Definition member (root : option json) (name : bytes) : option json :=
  match root with Some (JObject kvs) => olookup name kvs | _ => None end.
