(* ===== verification/Echo.v ===== *)
(** * The echo chaincode (examples/echo/echo_cc.cpp): it answers with its first argument. *)
From stdpp Require Import base list numbers option strings.
From Stdlib Require Import ZArith Lia.
From S2P Require Import Prelude ParsonText CNum SgxCCLib EnclaveCrypto Shim Chaincodes.
Local Open Scope Z_scope.

Section echo.
Context {W : Type} `{SgxCrypto W}.

Definition invoke (max_response_len : Z) : SM W (Z * bytes) :=
  '(_, argss) ← get_string_args;
  result ← vector_at argss 0;
  respond result max_response_len.
End echo.
