(* ===== verification/Helloworld.v ===== *)
(** * The helloworld chaincode (examples/helloworld/helloworld_cc.cpp): assets with an
      integer value. *)
From stdpp Require Import base list numbers option strings.
From Stdlib Require Import ZArith Lia.
From S2P Require Import Prelude ParsonText CNum SgxCCLib EnclaveCrypto Shim Chaincodes.
Local Open Scope Z_scope.

Section helloworld.
Context {W : Type} `{SgxCrypto W}.

Definition MAX_VALUE_SIZE : Z := 1024.

Definition storeAsset (asset_name : bytes) (value : Z) : SM W bytes :=
  put_state (cstr asset_name) (int_bytes value);; mret (bs "OK").

(** Only the first byte of the value is read. *)
Definition retrieveAsset (asset_name : bytes) : SM W bytes :=
  asset_bytes ← get_state (cstr asset_name) MAX_VALUE_SIZE;
  match asset_bytes with
  | b :: _ => mret (asset_name ++ bs ":" ++ show_int (uchar b))
  | [] => mret (bs "Asset not found")
  end.

Definition invoke (max_response_len : Z) : SM W (Z * bytes) :=
  '(_, function_name, params) ← get_func_and_params;
  asset_name ← vector_at params 0;
  if decide (function_name = bs "storeAsset") then
    p ← vector_at params 1;
    value ← stoi p;
    result ← storeAsset asset_name value;
    respond result max_response_len
  else if decide (function_name = bs "retrieveAsset") then
    result ← retrieveAsset asset_name;
    respond result max_response_len
  else mret (-1, []).
End helloworld.
