(* ===== verification/Auction.v ===== *)
(** * The auction chaincode (examples/auction/auction_cc.cpp, auction_json.cpp)

    Auctions and bids are JSON texts in the private state: an auction under its name, a
    bid under the composite key of the auction and the bidder.  An auction is created
    open, takes bids, is closed, and then evaluated.

    [parson] is used through its specification ([parse_json], [serialize_json]); a text
    that is not followed by a NUL in its buffer is followed by what the stack held,
    [uninit], and then taken to end. *)
From stdpp Require Import base list numbers option strings.
From Stdlib Require Import ZArith Lia.
From S2P Require Import Prelude ParsonText CNum JsonSpec StdMap SgxCCLib EnclaveCrypto Ledger Shim Chaincodes.
Local Open Scope Z_scope.

(** ** auction_json.cpp *)

Record auction_t := mkAuction { name : bytes; is_open : bool }.
Record bid_t := mkBid { bidder_name : bytes; value : Z }.

Definition auction_json (the_auction : auction_t) : json :=
  JObject (string_entry (bs "name") (cstr (name the_auction)) ++
           [(bs "is_open", JBool (is_open the_auction))]).
Definition marshal_auction (the_auction : auction_t) : bytes :=
  serialize_json false 0 (auction_json the_auction).
Definition bid_json (bid : bid_t) : json :=
  JObject (string_entry (bs "bidder") (cstr (bidder_name bid)) ++
           [(bs "value", JNumber (double_of_int (value bid)))]).
Definition marshal_bid (bid : bid_t) : bytes := serialize_json false 0 (bid_json bid).

Section auction.
Context {W : Type} `{SgxCrypto W} `{Stack}.
Local Abbreviation SM := (SM W).

(** A missing name is a NULL pointer for the string; [json_object_get_boolean] gives -1
    for a missing member, which is true as [bool]. *)
Definition unmarshal_auction (json_bytes : bytes) : SM auction_t :=
  let root := parse_json (cstr json_bytes) in
  n ← string_of (match member root (bs "name") with Some (JString s) => Some s | _ => None end);
  mret (mkAuction n (match member root (bs "is_open") with Some (JBool b) => b | _ => true end)).
Definition unmarshal_bid (json_bytes : bytes) : SM bid_t :=
  let root := parse_json (cstr json_bytes) in
  b ← string_of (match member root (bs "bidder") with Some (JString s) => Some s | _ => None end);
  match int_of_double (match member root (bs "value") with Some (JNumber d) => d | _ => S754_zero false end) with
  | Some v => mret (mkBid b v)
  | None => crash
  end.

(** ** auction_cc.cpp *)

Definition MAX_VALUE_SIZE : Z := 1024.
Definition OK : bytes := bs "OK".
Definition AUCTION_DRAW : bytes := bs "DRAW".
Definition AUCTION_NO_BIDS : bytes := bs "NO_BIDS".
Definition AUCTION_ALREADY_EXISTING : bytes := bs "AUCTION_ALREADY_EXISTING".
Definition AUCTION_NOT_EXISTING : bytes := bs "AUCTION_NOT_EXISTING".
Definition AUCTION_ALREADY_CLOSED : bytes := bs "AUCTION_ALREADY_CLOSED".
Definition AUCTION_STILL_OPEN : bytes := bs "AUCTION_STILL_OPEN".
Definition INITIALIZED_KEY : bytes := bs "initialized".
Definition AUCTION_HOUSE_NAME_KEY : bytes := bs "auction_house_name".
Definition SEP : bytes := bs ".".
Definition PREFIX : bytes := SEP ++ bs "somePrefix" ++ SEP.

Definition init_auction_house (auction_house_name : bytes) : SM bytes :=
  put_state AUCTION_HOUSE_NAME_KEY auction_house_name;;
  put_state INITIALIZED_KEY [x01];;
  mret OK.

Definition auction_create (auction_name : bytes) : SM bytes :=
  auction_bytes ← get_state (cstr auction_name) MAX_VALUE_SIZE;
  if (0 <? length auction_bytes)%nat then mret AUCTION_ALREADY_EXISTING
  else
    let new_auction := mkAuction (cstr auction_name) true in
    put_state (cstr auction_name) (marshal_auction new_auction);;
    mret OK.

(** The three functions below start alike: the buffer holds the state and, behind it,
    what the stack held. *)
Definition stored_auction (auction_bytes : bytes) : SM auction_t :=
  unmarshal_auction (auction_bytes ++ uninit (Z.to_nat MAX_VALUE_SIZE - length auction_bytes)).

Definition auction_submit (auction_name bidder_name : bytes) (value : Z) : SM bytes :=
  auction_bytes ← get_state (cstr auction_name) MAX_VALUE_SIZE;
  if (length auction_bytes =? 0)%nat then mret AUCTION_NOT_EXISTING
  else
    the_auction ← stored_auction auction_bytes;
    if negb (is_open the_auction) then mret AUCTION_ALREADY_CLOSED
    else
      let new_key := PREFIX ++ auction_name ++ SEP ++ bidder_name ++ SEP in
      put_state (cstr new_key) (marshal_bid (mkBid bidder_name value));;
      mret OK.

Definition auction_close (auction_name : bytes) : SM bytes :=
  auction_bytes ← get_state (cstr auction_name) MAX_VALUE_SIZE;
  if (length auction_bytes =? 0)%nat then mret AUCTION_NOT_EXISTING
  else
    the_auction ← stored_auction auction_bytes;
    if negb (is_open the_auction) then mret AUCTION_ALREADY_CLOSED
    else
      put_state (cstr auction_name) (marshal_auction (mkAuction (name the_auction) false));;
      mret OK.

(** The search for the highest bid: [winner], [high] and [draw].  Before the first bid
    above -1 the value of [winner] is indeterminate. *)
Record search := mkSearch { winner : option bid_t; high : Z; draw : Z }.
Definition consider (s : search) (b : bid_t) : search :=
  if value b >? high s then mkSearch (Some b) (value b) 0
  else if value b =? high s then mkSearch (winner s) (high s) 1
  else s.
Fixpoint search_bids (values : omap bytes) (s : search) : SM search :=
  match values with
  | [] => mret s
  | u :: rest => b ← unmarshal_bid u.2; search_bids rest (consider s b)
  end.

Definition auction_result (values : omap bytes) : SM bytes :=
  match values with
  | [] => mret AUCTION_NO_BIDS
  | _ =>
      s ← search_bids values (mkSearch None (-1) 0);
      if negb (draw s =? 1) then
        match winner s with Some w => mret (marshal_bid w) | None => crash end
      else mret AUCTION_DRAW
  end.

Definition auction_eval (auction_name : bytes) : SM bytes :=
  auction_bytes ← get_state (cstr auction_name) MAX_VALUE_SIZE;
  if (length auction_bytes =? 0)%nat then mret AUCTION_NOT_EXISTING
  else
    the_auction ← stored_auction auction_bytes;
    if is_open the_auction then mret AUCTION_STILL_OPEN
    else
      let bid_composite_key := PREFIX ++ auction_name ++ SEP in
      values ← get_state_by_partial_composite_key (cstr bid_composite_key) [];
      result ← auction_result values;
      put_public_state (cstr (auction_name ++ SEP ++ bs "outcome" ++ SEP)) result;;
      mret result.

(** Is the auction house initialised?  Its name, of which at most 127 bytes are read, is
    terminated one byte too far, outside the buffer of 128 bytes if it has 127. *)
Definition check_initialized : SM bool :=
  init ← get_state INITIALIZED_KEY 1;
  match init with
  | [] => mret false
  | b :: _ =>
      if decide (b = x00) then mret false
      else
        ahn ← get_state AUCTION_HOUSE_NAME_KEY 127;
        if (negb (length ahn =? 0) && (128 <=? length ahn + 1))%nat then crash else mret true
  end.

Definition invoke (max_response_len : Z) : SM (Z * bytes) :=
  _initialized ← check_initialized;
  '(_, function_name, params) ← get_func_and_params;
  auction_name ← vector_at params 0;
  if negb _initialized && negb (bool_decide (function_name = bs "init")) then mret (-1, [])
  else if decide (function_name = bs "init") then
    result ← init_auction_house auction_name; respond result max_response_len
  else if decide (function_name = bs "create") then
    result ← auction_create auction_name; respond result max_response_len
  else if decide (function_name = bs "submit") then
    v ← vector_at params 2;
    value ← stoi v;
    bidder_name ← vector_at params 1;
    _ ← get_creator_name 1024 1024;
    result ← auction_submit auction_name bidder_name value; respond result max_response_len
  else if decide (function_name = bs "close") then
    result ← auction_close auction_name; respond result max_response_len
  else if decide (function_name = bs "eval") then
    result ← auction_eval auction_name; respond result max_response_len
  else mret (-1, []).
End auction.
