(* ===== verification/ChaincodeJson.v ===== *)
(** * JSON of the chaincodes: what is printed is read back

    Names that survive being printed, and objects read from a buffer. *)
From stdpp Require Import base list numbers option sets strings.
From Stdlib Require Import ZArith Lia.
From S2P Require Import Prelude ParsonText CNum JsonSpec JsonRoundTrip CNumProof CDouble.
From S2P Require Import SgxCCLib EnclaveCrypto Shim Chaincodes.
From Stdlib Require Import ssreflect.
Local Open Scope Z_scope.

(** Names that survive: C strings in UTF-8 *)
Definition good_name (s : bytes) : Prop := nonul s ∧ is_valid_utf8 s (Z.of_nat (length s)) = true.

Lemma string_entry_good k s : good_name s → string_entry k (cstr s) = [(k, JString s)].
Proof. intros [Hn Hu]. unfold string_entry. by rewrite cstr_nonul // Hu. Qed.

(** A printed object is read back from a buffer, whatever follows it there. *)
Lemma parse_buffer kvs junk :
  json_wf (JObject kvs) → Forall normal_number (json_numbers (JObject kvs)) →
  (depth (JObject kvs) ≤ 2049)%nat →
  parse_json (cstr (serialize_json false 0 (JObject kvs) ++ junk)) = Some (JObject kvs).
Proof.
  intros Hwf Hn Hd. rewrite cstr_app; last by apply nonul_serialize.
  apply parse_serialize_object; [done| |lia].
  eapply Forall_impl; [exact Hn|]. apply normal_number_reads.
Qed.

Lemma wf_two k1 k2 x y : k1 ≠ k2 → nonul k1 → nonul k2 → json_wf x → json_wf y →
  json_wf (JObject [(k1, x); (k2, y)]).
Proof.
  intros. apply json_wf_object. split; [|by repeat constructor].
  apply NoDup_cons_2; [set_solver|apply NoDup_singleton].
Qed.

