(* ===== verification/AuctionProof.v ===== *)
(** * The auction chaincode: what is stored is read back, and the best bid wins *)
From stdpp Require Import base list numbers option sets strings.
From Stdlib Require Import ZArith Lia.
From S2P Require Import Prelude ParsonText CNum JsonSpec JsonRoundTrip CNumProof CDouble Base64 StdMap.
From S2P Require Import SgxCCLib EnclaveCrypto Ledger Shim EnclaveProof Chaincodes ChaincodeJson Auction.
From Stdlib Require Import ssreflect.
Local Open Scope Z_scope.

(** ** What is stored is read back *)

Lemma auction_json_good n o : good_name n →
  auction_json (mkAuction n o) = JObject [(bs "name", JString n); (bs "is_open", JBool o)].
Proof. intros Hn. unfold auction_json. by rewrite string_entry_good. Qed.
Lemma bid_json_good n v : good_name n →
  bid_json (mkBid n v) = JObject [(bs "bidder", JString n); (bs "value", JNumber (double_of_int v))].
Proof. intros Hn. unfold bid_json. by rewrite string_entry_good. Qed.

Section roundtrip.
Context {W : Type} `{SgxCrypto W} `{Stack}.
Implicit Types (ctx : t_shim_ctx W).

Lemma auction_roundtrip n o junk ctx : good_name n →
  unmarshal_auction (marshal_auction (mkAuction n o) ++ junk) ctx = Done (mkAuction n o) ctx.
Proof.
  intros Hg. unfold unmarshal_auction, marshal_auction. rewrite auction_json_good // parse_buffer //.
  - apply wf_two; [done|by apply nonul_lit..|apply Hg|done].
  - by repeat constructor.
Qed.
Lemma bid_roundtrip n v ctx : good_name n → in_int v = true →
  unmarshal_bid (marshal_bid (mkBid n v)) ctx = Done (mkBid n v) ctx.
Proof.
  intros Hg Hv. destruct (double_of_int_spec v Hv) as (Hi & Hnorm & Hfin).
  unfold unmarshal_bid, marshal_bid. rewrite bid_json_good //.
  rewrite -(app_nil_r (serialize_json _ _ _)) parse_buffer //.
  - cbn [member olookup]. unfold mbind, SM_bind. simpl. by rewrite Hi.
  - apply wf_two; [done|by apply nonul_lit..|apply Hg|done].
  - by repeat constructor.
  - simpl. lia.
Qed.
End roundtrip.

(** ** The best bid *)

(** The reference: the highest value, the bids that have it, and the outcome *)
Definition best (l : list bid_t) : Z := foldr Z.max (-1) (value <$> l).
Definition tops (l : list bid_t) : list bid_t := filter (λ b, value b = best l) l.
Definition outcome (l : list bid_t) : bytes :=
  match l with
  | [] => AUCTION_NO_BIDS
  | _ => match tops l with [b] => marshal_bid b | _ => AUCTION_DRAW end
  end.

Lemma best_snoc l b : best (l ++ [b]) = Z.max (best l) (value b).
Proof.
  unfold best. rewrite fmap_app foldr_app. simpl.
  induction (value <$> l) as [|x xs IH]; simpl; lia.
Qed.
Lemma best_ge l : Forall (λ b, value b <= best l) l.
Proof.
  induction l as [|b l IH] using rev_ind; [done|]. rewrite best_snoc. apply Forall_app. split.
  - eapply Forall_impl; [exact IH|]. simpl. lia.
  - constructor; [lia|done].
Qed.
Lemma filter_value_none v l : Forall (λ b, value b < v) l → filter (λ b, value b = v) l = [].
Proof. induction 1 as [|b l Hb _ IH]; [done|]. rewrite filter_cons decide_False //. lia. Qed.

(** The loop computes the reference. *)
Lemma search_fold l : Forall (λ b, 0 <= value b) l → l ≠ [] →
  let s := foldl consider (mkSearch None (-1) 0) l in
  high s = best l ∧ tops l ≠ [] ∧ winner s = head (tops l) ∧
  draw s = (if (length (tops l) =? 1)%nat then 0 else 1).
Proof.
  induction l as [|b l IH] using rev_ind; [done|].
  intros [Hl [Hb _]%Forall_cons_1]%Forall_app _. rewrite foldl_snoc.
  destruct (decide (l = [])) as [->|Hne].
  { unfold tops. simpl. unfold consider. simpl. rewrite (proj2 (Z.gtb_lt _ _)); last lia.
    rewrite filter_cons decide_True; [|unfold best; simpl; lia]. simpl. unfold best. simpl. split_and!; done || lia. }
  destruct (IH Hl Hne) as (Hh & Ht & Hw & Hd). set (s := foldl _ _ l) in *. clearbody s.
  unfold consider. rewrite Hh. unfold tops in *. rewrite best_snoc filter_app.
  destruct (Z.gtb_spec (value b) (best l)) as [Hgt|Hle].
  - rewrite Z.max_r; last lia. rewrite filter_value_none /=.
    + rewrite filter_cons decide_True //.
    + eapply Forall_impl; [apply best_ge|]. simpl. lia.
  - rewrite Z.max_l //. rewrite filter_cons filter_nil. destruct (Z.eqb_spec (value b) (best l)) as [Heq|Hneq].
    + rewrite decide_True //=. split; [done|]. destruct (filter _ l) as [|t ts]; [done|].
      rewrite length_app. simpl. split_and!; [done|done|]. by rewrite Nat.add_comm.
    + rewrite decide_False // app_nil_r. done.
Qed.

(** What the reference says *)
Lemma best_attained l b : b ∈ l → Forall (λ b', value b' <= value b) l → -1 <= value b →
  best l = value b.
Proof.
  intros Hb Hle Hv. unfold best. induction l as [|x l IH]; [by apply not_elem_of_nil in Hb|].
  apply Forall_cons in Hle as [Hx Hle]. simpl. apply elem_of_cons in Hb as [->|Hb].
  - clear IH. induction Hle as [|y l Hy Hle IH]; simpl in *; lia.
  - rewrite IH //. lia.
Qed.
Lemma outcome_winner l i b : Forall (λ b, 0 <= value b) l → l !! i = Some b →
  (∀ j b', l !! j = Some b' → j ≠ i → value b' < value b) → outcome l = marshal_bid b.
Proof.
  intros Hpos Hi Hbeat. assert (Hl : l = take i l ++ b :: drop (S i) l) by by rewrite take_drop_middle.
  pose proof (Forall_lookup_1 _ _ _ _ Hpos Hi) as Hb. cbv beta in Hb.
  assert (Hother : Forall (λ b', value b' < value b) (take i l) ∧ Forall (λ b', value b' < value b) (drop (S i) l)).
  { split; apply Forall_lookup; intros j b' Hj.
    - apply lookup_take_Some in Hj as [Hj ?]. apply (Hbeat j); [done|lia].
    - rewrite lookup_drop in Hj. apply (Hbeat _ _ Hj). lia. }
  destruct Hother as [H1 H2].
  assert (Hbest : best l = value b).
  { apply best_attained; [eapply list_elem_of_lookup_2; eauto|apply Forall_lookup|lia]. intros j b' Hj.
    destruct (decide (j = i)) as [->|Hne]; [simplify_eq; lia|]. specialize (Hbeat j b' Hj Hne). lia. }
  assert (Htops : tops l = [b]).
  { unfold tops. rewrite Hbest Hl filter_app filter_cons decide_True // !filter_value_none //. }
  unfold outcome. rewrite Htops. by destruct l.
Qed.
Lemma outcome_draw l i j b b' : Forall (λ b, 0 <= value b) l → i ≠ j → l !! i = Some b → l !! j = Some b' →
  value b = value b' → Forall (λ b'', value b'' <= value b) l → outcome l = AUCTION_DRAW.
Proof.
  intros Hpos Hne Hi Hj Heq Hle.
  assert (Hbest : best l = value b).
  { apply best_attained; [eapply list_elem_of_lookup_2; eauto|done|]. pose proof (Forall_lookup_1 _ _ _ _ Hpos Hi) as Hb. cbv beta in Hb. lia. }
  assert (Htwo : (2 <= length (tops l))%nat).
  { unfold tops. rewrite Hbest. clear Hbest Hle Hpos. revert i j Hne Hi Hj.
    assert (Hone : ∀ l k x, l !! k = Some x → value x = value b → (1 <= length (filter (λ b0, value b0 = value b) l))%nat).
    { clear. intros l k x Hk Hx. assert (Hin : x ∈ filter (λ b0, value b0 = value b) l).
      { apply list_elem_of_filter. split; [done|]. eapply list_elem_of_lookup_2; eauto. }
      destruct (filter _ l); [by apply not_elem_of_nil in Hin|simpl; lia]. }
    induction l as [|x l IH]; intros [|i] [|j] Hne Hi Hj; try done; simpl in Hi, Hj; rewrite filter_cons.
    - simplify_eq. rewrite decide_True //=. pose proof (Hone l j b' Hj ltac:(done)). lia.
    - simplify_eq. rewrite decide_True //=. pose proof (Hone l i b Hi ltac:(done)). lia.
    - specialize (IH i j ltac:(congruence) Hi Hj). case_decide; simpl; lia. }
  unfold outcome. destruct l as [|x l]; [done|]. destruct (tops (x :: l)) as [|t [|t' ts]]; simpl in Htwo; done || lia.
Qed.

Section search.
Context {W : Type} `{SgxCrypto W} `{Stack}.
Implicit Types (ctx : t_shim_ctx W).

(** Bids as the chaincode stores them *)
Definition good_bid (b : bid_t) : Prop := good_name (bidder_name b) ∧ in_int (value b) = true.
Definition bid_entries (keys : list bytes) (l : list bid_t) : omap bytes := zip keys (marshal_bid <$> l).

Lemma search_bids_fold keys l s ctx : Forall good_bid l → length keys = length l →
  search_bids (bid_entries keys l) s ctx = Done (foldl consider s l) ctx.
Proof.
  intros Hl. revert keys s. induction Hl as [|[n v] l [Hn Hv] _ IH]; intros [|k keys] s Hlen; try done.
  cbn [fmap list_fmap bid_entries zip zip_with search_bids]. unfold mbind, SM_bind. cbn [snd].
  rewrite bid_roundtrip //. apply IH. by injection Hlen.
Qed.

Lemma auction_result_exact keys l ctx :
  Forall good_bid l → Forall (λ b, 0 <= value b) l → length keys = length l →
  auction_result (bid_entries keys l) ctx = Done (outcome l) ctx.
Proof.
  intros Hg Hpos Hlen. destruct (decide (l = [])) as [->|Hne].
  { by destruct keys. }
  assert (Hcase : auction_result (bid_entries keys l) ctx =
    (s ← search_bids (bid_entries keys l) (mkSearch None (-1) 0);
     if negb (draw s =? 1) then
       match winner s with Some w => mret (marshal_bid w) | None => crash end
     else mret AUCTION_DRAW) ctx).
  { destruct l as [|b l], keys as [|k keys]; done. }
  rewrite Hcase. unfold mbind, SM_bind. rewrite search_bids_fold //.
  destruct (search_fold l Hpos Hne) as (_ & Ht & -> & ->).
  unfold outcome. destruct l as [|b l]; [done|]. destruct (tops (b :: l)) as [|t [|t' ts]]; done.
Qed.
End search.
