(* ===== verification/AuctionTheorems.v ===== *)
(** * The life of an auction

    With an honest peer an auction is a state machine: absent, open, closed.  The
    chaincode refines it for every sequence of requests, and the evaluation of a closed
    auction names the bid that beats all others. *)
From stdpp Require Import base list numbers option sets strings.
From Stdlib Require Import ZArith Lia.
From S2P Require Import Prelude ParsonText CNum JsonSpec JsonRoundTrip CNumProof Base64 StdMap.
From S2P Require Import SgxCCLib EnclaveCrypto Ledger LedgerTheorems Shim EnclaveProof EnclaveTheorems Peer Chaincodes ChaincodeJson Auction AuctionProof.

(** ** The specification *)

Inductive phase := Absent | Open | Closed.
Inductive request := Create | Submit (bidder : bytes) (v : Z) | Close.

(** The next phase and the answer *)
Definition spec_step (ph : phase) (r : request) : phase * bytes :=
  match ph, r with
  | Absent, Create => (Open, OK)
  | Absent, _ => (Absent, AUCTION_NOT_EXISTING)
  | _, Create => (ph, AUCTION_ALREADY_EXISTING)
  | Open, Submit _ _ => (Open, OK)
  | Open, Close => (Closed, OK)
  | Closed, _ => (Closed, AUCTION_ALREADY_CLOSED)
  end.
Fixpoint spec_run (ph : phase) (rs : list request) : phase * list bytes :=
  match rs with
  | [] => (ph, [])
  | r :: rs => let '(ph, a) := spec_step ph r in let '(ph, l) := spec_run ph rs in (ph, a :: l)
  end.

Section machine.
Context {W : Type} `{SgxCrypto W} `{Stack}.

(** The chaincode's answer to a request about the auction [n] *)
Definition answer (n : bytes) (r : request) : SM W bytes :=
  match r with
  | Create => auction_create n
  | Submit bidder v => auction_submit n bidder v
  | Close => auction_close n
  end.
Fixpoint answers (n : bytes) (rs : list request) : SM W (list bytes) :=
  match rs with
  | [] => mret []
  | r :: rs => a ← answer n r; l ← answers n rs; mret (a :: l)
  end.
End machine.

From Stdlib Require Import ssreflect.
Local Open Scope Z_scope.

Section lifecycle.
Context {W : Type} `{HonestPeer W} `{Stack}.
Implicit Types (ctx : t_shim_ctx W) (n : bytes).

(** What the peer holds of an auction in a phase *)
Definition in_phase (w : W) n (ph : phase) : Prop :=
  match ph with
  | Absent => holds w n = None
  | Open => private w n (marshal_auction (mkAuction n true))
  | Closed => private w n (marshal_auction (mkAuction n false))
  end.
(** Names whose auction fits the buffer *)
Definition auction_name_ok n : Prop :=
  good_name n ∧ Z.of_nat (length (marshal_auction (mkAuction n false))) ≤ MAX_VALUE_SIZE.

Lemma open_shorter n :
  (length (marshal_auction (mkAuction n true)) ≤ length (marshal_auction (mkAuction n false)))%nat.
Proof.
  unfold marshal_auction, auction_json, string_entry. cbn [name is_open].
  destruct (is_valid_utf8 _ _); [|vm_compute; lia].
  unfold serialize_json, bracket. cbn [app map join_parts andb fst snd]. rewrite !length_app. simpl. lia.
Qed.

Lemma marshal_nonempty n o : (0 < length (marshal_auction (mkAuction n o)))%nat.
Proof. unfold marshal_auction, auction_json. simpl. lia. Qed.

(** Reading the auction: the buffer, and the auction in it *)
Lemma read_auction n o ctx : auction_name_ok n →
  private (world ctx) n (marshal_auction (mkAuction n o)) →
  ∃ ctx', get_state (cstr n) MAX_VALUE_SIZE ctx = Done (marshal_auction (mkAuction n o)) ctx' ∧
    same_holds (world ctx) (world ctx') ∧
    ∀ ctx1, stored_auction (marshal_auction (mkAuction n o)) ctx1 = Done (mkAuction n o) ctx1.
Proof.
  intros [Hg Hlen] Hp. rewrite cstr_nonul; last apply Hg.
  destruct (get_private n _ MAX_VALUE_SIZE ctx Hp) as (ctx' & -> & Hs & _).
  - pose proof (open_shorter n). destruct o; lia.
  - unfold MAX_VALUE_SIZE. lia.
  - exists ctx'. split; [done|]. split; [done|]. intros ctx1. by apply auction_roundtrip.
Qed.

Lemma bid_key_differs n bidder : PREFIX ++ n ++ SEP ++ bidder ++ SEP ≠ n.
Proof. intros E. apply (f_equal length) in E. rewrite !length_app in E. simpl in E. lia. Qed.

(** The state the peer holds for everything but the auctions' own keys may only change
    where a bid is written. *)
Definition bid_of (n : bytes) (r : request) (k : bytes) : Prop :=
  match r with Submit bidder _ => k = cstr (PREFIX ++ n ++ SEP ++ bidder ++ SEP) | _ => False end.
Definition request_ok (r : request) : Prop :=
  match r with Submit bidder _ => nonul bidder | _ => True end.

Lemma write_phase n o ctx : ∃ ctx', put_state n (marshal_auction (mkAuction n o)) ctx = Done () ctx' ∧
  in_phase (world ctx') n (if o then Open else Closed) ∧
  ∀ k, k ≠ n → holds (world ctx') k = holds (world ctx) k.
Proof.
  destruct (put_private n (marshal_auction (mkAuction n o)) ctx) as (ctx' & E & Hp & Hk & _).
  exists ctx'. split; [done|]. split; [by destruct o|done].
Qed.

(** The keys are C strings. *)
Lemma prefix_key_cstr n : nonul n → cstr (PREFIX ++ n ++ SEP) = PREFIX ++ n ++ SEP.
Proof. intros Hn. apply cstr_nonul. rewrite !nonul_app. split_and!; done || by apply nonul_lit. Qed.
Lemma outcome_key_cstr n : nonul n →
  cstr (n ++ SEP ++ bs "outcome" ++ SEP) = n ++ SEP ++ bs "outcome" ++ SEP.
Proof. intros Hn. apply cstr_nonul. rewrite !nonul_app. split_and!; done || by apply nonul_lit. Qed.
Lemma bid_key_cstr n bidder : nonul n → nonul bidder →
  cstr (PREFIX ++ n ++ SEP ++ bidder ++ SEP) = PREFIX ++ n ++ SEP ++ bidder ++ SEP.
Proof.
  intros Hn Hb. apply cstr_nonul. rewrite !nonul_app. split_and!; done || by apply nonul_lit.
Qed.

(** One request: the answer and the phase of the specification; a refused request and
    the keys of other auctions are left alone. *)
Definition refines n r ph ctx : Prop := ∃ ctx', answer n r ctx = Done (spec_step ph r).2 ctx' ∧
  in_phase (world ctx') n (spec_step ph r).1 ∧
  ∀ k, k ≠ n → ¬ (bid_of n r k ∧ ph = Open) → holds (world ctx') k = holds (world ctx) k.

Local Ltac start_request r := destruct r as [|bidder v|];
  unfold refines; cbn [answer spec_step fst snd];
  unfold auction_create, auction_submit, auction_close, mbind, SM_bind.

Lemma absent_refines n r ctx : auction_name_ok n → in_phase (world ctx) n Absent → refines n r Absent ctx.
Proof.
  intros [[Hn _] _] Hph. destruct (get_absent n MAX_VALUE_SIZE ctx Hph) as (ctx1 & Hget & Hs & _).
  start_request r; rewrite cstr_nonul // Hget; cbn [length Nat.ltb Nat.leb Nat.eqb].
  - destruct (write_phase n true ctx1) as (ctx2 & E & Hp & Hk). rewrite E. exists ctx2. split; [done|].
    split; [done|]. intros k Hne _. by rewrite Hk.
  - exists ctx1. split; [done|]. split; [cbn; by rewrite Hs|]. intros k _ _. apply Hs.
  - exists ctx1. split; [done|]. split; [cbn; by rewrite Hs|]. intros k _ _. apply Hs.
Qed.

Lemma open_refines n r ctx : auction_name_ok n → request_ok r → in_phase (world ctx) n Open →
  refines n r Open ctx.
Proof.
  intros Hok Hr Hph. pose proof Hok as [[Hn _] _].
  destruct (read_auction n true ctx Hok Hph) as (ctx1 & Hget & Hs & Hst).
  pose proof (marshal_nonempty n true) as Hne. pose proof (private_same _ _ _ _ Hs Hph) as Hph1.
  start_request r; rewrite Hget; [rewrite (proj2 (Nat.ltb_lt _ _)) //|rewrite (proj2 (Nat.eqb_neq _ _)); last lia; rewrite Hst..].
  - exists ctx1. split; [done|]. split; [done|]. intros k _ _. apply Hs.
  - cbn [is_open negb]. cbv beta. rewrite bid_key_cstr //.
    destruct (put_private (PREFIX ++ n ++ SEP ++ bidder ++ SEP) (marshal_bid (mkBid bidder v)) ctx1)
      as (ctx2 & E & _ & Hk & _). rewrite E. exists ctx2. split; [done|]. split.
    + destruct Hph1 as (stored & Hh & Hv). exists stored. split; [|done]. rewrite Hk //.
      intros E'. by apply (bid_key_differs n bidder).
    + intros k Hkn Hb. rewrite Hk; [apply Hs|]. intros ->. apply Hb. by rewrite /bid_of bid_key_cstr.
  - cbn [is_open negb name]. cbv beta. rewrite cstr_nonul //.
    destruct (write_phase n false ctx1) as (ctx2 & E & Hp & Hk). rewrite E. exists ctx2. split; [done|].
    split; [done|]. intros k Hkn _. by rewrite Hk.
Qed.

Lemma closed_refines n r ctx : auction_name_ok n → in_phase (world ctx) n Closed → refines n r Closed ctx.
Proof.
  intros Hok Hph. destruct (read_auction n false ctx Hok Hph) as (ctx1 & Hget & Hs & Hst).
  pose proof (marshal_nonempty n false) as Hne. pose proof (private_same _ _ _ _ Hs Hph) as Hph1.
  start_request r; rewrite Hget; [rewrite (proj2 (Nat.ltb_lt _ _)) //|rewrite (proj2 (Nat.eqb_neq _ _)); last lia; rewrite Hst..];
    exists ctx1; by split_and!.
Qed.

Lemma answer_refines n r ph ctx : auction_name_ok n → request_ok r → in_phase (world ctx) n ph →
  refines n r ph ctx.
Proof. destruct ph; auto using absent_refines, open_refines, closed_refines. Qed.

(** C6. With an honest peer the chaincode answers every sequence of requests about an
    auction as the state machine absent, open, closed does, and ends in its phase: an
    auction is created once, takes bids only while open, and stays closed.  Everything
    the peer holds under other keys is unchanged, except for the bids submitted. *)
Theorem auction_lifecycle n rs ph ctx
    (Hname : auction_name_ok n) (Hrs : Forall request_ok rs) (Hph : in_phase (world ctx) n ph) :
  ∃ ctx', answers n rs ctx = Done (spec_run ph rs).2 ctx' ∧
    in_phase (world ctx') n (spec_run ph rs).1 ∧
    ∀ k, k ≠ n → (∀ r, r ∈ rs → ¬ bid_of n r k) → holds (world ctx') k = holds (world ctx) k.
Proof.
  revert ph ctx Hph. induction Hrs as [|r rs Hr _ IH]; intros ph ctx Hph.
  { exists ctx. done. }
  destruct (answer_refines n r ph ctx Hname Hr Hph) as (ctx1 & E1 & Hph1 & Hk1).
  cbn [answers spec_run]. destruct (spec_step ph r) as [ph1 a]. simpl in *.
  destruct (IH ph1 ctx1 Hph1) as (ctx2 & E2 & Hph2 & Hk2). destruct (spec_run ph1 rs) as [ph2 l].
  exists ctx2. unfold mbind, SM_bind. rewrite E1 E2. split; [done|]. split; [done|].
  intros k Hkn Hb. rewrite Hk2; [|done|].
  - apply Hk1; [done|]. intros [Hb' _]. apply (Hb r); [left|done].
  - intros r' Hr'. apply Hb. by right.
Qed.

(** ** Evaluation *)

(** The peer answers a query for the bids with the entries it holds. *)
Definition answers_query (key : bytes) (entries : omap bytes) (w : W) : Prop :=
  ∃ json len cmac w',
    ocall_get_state_by_partial_composite_key key (replicate (Z.to_nat JSON_BUFFER) x00)
      JSON_BUFFER 0 (replicate 16 x00) w = (json, len, cmac, w') ∧
    len ≤ JSON_BUFFER ∧ x00 ∈ json ∧ parse_json (cstr json) = Some (JArray (pair_json <$> entries)).

Lemma query_bids key keys (stored vals : list bytes) ctx : sorted (zip keys stored) →
  length keys = length stored → Forall2 seals stored vals →
  answers_query key (zip keys stored) (world ctx) →
  ∃ ctx', get_state_by_partial_composite_key key [] ctx = Done (zip keys vals) ctx'.
Proof.
  intros Hs Hlen Hv (json & len & cmac & w' & Ho & Hle & Hnul & Hjson).
  unfold get_state_by_partial_composite_key, mbind, SM_bind.
  rewrite (query_done _ _ _ _ _ _ _ Hs Ho Hle Hnul Hjson).
  rewrite (decrypt_sealed_values _ _ _ _ Hv Hlen). by eexists.
Qed.

(** C10. Evaluating a closed auction: when all bids are zero or more and the honest peer
    answers the query with the bids that were stored, the answer is the bid that beats all
    the others, a draw if the highest value was bid more than once, and the absence of bids
    if there are none; the answer is also published under the key of the outcome.  Negative
    bids are different, since the search starts at -1 ([negative_bids]). *)
Theorem auction_eval_best n keys stored l ctx
    (Hname : auction_name_ok n) (Hph : in_phase (world ctx) n Closed)
    (Hsort : sorted (zip keys stored)) (Hlen : length keys = length stored)
    (Hseal : Forall2 seals stored (marshal_bid <$> l))
    (Hgood : Forall good_bid l) (Hpos : Forall (λ b, 0 <= value b) l)
    (Hquery : ∀ auction_bytes ctx1, get_state (cstr n) MAX_VALUE_SIZE ctx = Done auction_bytes ctx1 →
       answers_query (PREFIX ++ n ++ SEP) (zip keys stored) (world ctx1)) :
  ∃ ctx' r, auction_eval n ctx = Done r ctx' ∧
    holds (world ctx') (n ++ SEP ++ bs "outcome" ++ SEP) = Some r ∧
    (l = [] → r = AUCTION_NO_BIDS) ∧
    (∀ i b, l !! i = Some b → (∀ j b', l !! j = Some b' → j ≠ i → value b' < value b) →
       r = marshal_bid b) ∧
    (∀ i j b b', i ≠ j → l !! i = Some b → l !! j = Some b' → value b = value b' →
       Forall (λ b'', value b'' <= value b) l → r = AUCTION_DRAW).
Proof.
  pose proof Hname as [[Hn _] _].
  destruct (read_auction n false ctx Hname Hph) as (ctx1 & Hget & Hs & Hst).
  pose proof (marshal_nonempty n false) as Hne.
  destruct (query_bids (PREFIX ++ n ++ SEP) keys stored (marshal_bid <$> l) ctx1) as (ctx2 & Hq); [done..|eapply Hquery, Hget|].
  unfold auction_eval, mbind, SM_bind. rewrite Hget (proj2 (Nat.eqb_neq _ _)); last lia.
  rewrite Hst. cbn [is_open]. cbv beta. rewrite prefix_key_cstr // Hq.
  rewrite (auction_result_exact keys l ctx2) //; last by rewrite Hlen (Forall2_length _ _ _ Hseal) length_fmap.
  unfold put_public_state, mbind, SM_bind, ctx_get, set_write_set, set_world. simpl.
  eexists _, (outcome l). split; [reflexivity|]. split.
  { simpl. rewrite peer_put outcome_key_cstr // decide_True //. }
  split; [by intros ->|]. split; [intros i b; by apply outcome_winner|].
  intros i j b b'. by apply outcome_draw.
Qed.

(** ** Gaps *)

Lemma push_strings_done params (ctx : t_shim_ctx W) : Forall (λ j, ∃ s, j = JString s) params →
  ∃ l, push_strings params ctx = Done l ctx.
Proof.
  induction 1 as [|j params [s ->] _ [l IH]]; [by exists []|]. exists (s :: l).
  cbn [push_strings]. unfold mbind, SM_bind. cbn [string_of]. cbv [mret SM_ret]. by rewrite IH.
Qed.
Lemma func_and_params_done f p params (ctx : t_shim_ctx W) :
  parse_json (json_args ctx) = Some (JArray (JString f :: JString p :: params)) →
  Forall (λ j, ∃ s, j = JString s) params →
  ∃ l, get_func_and_params ctx = Done (1, f, p :: l) ctx.
Proof.
  intros Hj Hp. destruct (push_strings_done params ctx Hp) as [l E]. exists l.
  unfold get_func_and_params, mbind, SM_bind, ctx_get. rewrite Hj. cbn [push_strings string_of].
  cbv [mret SM_ret]. unfold mbind, SM_bind. cbn [string_of]. cbv [mret SM_ret]. by rewrite E.
Qed.

(** Bids below zero are not handled: a single bid of -1 is reported as a draw, and
    with a single lower bid the result is printed from an indeterminate value. *)
Theorem negative_bids n v k ctx (Hn : good_name n) (Hv : in_int v = true) (Hneg : v < 0) :
  auction_result [(k, marshal_bid (mkBid n v))] ctx =
    if v =? -1 then Done AUCTION_DRAW ctx else Crash.
Proof.
  unfold auction_result, mbind, SM_bind.
  change [(k, marshal_bid (mkBid n v))] with (bid_entries [k] [mkBid n v]).
  rewrite search_bids_fold //; last by apply Forall_singleton.
  cbn [foldl]. unfold consider. cbn [value high winner].
  rewrite Z.gtb_ltb (proj2 (Z.ltb_ge _ _)); last lia. by destruct (v =? -1).
Qed.

(** The chaincode reports that re-initialisation is not allowed, but an [init] on an
    initialised auction house is carried out: the name is replaced. *)
Theorem init_twice house house' params ctx
    (Hinit : private (world ctx) INITIALIZED_KEY [x01])
    (Hhouse : private (world ctx) AUCTION_HOUSE_NAME_KEY house) (Hlen : (length house < 127)%nat)
    (Hargs : parse_json (json_args ctx) = Some (JArray (JString (bs "init") :: JString house' :: params)))
    (Hparams : Forall (λ j, ∃ s, j = JString s) params) :
  ∃ ctx', invoke 2 ctx = Done (0, OK) ctx' ∧ private (world ctx') AUCTION_HOUSE_NAME_KEY house'.
Proof.
  destruct (get_private _ _ 1 ctx Hinit) as (ctx1 & E1 & Hs1 & Hj1); [done|lia|].
  destruct (get_private _ _ 127 ctx1 (private_same _ _ _ _ Hs1 Hhouse)) as (ctx2 & E2 & Hs2 & Hj2); [lia..|].
  unfold invoke, check_initialized, mbind, SM_bind. rewrite E1. case_decide; [done|]. rewrite E2.
  rewrite (proj2 (Nat.leb_gt 128 _)) ?andb_false_r; last lia. cbv [mret SM_ret].
  destruct (func_and_params_done (bs "init") house' params ctx2) as [l El]; [congruence|done|]. rewrite El.
  destruct (put_private AUCTION_HOUSE_NAME_KEY house' ctx2) as (ctx3 & E3 & Hp3 & _).
  destruct (put_private INITIALIZED_KEY [x01] ctx3) as (ctx4 & E4 & _ & Hk4 & _).
  exists ctx4. split.
  - simpl. unfold init_auction_house, mbind, SM_bind. rewrite E3 E4. done.
  - destruct Hp3 as (stored & Hh & Hs). exists stored. by rewrite Hk4.
Qed.

(** The name of the auction house is terminated outside its buffer: once a house with a
    name of 127 bytes exists, every request is undefined. *)
Theorem house_name_overflow house max_len ctx
    (Hinit : private (world ctx) INITIALIZED_KEY [x01])
    (Hhouse : private (world ctx) AUCTION_HOUSE_NAME_KEY house) (Hlen : length house = 127%nat) :
  invoke max_len ctx = Crash.
Proof.
  destruct (get_private _ _ 1 ctx Hinit) as (ctx1 & E1 & Hs1 & _); [done|lia|].
  destruct (get_private _ _ 127 ctx1 (private_same _ _ _ _ Hs1 Hhouse)) as (ctx2 & E2 & _); [lia..|].
  unfold invoke, check_initialized, mbind, SM_bind. rewrite E1. case_decide; [done|]. by rewrite E2 Hlen.
Qed.

(** Auction names are not separated from their parts: a bid in the auction [a.b] is
    stored below the key with which the auction [a] collects its bids, and so takes part
    in its evaluation. *)
Theorem bids_of_other_auction a b bidder v ctx
    (Hname : auction_name_ok (a ++ SEP ++ b)) (Hph : in_phase (world ctx) (a ++ SEP ++ b) Open)
    (Hbidder : nonul bidder) :
  ∃ ctx' key, auction_submit (a ++ SEP ++ b) bidder v ctx = Done OK ctx' ∧
    private (world ctx') key (marshal_bid (mkBid bidder v)) ∧
    has_prefix (PREFIX ++ a ++ SEP) key = true.
Proof.
  destruct (read_auction _ true ctx Hname Hph) as (ctx1 & Hget & _ & Hst).
  pose proof (marshal_nonempty (a ++ SEP ++ b) true) as Hne. pose proof Hname as [[Hn _] _].
  unfold auction_submit, mbind, SM_bind. rewrite Hget (proj2 (Nat.eqb_neq _ _)); last lia.
  rewrite Hst. cbn [is_open negb]. cbv beta. rewrite bid_key_cstr //.
  destruct (put_private (PREFIX ++ (a ++ SEP ++ b) ++ SEP ++ bidder ++ SEP) (marshal_bid (mkBid bidder v)) ctx1)
    as (ctx2 & E & Hp & _). rewrite E. exists ctx2. eexists. split; [done|]. split; [exact Hp|].
  apply has_prefix_spec. exists (b ++ SEP ++ bidder ++ SEP). by rewrite -!assoc_L.
Qed.
End lifecycle.

(** ** An auction on the small peer *)
#[local] Existing Instances store_platform store_crypto store_peer sample_stack.
Definition store_ctx (w : omap bytes) (args : bytes) : t_shim_ctx (omap bytes) :=
  mkCtx (omap bytes) w [] [] args args [].
Definition sealed (val : bytes) : bytes := base64_encode (replicate 12 x00 ++ replicate 16 x00 ++ val).
Lemma sealed_ok val : seals (W:=omap bytes) (sealed val) val.
Proof. by exists (replicate 12 x00), (replicate 16 x00), val. Qed.
Lemma house_private w key val : map_find w key = Some (sealed val) → private w key val.
Proof. intros E. exists (sealed val). split; [exact E|apply sealed_ok]. Qed.

Lemma name_ok_a : auction_name_ok (bs "a").
Proof. split; [split; [by apply nonul_lit|reflexivity]|by vm_compute]. Qed.
Definition sample_requests : list request :=
  [Create; Create; Submit (bs "x") 3; Close; Submit (bs "y") 5].

Lemma auction_lifecycle_witness :
  ∃ ctx', answers (bs "a") sample_requests (store_ctx [] []) =
    Done [OK; AUCTION_ALREADY_EXISTING; OK; OK; AUCTION_ALREADY_CLOSED] ctx' ∧
    in_phase (world ctx') (bs "a") Closed.
Proof.
  destruct (auction_lifecycle (bs "a") sample_requests Absent (store_ctx [] []) name_ok_a) as (ctx' & E & Hp & _).
  - repeat constructor; by apply nonul_lit.
  - reflexivity.
  - exists ctx'. split; [exact E|exact Hp].
Defined.

Definition closed_store : omap bytes :=
  [(bs ".somePrefix.a.x.", sealed (marshal_bid (mkBid (bs "x") 3)));
   (bs ".somePrefix.a.y.", sealed (marshal_bid (mkBid (bs "y") 5)));
   (bs "a", sealed (marshal_auction (mkAuction (bs "a") false)))].
Definition sample_bids : list bid_t := [mkBid (bs "x") 3; mkBid (bs "y") 5].

Lemma sample_read :
  match get_state (cstr (bs "a")) MAX_VALUE_SIZE (store_ctx closed_store []) with
  | Done _ c => world c | _ => [] end = closed_store.
Proof. vm_compute. reflexivity. Qed.
Lemma auction_eval_best_witness :
  ∃ ctx', auction_eval (bs "a") (store_ctx closed_store []) = Done (marshal_bid (mkBid (bs "y") 5)) ctx'.
Proof.
  destruct (auction_eval_best (bs "a") [bs ".somePrefix.a.x."; bs ".somePrefix.a.y."]
    (sealed ∘ marshal_bid <$> sample_bids) sample_bids (store_ctx closed_store []) name_ok_a)
    as (ctx' & r & E & _ & _ & Hbest & _).
  - apply house_private. vm_compute. reflexivity.
  - repeat constructor.
  - done.
  - repeat constructor; apply sealed_ok.
  - repeat constructor; by apply nonul_lit.
  - by repeat constructor.
  - intros ab ctx1 E. pose proof sample_read as Hw. rewrite E in Hw. rewrite Hw.
    exists (serialize_json false 0 (JArray (pair_json <$> take 2 closed_store)) ++ [x00]).
    eexists _, _, _. split; [reflexivity|]. split_and!.
    + vm_compute. discriminate.
    + apply elem_of_app. right. left.
    + vm_compute. reflexivity.
  - exists ctx'. rewrite E. clear E. f_equal. apply (Hbest 1%nat (mkBid (bs "y") 5) eq_refl).
    intros [|[|j]] b' Hj Hne; [injection Hj as <-; exact eq_refl|by destruct Hne|discriminate Hj].
Defined.

Lemma negative_bids_witness :
  auction_result (W:=omap bytes) [(bs "k", marshal_bid (mkBid (bs "x") (-1)))] (store_ctx [] []) =
    Done AUCTION_DRAW (store_ctx [] []).
Proof.
  apply (negative_bids (bs "x") (-1) (bs "k") (store_ctx [] [])); [|reflexivity..].
  split; [by apply nonul_lit|reflexivity].
Defined.

Definition init_args : bytes := serialize_json false 0 (JArray [JString (bs "init"); JString (bs "new")]).
Definition house_store (house : bytes) : omap bytes :=
  [(AUCTION_HOUSE_NAME_KEY, sealed house); (INITIALIZED_KEY, sealed [x01])].
Lemma init_twice_witness :
  ∃ ctx', invoke 2 (store_ctx (house_store (bs "old")) init_args) = Done (0, OK) ctx' ∧
    private (world ctx') AUCTION_HOUSE_NAME_KEY (bs "new").
Proof.
  apply (init_twice (bs "old") (bs "new") [] (store_ctx (house_store (bs "old")) init_args)).
  - apply house_private. reflexivity.
  - apply house_private. reflexivity.
  - cbn. lia.
  - vm_compute. reflexivity.
  - constructor.
Defined.
Lemma house_name_overflow_witness :
  invoke 2 (store_ctx (house_store (replicate 127 x41)) init_args) = Crash.
Proof.
  apply (house_name_overflow (replicate 127 x41) 2 (store_ctx (house_store (replicate 127 x41)) init_args)).
  - apply house_private. reflexivity.
  - apply house_private. reflexivity.
  - reflexivity.
Defined.
Lemma bids_of_other_auction_witness :
  ∃ ctx' key, auction_submit (bs "a.b") (bs "x") 9
      (store_ctx [(bs "a.b", sealed (marshal_auction (mkAuction (bs "a.b") true)))] []) = Done OK ctx' ∧
    private (world ctx') key (marshal_bid (mkBid (bs "x") 9)) ∧ has_prefix (PREFIX ++ bs "a.") key = true.
Proof.
  apply (bids_of_other_auction (bs "a") (bs "b") (bs "x") 9
    (store_ctx [(bs "a.b", sealed (marshal_auction (mkAuction (bs "a.b") true)))] [])).
  - split; [split; [by apply nonul_lit|reflexivity]|by vm_compute].
  - apply house_private. reflexivity.
  - by apply nonul_lit.
Defined.
