(* ===== verification/ChaincodeProof.v ===== *)
(** * What every chaincode leaves intact

    The context of an invocation: its arguments never change, its read and write sets
    stay ordered and only grow.  Every operation of the shim has these properties, so
    every chaincode built from them does. *)
From stdpp Require Import base list numbers option strings.
From Stdlib Require Import ZArith Lia.
From S2P Require Import Prelude ParsonText CNum JsonSpec Base64 StdMap SgxCCLib EnclaveCrypto Ledger.
From S2P Require Import LedgerTheorems Shim EnclaveProof EnclaveTheorems Samples Peer Chaincodes Echo Helloworld Auction.
From Stdlib Require Import ssreflect.
Local Open Scope Z_scope.

Section computations.
Context {W : Type} `{SgxCrypto W}.
Implicit Types (ctx : t_shim_ctx W).

(** The sets are ordered maps. *)
Definition ctx_ok ctx : Prop := sorted (read_set ctx) ∧ sorted (write_set ctx).
(** [ctx'] comes after [ctx] in the same invocation. *)
Definition later ctx ctx' : Prop :=
  encoded_args ctx' = encoded_args ctx ∧
  (ctx_ok ctx → ctx_ok ctx' ∧
    (∀ k, map_find (read_set ctx) k = Some () → map_find (read_set ctx') k = Some ()) ∧
    (∀ k v, map_find (write_set ctx) k = Some v → map_find (write_set ctx') k = Some v)).
#[export] Instance later_preorder : PreOrder later.
Proof.
  split.
  - intros ctx. split; [done|]. intros Hok. by split_and!.
  - intros c1 c2 c3 [E1 H1] [E2 H2]. split; [congruence|]. intros Hok.
    destruct (H1 Hok) as (Hok2 & Hr & Hw). destruct (H2 Hok2) as (Hok3 & Hr' & Hw').
    split; [done|]. split; auto.
Qed.

(** A computation that leads from a context to one related to it, if it returns. *)
Definition leads (R : relation (t_shim_ctx W)) {A} (c : SM W A) : Prop :=
  ∀ ctx a ctx', c ctx = Done a ctx' → R ctx ctx'.

Section relation.
Context (R : relation (t_shim_ctx W)) `{!PreOrder R}.
Lemma leads_ret {A} (a : A) : leads R (mret a).
Proof. intros ctx a' ctx' [= _ <-]. reflexivity. Qed.
Lemma leads_bind {A B} (c : SM W A) (k : A → SM W B) :
  leads R c → (∀ a, leads R (k a)) → leads R (c ≫= k).
Proof.
  intros Hc Hk ctx b ctx'. unfold mbind, SM_bind. destruct (c ctx) as [a ctx1| |] eqn:E; [|done..].
  intros E'. etrans; [exact (Hc _ _ _ E)|exact (Hk _ _ _ _ E')].
Qed.
Lemma leads_throw {A} e : leads R (throw e : SM W A).
Proof. done. Qed.
Lemma leads_crash {A} : leads R (crash : SM W A).
Proof. done. Qed.
Lemma leads_get : leads R ctx_get.
Proof. intros ctx a ctx' [= _ <-]. reflexivity. Qed.
End relation.

End computations.
#[export] Existing Instance later_preorder.

(** Follows the structure of a computation; the database has its parts. *)
Create HintDb leads.
Ltac leads_steps := repeat first
  [ apply leads_ret; exact _ | apply leads_throw | apply leads_crash | apply leads_get; exact _
  | solve [auto with leads]
  | match goal with |- leads _ (match ?x with _ => _ end) => destruct x end
  | apply leads_bind; [exact _| |intros ?] ].

Section context.
Context {W : Type} `{SgxCrypto W}.
Implicit Types (ctx : t_shim_ctx W).

(** A computation that leads to a later context *)
Local Abbreviation steady c := (leads (W := W) later c).

Lemma steady_world (w : W) : steady (set_world w).
Proof. intros ctx a ctx' [= _ <-]. split; [done|]. intros Hok. by split_and!. Qed.
Lemma steady_args args : steady (set_json_args args).
Proof. intros ctx a ctx' [= _ <-]. split; [done|]. intros Hok. by split_and!. Qed.
Lemma steady_error e : steady (shim_error e).
Proof. intros ctx a ctx' [= _ <-]. split; [done|]. intros Hok. by split_and!. Qed.

#[local] Hint Resolve steady_world steady_args steady_error : leads.

(** Inserting into the sets, as the shim does it *)
Lemma find_insert_old {V} (m : omap V) k v k' v' : sorted m →
  map_find m k' = Some v' → map_find (map_insert m k v) k' = Some v'.
Proof. intros Hm Hf. rewrite find_insert //. case_bool_decide as E; [subst; by rewrite Hf|done]. Qed.
Lemma insert_all_old (keys : list bytes) (m : omap unit) : sorted m →
  sorted (foldl set_insert m keys) ∧
  ∀ k, map_find m k = Some () → map_find (foldl set_insert m keys) k = Some ().
Proof.
  revert m. induction keys as [|k keys IH]; intros m Hm; [done|]. simpl.
  destruct (IH (set_insert m k) (insert_sorted _ _ _ Hm)) as [Hs Hf]. split; [done|].
  intros k' Hk'. by apply Hf, find_insert_old.
Qed.

Lemma steady_read keys {A} (f : t_shim_ctx W → SM W A) : (∀ c, steady (f c)) →
  steady (c ← ctx_get; set_read_set (foldl set_insert (read_set c) keys);; f c).
Proof.
  intros Hf ctx a ctx' E. etrans; [|exact (Hf ctx _ _ _ E)]. split; [done|]. intros [Hr Hw].
  destruct (insert_all_old keys (read_set ctx) Hr). by split_and!.
Qed.
Lemma steady_write k v {A} (f : t_shim_ctx W → SM W A) : (∀ c, steady (f c)) →
  steady (c ← ctx_get; set_write_set (map_insert (write_set c) k v);; f c).
Proof.
  intros Hf ctx a ctx' E. etrans; [|exact (Hf ctx _ _ _ E)]. split; [done|]. intros [Hr Hw].
  split; [split; [done|by apply insert_sorted]|]. split; [done|]. intros k' v'. by apply find_insert_old.
Qed.

(** ** The operations of the shim *)

Local Ltac steady := leads_steps.

Lemma steady_get_creator_name n m : steady (get_creator_name n m).
Proof. unfold get_creator_name. steady. Qed.
Lemma steady_get_public_state k v n : steady (get_public_state k v n).
Proof. unfold get_public_state. apply (steady_read [k]). intros c. steady. Qed.
Lemma steady_put_public_state k v : steady (put_public_state k v).
Proof. unfold put_public_state. apply steady_write. intros c. steady. Qed.
#[local] Hint Resolve steady_get_creator_name steady_get_public_state steady_put_public_state : leads.
Lemma steady_get_state k n : steady (get_state k n).
Proof. unfold get_state. steady. Qed.
Lemma steady_put_state k v : steady (put_state k v).
Proof. unfold put_state. steady. Qed.
Lemma steady_string_of s : steady (string_of s).
Proof. unfold string_of. steady. Qed.
#[local] Hint Resolve steady_get_state steady_put_state steady_string_of : leads.
Lemma steady_insert_pairs l values : steady (insert_pairs l values).
Proof. revert values. induction l as [|p l IH]; intros values; simpl; steady. Qed.
Lemma steady_push_strings l : steady (push_strings l).
Proof. induction l as [|p l IH]; simpl; steady. Qed.
Lemma steady_decrypt_values values : steady (decrypt_values values).
Proof. induction values as [|[k v] values IH]; cbn [decrypt_values]; steady. Qed.
#[local] Hint Resolve steady_insert_pairs steady_push_strings steady_decrypt_values : leads.
Lemma steady_query k values : steady (get_public_state_by_partial_composite_key k values).
Proof.
  unfold get_public_state_by_partial_composite_key. apply leads_bind; [exact _|steady|]. intros c.
  destruct (ocall_get_state_by_partial_composite_key _ _ _ _ _ _) as [[[json len] cmac] w].
  apply leads_bind; [exact _|steady|]. intros _. destruct (len >? JSON_BUFFER); [steady|].
  unfold unmarshal_values. apply leads_bind; [exact _|steady|]. intros [_ vs]. apply steady_read. intros c'. steady.
Qed.
Lemma steady_private_query k values : steady (get_state_by_partial_composite_key k values).
Proof. unfold get_state_by_partial_composite_key. apply leads_bind; [exact _|apply steady_query|intros vs; steady]. Qed.
Lemma steady_get_string_args : steady get_string_args.
Proof. unfold get_string_args. steady. Qed.
Lemma steady_get_func_and_params : steady get_func_and_params.
Proof. unfold get_func_and_params. steady. Qed.
#[local] Hint Resolve steady_private_query steady_get_string_args steady_get_func_and_params : leads.

(** ** The chaincodes *)
Lemma steady_vector_at {A} (l : list A) i : steady (vector_at l i).
Proof. unfold vector_at. steady. Qed.
Lemma steady_stoi s : steady (stoi s).
Proof. unfold stoi. steady. Qed.
Lemma steady_respond r n : steady (respond r n).
Proof. unfold respond. steady. Qed.
#[local] Hint Resolve steady_vector_at steady_stoi steady_respond : leads.

Lemma steady_echo n : steady (Echo.invoke n).
Proof. unfold Echo.invoke. steady. Qed.
Lemma steady_helloworld n : steady (Helloworld.invoke n).
Proof. unfold Helloworld.invoke, storeAsset, retrieveAsset. steady. Qed.

Context `{Stack}.
Lemma steady_unmarshal_auction s : steady (unmarshal_auction s).
Proof. unfold unmarshal_auction. steady. Qed.
Lemma steady_unmarshal_bid s : steady (unmarshal_bid s).
Proof. unfold unmarshal_bid. steady. Qed.
#[local] Hint Resolve steady_unmarshal_auction steady_unmarshal_bid : leads.
Lemma steady_search_bids values s : steady (search_bids values s).
Proof. revert s. induction values as [|u values IH]; intros s; simpl; steady. Qed.
#[local] Hint Resolve steady_search_bids : leads.
Lemma steady_auction n : steady (Auction.invoke n).
Proof.
  unfold Auction.invoke, check_initialized, init_auction_house, auction_create, auction_submit, auction_close,
    auction_eval, auction_result, stored_auction. steady.
Qed.

Lemma steady_keeps_args (invoke : Z → SM W (Z * bytes)) : (∀ n, steady (invoke n)) → keeps_args invoke.
Proof. intros Hi n ctx a ctx' E. by destruct (Hi n ctx a ctx' E). Qed.
End context.
#[export] Hint Resolve steady_world steady_args steady_error steady_get_creator_name steady_get_public_state
  steady_put_public_state steady_get_state steady_put_state steady_get_func_and_params steady_vector_at : leads.

Section assets.
Context {W : Type} `{HonestPeer W}.
Implicit Types (ctx : t_shim_ctx W).

(** With an honest peer an asset is stored and found again, but only the low byte of
    its value comes back: the answer names the value modulo 256. *)
Theorem asset_low_byte name v ctx (Hname : nonul name) :
  ∃ ctx', storeAsset name v ctx = Done (bs "OK") ctx' ∧
    ∀ ctx1, same_holds (world ctx') (world ctx1) →
      ∃ ctx2, retrieveAsset name ctx1 = Done (name ++ bs ":" ++ show_int (v mod 256)) ctx2.
Proof.
  unfold storeAsset, retrieveAsset, mbind, SM_bind. rewrite cstr_nonul //.
  destruct (put_private name (int_bytes v) ctx) as (ctx' & E & Hp & _). rewrite E. exists ctx'.
  split; [done|]. intros ctx1 Hs.
  destruct (get_private name (int_bytes v) Helloworld.MAX_VALUE_SIZE ctx1) as (ctx2 & E2 & _).
  - by apply (private_same (world ctx')).
  - done.
  - done.
  - rewrite E2. exists ctx2. unfold int_bytes. by rewrite uchar_to_byte.
Qed.
End assets.

(** ** Instances *)
#[local] Existing Instances store_platform store_crypto store_peer sample_stack.
Lemma asset_low_byte_witness :
  ∃ ctx' ctx2, storeAsset (bs "car") 300 (mkCtx (omap bytes) [] [] [] [] [] []) = Done (bs "OK") ctx' ∧
    retrieveAsset (bs "car") ctx' = Done (bs "car:44") ctx2.
Proof.
  destruct (asset_low_byte (bs "car") 300 (mkCtx (omap bytes) [] [] [] [] [] [])) as (ctx' & E & Hr).
  { by apply nonul_lit. }
  destruct (Hr ctx') as [ctx2 E2]; [done|]. exists ctx', ctx2. split; [exact E|exact E2].
Defined.
