(* ===== verification/ObliviousAsm.v ===== *)
(** * The oblivious auction: inline assembly (auction_final.cpp, july_15_2021/july15.cpp)

    Bids are compared by inline assembly without branches, so that the time it takes does
    not depend on them.  Here are the instructions that the blocks use, in the syntax of
    AT&T (the destination is the second operand), the blocks themselves, and where their
    operands are.

    The blocks write registers that they do not declare as clobbered, and their constraints
    leave the compiler a choice of places.  What the compiler does is the class
    [Compiler]: where it puts the operands of each block and what the machine holds before
    it.  Nothing is assumed of it but what the constraints of the blocks say
    ([constraints]); what the blocks compute depends on its choices, and the lemmas say for
    which choices they compute what.  One thing is not modelled: a variable of the code
    around a block which the compiler keeps, across the block, in a register that the block
    overwrites without declaring it. *)
From stdpp Require Import base list numbers option.
From Stdlib Require Import ZArith Lia.
From S2P Require Import Prelude.
Local Open Scope Z_scope.

(** ** The machine *)

Inductive reg := EAX | EBX | ECX | EDX | ESI | EDI.

(** Where an operand of a block is: in a register or in a variable *)
Inductive loc := InReg (r : reg) | InMem (slot : nat).
Definition reg_eqb (r r' : reg) : bool :=
  match r, r' with
  | EAX, EAX | EBX, EBX | ECX, ECX | EDX, EDX | ESI, ESI | EDI, EDI => true
  | _, _ => false
  end.
Definition loc_eqb (l l' : loc) : bool :=
  match l, l' with
  | InReg r, InReg r' => reg_eqb r r'
  | InMem n, InMem n' => (n =? n')%nat
  | _, _ => false
  end.

(** A register by name, a constant, and the operands [%0], [%1] and so on of the block *)
Inductive operand := R (r : reg) | Imm (z : Z) | Arg (n : nat).

(** [fucomi] compares the two numbers on top of the stack of the floating-point unit. *)
Inductive instr :=
  | clc
  | movl (src dst : operand)
  | cmp (src dst : operand)
  | cmovb (src dst : operand)
  | cmove (src dst : operand)
  | cmovne (src dst : operand)
  | adc (src dst : operand)
  | flds (src : operand)
  | fucomi.

(** The contents are unsigned numbers of 32 bits; the floating-point stack holds numbers
    that are integers. *)
Record machine := mkMachine {
  store : loc → Z;
  carry : bool;
  zero : bool;
  fpu : list Z }.

Definition set_loc (l : loc) (v : Z) (m : machine) : machine :=
  mkMachine (λ k, if loc_eqb k l then v else store m k) (carry m) (zero m) (fpu m).
Definition set_flags (c z : bool) (m : machine) : machine := mkMachine (store m) c z (fpu m).

Section run.
Context (place : nat → loc).

Definition read (o : operand) (m : machine) : Z :=
  match o with R r => store m (InReg r) | Imm z => z | Arg n => store m (place n) end.
Definition write (o : operand) (v : Z) (m : machine) : machine :=
  match o with R r => set_loc (InReg r) v m | Imm _ => m | Arg n => set_loc (place n) v m end.

Definition step (i : instr) (m : machine) : machine :=
  match i with
  | clc => set_flags false (zero m) m
  | movl src dst => write dst (read src m) m
  | cmp src dst => set_flags (read dst m <? read src m) (read dst m =? read src m) m
  | cmovb src dst => write dst (if carry m then read src m else read dst m) m
  | cmove src dst => write dst (if zero m then read src m else read dst m) m
  | cmovne src dst => write dst (if zero m then read dst m else read src m) m
  | adc src dst =>
      let sum := read dst m + read src m + (if carry m then 1 else 0) in
      set_flags (2 ^ 32 <=? sum) (wrap32 sum =? 0) (write dst (wrap32 sum) m)
  | flds src => mkMachine (store m) (carry m) (zero m) (read src m :: fpu m)
  | fucomi =>
      match fpu m with
      | st0 :: st1 :: _ => set_flags (st0 <? st1) (st0 =? st1) m
      | _ => m
      end
  end.
Definition steps (code : list instr) (m : machine) : machine := foldl (λ m i, step i m) m code.

(** A block: the inputs are put where the compiler wants them, and the output is read from
    where it is. *)
Definition asm (code : list instr) (inputs : list (nat * Z)) (m : machine) : Z :=
  store (steps code (foldl (λ m '(n, v), set_loc (place n) v m) m inputs)) (place 0).
End run.

(** ** The blocks *)

Inductive asm_block := MaxBlock | SecondBlock | TieBlock | CompareBlock | TestBlock.
Class Compiler := {
  place : asm_block → nat → loc;
  before : asm_block → machine }.

(** The constraint of an output: any register *)
Definition any_reg (l : loc) : Prop := ∃ r, l = InReg r.
(** The constraint of an input may be any place at all: a register, a variable, or a
    constant, which reads like a variable that nothing writes.  The first [n] inputs of a
    block, whose values may differ, are at different places. *)
Definition apart (c : Compiler) (b : asm_block) (n : nat) : Prop :=
  ∀ i j, (1 ≤ i < j)%nat → (j ≤ n)%nat → place b i ≠ place b j.
(** What the constraints of the blocks demand of the compiler *)
Record constraints (c : Compiler) : Prop := {
  max_output : any_reg (place MaxBlock 0);
  max_inputs : place MaxBlock 1 = InReg EAX ∧ place MaxBlock 2 = InReg EBX;
  second_output : any_reg (place SecondBlock 0);
  second_inputs : apart c SecondBlock 4;
  tie_output : any_reg (place TieBlock 0);
  tie_inputs : apart c TieBlock 3;
  compare_output : place CompareBlock 0 = InReg EDX;
  compare_inputs : apart c CompareBlock 2;
  test_output : any_reg (place TestBlock 0);
  test_inputs : apart c TestBlock 4;
  test_memory : (∃ x, place TestBlock 1 = InMem x) ∧ (∃ y, place TestBlock 2 = InMem y) }.

(** The blocks load their inputs into EAX, EBX, ECX and EDX, in this order, and declare none
    of them as clobbered.  An input that the compiler has put into one of these registers
    may be overwritten before it is loaded.  The constraints do not exclude that; whether it
    is so can be seen in the compiled code. *)
Definition loaded_in_time (c : Compiler) (b : asm_block) (n : nat) : Prop :=
  ∀ i j r, (1 ≤ j < i)%nat → (i ≤ n)%nat → [EAX; EBX; ECX; EDX] !! (j - 1)%nat = Some r → place b i ≠ InReg r.
(** The choices of the compiler, among those that the constraints allow, with which
    [oblivious] does what it is meant to: the first block, which never writes its output,
    has it in the register in which the maximum is, and the other two load their inputs
    before they overwrite them. *)
Record fortunate (c : Compiler) : Prop := {
  fortunate_max : place MaxBlock 0 = InReg EAX;
  fortunate_second : loaded_in_time c SecondBlock 4;
  fortunate_tie : loaded_in_time c TieBlock 3 }.

(** The result of a block as an [int] *)
Definition run_block `{Compiler} (b : asm_block) (code : list instr) (inputs : list Z) : Z :=
  to_int32 (asm (place b) code (zip (seq 1 (length inputs)) (wrap32 <$> inputs)) (before b)).

Definition max_code : list instr :=
  [clc; movl (R EAX) (Arg 1); movl (R EBX) (Arg 2); cmp (R EBX) (R EAX); cmovb (R EBX) (R EAX); movl (Arg 0) (R EBX)].
Definition second_code : list instr :=
  [clc; movl (Arg 1) (R EAX); movl (Arg 2) (R EBX); movl (Arg 3) (R ECX); movl (Arg 4) (R EDX);
   cmp (R EAX) (R EBX); cmovne (R EBX) (R ECX); clc; cmp (R EDX) (R ECX); cmovb (R EDX) (R ECX); movl (R ECX) (Arg 0)].
Definition tie_code : list instr :=
  [clc; movl (Arg 1) (R EAX); movl (Arg 2) (R EBX); movl (Arg 3) (R ECX);
   cmp (R EAX) (R EBX); cmove (R ECX) (R EBX); movl (R EBX) (Arg 0)].
Definition compare_code : list instr :=
  [clc; movl (Arg 1) (R EAX); movl (Arg 2) (R EBX); movl (Imm 0) (R ECX); movl (Imm 0) (R EDX);
   cmp (R EBX) (R EAX); adc (R ECX) (R EDX); movl (Arg 0) (R EDX)].
Definition test_code : list instr :=
  [flds (Arg 1); flds (Arg 2); movl (Arg 3) (R EAX); movl (Arg 4) (R EBX); fucomi;
   cmovb (R EAX) (R EBX); movl (R EBX) (Arg 0); clc].

(** ** What the blocks compute *)

Section blocks.
Context `{C : Compiler} (Hc : constraints C).

Lemma loc_eqb_refl l : loc_eqb l l = true.
Proof. destruct l as [[]|n]; cbn; try done. apply Nat.eqb_refl. Qed.
Lemma loc_eqb_ne l l' : l ≠ l' → loc_eqb l l' = false.
Proof.
  intros Hne. destruct l as [r|n], l' as [r'|n']; cbn; try done.
  - by destruct r, r'.
  - apply Nat.eqb_neq. congruence.
Qed.

(** Runs a block, with the places of its operands as they are known *)
Local Ltac run_code code :=
  unfold run_block, asm, steps, code; cbn -[wrap32 to_int32 Z.max loc_eqb];
  repeat match goal with H : place _ _ = _ |- _ => rewrite !H; clear H end;
  repeat match goal with |- context [loc_eqb ?l ?l'] =>
    first [rewrite (loc_eqb_refl l) | rewrite (loc_eqb_ne l l') by (done || by apply not_eq_sym)] end;
  cbn -[wrap32 to_int32 Z.max loc_eqb].
(** The inputs [i] and [j] are at different places. *)
Local Ltac differ H i j := pose proof (H i j ltac:(lia) ltac:(lia)).
(** The input [i] is not in the register into which [j] is loaded before it. *)
Local Ltac in_time H i j := pose proof (H i j _ ltac:(lia) ltac:(lia) eq_refl).

(** The output of the first block is the maximum when the compiler puts it in EAX, the old
    maximum when it is in EBX, and otherwise what the register held before. *)
Lemma max_block a b : run_block MaxBlock max_code [a; b] =
  to_int32 (match place MaxBlock 0 with
            | InReg EAX => Z.max (wrap32 a) (wrap32 b)
            | InReg EBX => wrap32 b
            | l => store (before MaxBlock) l
            end).
Proof.
  destruct (max_inputs _ Hc) as [E1 E2]. destruct (max_output _ Hc) as [r E0]. rewrite E0.
  run_code max_code. f_equal. destruct (Z.ltb_spec (wrap32 a) (wrap32 b)); destruct r; cbn; lia.
Qed.
Lemma second_block a b c d : loaded_in_time C SecondBlock 4 → run_block SecondBlock second_code [a; b; c; d] =
  to_int32 (Z.max (if wrap32 b =? wrap32 a then wrap32 c else wrap32 b) (wrap32 d)).
Proof.
  intros Ht. destruct (second_output _ Hc) as [r E0]. pose proof (second_inputs _ Hc) as Hd.
  differ Hd 1%nat 2%nat. differ Hd 1%nat 3%nat. differ Hd 1%nat 4%nat. differ Hd 2%nat 3%nat. differ Hd 2%nat 4%nat. differ Hd 3%nat 4%nat.
  in_time Ht 2%nat 1%nat. in_time Ht 3%nat 1%nat. in_time Ht 3%nat 2%nat. in_time Ht 4%nat 1%nat. in_time Ht 4%nat 2%nat. in_time Ht 4%nat 3%nat.
  run_code second_code. f_equal.
  destruct (wrap32 b =? wrap32 a); cbn -[wrap32 Z.max loc_eqb];
    [destruct (Z.ltb_spec (wrap32 c) (wrap32 d))|destruct (Z.ltb_spec (wrap32 b) (wrap32 d))]; lia.
Qed.
Lemma tie_block a b c : loaded_in_time C TieBlock 3 →
  run_block TieBlock tie_code [a; b; c] = to_int32 (if wrap32 b =? wrap32 a then wrap32 c else wrap32 b).
Proof.
  intros Ht. destruct (tie_output _ Hc) as [r E0]. pose proof (tie_inputs _ Hc) as Hd.
  differ Hd 1%nat 2%nat. differ Hd 1%nat 3%nat. differ Hd 2%nat 3%nat.
  in_time Ht 2%nat 1%nat. in_time Ht 3%nat 1%nat. in_time Ht 3%nat 2%nat. by run_code tie_code.
Qed.
(** The comparison is wrong only when its second input is in EAX: then it compares the first
    one with itself. *)
Lemma compare_block a b : place CompareBlock 2 ≠ InReg EAX →
  run_block CompareBlock compare_code [a; b] = if wrap32 a <? wrap32 b then 1 else 0.
Proof.
  intros Ht. pose proof (compare_output _ Hc). pose proof (compare_inputs _ Hc) as Hd. differ Hd 1%nat 2%nat.
  run_code compare_code. by destruct (wrap32 a <? wrap32 b).
Qed.
Lemma compare_block_lost a b : place CompareBlock 2 = InReg EAX → run_block CompareBlock compare_code [a; b] = 0.
Proof.
  intros E. pose proof (compare_output _ Hc). pose proof (compare_inputs _ Hc) as Hd. differ Hd 1%nat 2%nat. rewrite E in *.
  run_code compare_code. by rewrite Z.ltb_irrefl.
Qed.
Lemma test_block a b c d : place TestBlock 4 ≠ InReg EAX → run_block TestBlock test_code [a; b; c; d] =
  to_int32 (if wrap32 b <? wrap32 a then wrap32 c else wrap32 d).
Proof.
  intros Ht. destruct (test_output _ Hc) as [r E0]. pose proof (test_inputs _ Hc) as Hd.
  differ Hd 1%nat 2%nat. differ Hd 1%nat 3%nat. differ Hd 1%nat 4%nat. differ Hd 2%nat 3%nat. differ Hd 2%nat 4%nat. differ Hd 3%nat 4%nat.
  by run_code test_code.
Qed.
End blocks.
