(* ===== verification/ObliviousAuction.v ===== *)
(** * The oblivious auction (auction_final.cpp, july_15_2021/july15.cpp)

    A sealed-bid auction in which the winner pays the second price.  Bids are kept in
    global variables of the enclave and, encrypted, in the state of the chaincode; the two
    highest are found by the blocks of ObliviousAsm.v.  auction_final.cpp has two methods:
    A evaluates all bids at the end, B keeps a record of the two highest.  july15.cpp
    evaluates with a comparison that returns 0 or 1 and arithmetic in place of branches;
    its other functions on bids are those of auction_final.cpp, and its functions on RSA
    keys are not modelled.

    The variables live as long as the enclave: every function gets them as [globals] and
    returns them. *)
From stdpp Require Import base list numbers option strings gmap.
From Stdlib Require Import ZArith Lia.
From S2P Require Import Prelude ParsonText CNum JsonSpec SgxCCLib EnclaveCrypto Ledger Shim Chaincodes ObliviousAsm.
Local Open Scope Z_scope.

(** ** Variables *)

Record globals := mkGlobals {
  bids : gmap Z (bytes * Z);
  usernames : gmap Z bytes;
  record : gmap Z (bytes * Z);
  user_count : Z }.
Definition initial_globals : globals := mkGlobals ∅ ∅ ∅ 0.

(** [m[k]] of a [std::map]: a key that is missing is inserted with the default. *)
Definition bracket {V} (d : V) (m : gmap Z V) (k : Z) : V * gmap Z V :=
  match m !! k with Some v => (v, m) | None => (d, <[k := d]> m) end.
(** A [std::pair<std::string, int>()] *)
Definition nobody : bytes * Z := ([], 0).

Definition set_record (r : gmap Z (bytes * Z)) (g : globals) : globals :=
  mkGlobals (bids g) (usernames g) r (user_count g).

Section auction.
Context {W : Type} `{SgxCrypto W} `{Stack} `{C : Compiler}.
Local Abbreviation SM := (SM W).

(** Arithmetic on [int]: signed overflow is undefined. *)
Definition an_int (z : Z) : SM Z := if in_int z then mret z else crash.

(** ** Functions without state *)

Definition asmTest : bytes := show_int (run_block TestBlock test_code [3; 25; 3; 25]).

(** ** The record *)

Definition clearRecord (g : globals) : bytes * globals :=
  (bs "initialization complete",
   set_record (<[1 := (bs "nobody2", 0)]> (<[0 := (bs "nobody", 0)]> (record g))) g).

Definition resetAuction (g : globals) : bytes * globals :=
  (bs "auction is reset",
   mkGlobals (foldl (λ m i, <[i := (bs "nobody", 0)]> m) (bids g) (upto (user_count g)))
     (usernames g) (record g) 0).

Definition showRecord (g : globals) : bytes * globals :=
  let '(BIDDERMAX, r) := bracket nobody (record g) 0 in
  let '(BIDDERSECONDMAX, r) := bracket nobody r 1 in
  (BIDDERMAX.1 ++ show_int BIDDERMAX.2 ++ BIDDERSECONDMAX.1 ++ show_int BIDDERSECONDMAX.2, set_record r g).

(** The three blocks: the two highest of the record and a new value *)
Definition two_highest (value BIDDERMAX BIDDERSECONDMAX : Z) : Z * Z :=
  let max := run_block MaxBlock max_code [value; BIDDERMAX] in
  let secondmax := run_block SecondBlock second_code [max; BIDDERMAX; BIDDERSECONDMAX; value] in
  let secondmax := run_block TieBlock tie_code [max; secondmax; BIDDERMAX] in
  (max, secondmax).
(** [bidderlist] finds the bidder of a value. *)
Definition oblivious (value : Z) (bidder : bytes) (g : globals) : gmap Z (bytes * Z) * globals :=
  let '(BIDDERMAX, r) := bracket nobody (record g) 0 in
  let '(BIDDERSECONDMAX, r) := bracket nobody r 1 in
  let bidderlist : gmap Z bytes :=
    <[value := bidder]> (<[BIDDERSECONDMAX.2 := BIDDERSECONDMAX.1]> (<[BIDDERMAX.2 := BIDDERMAX.1]> ∅)) in
  let '(max, secondmax) := two_highest value BIDDERMAX.2 BIDDERSECONDMAX.2 in
  let '(first, bidderlist) := bracket [] bidderlist max in
  let '(second, _) := bracket [] bidderlist secondmax in
  let r := <[1 := (second, secondmax)]> (<[0 := (first, max)]> r) in
  (r, set_record r g).

(** ** Bids *)

(** The array of 128 bytes into which a value was read is terminated one byte too far, so
    that the byte after the value is uninitialised, and made a string without its last
    character. *)
Definition buffer_string (value : bytes) : SM bytes :=
  if (128 <=? length value + 1)%nat then crash
  else
    let _value := value ++ take 1 (uninit (128 - length value)) ++ [x00] in
    let bidString := cstr _value in
    mret (take (length bidString - 1) bidString).

Definition retrieveBid (bid_name : bytes) : SM bytes :=
  value ← get_state (cstr bid_name) 127; buffer_string value.

Definition retrieveUsernames (g : globals) : bytes * globals :=
  foldl (λ '(s, g) i,
    let '(name, m) := bracket [] (usernames g) i in
    (s ++ name, mkGlobals (bids g) m (record g) (user_count g))) ([], g) (upto (user_count g)).

(** What the functions that store a bid share; the new value is the one that was parsed. *)
Definition add_bid (user_name bid_value : bytes) (g : globals) : SM (Z * globals) :=
  value ← stoi bid_value;
  put_state (cstr user_name) bid_value;;
  n ← an_int (user_count g + 1);
  mret (value, mkGlobals (<[user_count g := (user_name, value)]> (bids g))
                 (<[user_count g := user_name]> (usernames g)) (record g) n).

Definition storeBidMethodA (user_name bid_value : bytes) (g : globals) : SM (bytes * globals) :=
  '(_, g) ← add_bid user_name bid_value g; mret ([], g).

(** The bid of the user with number [i]: it is read from the state and parsed, but then
    taken from the variable. *)
Definition read_bid (g : globals) (i : Z) : SM ((bytes * Z) * globals) :=
  let '(name, us) := bracket [] (usernames g) i in
  value ← get_state (cstr name) 127;
  bidString ← buffer_string value;
  stoi bidString;;
  let '(BIDDER, bs) := bracket nobody (bids g) i in
  mret (BIDDER, mkGlobals bs us (record g) (user_count g)).

Fixpoint methodA_loop (l : list Z) (finalresult : gmap Z (bytes * Z)) (g : globals)
    : SM (gmap Z (bytes * Z) * globals) :=
  match l with
  | [] => mret (finalresult, g)
  | i :: l =>
      '(BIDDER, g) ← read_bid g i;
      let '(finalresult, g) := oblivious BIDDER.2 BIDDER.1 g in
      methodA_loop l finalresult g
  end.

Definition result_text (BIDDERMAX BIDDERSECONDMAX : bytes * Z) : bytes :=
  bs " The winner is " ++ BIDDERMAX.1 ++ bs " And had originally bid " ++ show_int BIDDERMAX.2 ++
  bs " But pays the second price of " ++ show_int BIDDERSECONDMAX.2 ++ bs " That was bid by " ++ BIDDERSECONDMAX.1.

Definition retrieveAuctionResultMethodA (g : globals) : SM (bytes * globals) :=
  '(finalresult, g) ← methodA_loop (upto (user_count g)) ∅ g;
  let '(BIDDERMAX, finalresult) := bracket nobody finalresult 0 in
  let '(BIDDERSECONDMAX, _) := bracket nobody finalresult 1 in
  mret (result_text BIDDERMAX BIDDERSECONDMAX, g).

Definition storeBidMethodB (user_name bid_value : bytes) (g : globals) : SM (bytes * globals) :=
  '(value, g) ← add_bid user_name bid_value g; mret ([], (oblivious value user_name g).2).

Definition retrieveAuctionResultMethodB (g : globals) : bytes * globals :=
  let '(BIDDERMAX, r) := bracket nobody (record g) 0 in
  let '(BIDDERSECONDMAX, r) := bracket nobody r 1 in
  (result_text BIDDERMAX BIDDERSECONDMAX, set_record r g).

(** ** july15.cpp *)

Definition maximum (bid1 bid2 : Z) : Z := run_block CompareBlock compare_code [bid1; bid2].

(** [oblivious] of july15.cpp does not record the bidder of the second price. *)
Definition july_oblivious (value : Z) (bidder : bytes) (g : globals) : gmap Z (bytes * Z) * globals :=
  let '(BIDDERMAX, r) := bracket nobody (record g) 0 in
  let '(BIDDERSECONDMAX, r) := bracket nobody r 1 in
  let bidderlist : gmap Z bytes :=
    <[value := bidder]> (<[BIDDERSECONDMAX.2 := BIDDERSECONDMAX.1]> (<[BIDDERMAX.2 := BIDDERMAX.1]> ∅)) in
  let '(max, secondmax) := two_highest value BIDDERMAX.2 BIDDERSECONDMAX.2 in
  let '(first, _) := bracket [] bidderlist max in
  let r := <[1 := ([], secondmax)]> (<[0 := (first, max)]> r) in
  (r, set_record r g).

(** [c*x + d*y] *)
Definition mix (c x d y : Z) : SM Z :=
  cx ← an_int (c * x); dy ← an_int (d * y); an_int (cx + dy).

(** The variables of the loop *)
Record second_price := mkSecond { smax : Z; max : Z; maxid : Z; smaxid : Z }.

Definition consider_second (i bid : Z) (v : second_price) : SM second_price :=
  let b := maximum (smax v) bid in
  b' ← an_int (1 - b);
  smax1 ← mix b' (smax v) b bid;
  smaxid1 ← mix b' (smaxid v) b i;
  let b := maximum (max v) smax1 in
  b' ← an_int (1 - b);
  max2 ← mix b' (max v) b smax1;
  maxid2 ← mix b' (maxid v) b smaxid1;
  smax2 ← mix b (max v) b' smax1;
  smaxid2 ← mix b (maxid v) b' smaxid1;
  mret (mkSecond smax2 max2 maxid2 smaxid2).
Fixpoint second_price_loop (l : list Z) (v : second_price) (g : globals) : SM (second_price * globals) :=
  match l with
  | [] => mret (v, g)
  | i :: l =>
      '(BIDDER, g) ← read_bid g i;
      v ← consider_second i BIDDER.2 v;
      second_price_loop l v g
  end.

Definition july_storeBid (user_name bid_value : bytes) (g : globals) : SM (bytes * globals) :=
  '(_, g) ← add_bid user_name bid_value g; mret ([], g).
Definition july_storeBidMethodB (user_name bid_value : bytes) (g : globals) : SM (bytes * globals) :=
  '(value, g) ← add_bid user_name bid_value g; mret ([], (july_oblivious value user_name g).2).

(** The text names the second bidder as the price and the price as the bidder. *)
Definition retrieveAuctionResultSecondPrice (g : globals) : SM (bytes * globals) :=
  '(v, g) ← second_price_loop (upto (user_count g)) (mkSecond 0 0 0 0) g;
  let '(winner, us) := bracket [] (usernames g) (maxid v) in
  let '(second, us) := bracket [] us (smaxid v) in
  mret (bs " The winner is " ++ winner ++ bs " And had originally bid " ++ show_int (max v) ++
        bs " But pays the second price of " ++ second ++ bs " That was bid by " ++ show_int (smax v),
        mkGlobals (bids g) us (record g) (user_count g)).

Fixpoint first_price_loop (l : list Z) (max maxid : Z) (g : globals) : SM (Z * Z * globals) :=
  match l with
  | [] => mret (max, maxid, g)
  | i :: l =>
      '(BIDDER, g) ← read_bid g i;
      let b := maximum max BIDDER.2 in
      b' ← an_int (1 - b);
      max ← mix b' max b BIDDER.2;
      maxid ← mix b' maxid b i;
      first_price_loop l max maxid g
  end.
Definition retrieveAuctionResultFirstPrice (g : globals) : SM (bytes * globals) :=
  '(max, maxid, g) ← first_price_loop (upto (user_count g)) 0 0 g;
  let '(winner, us) := bracket [] (usernames g) maxid in
  mret (bs " The winner is " ++ winner ++ bs " And has bid " ++ show_int max,
        mkGlobals (bids g) us (record g) (user_count g)).

(** ** Invocation (auction_final.cpp) *)

Definition auction_request (function_name : bytes) (params : list bytes) (g : globals)
    : SM (option (bytes * globals)) :=
  let named s := bool_decide (function_name = bs s) in
  if named "asmTest" then mret (Some (asmTest, g))
  else if named "clearRecord" then mret (Some (clearRecord g))
  else if named "resetAuction" then mret (Some (resetAuction g))
  else if named "showRecord" then mret (Some (showRecord g))
  else if named "retrieveBid" then
    user_name ← vector_at params 0; r ← retrieveBid user_name; mret (Some (r, g))
  else if named "retrieveUsernames" then mret (Some (retrieveUsernames g))
  else if named "storeBidMethodA" then
    user_name ← vector_at params 0; value ← vector_at params 1;
    r ← storeBidMethodA user_name value g; mret (Some r)
  else if named "storeBidMethodB" then
    user_name ← vector_at params 0; value ← vector_at params 1;
    r ← storeBidMethodB user_name value g; mret (Some r)
  else if named "retrieveAuctionResultMethodA" then r ← retrieveAuctionResultMethodA g; mret (Some r)
  else if named "retrieveAuctionResultMethodB" then mret (Some (retrieveAuctionResultMethodB g))
  else mret None.
Definition invoke (max_response_len : Z) (g : globals) : SM (Z * bytes * globals) :=
  '(_, function_name, params) ← get_func_and_params;
  r ← auction_request function_name params g;
  match r with
  | None => mret (-1, [], g)
  | Some (result, g) => '(ret, response) ← respond result max_response_len; mret (ret, response, g)
  end.
End auction.
