(* ===== verification/ObliviousProof.v ===== *)
(** * The oblivious auction: proofs

    Bids are read back as they were stored; the record of auction_final.cpp holds the two
    highest of them ([recorded]); the variables of the loops of july15.cpp hold the first
    two of the highest ([standing]). *)
From stdpp Require Import base list numbers option strings gmap.
From Stdlib Require Import ZArith Lia.
From S2P Require Import Prelude ParsonText CNum CNumProof JsonSpec JsonRoundTrip SgxCCLib EnclaveCrypto Ledger Shim.
From S2P Require Import EnclaveProof Peer Chaincodes ChaincodeProof ObliviousAsm ObliviousAuction.
Local Open Scope Z_scope.

(** ** Numbers in text *)

Lemma hex_digit c : isdigit c = true → 0 ≤ hex_char_to_int c < 10.
Proof. revert c. by_bytes. Qed.
Lemma digits_nonneg ds : digits ds → 0 ≤ digits_value 10 ds.
Proof.
  induction ds as [|c ds IH] using rev_ind; [done|]. intros [Hd Hc]%Forall_app. inversion Hc as [|? ? Hx _]; subst.
  rewrite digits_value_app. pose proof (hex_digit _ Hx). specialize (IH Hd). cbn -[Z.mul Z.pow]. lia.
Qed.
Lemma digits_prefix ds c : digits (ds ++ [c]) → digits_value 10 ds ≤ digits_value 10 (ds ++ [c]).
Proof.
  intros [Hd Hc]%Forall_app. inversion Hc as [|? ? Hx _]; subst. rewrite digits_value_app.
  pose proof (hex_digit _ Hx). pose proof (digits_nonneg _ Hd). cbn -[Z.mul Z.pow]. lia.
Qed.

Section text.
Context {W : Type} `{SgxCrypto W}.

Lemma stoi_digits (ds : bytes) (ctx : t_shim_ctx W) : digits ds → ds ≠ [] → digits_value 10 ds < 2 ^ 31 →
  stoi ds ctx = Done (digits_value 10 ds) ctx.
Proof.
  intros Hd Hne Hlt. pose proof (digits_nonneg _ Hd) as Hge. unfold stoi.
  rewrite (cstr_nonul _ (digits_nonul _ Hd)). destruct ds as [|c ds]; [done|].
  pose proof (Forall_inv Hd) as Hc. destruct (digit_facts c Hc) as (Hs & _ & _ & _ & _ & _ & _ & _ & Hm).
  pose proof (span_app (c :: ds) [] Hd eq_refl) as Hspan. rewrite app_nil_r in Hspan.
  rewrite skip_ws_cons by done. change (hd_c (c :: ds)) with c. cbv zeta.
  destruct (decide (c = "-"%byte)) as [|_]; [done|].
  destruct (decide (c = "+"%byte)) as [->|_]; [by vm_compute in Hc|]. rewrite Hspan.
  rewrite decide_False by done. unfold in_int, INT_MAX.
  rewrite (proj2 (Z.leb_le _ _)) by lia. rewrite (proj2 (Z.leb_le _ _)) by lia. done.
Qed.
End text.

(** ** Reading a bid *)

(** The text of a bid that can be read back: decimal digits, two at least because the last
    one may be lost *)
Definition decimal (text : bytes) : Prop :=
  digits text ∧ (2 ≤ length text ≤ 126)%nat ∧ digits_value 10 text < 2 ^ 31.

Section reading.
Context {W : Type} `{HonestPeer W} `{Stack}.
Implicit Types (ctx : t_shim_ctx W) (w : W) (g : globals).

Lemma buffer_string_decimal text ctx : decimal text → ∃ s,
  buffer_string text ctx = Done s ctx ∧ digits s ∧ s ≠ [] ∧ digits_value 10 s < 2 ^ 31.
Proof.
  intros (Hd & Hlen & Hv). unfold buffer_string. rewrite (proj2 (Nat.leb_gt _ _)) by lia.
  pose proof (digits_nonul _ Hd) as Hn. cbv zeta. eexists. split; [reflexivity|]. rewrite cstr_app by done.
  assert (∃ r, (length r ≤ 1)%nat ∧ cstr (take 1 (uninit (128 - length text)) ++ [x00]) = r) as (r & Hr & ->).
  { eexists. split; [|reflexivity]. rewrite cstr_app_end.
    destruct (uninit _) as [|c l]; cbn; [lia|]. rewrite take_0. case_decide; cbn; lia. }
  rewrite length_app. destruct r as [|c [|c' r]]; cbn [length] in Hr |- *; [| |lia].
  2: { rewrite take_app_length' by lia. split_and!; [done| |done]. by destruct text; cbn in Hlen; [lia|]. }
  rewrite app_nil_r. destruct text as [|d text _] using rev_ind; [cbn in Hlen; lia|]. rewrite length_app. cbn [length].
  rewrite take_app_length' by lia. pose proof (digits_prefix _ _ Hd). apply Forall_app in Hd as [Hd _].
  rewrite length_app in Hlen. cbn [length] in Hlen. split_and!; [done| |lia]. by destruct text; cbn in Hlen; [lia|].
Qed.

(** The variables after the bids [l], and that the peer can return their texts *)
Record registered (l : list (bytes * Z)) (g : globals) (w : W) : Prop := {
  reg_count : user_count g = Z.of_nat (length l);
  reg_user i b : l !! i = Some b → usernames g !! Z.of_nat i = Some b.1;
  reg_bid i b : l !! i = Some b → bids g !! Z.of_nat i = Some b;
  reg_text b : b ∈ l → ∃ text, private w (cstr b.1) text ∧ decimal text }.

Lemma registered_same l g w w' : same_holds w w' → registered l g w → registered l g w'.
Proof.
  intros Hs [Hc Hu Hb Ht]. split; [done..|]. intros b Hb'. destruct (Ht b Hb') as (text & Hp & Hd).
  exists text. split; [by eapply private_same|done].
Qed.
Lemma registered_record l g w r : registered l g w → registered l (set_record r g) w.
Proof. intros [Hc Hu Hb Ht]. by split. Qed.

Lemma read_bid_registered l g ctx i b : registered l g (world ctx) → l !! i = Some b →
  ∃ ctx', read_bid g (Z.of_nat i) ctx = Done (b, g) ctx' ∧ registered l g (world ctx').
Proof.
  intros Hr Hi. destruct (reg_text _ _ _ Hr b) as (text & Hp & Hd); [by eapply list_elem_of_lookup_2|].
  pose proof Hd as (_ & Hlen & _).
  destruct (get_private (cstr b.1) text 127 ctx Hp) as (ctx1 & E1 & Hs & _); [lia..|].
  destruct (buffer_string_decimal text ctx1 Hd) as (s & E2 & Hs1 & Hs2 & Hs3).
  exists ctx1. split; [|by eapply registered_same].
  unfold read_bid, bracket. rewrite (reg_user _ _ _ Hr i b Hi), (reg_bid _ _ _ Hr i b Hi).
  unfold mbind, SM_bind. rewrite E1, E2, (stoi_digits s ctx1 Hs1 Hs2 Hs3). by destruct g.
Qed.

Lemma insert_next {V} (m : gmap Z V) (f : bytes * Z → V) l b :
  (∀ i x, l !! i = Some x → m !! Z.of_nat i = Some (f x)) →
  ∀ i x, (l ++ [b]) !! i = Some x → <[Z.of_nat (length l) := f b]> m !! Z.of_nat i = Some (f x).
Proof.
  intros Hm i x [Hi|[Hge Hi]]%lookup_app_Some.
  - pose proof (lookup_lt_Some _ _ _ Hi). rewrite lookup_insert_ne by lia. auto.
  - apply list_lookup_singleton_Some in Hi as [Hi <-]. replace i with (length l) by lia. by rewrite lookup_insert_eq.
Qed.
(** Storing a bid registers it. *)
Lemma add_bid_registers l g ctx name text : registered l g (world ctx) → decimal text →
  Z.of_nat (length l) < 2 ^ 31 - 1 →
  ∃ g' ctx', add_bid name text g ctx = Done (digits_value 10 text, g') ctx' ∧ record g' = record g ∧
    registered (l ++ [(name, digits_value 10 text)]) g' (world ctx').
Proof.
  intros Hr Hd Hn. destruct Hd as (Hdig & Hlen & Hv) eqn:E. clear E.
  destruct (put_private (cstr name) text ctx) as (ctx1 & E1 & Hp & Hk & _).
  unfold add_bid, mbind, SM_bind. rewrite stoi_digits, E1 by (done || by destruct text; cbn in Hlen; [lia|]).
  unfold an_int. assert (in_int (user_count g + 1) = true) as ->.
  { unfold in_int, INT_MAX. rewrite (reg_count _ _ _ Hr). apply andb_true_iff. split; apply Z.leb_le; lia. }
  eexists _, _. split; [reflexivity|]. split; [done|]. split; cbn.
  - rewrite (reg_count _ _ _ Hr), length_app. cbn. lia.
  - rewrite (reg_count _ _ _ Hr). apply (insert_next _ fst l (name, _)), Hr.
  - rewrite (reg_count _ _ _ Hr). apply (insert_next _ id l (name, _)), Hr.
  - intros b Hb. destruct (decide (cstr b.1 = cstr name)) as [->|Hne]; [by exists text|].
    apply elem_of_app in Hb as [Hb| ->%list_elem_of_singleton]; [|done].
    destruct (reg_text _ _ _ Hr b Hb) as (t & (stored & Hh & Hs) & Ht). exists t. split; [|done].
    exists stored. by rewrite Hk.
Qed.
End reading.

(** ** The two highest bids *)

Definition nonneg_int (v : Z) : Prop := 0 ≤ v < 2 ^ 31.
(** [m] and [s] are the highest and the second highest of the values. *)
Definition tops (vals : list Z) (m s : Z) : Prop :=
  ∃ rest, vals ≡ₚ m :: s :: rest ∧ s ≤ m ∧ Forall (λ x, x ≤ s) rest.
(** The last bidder of a value *)
Definition last_with (v : Z) (l : list (bytes * Z)) : bytes :=
  default [] (fst <$> last (filter (λ b, b.2 = v) l)).

Lemma last_with_snoc v l n v' : last_with v (l ++ [(n, v')]) = if decide (v' = v) then n else last_with v l.
Proof.
  unfold last_with. rewrite filter_app, filter_cons. cbn [snd]. destruct (decide (v' = v)).
  - by rewrite filter_nil, last_snoc.
  - by rewrite filter_nil, app_nil_r.
Qed.
Lemma tops_snoc vals m s v : tops vals m s → tops (vals ++ [v]) (Z.max v m) (if v <=? m then Z.max s v else m).
Proof.
  intros (rest & Hp & Hle & Hrest). destruct (Z.leb_spec v m).
  - destruct (Z.le_gt_cases v s).
    + exists (v :: rest). rewrite Hp, (Z.max_r v m), (Z.max_l s v) by lia. split_and!; [solve_Permutation|lia|by constructor].
    + exists (s :: rest). rewrite Hp, (Z.max_r v m), (Z.max_r s v) by lia. split_and!; [solve_Permutation|lia|].
      constructor; [lia|]. eapply Forall_impl; [exact Hrest|]. cbn. lia.
  - exists (s :: rest). rewrite Hp, (Z.max_l v m) by lia. split_and!; [solve_Permutation|lia|].
    constructor; [lia|]. eapply Forall_impl; [exact Hrest|]. cbn. lia.
Qed.

Section record.
Context `{C : Compiler} (Hk : constraints C) (Hc : fortunate C).

Lemma two_highest_plain v m s : nonneg_int v → nonneg_int m → nonneg_int s → s ≤ m →
  two_highest v m s = (Z.max v m, if v <=? m then Z.max s v else m).
Proof.
  unfold nonneg_int. intros Hv Hm Hs Hle. destruct Hc as [E Es Et]. unfold two_highest.
  rewrite (max_block Hk), E. rewrite !(wrap32_exact v), !(wrap32_exact m) by lia.
  rewrite (to_int32_exact (Z.max v m)) by lia.
  rewrite (second_block Hk), (tie_block Hk), !(wrap32_exact v), !(wrap32_exact m), !(wrap32_exact s), (wrap32_exact (Z.max v m)) by (done || lia).
  destruct (Z.leb_spec v m).
  - rewrite (Z.max_r v m), Z.eqb_refl by lia. rewrite (to_int32_exact (Z.max s v)), wrap32_exact by lia.
    destruct (Z.eqb_spec (Z.max s v) m); rewrite to_int32_exact by lia; congruence.
  - rewrite (Z.max_l v m), (proj2 (Z.eqb_neq m v)) by lia. rewrite (to_int32_exact (Z.max m v)), wrap32_exact by lia.
    rewrite (Z.max_r m v), Z.eqb_refl, to_int32_exact by lia. done.
Qed.

(** The record after the bids [l], and as it was first, when the names may differ *)
Record recorded (l : list (bytes * Z)) (r : gmap Z (bytes * Z)) (m s : Z) : Prop := {
  rec_tops : tops l.*2 m s;
  rec_values : Forall nonneg_int l.*2;
  rec_second : r !! 1 = Some (last_with s l, s);
  rec_first : ∃ n, r !! 0 = Some (n, m) ∧ (n = last_with m l ∨ m = s) }.

Lemma tops_elem vals m s : tops vals m s → m ∈ vals ∧ s ∈ vals.
Proof. intros (rest & -> & _). set_solver. Qed.

Lemma oblivious_records l g m s name v : recorded l (record g) m s → nonneg_int v →
  let m' := Z.max v m in let s' := if v <=? m then Z.max s v else m in
  let l' := l ++ [(name, v)] in
  let r := <[1 := (last_with s' l', s')]> (<[0 := (last_with m' l', m')]> (record g)) in
  oblivious v name g = (r, set_record r g) ∧ recorded l' r m' s'.
Proof.
  intros Hr Hv m' s' l' r. pose proof (rec_second _ _ _ _ Hr) as E1. destruct (rec_first _ _ _ _ Hr) as (n & E0 & Hn).
  pose proof (rec_values _ _ _ _ Hr) as Hvals. rewrite Forall_forall in Hvals.
  destruct (tops_elem _ _ _ (rec_tops _ _ _ _ Hr)) as [Hm Hs]. apply Hvals in Hm, Hs.
  assert (s ≤ m) as Hle by by destruct (rec_tops _ _ _ _ Hr) as (? & ? & ? & ?).
  set (bl := <[v := name]> (<[s := last_with s l]> (<[m := n]> (∅ : gmap Z bytes)))).
  assert (∀ x, x = v ∨ x = m ∨ x = s → bl !! x = Some (last_with x l')) as Hbl.
  { intros x Hx. unfold l'. rewrite last_with_snoc. unfold bl. case_decide as Ev; [by rewrite Ev, lookup_insert_eq|].
    rewrite lookup_insert_ne by done. destruct (decide (s = x)) as [<-|Hsx]; [by rewrite lookup_insert_eq|].
    rewrite lookup_insert_ne by done. assert (m = x) as <- by (destruct Hx as [|[]]; congruence).
    rewrite lookup_insert_eq. destruct Hn as [->|]; congruence. }
  split.
  - unfold oblivious, bracket. rewrite E0. cbn [fst snd]. rewrite E1. cbn [fst snd].
    rewrite two_highest_plain by done. fold bl m' s'.
    rewrite (Hbl m') by (unfold m'; lia). rewrite (Hbl s') by (unfold s'; destruct (v <=? m); lia). done.
  - split.
    + unfold l'. rewrite fmap_app. apply tops_snoc, Hr.
    + unfold l'. rewrite fmap_app. apply Forall_app. split; [apply Hr|by apply Forall_singleton].
    + apply lookup_insert_eq.
    + exists (last_with m' l'). split; [|by left]. unfold r. rewrite lookup_insert_ne by done. apply lookup_insert_eq.
Qed.
End record.

(** ** Evaluation without branches *)

(** The best two bids of [vals], which [a] and [b] made: the first ones that bid so much.
    A price of 0 is that of the first bidder. *)
Record standing (vals : list Z) (a : nat) (m : Z) (b : nat) (s : Z) : Prop := {
  st_order : 0 ≤ s ≤ m;
  st_first : 0 < m → vals !! a = Some m;
  st_nobody : m = 0 → a = 0%nat;
  st_best j x : vals !! j = Some x → x ≤ m ∧ ((j < a)%nat → x < m);
  st_second : 0 < s → vals !! b = Some s ∧ b ≠ a;
  st_nobody2 : s = 0 → b = 0%nat;
  st_rest j x : vals !! j = Some x → j ≠ a → x ≤ s ∧ ((j < b)%nat → x < s) }.
Lemma standing_nil : standing [] 0 0 0 0.
Proof. split; try done; lia. Qed.

(** Where the next bid stands *)
Definition next_standing (n : nat) (bid : Z) (a : nat) (m : Z) (b : nat) (s : Z) : nat * Z * nat * Z :=
  if bid <=? s then (a, m, b, s) else if bid <=? m then (a, m, n, bid) else (n, bid, a, m).
Lemma standing_snoc vals a m b s bid : standing vals a m b s → 0 ≤ bid →
  let '(a', m', b', s') := next_standing (length vals) bid a m b s in standing (vals ++ [bid]) a' m' b' s'.
Proof.
  intros [Ho Hf Hn Hb Hs Hn2 Hr] Hbid. unfold next_standing.
  assert (a ≤ length vals)%nat as Ha.
  { destruct (decide (m = 0)) as [->|]; [rewrite Hn by done; lia|]. apply lookup_lt_Some in Hf; lia. }
  assert (b ≤ length vals)%nat as Hb'.
  { destruct (decide (s = 0)) as [->|]; [rewrite Hn2 by done; lia|]. destruct Hs as [Hs _]; [lia|]. apply lookup_lt_Some in Hs; lia. }
  assert (0 < m → (a < length vals)%nat) as Ha'. { intros Hm. by eapply lookup_lt_Some, Hf. }
  assert (∀ j x, (vals ++ [bid]) !! j = Some x → vals !! j = Some x ∧ (j < length vals)%nat ∨ j = length vals ∧ x = bid) as Hj.
  { intros j x [Hj|[Hge Hj]]%lookup_app_Some; [left; by eauto using lookup_lt_Some|right].
    apply list_lookup_singleton_Some in Hj as [Hj ->]. split; [lia|done]. }
  assert (∀ j x, vals !! j = Some x → (vals ++ [bid]) !! j = Some x) as Hold by (intros; by apply lookup_app_l_Some).
  pose proof (list_lookup_middle vals [] bid (length vals) eq_refl) as Hnew.
  assert (0 < s → (vals ++ [bid]) !! b = Some s ∧ b ≠ a) as Hs'.
  { intros Hpos. destruct (Hs Hpos) as [E ?]. split; [by apply Hold|done]. }
  destruct (Z.leb_spec bid s); [|destruct (Z.leb_spec bid m)]; split; try lia; try done; auto.
  (* the bids before *)
  all: try by intros j x Hx; destruct (Hj _ _ Hx) as [[Hx' Hlt]|[-> ->]];
    [pose proof (Hb _ _ Hx'); pose proof (Hr _ _ Hx')|]; lia.
  - intros _. split; [done|]. lia.
  - intros Hm. split; [auto|]. specialize (Ha' Hm). lia.
Qed.

Section loops.
Context {W : Type} `{HonestPeer W} `{Stack} `{C : Compiler} (Hc : constraints C).
(** The second of two bids that are compared is not overwritten. *)
Context (Hcmp : place CompareBlock 2 ≠ InReg EAX).
Implicit Types (ctx : t_shim_ctx W) (g : globals).

Lemma maximum_nonneg a b : nonneg_int a → nonneg_int b → maximum a b = Z.b2z (a <? b).
Proof.
  unfold nonneg_int. intros Ha Hb. unfold maximum. rewrite (compare_block Hc), !wrap32_exact by (done || lia). by destruct (a <? b).
Qed.
Lemma an_int_done z ctx : - 2 ^ 31 ≤ z < 2 ^ 31 → an_int z ctx = Done z ctx.
Proof.
  intros Hz. unfold an_int, in_int, INT_MAX. rewrite (proj2 (Z.leb_le _ _)) by lia. by rewrite (proj2 (Z.leb_le _ _)) by lia.
Qed.
(** The selection by arithmetic *)
Lemma mix_select (t : bool) x y ctx : nonneg_int x → nonneg_int y →
  mix (1 - Z.b2z t) x (Z.b2z t) y ctx = Done (if t then y else x) ctx.
Proof.
  unfold nonneg_int. intros Hx Hy. unfold mix, mbind, SM_bind. destruct t; cbn [Z.b2z Z.sub Z.add Z.opp Z.pos_sub];
    rewrite !an_int_done by lia; f_equal; lia.
Qed.
Lemma mix_swap (t : bool) x y ctx : nonneg_int x → nonneg_int y →
  mix (Z.b2z t) x (1 - Z.b2z t) y ctx = Done (if t then x else y) ctx.
Proof.
  unfold nonneg_int. intros Hx Hy. unfold mix, mbind, SM_bind. destruct t; cbn [Z.b2z Z.sub Z.add Z.opp Z.pos_sub];
    rewrite !an_int_done by lia; f_equal; lia.
Qed.

(** The variables of the loop as natural numbers where they are indices *)
Definition second_at (a : nat) (m : Z) (b : nat) (s : Z) : second_price :=
  mkSecond s m (Z.of_nat a) (Z.of_nat b).
Lemma consider_second_nonneg (n : nat) bid a m b s ctx :
  nonneg_int bid → nonneg_int m → nonneg_int s → s ≤ m →
  nonneg_int (Z.of_nat n) → nonneg_int (Z.of_nat a) → nonneg_int (Z.of_nat b) →
  consider_second (Z.of_nat n) bid (second_at a m b s) ctx =
    Done (let '(a', m', b', s') := next_standing n bid a m b s in second_at a' m' b' s') ctx.
Proof.
  intros Hbid Hm Hs Hle Hn Ha Hb. unfold consider_second, second_at. cbn [smax max maxid smaxid].
  rewrite maximum_nonneg by done. unfold mbind, SM_bind.
  assert (∀ t : bool, - 2 ^ 31 ≤ 1 - Z.b2z t < 2 ^ 31) as Hb2 by (intros []; cbn; lia).
  rewrite an_int_done, !mix_select by done.
  rewrite maximum_nonneg by (done || by destruct (s <? bid)).
  rewrite an_int_done by done. rewrite !mix_select by (done || by destruct (s <? bid)).
  rewrite !mix_swap by (done || by destruct (s <? bid)).
  unfold next_standing. destruct (Z.ltb_spec s bid), (Z.leb_spec bid s); try lia.
  - destruct (Z.ltb_spec m bid), (Z.leb_spec bid m); by try lia.
  - destruct (Z.ltb_spec m s); by try lia.
Qed.

(** The numbers of the bids that are still to be considered *)
Definition from (k n : nat) : list Z := Z.of_nat <$> seq k (n - k).
Lemma from_next k n : (k < n)%nat → from k n = Z.of_nat k :: from (S k) n.
Proof. intros Hlt. unfold from. by replace (n - k)%nat with (S (n - S k)) by lia. Qed.
Lemma from_end n : from n n = [].
Proof. unfold from. by rewrite Nat.sub_diag. Qed.
Lemma upto_from n : upto (Z.of_nat n) = from 0 n.
Proof. unfold upto, from. by rewrite Nat2Z.id, Nat.sub_0_r. Qed.

Lemma standing_int vals a m b s : Forall nonneg_int vals → Z.of_nat (length vals) < 2 ^ 31 → standing vals a m b s →
  nonneg_int m ∧ nonneg_int s ∧ nonneg_int (Z.of_nat a) ∧ nonneg_int (Z.of_nat b).
Proof.
  intros Hv Hn Hst. pose proof (st_order _ _ _ _ _ Hst) as Ho.
  assert (∀ i x, vals !! i = Some x → nonneg_int x ∧ nonneg_int (Z.of_nat i)) as Hx.
  { intros i x Hi. split; [by eapply Forall_lookup_1|]. apply lookup_lt_Some in Hi. unfold nonneg_int. lia. }
  assert (nonneg_int m ∧ nonneg_int (Z.of_nat a)) as [Hm Ha].
  { destruct (decide (m = 0)) as [E|]; [by rewrite E, (st_nobody _ _ _ _ _ Hst)|].
    apply Hx, (st_first _ _ _ _ _ Hst). lia. }
  assert (nonneg_int s ∧ nonneg_int (Z.of_nat b)) as [Hs Hb].
  { destruct (decide (s = 0)) as [E|]; [by rewrite E, (st_nobody2 _ _ _ _ _ Hst)|].
    apply Hx, (st_second _ _ _ _ _ Hst). lia. }
  done.
Qed.

(** A loop over the bids that keeps an invariant of those it has read.  Its step may change
    the record only. *)
Lemma bid_loop {V} (loop : list Z → V → globals → SM W (V * globals))
    (step : Z → bytes * Z → V → globals → SM W (V * globals)) (P : list (bytes * Z) → V → globals → Prop) l :
  (∀ v g ctx, loop [] v g ctx = Done (v, g) ctx) →
  (∀ i is_ v g ctx b g1 ctx1 v' g' ctx2, read_bid g i ctx = Done (b, g1) ctx1 →
     step i b v g1 ctx1 = Done (v', g') ctx2 → loop (i :: is_) v g ctx = loop is_ v' g' ctx2) →
  (∀ k b v g ctx, l !! k = Some b → P (take k l) v g →
     ∃ v' r, step (Z.of_nat k) b v g ctx = Done (v', set_record r g) ctx ∧ P (take k l ++ [b]) v' (set_record r g)) →
  ∀ k v g ctx, (k ≤ length l)%nat → registered l g (world ctx) → P (take k l) v g →
  ∃ v' g' ctx', loop (from k (length l)) v g ctx = Done (v', g') ctx' ∧ registered l g' (world ctx') ∧
    usernames g' = usernames g ∧ P l v' g'.
Proof.
  intros Hnil Hcons Hstep k. remember (length l - k)%nat as d eqn:Hd. revert k Hd.
  induction d as [|d IH]; intros k Hd v g ctx Hk Hr HP.
  - replace k with (length l) in * by lia. rewrite from_end, take_ge in * by lia. exists v, g, ctx. by rewrite Hnil.
  - destruct (lookup_lt_is_Some_2 l k) as [b Hb]; [lia|]. rewrite from_next by lia.
    destruct (read_bid_registered l g ctx k b Hr Hb) as (ctx1 & E1 & Hr1).
    destruct (Hstep k b v g ctx1 Hb HP) as (v' & r & E2 & HP').
    rewrite (Hcons _ _ _ _ _ _ _ _ _ _ _ E1 E2). rewrite <- (take_S_r _ _ _ Hb) in HP'.
    destruct (IH (S k) ltac:(lia) v' (set_record r g) ctx1) as (v'' & g' & ctx' & E & Hr' & Hu & HP''); [lia| |done|].
    + by apply registered_record.
    + by exists v'', g', ctx'.
Qed.

Lemma set_record_same g : set_record (record g) g = g.
Proof. by destruct g. Qed.
Lemma standing_take (l : list (bytes * Z)) k b a m c s : l !! k = Some b → Forall nonneg_int l.*2 → Z.of_nat (length l) < 2 ^ 31 →
  standing (take k l).*2 a m c s →
  nonneg_int b.2 ∧ nonneg_int m ∧ nonneg_int s ∧ nonneg_int (Z.of_nat a) ∧ nonneg_int (Z.of_nat c) ∧
  nonneg_int (Z.of_nat k) ∧ s ≤ m ∧
  let '(a', m', c', s') := next_standing k b.2 a m c s in standing (take k l ++ [b]).*2 a' m' c' s'.
Proof.
  intros Hk Hv Hn Hst. pose proof (lookup_lt_Some _ _ _ Hk).
  assert (nonneg_int b.2) as Hb by (eapply Forall_lookup_1; [exact Hv|]; by rewrite list_lookup_fmap, Hk).
  destruct (standing_int (take k l).*2 a m c s) as (? & ? & ? & ?); [| |done|].
  { rewrite fmap_take. by apply Forall_take. }
  { rewrite length_fmap, length_take. lia. }
  pose proof (standing_snoc _ _ _ _ _ b.2 Hst (proj1 Hb)) as Hnext.
  rewrite length_fmap, length_take, Nat.min_l in Hnext by lia. rewrite fmap_app.
  pose proof (st_order _ _ _ _ _ Hst). unfold nonneg_int in *. split_and!; (done || lia).
Qed.

Lemma second_price_loop_spec (l : list (bytes * Z)) g ctx : registered l g (world ctx) → Forall nonneg_int l.*2 →
  Z.of_nat (length l) < 2 ^ 31 → ∃ a m b s g' ctx',
  second_price_loop (from 0 (length l)) (second_at 0 0 0 0) g ctx = Done (second_at a m b s, g') ctx' ∧
  standing l.*2 a m b s ∧ registered l g' (world ctx').
Proof.
  intros Hr Hv Hn.
  destruct (bid_loop second_price_loop (λ i b v g, v' ← consider_second i b.2 v; mret (v', g))
    (λ (l : list (bytes * Z)) v _, ∃ a m b s, v = second_at a m b s ∧ standing l.*2 a m b s) l) with (k := 0%nat) (v := second_at 0 0 0 0) (g := g) (ctx := ctx)
    as (v & g' & ctx' & E & Hr' & _ & (a & m & b & s & -> & Hst)); [done| | |lia|done| |].
  - intros i is_ v g0 c0 b g1 c1 v' g2 c2 E1 E2. cbn. unfold mbind, SM_bind in *. rewrite E1.
    destruct (consider_second _ _ _ _); [by injection E2 as -> -> ->|done..].
  - intros k b v g0 c0 Hk (a & m & c & s & -> & Hst).
    destruct (standing_take _ _ _ _ _ _ _ Hk Hv Hn Hst) as (? & ? & ? & ? & ? & ? & ? & Hnext).
    eexists _, (record g0). unfold mbind, SM_bind. rewrite consider_second_nonneg, set_record_same by done.
    split; [reflexivity|]. destruct (next_standing _ _ _ _ _ _) as [[[a' m'] c'] s']. by exists a', m', c', s'.
  - exists 0%nat, 0, 0%nat, 0. split; [done|apply standing_nil].
  - by exists a, m, b, s, g', ctx'.
Qed.

Lemma first_price_step i is_ m a g ctx b g1 ctx1 v' g2 ctx2 : read_bid g i ctx = Done (b, g1) ctx1 →
  (let c := maximum m b.2 in c' ← an_int (1 - c); m ← mix c' m c b.2; a ← mix c' a c i; mret (m, a, g1)) ctx1 = Done (v', g2) ctx2 →
  first_price_loop (i :: is_) m a g ctx = (let '(m, a) := v' in λ g, first_price_loop is_ m a g) g2 ctx2.
Proof.
  destruct v' as [m' a']. intros E1. cbn. unfold mbind, SM_bind in *. rewrite E1.
  destruct (an_int _ _); [|done..]. destruct (mix _ _ _ _ _); [|done..].
  destruct (mix _ _ _ _ _); [|done..]. intros E2. by injection E2 as -> -> -> ->.
Qed.
Lemma lookup_nonneg (l : list (bytes * Z)) k b : l !! k = Some b → Forall nonneg_int l.*2 →
  Z.of_nat (length l) < 2 ^ 31 → nonneg_int b.2 ∧ nonneg_int (Z.of_nat k).
Proof.
  intros Hk Hv Hn. pose proof (lookup_lt_Some _ _ _ Hk). unfold nonneg_int at 2. split; [|lia].
  eapply Forall_lookup_1; [exact Hv|]. by rewrite list_lookup_fmap, Hk.
Qed.
Lemma first_price_loop_spec (l : list (bytes * Z)) g ctx : registered l g (world ctx) → Forall nonneg_int l.*2 →
  Z.of_nat (length l) < 2 ^ 31 → ∃ a m b s g' ctx',
  first_price_loop (from 0 (length l)) 0 0 g ctx = Done (m, Z.of_nat a, g') ctx' ∧
  standing l.*2 a m b s ∧ registered l g' (world ctx').
Proof.
  intros Hr Hv Hn.
  destruct (bid_loop (λ is_ '(m, a) g, first_price_loop is_ m a g)
    (λ i b '(m, a) g, let c := maximum m b.2 in c' ← an_int (1 - c); m ← mix c' m c b.2; a ← mix c' a c i; mret (m, a, g))
    (λ (l : list (bytes * Z)) v _, ∃ a m b s, v = (m, Z.of_nat a) ∧ standing l.*2 a m b s) l)
    with (k := 0%nat) (v := (0, 0)) (g := g) (ctx := ctx)
    as (v & g' & ctx' & E & Hr' & _ & (a & m & b & s & -> & Hst)); [by intros []| | |lia|done| |].
  - intros i is_ [m a] g0 c0 b g1 c1 v' g2 c2 E1 E2. by apply (first_price_step i is_ m a g0 c0 b g1 c1 v' g2 c2).
  - intros k b v g0 c0 Hk (a & m & c & s & -> & Hst).
    destruct (standing_take _ _ _ _ _ _ _ Hk Hv Hn Hst) as (? & ? & ? & ? & ? & ? & ? & Hnext).
    eexists _, (record g0). unfold mbind, SM_bind. rewrite maximum_nonneg by done. cbv zeta.
    rewrite an_int_done, !mix_select, set_record_same by (done || by destruct (m <? b.2)).
    split; [reflexivity|]. revert Hnext. unfold next_standing.
    destruct (Z.leb_spec b.2 s), (Z.leb_spec b.2 m), (Z.ltb_spec m b.2); try lia; intros Hnext; by eexists _, _, _, _.
  - exists 0%nat, 0, 0%nat, 0. split; [done|apply standing_nil].
  - by exists a, m, b, s, g', ctx'.
Qed.

Lemma methodA_loop_spec init (l : list (bytes * Z)) finalresult g ctx m s : constraints C → fortunate C →
  registered l g (world ctx) → Forall nonneg_int l.*2 → l ≠ [] → recorded init (record g) m s → ∃ r m' s' g' ctx',
  methodA_loop (from 0 (length l)) finalresult g ctx = Done (r, g') ctx' ∧ registered l g' (world ctx') ∧
  tops (init ++ l).*2 m' s' ∧ r !! 0 = Some (last_with m' (init ++ l), m') ∧ r !! 1 = Some (last_with s' (init ++ l), s').
Proof.
  intros Hcons Hp Hr Hv Hne Hrec.
  destruct (bid_loop methodA_loop (λ i b v g, mret (oblivious b.2 b.1 g))
    (λ l r g, ∃ m s, recorded (init ++ l) (record g) m s ∧ (l ≠ [] → r = record g ∧ r !! 0 = Some (last_with m (init ++ l), m))) l)
    with (k := 0%nat) (v := finalresult) (g := g) (ctx := ctx)
    as (r & g' & ctx' & E & Hr' & _ & (m' & s' & Hrec' & Hres)); [done| | |lia|done| |].
  - intros i is_ v g0 c0 b g1 c1 v' g2 c2 E1 E2. cbn. unfold mbind, SM_bind in *. rewrite E1. by injection E2 as -> ->.
  - intros k b v g0 c0 Hk (m0 & s0 & Hrec0 & _).
    assert (nonneg_int b.2) as Hb by (eapply Forall_lookup_1; [exact Hv|]; by rewrite list_lookup_fmap, Hk).
    destruct (oblivious_records Hcons Hp _ _ _ _ b.1 b.2 Hrec0 Hb) as [E' Hrec1].
    rewrite <- (surjective_pairing b), <- app_assoc in Hrec1, E'.
    eexists _, _. rewrite E'. split; [reflexivity|]. eexists _, _. split; [exact Hrec1|]. intros _.
    split; [done|]. rewrite lookup_insert_ne by done. apply lookup_insert_eq.
  - exists m, s. rewrite app_nil_r. split; [done|]. done.
  - destruct (Hres Hne) as [-> Hres']. exists (record g'), m', s', g', ctx'.
    split_and!; [done|done|apply Hrec'|done|apply Hrec'].
Qed.
End loops.

(** When the compiler has put the second of two bids that are compared into EAX, the loops
    never find a bid that is better than 0. *)
Section lost.
Context {W : Type} `{HonestPeer W} `{Stack} `{C : Compiler} (Hc : constraints C).
Implicit Types (ctx : t_shim_ctx W) (g : globals).
Context (Hlost : place CompareBlock 2 = InReg EAX).
Lemma maximum_lost a b : maximum a b = Z.b2z false.
Proof. by apply (compare_block_lost Hc). Qed.
Lemma second_price_loop_lost (l : list (bytes * Z)) g ctx : registered l g (world ctx) → Forall nonneg_int l.*2 →
  Z.of_nat (length l) < 2 ^ 31 → ∃ g' ctx',
  second_price_loop (from 0 (length l)) (mkSecond 0 0 0 0) g ctx = Done (mkSecond 0 0 0 0, g') ctx' ∧
  registered l g' (world ctx').
Proof.
  intros Hr Hv Hn.
  destruct (bid_loop second_price_loop (λ i b v g, v' ← consider_second i b.2 v; mret (v', g))
    (λ _ v _, v = mkSecond 0 0 0 0) l) with (k := 0%nat) (v := mkSecond 0 0 0 0) (g := g) (ctx := ctx)
    as (v & g' & ctx' & E & Hr' & _ & ->); [done| | |lia|done|done|by exists g', ctx'].
  - intros i is_ v g0 c0 b g1 c1 v' g2 c2 E1 E2. cbn. unfold mbind, SM_bind in *. rewrite E1.
    destruct (consider_second _ _ _ _); [by injection E2 as -> -> ->|done..].
  - intros k b v g0 c0 Hk ->. destruct (lookup_nonneg l k b Hk Hv Hn) as [Hb Hkn].
    exists (mkSecond 0 0 0 0), (record g0). rewrite set_record_same. unfold consider_second. cbn [smax max maxid smaxid].
    rewrite !maximum_lost. unfold mbind, SM_bind. rewrite !an_int_done, !mix_select by done.
    by rewrite maximum_lost, an_int_done, !mix_select, !mix_swap by done.
Qed.
Lemma first_price_loop_lost (l : list (bytes * Z)) g ctx : registered l g (world ctx) → Forall nonneg_int l.*2 →
  Z.of_nat (length l) < 2 ^ 31 → ∃ g' ctx',
  first_price_loop (from 0 (length l)) 0 0 g ctx = Done (0, 0, g') ctx' ∧ registered l g' (world ctx').
Proof.
  intros Hr Hv Hn.
  destruct (bid_loop (λ is_ '(m, a) g, first_price_loop is_ m a g)
    (λ i b '(m, a) g, let c := maximum m b.2 in c' ← an_int (1 - c); m ← mix c' m c b.2; a ← mix c' a c i; mret (m, a, g))
    (λ _ v _, v = (0, 0)) l) with (k := 0%nat) (v := (0, 0)) (g := g) (ctx := ctx)
    as (v & g' & ctx' & E & Hr' & _ & ->); [by intros []| | |lia|done|done|by exists g', ctx'].
  - intros i is_ [m a] g0 c0 b g1 c1 v' g2 c2 E1 E2. by apply (first_price_step i is_ m a g0 c0 b g1 c1 v' g2 c2).
  - intros k b v g0 c0 Hk ->. destruct (lookup_nonneg l k b Hk Hv Hn) as [Hb Hkn].
    exists (0, 0), (record g0). rewrite set_record_same. unfold mbind, SM_bind. rewrite maximum_lost. cbv zeta.
    by rewrite an_int_done, !mix_select by done.
Qed.
End lost.

(** ** The context *)

Section context.
Context {W : Type} `{SgxCrypto W} `{Stack} `{C : Compiler}.
Local Abbreviation steady c := (leads (W := W) later c).

Lemma steady_an_int z : steady (an_int z).
Proof. unfold an_int. leads_steps. Qed.
Lemma steady_buffer_string s : steady (buffer_string s).
Proof. unfold buffer_string. leads_steps. Qed.
#[local] Hint Resolve steady_an_int steady_buffer_string steady_stoi steady_respond : leads.
Lemma steady_read_bid g i : steady (read_bid g i).
Proof. unfold read_bid. leads_steps. Qed.
Lemma steady_add_bid name text g : steady (add_bid name text g).
Proof. unfold add_bid. leads_steps. Qed.
#[local] Hint Resolve steady_read_bid steady_add_bid : leads.
Lemma steady_methodA_loop l r g : steady (methodA_loop l r g).
Proof. revert r g. induction l as [|i l IH]; intros r g; cbn [methodA_loop]; leads_steps. Qed.
#[local] Hint Resolve steady_methodA_loop : leads.
Lemma steady_oblivious n g : steady (ObliviousAuction.invoke n g).
Proof.
  unfold ObliviousAuction.invoke, auction_request, retrieveBid, storeBidMethodA, storeBidMethodB, retrieveAuctionResultMethodA.
  leads_steps.
Qed.
End context.
#[export] Hint Resolve steady_an_int steady_buffer_string steady_read_bid steady_add_bid : leads.
