(* ===== verification/ObliviousTheorems.v ===== *)
(** * The oblivious auction: what it answers

    With an honest peer, both methods of auction_final.cpp name the last bidder of the
    highest price and the second highest price, and july15.cpp names the first bidder of the
    highest price, for those choices of the compiler with which the blocks of assembly load
    what they are given.  Then the cases in which they do not. *)
From stdpp Require Import base list numbers option strings gmap.
From Stdlib Require Import ZArith Lia.
From S2P Require Import Prelude ParsonText CNum CNumProof JsonSpec StdMap SgxCCLib EnclaveCrypto Ledger LedgerTheorems Shim EnclaveProof.
From S2P Require Import Samples Peer Chaincodes ObliviousAsm ObliviousAuction ObliviousProof.
Local Open Scope Z_scope.

(** What [clearRecord] puts into the record *)
Definition initial_record : list (bytes * Z) := [(bs "nobody", 0); (bs "nobody2", 0)].
(** A user's name and the text of the bid, and the bid *)
Definition bid_of (b : bytes * bytes) : bytes * Z := (b.1, digits_value 10 b.2).

Section theorems.
Context {W : Type} `{HonestPeer W} `{Stack} `{C : Compiler}.
Implicit Types (ctx : t_shim_ctx W) (g : globals).

(** Bids that are stored one after the other *)
Fixpoint store_all (store : bytes → bytes → globals → SM W (bytes * globals)) (l : list (bytes * bytes)) (g : globals)
    : SM W globals :=
  match l with
  | [] => mret g
  | (user_name, value) :: l => '(_, g) ← store user_name value g; store_all store l g
  end.

Lemma decimal_nonneg text : decimal text → nonneg_int (digits_value 10 text).
Proof. intros (Hd & _ & Hv). split; [by apply digits_nonneg|done]. Qed.
Lemma decimals_nonneg (l : list (bytes * bytes)) : Forall (λ b, decimal b.2) l → Forall nonneg_int (bid_of <$> l).*2.
Proof.
  intros Hl. rewrite !Forall_fmap. eapply Forall_impl; [exact Hl|]. intros b. apply decimal_nonneg.
Qed.

(** Storing bids registers them; [I] is what a way of storing does to the record. *)
Lemma store_all_registers store (I : list (bytes * Z) → gmap Z (bytes * Z) → Prop) :
  (∀ l g ctx name text, registered l g (world ctx) → decimal text → Z.of_nat (length l) < 2 ^ 31 - 1 → I l (record g) →
    ∃ s g' ctx', store name text g ctx = Done (s, g') ctx' ∧
      registered (l ++ [bid_of (name, text)]) g' (world ctx') ∧ I (l ++ [bid_of (name, text)]) (record g')) →
  ∀ todo l g ctx, registered l g (world ctx) → Forall (λ b, decimal b.2) todo →
    Z.of_nat (length l + length todo) < 2 ^ 31 → I l (record g) →
    ∃ g' ctx', store_all store todo g ctx = Done g' ctx' ∧ registered (l ++ (bid_of <$> todo)) g' (world ctx') ∧
      I (l ++ (bid_of <$> todo)) (record g').
Proof.
  intros Hstore todo. induction todo as [|[name text] todo IH]; intros l g ctx Hr Hd Hn HI.
  - exists g, ctx. by rewrite app_nil_r.
  - inversion Hd as [|? ? Ht Hd']; subst. cbn [length] in Hn.
    destruct (Hstore l g ctx name text Hr Ht ltac:(lia) HI) as (s & g1 & ctx1 & E & Hr1 & HI1).
    destruct (IH _ g1 ctx1 Hr1 Hd') as (g' & ctx' & E' & Hr' & HI'); [rewrite length_app; cbn; lia|done|].
    exists g', ctx'. cbn. rewrite <- app_assoc in Hr', HI'. unfold mbind, SM_bind. rewrite E. by split.
Qed.

Lemma initial_registered r (w : W) : registered [] (set_record r initial_globals) w.
Proof. split; [done..|]. intros b Hb. by apply elem_of_nil in Hb. Qed.

Lemma storeBidMethodA_registers l g ctx name text : registered l g (world ctx) → decimal text →
  Z.of_nat (length l) < 2 ^ 31 - 1 → ∃ s g' ctx', storeBidMethodA name text g ctx = Done (s, g') ctx' ∧
    registered (l ++ [bid_of (name, text)]) g' (world ctx') ∧ record g' = record g.
Proof.
  intros Hr Hd Hn. destruct (add_bid_registers l g ctx name text Hr Hd Hn) as (g' & ctx' & E & Hrec & Hr').
  exists [], g', ctx'. unfold storeBidMethodA, mbind, SM_bind. by rewrite E.
Qed.
(** The record that both methods end with *)
Definition record_of (l : list (bytes * Z)) (r : gmap Z (bytes * Z)) : Prop :=
  ∃ m s, recorded (initial_record ++ l) r m s ∧
    (l ≠ [] → r !! 0 = Some (last_with m (initial_record ++ l), m)).
Lemma clear_record_of : record_of [] (record (clearRecord initial_globals).2).
Proof.
  exists 0, 0. split; [|done]. split.
  - by exists [].
  - by repeat constructor.
  - done.
  - exists (bs "nobody"). split; [done|by right].
Qed.
Lemma storeBidMethodB_registers (Hk : constraints C) (Hc : fortunate C) l g ctx name text : registered l g (world ctx) → decimal text →
  Z.of_nat (length l) < 2 ^ 31 - 1 → record_of l (record g) →
  ∃ s g' ctx', storeBidMethodB name text g ctx = Done (s, g') ctx' ∧
    registered (l ++ [bid_of (name, text)]) g' (world ctx') ∧ record_of (l ++ [bid_of (name, text)]) (record g').
Proof.
  intros Hr Hd Hn (m & s & Hrec & _).
  destruct (add_bid_registers l g ctx name text Hr Hd Hn) as (g' & ctx' & E & Hsame & Hr'). rewrite <- Hsame in Hrec.
  destruct (oblivious_records Hk Hc _ _ _ _ name _ Hrec (decimal_nonneg _ Hd)) as [E' Hrec'].
  rewrite <- app_assoc in E', Hrec'. eexists [], _, ctx'. unfold storeBidMethodB, mbind, SM_bind. rewrite E. cbv beta iota. rewrite E'.
  split; [reflexivity|]. split; [by apply registered_record|]. eexists _, _. split; [exact Hrec'|]. intros _.
  cbn [record set_record fst snd]. rewrite lookup_insert_ne by done. apply lookup_insert_eq.
Qed.

Lemma tops_unique vals m s m' s' : tops vals m s → tops vals m' s' → m = m' ∧ s = s'.
Proof.
  assert (∀ m s rest m' s' rest', m :: s :: rest ≡ₚ m' :: s' :: rest' → s ≤ m → Forall (λ x, x ≤ s) rest →
    s' ≤ m' → Forall (λ x, x ≤ s') rest' → m ≤ m') as Hle.
  { intros a b r a' b' r' Hp Hab Hr Hab' Hr'. assert (a ∈ a' :: b' :: r') as Ha by (rewrite <- Hp; set_solver).
    rewrite Forall_forall in Hr'. rewrite !elem_of_cons in Ha. destruct Ha as [|[|Ha]]; [lia|lia|]. specialize (Hr' _ Ha). cbn in Hr'. lia. }
  intros (rest & Hp & H1' & H2') (rest' & Hp' & H3' & H4'). rewrite Hp in Hp'.
  assert (m = m') as -> by (apply Z.le_antisymm; [exact (Hle _ _ _ _ _ _ Hp' H1' H2' H3' H4')|exact (Hle _ _ _ _ _ _ (symmetry Hp') H3' H4' H1' H2')]).
  split; [done|]. apply Permutation.Permutation_cons_inv in Hp'.
  assert (∀ s rest s' rest', s :: rest ≡ₚ s' :: rest' → Forall (λ x, x ≤ s') rest' → s ≤ s') as Hle2.
  { intros a r a' r' Hq Hr'. assert (a ∈ a' :: r') as Ha by (rewrite <- Hq; set_solver).
    rewrite Forall_forall in Hr'. apply elem_of_cons in Ha as [|Ha]; [lia|]. by apply Hr'. }
  apply Z.le_antisymm; [exact (Hle2 _ _ _ _ Hp' H4')|exact (Hle2 _ _ _ _ (symmetry Hp') H2')].
Qed.


(** ** july15.cpp *)

(** What the two auctions answer; the first has the second bidder and the second price the
    wrong way round. *)
Definition second_price_text (winner : bytes) (m : Z) (second : bytes) (s : Z) : bytes :=
  bs " The winner is " ++ winner ++ bs " And had originally bid " ++ show_int m ++
  bs " But pays the second price of " ++ second ++ bs " That was bid by " ++ show_int s.
Definition first_price_text (winner : bytes) (m : Z) : bytes :=
  bs " The winner is " ++ winner ++ bs " And has bid " ++ show_int m.

Lemma standing_winners l a m b s : Forall nonneg_int (l : list (bytes * Z)).*2 → l ≠ [] → standing l.*2 a m b s →
  ∃ winner second, l !! a = Some (winner, m) ∧ l !! b = Some second ∧ (0 < s → second.2 = s).
Proof.
  intros Hv Hne Hst. assert (∃ first, l !! 0%nat = Some first ∧ 0 ≤ first.2) as (first & Hf & Hge).
  { destruct l as [|first l]; [done|]. exists first. split; [done|]. inversion Hv as [|? ? Hx _]; subst. apply Hx. }
  assert (∃ winner, l !! a = Some (winner, m)) as (winner & Ha).
  { destruct (decide (m = 0)) as [E|].
    - rewrite (st_nobody _ _ _ _ _ Hst E). exists first.1. rewrite Hf, E.
      destruct (st_best _ _ _ _ _ Hst 0%nat first.2) as [Hle _]; [by rewrite list_lookup_fmap, Hf|].
      destruct first. cbn in *. repeat f_equal. lia.
    - pose proof (st_order _ _ _ _ _ Hst). pose proof (st_first _ _ _ _ _ Hst ltac:(lia)) as Ha.
      apply list_lookup_fmap_Some_1 in Ha as ([who v] & -> & Ha). by exists who. }
  exists winner. destruct (decide (s = 0)) as [E|].
  - rewrite (st_nobody2 _ _ _ _ _ Hst E). exists first. split_and!; [done..|lia].
  - pose proof (st_order _ _ _ _ _ Hst). destruct (st_second _ _ _ _ _ Hst ltac:(lia)) as [Hb _].
    apply list_lookup_fmap_Some_1 in Hb as (second & -> & Hb). by exists second.
Qed.


(** ** When they are wrong *)

(** C37. The first block of [oblivious] never writes its output.  When the compiler has put
    it in EBX, which the constraints allow, the highest price stays 0 whatever is bid. *)
Theorem output_register_matters (Hc : constraints C) (Hout : place MaxBlock 0 = InReg EBX) (l : list (bytes * bytes))
    ctx g ctx' (E : store_all storeBidMethodB l (clearRecord initial_globals).2 ctx = Done g ctx') :
  ∃ n, record g !! 0 = Some (n, 0).
Proof.
  assert (∃ n, record (clearRecord initial_globals).2 !! 0 = Some (n, 0)) as Hz by by exists (bs "nobody").
  revert Hz E. generalize (clearRecord initial_globals).2 as g0. revert ctx.
  induction l as [|[name value] l IH]; intros ctx g0 Hz; cbn; [by intros [= <- <-]|].
  unfold mbind, SM_bind. destruct (storeBidMethodB name value g0 ctx) as [[s g1] ctx1| |] eqn:E1; [|done..].
  apply IH. revert E1. unfold storeBidMethodB, mbind, SM_bind.
  destruct (add_bid name value g0 ctx) as [[v g2] ctx2| |] eqn:E2; [|done..]. intros [= _ <- _].
  assert (record g2 = record g0) as Hsame.
  { revert E2. unfold add_bid, mbind, SM_bind. destruct (stoi _ _); [|done..]. destruct (put_state _ _ _); [|done..].
    by destruct (an_int _ _); [intros [= _ <- _]|..]. }
  destruct Hz as [n Hz]. unfold oblivious, bracket at 1. rewrite Hsame, Hz. cbv beta iota.
  destruct (bracket nobody (record g0) 1) as [second r]. unfold two_highest. rewrite (max_block Hc), Hout. cbv beta iota zeta.
  cbn [snd]. change (to_int32 (wrap32 0)) with 0. destruct (bracket [] _ 0) as [first bl]. destruct (bracket [] bl _) as [second' ?].
  exists first. cbn [record set_record snd]. rewrite lookup_insert_ne by done. apply lookup_insert_eq.
Qed.

(** Bids are compared as unsigned numbers: a negative bid beats every other. *)
Theorem negative_bid_wins (Hk : constraints C) (E : place MaxBlock 0 = InReg EAX) g name v first second m s (Hv : - 2 ^ 31 ≤ v < 0)
    (Hm : nonneg_int m) (Hr0 : record g !! 0 = Some (first, m)) (Hr1 : record g !! 1 = Some (second, s)) :
  (oblivious v name g).1 !! 0 = Some (name, v).
Proof.
  unfold nonneg_int in Hm. unfold oblivious, bracket at 1. rewrite Hr0. cbv beta iota. unfold bracket at 1. rewrite Hr1.
  cbn [fst snd]. unfold two_highest. rewrite (max_block Hk), E, (wrap32_exact m) by lia.
  assert (wrap32 v = v + 2 ^ 32) as Ew by (unfold wrap32; rewrite <- (Z.mod_add v 1), Z.mod_small; lia).
  assert (to_int32 (Z.max (wrap32 v) m) = v) as ->.
  { rewrite Ew, Z.max_l by lia. unfold to_int32. rewrite <- (Z.mod_add _ (-1)), Z.mod_small; lia. }
  unfold bracket at 1. rewrite lookup_insert_eq. destruct (bracket [] _ _) as [second' ?]. cbn [fst].
  rewrite lookup_insert_ne by done. apply lookup_insert_eq.
Qed.

(** A bid of one digit is lost when the byte after it in the uninitialised buffer is
    NUL: the digit is cut off as the terminator is put one byte too far, and the exception
    of [stoi] ends the evaluation, whatever the other bids are. *)
Theorem one_digit_bid_throws g ctx name d (Hn : 1 ≤ user_count g) (Hu : usernames g !! 0 = Some name)
    (Hp : private (world ctx) (cstr name) [d]) (Hd : isdigit d = true) (Hz : cstr (take 1 (uninit 127)) = []) :
  ∃ ctx1 ctx2 ctx3, retrieveAuctionResultMethodA g ctx = Throw (bs "stoi: invalid_argument") ctx1 ∧
    retrieveAuctionResultSecondPrice g ctx = Throw (bs "stoi: invalid_argument") ctx2 ∧
    retrieveAuctionResultFirstPrice g ctx = Throw (bs "stoi: invalid_argument") ctx3.
Proof.
  destruct (get_private (cstr name) [d] 127 ctx Hp) as (ctx' & E & _); [cbn; lia..|].
  assert (upto (user_count g) = 0 :: from 1 (Z.to_nat (user_count g))) as Hupto.
  { rewrite <- (Z2Nat.id (user_count g)) at 1 by lia. rewrite upto_from, from_next; [done|lia]. }
  assert (read_bid g 0 ctx = Throw (bs "stoi: invalid_argument") ctx') as Hread.
  { unfold read_bid, bracket. rewrite Hu. unfold mbind, SM_bind. rewrite E. unfold buffer_string.
    cbn [length Nat.add Nat.leb Nat.sub]. rewrite (cstr_app [d]) by (apply digits_nonul; by repeat constructor).
    rewrite cstr_app_end, Hz. done. }
  exists ctx', ctx', ctx'.
  unfold retrieveAuctionResultMethodA, retrieveAuctionResultSecondPrice, retrieveAuctionResultFirstPrice, mbind, SM_bind.
  rewrite Hupto. cbn. unfold mbind, SM_bind. by rewrite Hread.
Qed.
End theorems.

(** ** Examples *)

(** A compiler that keeps what it can in memory; the output of the first block is in [r]. *)
Definition sample_compiler (r : reg) : Compiler := {|
  place b n :=
    match b, n with
    | MaxBlock, 0%nat => InReg r
    | MaxBlock, 1%nat => InReg EAX
    | MaxBlock, 2%nat => InReg EBX
    | CompareBlock, 0%nat => InReg EDX
    | _, 0%nat => InReg ESI
    | _, _ => InMem n
    end;
  before _ := mkMachine (λ _, 0) false false [] |}.
Lemma sample_constraints r : constraints (sample_compiler r).
Proof. split; try (by eexists); try done; try by intros [|i] [|j] ?? [=]; lia. split; by eexists. Qed.
Lemma sample_fortunate : fortunate (sample_compiler EAX).
Proof. split; [done|..]; intros [|i] j q Hj Hi _; cbn; first [lia|done]. Qed.

Section examples.
#[local] Existing Instances store_platform store_crypto store_peer sample_stack.
Definition oblivious_ctx : t_shim_ctx (omap bytes) := mkCtx _ [] [] [] [] [] [].
Definition three_bids : list (bytes * bytes) :=
  [(bs "alice", bs "25"); (bs "bob", bs "40"); (bs "carol", bs "40")].
Lemma three_bids_decimal : Forall (λ b, decimal b.2) three_bids.
Proof. repeat constructor; by vm_compute. Qed.
Lemma three_bids_tops : tops (initial_record ++ (bid_of <$> three_bids)).*2 40 40.
Proof. exists [0; 0; 25]. split_and!; [|done|by repeat constructor]. change ([0; 0; 25; 40; 40] ≡ₚ [40; 40; 0; 0; 25]). solve_Permutation. Qed.

#[local] Instance plain : Compiler := sample_compiler EAX.



Lemma output_register_matters_witness : ∃ g ctx' n,
  store_all (storeBidMethodB (C := sample_compiler EBX)) three_bids (clearRecord initial_globals).2 oblivious_ctx = Done g ctx' ∧
  record g !! 0 = Some (n, 0).
Proof.
  set (r := store_all (storeBidMethodB (C := sample_compiler EBX)) three_bids (clearRecord initial_globals).2 oblivious_ctx).
  destruct r as [g ctx'| |] eqn:E; [|by vm_compute in E..].
  destruct (output_register_matters (W := omap bytes) (C := sample_compiler EBX) (sample_constraints EBX) eq_refl
    three_bids oblivious_ctx g ctx' E) as [n Hn].
  exists g, ctx', n. split; [reflexivity|exact Hn].
Defined.

Lemma negative_bid_wins_witness : let g := (clearRecord initial_globals).2 in
  (oblivious (-1) (bs "mallory") g).1 !! 0 = Some (bs "mallory", -1).
Proof. apply (negative_bid_wins (sample_constraints EAX) eq_refl _ _ _ (bs "nobody") (bs "nobody2") 0 0); done. Defined.

(** One bid of one digit, stored as the chaincode stores it *)
Lemma one_digit_bid_throws_witness : ∃ g ctx ctx1,
  storeBidMethodA (bs "alice") (bs "7") initial_globals oblivious_ctx = Done ([], g) ctx ∧
  retrieveAuctionResultMethodA g ctx = Throw (bs "stoi: invalid_argument") ctx1.
Proof.
  destruct (put_private (bs "alice") (bs "7") oblivious_ctx) as (ctx & E & Hp & _).
  assert (storeBidMethodA (bs "alice") (bs "7") initial_globals oblivious_ctx =
    Done ([], mkGlobals {[0 := (bs "alice", 7)]} {[0 := bs "alice"]} ∅ 1) ctx) as E2.
  { unfold storeBidMethodA, add_bid, mbind, SM_bind. rewrite (stoi_digits (bs "7") oblivious_ctx) by (done || by repeat constructor).
    change (cstr (bs "alice")) with (bs "alice"). by rewrite E. }
  destruct (one_digit_bid_throws (mkGlobals {[0 := (bs "alice", 7)]} {[0 := bs "alice"]} ∅ 1) ctx (bs "alice") "7"%byte)
    as (ctx1 & _ & _ & E1 & _); [done..|]. by eexists _, ctx, ctx1.
Defined.
End examples.
