(* ===== verification/ObliviousKeys.v ===== *)
(** * The oblivious auction: keys and encrypted messages (july_15_2021/july15.cpp)

    The chaincode creates an RSA key pair for its users, gives out the public key as PEM
    text, and encrypts and decrypts messages.  [RsaLib] is what it uses of OpenSSL and of
    the SDK: a big number, a key and a PEM text are what their functions make of them, and
    [None] is a call that fails.  Blocks that OpenSSL allocates are not modelled. *)
From stdpp Require Import base list numbers option strings gmap.
From Stdlib Require Import ZArith Lia.
From S2P Require Import Prelude ParsonText CNum JsonSpec Base64 SgxCCLib EnclaveCrypto Ledger Shim Chaincodes.
From S2P Require Import ObliviousAsm ObliviousAuction.
Local Open Scope Z_scope.

(** What [sgx_create_rsa_key_pair] writes *)
Record key_parts := mkParts {
  p_n : bytes; p_d : bytes; p_e : bytes; p_p : bytes; p_q : bytes;
  p_dmp1 : bytes; p_dmq1 : bytes; p_iqmp : bytes }.

(** An [EVP_PKEY] is empty or has an [RSA] key; [EVP_PKEY_new], [RSA_new] and the like say
    whether the k-th call in a function succeeds. *)
Class RsaLib (W : Type) := {
  BIGNUM : Type; RSA : Type; KEY : Type;
  BN_lebin2bn : bytes → option BIGNUM;
  BN_is_zero : BIGNUM → bool;
  BN_CTX_new : bool; BN_new : bool;
  BN_mul : BIGNUM → BIGNUM → option BIGNUM;
  BN_dup : BIGNUM → option BIGNUM;
  BN_sub : BIGNUM → BIGNUM → option BIGNUM;
  BN_add_word : BIGNUM → Z → option BIGNUM;
  BN_mod_inverse : BIGNUM → BIGNUM → option BIGNUM;
  RSA_new : option RSA;
  EVP_PKEY_new : nat → bool;
  EVP_PKEY_assign_RSA : bool;
  RSA_set0_key : RSA → BIGNUM → BIGNUM → option BIGNUM → option RSA;
  RSA_set0_factors : RSA → BIGNUM → BIGNUM → option RSA;
  RSA_set0_crt_params : RSA → BIGNUM → BIGNUM → BIGNUM → option RSA;
  RSAPublicKey_dup : RSA → option RSA;
  BIO_new : bool; malloc_pem : bytes → bool;
  PEM_write_bio_PUBKEY : option RSA → option bytes;
  PEM_write_bio_PrivateKey : option RSA → option bytes;
  (** sizes of modulus and exponent, exponent; status and parts *)
  sgx_create_rsa_key_pair : Z → Z → bytes → W → Z * key_parts * W;
  (** sizes, modulus, exponent and the old value of the key; status and key *)
  sgx_create_rsa_pub1_key : Z → Z → bytes → bytes → option KEY → Z * option KEY;
  sgx_create_rsa_priv2_key : Z → Z → key_parts → option KEY → Z * option KEY;
  (** key, size of the output buffer if there is one, and message; status, length of the
      output, and what is written to the buffer *)
  sgx_rsa_pub_encrypt_sha256 : option KEY → option Z → bytes → W → Z * Z * bytes * W;
  sgx_rsa_priv_decrypt_sha256 : option KEY → option Z → bytes → Z * Z * bytes }.

Definition RSA_MOD_SIZE : Z := 384.
(** [sizeof(long)] and the [long] 65537 in memory *)
Definition sizeof_long : Z := 8.
Definition public_exponent : bytes := [x01; x00; x01; x00; x00; x00; x00; x00].

(** The global variables, those of the auction and the keys *)
Record july_globals {KEY : Type} := mkJuly {
  auction : globals;
  private_key : option KEY;
  public_key : option KEY;
  privatekeytoreturn : bytes }.
Arguments july_globals : clear implicits.
Arguments mkJuly {KEY}.

Section keys.
Context {W : Type} `{SgxCrypto W} `{Stack} `{C : Compiler} `{L : !RsaLib W}.
Local Abbreviation SM := (SM W).
Local Abbreviation july := (july_globals KEY).

Definition initial_july : july := mkJuly initial_globals None None [].
Definition set_auction (g : globals) (j : july) : july :=
  mkJuly g (private_key j) (public_key j) (privatekeytoreturn j).

(** ** PEM *)

(** Returning NULL as a [std::string] is undefined.  The text ends at the first NUL. *)
Definition pem_string (written : option bytes) : SM bytes :=
  if negb BIO_new then crash
  else
    match written with
    | None => crash
    | Some pem => if negb (malloc_pem pem) then crash else mret (cstr pem)
    end.
(** [None] is a NULL pointer. *)
Definition to_PEM (pkey : option (option RSA)) : SM bytes :=
  match pkey with None => crash | Some key => pem_string (PEM_write_bio_PUBKEY key) end.
Definition to_PEM_private (pkey : option (option RSA)) : SM bytes :=
  match pkey with None => crash | Some key => pem_string (PEM_write_bio_PrivateKey key) end.

(** [BN_lebin2bn] with [BN_CHECK_BREAK] *)
Definition BN_checked (b : bytes) : option BIGNUM :=
  n ← BN_lebin2bn b; if BN_is_zero n then None else Some n.

(** The loop that is left early when something fails *)
Definition public_rsa (mod_size exp_size : Z) (le_n le_e : bytes) : option RSA :=
  n ← BN_checked (take (Z.to_nat mod_size) le_n);
  e ← BN_checked (take (Z.to_nat exp_size) le_e);
  rsa_ctx ← RSA_new;
  if negb (EVP_PKEY_new 1) || negb EVP_PKEY_assign_RSA then None
  else rsa ← RSA_set0_key rsa_ctx n e None; RSAPublicKey_dup rsa.
Definition printpublickey (mod_size exp_size : Z) (le_n le_e : bytes) : SM bytes :=
  if (mod_size <=? 0) || (exp_size <=? 0) then mret (bs "SGX_ERROR_INVALID_PARAMETER")
  else
    let dst_pkey := if EVP_PKEY_new 0 then Some (public_rsa mod_size exp_size le_n le_e) else None in
    to_PEM dst_pkey.

(** The modulus and the private exponent *)
Definition private_numbers (p q e : BIGNUM) : option (BIGNUM * BIGNUM) :=
  n ← BN_mul p q;
  d ← BN_dup n;
  d ← BN_sub d p;
  d ← BN_sub d q;
  d ← BN_add_word d 1;
  d ← BN_mod_inverse e d;
  Some (n, d).
(** The key as far as it was set up: [None] if [rsa_key] is NULL, and what it has when one
    of the last calls fails *)
Definition private_rsa (mod_size exp_size : Z) (parts : key_parts) : option (option RSA) :=
  let half b := BN_checked (take (Z.to_nat (mod_size / 2)) b) in
  if negb BN_CTX_new || negb BN_new then None
  else
    p ← half (p_p parts); q ← half (p_q parts);
    dmp1 ← half (p_dmp1 parts); dmq1 ← half (p_dmq1 parts); iqmp ← half (p_iqmp parts);
    e ← BN_checked (take (Z.to_nat exp_size) (p_e parts));
    '(n, d) ← private_numbers p q e;
    rsa_ctx ← RSA_new;
    if negb (EVP_PKEY_new 1) || negb EVP_PKEY_assign_RSA then None
    else
      Some (Some (match RSA_set0_factors rsa_ctx p q with
                  | None => rsa_ctx
                  | Some rsa =>
                      match RSA_set0_crt_params rsa dmp1 dmq1 iqmp with
                      | None => rsa
                      | Some rsa => default rsa (RSA_set0_key rsa n e (Some d))
                      end
                  end)).
Definition printprivatekey (mod_size exp_size : Z) (parts : key_parts) : SM bytes :=
  if (mod_size <=? 0) || (exp_size <=? 0) then mret (bs "SGX_ERROR_INVALID_PARAMETER")
  else to_PEM_private (private_rsa mod_size exp_size parts).

(** ** Requests *)

Definition failed (status : Z) : bool := negb (bool_decide (status = SGX_SUCCESS)).

(** A [std::string] of the first [len] bytes of an array of [size] to which [data] was
    written: the others are not initialised *)
Definition array_string (data : bytes) (size len : Z) : SM bytes :=
  if (len >? size) || (Z.of_nat (length data) <? len) then crash else mret (take (Z.to_nat len) data).

(** [sizeof(uchrs)] is the size of a pointer: eight bytes of the message are decrypted. *)
Definition decryptMessage (encryptedstring : bytes) (j : july) : SM bytes :=
  let base64decoded := base64_decode encryptedstring in
  if (length base64decoded + 1 <? 8)%nat then crash
  else
    let uchrs := take 8 (base64decoded ++ [x00]) in
    let '(status, decrypted_len, _) := sgx_rsa_priv_decrypt_sha256 (private_key j) None uchrs in
    if failed status then mret (bs "Failed decryption part 1")
    else
      let '(status, len, data) := sgx_rsa_priv_decrypt_sha256 (private_key j) (Some decrypted_len) uchrs in
      if failed status then mret (bs "Failed decryption part 2") else array_string data decrypted_len len.

Definition rsa_encrypt (key : option KEY) (buffer : option Z) (message : bytes) : SM (Z * Z * bytes) :=
  c ← ctx_get;
  let '(status, len, data, w) := sgx_rsa_pub_encrypt_sha256 key buffer message (world c) in
  set_world w;; mret (status, len, data).
Definition encryptMessage (message : bytes) (j : july) : SM bytes :=
  let pin_data := cstr message in
  '(status, pout_len, _) ← rsa_encrypt (public_key j) None pin_data;
  if failed status then mret (bs "Failed encryption part 1")
  else
    '(status, len, data) ← rsa_encrypt (public_key j) (Some pout_len) pin_data;
    if failed status then mret (bs "Failed encryption part 2") else array_string data pout_len len.

Definition new_key_pair : SM (Z * key_parts) :=
  c ← ctx_get;
  let '(status, parts, w) := sgx_create_rsa_key_pair RSA_MOD_SIZE sizeof_long public_exponent (world c) in
  set_world w;; mret (status, parts).

Definition createKeys (j : july) : SM (bytes * july) :=
  '(status, parts) ← new_key_pair;
  if failed status then mret (bs "Failed key pair creation", j)
  else
    let '(status, pub) := sgx_create_rsa_pub1_key RSA_MOD_SIZE sizeof_long (p_n parts) (p_e parts) (public_key j) in
    let j := mkJuly (auction j) (private_key j) pub (privatekeytoreturn j) in
    if failed status then mret (bs "Failed public key pair creation", j)
    else
      let '(status, priv) := sgx_create_rsa_priv2_key RSA_MOD_SIZE sizeof_long parts (private_key j) in
      let j := mkJuly (auction j) priv pub (privatekeytoreturn j) in
      if failed status then mret (bs "Failed private key pair creation", j)
      else
        publickeytoreturn ← printpublickey RSA_MOD_SIZE sizeof_long (p_n parts) (p_e parts);
        text ← printprivatekey RSA_MOD_SIZE sizeof_long parts;
        mret (publickeytoreturn, mkJuly (auction j) priv pub text).

(** The function without parameters but the context *)
Definition returnprivatekey (j : july) : bytes := privatekeytoreturn j.

Definition testRsaEncryption : SM bytes :=
  '(status, parts) ← new_key_pair;
  if failed status then mret (bs "failed creating key pair")
  else
    let '(status, pub) := sgx_create_rsa_pub1_key RSA_MOD_SIZE sizeof_long (p_n parts) (p_e parts) None in
    if failed status then mret (bs "failed creating public key")
    else
      let '(status, priv) := sgx_create_rsa_priv2_key RSA_MOD_SIZE sizeof_long parts None in
      if failed status then mret (bs "failed creating private key")
      else
        let pin_data := bs "Hello World!" in
        '(status, pout_len, _) ← rsa_encrypt pub None pin_data;
        if failed status then mret (bs "failed encryption part 1")
        else
          '(status, _, data) ← rsa_encrypt pub (Some pout_len) pin_data;
          if failed status then mret (bs "failed encryption part 2")
          else
            pout_data ← array_string data pout_len pout_len;
            let '(status, decrypted_len, _) := sgx_rsa_priv_decrypt_sha256 priv None pout_data in
            if failed status then mret (bs "failed decryption part 1")
            else
              let '(status, len, data) := sgx_rsa_priv_decrypt_sha256 priv (Some decrypted_len) pout_data in
              if failed status then mret (bs "failed decryption part 2") else array_string data decrypted_len len.

(** ** Invocation *)

Definition july_request (function_name : bytes) (params : list bytes) (j : july) : SM (option (bytes * july)) :=
  let named s := bool_decide (function_name = bs s) in
  let g := auction j in
  let on_auction (r : bytes * globals) := Some (r.1, set_auction r.2 j) in
  if named "asmTest" then mret (Some (asmTest, j))
  else if named "clearRecord" then mret (on_auction (clearRecord g))
  else if named "resetAuction" then mret (on_auction (resetAuction g))
  else if named "showRecord" then mret (on_auction (showRecord g))
  else if named "retrieveBid" then
    user_name ← vector_at params 0; r ← retrieveBid user_name; mret (Some (r, j))
  else if named "retrieveUsernames" then mret (on_auction (retrieveUsernames g))
  else if named "storeBid" then
    user_name ← vector_at params 0; value ← vector_at params 1;
    r ← july_storeBid user_name value g; mret (on_auction r)
  else if named "storeBidMethodB" then
    user_name ← vector_at params 0; value ← vector_at params 1;
    r ← july_storeBidMethodB user_name value g; mret (on_auction r)
  else if named "retrieveAuctionResultFirstPrice" then
    r ← retrieveAuctionResultFirstPrice g; mret (on_auction r)
  else if named "retrieveAuctionResultSecondPrice" then
    r ← retrieveAuctionResultSecondPrice g; mret (on_auction r)
  else if named "retrieveAuctionResultMethodB" then mret (on_auction (retrieveAuctionResultMethodB g))
  else if named "decryptMessage" then
    encryptedmessage ← vector_at params 0; r ← decryptMessage encryptedmessage j; mret (Some (r, j))
  else if named "encryptMessage" then
    message ← vector_at params 0; r ← encryptMessage message j; mret (Some (r, j))
  else if named "createKeys" then r ← createKeys j; mret (Some r)
  else if named "testRsaEncryption" then r ← testRsaEncryption; mret (Some (r, j))
  else if named "printprivatekey" then mret (Some (returnprivatekey j, j))
  else mret None.
Definition july_invoke (max_response_len : Z) (j : july) : SM (Z * bytes * july) :=
  '(_, function_name, params) ← get_func_and_params;
  r ← july_request function_name params j;
  match r with
  | None => mret (-1, [], j)
  | Some (result, j) => '(ret, response) ← respond result max_response_len; mret (ret, response, j)
  end.
End keys.
