(* ===== verification/RsaNumbers.v ===== *)
(** * Numbers of an RSA key

    Raising to the public exponent and then to the private one gives back every message,
    for a modulus that is a product of two different primes. *)
From Stdlib Require Import ZArith Lia Znumtheory ZmodInv.
Local Open Scope Z_scope.

(** Fermat's theorem, with the numbers the prime divides *)
Lemma power_mod_prime p m k : Z.prime p -> 0 <= k -> m ^ (1 + k * (p - 1)) mod p = m mod p.
Proof.
  intros Hp Hk. pose proof (Z.prime_ge_2 _ Hp) as H2.
  rewrite Z.pow_add_r by nia. rewrite Z.pow_1_r.
  destruct (Z.eq_dec (m mod p) 0) as [E|E].
  - rewrite Z.mul_mod, E by lia. reflexivity.
  - rewrite (Z.mul_comm k), Z.pow_mul_r by lia. rewrite Z.mul_mod, <- Z.mod_pow_l by lia.
    rewrite (ZmodInv.Z.fermat_nz p m Hp E), Z.pow_1_l, (Z.mod_small 1), Z.mul_1_r by lia. apply Z.mod_mod. lia.
Qed.

Lemma mod_product p q a b : Z.prime p -> Z.prime q -> p <> q -> a mod p = b mod p -> a mod q = b mod q ->
  a mod (p * q) = b mod (p * q).
Proof.
  intros Hp Hq Hne Ep Eq. pose proof (Z.prime_ge_2 _ Hp) as Hp2. pose proof (Z.prime_ge_2 _ Hq) as Hq2.
  apply Z.cong_iff_0 in Ep, Eq. apply Z.cong_iff_0.
  apply Z.mod_divide in Ep, Eq; [|lia..]. apply Z.mod_divide; [nia|]. destruct Ep as [x Ex]. rewrite Ex in *.
  assert (Z.gcd q p = 1) as Hg.
  { apply Zgcd_1_rel_prime, rel_prime_sym. apply rel_prime_sym, prime_rel_prime; [now apply prime_alt|].
    intros Hd. destruct Hp as [_ Hn]. destruct (Z_lt_le_dec q p) as [Hlt|Hge]; [exact (Hn q ltac:(lia) Hd)|].
    apply Z.divide_pos_le in Hd; lia. }
  rewrite (Z.mul_comm x) in Eq. destruct (Z.gauss _ _ _ Eq Hg) as [y Ey]. exists y. rewrite Ey. ring.
Qed.

(** [d] is a private exponent of [e] for the primes [p] and [q]. *)
Lemma rsa_inverse p q e d m : Z.prime p -> Z.prime q -> p <> q -> 0 <= e -> 0 <= d ->
  (e * d) mod ((p - 1) * (q - 1)) = 1 -> 0 <= m < p * q -> (m ^ e mod (p * q)) ^ d mod (p * q) = m.
Proof.
  intros Hp Hq Hne He Hd Hed Hm. pose proof (Z.prime_ge_2 _ Hp) as Hp2. pose proof (Z.prime_ge_2 _ Hq) as Hq2.
  rewrite Z.mod_pow_l, <- Z.pow_mul_r by lia.
  rewrite (Z.div_mod (e * d) ((p - 1) * (q - 1))), Hed by nia.
  set (k := e * d / ((p - 1) * (q - 1))). assert (0 <= k) as Hk by (apply Z.div_pos; nia).
  rewrite <- (Z.mod_small m (p * q)) at 2 by lia. apply mod_product; [assumption..| |].
  - rewrite <- (power_mod_prime p m (k * (q - 1)) Hp) by nia. do 2 f_equal. ring.
  - rewrite <- (power_mod_prime q m (k * (p - 1)) Hq) by nia. do 2 f_equal. ring.
Qed.
