(* ===== verification/ObliviousKeysProof.v ===== *)
(** * The oblivious auction: keys and encrypted messages, proofs

    The public and the private key that are printed belong together; [decryptMessage]
    cannot decrypt what is longer than eight bytes; the private key is answered to anybody;
    an invocation keeps the context in order. *)
From stdpp Require Import base list numbers option strings gmap finite vector.
From Stdlib Require Import ZArith Lia Znumtheory.
From S2P Require Import Prelude ParsonText CNum JsonSpec Base64 StdMap SgxCCLib EnclaveCrypto Ledger LedgerTheorems Shim Chaincodes ChaincodeProof.
From S2P Require Import EnclaveProof Samples Peer ObliviousAsm ObliviousAuction ObliviousProof ObliviousTheorems ObliviousKeys RsaNumbers.
Local Open Scope Z_scope.

(** ** The printed keys *)

(** What OpenSSL documents of its functions when memory suffices: [number] is the value of
    a big number, [key_numbers] the modulus and the exponents that were set in a key. *)
Class RsaLaws (W : Type) {L : RsaLib W} := {
  number : BIGNUM → Z;
  key_numbers : RSA → option (Z * Z * option Z);
  law_lebin2bn b : ∃ n, BN_lebin2bn b = Some n ∧ number n = of_little_endian b;
  law_is_zero n : BN_is_zero n = bool_decide (number n = 0);
  law_mul p q : ∃ n, BN_mul p q = Some n ∧ number n = number p * number q;
  law_dup n : ∃ d, BN_dup n = Some d ∧ number d = number n;
  law_sub a b : ∃ d, BN_sub a b = Some d ∧ number d = number a - number b;
  law_add_word a w : ∃ d, BN_add_word a w = Some d ∧ number d = number a + w;
  law_mod_inverse a m : 1 < number m → Z.gcd (number a) (number m) = 1 →
    ∃ d, BN_mod_inverse a m = Some d ∧ 0 ≤ number d < number m ∧ (number a * number d) mod number m = 1;
  law_memory : BN_CTX_new = true ∧ BN_new = true ∧ EVP_PKEY_assign_RSA = true ∧ ∀ k, EVP_PKEY_new k = true;
  law_RSA_new : ∃ r, RSA_new = Some r;
  law_set0_factors r p q : ∃ r', RSA_set0_factors r p q = Some r';
  law_set0_crt_params r p q i : ∃ r', RSA_set0_crt_params r p q i = Some r';
  law_set0_key r n e d : ∃ r', RSA_set0_key r n e d = Some r' ∧
    key_numbers r' = Some (number n, number e, number <$> d);
  law_PublicKey_dup r n e d : key_numbers r = Some (n, e, d) →
    ∃ r', RSAPublicKey_dup r = Some r' ∧ key_numbers r' = Some (n, e, None) }.

(** The parts of a key pair with a modulus of [mod_size] bytes *)
Definition part (size : Z) (b : bytes) : Z := of_little_endian (take (Z.to_nat size) b).
Record key_pair (mod_size exp_size : Z) (parts : key_parts) (p q e : Z) : Prop := {
  pair_p : part (mod_size / 2) (p_p parts) = p;
  pair_q : part (mod_size / 2) (p_q parts) = q;
  pair_e : part exp_size (p_e parts) = e;
  pair_n : part mod_size (p_n parts) = p * q;
  pair_prime_p : Z.prime p;
  pair_prime_q : Z.prime q;
  pair_different : p ≠ q;
  pair_coprime : Z.gcd e ((p - 1) * (q - 1)) = 1;
  pair_dmp1 : part (mod_size / 2) (p_dmp1 parts) ≠ 0;
  pair_dmq1 : part (mod_size / 2) (p_dmq1 parts) ≠ 0;
  pair_iqmp : part (mod_size / 2) (p_iqmp parts) ≠ 0 }.

Lemma of_little_endian_nonneg l : 0 ≤ of_little_endian l.
Proof.
  induction l as [|b l IH]; [done|]. unfold of_little_endian in *. cbn [foldr]. pose proof (uchar_range b). lia.
Qed.

Lemma totient_big p q : Z.prime p → Z.prime q → p ≠ q → 1 < (p - 1) * (q - 1).
Proof. intros Hp Hq Hne. pose proof (Z.prime_ge_2 _ Hp). pose proof (Z.prime_ge_2 _ Hq). nia. Qed.

Lemma pair_exponent mod_size exp_size parts p q e : key_pair mod_size exp_size parts p q e → 0 < e.
Proof.
  intros Hk. pose proof (totient_big p q (pair_prime_p _ _ _ _ _ _ Hk) (pair_prime_q _ _ _ _ _ _ Hk) (pair_different _ _ _ _ _ _ Hk)).
  pose proof (pair_coprime _ _ _ _ _ _ Hk) as Hg. pose proof (pair_e _ _ _ _ _ _ Hk) as He.
  pose proof (of_little_endian_nonneg (take (Z.to_nat exp_size) (p_e parts))) as Hn. unfold part in He.
  assert (e ≠ 0); [|lia]. intros E. rewrite E, Z.gcd_0_l, Z.abs_eq in Hg; lia.
Qed.

Section printed.
Context {W : Type} {L : RsaLib W} `{!RsaLaws W}.

Lemma BN_checked_part size b : part size b ≠ 0 →
  ∃ n, BN_checked (take (Z.to_nat size) b) = Some n ∧ number n = part size b.
Proof.
  intros Hne. destruct (law_lebin2bn (take (Z.to_nat size) b)) as (n & E & Hn). exists n. split; [|done].
  unfold BN_checked. rewrite E. cbn. rewrite law_is_zero, bool_decide_eq_false_2; [done|]. rewrite Hn. exact Hne.
Qed.

Lemma private_numbers_exact bp bq be : Z.prime (number bp) → Z.prime (number bq) → number bp ≠ number bq →
  Z.gcd (number be) ((number bp - 1) * (number bq - 1)) = 1 →
  ∃ n d, private_numbers bp bq be = Some (n, d) ∧ number n = number bp * number bq ∧ 0 ≤ number d ∧
    (number be * number d) mod ((number bp - 1) * (number bq - 1)) = 1.
Proof.
  intros Hp Hq Hne Hg. pose proof (totient_big _ _ Hp Hq Hne) as Hbig.
  destruct (law_mul bp bq) as (n & E1 & Hn). destruct (law_dup n) as (d0 & E2 & H2).
  destruct (law_sub d0 bp) as (d1 & E3 & H3). destruct (law_sub d1 bq) as (d2 & E4 & H4).
  destruct (law_add_word d2 1) as (d3 & E5 & H5).
  assert (number d3 = (number bp - 1) * (number bq - 1)) as Ht by (rewrite H5, H4, H3, H2, Hn; ring).
  destruct (law_mod_inverse be d3) as (d & E6 & Hd & Hi); [by rewrite Ht..|]. exists n, d.
  unfold private_numbers. rewrite E1. cbn. rewrite E2. cbn. rewrite E3. cbn. rewrite E4. cbn. rewrite E5. cbn. rewrite E6.
  rewrite <- Ht. split_and!; [done..|lia|done].
Qed.

Lemma public_rsa_exact mod_size exp_size parts p q e : key_pair mod_size exp_size parts p q e →
  ∃ r, public_rsa mod_size exp_size (p_n parts) (p_e parts) = Some r ∧ key_numbers r = Some (p * q, e, None).
Proof.
  intros Hk. pose proof (pair_exponent _ _ _ _ _ _ Hk) as He.
  pose proof (Z.prime_ge_2 _ (pair_prime_p _ _ _ _ _ _ Hk)). pose proof (Z.prime_ge_2 _ (pair_prime_q _ _ _ _ _ _ Hk)).
  destruct (BN_checked_part mod_size (p_n parts)) as (n & En & Hn); [rewrite (pair_n _ _ _ _ _ _ Hk); nia|].
  destruct (BN_checked_part exp_size (p_e parts)) as (be & Ee & Hbe); [rewrite (pair_e _ _ _ _ _ _ Hk); lia|].
  destruct law_RSA_new as (r0 & E0). destruct (law_set0_key r0 n be None) as (r1 & E1 & H1).
  destruct (law_PublicKey_dup r1 _ _ _ H1) as (r & E2 & H2). exists r.
  destruct law_memory as (_ & _ & Ha & Hkey). unfold public_rsa. rewrite En. cbn. rewrite Ee. cbn. rewrite E0. cbn.
  rewrite Hkey, Ha. cbn. rewrite E1. cbn. split; [done|]. by rewrite H2, Hn, Hbe, (pair_n _ _ _ _ _ _ Hk), (pair_e _ _ _ _ _ _ Hk).
Qed.

Lemma private_rsa_exact mod_size exp_size parts p q e : key_pair mod_size exp_size parts p q e →
  ∃ r d, private_rsa mod_size exp_size parts = Some (Some r) ∧ key_numbers r = Some (p * q, e, Some d) ∧
    0 ≤ d ∧ (e * d) mod ((p - 1) * (q - 1)) = 1.
Proof.
  intros Hk. pose proof (pair_exponent _ _ _ _ _ _ Hk) as He. destruct Hk.
  pose proof (Z.prime_ge_2 _ pair_prime_p0). pose proof (Z.prime_ge_2 _ pair_prime_q0).
  destruct (BN_checked_part (mod_size / 2) (p_p parts)) as (bp & Ep & Hp); [lia|].
  destruct (BN_checked_part (mod_size / 2) (p_q parts)) as (bq & Eq & Hq); [lia|].
  destruct (BN_checked_part _ _ pair_dmp2) as (b1 & E1 & _). destruct (BN_checked_part _ _ pair_dmq2) as (b2 & E2 & _).
  destruct (BN_checked_part _ _ pair_iqmp0) as (b3 & E3 & _).
  destruct (BN_checked_part exp_size (p_e parts)) as (be & Ee & Hbe); [lia|].
  rewrite pair_p0 in Hp. rewrite pair_q0 in Hq. rewrite pair_e0 in Hbe.
  destruct (private_numbers_exact bp bq be) as (n & d & En & Hn & Hd & Hi); [by rewrite ?Hp, ?Hq, ?Hbe..|].
  destruct law_RSA_new as (r0 & E0). destruct (law_set0_factors r0 bp bq) as (r1 & F1).
  destruct (law_set0_crt_params r1 b1 b2 b3) as (r2 & F2). destruct (law_set0_key r2 n be (Some d)) as (r & F3 & H3).
  exists r, (number d). destruct law_memory as (Hc & Hb & Ha & Hkey). unfold private_rsa. rewrite Hc, Hb. cbn.
  rewrite Ep. cbn. rewrite Eq. cbn. rewrite E1. cbn. rewrite E2. cbn. rewrite E3. cbn. rewrite Ee. cbn. rewrite En. cbn.
  rewrite E0. cbn. rewrite Hkey, Ha. cbn. rewrite F1, F2, F3. cbn. rewrite Hp, Hq in Hn, Hi.
  rewrite Hbe in Hi. cbn in H3. by rewrite H3, Hn, Hbe.
Qed.

(** C24. The two keys that [createKeys] prints belong together: of the parts of a key pair
    the code sets up a public key with the modulus and the public exponent, and a private
    key with the same modulus and exponent and a private exponent that undoes the public
    one for every number below the modulus.  The texts that are printed are the PEM of
    these keys. *)
Theorem printed_keys_match mod_size exp_size parts p q e
    (Hsize : 0 < mod_size ∧ 0 < exp_size) (Hpair : key_pair mod_size exp_size parts p q e) :
  ∃ pub priv d,
    printpublickey mod_size exp_size (p_n parts) (p_e parts) = to_PEM (Some (Some pub)) ∧
    printprivatekey mod_size exp_size parts = to_PEM_private (Some (Some priv)) ∧
    key_numbers pub = Some (p * q, e, None) ∧ key_numbers priv = Some (p * q, e, Some d) ∧
    ∀ m, 0 ≤ m < p * q → (m ^ e mod (p * q)) ^ d mod (p * q) = m.
Proof.
  destruct (public_rsa_exact _ _ _ _ _ _ Hpair) as (pub & E1 & H1).
  destruct (private_rsa_exact _ _ _ _ _ _ Hpair) as (priv & d & E2 & H2 & Hd & Hi). exists pub, priv, d.
  pose proof (pair_exponent _ _ _ _ _ _ Hpair) as He. destruct law_memory as (_ & _ & _ & Hkey).
  unfold printpublickey, printprivatekey. rewrite !(proj2 (Z.leb_gt _ _)), Hkey, E1, E2 by lia.
  split_and!; [done..|]. intros m Hm. destruct Hpair. apply rsa_inverse; (done || lia).
Qed.
End printed.

(** ** Messages *)

#[local] Instance byte_finite : Finite byte.
Proof. refine {| enum := remove_dups all_bytes |}; [apply NoDup_remove_dups|intros b; apply elem_of_remove_dups, elem_of_all_bytes]. Defined.
Lemma byte_many : (1 < card byte)%nat.
Proof. vm_compute. lia. Qed.

(** There is no injection of the lists of n+1 bytes into those of n. *)
Lemma byte_lists_differ (f : bytes → bytes) n : (∀ m, length m = S n → length (f m) = n) →
  ¬ (∀ m m', length m = S n → length m' = S n → f m = f m' → m = m').
Proof.
  intros Hlen Hinj.
  set (g := λ m : { l : bytes | length l = S n }, exist (λ l, length l = n) (f (`m)) (Hlen _ (proj2_sig m))).
  assert (Inj eq eq g) as Hg.
  { intros [m Hm] [m' Hm'] [= E]. apply (sig_eq_pi _). cbn in *. by apply Hinj. }
  pose proof (inj_card g) as Hc. rewrite !list_card in Hc.
  pose proof byte_many as H1. pose proof (Nat.pow_lt_mono_r (card byte) n (S n) H1). lia.
Qed.

Section messages.
Context {W : Type} `{SgxCrypto W} `{Stack} `{C : Compiler} `{L : !RsaLib W}.
Implicit Types (ctx : t_shim_ctx W) (j : july_globals KEY).

Definition first_eight (encryptedstring : bytes) : bytes := take 8 (base64_decode encryptedstring ++ [x00]).

Lemma decryptMessage_first_eight s s' j ctx a ctx' a' ctx1 : decryptMessage s j ctx = Done a ctx' →
  decryptMessage s' j ctx = Done a' ctx1 → first_eight s = first_eight s' → a = a'.
Proof.
  unfold decryptMessage, first_eight. destruct (_ <? 8)%nat; [done|]. destruct (_ <? 8)%nat; [done|].
  intros Hs Hs' E. rewrite E in Hs. rewrite Hs in Hs'. congruence.
Qed.
Lemma decryptMessage_length s j ctx a ctx' : decryptMessage s j ctx = Done a ctx' → length (first_eight s) = 8%nat.
Proof.
  unfold decryptMessage, first_eight. destruct (Nat.ltb_spec (length (base64_decode s) + 1) 8); [done|]. intros _.
  rewrite length_take, length_app. cbn [length]. lia.
Qed.

(** C38. Encrypted messages cannot be decrypted: the size that [decryptMessage] passes is
    that of a pointer, so it sees eight bytes of the message.  Whatever the keys and
    whatever way of encrypting, there are messages of nine bytes for which the answer is
    not the message. *)
Theorem decryption_loses_messages (encrypt : bytes → bytes) j ctx :
  ¬ (∀ m, length m = 9%nat → ∃ ctx', decryptMessage (encrypt m) j ctx = Done m ctx').
Proof.
  intros Hall. apply (byte_lists_differ (λ m, first_eight (encrypt m)) 8).
  - intros m Hm. destruct (Hall m Hm) as [ctx' E]. by eapply decryptMessage_length.
  - intros m m' Hm Hm' E. destruct (Hall m Hm) as [ctx1 E1]. destruct (Hall m' Hm') as [ctx2 E2].
    by eapply decryptMessage_first_eight.
Qed.

Lemma failed_success : failed SGX_SUCCESS = false.
Proof. unfold failed. by rewrite bool_decide_eq_true_2. Qed.

(** The private key is answered to anybody: once [createKeys] has succeeded, a request
    printprivatekey is answered with the PEM text of the private key, in any context and so
    for any caller, as long as it fits the response. *)
Theorem private_key_disclosed j parts w pub priv public text ctx
    (Hpair : sgx_create_rsa_key_pair RSA_MOD_SIZE sizeof_long public_exponent (world ctx) = (SGX_SUCCESS, parts, w))
    (Hpub : sgx_create_rsa_pub1_key RSA_MOD_SIZE sizeof_long (p_n parts) (p_e parts) (public_key j) = (SGX_SUCCESS, pub))
    (Hpriv : sgx_create_rsa_priv2_key RSA_MOD_SIZE sizeof_long parts (private_key j) = (SGX_SUCCESS, priv))
    (Htext : printpublickey (W := W) RSA_MOD_SIZE sizeof_long (p_n parts) (p_e parts) = mret public)
    (Hsecret : printprivatekey (W := W) RSA_MOD_SIZE sizeof_long parts = mret text) :
  ∃ j' ctx', createKeys j ctx = Done (public, j') ctx' ∧ auction j' = auction j ∧
    ∀ ctx1 n params ctx2 max_response_len,
      get_func_and_params ctx1 = Done (n, bs "printprivatekey", params) ctx2 →
      Z.of_nat (length text) ≤ max_response_len →
      july_invoke max_response_len j' ctx1 = Done (0, text, j') ctx2.
Proof.
  destruct (set_world w ctx) as [u ctx'| |] eqn:Ew; [|done..].
  exists (mkJuly (auction j) priv pub text), ctx'. split_and!; [|done|].
  - unfold createKeys, new_key_pair, mbind, SM_bind, ctx_get. rewrite Hpair, Ew. cbn [mret SM_ret].
    rewrite failed_success, Hpub, failed_success. cbn [private_key]. by rewrite Hpriv, failed_success, Htext, Hsecret.
  - intros ctx1 n params ctx2 max E Hmax. unfold july_invoke, july_request, mbind, SM_bind. rewrite E.
    rewrite !bool_decide_eq_false_2 by done. rewrite bool_decide_eq_true_2 by done. cbn.
    unfold respond. by rewrite (proj2 (Z.ltb_ge _ _)).
Qed.

(** *** The context *)
Local Abbreviation steady c := (leads (W := W) later c).

#[local] Hint Resolve steady_stoi steady_respond : leads.
Lemma steady_consider i b v : steady (consider_second i b v).
Proof. unfold consider_second, mix. leads_steps. Qed.
#[local] Hint Resolve steady_consider : leads.
Lemma steady_second_loop l : ∀ v g, steady (second_price_loop l v g).
Proof. induction l as [|i l IH]; intros v g; cbn [second_price_loop]; leads_steps. Qed.
Lemma steady_first_loop l : ∀ max maxid g, steady (first_price_loop l max maxid g).
Proof. induction l as [|i l IH]; intros max maxid g; cbn [first_price_loop]; unfold mix; leads_steps. Qed.
Lemma steady_array_string data size len : steady (array_string data size len).
Proof. unfold array_string. leads_steps. Qed.
#[local] Hint Resolve steady_second_loop steady_first_loop steady_array_string : leads.
Lemma steady_encrypt key buffer message : steady (rsa_encrypt key buffer message).
Proof. unfold rsa_encrypt. leads_steps. Qed.
Lemma steady_key_pair : steady new_key_pair.
Proof. unfold new_key_pair. leads_steps. Qed.
Lemma steady_printpublickey m n a b : steady (printpublickey m n a b).
Proof. unfold printpublickey, to_PEM, pem_string. leads_steps. Qed.
Lemma steady_printprivatekey m n p : steady (printprivatekey m n p).
Proof. unfold printprivatekey, to_PEM_private, pem_string. leads_steps. Qed.
#[local] Hint Resolve steady_encrypt steady_key_pair steady_printpublickey steady_printprivatekey : leads.

Lemma steady_createKeys j : steady (createKeys j).
Proof. unfold createKeys. leads_steps. Qed.
Lemma steady_testRsa : steady testRsaEncryption.
Proof. unfold testRsaEncryption. leads_steps. Qed.
Lemma steady_decrypt s j : steady (decryptMessage s j).
Proof. unfold decryptMessage. leads_steps. Qed.
Lemma steady_encryptMessage s j : steady (encryptMessage s j).
Proof. unfold encryptMessage. leads_steps. Qed.
#[local] Hint Resolve steady_createKeys steady_testRsa steady_decrypt steady_encryptMessage : leads.

Lemma steady_july n j : steady (july_invoke n j).
Proof.
  unfold july_invoke, july_request, retrieveBid, july_storeBid, july_storeBidMethodB, retrieveAuctionResultFirstPrice,
    retrieveAuctionResultSecondPrice. leads_steps.
Qed.
End messages.

(** ** Examples *)

Section examples.
#[local] Existing Instances store_platform store_crypto sample_stack.

Definition sample_parts : key_parts :=
  mkParts [x8f] [x71] public_exponent [x0b] [x0d] [x03] [x05] [x06].
(** Numbers that are themselves, and keys of the numbers that were set *)
Definition sample_rsa : RsaLib (omap bytes) := {|
  BIGNUM := Z; RSA := option (Z * Z * option Z); KEY := bytes;
  BN_lebin2bn b := Some (of_little_endian b); BN_is_zero n := bool_decide (n = 0);
  BN_CTX_new := true; BN_new := true;
  BN_mul a b := Some (a * b); BN_dup a := Some a; BN_sub a b := Some (a - b); BN_add_word a w := Some (a + w);
  BN_mod_inverse a m := if bool_decide (Z.gcd a m = 1) then Some (Z.invmod a m) else None;
  RSA_new := Some None; EVP_PKEY_new _ := true; EVP_PKEY_assign_RSA := true;
  RSA_set0_key _ n e d := Some (Some (n, e, d)); RSA_set0_factors r _ _ := Some r; RSA_set0_crt_params r _ _ _ := Some r;
  RSAPublicKey_dup r := Some ('(n, e, _) ← r; Some (n, e, None));
  BIO_new := true; malloc_pem _ := true;
  PEM_write_bio_PUBKEY r := match r with Some (Some _) => Some (bs "PUBLIC KEY") | _ => None end;
  PEM_write_bio_PrivateKey r := match r with Some (Some (_, _, Some _)) => Some (bs "PRIVATE KEY") | _ => None end;
  sgx_create_rsa_key_pair _ _ _ w := (SGX_SUCCESS, sample_parts, w);
  sgx_create_rsa_pub1_key _ _ n _ _ := (SGX_SUCCESS, Some n);
  sgx_create_rsa_priv2_key _ _ parts _ := (SGX_SUCCESS, Some (p_p parts));
  sgx_rsa_pub_encrypt_sha256 _ _ m w := (SGX_SUCCESS, Z.of_nat (length m), m, w);
  sgx_rsa_priv_decrypt_sha256 _ _ m := (SGX_SUCCESS, Z.of_nat (length m), m) |}.
#[local] Existing Instance sample_rsa.

Lemma sample_inverse a m : 1 < m → Z.gcd a m = 1 →
  ∃ d, BN_mod_inverse (RsaLib := sample_rsa) a m = Some d ∧ 0 ≤ d < m ∧ (a * d) mod m = 1.
Proof.
  intros Hm Hg. exists (Z.invmod a m). cbn. rewrite bool_decide_eq_true_2 by done. split_and!; [done|..].
  - unfold Z.invmod. apply Z.mod_pos_bound. lia.
  - unfold Z.invmod. apply Z.mod_pos_bound. lia.
  - rewrite Z.mul_comm. apply Z.invmod_coprime; [lia|done].
Qed.
#[local] Instance sample_laws : RsaLaws (omap bytes).
Proof.
  refine (Build_RsaLaws _ sample_rsa (λ n : Z, n) (λ r : option (Z * Z * option Z), r)
    _ _ _ _ _ _ sample_inverse _ _ _ _ _ _); intros; cbn; eauto.
  - eexists. split; [done|]. by destruct d.
  - eexists. split; [done|]. by match goal with E : r = _ |- _ => rewrite E end.
Defined.

Lemma small_prime p : 1 < p → forallb (λ n, negb (p mod n =? 0)) (seqZ 2 (p - 2)) = true → Z.prime p.
Proof.
  intros Hp Hall. split; [done|]. intros n Hn Hd. apply Z.mod_divide in Hd; [|lia].
  rewrite forallb_forall in Hall. specialize (Hall n). rewrite Hd in Hall.
  discriminate Hall. apply list_elem_of_In, elem_of_seqZ. lia.
Qed.
Lemma sample_pair : key_pair RSA_MOD_SIZE sizeof_long sample_parts 11 13 65537.
Proof. split; first [by apply small_prime|by vm_compute]. Qed.

Lemma printed_keys_match_witness : ∃ d,
  printprivatekey RSA_MOD_SIZE sizeof_long sample_parts = to_PEM_private (W := omap bytes) (Some (Some (Some (143, 65537, Some d)))) ∧
  ∀ m, 0 ≤ m < 143 → (m ^ 65537 mod 143) ^ d mod 143 = m.
Proof.
  destruct (printed_keys_match (W := omap bytes) RSA_MOD_SIZE sizeof_long sample_parts 11 13 65537) as (pub & priv & d & _ & E & _ & Hp & Hm);
    [by vm_compute|exact sample_pair|]. exists d. split; [|exact Hm]. rewrite E. f_equal. do 2 f_equal. exact Hp.
Defined.

(** Keys are created, and a request asks for the private one. *)
Lemma private_key_disclosed_witness : ∃ (j' : july_globals KEY) ctx' ctx2,
  createKeys initial_july oblivious_ctx = Done (bs "PUBLIC KEY", j') ctx' ∧
  july_invoke (C := sample_compiler EAX) 1024 j'
    (mkCtx _ [] [] [] [] (bs "[" ++ [x22] ++ bs "printprivatekey" ++ [x22] ++ bs "]") []) = Done (0, bs "PRIVATE KEY", j') ctx2.
Proof.
  destruct (private_key_disclosed (W := omap bytes) (C := sample_compiler EAX) (L := sample_rsa) initial_july sample_parts [] (Some [x8f]) (Some [x0b])
    (bs "PUBLIC KEY") (bs "PRIVATE KEY") oblivious_ctx) as (j' & ctx' & E & _ & Hall); [by vm_compute..|].
  eexists j', ctx', _. split; [exact E|]. apply (Hall _ 1 []); by vm_compute.
Defined.
End examples.
