(* ===== verification/Spectrum.v ===== *)
(** * The spectrum auction: data and state (demo/chaincode/fpc: error-codes, territory,
      principal, bidder, eligibility, bid and auction-state)

    A clock auction sells the channels of territories in rounds.  The static state is
    what the auction was created with; the dynamic state keeps, for every round, the
    prices, the eligibility of the bidders, their bids, the licences they hold after the
    round and the excess demand.

    [uint32_t] and [int32_t] are integers with their wrap-around, prices are doubles, and
    [std::vector] is a list whose elements are read and written with [at_] and [upd];
    an access outside it, and control that runs off the end of a function, is undefined:
    [None].  A function that may fail with an error report is of type [checked]. *)
From stdpp Require Import base list numbers option strings sorting.
From Stdlib Require Import ZArith Lia.
From S2P Require Import Prelude ParsonText CNum JsonSpec SgxCCLib EnclaveCrypto Shim Chaincodes.
Local Open Scope Z_scope.

(** ** error-codes.h *)

Inductive error_codes_e :=
  | EC_UNDEFINED | EC_SUCCESS | EC_ERROR | EC_HIDDEN | EC_BAD_FUNCTION_NAME | EC_INVALID_INPUT
  | EC_MEMORY_ERROR | EC_SHORT_RESPONSE_BUFFER | EC_BAD_PARAMETERS | EC_AUCTION_RELATED_CODES
  | EC_ROUND_ACTIVE | EC_RESTRICTED_AUCTION_STATE | EC_NOT_IN_CLOCK_PHASE
  | EC_NOT_IN_ASSIGNMENT_PHASE | EC_ROUND_NOT_CURRENT | EC_UNRECOGNIZED_TERRITORY
  | EC_UNAVAILABLE_QUANTITY | EC_DUPLICATE_TERRITORIES | EC_PRICE_OUT_OF_RANGE
  | EC_ROUND_NOT_ACTIVE | EC_NOT_ENOUGH_ELIGIBILITY | EC_TOO_MUCH_DEMAND
  | EC_UNRECOGNIZED_SUBMITTER | EC_BELOW_POSTED_PRICE | EC_ABOVE_CLOCK_PRICE
  | EC_EVALUATION_ERROR | EC_UNIMPLEMENTED_API.
#[global] Instance error_codes_e_eq_dec : EqDecision error_codes_e.
Proof. solve_decision. Defined.

(** The name and the number of a code *)
Definition error_code (e : error_codes_e) : string * Z :=
  match e with
  | EC_UNDEFINED => ("EC_UNDEFINED", 0) | EC_SUCCESS => ("EC_SUCCESS", 1)
  | EC_ERROR => ("EC_ERROR", 2) | EC_HIDDEN => ("EC_HIDDEN", 3)
  | EC_BAD_FUNCTION_NAME => ("EC_BAD_FUNCTION_NAME", 4)
  | EC_INVALID_INPUT => ("EC_INVALID_INPUT", 5) | EC_MEMORY_ERROR => ("EC_MEMORY_ERROR", 6)
  | EC_SHORT_RESPONSE_BUFFER => ("EC_SHORT_RESPONSE_BUFFER", 7)
  | EC_BAD_PARAMETERS => ("EC_BAD_PARAMETERS", 8)
  | EC_AUCTION_RELATED_CODES => ("EC_AUCTION_RELATED_CODES", 9)
  | EC_ROUND_ACTIVE => ("EC_ROUND_ACTIVE", 10)
  | EC_RESTRICTED_AUCTION_STATE => ("EC_RESTRICTED_AUCTION_STATE", 11)
  | EC_NOT_IN_CLOCK_PHASE => ("EC_NOT_IN_CLOCK_PHASE", 12)
  | EC_NOT_IN_ASSIGNMENT_PHASE => ("EC_NOT_IN_ASSIGNMENT_PHASE", 13)
  | EC_ROUND_NOT_CURRENT => ("EC_ROUND_NOT_CURRENT", 14)
  | EC_UNRECOGNIZED_TERRITORY => ("EC_UNRECOGNIZED_TERRITORY", 15)
  | EC_UNAVAILABLE_QUANTITY => ("EC_UNAVAILABLE_QUANTITY", 16)
  | EC_DUPLICATE_TERRITORIES => ("EC_DUPLICATE_TERRITORIES", 17)
  | EC_PRICE_OUT_OF_RANGE => ("EC_PRICE_OUT_OF_RANGE", 18)
  | EC_ROUND_NOT_ACTIVE => ("EC_ROUND_NOT_ACTIVE", 19)
  | EC_NOT_ENOUGH_ELIGIBILITY => ("EC_NOT_ENOUGH_ELIGIBILITY", 20)
  | EC_TOO_MUCH_DEMAND => ("EC_TOO_MUCH_DEMAND", 21)
  | EC_UNRECOGNIZED_SUBMITTER => ("EC_UNRECOGNIZED_SUBMITTER", 22)
  | EC_BELOW_POSTED_PRICE => ("EC_BELOW_POSTED_PRICE", 23)
  | EC_ABOVE_CLOCK_PRICE => ("EC_ABOVE_CLOCK_PRICE", 24)
  | EC_EVALUATION_ERROR => ("EC_EVALUATION_ERROR", 25)
  | EC_UNIMPLEMENTED_API => ("EC_UNIMPLEMENTED_API", 26)
  end.

Record ErrorReport := mkErrorReport { ec_ : error_codes_e; errorString_ : bytes }.
Definition isSuccess (er : ErrorReport) : bool := bool_decide (ec_ er = EC_SUCCESS).

(** What the C++ implementation decides: the text of [__FILE__ ":" __LINE__] for a check
    that starts in a line of a file, the value of [std::lround] for what has no rounded
    value in [long], and the order in which [std::list::sort] leaves the elements.  The
    comparator that the auction passes to it, [compareByIncreasingPricePoint], is not a
    strict weak ordering (it holds of equal bids in both orders), for which the standard
    says nothing: of the result it is only assumed that it has the same elements. *)
Class Implementation := {
  location : string → Z → bytes;
  lround_outside : double → Z;
  list_sort {A} : (A → A → bool) → list A → list A;
  list_sort_elements {A} (less : A → A → bool) l : list_sort less l ≡ₚ l
}.

(** A function with a report: it returns, fails, or is undefined. *)
Inductive checked (A : Type) :=
  | Good (a : A)
  | Failed (er : ErrorReport)
  | Undefined.
Arguments Good {_}.
Arguments Failed {_}.
Arguments Undefined {_}.
#[global] Instance checked_ret : MRet checked := λ A a, Good a.
#[global] Instance checked_bind : MBind checked := λ A B k c,
  match c with Good a => k a | Failed er => Failed er | Undefined => Undefined end.
Definition defined {A} (o : option A) : checked A :=
  match o with Some a => Good a | None => Undefined end.

Section reports.
Context `{Implementation}.
Definition CUSTOM_ERROR_REPORT (code : error_codes_e) (message : bytes) : ErrorReport :=
  mkErrorReport code (bs (error_code code).1 ++ bs ":" ++ message).
Definition DEFAULT_ERROR_REPORT (file : string) (line : Z) (code : error_codes_e) : ErrorReport :=
  CUSTOM_ERROR_REPORT code (location file line).
Definition FAST_FAIL_CHECK (file : string) (line : Z) (code : error_codes_e) (b : bool) : checked unit :=
  if b then Failed (DEFAULT_ERROR_REPORT file line code) else mret ().
End reports.

(** ** Vectors and integers *)

Definition at_ {A} (l : list A) (i : Z) : option A := if i <? 0 then None else l !! Z.to_nat i.
Definition upd {A} (l : list A) (i : Z) (a : A) : option (list A) :=
  _ ← at_ l i; Some (<[Z.to_nat i := a]> l).
Definition size {A} (l : list A) : Z := Z.of_nat (length l).

(** A sum of [uint32_t] *)
Definition sum32 (l : list Z) : Z := foldl (λ a x, wrap32 (a + x)) 0 l.
(** The position of the first element with a property *)
Definition index_of {A} (p : A → bool) (l : list A) : option nat := fst <$> list_find (λ a, p a = true) l.

(** ** territory.h, principal.h, bidder.h, eligibility.h *)

Record Channel := mkChannel { channel_id_ : Z; channel_name_ : bytes; impairment_ : Z }.
Record Territory := mkTerritory {
  territory_id_ : Z; territory_name_ : bytes; isHighDemand_ : bool; minPrice_ : double;
  channels_ : list Channel }.
Definition numberOfChannels (t : Territory) : Z := wrap32 (size (channels_ t)).
Definition getChannelImpairments (t : Territory) : list Z := impairment_ <$> channels_ t.
Definition getChannelIds (t : Territory) : list Z := channel_id_ <$> channels_ t.

Record Principal := mkPrincipal { mspId_ : bytes; dn_ : bytes }.
#[global] Instance Principal_eq_dec : EqDecision Principal.
Proof. solve_decision. Defined.
Definition principal_eq (p1 p2 : Principal) : bool :=
  bool_decide (dn_ p1 = dn_ p2) && bool_decide (mspId_ p1 = mspId_ p2).

Record Bidder := mkBidder { bidder_id_ : Z; displayName_ : bytes; principal_ : Principal }.
Definition matchPrincipal (b : Bidder) (p : Principal) : bool := principal_eq p (principal_ b).

Record Eligibility := mkEligibility { elig_bidderId_ : Z; number_ : Z }.
Definition matchBidderId (e : Eligibility) (bidderId : Z) : bool := bidderId =? elig_bidderId_ e.

(** ** bid.h *)

Record Demand := mkDemand { territoryId_ : Z; quantity_ : Z; price_ : double }.
Record Bid := mkBid { auctionId_ : Z; round_ : Z; demands_ : list Demand }.
(** [Bid()] as an element of a vector: zero-initialised *)
Definition emptyBid : Bid := mkBid 0 0 [].
Definition sumQuantityDemands (b : Bid) : Z := sum32 (quantity_ <$> demands_ b).
Definition getDemandedTerritoryIds (b : Bid) : list Z := territoryId_ <$> demands_ b.

Record enqueuedBid := mkEnqueuedBid {
  bidderIndex : Z; territoryIndex : Z; demand : Demand; pricePoint : Z; randomValue : Z }.
Definition compareByDecreasingPricePoint (b1 b2 : enqueuedBid) : bool :=
  if pricePoint b1 >? pricePoint b2 then true
  else if pricePoint b1 <? pricePoint b2 then false
  else if randomValue b1 >? randomValue b2 then true
  else false.
Definition compareByIncreasingPricePoint (b1 b2 : enqueuedBid) : bool :=
  negb (compareByDecreasingPricePoint b1 b2).

(** ** auction-state.h: the static state *)

Record StaticAuctionState := mkStatic {
  owner_ : Principal; name_ : bytes; territories_ : list Territory; bidders_ : list Bidder;
  initialEligibilities_ : list Eligibility; activityRequirementPercentage_ : Z;
  clockPriceIncrementPercentage_ : Z }.

Section static.
Context `{Implementation} (s : StaticAuctionState).

Definition checkValidity : checked unit :=
  let check line b := FAST_FAIL_CHECK "auction-state.cpp" line EC_INVALID_INPUT b in
  check 155 (size (name_ s) =? 0);;
  check 156 (size (territories_ s) =? 0);;
  check 162 (existsb (λ t, existsb (λ i, i >? 100) (getChannelImpairments t)) (territories_ s));;
  check 165 (size (bidders_ s) =? 0);;
  check 166 (size (initialEligibilities_ s) =? 0);;
  check 167 (negb (size (bidders_ s) =? size (initialEligibilities_ s)));;
  check 168 (activityRequirementPercentage_ s >? 100);;
  check 169 (clockPriceIncrementPercentage_ s >? 100).

Definition setOwner (p : Principal) : StaticAuctionState :=
  mkStatic p (name_ s) (territories_ s) (bidders_ s) (initialEligibilities_ s)
    (activityRequirementPercentage_ s) (clockPriceIncrementPercentage_ s).

Definition isTerritoryIdValid (checkId : Z) : bool :=
  existsb (λ t, checkId =? territory_id_ t) (territories_ s).
Definition getTerritory (territoryId : Z) : option Territory :=
  snd <$> list_find (λ t, (territory_id_ t =? territoryId) = true) (territories_ s).
Definition getTerritoryIndex (territoryId : Z) : Z :=
  match index_of (λ t, territory_id_ t =? territoryId) (territories_ s) with
  | Some i => Z.of_nat i | None => -1
  end.
Definition getTerritoryIds : list Z := territory_id_ <$> territories_ s.
Definition getSupply : list Z := numberOfChannels <$> territories_ s.
Definition getHighDemandVector : list bool := isHighDemand_ <$> territories_ s.

Definition isPrincipalOwner (p : Principal) : bool := principal_eq p (owner_ s).
Definition fromPrincipalToBidderId (p : Principal) : Z :=
  match list_find (λ b, matchPrincipal b p = true) (bidders_ s) with
  | Some (_, b) => bidder_id_ b | None => 0
  end.
Definition isPrincipalBidder (p : Principal) : bool := negb (fromPrincipalToBidderId p =? 0).
Definition fromBidderIdToBidderIndex (bidderId : Z) : Z :=
  match index_of (λ b, bidder_id_ b =? bidderId) (bidders_ s) with
  | Some i => Z.of_nat i | None => -1
  end.
Definition fromBidderIndexToBidderId (bidderIndex : Z) : option Z := bidder_id_ <$> at_ (bidders_ s) bidderIndex.
(** The next two have no [return] after their loops. *)
Definition fromBidderIdToPrincipal (bidderId : Z) : option Principal :=
  principal_ ∘ snd <$> list_find (λ b, (bidder_id_ b =? bidderId) = true) (bidders_ s).
Definition getEligibilityNumber (bidderId : Z) : option Z :=
  number_ ∘ snd <$> list_find (λ e, matchBidderId e bidderId = true) (initialEligibilities_ s).

Definition getInitialPrices : list double := minPrice_ <$> territories_ s.
Definition getInitialEligibilities : list Z := number_ <$> initialEligibilities_ s.
Definition getBiddersN : Z := wrap32 (size (bidders_ s)).
Definition getTerritoryN : Z := wrap32 (size (territories_ s)).
End static.

(** ** auction-state.h: the dynamic state *)

Inductive auction_state_e := STATE_UNDEFINED | CLOCK_PHASE | ASSIGNMENT_PHASE | FSR_FAILED | CLOSED.
#[global] Instance auction_state_e_eq_dec : EqDecision auction_state_e.
Proof. solve_decision. Defined.

Record DynamicAuctionState := mkDynamic {
  auctionState_ : auction_state_e;
  clockRound_ : Z;
  roundActive_ : bool;
  submitterPrincipal_ : Principal;
  postedPrice_ : list (list double);
  clockPrice_ : list (list double);
  eligibility_ : list (list Z);
  clockBids_ : list (list Bid);
  excessDemand_ : list (list Z);
  processedLicenses_ : list (list (list Z));
  winAssign_ : list (list Z);
  assignCost_ : list (list double);
  channelPrice_ : list (list double);
  er_ : ErrorReport }.

(** [DynamicAuctionState(ctx)] for the submitter [p].  The constructor leaves the members
    [auctionState_], [clockRound_] and [roundActive_] uninitialised.  They are assigned
    before they are read, with one exception: [fromJsonObject] compares [roundActive_] with
    -1 before it assigns it (auction-state.cpp:581).  Neither value of a [bool] is -1, so
    this test fails with the value that is chosen here as with the other one; that the
    language leaves a read of an uninitialised member undefined is not modelled. *)
Definition fresh (p : Principal) : DynamicAuctionState :=
  mkDynamic STATE_UNDEFINED 0 false p [] [] [] [] [] [] [] [] [] (mkErrorReport EC_UNDEFINED []).

(** The object of a later invocation by [p]: what is stored, without the report *)
Definition as_submitter (p : Principal) (d : DynamicAuctionState) : DynamicAuctionState :=
  mkDynamic (auctionState_ d) (clockRound_ d) (roundActive_ d) p (postedPrice_ d) (clockPrice_ d)
    (eligibility_ d) (clockBids_ d) (excessDemand_ d) (processedLicenses_ d) (winAssign_ d)
    (assignCost_ d) (channelPrice_ d) (er_ (fresh p)).

(** Assignments to the members *)
Definition set_phase (p : auction_state_e) (d : DynamicAuctionState) : DynamicAuctionState :=
  mkDynamic p (clockRound_ d) (roundActive_ d) (submitterPrincipal_ d) (postedPrice_ d) (clockPrice_ d)
    (eligibility_ d) (clockBids_ d) (excessDemand_ d) (processedLicenses_ d) (winAssign_ d)
    (assignCost_ d) (channelPrice_ d) (er_ d).
Definition set_round (r : Z) (d : DynamicAuctionState) : DynamicAuctionState :=
  mkDynamic (auctionState_ d) r (roundActive_ d) (submitterPrincipal_ d) (postedPrice_ d) (clockPrice_ d)
    (eligibility_ d) (clockBids_ d) (excessDemand_ d) (processedLicenses_ d) (winAssign_ d)
    (assignCost_ d) (channelPrice_ d) (er_ d).
Definition set_active (b : bool) (d : DynamicAuctionState) : DynamicAuctionState :=
  mkDynamic (auctionState_ d) (clockRound_ d) b (submitterPrincipal_ d) (postedPrice_ d) (clockPrice_ d)
    (eligibility_ d) (clockBids_ d) (excessDemand_ d) (processedLicenses_ d) (winAssign_ d)
    (assignCost_ d) (channelPrice_ d) (er_ d).
Definition set_prices (posted clock : list (list double)) (d : DynamicAuctionState) : DynamicAuctionState :=
  mkDynamic (auctionState_ d) (clockRound_ d) (roundActive_ d) (submitterPrincipal_ d) posted clock
    (eligibility_ d) (clockBids_ d) (excessDemand_ d) (processedLicenses_ d) (winAssign_ d)
    (assignCost_ d) (channelPrice_ d) (er_ d).
Definition set_eligibility (e : list (list Z)) (d : DynamicAuctionState) : DynamicAuctionState :=
  mkDynamic (auctionState_ d) (clockRound_ d) (roundActive_ d) (submitterPrincipal_ d) (postedPrice_ d)
    (clockPrice_ d) e (clockBids_ d) (excessDemand_ d) (processedLicenses_ d) (winAssign_ d)
    (assignCost_ d) (channelPrice_ d) (er_ d).
Definition set_bids (b : list (list Bid)) (d : DynamicAuctionState) : DynamicAuctionState :=
  mkDynamic (auctionState_ d) (clockRound_ d) (roundActive_ d) (submitterPrincipal_ d) (postedPrice_ d)
    (clockPrice_ d) (eligibility_ d) b (excessDemand_ d) (processedLicenses_ d) (winAssign_ d)
    (assignCost_ d) (channelPrice_ d) (er_ d).
Definition set_excess (e : list (list Z)) (d : DynamicAuctionState) : DynamicAuctionState :=
  mkDynamic (auctionState_ d) (clockRound_ d) (roundActive_ d) (submitterPrincipal_ d) (postedPrice_ d)
    (clockPrice_ d) (eligibility_ d) (clockBids_ d) e (processedLicenses_ d) (winAssign_ d)
    (assignCost_ d) (channelPrice_ d) (er_ d).
Definition set_licenses (l : list (list (list Z))) (d : DynamicAuctionState) : DynamicAuctionState :=
  mkDynamic (auctionState_ d) (clockRound_ d) (roundActive_ d) (submitterPrincipal_ d) (postedPrice_ d)
    (clockPrice_ d) (eligibility_ d) (clockBids_ d) (excessDemand_ d) l (winAssign_ d)
    (assignCost_ d) (channelPrice_ d) (er_ d).
Definition set_assignment (w : list (list Z)) (c p : list (list double)) (d : DynamicAuctionState)
    : DynamicAuctionState :=
  mkDynamic (auctionState_ d) (clockRound_ d) (roundActive_ d) (submitterPrincipal_ d) (postedPrice_ d)
    (clockPrice_ d) (eligibility_ d) (clockBids_ d) (excessDemand_ d) (processedLicenses_ d) w c p (er_ d).
Definition set_er (e : ErrorReport) (d : DynamicAuctionState) : DynamicAuctionState :=
  mkDynamic (auctionState_ d) (clockRound_ d) (roundActive_ d) (submitterPrincipal_ d) (postedPrice_ d)
    (clockPrice_ d) (eligibility_ d) (clockBids_ d) (excessDemand_ d) (processedLicenses_ d) (winAssign_ d)
    (assignCost_ d) (channelPrice_ d) e.

(** *** Rounds *)

Definition isStateClockPhase (d : DynamicAuctionState) : bool := bool_decide (auctionState_ d = CLOCK_PHASE).
Definition isStateAssignmentPhase (d : DynamicAuctionState) : bool :=
  bool_decide (auctionState_ d = ASSIGNMENT_PHASE).
Definition isStateClosedPhase (d : DynamicAuctionState) : bool := bool_decide (auctionState_ d = CLOSED).
Definition isLastClockRound (d : DynamicAuctionState) (round : Z) : bool :=
  (round =? clockRound_ d) && (isStateAssignmentPhase d || isStateClosedPhase d).
Definition closeAuctionState (d : DynamicAuctionState) : DynamicAuctionState := set_phase CLOSED d.

(** [1 + ((double)percentage / 100)], by which the clock prices grow *)
Definition increment (percentage : Z) : double :=
  dadd (double_of_int 1) (ddiv (double_of_int percentage) (double_of_int 100)).

(** The static state, whose owner becomes the submitter, and the dynamic state *)
Definition initialize (auctionState : auction_state_e) (clockRound : Z) (roundActive : bool)
    (s : StaticAuctionState) (d : DynamicAuctionState)
    : option (StaticAuctionState * DynamicAuctionState) :=
  let s := setOwner s (submitterPrincipal_ d) in
  let initialPrices := getInitialPrices s in
  posted ← upd (resize 2 [] (postedPrice_ d)) 0 initialPrices;
  row ← at_ posted 1;
  posted ← upd posted 1 (resize (length initialPrices) (S754_zero false) row);
  row ← at_ posted 0;
  let clock := resize 1 [] (clockPrice_ d) ++ [row] in
  row ← at_ clock clockRound;
  clock ← upd clock clockRound ((λ p, dmul p (increment (clockPriceIncrementPercentage_ s))) <$> row);
  let eligibility := resize 1 [] (eligibility_ d) ++ [getInitialEligibilities s] in
  Some (s, set_phase auctionState (set_round clockRound (set_active roundActive
    (set_prices posted clock (set_eligibility eligibility
      (set_bids (resize 1 [] (clockBids_ d)) (set_licenses (resize 1 [] (processedLicenses_ d))
        (set_excess (resize 1 [] (excessDemand_ d)) d)))))))).

Definition startRound (s : StaticAuctionState) (d : DynamicAuctionState) : option DynamicAuctionState :=
  bids ← (if isStateClockPhase d && (size (clockBids_ d) <? wrap32 (clockRound_ d + 1)) then
            let bids := clockBids_ d ++ [[]] in
            row ← at_ bids (clockRound_ d);
            upd bids (clockRound_ d) (resize (Z.to_nat (getBiddersN s)) emptyBid row)
          else Some (clockBids_ d));
  Some (set_active true (set_bids bids d)).
Definition endRound (d : DynamicAuctionState) : DynamicAuctionState := set_active false d.
Definition endRoundAndAdvance (d : DynamicAuctionState) : DynamicAuctionState :=
  let d := endRound d in set_round (wrap32 (clockRound_ d + 1)) d.

(** *** Bids *)

Definition isValidBidder (s : StaticAuctionState) (d : DynamicAuctionState) : bool :=
  negb (fromPrincipalToBidderId s (submitterPrincipal_ d) =? 0).
Definition isValidOwner (s : StaticAuctionState) (d : DynamicAuctionState) : bool :=
  isPrincipalOwner s (submitterPrincipal_ d).

Section valid_bid.
Context `{Implementation} (s : StaticAuctionState) (d : DynamicAuctionState) (bid : Bid).
Local Abbreviation check := (FAST_FAIL_CHECK "auction-state.cpp").

(** One demand of the bid; [duplicateIdTracker] holds the territories seen so far. *)
Definition isValidDemand (duplicateIdTracker : list Z) (dem : Demand) : checked unit :=
  let pTerritory := getTerritory s (territoryId_ dem) in
  let tIndex := getTerritoryIndex s (territoryId_ dem) in
  check 977 EC_UNRECOGNIZED_TERRITORY (bool_decide (pTerritory = None) || (tIndex =? -1));;
  check 981 EC_DUPLICATE_TERRITORIES (bool_decide (territoryId_ dem ∈ duplicateIdTracker));;
  t ← defined pTerritory;
  check 985 EC_TOO_MUCH_DEMAND (quantity_ dem >? numberOfChannels t);;
  if clockRound_ d =? 1 then
    elig ← defined (getEligibilityNumber s (fromPrincipalToBidderId s (submitterPrincipal_ d)));
    check 993 EC_NOT_ENOUGH_ELIGIBILITY (sumQuantityDemands bid >? elig)
  else
    posted ← defined (row ← at_ (postedPrice_ d) (wrap32 (clockRound_ d - 1)); at_ row tIndex);
    check 998 EC_BELOW_POSTED_PRICE (dlt (price_ dem) posted);;
    clock ← defined (row ← at_ (clockPrice_ d) (clockRound_ d); at_ row tIndex);
    check 1000 EC_ABOVE_CLOCK_PRICE (dlt clock (price_ dem)).
Fixpoint validDemands (duplicateIdTracker : list Z) (l : list Demand) : checked unit :=
  match l with
  | [] => mret ()
  | dem :: l => isValidDemand duplicateIdTracker dem;; validDemands (territoryId_ dem :: duplicateIdTracker) l
  end.
Definition isValidBid : checked unit :=
  check 965 EC_UNRECOGNIZED_SUBMITTER (negb (isValidBidder s d));;
  check 968 EC_ROUND_NOT_CURRENT (negb (clockRound_ d =? round_ bid));;
  check 969 EC_ROUND_NOT_ACTIVE (negb (roundActive_ d));;
  validDemands [] (demands_ bid).
End valid_bid.

Definition storeBid (s : StaticAuctionState) (bid : Bid) (d : DynamicAuctionState)
    : option DynamicAuctionState :=
  let bidderId := fromPrincipalToBidderId s (submitterPrincipal_ d) in
  row ← at_ (clockBids_ d) (clockRound_ d);
  row ← upd row (fromBidderIdToBidderIndex s bidderId) bid;
  bids ← upd (clockBids_ d) (clockRound_ d) row;
  Some (set_bids bids d).

(** [std::set_difference] of two sorted sequences *)
Fixpoint set_difference (l1 : list Z) : list Z → list Z :=
  match l1 with
  | [] => λ _, []
  | x :: l1' => fix go (l2 : list Z) : list Z :=
      match l2 with
      | [] => l1
      | y :: l2' =>
          if x <? y then x :: set_difference l1' l2
          else if y <? x then go l2'
          else set_difference l1' l2'
      end
  end.

(** The demands of nothing that complete a bid, at the posted prices [prices] *)
Definition missingDemands (s : StaticAuctionState) (prices : option (list double)) (b : Bid)
    : option (list Demand) :=
  mapM (λ i, price ← (row ← prices; at_ row (getTerritoryIndex s i)); Some (mkDemand i 0 price))
    (set_difference (merge_sort (≤) (getTerritoryIds s)) (merge_sort (≤) (getDemandedTerritoryIds b))).
Definition fillMissingBids (s : StaticAuctionState) (auctionId : Z) (d : DynamicAuctionState)
    : option DynamicAuctionState :=
  let row := default [] (at_ (clockBids_ d) (clockRound_ d)) in
  let n := Z.to_nat (getBiddersN s) in
  if (length row <? n)%nat then None
  else
    filled ← mapM (λ b,
      missing ← missingDemands s (at_ (postedPrice_ d) (wrap32 (clockRound_ d - 1))) b;
      Some (mkBid auctionId (clockRound_ d) (demands_ b ++ missing))) (take n row);
    Some (set_bids (<[Z.to_nat (clockRound_ d) := filled ++ drop n row]> (clockBids_ d)) d).
