(* ===== verification/SpectrumEval.v ===== *)
(** * The spectrum auction: evaluation of a round (demo/chaincode/fpc/evaluate.cpp)

    At the end of the first round the bidders hold what they asked for.  In a later round
    the bids that change the demand are processed in the order of their price points, the
    scan starting again from the front after every bid that had an effect; a reduction is
    limited by the excess demand of the territory, an increase by what is left of the
    bidder's eligibility.  After a round the auction goes on with higher clock prices
    while there is excess demand, and otherwise the channels are assigned at random.

    The loop that processes the bids has [fuel]; running out of it stands for a loop that
    has not ended.  Indices of territories and bidders run up to [getTerritoryN] and
    [getBiddersN]. *)
From stdpp Require Import base list numbers option strings sorting.
From Stdlib Require Import ZArith Lia.
From S2P Require Import Prelude ParsonText CNum JsonSpec SgxCCLib EnclaveCrypto Shim Chaincodes Spectrum.
Local Open Scope Z_scope.

Definition at2 {A} (l : list (list A)) (i j : Z) : option A := row ← at_ l i; at_ row j.
Definition upd2 {A} (l : list (list A)) (i j : Z) (a : A) : option (list (list A)) :=
  row ← at_ l i; row ← upd row j a; upd l i row.
Definition at3 {A} (l : list (list (list A))) (i j k : Z) : option A := m ← at_ l i; at2 m j k.

(** ** The first round *)

(** The licences of a bidder after the first round, in a row of zeros *)
Fixpoint recordDemands (s : StaticAuctionState) (l : list Demand) (row : list Z) : option (list Z) :=
  match l with
  | [] => Some row
  | dem :: l => row ← upd row (getTerritoryIndex s (territoryId_ dem)) (quantity_ dem); recordDemands s l row
  end.
Definition processInitialRoundBids (s : StaticAuctionState) (auctionId : Z) (d : DynamicAuctionState)
    : option DynamicAuctionState :=
  d ← fillMissingBids s auctionId d;
  let licenses := resize 2 [] (processedLicenses_ d) in
  rows ← at_ licenses 1;
  let rows := resize (Z.to_nat (getBiddersN s)) [] rows in
  rows ← mapM (λ i,
    row ← at_ rows i;
    bid ← at2 (clockBids_ d) 1 i;
    recordDemands s (demands_ bid) (resize (Z.to_nat (getTerritoryN s)) 0 row)) (upto (getBiddersN s));
  licenses ← upd licenses 1 rows;
  posted ← upd (resize 2 [] (postedPrice_ d)) 1 (getInitialPrices s);
  Some (set_licenses licenses (set_prices posted (clockPrice_ d) d)).

(** ** Later rounds: processing the queue *)

(** What the loop changes: the rows of the current round and the eligibility left *)
Record progress := mkProgress {
  licenses : list (list Z);  (* processedLicenses_[clockRound_] *)
  excess : list Z;           (* excessDemand_[clockRound_] *)
  posted : list double;      (* postedPrice_[clockRound_] *)
  eligibilityCap : list Z }.

Inductive step_result :=
  | Skipped
  | Applied (p : progress) (fullyAppliedBid : bool).

(** The body of the loop for one bid, with the clock prices of the round *)
Definition processBid (clock : list double) (p : progress) (eBid : enqueuedBid) : option step_result :=
  let b := bidderIndex eBid in
  let t := territoryIndex eBid in
  ownedQuantity ← at2 (licenses p) b t;
  let demandedQuantity := quantity_ (demand eBid) in
  if demandedQuantity >? ownedQuantity then
    cap ← at_ (eligibilityCap p) b;
    if cap =? 0 then Some Skipped
    else
      let deltaQuantity := wrap32 (demandedQuantity - ownedQuantity) in
      let processable := if deltaQuantity <=? cap then deltaQuantity else cap in
      let fullyAppliedBid := processable =? deltaQuantity in
      lic ← upd2 (licenses p) b t (wrap32 (ownedQuantity + processable));
      ex ← at_ (excess p) t;
      let ex' := to_int32 (ex + processable) in
      exs ← upd (excess p) t ex';
      caps ← upd (eligibilityCap p) b (wrap32 (cap - processable));
      prices ← (if wrap32 (ex' - processable) =? 0
                then price ← at_ clock t; upd (posted p) t price
                else Some (posted p));
      Some (Applied (mkProgress lic exs prices caps) fullyAppliedBid)
  else
    ex ← at_ (excess p) t;
    if ex <=? 0 then Some Skipped
    else
      let deltaQuantity := wrap32 (ownedQuantity - demandedQuantity) in
      let processable := if deltaQuantity <=? ex then deltaQuantity else ex in
      let fullyAppliedBid := processable =? deltaQuantity in
      lic ← upd2 (licenses p) b t (wrap32 (ownedQuantity - processable));
      let ex' := to_int32 (ex - processable) in
      exs ← upd (excess p) t ex';
      cap ← at_ (eligibilityCap p) b;
      caps ← upd (eligibilityCap p) b (wrap32 (cap + processable));
      prices ← (if ex' =? 0 then upd (posted p) t (price_ (demand eBid)) else Some (posted p));
      Some (Applied (mkProgress lic exs prices caps) fullyAppliedBid).

(** The loop: [before] is the part of the queue in front of the iterator.  The result is
    the progress and the bids left in the queue. *)
Inductive run (A : Type) :=
  | Finished (a : A)
  | OutOfFuel
  | Broken.
Arguments Finished {_}.
Arguments OutOfFuel {_}.
Arguments Broken {_}.
Fixpoint processQueue (clock : list double) (fuel : nat) (p : progress) (before after : list enqueuedBid)
    : run (progress * list enqueuedBid) :=
  match after with
  | [] => Finished (p, before)
  | eBid :: after =>
      match fuel with
      | O => OutOfFuel
      | S fuel =>
          match processBid clock p eBid with
          | None => Broken
          | Some Skipped => processQueue clock fuel p (before ++ [eBid]) after
          | Some (Applied p full) =>
              processQueue clock fuel p [] (before ++ (if full then [] else [eBid]) ++ after)
          end
      end
  end.

(** ** Later rounds: before and after the queue *)

(** [std::lround]: to nearest, halves away from zero *)
Definition lround `{Implementation} (x : double) : Z :=
  match x with
  | S754_zero _ => 0
  | S754_finite s m e =>
      let a := if 0 <=? e then Zpos m * 2 ^ e else (2 * Zpos m + 2 ^ (- e)) / (2 * 2 ^ (- e)) in
      let v := if s then - a else a in
      if (- 2 ^ 63 <=? v) && (v <? 2 ^ 63) then v else lround_outside x
  | _ => lround_outside x
  end.

(** The posted prices of the round before its bids are processed *)
Fixpoint presetPrices (d : DynamicAuctionState) (indices : list Z) (posted : list (list double))
    : option (list (list double)) :=
  match indices with
  | [] => Some posted
  | i :: indices =>
      ex ← at2 (excessDemand_ d) (wrap32 (clockRound_ d - 1)) i;
      price ← (if ex >? 0 then at2 (clockPrice_ d) (clockRound_ d) i
               else at2 posted (wrap32 (clockRound_ d - 1)) i);
      posted ← upd2 posted (clockRound_ d) i price;
      presetPrices d indices posted
  end.

Definition price_point `{Implementation} (price minPrice clockPrice : double) : Z :=
  wrap32 (lround (dmul (ddiv (dsub price minPrice) (dsub clockPrice minPrice)) (double_of_int 100))).

(** The eligibility that is left to each bidder *)
Definition availableEligibility (s : StaticAuctionState) (d : DynamicAuctionState) : option (list Z) :=
  caps ← mapM (λ i,
    cap ← at2 (eligibility_ d) (clockRound_ d) i;
    row ← at2 (processedLicenses_ d) (wrap32 (clockRound_ d - 1)) i;
    Some (wrap32 (cap - sum32 row))) (upto (getBiddersN s));
  row ← at_ (eligibility_ d) (clockRound_ d);
  Some (caps ++ drop (length caps) row).

Section evaluate.
Context {W : Type} `{SgxCrypto W} `{Implementation}.
Local Abbreviation SM := (SM W).

Definition lift {A} (o : option A) : SM A := match o with Some a => mret a | None => crash end.

(** A random [uint32_t], or [None] when the source of randomness fails *)
Definition random_uint32 : SM (option Z) :=
  c ← ctx_get;
  let '(ret, bytes, w) := get_random_bytes 4 (world c) in
  set_world w;;
  mret (if ret =? 0 then Some (foldr (λ b a, uchar b + 256 * a) 0 (take 4 bytes)) else None).

(** The bids of one bidder, from the last to the first, behind those in [queue] *)
Fixpoint enqueueDemands (s : StaticAuctionState) (d : DynamicAuctionState) (i : Z)
    (l : list Demand) (queue : list enqueuedBid) : SM (option (list enqueuedBid)) :=
  match l with
  | [] => mret (Some queue)
  | dem :: l =>
      let t := wrap32 (getTerritoryIndex s (territoryId_ dem)) in
      processedDemand ← lift (at3 (processedLicenses_ d) (wrap32 (clockRound_ d - 1)) i t);
      if processedDemand =? quantity_ dem then enqueueDemands s d i l queue
      else
        minPrice ← lift (at2 (postedPrice_ d) (wrap32 (clockRound_ d - 1)) t);
        clockPrice ← lift (at2 (clockPrice_ d) (clockRound_ d) t);
        let pp := price_point (price_ dem) minPrice clockPrice in
        r ← random_uint32;
        match r with
        | None => mret None
        | Some r => enqueueDemands s d i l (queue ++ [mkEnqueuedBid i t dem pp r])
        end
  end.
Fixpoint enqueueBids (s : StaticAuctionState) (d : DynamicAuctionState) (indices : list Z)
    (queue : list enqueuedBid) : SM (option (list enqueuedBid)) :=
  match indices with
  | [] => mret (Some queue)
  | i :: indices =>
      bid ← lift (at2 (clockBids_ d) (clockRound_ d) i);
      q ← enqueueDemands s d i (reverse (demands_ bid)) queue;
      match q with None => mret None | Some queue => enqueueBids s d indices queue end
  end.

(** [eBidContainer.sort(compareByIncreasingPricePoint)] *)
Definition sort_bids (l : list enqueuedBid) : list enqueuedBid := list_sort compareByIncreasingPricePoint l.

Definition evaluation_error (text : bytes) (d : DynamicAuctionState) : DynamicAuctionState :=
  set_er (mkErrorReport EC_EVALUATION_ERROR text) d.

(** What the loop starts with: the rows of the current round *)
Definition start_progress (d : DynamicAuctionState) (caps : list Z) : progress :=
  let row {A} (l : list (list A)) := default [] (at_ l (clockRound_ d)) in
  mkProgress (row (processedLicenses_ d)) (row (excessDemand_ d)) (row (postedPrice_ d)) caps.
Definition store_progress (p : progress) (d : DynamicAuctionState) : DynamicAuctionState :=
  let r := Z.to_nat (clockRound_ d) in
  set_licenses (<[r := licenses p]> (processedLicenses_ d))
    (set_excess (<[r := excess p]> (excessDemand_ d))
      (set_prices (<[r := posted p]> (postedPrice_ d)) (clockPrice_ d) d)).

(** The members as they are when the queue starts *)
Definition open_round (s : StaticAuctionState) (d : DynamicAuctionState)
    : option (DynamicAuctionState * progress) :=
  rows ← at_ (processedLicenses_ d) (wrap32 (clockRound_ d - 1));
  let d := set_licenses (processedLicenses_ d ++ [rows]) d in
  caps ← availableEligibility s d;
  ex ← at_ (excessDemand_ d) (wrap32 (clockRound_ d - 1));
  let d := set_excess (excessDemand_ d ++ [ex]) d in
  Some (d, start_progress d caps).

Definition processRegularRoundBids (fuel : nat) (s : StaticAuctionState) (auctionId : Z)
    (d : DynamicAuctionState) : SM DynamicAuctionState :=
  d ← lift (fillMissingBids s auctionId d);
  let roundPostedPrice := replicate (Z.to_nat (getTerritoryN s)) (S754_zero false) in
  posted ← lift (presetPrices d (upto (getTerritoryN s)) (postedPrice_ d ++ [roundPostedPrice]));
  let d := set_prices posted (clockPrice_ d) d in
  q ← enqueueBids s d (upto (getBiddersN s)) [];
  match q with
  | None => mret (evaluation_error (bs "error getting random value, stop bid processing") d)
  | Some queue =>
      '(d, p) ← lift (open_round s d);
      match processQueue (default [] (at_ (clockPrice_ d) (clockRound_ d))) fuel p [] (sort_bids queue) with
      | Finished (p, _) => mret (store_progress p d)
      | _ => crash
      end
  end.

(** ** After a clock round *)

Definition processBidsPreamble (d : DynamicAuctionState) : DynamicAuctionState :=
  set_er (mkErrorReport EC_SUCCESS []) d.

(** The demand of each territory, summed over the bidders, less its supply *)
Definition roundExcess (s : StaticAuctionState) (d : DynamicAuctionState) : option (list Z) :=
  mapM (λ i,
    column ← mapM (λ j, at3 (processedLicenses_ d) (clockRound_ d) j i) (upto (getBiddersN s));
    supply ← at_ (getSupply s) i;
    Some (to_int32 (sum32 column - supply))) (upto (getTerritoryN s)).

(** The eligibility of a bidder in the next round *)
Definition newEligibility (percentage processedActivity eligibility : Z) : option Z :=
  requiredActivity ← uint32_of_double
    (ddiv (double_of_int (wrap32 (eligibility * percentage))) (double_of_int 100));
  if processedActivity >=? requiredActivity then Some eligibility
  else if percentage =? 0 then None
  else Some (wrap32 (processedActivity * 100) / percentage).
Definition newRoundEligibility (s : StaticAuctionState) (d : DynamicAuctionState) : option (list Z) :=
  mapM (λ i,
    row ← mapM (λ j, at3 (processedLicenses_ d) (clockRound_ d) i j) (upto (getTerritoryN s));
    eligibility ← at2 (eligibility_ d) (clockRound_ d) i;
    newEligibility (activityRequirementPercentage_ s) (sum32 row) eligibility) (upto (getBiddersN s)).
Definition newRoundClockPrice (s : StaticAuctionState) (d : DynamicAuctionState) : option (list double) :=
  row ← at_ (postedPrice_ d) (clockRound_ d);
  prices ← mapM (λ j, price ← at_ row j;
    Some (dmul price (increment (clockPriceIncrementPercentage_ s)))) (upto (getTerritoryN s));
  Some (prices ++ drop (length prices) row).

(** The phase after the round; the largest excess of no territory at all is undefined. *)
Definition finalStageRule (s : StaticAuctionState) (roundExcessDemand : list Z) (d : DynamicAuctionState)
    : DynamicAuctionState :=
  if existsb (λ '(ex, high), (ex <? 0) && high) (zip roundExcessDemand (getHighDemandVector s))
  then set_phase FSR_FAILED d else d.
Definition nextRound (s : StaticAuctionState) (roundExcessDemand : list Z) (d : DynamicAuctionState)
    : option DynamicAuctionState :=
  if negb (isStateClockPhase d) then Some d
  else
    match roundExcessDemand with
    | [] => None
    | _ =>
        if forallb (λ ex, ex <=? 0) roundExcessDemand then Some (set_phase ASSIGNMENT_PHASE d)
        else
          elig ← newRoundEligibility s d;
          prices ← newRoundClockPrice s d;
          Some (set_round (wrap32 (clockRound_ d + 1))
            (set_prices (postedPrice_ d) (clockPrice_ d ++ [prices])
              (set_eligibility (eligibility_ d ++ [elig]) d)))
    end.
Definition processBidsPostamble (s : StaticAuctionState) (d : DynamicAuctionState)
    : option DynamicAuctionState :=
  roundExcessDemand ← roundExcess s d;
  if size (excessDemand_ d) =? clockRound_ d then
    let d := set_excess (excessDemand_ d ++ [roundExcessDemand]) d in
    nextRound s roundExcessDemand (finalStageRule s roundExcessDemand d)
  else
    row ← at_ (excessDemand_ d) (clockRound_ d);
    if bool_decide (row = roundExcessDemand) then
      nextRound s roundExcessDemand (finalStageRule s roundExcessDemand d)
    else Some (evaluation_error (bs "error excess demand - stop bid processing") d).

Definition evaluateClockRound (fuel : nat) (s : StaticAuctionState) (auctionId : Z)
    (d : DynamicAuctionState) : SM DynamicAuctionState :=
  let d := processBidsPreamble d in
  d ← (if clockRound_ d =? 1 then lift (processInitialRoundBids s auctionId d)
       else processRegularRoundBids fuel s auctionId d);
  lift (processBidsPostamble s d).

(** ** The assignment round *)

(** [channelsN] swaps of [l[j]] with a random element *)
Fixpoint shuffle (channelsN : Z) (js : list Z) (l : list Z) : SM (option (list Z)) :=
  match js with
  | [] => mret (Some l)
  | j :: js =>
      r ← random_uint32;
      match r with
      | None => mret None
      | Some r =>
          let r := r mod channelsN in
          a ← lift (at_ l j);
          b ← lift (at_ l r);
          l ← lift (upd l j b);
          l ← lift (upd l r a);
          shuffle channelsN js l
      end
  end.

(** The bidders of a territory in the order in which they are given channels: each as
    many times as it has licences *)
Definition winners (s : StaticAuctionState) (d : DynamicAuctionState) (i : Z) : option (list Z) :=
  l ← mapM (λ j, n ← at3 (processedLicenses_ d) (clockRound_ d) j i; Some (replicate (Z.to_nat n) j))
        (upto (getBiddersN s));
  Some (concat l).
(** [winAssign_[i][randomChannelIndexes[indexToAssign]] = j] for the winners in turn *)
Fixpoint assign (winners indexes row : list Z) : option (list Z) :=
  match winners with
  | [] => Some row
  | j :: winners =>
      match indexes with
      | [] => None
      | c :: indexes => row ← upd row c j; assign winners indexes row
      end
  end.

(** The loop over the territories, with [winAssign_], [assignCost_] and [channelPrice_] *)
Fixpoint assignTerritories (s : StaticAuctionState) (d : DynamicAuctionState) (indices : list Z)
    (win : list (list Z)) (cost price : list (list double))
    : SM (bool * (list (list Z) * list (list double) * list (list double))) :=
  match indices with
  | [] => mret (true, (win, cost, price))
  | i :: indices =>
      t ← lift (id ← at_ (getTerritoryIds s) i; getTerritory s id);
      let channelsN := numberOfChannels t in
      let n := Z.to_nat channelsN in
      row ← lift (at_ win i);
      win ← lift (upd win i (resize n (-1) row));
      row ← lift (at_ price i);
      price ← lift (upd price i (resize n (S754_zero false) row));
      row ← lift (at_ cost i);
      cost ← lift (upd cost i (resize (Z.to_nat (getBiddersN s)) (S754_zero false) row));
      l ← shuffle channelsN (upto channelsN) (upto channelsN);
      match l with
      | None => mret (false, (win, cost, price))
      | Some randomChannelIndexes =>
          prices ← lift (mapM (λ j,
            posted ← at2 (postedPrice_ d) (clockRound_ d) i;
            impairment ← at_ (getChannelImpairments t) j;
            Some (dmul posted (ddiv (dsub (double_of_int 100) (double_of_int impairment)) (double_of_int 100))))
            (upto channelsN));
          price ← lift (upd price i prices);
          w ← lift (winners s d i);
          row ← lift (at_ win i);
          row ← lift (assign w randomChannelIndexes row);
          win ← lift (upd win i row);
          assignTerritories s d indices win cost price
      end
  end.
Definition processAssignmentRound (s : StaticAuctionState) (d : DynamicAuctionState)
    : SM DynamicAuctionState :=
  let n := length (getTerritoryIds s) in
  '(ok, (win, cost, price)) ←
    assignTerritories s d (upto (Z.of_nat n)) (resize n [] (winAssign_ d)) (resize n [] (assignCost_ d))
      (resize n [] (channelPrice_ d));
  let d := set_assignment win cost price d in
  if ok : bool then mret (closeAuctionState d)
  else mret (evaluation_error (bs "error getting random value, stop assignment processing") d).
Definition evaluateAssignmentRound (s : StaticAuctionState) (d : DynamicAuctionState)
    : SM DynamicAuctionState := processAssignmentRound s d.

(** ** The end of a round: what [SpectrumAuction::endRound] does with the state

    When the clock phase is over the assignment follows at once. *)
Definition closeRound (fuel : nat) (s : StaticAuctionState) (auctionId : Z) (d : DynamicAuctionState)
    : SM (checked DynamicAuctionState) :=
  d ← evaluateClockRound fuel s auctionId (endRound d);
  if negb (isSuccess (er_ d)) then mret (Failed (er_ d))
  else if isStateAssignmentPhase d then
    d ← lift (startRound s d);
    d ← evaluateAssignmentRound s (endRound d);
    mret (FAST_FAIL_CHECK "spectrum-auction.cpp" 223 EC_EVALUATION_ERROR (negb (isStateClosedPhase d));; Good d)
  else mret (Good d).
End evaluate.
