(* ===== verification/SpectrumJson.v ===== *)
(** * The spectrum auction: JSON (demo/chaincode/fpc: toJsonObject and fromJsonObject of the
      classes, utils.cpp)

    The state of an auction, requests and responses are JSON.  As in the other chaincodes
    parson is used through its specification: a [JSON_Object*] is the tree of the object,
    [None] stands for NULL, and an object is the list of its members.  A setter leaves out
    a string that is not UTF-8 and a number that is not finite.

    Reading is of type [checked]: a report of the first check that fails, or undefined
    behaviour where a double is converted to an integer type that cannot hold it. *)
From stdpp Require Import base list numbers option strings.
From Stdlib Require Import ZArith Lia.
From S2P Require Import Prelude ParsonText CNum JsonSpec SgxCCLib EnclaveCrypto Shim Chaincodes Spectrum SpectrumEval.
Local Open Scope Z_scope.

(** ** Access to trees *)

(** [json_value_get_number] and the like on a value that may be NULL *)
Definition as_number (v : option json) : double :=
  match v with Some (JNumber d) => d | _ => S754_zero false end.
Definition as_string (v : option json) : option bytes :=
  match v with Some (JString s) => Some s | _ => None end.
Definition as_boolean (v : option json) : Z :=
  match v with Some (JBool b) => if b then 1 else 0 | _ => -1 end.
Definition as_array (v : option json) : option (list json) :=
  match v with Some (JArray l) => Some l | _ => None end.
Definition is_object (v : option json) : bool := match v with Some (JObject _) => true | _ => false end.
Definition has_number (root : option json) (k : bytes) : bool :=
  match member root k with Some (JNumber _) => true | _ => false end.

(** [json_object_set_number] on a new object, and [json_array_append_number] in a loop *)
Definition number_entry (k : bytes) (d : double) : list (bytes * json) :=
  if is_finite d then [(k, JNumber d)] else [].
Definition int_entry (k : bytes) (z : Z) : list (bytes * json) := number_entry k (double_of_int z).
Definition numbers (l : list double) : json := JArray (JNumber <$> filter (λ d, is_finite d = true) l).
Definition integers (l : list Z) : json := numbers (double_of_int <$> l).

(** [(int32_t)d] *)
Definition int32_of_double (d : double) : option Z := int_of_double d.

(** What a class of the auction promises as JSON: [toJsonObject] fills an object,
    [fromJsonObject] reads one. *)
Class ToJson (A : Type) := toJsonObject : A → json.
Class FromJson (A : Type) := fromJsonObject : option json → checked A.

Section json.
Context `{Implementation}.

(** ** utils.cpp *)

Definition isInteger (d : double) : checked bool :=
  i ← defined (int_of_double d); mret (SFeqb d (double_of_int i)).

(** The three statements by which every [uint32_t] member is read; [l1] and [l2] are the
    lines of the checks. *)
Definition integer_member (file : string) (l1 l2 : Z) (root : option json) (k : string) : checked Z :=
  FAST_FAIL_CHECK file l1 EC_INVALID_INPUT (negb (has_number root (bs k)));;
  let d := as_number (member root (bs k)) in
  b ← isInteger d;
  FAST_FAIL_CHECK file l2 EC_INVALID_INPUT (negb b);;
  defined (uint32_of_double d).
Definition string_member (file : string) (line : Z) (root : option json) (k : string) : checked bytes :=
  match as_string (member root (bs k)) with
  | None => Failed (DEFAULT_ERROR_REPORT file line EC_INVALID_INPUT)
  | Some s => mret s
  end.
(** The elements of an array, or a report when there is none *)
Definition array_member (file : string) (line : Z) (root : option json) (k : string) : checked (list json) :=
  match as_array (member root (bs k)) with
  | None => Failed (DEFAULT_ERROR_REPORT file line EC_INVALID_INPUT)
  | Some l => mret l
  end.
(** The loop that reads objects of a class from an array, until one fails *)
Definition objects {A} `{FromJson A} (l : list json) : checked (list A) :=
  mapM (λ o, fromJsonObject (Some o)) l.

(** ** principal.cpp *)

Definition Principal_toJsonObject (p : Principal) : json :=
  JObject (string_entry (bs "mspId") (cstr (mspId_ p)) ++ string_entry (bs "dn") (cstr (dn_ p))).
Definition Principal_fromJsonObject (root : option json) : checked Principal :=
  m ← string_member "principal.cpp" 43 root "mspId";
  d ← string_member "principal.cpp" 48 root "dn";
  mret (mkPrincipal m d).
#[global] Instance Principal_to_json : ToJson Principal := Principal_toJsonObject.
#[global] Instance Principal_from_json : FromJson Principal := Principal_fromJsonObject.

(** ** bidder.cpp *)

Definition Bidder_toJsonObject (b : Bidder) : json :=
  JObject (int_entry (bs "id") (bidder_id_ b) ++
           string_entry (bs "displayName") (cstr (displayName_ b)) ++
           [(bs "principal", toJsonObject (principal_ b))]).
Definition Bidder_fromJsonObject (root : option json) : checked Bidder :=
  id ← integer_member "bidder.cpp" 25 28 root "id";
  n ← string_member "bidder.cpp" 33 root "displayName";
  let v := member root (bs "principal") in
  FAST_FAIL_CHECK "bidder.cpp" 38 EC_INVALID_INPUT (bool_decide (v = None));;
  p ← fromJsonObject v;
  mret (mkBidder id n p).
#[global] Instance Bidder_to_json : ToJson Bidder := Bidder_toJsonObject.
#[global] Instance Bidder_from_json : FromJson Bidder := Bidder_fromJsonObject.

(** ** eligibility.cpp *)

Definition Eligibility_toJsonObject (e : Eligibility) : json :=
  JObject (int_entry (bs "bidderId") (elig_bidderId_ e) ++ int_entry (bs "number") (number_ e)).
Definition Eligibility_fromJsonObject (root : option json) : checked Eligibility :=
  b ← integer_member "eligibility.cpp" 19 22 root "bidderId";
  n ← integer_member "eligibility.cpp" 26 29 root "number";
  mret (mkEligibility b n).
#[global] Instance Eligibility_to_json : ToJson Eligibility := Eligibility_toJsonObject.
#[global] Instance Eligibility_from_json : FromJson Eligibility := Eligibility_fromJsonObject.

(** ** territory.cpp *)

Definition Channel_toJsonObject (c : Channel) : json :=
  JObject (int_entry (bs "id") (channel_id_ c) ++ string_entry (bs "name") (cstr (channel_name_ c)) ++
           int_entry (bs "impairment") (impairment_ c)).
Definition Channel_fromJsonObject (root : option json) : checked Channel :=
  id ← integer_member "territory.cpp" 27 30 root "id";
  n ← string_member "territory.cpp" 35 root "name";
  i ← integer_member "territory.cpp" 39 42 root "impairment";
  mret (mkChannel id n i).
#[global] Instance Channel_to_json : ToJson Channel := Channel_toJsonObject.
#[global] Instance Channel_from_json : FromJson Channel := Channel_fromJsonObject.

Definition Territory_toJsonObject (t : Territory) : json :=
  JObject (int_entry (bs "id") (territory_id_ t) ++ string_entry (bs "name") (cstr (territory_name_ t)) ++
           [(bs "isHighDemand", JBool (isHighDemand_ t))] ++ number_entry (bs "minPrice") (minPrice_ t) ++
           [(bs "channels", JArray (toJsonObject <$> channels_ t))]).
Definition Territory_fromJsonObject (root : option json) : checked Territory :=
  id ← integer_member "territory.cpp" 89 92 root "id";
  n ← string_member "territory.cpp" 97 root "name";
  let b := as_boolean (member root (bs "isHighDemand")) in
  FAST_FAIL_CHECK "territory.cpp" 102 EC_INVALID_INPUT (b =? -1);;
  FAST_FAIL_CHECK "territory.cpp" 106 EC_INVALID_INPUT (negb (has_number root (bs "minPrice")));;
  let minPrice := as_number (member root (bs "minPrice")) in
  FAST_FAIL_CHECK "territory.cpp" 109 EC_INVALID_INPUT (dlt minPrice (S754_zero false));;
  channel_array ← array_member "territory.cpp" 113 root "channels";
  channels ← objects channel_array;
  mret (mkTerritory id n (negb (b =? 0)) minPrice channels).
#[global] Instance Territory_to_json : ToJson Territory := Territory_toJsonObject.
#[global] Instance Territory_from_json : FromJson Territory := Territory_fromJsonObject.

(** ** bid.cpp *)

Definition Demand_toJsonObject (d : Demand) : json :=
  JObject (int_entry (bs "terId") (territoryId_ d) ++ int_entry (bs "qty") (quantity_ d) ++
           number_entry (bs "price") (price_ d)).
(** A price is read as an integer too. *)
Definition Demand_fromJsonObject (root : option json) : checked Demand :=
  t ← integer_member "bid.cpp" 21 24 root "terId";
  q ← integer_member "bid.cpp" 28 31 root "qty";
  p ← integer_member "bid.cpp" 35 38 root "price";
  mret (mkDemand t q (double_of_int p)).
#[global] Instance Demand_to_json : ToJson Demand := Demand_toJsonObject.
#[global] Instance Demand_from_json : FromJson Demand := Demand_fromJsonObject.

Definition Bid_toJsonObject (b : Bid) : json :=
  JObject (int_entry (bs "auctionId") (auctionId_ b) ++ int_entry (bs "round") (round_ b) ++
           [(bs "bids", JArray (toJsonObject <$> demands_ b))]).
Definition Bid_fromJsonObject (root : option json) : checked Bid :=
  a ← integer_member "bid.cpp" 54 57 root "auctionId";
  r ← integer_member "bid.cpp" 61 64 root "round";
  demand_array ← array_member "bid.cpp" 69 root "bids";
  FAST_FAIL_CHECK "bid.cpp" 74 EC_INVALID_INPUT ((size demand_array =? 0) && negb (a =? 0));;
  l ← objects demand_array;
  mret (mkBid a r l).
#[global] Instance Bid_to_json : ToJson Bid := Bid_toJsonObject.
#[global] Instance Bid_from_json : FromJson Bid := Bid_fromJsonObject.

(** ** auction-state.cpp: the static state *)

(** [StaticAuctionState()]; the percentages are not initialised. *)
Definition StaticAuctionState_new : StaticAuctionState := mkStatic (mkPrincipal [] []) [] [] [] [] 0 0.
Definition StaticAuctionState_toJsonObject (s : StaticAuctionState) : json :=
  JObject ([(bs "owner", toJsonObject (owner_ s))] ++ string_entry (bs "name") (cstr (name_ s)) ++
           [(bs "territories", JArray (toJsonObject <$> territories_ s));
            (bs "bidders", JArray (toJsonObject <$> bidders_ s));
            (bs "initialEligibilities", JArray (toJsonObject <$> initialEligibilities_ s))] ++
           int_entry (bs "activityRequirementPercentage") (activityRequirementPercentage_ s) ++
           int_entry (bs "clockPriceIncrementPercentage") (clockPriceIncrementPercentage_ s)).
(** The members are assigned and appended to those of [s]; the percentages are converted
    before they are checked. *)
Definition StaticAuctionState_fromJsonObject (s : StaticAuctionState) (root : option json)
    : checked StaticAuctionState :=
  let check line b := FAST_FAIL_CHECK "auction-state.cpp" line EC_INVALID_INPUT b in
  check 76 (negb (is_object root));;
  name ← string_member "auction-state.cpp" 80 root "name";
  territory_array ← array_member "auction-state.cpp" 85 root "territories";
  territories ← objects territory_array;
  bidder_array ← array_member "auction-state.cpp" 97 root "bidders";
  bidders ← objects bidder_array;
  eligibility_array ← array_member "auction-state.cpp" 109 root "initialEligibilities";
  eligibilities ← objects eligibility_array;
  check 121 (negb (has_number root (bs "activityRequirementPercentage")));;
  let d := as_number (member root (bs "activityRequirementPercentage")) in
  activity ← defined (uint32_of_double d);
  check 127 (dlt d (S754_zero false) || dlt (double_of_int 100) d);;
  check 130 (negb (has_number root (bs "clockPriceIncrementPercentage")));;
  let d := as_number (member root (bs "clockPriceIncrementPercentage")) in
  increment ← defined (uint32_of_double d);
  check 136 (dlt d (S754_zero false));;
  mret (mkStatic (owner_ s) name (territories_ s ++ territories) (bidders_ s ++ bidders)
          (initialEligibilities_ s ++ eligibilities) activity increment).
Definition fromExtendedJsonObject (s : StaticAuctionState) (root : option json) : checked StaticAuctionState :=
  let check line b := FAST_FAIL_CHECK "auction-state.cpp" line EC_INVALID_INPUT b in
  check 143 (negb (is_object root));;
  let v := member root (bs "owner") in
  check 146 (bool_decide (v = None));;
  p ← fromJsonObject v;
  StaticAuctionState_fromJsonObject (setOwner s p) root.

(** ** auction-state.cpp: the dynamic state *)

Definition AUCTION_STATE_STRINGS (p : auction_state_e) : bytes :=
  match p with
  | STATE_UNDEFINED => bs "undefined" | CLOCK_PHASE => bs "clock" | ASSIGNMENT_PHASE => bs "assign"
  | FSR_FAILED => bs "failed_fsr" | CLOSED => bs "done"
  end.
(** [stateMap_.find(s)] *)
Definition stateMap_ (s : bytes) : option auction_state_e :=
  head (filter (λ p, AUCTION_STATE_STRINGS p = s) [STATE_UNDEFINED; CLOCK_PHASE; ASSIGNMENT_PHASE; FSR_FAILED; CLOSED]).

Definition DynamicAuctionState_toJsonObject (d : DynamicAuctionState) : json :=
  JObject ([(bs "state", JString (AUCTION_STATE_STRINGS (auctionState_ d)))] ++
           int_entry (bs "clockRound") (clockRound_ d) ++
           [(bs "roundActive", JBool (roundActive_ d));
            (bs "postedPrice", JArray (numbers <$> postedPrice_ d));
            (bs "clockPrice", JArray (numbers <$> clockPrice_ d));
            (bs "eligibility", JArray (integers <$> eligibility_ d));
            (bs "clockBids", JArray ((λ row, JArray (toJsonObject <$> row)) <$> clockBids_ d));
            (bs "processedLicenses", JArray ((λ m, JArray (integers <$> m)) <$> processedLicenses_ d));
            (bs "excessDemand", JArray (integers <$> excessDemand_ d));
            (bs "winAssign", JArray (integers <$> winAssign_ d));
            (bs "assignCost", JArray (numbers <$> assignCost_ d));
            (bs "channelPrice", JArray (numbers <$> channelPrice_ d))]).

(** A row of numbers, converted to the type of the elements; what is not an array is an
    empty row, what is not a number is 0. *)
Definition number_row {A} (conv : double → option A) (row : json) : checked (list A) :=
  mapM (λ x, defined (conv (as_number (Some x)))) (default [] (as_array (Some row))).
Definition matrix_member {A} (conv : double → option A) (line : Z) (root : option json) (k : string)
    : checked (list (list A)) :=
  rows ← array_member "auction-state.cpp" line root k;
  mapM (number_row conv) rows.
Definition bids_member (root : option json) : checked (list (list Bid)) :=
  rows ← array_member "auction-state.cpp" 637 root "clockBids";
  mapM (λ row, objects (default [] (as_array (Some row)))) rows.
Definition licenses_member (root : option json) : checked (list (list (list Z))) :=
  rounds ← array_member "auction-state.cpp" 657 root "processedLicenses";
  mapM (λ m, mapM (number_row uint32_of_double) (default [] (as_array (Some m)))) rounds.

(** [roundActive_ == -1], which tests the member (not initialised, see [fresh]) and not the
    value read, never holds of a [bool]; a missing value is -1, which is true. *)
Definition DynamicAuctionState_fromJsonObject (d : DynamicAuctionState) (root : option json)
    : checked DynamicAuctionState :=
  let check line b := FAST_FAIL_CHECK "auction-state.cpp" line EC_INVALID_INPUT b in
  s ← string_member "auction-state.cpp" 563 root "state";
  let fIter := stateMap_ s in
  check 567 (bool_decide (fIter = None));;
  phase ← defined fIter;
  check 569 (bool_decide (phase = STATE_UNDEFINED));;
  round ← integer_member "auction-state.cpp" 572 575 root "clockRound";
  check 577 (round =? 0);;
  let active := negb (as_boolean (member root (bs "roundActive")) =? 0) in
  posted ← matrix_member Some 586 root "postedPrice";
  clock ← matrix_member Some 603 root "clockPrice";
  eligibility ← matrix_member uint32_of_double 620 root "eligibility";
  bids ← bids_member root;
  licenses ← licenses_member root;
  excess ← matrix_member int32_of_double 683 root "excessDemand";
  win ← matrix_member int32_of_double 700 root "winAssign";
  cost ← matrix_member Some 717 root "assignCost";
  price ← matrix_member Some 734 root "channelPrice";
  mret (mkDynamic phase round active (submitterPrincipal_ d) (postedPrice_ d ++ posted) (clockPrice_ d ++ clock)
          (eligibility_ d ++ eligibility) (clockBids_ d ++ bids) (excessDemand_ d ++ excess)
          (processedLicenses_ d ++ licenses) (winAssign_ d ++ win) (assignCost_ d ++ cost)
          (channelPrice_ d ++ price) (er_ d)).
End json.

(** ** auction-state.cpp: results

    An index outside a vector is undefined: [None]. *)
Definition indices {A} (l : list A) : list Z := upto (size l).

Definition toRoundInfoJsonObject (d : DynamicAuctionState) (s : StaticAuctionState) (round : Z) : option json :=
  prices ← mapM (λ '(i, terId),
      minPrice ← at2 (postedPrice_ d) (wrap32 (round - 1)) i;
      clockPrice ← at2 (clockPrice_ d) round i;
      Some (JObject (int_entry (bs "terId") terId ++ number_entry (bs "minPrice") minPrice ++
                     number_entry (bs "clockPrice") clockPrice)))
    (zip (indices (getTerritoryIds s)) (getTerritoryIds s));
  Some (JObject [(bs "prices", JArray prices);
                 (bs "active", JBool (if round =? clockRound_ d then roundActive_ d else false))]).

(** The rows of the territories in which the bidder holds licences *)
Definition bidder_result (d : DynamicAuctionState) (round bidderIndex : Z) (i terId : Z) : option (list json) :=
  licenses ← at3 (processedLicenses_ d) round bidderIndex i;
  if licenses =? 0 then Some []
  else
    posted ← at2 (postedPrice_ d) round i;
    excess ← at2 (excessDemand_ d) round i;
    Some [JObject (int_entry (bs "terId") terId ++ number_entry (bs "postedPrice") posted ++
                   int_entry (bs "excessDemand") excess ++ int_entry (bs "processedLicenses") licenses)].
Definition toBidderRoundResultsJsonObject (d : DynamicAuctionState) (s : StaticAuctionState) (round : Z)
    : option json :=
  let bidderIndex :=
    wrap32 (fromBidderIdToBidderIndex s (fromPrincipalToBidderId s (submitterPrincipal_ d))) in
  result ← mapM (λ '(i, terId), bidder_result d round bidderIndex i terId)
             (zip (indices (getTerritoryIds s)) (getTerritoryIds s));
  future ← (if negb (isLastClockRound d round) then
              elig ← at2 (eligibility_ d) (wrap32 (round + 1)) bidderIndex;
              Some (int_entry (bs "futureEligibility") elig ++
                    int_entry (bs "requiredFutureEligibility")
                      (wrap32 (elig * activityRequirementPercentage_ s) / 100))
            else Some []);
  Some (JObject ([(bs "result", JArray (concat result))] ++ future)).

Definition toOwnerRoundResultsJsonObject (d : DynamicAuctionState) (s : StaticAuctionState) (round : Z)
    : option json :=
  result ← mapM (λ '(i, terId),
      active ← mapM (λ j, n ← at3 (processedLicenses_ d) round j i; Some (if n >? 0 then 1 else 0))
                 (upto (getBiddersN s));
      posted ← at2 (postedPrice_ d) round i;
      excess ← at2 (excessDemand_ d) round i;
      Some (JObject (int_entry (bs "terId") terId ++ number_entry (bs "postedPrice") posted ++
                     int_entry (bs "excessDemand") excess ++ int_entry (bs "activeBidders") (sum32 active))))
    (zip (indices (getTerritoryIds s)) (getTerritoryIds s));
  Some (JObject [(bs "result", JArray result)]).

(** The channels of territory [j] that bidder [i] won *)
Definition won_channels (d : DynamicAuctionState) (i j : Z) (channelIds : list Z) : option (list json) :=
  l ← mapM (λ '(k, channelId),
    w ← at2 (winAssign_ d) j k;
    if negb (wrap32 w =? i) then Some []
    else
      price ← at2 (channelPrice_ d) j k;
      Some [JObject (int_entry (bs "channelId") channelId ++ number_entry (bs "price") price)])
    (zip (indices channelIds) channelIds);
  Some (concat l).
Definition bidder_assignment (d : DynamicAuctionState) (s : StaticAuctionState) (i j terId : Z)
    : option (list json) :=
  licenses ← at3 (processedLicenses_ d) (clockRound_ d) i j;
  if licenses =? 0 then Some []
  else
    cost ← at2 (assignCost_ d) j i;
    t ← getTerritory s terId;
    channels ← won_channels d i j (getChannelIds t);
    Some [JObject (int_entry (bs "territoryId") terId ++ number_entry (bs "assignCost") cost ++
                   [(bs "channels", JArray channels)])].
Definition toAssignmentResultsJsonObject (d : DynamicAuctionState) (s : StaticAuctionState) : option json :=
  result ← mapM (λ i,
      bidderId ← fromBidderIndexToBidderId s i;
      assignment ← mapM (λ '(j, terId), bidder_assignment d s i j terId)
                     (zip (indices (getTerritoryIds s)) (getTerritoryIds s));
      Some (JObject (int_entry (bs "bidderId") bidderId ++ [(bs "assignment", JArray (concat assignment))])))
    (upto (getBiddersN s));
  Some (JObject [(bs "result", JArray result)]).
