(* ===== verification/SpectrumStorage.v ===== *)
(** * The spectrum auction: storage (demo/chaincode/fpc/storage.cpp, and the functions of
      spectrum-auction.cpp that load and store an auction)

    A string is stored in two private values, its length in decimal and its text, each with
    a terminating NUL.  Auctions are numbered by a counter; the static and the dynamic state
    of an auction are two strings in JSON. *)
From stdpp Require Import base list numbers option strings pretty.
From Stdlib Require Import ZArith Lia.
From S2P Require Import Prelude ParsonText CNum JsonSpec SgxCCLib EnclaveCrypto Ledger Shim Chaincodes.
From S2P Require Import Spectrum SpectrumEval SpectrumJson.
Local Open Scope Z_scope.

(** ** Computations that fail with a report

    The member functions of the auction run on the context and return [false] with a report,
    or go on. *)
Definition CM (W A : Type) : Type := SM W (checked A).
#[global] Instance CM_ret W : MRet (CM W) := λ A a, mret (M := SM W) (Good a).
#[global] Instance CM_bind W : MBind (CM W) := λ A B (k : A → CM W B) (c : CM W A),
  mbind (M := SM W) (λ r, match r with
    | Good a => k a
    | Failed er => mret (M := SM W) (Failed er)
    | Undefined => crash
    end) c.

Section storage.
Context {W : Type} `{SgxCrypto W} `{Implementation} `{Stack}.
Local Abbreviation SM := (SM W).
Local Abbreviation CM := (CM W).

Definition checking {A} (c : checked A) : CM A := λ ctx, mret (M := SM) c ctx.
Definition running {A} (c : SM A) : CM A := mbind (M := SM) (λ a, mret (M := SM) (Good a)) c.
(** What is undefined where it has no value *)
Definition sound {A} (o : option A) : CM A := running (lift o).

(** [std::stoul(s, NULL, 10)] *)
Definition stoul (s : bytes) : SM Z :=
  let s := SKIP_WHITESPACES (cstr s) in
  let '(neg, s) :=
    if decide (hd_c s = "-"%byte) then (true, tail s)
    else if decide (hd_c s = "+"%byte) then (false, tail s) else (false, s) in
  let '(ds, _) := span isdigit s in
  if decide (ds = []) then throw (bs "stoul")
  else if digits_value 10 ds >=? 2 ^ 64 then throw (bs "stoul")
  else mret (if neg : bool then (- digits_value 10 ds) mod 2 ^ 64 else digits_value 10 ds).

(** ** storage.cpp *)

Definition MAX_LENGTH_STRING_SIZE : Z := 10.

Definition ledgerPrivatePutBinary (key value : bytes) : SM unit := put_state (cstr key) value.
Definition ledgerPublicPutBinary (key value : bytes) : SM unit := put_public_state (cstr key) value.
(** The bytes read into a buffer of [valueLength] bytes *)
Definition ledgerPrivateGetBinary (key : bytes) (valueLength : Z) : SM bytes := get_state (cstr key) valueLength.

(** The two binary values that [put] writes *)
Definition put_string (put : bytes → bytes → SM unit) (key value : bytes) : SM unit :=
  let valueLength := wrap32 (Z.of_nat (length value) + 1) in
  let valueLengthString := show_int valueLength in
  if (size valueLengthString =? 0) || (size valueLengthString >? MAX_LENGTH_STRING_SIZE) then mret ()
  else
    put (key ++ bs "L") (valueLengthString ++ [x00]);;
    put (key ++ bs "K") (take (Z.to_nat valueLength) (value ++ [x00])).
Definition ledgerPrivatePutString (key value : bytes) : SM unit := put_string ledgerPrivatePutBinary key value.
Definition ledgerPublicPutString (key value : bytes) : SM unit := put_string ledgerPublicPutBinary key value.

(** The string, or the empty string in which nothing was stored.  The value is read into
    an array on the stack, which is taken to be large enough; an array of no elements is
    undefined. *)
Definition ledgerPrivateGetString (key : bytes) : SM bytes :=
  valueLengthArray ← ledgerPrivateGetBinary (key ++ bs "L") (MAX_LENGTH_STRING_SIZE + 1);
  let actualValueLengthLength := size valueLengthArray in
  if actualValueLengthLength =? 0 then mret []
  else if actualValueLengthLength >? MAX_LENGTH_STRING_SIZE then mret []
  else if negb (bool_decide (last valueLengthArray = Some x00)) then mret []
  else
    n ← stoul (cstr valueLengthArray);
    let storedValueLength := wrap32 n in
    if storedValueLength =? 0 then crash
    else
      valueBinary ← ledgerPrivateGetBinary (key ++ bs "K") storedValueLength;
      if negb (size valueBinary =? storedValueLength) then mret []
      else if negb (bool_decide (last valueBinary = Some x00)) then mret []
      else mret (cstr valueBinary).

(** ** spectrum-auction.cpp *)

Definition AUCTION_ID_COUNTER_STRING : bytes := bs "AuctionIdCounter".
Definition AUCTION_ID_FIRST_COUNTER_VALUE : Z := 1.

(** Bytes that the read does not fill keep what the member held. *)
Definition InitializeAuctionIdCounter : SM Z :=
  value ← ledgerPrivateGetBinary AUCTION_ID_COUNTER_STRING 4;
  mret (if size value =? 0 then AUCTION_ID_FIRST_COUNTER_VALUE
        else of_little_endian (take 4 (value ++ uninit 4))).
Definition IncrementAndStoreAuctionIdCounter (auctionIdCounter : Z) : SM unit :=
  ledgerPrivatePutBinary AUCTION_ID_COUNTER_STRING (int_bytes (wrap32 (auctionIdCounter + 1))).

Definition auction_key (auctionIdCounter : Z) (suffix : string) : bytes :=
  bs "Auction." ++ show_int auctionIdCounter ++ bs suffix.
Definition json_text (j : json) : bytes := serialize_json false 0 j.

Definition storeAuctionState (auctionIdCounter : Z) (s : StaticAuctionState) (d : DynamicAuctionState) : SM unit :=
  ledgerPrivatePutString (auction_key auctionIdCounter ".staticAuctionState")
    (json_text (StaticAuctionState_toJsonObject s));;
  ledgerPrivatePutString (auction_key auctionIdCounter ".dynamicAuctionState")
    (json_text (DynamicAuctionState_toJsonObject d)).

(** [openJsonObject(text)]: NULL for a text that is no object *)
Definition openJsonObject (text : bytes) : option json :=
  match parse_json (cstr text) with Some (JObject kvs) => Some (JObject kvs) | _ => None end.

(** The static and the dynamic state, the latter in the object [d] of the invocation *)
Definition loadAuctionState (auctionIdCounter : Z) (d : DynamicAuctionState)
    : CM (StaticAuctionState * DynamicAuctionState) :=
  let check line b := checking (FAST_FAIL_CHECK "spectrum-auction.cpp" line EC_INVALID_INPUT b) in
  stateValue ← running (ledgerPrivateGetString (auction_key auctionIdCounter ".staticAuctionState"));
  check 72 (size stateValue =? 0);;
  s ← checking (fromExtendedJsonObject StaticAuctionState_new (openJsonObject stateValue));
  stateValue ← running (ledgerPrivateGetString (auction_key auctionIdCounter ".dynamicAuctionState"));
  check 84 (size stateValue =? 0);;
  d ← checking (DynamicAuctionState_fromJsonObject d (openJsonObject stateValue));
  mret (s, d).
End storage.
