(* ===== verification/SpectrumApi.v ===== *)
(** * The spectrum auction: messages and requests (demo/chaincode/fpc:
      spectrum-auction-message.cpp, spectrum-auction.cpp, dispatcher.cpp, entry.cpp)

    A request names a function and has a JSON text as its parameter.  It reads the number
    of the auction, loads the state, checks the phase and who is asking, changes the state,
    stores it and answers in JSON; a request that fails answers with its report. *)
From stdpp Require Import base list numbers option strings pretty.
From Stdlib Require Import ZArith Lia.
From S2P Require Import Prelude ParsonText CNum JsonSpec SgxCCLib EnclaveCrypto Ledger Shim Chaincodes.
From S2P Require Import Spectrum SpectrumEval SpectrumJson SpectrumStorage.
Local Open Scope Z_scope.

(** ** spectrum-auction-message.cpp *)

Definition toStatusJsonObject (rc : Z) (message : bytes) : json :=
  JObject (int_entry (bs "rc") rc ++ string_entry (bs "message") (cstr message)).
(** The member [status] of a response *)
Definition toWrappedStatusJsonObject (rc : Z) (message : bytes) : list (bytes * json) :=
  [(bs "status", toStatusJsonObject rc message)].
(** A response with a status, and one with a [response] too *)
Definition status_text (rc : Z) (message : bytes) : bytes :=
  json_text (JObject (toWrappedStatusJsonObject rc message)).
Definition response_text (rc : Z) (message : bytes) (response : json) : bytes :=
  json_text (JObject (toWrappedStatusJsonObject rc message ++ [(bs "response", response)])).

Definition toCreateAuctionJson (rc : Z) (message : bytes) (auctionId : Z) : bytes :=
  response_text rc message (JObject (int_entry (bs "auctionId") auctionId)).
Definition toGetAuctionDetailsJson (rc : Z) (message : bytes) (s : StaticAuctionState) : bytes :=
  response_text rc message (StaticAuctionState_toJsonObject s).
Definition toGetAuctionStatusJson (rc : Z) (message : bytes) (d : DynamicAuctionState) : bytes :=
  response_text rc message (DynamicAuctionState_toJsonObject d).
Definition toStartNextRoundJson (rc : Z) (message : bytes) : bytes := status_text rc message.
Definition toEndRoundJson (rc : Z) (message : bytes) : bytes := status_text rc message.
Definition toSubmitClockBidJson (rc : Z) (message : bytes) : bytes := status_text rc message.
Definition toGetRoundInfoJson (rc : Z) (message : bytes) (s : StaticAuctionState) (d : DynamicAuctionState)
    (requestedRound : Z) : option bytes :=
  r ← toRoundInfoJsonObject d s requestedRound; Some (response_text rc message r).
Definition toGetBidderRoundResultsJson (rc : Z) (message : bytes) (s : StaticAuctionState)
    (d : DynamicAuctionState) (requestedRound : Z) : option bytes :=
  r ← toBidderRoundResultsJsonObject d s requestedRound; Some (response_text rc message r).
Definition toGetOwnerRoundResultsJson (rc : Z) (message : bytes) (s : StaticAuctionState)
    (d : DynamicAuctionState) (requestedRound : Z) : option bytes :=
  r ← toOwnerRoundResultsJsonObject d s requestedRound; Some (response_text rc message r).
Definition toGetAssignmentResultsJson (rc : Z) (message : bytes) (s : StaticAuctionState)
    (d : DynamicAuctionState) : option bytes :=
  r ← toAssignmentResultsJsonObject d s; Some (response_text rc message r).
Definition toPublishAssignmentResultsJson (rc : Z) (message : bytes) : bytes := status_text rc message.

(** [auctionId = json_object_get_number(root_object, "auctionId")], and the round *)
Definition uint32_member (root : option json) (k : string) : option Z :=
  uint32_of_double (as_number (member root (bs k))).
(** The auction that a request names, and whether it names one *)
Definition fromAuctionIdJson (input : bytes) : option (Z * bool) :=
  let root := openJsonObject input in
  auctionId ← uint32_member root "auctionId";
  Some (auctionId, negb (auctionId =? 0)).
Definition fromGetAuctionDetailsJson (input : bytes) : option (Z * bool) := fromAuctionIdJson input.
Definition fromGetAuctionStatusJson (input : bytes) : option (Z * bool) := fromAuctionIdJson input.
Definition fromStartNextRoundJson (input : bytes) : option (Z * bool) := fromAuctionIdJson input.
Definition fromEndRoundJson (input : bytes) : option (Z * bool) := fromAuctionIdJson input.
Definition fromGetAssignmentResultsJson (input : bytes) : option (Z * bool) := fromAuctionIdJson input.
Definition fromPublishAssignmentResultsJson (input : bytes) : option (Z * bool) := fromAuctionIdJson input.
(** The auction and the round *)
Definition fromRoundJson (input : bytes) : option (Z * Z * bool) :=
  let root := openJsonObject input in
  auctionId ← uint32_member root "auctionId";
  requestedRound ← uint32_member root "round";
  Some (auctionId, requestedRound, negb (auctionId =? 0) && negb (requestedRound =? 0)).
Definition fromGetRoundInfoJson (input : bytes) : option (Z * Z * bool) := fromRoundJson input.
Definition fromGetBidderRoundResultsJson (input : bytes) : option (Z * Z * bool) := fromRoundJson input.
Definition fromGetOwnerRoundResultsJson (input : bytes) : option (Z * Z * bool) := fromRoundJson input.

Section api.
Context {W : Type} `{SgxCrypto W} `{Implementation} `{Stack}.
Local Abbreviation SM := (SM W).
Local Abbreviation CM := (CM W).
Local Abbreviation check line code b := (checking (FAST_FAIL_CHECK "spectrum-auction.cpp" line code b)).

Definition fromCreateAuctionJson (s : StaticAuctionState) (input : bytes) : checked StaticAuctionState :=
  StaticAuctionState_fromJsonObject s (openJsonObject input).
Definition fromSubmitClockBidJson (input : bytes) : checked Bid :=
  Bid_fromJsonObject (openJsonObject input).

(** ** spectrum-auction.cpp

    Each request gets the [dynamicAuctionState_] of a new [SpectrumAuction] and its
    parameter, and returns the response; on success the report is [EC_SUCCESS]. *)

Definition createAuction (d : DynamicAuctionState) (inputString : bytes) : CM bytes :=
  s ← checking (fromCreateAuctionJson StaticAuctionState_new inputString);
  checking (checkValidity s);;
  auctionId ← running InitializeAuctionIdCounter;
  running (IncrementAndStoreAuctionIdCounter auctionId);;
  '(s, d) ← sound (initialize CLOCK_PHASE 1 false s d);
  running (storeAuctionState auctionId s d);;
  mret (toCreateAuctionJson 0 (bs "Auction created") auctionId).

Definition getAuctionDetails (d : DynamicAuctionState) (inputString : bytes) : CM bytes :=
  '(auctionId, ok) ← sound (fromGetAuctionDetailsJson inputString);
  check 130 EC_INVALID_INPUT (negb ok);;
  '(s, d) ← loadAuctionState auctionId d;
  mret (toGetAuctionDetailsJson 0 (bs "Auction details") s).

Definition getAuctionStatus (d : DynamicAuctionState) (inputString : bytes) : CM bytes :=
  '(auctionId, ok) ← sound (fromGetAuctionStatusJson inputString);
  check 147 EC_INVALID_INPUT (negb ok);;
  '(s, d) ← loadAuctionState auctionId d;
  mret (toGetAuctionStatusJson 0 (bs "Auction status") d).

Definition startNextRound (d : DynamicAuctionState) (inputString : bytes) : CM bytes :=
  '(auctionId, ok) ← sound (fromStartNextRoundJson inputString);
  check 164 EC_INVALID_INPUT (negb ok);;
  '(s, d) ← loadAuctionState auctionId d;
  check 166 EC_ROUND_ACTIVE (roundActive_ d);;
  check 167 EC_RESTRICTED_AUCTION_STATE (negb (isStateClockPhase d) && negb (isStateAssignmentPhase d));;
  check 172 EC_UNRECOGNIZED_SUBMITTER (negb (isValidOwner s d));;
  d ← sound (startRound s d);
  running (storeAuctionState auctionId s d);;
  mret (toStartNextRoundJson 0 (bs "Start next round")).

Definition endRoundRequest (fuel : nat) (d : DynamicAuctionState) (inputString : bytes) : CM bytes :=
  '(auctionId, ok) ← sound (fromEndRoundJson inputString);
  check 192 EC_INVALID_INPUT (negb ok);;
  '(s, d) ← loadAuctionState auctionId d;
  check 194 EC_ROUND_NOT_ACTIVE (negb (roundActive_ d));;
  check 195 EC_RESTRICTED_AUCTION_STATE (negb (isStateClockPhase d) && negb (isStateAssignmentPhase d));;
  check 200 EC_UNRECOGNIZED_SUBMITTER (negb (isValidOwner s d));;
  d ← (closeRound fuel s auctionId d : CM DynamicAuctionState);
  running (storeAuctionState auctionId s d);;
  mret (toEndRoundJson 0 (bs "End round")).

Definition submitClockBid (d : DynamicAuctionState) (inputString : bytes) : CM bytes :=
  submittedBid ← checking (fromSubmitClockBidJson inputString);
  let auctionId := auctionId_ submittedBid in
  '(s, d) ← loadAuctionState auctionId d;
  check 248 EC_NOT_IN_CLOCK_PHASE (negb (isStateClockPhase d));;
  check 251 EC_UNRECOGNIZED_SUBMITTER (negb (isValidBidder s d));;
  checking (isValidBid s d submittedBid);;
  d ← sound (storeBid s submittedBid d);
  running (storeAuctionState auctionId s d);;
  mret (toSubmitClockBidJson 0 (bs "Submit clock bid")).

(** The clock, assignment or closed phase *)
Definition in_phase (d : DynamicAuctionState) : bool :=
  isStateClockPhase d || isStateAssignmentPhase d || isStateClosedPhase d.

Definition getRoundInfo (d : DynamicAuctionState) (inputString : bytes) : CM bytes :=
  '(auctionId, requestedRound, ok) ← sound (fromGetRoundInfoJson inputString);
  check 276 EC_INVALID_INPUT (negb ok);;
  '(s, d) ← loadAuctionState auctionId d;
  check 279 EC_INVALID_INPUT (negb (in_phase d));;
  check 283 EC_INVALID_INPUT (requestedRound >? clockRound_ d);;
  sound (toGetRoundInfoJson 0 (bs "Get round info") s d requestedRound).

Definition getBidderRoundResults (d : DynamicAuctionState) (inputString : bytes) : CM bytes :=
  '(auctionId, requestedRound, ok) ← sound (fromGetBidderRoundResultsJson inputString);
  check 304 EC_INVALID_INPUT (negb ok);;
  '(s, d) ← loadAuctionState auctionId d;
  check 307 EC_INVALID_INPUT (negb (in_phase d));;
  check 311 EC_INVALID_INPUT (isStateClockPhase d && (requestedRound >=? clockRound_ d));;
  check 316 EC_UNRECOGNIZED_SUBMITTER (negb (isValidBidder s d));;
  sound (toGetBidderRoundResultsJson 0 (bs "Get bidder round results") s d requestedRound).

Definition getOwnerRoundResults (d : DynamicAuctionState) (inputString : bytes) : CM bytes :=
  '(auctionId, requestedRound, ok) ← sound (fromGetOwnerRoundResultsJson inputString);
  check 336 EC_INVALID_INPUT (negb ok);;
  '(s, d) ← loadAuctionState auctionId d;
  check 341 EC_UNRECOGNIZED_SUBMITTER (negb (isValidOwner s d));;
  check 344 EC_INVALID_INPUT (negb (in_phase d));;
  check 348 EC_INVALID_INPUT (isStateClockPhase d && (requestedRound >=? clockRound_ d));;
  sound (toGetOwnerRoundResultsJson 0 (bs "Get owner round results") s d requestedRound).

Definition submitAssignmentBid (d : DynamicAuctionState) (inputString : bytes) : CM bytes :=
  check 366 EC_UNIMPLEMENTED_API true;; mret [].

Definition getAssignmentResults (d : DynamicAuctionState) (inputString : bytes) : CM bytes :=
  '(auctionId, ok) ← sound (fromGetAssignmentResultsJson inputString);
  check 373 EC_INVALID_INPUT (negb ok);;
  '(s, d) ← loadAuctionState auctionId d;
  check 376 EC_INVALID_INPUT (negb (isStateClosedPhase d));;
  sound (toGetAssignmentResultsJson 0 (bs "Get assignment results") s d).

Definition publishAssignmentResults (d : DynamicAuctionState) (inputString : bytes) : CM bytes :=
  '(auctionId, ok) ← sound (fromPublishAssignmentResultsJson inputString);
  check 394 EC_INVALID_INPUT (negb ok);;
  '(s, d) ← loadAuctionState auctionId d;
  check 398 EC_INVALID_INPUT (negb (isStateClosedPhase d));;
  r ← sound (toAssignmentResultsJsonObject d s);
  running (ledgerPublicPutString (auction_key auctionId ".publicResults") (json_text r));;
  mret (toPublishAssignmentResultsJson 0 (bs "Publish assignment results")).

(** ** error-codes.cpp, dispatcher.cpp *)

Definition toWrappedStatusJsonString (er : ErrorReport) : bytes :=
  status_text (error_code (ec_ er)).2 (errorString_ er).

Definition identifySubmitter : SM Principal :=
  '(mspId, dn) ← get_creator_name (2 ^ 12) (2 ^ 12);
  mret (mkPrincipal (cstr mspId) (cstr dn)).

(** [fMap_.find(functionName_)] *)
Definition api_function (fuel : nat) (functionName : bytes) : option (DynamicAuctionState → bytes → CM bytes) :=
  let fMap : list (string * (DynamicAuctionState → bytes → CM bytes)) :=
    [("createAuction", createAuction); ("getAuctionDetails", getAuctionDetails);
     ("getAuctionStatus", getAuctionStatus); ("startNextRound", startNextRound);
     ("endRound", endRoundRequest fuel); ("submitClockBid", submitClockBid);
     ("getRoundInfo", getRoundInfo); ("getBidderRoundResults", getBidderRoundResults);
     ("getOwnerRoundResults", getOwnerRoundResults); ("submitAssignmentBid", submitAssignmentBid);
     ("getAssignmentResults", getAssignmentResults);
     ("publishAssignmentResults", publishAssignmentResults)] in
  snd <$> head (filter (λ e, bs e.1 = functionName) fMap).

(** The report and the bytes written to the response buffer *)
Definition prepare_response (max_response_len : Z) (r : checked bytes) : SM (ErrorReport * bytes) :=
  '(er, response) ← match r with
    | Good response => mret (mkErrorReport EC_SUCCESS [], response)
    | Failed er => mret (er, [])
    | Undefined => crash
    end;
  let response :=
    if (size response =? 0) || negb (isSuccess er) then toWrappedStatusJsonString er else response in
  let '(er, response) :=
    if size response >? max_response_len then
      let er := CUSTOM_ERROR_REPORT EC_SHORT_RESPONSE_BUFFER (bs "Response string too long to be output") in
      (er, toWrappedStatusJsonString er)
    else (er, response) in
  mret (er, if size response >? max_response_len then [] else response).
Definition Dispatcher (fuel : nat) (functionName : bytes) (functionParameters : list bytes)
    (max_response_len : Z) : SM (ErrorReport * bytes) :=
  submitter ← identifySubmitter;
  r ← match api_function fuel functionName with
    | None => mret (Failed (CUSTOM_ERROR_REPORT EC_BAD_FUNCTION_NAME (bs "Auction API not found")))
    | Some f => inputString ← vector_at functionParameters 0; (f (fresh submitter) inputString : SM (checked bytes))
    end;
  prepare_response max_response_len r.

(** ** entry.cpp *)

Definition invoke (fuel : nat) (max_response_len : Z) : SM (Z * bytes) :=
  '(_, functionName, functionParameters) ← get_func_and_params;
  '(er, response) ← Dispatcher fuel functionName functionParameters max_response_len;
  let ret := if negb (isSuccess er) then -1 else 0 in
  mret (if size response =? 0 then -1 else ret, response).
End api.
