(* ===== verification/SpectrumProof.v ===== *)
(** * The spectrum auction: the queue of bids

    The loop of [processRegularRoundBids] ends, keeps the account of licences, excess
    demand and eligibility, and leaves no bid that could still be applied. *)
From stdpp Require Import base list numbers option strings sorting sets.
From Stdlib Require Import ZArith Lia.
From S2P Require Import Prelude ParsonText CNum JsonSpec SgxCCLib EnclaveCrypto Shim Chaincodes Spectrum SpectrumEval.
Local Open Scope Z_scope.

(** ** Sums *)

Definition Zsum (l : list Z) : Z := foldr Z.add 0 l.
(** The sum of column [t] of a matrix *)
Definition colsum (t : nat) (m : list (list Z)) : Z := Zsum ((λ row, row !!! t) <$> m).

Lemma Zsum_app l k : Zsum (l ++ k) = Zsum l + Zsum k.
Proof. induction l as [|x l IH]; simpl; [done|]. rewrite IH. lia. Qed.
Lemma Zsum_insert l i x : (i < length l)%nat → Zsum (<[i := x]> l) = Zsum l - l !!! i + x.
Proof.
  revert i. induction l as [|y l IH]; intros [|i] Hi; simpl in *; try lia.
  rewrite IH; [|lia]. lia.
Qed.
Lemma Zsum_nonneg l : Forall (Z.le 0) l → 0 ≤ Zsum l.
Proof. induction 1; simpl; lia. Qed.
Lemma Zsum_elem l i : Forall (Z.le 0) l → (i < length l)%nat → l !!! i ≤ Zsum l.
Proof.
  intros Hl. revert i. induction Hl as [|x l Hx Hl IH]; intros [|i] Hi; simpl in *; try lia.
  - pose proof (Zsum_nonneg l Hl). lia.
  - specialize (IH i ltac:(lia)). lia.
Qed.

(** A sum of [uint32_t] that fits is the sum. *)
Lemma sum32_fold l a : Forall (Z.le 0) l → 0 ≤ a → a + Zsum l < 2 ^ 32 →
  foldl (λ a x, wrap32 (a + x)) a l = a + Zsum l.
Proof.
  intros Hl. revert a. induction Hl as [|x l Hx Hl IH]; intros a Ha Hs; simpl in *; [lia|].
  pose proof (Zsum_nonneg l Hl). unfold wrap32 at 2. rewrite Z.mod_small by lia. rewrite IH by lia. lia.
Qed.
Lemma sum32_exact l : Forall (Z.le 0) l → Zsum l < 2 ^ 32 → sum32 l = Zsum l.
Proof. intros Hl Hs. unfold sum32. rewrite sum32_fold; [done|done|lia|lia]. Qed.

(** ** Vectors *)

#[global] Instance double_inhabited : Inhabited double := populate (S754_zero false).

Lemma at_nat {A} (l : list A) (i : nat) : at_ l (Z.of_nat i) = l !! i.
Proof. unfold at_. rewrite (proj2 (Z.ltb_ge _ _)) by lia. by rewrite Nat2Z.id. Qed.
Lemma at_some {A} `{Inhabited A} (l : list A) (i : nat) : (i < length l)%nat → at_ l (Z.of_nat i) = Some (l !!! i).
Proof. intros Hi. rewrite at_nat. by apply list_lookup_lookup_total_lt. Qed.
Lemma upd_nat {A} (l : list A) (i : nat) x : (i < length l)%nat → upd l (Z.of_nat i) x = Some (<[i := x]> l).
Proof.
  intros Hi. unfold upd. rewrite at_nat, Nat2Z.id. destruct (lookup_lt_is_Some_2 l i Hi) as [y ->]. done.
Qed.

(** Entries of a matrix *)
Definition entry (m : list (list Z)) (b t : nat) : Z := m !!! b !!! t.
Definition set_entry (m : list (list Z)) (b t : nat) (x : Z) : list (list Z) :=
  <[b := <[t := x]> (m !!! b)]> m.

Section matrix.
Context (m : list (list Z)) (b t : nat) (Hb : (b < length m)%nat) (Ht : (t < length (m !!! b))%nat).

Lemma at2_entry : at2 m (Z.of_nat b) (Z.of_nat t) = Some (entry m b t).
Proof. unfold at2. rewrite (at_some m b Hb). simpl. by rewrite at_some. Qed.
Lemma upd2_entry x : upd2 m (Z.of_nat b) (Z.of_nat t) x = Some (set_entry m b t x).
Proof. unfold upd2. rewrite (at_some m b Hb). simpl. rewrite upd_nat by done. simpl. by rewrite upd_nat. Qed.
Lemma length_set_entry x : length (set_entry m b t x) = length m.
Proof. apply length_insert. Qed.
Lemma set_entry_row x b' : set_entry m b t x !!! b' = if decide (b' = b) then <[t := x]> (m !!! b) else m !!! b'.
Proof.
  unfold set_entry. case_decide as E; [subst; by apply list_lookup_total_insert_eq|].
  by apply list_lookup_total_insert_ne.
Qed.
Lemma entry_set x b' t' : entry (set_entry m b t x) b' t' = if decide (b' = b ∧ t' = t) then x else entry m b' t'.
Proof.
  unfold entry. rewrite set_entry_row. destruct (decide (b' = b)) as [->|Hn].
  - destruct (decide (t' = t)) as [->|Hn].
    + rewrite decide_True by done. by apply list_lookup_total_insert_eq.
    + rewrite decide_False by tauto. by apply list_lookup_total_insert_ne.
  - by rewrite decide_False by tauto.
Qed.
Lemma rowsum_set x b' : Zsum (set_entry m b t x !!! b') =
  Zsum (m !!! b') + if decide (b' = b) then x - entry m b t else 0.
Proof.
  rewrite set_entry_row. case_decide as E; [subst|lia]. rewrite Zsum_insert by done. unfold entry. lia.
Qed.
Lemma colsum_set x t' : colsum t' (set_entry m b t x) =
  colsum t' m + if decide (t' = t) then x - entry m b t else 0.
Proof.
  unfold colsum, set_entry. rewrite list_fmap_insert, Zsum_insert by (by rewrite length_fmap).
  rewrite (list_lookup_total_alt ((λ row, row !!! t') <$> m)), list_lookup_fmap.
  rewrite (list_lookup_lookup_total_lt m b Hb). simpl.
  case_decide as E; [subst|].
  - rewrite list_lookup_total_insert_eq by done. unfold entry. lia.
  - rewrite list_lookup_total_insert_ne by done. lia.
Qed.
End matrix.

Lemma colsum_nonneg t m : Forall (Forall (Z.le 0)) m → 0 ≤ colsum t m.
Proof.
  intros Hm. apply Zsum_nonneg. apply Forall_fmap. eapply Forall_impl; [exact Hm|]. intros row Hr. simpl.
  destruct (decide (t < length row)%nat) as [Ht|Ht].
  - rewrite Forall_forall in Hr. apply Hr, list_elem_of_lookup. exists t. by apply list_lookup_lookup_total_lt.
  - rewrite list_lookup_total_alt, lookup_ge_None_2 by lia. done.
Qed.
Lemma entry_le_colsum m b t : Forall (Forall (Z.le 0)) m → (b < length m)%nat → entry m b t ≤ colsum t m.
Proof.
  intros Hm Hb. unfold colsum, entry.
  replace (m !!! b !!! t) with (((λ row : list Z, row !!! t) <$> m) !!! b).
  - apply Zsum_elem; [|by rewrite length_fmap]. apply Forall_fmap. eapply Forall_impl; [exact Hm|].
    intros row Hr. simpl. pose proof (colsum_nonneg t [row] ltac:(by constructor)) as H. unfold colsum in H. simpl in H. lia.
  - rewrite (list_lookup_total_alt (_ <$> m)), list_lookup_fmap, (list_lookup_lookup_total_lt m b Hb). done.
Qed.
(** A column is part of the matrix. *)
Lemma colsum_le_total t m : Forall (Forall (Z.le 0)) m → Forall (λ row, (t < length row)%nat) m →
  colsum t m ≤ Zsum (Zsum <$> m).
Proof.
  induction 1 as [|row m Hr Hm IH]; inversion_clear 1 as [|?? Ht Hts]; [done|].
  change (row !!! t + colsum t m ≤ Zsum row + Zsum (Zsum <$> m)).
  pose proof (Zsum_elem row t Hr Ht). specialize (IH Hts). lia.
Qed.
Lemma Zsum_le l k : length l = length k → (∀ i, (i < length l)%nat → l !!! i ≤ k !!! i) → Zsum l ≤ Zsum k.
Proof.
  revert k. induction l as [|x l IH]; intros [|y k] Hlen Hle; simpl in *; try lia.
  pose proof (Hle 0%nat ltac:(lia)) as H0. simpl in H0.
  specialize (IH k ltac:(lia) (λ i Hi, Hle (S i) ltac:(lia))). lia.
Qed.
Lemma lookup_total_Forall {A} `{Inhabited A} (P : A → Prop) l i : Forall P l → (i < length l)%nat → P (l !!! i).
Proof. intros HP Hi. eapply Forall_lookup_1; [exact HP|]. by apply list_lookup_lookup_total_lt. Qed.

(** ** The account

    [elig] is the eligibility of the bidders in the round, [supply] the number of channels
    of the territories. *)
Section account.
Context (elig supply : list Z) (clock : list double).

(** What is left of a bidder's eligibility is what its licences do not use, and the
    excess demand of a territory is the licences held there beyond its supply. *)
Record account (p : progress) : Prop := {
  acc_rows : length (licenses p) = length elig;
  acc_cols : Forall (λ row, length row = length supply) (licenses p);
  acc_nonneg : Forall (Forall (Z.le 0)) (licenses p);
  acc_caps : length (eligibilityCap p) = length elig;
  acc_excs : length (excess p) = length supply;
  acc_posted : length (posted p) = length supply;
  acc_cap b : (b < length elig)%nat →
    eligibilityCap p !!! b = elig !!! b - Zsum (licenses p !!! b) ∧ 0 ≤ eligibilityCap p !!! b;
  acc_excess t : (t < length supply)%nat → excess p !!! t = colsum t (licenses p) - supply !!! t }.

(** The sizes for which the arithmetic of the loop does not wrap around *)
Record sizes_ok : Prop := {
  size_elig : Forall (Z.le 0) elig;
  size_total : Zsum elig < 2 ^ 31;
  size_supply : Forall (λ s, 0 ≤ s < 2 ^ 31) supply;
  size_clock : length clock = length supply }.

(** A bid of the queue: its bidder, territory and quantity exist. *)
Definition bidder_of (e : enqueuedBid) : nat := Z.to_nat (bidderIndex e).
Definition territory_of (e : enqueuedBid) : nat := Z.to_nat (territoryIndex e).
Record in_range (e : enqueuedBid) : Prop := {
  range_bidder : 0 ≤ bidderIndex e < Z.of_nat (length elig);
  range_territory : 0 ≤ territoryIndex e < Z.of_nat (length supply);
  range_quantity : 0 ≤ quantity_ (demand e) < 2 ^ 32 }.
Definition owned (p : progress) (e : enqueuedBid) : Z := entry (licenses p) (bidder_of e) (territory_of e).

(** A bid that cannot be applied: no eligibility for more, or no excess demand to give
    licences back. *)
Definition blocked (p : progress) (e : enqueuedBid) : Prop :=
  (owned p e < quantity_ (demand e) ∧ eligibilityCap p !!! bidder_of e = 0) ∨
  (quantity_ (demand e) ≤ owned p e ∧ excess p !!! territory_of e ≤ 0).

(** The bidder of [e] holds [x] licences in the territory of [e]. *)
Definition move (p : progress) (e : enqueuedBid) (x : Z) (prices : list double) : progress :=
  let b := bidder_of e in let t := territory_of e in
  mkProgress (set_entry (licenses p) b t x) (<[t := excess p !!! t + (x - owned p e)]> (excess p)) prices
    (<[b := eligibilityCap p !!! b - (x - owned p e)]> (eligibilityCap p)).

Lemma in_range_nat e : in_range e → bidderIndex e = Z.of_nat (bidder_of e) ∧
  territoryIndex e = Z.of_nat (territory_of e) ∧
  (bidder_of e < length elig)%nat ∧ (territory_of e < length supply)%nat.
Proof. intros [Hb Ht _]. unfold bidder_of, territory_of. lia. Qed.

Section with_account.
Context (p : progress) (Hp : account p).
Lemma account_row b : (b < length elig)%nat → length (licenses p !!! b) = length supply.
Proof.
  intros Hb. apply (lookup_total_Forall (λ row, length row = length supply)); [apply Hp|]. by rewrite (acc_rows _ Hp).
Qed.
Lemma account_bounds b : (b < length elig)%nat → Forall (Z.le 0) (licenses p !!! b) ∧
  Zsum (licenses p !!! b) ≤ elig !!! b.
Proof.
  intros Hb. split.
  - apply (lookup_total_Forall (Forall (Z.le 0))); [apply Hp|]. by rewrite (acc_rows _ Hp).
  - destruct (acc_cap _ Hp b Hb). lia.
Qed.
Lemma account_colsum t : (t < length supply)%nat → 0 ≤ colsum t (licenses p) ≤ Zsum elig.
Proof.
  intros Ht. split; [by apply colsum_nonneg, Hp|].
  etrans; [apply colsum_le_total; [apply Hp|]|].
  - eapply Forall_impl; [apply (acc_cols _ Hp)|]. simpl. intros row ->. done.
  - apply Zsum_le; rewrite length_fmap; [by apply acc_rows|]. intros i Hi. rewrite (acc_rows _ Hp) in Hi.
    rewrite (list_lookup_total_alt (Zsum <$> _)), list_lookup_fmap, list_lookup_lookup_total_lt by (by rewrite (acc_rows _ Hp)).
    apply account_bounds, Hi.
Qed.

(** Moving licences keeps the account, if the bidder has the eligibility. *)
Lemma account_move e x prices : in_range e → 0 ≤ x → x - owned p e ≤ eligibilityCap p !!! bidder_of e →
  length prices = length supply → account (move p e x prices).
Proof.
  intros He Hx Hcap Hprices. destruct (in_range_nat e He) as (_ & _ & Hb & Ht).
  pose proof (acc_rows _ Hp) as Hrows. pose proof (account_row _ Hb) as Hrow.
  constructor; simpl; rewrite ?length_set_entry, ?length_insert; try apply Hp; [| |done| |].
  - apply Forall_insert; [apply Hp|]. by rewrite length_insert.
  - apply Forall_insert; [apply Hp|]. apply Forall_insert; [|done]. by apply account_bounds.
  - intros b Hb'. rewrite rowsum_set by (rewrite ?Hrow, ?Hrows; done).
    destruct (acc_cap _ Hp b Hb') as [E E']. destruct (decide (b = bidder_of e)) as [->|Hn].
    + rewrite list_lookup_total_insert_eq by (by rewrite (acc_caps _ Hp)). unfold owned in *. lia.
    + rewrite list_lookup_total_insert_ne by done. lia.
  - intros t Ht'. rewrite colsum_set by (rewrite ?Hrow, ?Hrows; done).
    pose proof (acc_excess _ Hp t Ht') as E. destruct (decide (t = territory_of e)) as [->|Hn].
    + rewrite list_lookup_total_insert_eq by (by rewrite (acc_excs _ Hp)). unfold owned. lia.
    + rewrite list_lookup_total_insert_ne by done. lia.
Qed.
End with_account.

(** What applying a bid does: it raises the licences of the bidder towards the demand as
    far as its eligibility allows, or lowers them as far as there is excess demand. *)
Definition effect (p : progress) (e : enqueuedBid) (x : Z) : Prop :=
  let q := quantity_ (demand e) in
  let cap := eligibilityCap p !!! bidder_of e in
  let ex := excess p !!! territory_of e in
  (owned p e < x ≤ q ∧ x - owned p e ≤ cap ∧ (x = q ∨ x - owned p e = cap)) ∨
  (q ≤ x ≤ owned p e ∧ 0 < ex ∧ owned p e - x ≤ ex ∧ (x = q ∨ owned p e - x = ex)).

Section step.
Context (Hsizes : sizes_ok) (p : progress) (Hp : account p) (e : enqueuedBid) (He : in_range e).

Lemma owned_range : 0 ≤ owned p e < 2 ^ 31.
Proof.
  destruct (in_range_nat e He) as (_ & _ & Hb & Ht). unfold owned. split.
  - apply (lookup_total_Forall (Z.le 0)); [by apply account_bounds|]. by rewrite account_row.
  - pose proof (entry_le_colsum (licenses p) (bidder_of e) (territory_of e) (acc_nonneg _ Hp)) as H.
    rewrite (acc_rows _ Hp) in H. specialize (H Hb). pose proof (account_colsum p Hp _ Ht).
    pose proof (size_total Hsizes). lia.
Qed.
Lemma cap_range : 0 ≤ eligibilityCap p !!! bidder_of e ∧
  eligibilityCap p !!! bidder_of e + owned p e < 2 ^ 31.
Proof.
  destruct (in_range_nat e He) as (_ & _ & Hb & Ht). destruct (acc_cap _ Hp _ Hb) as [E E0].
  destruct (account_bounds p Hp _ Hb) as [Hn _].
  pose proof (Zsum_elem _ (territory_of e) Hn ltac:(by rewrite account_row)) as Hle.
  pose proof (Zsum_elem elig (bidder_of e) (size_elig Hsizes) Hb). pose proof (size_total Hsizes).
  unfold owned, entry. lia.
Qed.
Lemma excess_range : - 2 ^ 31 < excess p !!! territory_of e ∧
  excess p !!! territory_of e + eligibilityCap p !!! bidder_of e < 2 ^ 31.
Proof.
  destruct (in_range_nat e He) as (_ & _ & Hb & Ht). rewrite (acc_excess _ Hp _ Ht).
  pose proof (account_colsum p Hp _ Ht).
  pose proof (lookup_total_Forall _ _ _ (size_supply Hsizes) Ht) as Hs. simpl in Hs. split; [lia|].
  (* all the eligibility of the bidder used in the territory is still below the total *)
  pose (q := move p e (owned p e + eligibilityCap p !!! bidder_of e) (posted p)).
  destruct cap_range as [Hc _]. destruct owned_range as [Ho _].
  assert (Hq : account q) by (apply account_move; [done..|lia| |apply Hp]; lia).
  pose proof (account_colsum q Hq _ Ht) as Hcol. unfold q in Hcol. simpl in Hcol.
  rewrite colsum_set in Hcol by (rewrite ?(acc_rows _ Hp), ?account_row; done).
  rewrite decide_True in Hcol by done. unfold owned in Hcol. pose proof (size_total Hsizes). lia.
Qed.

Lemma processBid_spec :
  (processBid clock p e = Some Skipped ∧ blocked p e) ∨
  (∃ x prices full, processBid clock p e = Some (Applied (move p e x prices) full) ∧
     length prices = length supply ∧ effect p e x ∧ (full = true ↔ x = quantity_ (demand e))).
Proof.
  destruct (in_range_nat e He) as (Eb & Et & Hb & Ht). destruct (range_quantity _ He) as [Hq0 Hq1].
  pose proof owned_range as Ho. pose proof cap_range as Hc. pose proof excess_range as Hx.
  unfold processBid, effect, blocked. rewrite Eb, Et.
  assert (Hrow : (territory_of e < length (licenses p !!! bidder_of e))%nat) by (by rewrite account_row).
  assert (Hrows : (bidder_of e < length (licenses p))%nat) by (by rewrite (acc_rows _ Hp)).
  rewrite at2_entry by done. rewrite (at_some (eligibilityCap p)) by (by rewrite (acc_caps _ Hp)).
  rewrite (at_some (excess p)) by (by rewrite (acc_excs _ Hp)). simpl.
  fold (owned p e). set (q := quantity_ (demand e)) in *. set (o := owned p e) in *.
  set (cap := eligibilityCap p !!! bidder_of e) in *. set (ex := excess p !!! territory_of e) in *.
  rewrite Z.gtb_ltb. destruct (Z.ltb_spec o q) as [Hlt|Hge].
  - destruct (Z.eqb_spec cap 0) as [Hz|Hz]; [left; split; [done|]; left; done|]. right.
    rewrite (wrap32_exact (q - o)) by lia.
    set (d := if q - o <=? cap then q - o else cap).
    assert (Hd : 0 < d ≤ q - o ∧ d ≤ cap ∧ (d = q - o ∨ d = cap)) by (unfold d; destruct (Z.leb_spec (q - o) cap); lia).
    rewrite (wrap32_exact (o + d)), (wrap32_exact (cap - d)), (to_int32_exact (ex + d)) by lia.
    rewrite upd2_entry by done. simpl. rewrite (at_some clock) by (by rewrite (size_clock Hsizes)). simpl.
    rewrite !upd_nat by (rewrite ?(acc_caps _ Hp), ?(acc_excs _ Hp), ?(acc_posted _ Hp); done). simpl.
    exists (o + d), (if wrap32 (ex + d - d) =? 0 then <[territory_of e := clock !!! territory_of e]> (posted p) else posted p), (d =? q - o).
    split; [|split; [|split; [left; lia|rewrite Z.eqb_eq; lia]]].
    + unfold move. fold o cap ex. replace (o + d - o) with d by lia. case_match; reflexivity.
    + case_match; simpl; rewrite ?length_insert; apply Hp.
  - destruct (Z.leb_spec ex 0) as [Hz|Hz]; [left; split; [done|]; right; done|]. right.
    rewrite (wrap32_exact (o - q)) by lia.
    set (d := if o - q <=? ex then o - q else ex).
    assert (Hd : 0 ≤ d ≤ o - q ∧ d ≤ ex ∧ (d = o - q ∨ d = ex)) by (unfold d; destruct (Z.leb_spec (o - q) ex); lia).
    rewrite (wrap32_exact (o - d)), (wrap32_exact (cap + d)), (to_int32_exact (ex - d)) by lia.
    rewrite upd2_entry by done. simpl. rewrite !upd_nat by (rewrite ?(acc_caps _ Hp), ?(acc_excs _ Hp), ?(acc_posted _ Hp); done). simpl.
    exists (o - d), (if ex - d =? 0 then <[territory_of e := price_ (demand e)]> (posted p) else posted p), (d =? o - q).
    split; [|split; [|split; [right; lia|rewrite Z.eqb_eq; lia]]].
    + unfold move. fold o cap ex. replace (ex + (o - d - o)) with (ex - d) by lia.
      replace (cap - (o - d - o)) with (cap + d) by lia. case_match; reflexivity.
    + case_match; simpl; rewrite ?length_insert; apply Hp.
Qed.
Lemma effect_account x prices : effect p e x → length prices = length supply → account (move p e x prices).
Proof.
  intros Hx Hl. pose proof owned_range as Ho. pose proof cap_range as Hc. destruct (range_quantity _ He).
  apply account_move; [done..| | |done]; unfold effect in Hx; lia.
Qed.
End step.

(** ** The loop *)

(** The entry of the matrix a bid is about; no two bids of a queue share theirs. *)
Definition pos (e : enqueuedBid) : nat * nat := (bidder_of e, territory_of e).

(** What is left to do: the licences that bids ask to change, and the bids *)
Definition gap (p : progress) (e : enqueuedBid) : Z := Z.abs (quantity_ (demand e) - owned p e).
Definition work (p : progress) (queue : list enqueuedBid) : Z := Zsum ((λ e, gap p e + 1) <$> queue).

(** The result of processing [queue] from [p]: [p'] and the bids [left] in the queue.  A
    bid is satisfied or blocked, licences move towards the demand, all other entries keep
    their value, and no territory with excess demand is left below its supply. *)
Record settles (p : progress) (queue : list enqueuedBid) (p' : progress) (left : list enqueuedBid) : Prop := {
  settled_left : Forall (blocked p') left;
  settled e : e ∈ queue → e ∈ left ∨ owned p' e = quantity_ (demand e);
  settled_between e : e ∈ queue →
    owned p e ≤ owned p' e ≤ quantity_ (demand e) ∨ quantity_ (demand e) ≤ owned p' e ≤ owned p e;
  settled_frame b t : (b < length elig)%nat → (b, t) ∉ pos <$> queue →
    entry (licenses p') b t = entry (licenses p) b t;
  settled_excess t : (t < length supply)%nat → Z.min 0 (excess p !!! t) ≤ excess p' !!! t }.

Lemma work_nonneg p q : 0 ≤ work p q.
Proof. apply Zsum_nonneg, Forall_fmap, Forall_forall. intros e _. simpl. unfold gap. lia. Qed.
Lemma work_app p q q' : work p (q ++ q') = work p q + work p q'.
Proof. unfold work. by rewrite fmap_app, Zsum_app. Qed.

Section move.
Context (p : progress) (Hp : account p) (e : enqueuedBid) (He : in_range e) (x : Z) (prices : list double).
Lemma entry_move b t : entry (licenses (move p e x prices)) b t =
  if decide ((b, t) = pos e) then x else entry (licenses p) b t.
Proof.
  destruct (in_range_nat e He) as (_ & _ & Hb & Ht).
  simpl. rewrite entry_set by (rewrite ?(acc_rows _ Hp), ?account_row; done). unfold pos.
  destruct (decide (b = bidder_of e ∧ t = territory_of e)) as [[-> ->]|Hn]; [by rewrite decide_True|].
  rewrite decide_False; [done|]. intros [= -> ->]. tauto.
Qed.
Lemma owned_move e' : owned (move p e x prices) e' = if decide (pos e' = pos e) then x else owned p e'.
Proof. apply entry_move. Qed.
Lemma owned_move_ne (q : list enqueuedBid) e' : pos e ∉ pos <$> q → e' ∈ q → owned (move p e x prices) e' = owned p e'.
Proof.
  intros Hn He'. rewrite owned_move, decide_False; [done|]. intros E. apply Hn. rewrite <- E.
  by apply list_elem_of_fmap_2.
Qed.
Lemma work_move (q : list enqueuedBid) : pos e ∉ pos <$> q → work (move p e x prices) q = work p q.
Proof.
  intros Hn. unfold work. f_equal. apply list_fmap_ext. intros i e' Hi. unfold gap.
  rewrite (owned_move_ne q); [done..|]. by eapply list_elem_of_lookup_2.
Qed.
Lemma excess_move t : (t < length supply)%nat → effect p e x →
  Z.min 0 (excess p !!! t) ≤ excess (move p e x prices) !!! t.
Proof.
  intros Ht Hx. destruct (in_range_nat e He) as (_ & _ & Hb & Hte). simpl.
  destruct (decide (t = territory_of e)) as [->|Hn].
  - rewrite list_lookup_total_insert_eq by (by rewrite (acc_excs _ Hp)). unfold effect in Hx. lia.
  - rewrite list_lookup_total_insert_ne by done. lia.
Qed.
(** Applying a bid is progress: less is left to do, also if it stays in the queue. *)
Lemma work_effect before after full : effect p e x → (full = true ↔ x = quantity_ (demand e)) →
  pos e ∉ pos <$> before ++ after →
  work (move p e x prices) (before ++ (if full : bool then [] else [e]) ++ after) < work p (before ++ e :: after).
Proof.
  intros Hx Hfull Hn. rewrite fmap_app, not_elem_of_app in Hn. destruct Hn as [Hn1 Hn2].
  rewrite !work_app, (work_move before), (work_move after) by done.
  change (e :: after) with ([e] ++ after). rewrite work_app.
  assert (H1 : ∀ p, work p [e] = gap p e + 1) by (intros p'; unfold work; simpl; lia). rewrite H1.
  unfold effect in Hx. destruct full.
  - change (work (move p e x prices) []) with 0. unfold gap. lia.
  - assert (x ≠ quantity_ (demand e)) by (intros E; apply Hfull in E; done).
    rewrite H1. unfold gap. rewrite owned_move, decide_True by done. lia.
Qed.
End move.

Lemma elem_of_middle {A} (before after l : list A) e e' : e' ∈ before ++ e :: after →
  e' = e ∨ e' ∈ before ++ l ++ after.
Proof. rewrite !elem_of_app, elem_of_cons. tauto. Qed.

Lemma settles_move p e x prices full before after p' left :
  account p → in_range e → effect p e x → (full = true ↔ x = quantity_ (demand e)) →
  pos e ∉ pos <$> before ++ after →
  settles (move p e x prices) (before ++ (if full : bool then [] else [e]) ++ after) p' left →
  settles p (before ++ e :: after) p' left.
Proof.
  intros Hp He Hx Hfull Hn Hs. set (rest := before ++ (if full then [] else [e]) ++ after) in *.
  assert (Hown : full = true → owned p' e = x).
  { intros ->. unfold owned. rewrite (settled_frame _ _ _ _ Hs); [|by apply in_range_nat|done].
    rewrite entry_move by done. by rewrite decide_True. }
  assert (Hin : full = false → e ∈ rest) by (intros ->; unfold rest; set_solver).
  constructor.
  - apply Hs.
  - intros e' [->|He']%(elem_of_middle _ _ (if full then [] else [e])); [|by apply Hs].
    destruct full; [right; rewrite Hown by done; by apply Hfull|]. by apply Hs, Hin.
  - intros e' [->|He']%(elem_of_middle _ _ []).
    + unfold effect in Hx. destruct full; [rewrite Hown by done; lia|].
      pose proof (settled_between _ _ _ _ Hs e (Hin eq_refl)) as Hb.
      rewrite owned_move, decide_True in Hb by done. lia.
    + rewrite <- (owned_move_ne p Hp e He x prices (before ++ after)) by done. apply Hs. unfold rest.
      destruct full; set_solver.
  - intros b t Hb Hbt. rewrite (settled_frame _ _ _ _ Hs b t Hb).
    + rewrite entry_move by done. rewrite decide_False; [done|]. intros E. apply Hbt. rewrite E.
      apply list_elem_of_fmap_2. set_solver.
    + unfold rest. revert Hbt. rewrite !fmap_app, fmap_cons, !not_elem_of_app, not_elem_of_cons.
      intros (H1 & H2 & H3). split_and!; [done| |done]. destruct full; set_solver.
  - intros t Ht. pose proof (excess_move p Hp e He x prices t Ht Hx).
    pose proof (settled_excess _ _ _ _ Hs t Ht). lia.
Qed.

(** The steps that are enough for a queue *)
Definition enough (p : progress) (queue : list enqueuedBid) : nat :=
  (Z.to_nat (work p queue) * (length queue + 1) + length queue)%nat.

Lemma queue_middle before e after : NoDup (pos <$> before ++ e :: after) →
  pos e ∉ pos <$> before ++ after ∧ NoDup (pos <$> before ++ after).
Proof. rewrite fmap_app, fmap_cons, <- Permutation_middle, NoDup_cons, fmap_app. done. Qed.

Lemma settles_done p queue : Forall (blocked p) queue → settles p queue p queue.
Proof. intros Hb. constructor; [done|tauto|lia|done|lia]. Qed.

Lemma processQueue_settles (Hsizes : sizes_ok) (K : nat) : ∀ fuel p before after,
  account p → Forall in_range (before ++ after) → NoDup (pos <$> before ++ after) →
  Forall (blocked p) before → (length (before ++ after) ≤ K)%nat →
  (Z.to_nat (work p (before ++ after)) * (K + 1) + length after ≤ fuel)%nat →
  ∃ p' left, processQueue clock fuel p before after = Finished (p', left) ∧ account p' ∧
    settles p (before ++ after) p' left.
Proof.
  induction fuel as [|fuel IH]; intros p before after Hp Hr Hnd Hb HK Hf.
  - destruct after as [|e after]; [|simpl in Hf; lia].
    exists p, before. rewrite app_nil_r. by split_and!; [..|apply settles_done].
  - destruct after as [|e after]; simpl.
    { exists p, before. rewrite app_nil_r. by split_and!; [..|apply settles_done]. }
    assert (He : in_range e) by (rewrite Forall_app, Forall_cons in Hr; tauto).
    destruct (processBid_spec Hsizes p Hp e He) as [[-> Hblk]|(x & prices & full & -> & Hl & Hx & Hfull)].
    + destruct (IH p (before ++ [e]) after) as (p' & left & E & Hp' & Hs); rewrite <- ?app_assoc; try done.
      * apply Forall_app. by rewrite Forall_singleton.
      * simpl in *. lia.
      * exists p', left. rewrite <- app_assoc in Hs. done.
    + destruct (queue_middle _ _ _ Hnd) as [Hn Hnd'].
      set (rest := before ++ (if full then [] else [e]) ++ after).
      pose proof (work_effect p Hp e He x prices before after full Hx Hfull Hn) as Hw. fold rest in Hw.
      pose proof (work_nonneg (move p e x prices) rest).
      assert (Hlen : (length rest ≤ K)%nat).
      { revert HK. unfold rest. rewrite !length_app. destruct full; simpl; lia. }
      destruct (IH (move p e x prices) [] rest) as (p' & left & E & Hp' & Hs); simpl; try done.
      * by apply effect_account.
      * unfold rest. rewrite !Forall_app in *. rewrite Forall_cons in Hr. destruct full; naive_solver.
      * unfold rest. destruct full; [done|]. done.
      * assert (Z.to_nat (work (move p e x prices) rest) + 1 ≤ Z.to_nat (work p (before ++ e :: after)))%nat as Hle by lia.
        simpl in Hf. nia.
      * exists p', left. split_and!; [done..|]. by eapply settles_move.
Qed.
End account.
