(* ===== verification/SpectrumRounds.v ===== *)
(** * The spectrum auction: the state between rounds

    What holds of the states of an auction at the start and at the end of a round, and
    that evaluating a round ends, is defined, and leads to such a state again. *)
From stdpp Require Import base list numbers option strings sorting sets relations.
From Stdlib Require Import ZArith Lia.
From S2P Require Import Prelude ParsonText CNum CDouble JsonSpec SgxCCLib EnclaveCrypto Shim Chaincodes.
From S2P Require Import Spectrum SpectrumEval SpectrumProof.
Local Open Scope Z_scope.

#[global] Instance Bid_inhabited : Inhabited Bid := populate emptyBid.

(** ** Indices *)

Lemma upto_nat n : upto (Z.of_nat n) = Z.of_nat <$> seq 0 n.
Proof. unfold upto. by rewrite Nat2Z.id. Qed.
Lemma mapM_upto {A} `{Inhabited A} (f : Z → option A) n (P : nat → A → Prop) :
  (∀ i, (i < n)%nat → ∃ a, f (Z.of_nat i) = Some a ∧ P i a) →
  ∃ l, mapM f (upto (Z.of_nat n)) = Some l ∧ length l = n ∧ ∀ i, (i < n)%nat → P i (l !!! i).
Proof.
  intros Hf. rewrite upto_nat.
  assert (∀ j k, (j + k = n)%nat → ∃ l, mapM f (Z.of_nat <$> seq j k) = Some l ∧ length l = k ∧
    ∀ i, (i < k)%nat → P (j + i)%nat (l !!! i)) as Hg.
  { intros j k. revert j. induction k as [|k IH]; intros j Hj; [exists []; split_and!; [done..|lia]|].
    destruct (Hf j ltac:(lia)) as (a & Ha & HP). destruct (IH (S j) ltac:(lia)) as (l & Hl & Hlen & HPl).
    exists (a :: l). cbn [seq fmap list_fmap mapM]. rewrite Ha. simpl. rewrite Hl. simpl.
    split_and!; [done|by rewrite Hlen|]. intros [|i] Hi; simpl; [by rewrite Nat.add_0_r|].
    replace (j + S i)%nat with (S j + i)%nat by lia. apply HPl. lia. }
  destruct (Hg 0%nat n eq_refl) as (l & Hl & Hlen & HP). by exists l.
Qed.
Lemma list_eq_total {A} `{Inhabited A} (l k : list A) :
  length l = length k → (∀ i, (i < length l)%nat → l !!! i = k !!! i) → l = k.
Proof.
  intros Hlen Hi. apply list_eq. intros i. destruct (decide (i < length l)%nat) as [Hl|Hl].
  - rewrite !list_lookup_lookup_total_lt by lia. by rewrite Hi.
  - rewrite !lookup_ge_None_2 by lia. done.
Qed.
Lemma at2_total {A} `{Inhabited A} (l : list (list A)) (i j : nat) :
  (i < length l)%nat → (j < length (l !!! i))%nat → at2 l (Z.of_nat i) (Z.of_nat j) = Some (l !!! i !!! j).
Proof. intros Hi Hj. unfold at2. rewrite at_some by done. simpl. by rewrite at_some. Qed.
Lemma at3_total {A} `{Inhabited A} (l : list (list (list A))) (i j k : nat) :
  (i < length l)%nat → (j < length (l !!! i))%nat → (k < length (l !!! i !!! j))%nat →
  at3 l (Z.of_nat i) (Z.of_nat j) (Z.of_nat k) = Some (l !!! i !!! j !!! k).
Proof. intros Hi Hj Hk. unfold at3. rewrite at_some by done. simpl. by apply at2_total. Qed.
Lemma snoc_total {A} `{Inhabited A} (l : list A) a : (l ++ [a]) !!! length l = a.
Proof. by rewrite lookup_total_app_r, Nat.sub_diag by lia. Qed.
Lemma total_snoc {A} `{Inhabited A} (l : list A) a i : (i < length l)%nat → (l ++ [a]) !!! i = l !!! i.
Proof. intros Hi. by rewrite lookup_total_app_l. Qed.

Lemma last_snoc {A} `{Inhabited A} (l : list A) a r : length l = r → (l ++ [a]) !!! r = a.
Proof. intros <-. apply snoc_total. Qed.
Lemma at_snoc {A} (l : list A) a r : length l = r → at_ (l ++ [a]) (Z.of_nat r) = Some a.
Proof. intros <-. rewrite at_nat. by apply list_lookup_middle. Qed.

(** Searching by a key that is unique *)
Lemma list_find_key {A} (P : A → Prop) `{∀ x, Decision (P x)} (f : A → Z) l i x :
  (∀ y, P y ↔ f y = f x) → NoDup (f <$> l) → l !! i = Some x → list_find P l = Some (i, x).
Proof.
  intros HP Hnd Hi. apply list_find_Some. split_and!; [done|by apply HP|]. intros j y Hj Hlt Hy%HP.
  assert (j = i); [|lia]. eapply (NoDup_lookup _ j i (f x) Hnd); rewrite list_lookup_fmap; [by rewrite Hj, <- Hy|by rewrite Hi].
Qed.

(** ** The auction *)

Record static_ok (s : StaticAuctionState) : Prop := {
  ok_territories : territories_ s ≠ [];
  ok_bidders_n : size (bidders_ s) < 2 ^ 31;
  ok_territories_n : size (territories_ s) < 2 ^ 31;
  ok_ids : NoDup (getTerritoryIds s);
  ok_channels : Forall (λ t, size (channels_ t) < 2 ^ 31) (territories_ s);
  ok_activity : 0 ≤ activityRequirementPercentage_ s ≤ 100 }.

Section static.
Context (s : StaticAuctionState) (Hs : static_ok s).
Local Abbreviation bidders_n := (length (bidders_ s)).
Local Abbreviation territories_n := (length (territories_ s)).

Lemma getBiddersN_nat : getBiddersN s = Z.of_nat bidders_n.
Proof. pose proof (ok_bidders_n _ Hs). unfold size in *. apply wrap32_exact. unfold size. lia. Qed.
Lemma getTerritoryN_nat : getTerritoryN s = Z.of_nat territories_n.
Proof. pose proof (ok_territories_n _ Hs). unfold size in *. apply wrap32_exact. unfold size. lia. Qed.
Lemma length_supply : length (getSupply s) = territories_n.
Proof. apply length_fmap. Qed.
Lemma supply_ok : Forall (λ x, 0 ≤ x < 2 ^ 31) (getSupply s).
Proof.
  unfold getSupply. apply Forall_fmap. eapply Forall_impl; [apply (ok_channels _ Hs)|]. simpl. intros t Ht.
  unfold numberOfChannels. rewrite wrap32_exact; unfold size in *; lia.
Qed.

(** A territory of the auction and its index *)
Lemma territory_index id : id ∈ getTerritoryIds s → ∃ i, getTerritoryIndex s id = Z.of_nat i ∧
  (i < territories_n)%nat ∧ getTerritoryIds s !! i = Some id.
Proof.
  intros Hid. unfold getTerritoryIndex, index_of.
  destruct (list_find (λ t, (territory_id_ t =? id) = true) (territories_ s)) as [[i t]|] eqn:E; simpl.
  - apply list_find_Some in E as (Hi & Hp%Z.eqb_eq & _). exists i. split_and!; [done|by eapply lookup_lt_Some|].
    unfold getTerritoryIds. by rewrite list_lookup_fmap, Hi, <- Hp.
  - apply list_find_None in E. exfalso. apply list_elem_of_fmap in Hid as (t & -> & Ht).
    rewrite Forall_forall in E. specialize (E t Ht). rewrite Z.eqb_refl in E. done.
Qed.
Lemma territory_index_inj id id' : id ∈ getTerritoryIds s → id' ∈ getTerritoryIds s →
  getTerritoryIndex s id = getTerritoryIndex s id' → id = id'.
Proof.
  intros Hi Hi'. destruct (territory_index id Hi) as (i & -> & _ & E), (territory_index id' Hi') as (i' & -> & _ & E').
  intros ->%Nat2Z.inj. congruence.
Qed.
End static.

(** ** Missing bids *)

Lemma set_difference_sublist l1 l2 : set_difference l1 l2 `sublist_of` l1.
Proof.
  revert l2. induction l1 as [|x l1 IH]; intros l2; [constructor|]. induction l2 as [|y l2 IH2]; [done|].
  cbn [set_difference]. destruct (x <? y); [by constructor|]. destruct (y <? x); [exact IH2|by constructor].
Qed.
Lemma set_difference_spec l1 l2 z : StronglySorted (≤) l1 → StronglySorted (≤) l2 → NoDup l1 →
  z ∈ set_difference l1 l2 ↔ z ∈ l1 ∧ z ∉ l2.
Proof.
  intros H1. revert l2. induction H1 as [|x l1 Hl1 IH Hx]; intros l2 H2 Hnd; [set_solver|].
  apply NoDup_cons in Hnd as [Hnx Hnd]. rewrite Forall_forall in Hx.
  induction H2 as [|y l2 Hl2 IH2 Hy]; [set_solver|].
  cbn [set_difference]. destruct (Z.ltb_spec x y) as [Hlt|Hge].
  - rewrite elem_of_cons, IH by (done || by constructor). rewrite (elem_of_cons l1).
    assert (x ∉ y :: l2); [|destruct (decide (z = x)) as [->|]; tauto]. rewrite Forall_forall in Hy. intros [->|Hin]%elem_of_cons; [lia|].
    specialize (Hy x Hin). lia.
  - destruct (Z.ltb_spec y x) as [Hlt|Hge'].
    + change (z ∈ set_difference (x :: l1) l2 ↔ z ∈ x :: l1 ∧ z ∉ y :: l2). rewrite IH2, (elem_of_cons l2).
      assert (z ∈ x :: l1 → z ≠ y); [|tauto]. intros [->|Hin]%elem_of_cons ->; [lia|].
      specialize (Hx y Hin). lia.
    + assert (y = x) as -> by lia. rewrite IH by done. rewrite !elem_of_cons. destruct (decide (z = x)) as [->|]; tauto.
Qed.

(** The territories a bid does not name *)
Definition missing_ids (s : StaticAuctionState) (b : Bid) : list Z :=
  set_difference (merge_sort (≤) (getTerritoryIds s)) (merge_sort (≤) (getDemandedTerritoryIds b)).

Section missing.
Context (s : StaticAuctionState) (Hs : static_ok s).

Lemma missing_ids_spec b : NoDup (missing_ids s b) ∧
  ∀ z, z ∈ missing_ids s b ↔ z ∈ getTerritoryIds s ∧ z ∉ getDemandedTerritoryIds b.
Proof.
  assert (Hnd : NoDup (merge_sort (≤) (getTerritoryIds s))).
  { rewrite merge_sort_Permutation. apply Hs. }
  split; [eapply sublist_NoDup; [exact Hnd|apply set_difference_sublist]|].
  intros z. unfold missing_ids. rewrite set_difference_spec by (exact Hnd || (apply StronglySorted_merge_sort; apply _)).
  by rewrite !merge_sort_Permutation.
Qed.

(** A bid names territories of the auction, none twice, and quantities in range. *)
Record bid_ok (b : Bid) : Prop := {
  bid_ids : NoDup (getDemandedTerritoryIds b);
  bid_demands : Forall (λ dem, territoryId_ dem ∈ getTerritoryIds s ∧ 0 ≤ quantity_ dem < 2 ^ 32) (demands_ b) }.

Lemma missingDemands_spec b prices : length prices = length (territories_ s) →
  ∃ l, missingDemands s (Some prices) b = Some l ∧ territoryId_ <$> l = missing_ids s b ∧
    Forall (λ dem, quantity_ dem = 0) l.
Proof.
  intros Hlen. unfold missingDemands. fold (missing_ids s b).
  assert (Hids : Forall (.∈ getTerritoryIds s) (missing_ids s b)).
  { apply Forall_forall. intros z Hz. by apply missing_ids_spec in Hz as [? _]. }
  induction Hids as [|z l Hz Hl IH]; [by exists []|]. destruct IH as (ds & E & Hids & Hq).
  destruct (territory_index s z Hz) as (i & Ei & Hi & _). cbn [mapM]. rewrite E. simpl. rewrite Ei, at_some by lia. simpl.
  eexists. split; [done|]. rewrite fmap_cons, Hids. split; [done|]. by constructor.
Qed.

Lemma Zsum_zero (l : list Demand) : Forall (λ dem, quantity_ dem = 0) l → Zsum (quantity_ <$> l) = 0.
Proof. induction 1 as [|dem l E Hq IH]; [done|]. rewrite fmap_cons. unfold Zsum in *. simpl. lia. Qed.

(** A bid that is completed names every territory once, with the same total quantity. *)
Lemma complete_bid b l i r : bid_ok b → territoryId_ <$> l = missing_ids s b →
  Forall (λ dem, quantity_ dem = 0) l →
  let b' := mkBid i r (demands_ b ++ l) in
  bid_ok b' ∧ getDemandedTerritoryIds b' ≡ₚ getTerritoryIds s ∧
  Zsum (quantity_ <$> demands_ b') = Zsum (quantity_ <$> demands_ b).
Proof.
  intros [Hnd Hd] Hids Hq b'. destruct (missing_ids_spec b) as [Hmn Hms].
  assert (Hid : getDemandedTerritoryIds b' = getDemandedTerritoryIds b ++ missing_ids s b).
  { unfold getDemandedTerritoryIds, b'. simpl. by rewrite fmap_app, Hids. }
  assert (Hnd' : NoDup (getDemandedTerritoryIds b')).
  { rewrite Hid. apply NoDup_app. split_and!; [done| |done]. intros z Hz Hz'%Hms. tauto. }
  assert (Hin : ∀ z, z ∈ getDemandedTerritoryIds b → z ∈ getTerritoryIds s).
  { intros z (dem & -> & Hdem)%list_elem_of_fmap. rewrite Forall_forall in Hd. by apply Hd. }
  split_and!.
  - constructor; [done|]. unfold b'. simpl. apply Forall_app. split; [done|].
    apply Forall_forall. intros dem Hdem. rewrite Forall_forall in Hq. rewrite Hq by done. split; [|lia].
    apply (Hms (territoryId_ dem)). rewrite <- Hids. by apply list_elem_of_fmap_2.
  - apply NoDup_Permutation; [done|apply Hs|]. intros z. rewrite Hid, elem_of_app, Hms.
    destruct (decide (z ∈ getDemandedTerritoryIds b)) as [Hz|Hz]; [|tauto]. specialize (Hin z Hz). tauto.
  - unfold b'. simpl. rewrite fmap_app, Zsum_app.
    rewrite (Zsum_zero l Hq). lia.
Qed.
End missing.

(** ** States of a clock round *)

Section rounds.
Context (s : StaticAuctionState) (Hs : static_ok s).
Local Abbreviation bidders_n := (length (bidders_ s)).
Local Abbreviation territories_n := (length (territories_ s)).

(** The licences, the excess demand and the eligibility balance: what is left of the
    eligibility [elig] makes an account. *)
Definition balanced (elig : list Z) (lic : list (list Z)) (ex : list Z) (prices : list double) : Prop :=
  ∃ caps, account elig (getSupply s) (mkProgress lic ex prices caps).

(** Eligibilities of which the percentages do not wrap around *)
Record elig_ok (elig : list Z) : Prop := {
  elig_length : length elig = bidders_n;
  elig_nonneg : Forall (Z.le 0) elig;
  elig_total : 100 * Zsum elig < 2 ^ 32 }.

(** The state in round [r], before its evaluation *)
Record round_state (d : DynamicAuctionState) (r : nat) : Prop := {
  rs_phase : auctionState_ d = CLOCK_PHASE;
  rs_fresh : winAssign_ d = [];
  rs_round : clockRound_ d = Z.of_nat r;
  rs_bounds : (1 ≤ r)%nat ∧ Z.of_nat r + 1 < 2 ^ 32;
  rs_posted : length (postedPrice_ d) = Nat.max r 2;
  rs_clock : length (clockPrice_ d) = S r;
  rs_elig : length (eligibility_ d) = S r;
  rs_licenses : length (processedLicenses_ d) = r;
  rs_excess : length (excessDemand_ d) = r;
  rs_posted_row : length (postedPrice_ d !!! (r - 1)%nat) = territories_n;
  rs_clock_row : length (clockPrice_ d !!! r) = territories_n;
  rs_elig_row : elig_ok (eligibility_ d !!! r);
  rs_balanced : (2 ≤ r)%nat → balanced (eligibility_ d !!! r) (processedLicenses_ d !!! (r - 1)%nat)
    (excessDemand_ d !!! (r - 1)%nat) (postedPrice_ d !!! (r - 1)%nat) }.

(** The bids of round [r]; those of the first round stay within the eligibility. *)
Record bids_ok (d : DynamicAuctionState) (r : nat) : Prop := {
  bo_length : length (clockBids_ d) = S r;
  bo_row : length (clockBids_ d !!! r) = bidders_n;
  bo_bids : Forall (bid_ok s) (clockBids_ d !!! r);
  bo_first b : r = 1%nat → (b < bidders_n)%nat →
    Zsum (quantity_ <$> demands_ (clockBids_ d !!! r !!! b)) ≤ eligibility_ d !!! r !!! b }.

Lemma elig_sizes elig clock : elig_ok elig → length clock = territories_n → sizes_ok elig (getSupply s) clock.
Proof.
  intros [_ Hn Ht] Hc. constructor; [done|lia|by apply supply_ok|by rewrite length_supply].
Qed.
Lemma round_pred r : (1 ≤ r)%nat → Z.of_nat r < 2 ^ 32 → wrap32 (Z.of_nat r - 1) = Z.of_nat (r - 1).
Proof. intros Hr Hb. rewrite wrap32_exact by lia. lia. Qed.

(** Completing the bids of a round *)
Lemma fillMissingBids_spec d r i : round_state d r → bids_ok d r →
  ∃ row, fillMissingBids s i d = Some (set_bids (<[r := row]> (clockBids_ d)) d) ∧
    length row = bidders_n ∧
    ∀ b, (b < bidders_n)%nat → bid_ok s (row !!! b) ∧
      getDemandedTerritoryIds (row !!! b) ≡ₚ getTerritoryIds s ∧
      (∃ l, demands_ (row !!! b) = demands_ (clockBids_ d !!! r !!! b) ++ l ∧ Forall (λ dem, quantity_ dem = 0) l).
Proof.
  intros Hd Hb. pose proof (rs_bounds _ _ Hd) as [Hr1 Hr2]. unfold fillMissingBids.
  rewrite (rs_round _ _ Hd), at_some by (rewrite (bo_length _ _ Hb); lia). simpl.
  rewrite getBiddersN_nat, !Nat2Z.id by done. pose proof (bo_row _ _ Hb) as Hlen.
  rewrite (proj2 (Nat.ltb_ge _ _)) by lia. rewrite round_pred by lia.
  rewrite at_some by (rewrite (rs_posted _ _ Hd); lia).
  rewrite take_ge, drop_ge by lia.
  pose proof (bo_bids _ _ Hb) as Hok. generalize dependent (clockBids_ d !!! r). intros bids Hlen Hok.
  assert (∃ row, mapM (λ b, missing ← missingDemands s (Some (postedPrice_ d !!! (r - 1)%nat)) b;
      Some (mkBid i (Z.of_nat r) (demands_ b ++ missing))) bids = Some row ∧ length row = length bids ∧
    ∀ b, (b < length bids)%nat → bid_ok s (row !!! b) ∧
      getDemandedTerritoryIds (row !!! b) ≡ₚ getTerritoryIds s ∧
      (∃ l, demands_ (row !!! b) = demands_ (bids !!! b) ++ l ∧ Forall (λ dem, quantity_ dem = 0) l)) as (row & E & Hrl & Hrow).
  { clear Hlen. induction Hok as [|bid bids Hbid Hbids IH]; [exists []; split_and!; [done..|simpl; lia]|].
    destruct IH as (row & E & Hrl & Hrow).
    destruct (missingDemands_spec s Hs bid (postedPrice_ d !!! (r - 1)%nat)) as (l & El & Hids & Hq); [apply (rs_posted_row _ _ Hd)|].
    destruct (complete_bid s Hs bid l i (Z.of_nat r) Hbid Hids Hq) as (Hc & Hp & _).
    eexists. cbn [mapM]. rewrite El. simpl. rewrite E. simpl. split; [done|]. split; [simpl; lia|].
    intros [|b] Hi; simpl; [|apply Hrow; simpl in Hi; lia]. split_and!; [done..|]. by exists l. }
  rewrite E. simpl. rewrite app_nil_r. exists row. split; [done|]. split; [lia|]. intros b Hi. apply Hrow. lia.
Qed.

(** *** After the bids of a round were processed *)

Record evaluated (d : DynamicAuctionState) (r : nat) : Prop := {
  ev_phase : auctionState_ d = CLOCK_PHASE;
  ev_fresh : winAssign_ d = [];
  ev_round : clockRound_ d = Z.of_nat r;
  ev_bounds : (1 ≤ r)%nat ∧ Z.of_nat r + 2 < 2 ^ 32;
  ev_posted : length (postedPrice_ d) = S r;
  ev_clock : length (clockPrice_ d) = S r;
  ev_elig : length (eligibility_ d) = S r;
  ev_licenses : length (processedLicenses_ d) = S r;
  ev_elig_row : elig_ok (eligibility_ d !!! r);
  ev_balanced : ∃ ex, balanced (eligibility_ d !!! r) (processedLicenses_ d !!! r) ex (postedPrice_ d !!! r) ∧
    (length (excessDemand_ d) = r ∨ (length (excessDemand_ d) = S r ∧ excessDemand_ d !!! r = ex)) }.

(** The licences can be assigned: no territory has more than its supply. *)
Record assignable (d : DynamicAuctionState) (r : nat) : Prop := {
  as_phase : auctionState_ d = ASSIGNMENT_PHASE;
  as_fresh : winAssign_ d = [];
  as_round : clockRound_ d = Z.of_nat r;
  as_licenses : length (processedLicenses_ d) = S r;
  as_posted : length (postedPrice_ d) = S r;
  as_elig_row : elig_ok (eligibility_ d !!! r);
  as_balanced : ∃ ex, balanced (eligibility_ d !!! r) (processedLicenses_ d !!! r) ex (postedPrice_ d !!! r) ∧
    Forall (λ x, x ≤ 0) ex }.

(** How a round can end *)
Inductive round_result (d : DynamicAuctionState) (r : nat) : Prop :=
  | RuleFailed : auctionState_ d = FSR_FAILED → round_result d r
  | PhaseOver : assignable d r → round_result d r
  | NextRound : round_state d (S r) → round_result d r.

(** What an evaluation leaves alone *)
Definition kept (d d' : DynamicAuctionState) : Prop :=
  er_ d' = er_ d ∧ roundActive_ d' = roundActive_ d.

Section progress.
Context (elig : list Z) (p : progress) (Hp : account elig (getSupply s) p) (He : elig_ok elig).
Lemma progress_rows : length (licenses p) = bidders_n.
Proof. rewrite (acc_rows _ _ _ Hp). apply He. Qed.
Lemma progress_row b : (b < bidders_n)%nat → length (licenses p !!! b) = territories_n.
Proof.
  intros Hb. rewrite (account_row elig (getSupply s) p Hp b) by (rewrite (elig_length _ He); done). apply length_supply.
Qed.
Lemma progress_column t (d : DynamicAuctionState) r : (t < territories_n)%nat →
  (r < length (processedLicenses_ d))%nat → processedLicenses_ d !!! r = licenses p →
  ∃ col, mapM (λ j, at3 (processedLicenses_ d) (Z.of_nat r) j (Z.of_nat t)) (upto (getBiddersN s)) = Some col ∧
    sum32 col = colsum t (licenses p).
Proof.
  intros Ht Hr Hl. rewrite getBiddersN_nat by done.
  destruct (mapM_upto (λ j, at3 (processedLicenses_ d) (Z.of_nat r) j (Z.of_nat t)) bidders_n
    (λ b x, x = licenses p !!! b !!! t)) as (col & -> & Hlen & Hcol).
  { intros b Hb. eexists. split; [|done]. rewrite <- Hl. apply at3_total; [done|by rewrite Hl, progress_rows|].
    by rewrite Hl, progress_row. }
  exists col. split; [done|].
  assert (col = (λ row, row !!! t) <$> licenses p) as ->.
  { apply list_eq_total; [by rewrite length_fmap, progress_rows|]. rewrite Hlen. intros b Hb. rewrite Hcol by done.
    rewrite (list_lookup_total_alt (_ <$> _)), list_lookup_fmap, list_lookup_lookup_total_lt by (by rewrite progress_rows). done. }
  pose proof (account_colsum elig (getSupply s) p Hp t ltac:(by rewrite length_supply)) as Hb.
  pose proof (elig_total _ He). apply sum32_exact; [|unfold colsum in Hb; lia].
  apply Forall_fmap, Forall_forall. intros row Hrow. simpl.
  apply list_elem_of_lookup in Hrow as [b Hrow]. pose proof (lookup_lt_Some _ _ _ Hrow) as Hlt. rewrite progress_rows in Hlt.
  pose proof (account_bounds elig (getSupply s) p Hp b ltac:(rewrite (elig_length _ He); done)) as [Hn _].
  rewrite (list_lookup_total_correct _ _ _ Hrow) in Hn. apply lookup_total_Forall; [done|].
  rewrite <- (list_lookup_total_correct _ _ _ Hrow). by rewrite progress_row.
Qed.
End progress.

(** The excess demand computed again is that of the account. *)
Lemma roundExcess_spec d r elig p : account elig (getSupply s) p → elig_ok elig →
  clockRound_ d = Z.of_nat r → (r < length (processedLicenses_ d))%nat → processedLicenses_ d !!! r = licenses p →
  roundExcess s d = Some (excess p).
Proof.
  intros Hp He Hr Hlt Hl. unfold roundExcess. rewrite (getTerritoryN_nat s Hs).
  destruct (mapM_upto (λ i, column ← mapM (λ j, at3 (processedLicenses_ d) (clockRound_ d) j i) (upto (getBiddersN s));
      supply ← at_ (getSupply s) i; Some (to_int32 (sum32 column - supply))) territories_n
    (λ t x, x = excess p !!! t)) as (l & -> & Hlen & Hx).
  { intros t Ht. rewrite Hr. destruct (progress_column elig p Hp He t d r Ht Hlt Hl) as (col & -> & Hc). simpl.
    rewrite at_some by (by rewrite length_supply). simpl. eexists. split; [done|]. rewrite Hc.
    rewrite (acc_excess _ _ _ Hp t) by (by rewrite length_supply).
    pose proof (account_colsum _ _ p Hp t ltac:(by rewrite length_supply)). pose proof (elig_total _ He).
    pose proof (lookup_total_Forall _ _ t (supply_ok s Hs) ltac:(by rewrite length_supply)) as Hsup. simpl in Hsup.
    apply to_int32_exact. lia. }
  f_equal. apply list_eq_total; [by rewrite (acc_excs _ _ _ Hp), length_supply|]. rewrite Hlen. exact Hx.
Qed.

(** The eligibility of the next round covers the licences and does not grow. *)
Lemma newEligibility_spec act e : 0 ≤ act ≤ e → 100 * e < 2 ^ 32 →
  ∃ e', newEligibility (activityRequirementPercentage_ s) act e = Some e' ∧ act ≤ e' ≤ e.
Proof.
  intros Ha He. pose proof (ok_activity _ Hs) as Hpct. set (pct := activityRequirementPercentage_ s) in *.
  unfold newEligibility. rewrite (wrap32_exact (e * pct)) by nia.
  destruct (div100_floor (e * pct)) as (v & -> & Hv); [nia|]. simpl. rewrite Z.geb_leb.
  destruct (Z.leb_spec v act) as [Hle|Hlt]; [exists e; split; [done|lia]|].
  destruct (Z.eqb_spec pct 0) as [Hz|Hz]; [nia|]. eexists. split; [done|]. rewrite wrap32_exact by lia.
  split; [apply Z.div_le_lower_bound; nia|apply Z.div_le_upper_bound; nia].
Qed.

(** Licences that the eligibility covers balance. *)
Lemma balanced_intro elig lic ex prices :
  length lic = length elig → Forall (λ row, length row = territories_n) lic → Forall (Forall (Z.le 0)) lic →
  length ex = territories_n → length prices = territories_n →
  (∀ b, (b < length elig)%nat → Zsum (lic !!! b) ≤ elig !!! b) →
  (∀ t, (t < territories_n)%nat → ex !!! t = colsum t lic - getSupply s !!! t) →
  balanced elig lic ex prices.
Proof.
  intros Hl Hr Hn Hx Hp Hc He. exists (zip_with (λ e row, e - Zsum row) elig lic).
  constructor; simpl; rewrite ?length_supply; try done.
  - rewrite length_zip_with_l; lia.
  - intros b Hb. specialize (Hc b Hb).
    assert (zip_with (λ e row, e - Zsum row) elig lic !!! b = elig !!! b - Zsum (lic !!! b)) as ->; [|lia].
    apply list_lookup_total_correct. rewrite lookup_zip_with, !list_lookup_lookup_total_lt by lia. done.
Qed.

Lemma newRoundEligibility_spec d r p : account (eligibility_ d !!! r) (getSupply s) p → evaluated d r →
  processedLicenses_ d !!! r = licenses p →
  ∃ elig, newRoundEligibility s d = Some elig ∧ elig_ok elig ∧
    ∀ b, (b < bidders_n)%nat → Zsum (licenses p !!! b) ≤ elig !!! b ≤ eligibility_ d !!! r !!! b.
Proof.
  intros Hp Hd Hl. pose proof (ev_elig_row _ _ Hd) as He. unfold newRoundEligibility.
  rewrite (getBiddersN_nat s Hs), (ev_round _ _ Hd), (getTerritoryN_nat s Hs).
  destruct (mapM_upto (λ i, row ← mapM (λ j, at3 (processedLicenses_ d) (Z.of_nat r) i j) (upto (Z.of_nat territories_n));
      eligibility ← at2 (eligibility_ d) (Z.of_nat r) i;
      newEligibility (activityRequirementPercentage_ s) (sum32 row) eligibility) bidders_n
    (λ b e, Zsum (licenses p !!! b) ≤ e ≤ eligibility_ d !!! r !!! b)) as (elig & -> & Hlen & Hb).
  { intros b Hb. destruct (mapM_upto (λ j, at3 (processedLicenses_ d) (Z.of_nat r) (Z.of_nat b) j) territories_n
      (λ t x, x = licenses p !!! b !!! t)) as (row & -> & Hrl & Hrow).
    { intros t Ht. eexists. split; [|done]. rewrite <- Hl.
      apply at3_total; [rewrite (ev_licenses _ _ Hd); lia|by rewrite Hl, (progress_rows _ p Hp He)|].
      by rewrite Hl, (progress_row _ p Hp He). }
    assert (row = licenses p !!! b) as ->.
    { apply list_eq_total; [by rewrite (progress_row _ p Hp He)|]. by rewrite Hrl. }
    assert (Hb' : (b < length (eligibility_ d !!! r))%nat) by (rewrite (elig_length _ He); done).
    simpl. rewrite at2_total by (rewrite ?(ev_elig _ _ Hd); lia || done). simpl.
    destruct (account_bounds _ _ p Hp b Hb') as [Hn Hle].
    pose proof (Zsum_elem _ b (elig_nonneg _ He) Hb') as Hel. pose proof (elig_total _ He).
    pose proof (Zsum_nonneg _ Hn). rewrite sum32_exact by (done || lia). apply newEligibility_spec; lia. }
  exists elig. split; [done|]. split; [|exact Hb]. constructor; [done| |].
  - apply Forall_lookup. intros b e E. pose proof (lookup_lt_Some _ _ _ E). specialize (Hb b ltac:(lia)).
    rewrite (list_lookup_total_correct _ _ _ E) in Hb.
    pose proof (account_bounds _ _ p Hp b ltac:(rewrite (elig_length _ He); lia)) as [Hn _].
    pose proof (Zsum_nonneg _ Hn). lia.
  - enough (Zsum elig ≤ Zsum (eligibility_ d !!! r)) by (pose proof (elig_total _ He); lia).
    apply Zsum_le; [by rewrite (elig_length _ He)|]. intros b Hi. apply Hb. lia.
Qed.
Lemma newRoundClockPrice_spec d r : clockRound_ d = Z.of_nat r → (r < length (postedPrice_ d))%nat →
  length (postedPrice_ d !!! r) = territories_n →
  ∃ prices, newRoundClockPrice s d = Some prices ∧ length prices = territories_n.
Proof.
  intros Hr Hl Hrow. unfold newRoundClockPrice. rewrite Hr, at_some by done. simpl. rewrite (getTerritoryN_nat s Hs).
  destruct (mapM_upto (λ j, price ← at_ (postedPrice_ d !!! r) j;
      Some (dmul price (increment (clockPriceIncrementPercentage_ s)))) territories_n (λ _ _, True)) as (l & -> & Hlen & _).
  { intros j Hj. rewrite at_some by lia. simpl. by eexists. }
  simpl. eexists. split; [done|]. rewrite drop_ge, app_nil_r by lia. done.
Qed.

(** The next round of the auction is in order. *)
Lemma nextRound_spec d r p : account (eligibility_ d !!! r) (getSupply s) p → evaluated d r →
  processedLicenses_ d !!! r = licenses p → postedPrice_ d !!! r = posted p →
  length (excessDemand_ d) = S r → excessDemand_ d !!! r = excess p →
  ∃ d', nextRound s (excess p) d = Some d' ∧ kept d d' ∧ clockBids_ d' = clockBids_ d ∧ round_result d' r.
Proof.
  intros Hp Hd Hl Hpr Hxl Hx. pose proof (ev_elig_row _ _ Hd) as He. destruct (ev_bounds _ _ Hd) as [Hr1 Hr2].
  unfold nextRound, isStateClockPhase. rewrite bool_decide_eq_true_2 by apply Hd. simpl.
  pose proof (acc_excs _ _ _ Hp) as Hexl. rewrite length_supply in Hexl.
  destruct (excess p) as [|ex0 exs] eqn:Eex; [pose proof (ok_territories _ Hs) as Hne; destruct (territories_ s); done|].
  rewrite <- Eex in *. clear ex0 exs Eex. destruct (forallb (λ ex, ex <=? 0) (excess p)) eqn:Eall.
  - eexists. split; [done|]. split_and!; [done..|]. apply PhaseOver.
    constructor; simpl; [done|apply Hd..|]. exists (excess p). split.
    + exists (eligibilityCap p). rewrite Hl, Hpr. destruct p. exact Hp.
    + apply Forall_forall. intros x Hx'. rewrite forallb_forall in Eall. apply Z.leb_le, Eall.
      by apply list_elem_of_In.
  - destruct (newRoundEligibility_spec d r p Hp Hd Hl) as (elig & -> & Helig & Hb). simpl.
    assert (Hpl : length (postedPrice_ d !!! r) = territories_n) by (rewrite Hpr, (acc_posted _ _ _ Hp); apply length_supply).
    destruct (newRoundClockPrice_spec d r (ev_round _ _ Hd)) as (prices & -> & Hprl); [rewrite (ev_posted _ _ Hd); lia|done|].
    simpl. eexists. split; [done|]. split_and!; [done..|]. apply NextRound.
    pose proof (ev_clock _ _ Hd) as Hcl. pose proof (ev_elig _ _ Hd) as Hel.
    constructor; replace (S r - 1)%nat with r by lia; simpl; rewrite ?length_app; simpl; try done.
    + apply Hd.
    + apply Hd.
    + rewrite (ev_round _ _ Hd), wrap32_exact by lia. lia.
    + lia.
    + rewrite (ev_posted _ _ Hd). lia.
    + lia.
    + lia.
    + apply Hd.
    + rewrite <- Hcl, snoc_total. done.
    + rewrite <- Hel, snoc_total. done.
    + intros _. rewrite <- Hel at 1. rewrite snoc_total, Hl, Hx, Hpr.
      destruct Helig as [Hell _ _].
      apply balanced_intro; rewrite ?Hell; [by rewrite (progress_rows _ p Hp He)| |apply Hp|done| |intros b Hi; by apply Hb|].
      * pose proof (acc_cols _ _ _ Hp) as Hc. by rewrite length_supply in Hc.
      * by rewrite <- Hpr.
      * intros t Ht. apply Hp. by rewrite length_supply.
Qed.

Lemma processBidsPostamble_spec d r : evaluated d r →
  ∃ d', processBidsPostamble s d = Some d' ∧ kept d d' ∧ clockBids_ d' = clockBids_ d ∧ round_result d' r.
Proof.
  intros Hd. destruct (ev_balanced _ _ Hd) as (ex & [caps Hp] & Hex). set (p := mkProgress _ ex _ caps) in Hp.
  pose proof (ev_elig_row _ _ Hd) as He. destruct (ev_bounds _ _ Hd) as [Hr1 Hr2].
  unfold processBidsPostamble.
  rewrite (roundExcess_spec d r _ p Hp He (ev_round _ _ Hd)) by (rewrite ?(ev_licenses _ _ Hd); lia || done). simpl.
  rewrite (ev_round _ _ Hd). unfold size.
  assert (Hgo : ∀ d', evaluated d' r → eligibility_ d' = eligibility_ d → processedLicenses_ d' = processedLicenses_ d →
    postedPrice_ d' = postedPrice_ d → length (excessDemand_ d') = S r → excessDemand_ d' !!! r = ex →
    ∃ d'', nextRound s ex (finalStageRule s ex d') = Some d'' ∧ kept d' d'' ∧ clockBids_ d'' = clockBids_ d' ∧ round_result d'' r).
  { intros d' Hd' E1 E2 E3 Hl Hx. unfold finalStageRule. case_match.
    - eexists. unfold nextRound. simpl. split; [done|]. split_and!; [done..|]. by apply RuleFailed.
    - apply (nextRound_spec d' r p); rewrite ?E1, ?E2, ?E3; done. }
  destruct Hex as [Hex|[Hex Hrow]]; rewrite Hex.
  - rewrite Z.eqb_refl. destruct (Hgo (set_excess (excessDemand_ d ++ [ex]) d)) as (d'' & ? & ? & ? & ?); simpl;
      rewrite ?length_app; simpl; try done; [|lia|by rewrite <- Hex, snoc_total|by exists d''].
    destruct Hd. constructor; simpl; try done. exists ex. split; [by exists caps|]. right.
    rewrite length_app. simpl. split; [lia|]. by rewrite <- Hex, snoc_total.
  - rewrite (proj2 (Z.eqb_neq _ _)) by lia. rewrite at_some by lia. simpl. rewrite Hrow, bool_decide_eq_true_2 by done.
    destruct (Hgo d) as (d'' & ? & ? & ? & ?); try done. by exists d''.
Qed.

(** *** The first round *)

(** Recording the demands of a bid in a row of zeros: the row holds their quantities. *)
Lemma recordDemands_spec l row : length row = territories_n → Forall (Z.le 0) row →
  NoDup (territoryId_ <$> l) →
  Forall (λ dem, territoryId_ dem ∈ getTerritoryIds s ∧ 0 ≤ quantity_ dem < 2 ^ 32) l →
  Forall (λ dem, row !! Z.to_nat (getTerritoryIndex s (territoryId_ dem)) = Some 0) l →
  ∃ row', recordDemands s l row = Some row' ∧ length row' = territories_n ∧ Forall (Z.le 0) row' ∧
    Zsum row' = Zsum row + Zsum (quantity_ <$> l).
Proof.
  intros Hlen Hn Hnd Hl. revert row Hlen Hn. induction l as [|dem l IH]; intros row Hlen Hn Hz.
  { exists row. split_and!; [done..|]. rewrite fmap_nil. unfold Zsum at 3. simpl. lia. }
  rewrite Forall_cons in Hl, Hz. destruct Hl as [[Hid Hq] Hl], Hz as [H0 Hz].
  rewrite fmap_cons in Hnd. apply NoDup_cons in Hnd as [Hnin Hnd].
  destruct (territory_index s _ Hid) as (i & Ei & Hi & _). rewrite Ei, Nat2Z.id in H0.
  cbn [recordDemands]. rewrite Ei, upd_nat by lia. simpl.
  destruct (IH Hnd Hl (<[i := quantity_ dem]> row)) as (row' & -> & Hl' & Hn' & Hs').
  - by rewrite length_insert.
  - apply Forall_insert; [done|lia].
  - apply Forall_forall. intros dem' Hin. rewrite Forall_forall in Hz, Hl. rewrite list_lookup_insert_ne; [by apply Hz|].
    intros E. apply Hnin. apply list_elem_of_fmap. exists dem'. split; [|done].
    destruct (Hl dem' Hin) as [Hid' _]. destruct (territory_index s _ Hid') as (j & Ej & _ & _).
    apply (territory_index_inj s); [done..|]. rewrite Ei, Ej in *. lia.
  - exists row'. split_and!; [done..|]. rewrite Hs', Zsum_insert by lia.
    rewrite (list_lookup_total_correct _ _ _ H0).
    transitivity (Zsum row + (quantity_ dem + Zsum (quantity_ <$> l))); [lia|done].
Qed.

Lemma processInitialRoundBids_spec d i : round_state d 1 → bids_ok d 1 →
  ∃ d', processInitialRoundBids s i d = Some d' ∧ evaluated d' 1 ∧ kept d d' ∧ length (clockBids_ d') = 2%nat.
Proof.
  intros Hd Hb. destruct (fillMissingBids_spec d 1 i Hd Hb) as (bids & Ef & Hbl & Hbids).
  unfold processInitialRoundBids. rewrite Ef. simpl. clear Ef.
  pose proof (rs_licenses _ _ Hd) as Hll. destruct (processedLicenses_ d) as [|l0 [|]]; [done| |done]. clear Hll.
  change (resize 2 [] [l0]) with [l0; []]. simpl. rewrite (getBiddersN_nat s Hs), (getTerritoryN_nat s Hs), !Nat2Z.id.
  rewrite resize_nil.
  pose proof (bo_length _ _ Hb) as Hcl. pose proof (elig_length _ (rs_elig_row _ _ Hd)) as Hel.
  destruct (mapM_upto (λ j, row ← at_ (replicate bidders_n []) j;
      bid ← at2 (<[1%nat:=bids]> (clockBids_ d)) 1 j;
      recordDemands s (demands_ bid) (resize territories_n 0 row)) bidders_n
    (λ b row, length row = territories_n ∧ Forall (Z.le 0) row ∧ Zsum row ≤ eligibility_ d !!! 1%nat !!! b))
    as (rows & -> & Hrl & Hrows).
  { intros b Hbl'. rewrite at_nat, lookup_replicate_2 by done. simpl. change 1 with (Z.of_nat 1).
    assert (Hrow : <[1%nat:=bids]> (clockBids_ d) !!! 1%nat = bids) by (apply list_lookup_total_insert_eq; lia).
    rewrite at2_total by (rewrite ?length_insert, ?Hrow; lia). rewrite Hrow. simpl. rewrite resize_nil.
    destruct (Hbids b Hbl') as ([Hnd Hdm] & _ & l & Edm & Hzero).
    destruct (recordDemands_spec (demands_ (bids !!! b)) (replicate territories_n 0)) as (row & -> & H1 & H2 & H3).
    - apply length_replicate.
    - by apply Forall_replicate.
    - done.
    - done.
    - eapply Forall_impl; [exact Hdm|]. intros dem [Hid _]. destruct (territory_index s _ Hid) as (k & Ek & Hk & _). simpl.
      by rewrite Ek, Nat2Z.id, lookup_replicate_2.
    - exists row. split; [done|]. split_and!; [done..|].
      assert (Zsum (replicate territories_n 0) = 0) as H0 by (generalize territories_n; intros n; induction n; simpl; lia || done).
      rewrite H3, H0, Edm, fmap_app, Zsum_app. pose proof (bo_first _ _ Hb b eq_refl Hbl').
      rewrite (Zsum_zero l Hzero). lia. }
  simpl. pose proof (rs_posted _ _ Hd) as Hpl. simpl in Hpl. destruct (postedPrice_ d) as [|p0 [|p1 [|]]] eqn:Epp; try done.
  simpl. eexists. split; [done|]. split; [|split; [done|etrans; [apply length_insert|done]]].
  constructor; simpl; try done; [apply Hd..| ].
  exists (imap (λ t sup, colsum t rows - sup) (getSupply s)). split; [|left; apply Hd].
  apply balanced_intro; rewrite ?length_imap, ?Hel; try done.
  - apply Forall_lookup. intros b row E. pose proof (lookup_lt_Some _ _ _ E). destruct (Hrows b ltac:(lia)) as (H1 & _).
    by rewrite (list_lookup_total_correct _ _ _ E) in H1.
  - apply Forall_lookup. intros b row E. pose proof (lookup_lt_Some _ _ _ E). destruct (Hrows b ltac:(lia)) as (_ & H1 & _).
    by rewrite (list_lookup_total_correct _ _ _ E) in H1.
  - apply length_supply.
  - unfold getInitialPrices. apply length_fmap.
  - intros b Hi. by apply Hrows.
  - intros t Ht. apply list_lookup_total_correct. rewrite list_lookup_imap.
    rewrite list_lookup_lookup_total_lt by (by rewrite length_supply). done.
Qed.

(** *** Later rounds *)

Lemma presetPrices_spec d r l P : round_state d r → (2 ≤ r)%nat → length P = S r →
  length (P !!! r) = territories_n → P !!! (r - 1)%nat = postedPrice_ d !!! (r - 1)%nat →
  Forall (λ i, (i < territories_n)%nat) l →
  ∃ row, presetPrices d (Z.of_nat <$> l) P = Some (<[r := row]> P) ∧ length row = territories_n.
Proof.
  intros Hd Hr HP Hrow Hprev Hl. destruct (rs_bounds _ _ Hd) as [_ Hb].
  destruct (rs_balanced _ _ Hd Hr) as (caps & Hacc). pose proof (acc_excs _ _ _ Hacc) as Hxl. simpl in Hxl.
  rewrite length_supply in Hxl. revert P HP Hrow Hprev. induction Hl as [|i l Hi Hl IH]; intros P HP Hrow Hprev.
  { exists (P !!! r). split; [|done]. simpl. rewrite list_insert_id; [done|]. apply list_lookup_lookup_total_lt. lia. }
  cbn [fmap list_fmap presetPrices]. rewrite (rs_round _ _ Hd), round_pred by lia.
  rewrite (at2_total (excessDemand_ d)) by (rewrite ?(rs_excess _ _ Hd); lia). simpl.
  assert (∃ price, (if excessDemand_ d !!! (r - 1)%nat !!! i >? 0 then at2 (clockPrice_ d) (Z.of_nat r) (Z.of_nat i)
    else at2 P (Z.of_nat (r - 1)) (Z.of_nat i)) = Some price) as [price ->].
  { case_match; eexists; apply at2_total; rewrite ?(rs_clock _ _ Hd), ?(rs_clock_row _ _ Hd), ?Hprev, ?(rs_posted_row _ _ Hd); lia. }
  simpl. unfold upd2. rewrite at_some by lia. simpl. rewrite upd_nat by lia. simpl. rewrite upd_nat by lia. simpl.
  destruct (IH (<[r := <[i := price]> (P !!! r)]> P)) as (row & E & Hlr).
  - by rewrite length_insert.
  - rewrite list_lookup_total_insert_eq by lia. by rewrite length_insert.
  - rewrite list_lookup_total_insert_ne by lia. done.
  - exists row. split; [|done]. etrans; [exact E|]. by rewrite list_insert_insert_eq.
Qed.

(** What the members are when the queue starts: they make an account of the round. *)
Lemma open_round_spec d r row : round_state d r → (2 ≤ r)%nat →
  length row = territories_n → length (postedPrice_ d) = r →
  let d1 := set_prices (postedPrice_ d ++ [row]) (clockPrice_ d) d in
  ∃ caps ex, account (eligibility_ d !!! r) (getSupply s)
      (mkProgress (processedLicenses_ d !!! (r - 1)%nat) (excessDemand_ d !!! (r - 1)%nat) row caps) ∧
    ex = excessDemand_ d !!! (r - 1)%nat ∧
    open_round s d1 = Some
      (set_excess (excessDemand_ d ++ [ex])
        (set_licenses (processedLicenses_ d ++ [processedLicenses_ d !!! (r - 1)%nat]) d1),
       mkProgress (processedLicenses_ d !!! (r - 1)%nat) ex row caps).
Proof.
  intros Hd Hr Hrow Hpl d1. destruct (rs_bounds _ _ Hd) as [_ Hb].
  destruct (rs_balanced _ _ Hd Hr) as (caps & Hacc). pose proof (rs_elig_row _ _ Hd) as He.
  exists caps, (excessDemand_ d !!! (r - 1)%nat). split_and!; [|done|].
  { destruct Hacc as [? ? ? ? ? ? ? ?]. constructor; try done. simpl. by rewrite length_supply. }
  unfold open_round. rewrite (rs_round _ _ Hd : clockRound_ d1 = _), round_pred by lia.
  pose proof (rs_licenses _ _ Hd) as Hll. pose proof (rs_excess _ _ Hd) as Hxl.
  unfold d1. cbn [processedLicenses_ set_prices]. rewrite at_some by lia. simpl.
  unfold availableEligibility. cbn [clockRound_ set_licenses set_prices eligibility_ processedLicenses_].
  rewrite (getBiddersN_nat s Hs), (rs_round _ _ Hd), round_pred by lia.
  destruct (mapM_upto (λ i, cap ← at2 (eligibility_ d) (Z.of_nat r) i;
      row ← at2 (processedLicenses_ d ++ [processedLicenses_ d !!! (r - 1)%nat]) (Z.of_nat (r - 1)) i;
      Some (wrap32 (cap - sum32 row))) bidders_n (λ b x, x = caps !!! b)) as (l & -> & Hlen & Hl).
  { intros b Hi. pose proof (elig_length _ He) as Hel. pose proof (progress_rows _ _ Hacc He) as Hrows. simpl in Hrows.
    rewrite (at2_total (eligibility_ d)) by (rewrite ?(rs_elig _ _ Hd); lia). simpl.
    rewrite at2_total by (rewrite ?length_app, ?total_snoc by lia; simpl; lia). simpl. rewrite total_snoc by lia.
    eexists. split; [done|]. destruct (acc_cap _ _ _ Hacc b ltac:(lia)) as [Ec Hc]. simpl in Ec, Hc. rewrite Ec in *.
    destruct (account_bounds _ _ _ Hacc b ltac:(lia)) as [Hn Hle]. simpl in *.
    pose proof (Zsum_elem _ b (elig_nonneg _ He) ltac:(lia)). pose proof (elig_total _ He).
    pose proof (Zsum_nonneg _ Hn). rewrite sum32_exact by (done || lia). apply wrap32_exact. lia. }
  simpl. rewrite (at_some (eligibility_ d)) by (rewrite (rs_elig _ _ Hd); lia). simpl.
  pose proof (elig_length _ He) as Hel. rewrite drop_ge, app_nil_r by lia.
  assert (l = caps) as ->.
  { apply list_eq_total; [rewrite (acc_caps _ _ _ Hacc : length caps = _); lia|]. by rewrite Hlen. }
  rewrite (at_some (excessDemand_ d)) by lia. simpl. unfold start_progress. simpl. rewrite (rs_round _ _ Hd).
  rewrite !(at_snoc _ _ r) by done. done.
Qed.

(** The quantity a bid asks for in a territory: none if it does not name it *)
Definition asked (b : Bid) (t : nat) : Z :=
  match list_find (λ dem, getTerritoryIndex s (territoryId_ dem) = Z.of_nat t) (demands_ b) with
  | Some (_, dem) => quantity_ dem
  | None => 0
  end.
Lemma asked_complete b b' l t : (t < territories_n)%nat →
  getDemandedTerritoryIds b' ≡ₚ getTerritoryIds s → demands_ b' = demands_ b ++ l →
  Forall (λ dem, quantity_ dem = 0) l →
  ∃ dem, dem ∈ demands_ b' ∧ Z.to_nat (getTerritoryIndex s (territoryId_ dem)) = t ∧ quantity_ dem = asked b t.
Proof.
  intros Ht Hids Hl Hq. unfold asked.
  destruct (list_find _ (demands_ b)) as [[k dem]|] eqn:E.
  - apply list_find_Some in E as (Hk & Hi & _). exists dem. rewrite Hi, Nat2Z.id. split_and!; [|done..].
    rewrite Hl, elem_of_app. left. by eapply list_elem_of_lookup_2.
  - apply list_find_None in E. rewrite Forall_forall in E, Hq.
    assert (Hlt : (t < length (getTerritoryIds s))%nat) by (unfold getTerritoryIds; by rewrite length_fmap).
    destruct (lookup_lt_is_Some_2 _ _ Hlt) as [id Hid].
    assert (Hin : id ∈ getTerritoryIds s) by (by eapply list_elem_of_lookup_2).
    destruct (territory_index s id Hin) as (i & Ei & _ & Hi).
    assert (i = t) as -> by (eapply NoDup_lookup; [apply Hs|done..]).
    rewrite <- Hids in Hin. apply list_elem_of_fmap in Hin as (dem & -> & Hdem). exists dem.
    rewrite Ei, Nat2Z.id. split_and!; [done..|]. apply Hq.
    rewrite Hl, elem_of_app in Hdem. destruct Hdem as [Hdem|Hdem]; [|done]. by destruct (E dem Hdem).
Qed.
(** The demand of a bid for a territory is unique. *)
Lemma demand_unique b dem dem' : bid_ok s b → dem ∈ demands_ b → dem' ∈ demands_ b →
  Z.to_nat (getTerritoryIndex s (territoryId_ dem)) = Z.to_nat (getTerritoryIndex s (territoryId_ dem')) → dem = dem'.
Proof.
  intros [Hnd Hd] Hin Hin' E. rewrite Forall_forall in Hd.
  destruct (Hd _ Hin) as [Hid _], (Hd _ Hin') as [Hid' _].
  destruct (territory_index s _ Hid) as (t & Et & _), (territory_index s _ Hid') as (t' & Et' & _).
  assert (territoryId_ dem = territoryId_ dem') as Eid.
  { apply (territory_index_inj s); [done..|]. rewrite Et, Et' in *. lia. }
  apply list_elem_of_lookup in Hin as [k Hk], Hin' as [k' Hk'].
  assert (k = k') as ->; [|congruence]. eapply (NoDup_lookup _ k k' (territoryId_ dem) Hnd); unfold getDemandedTerritoryIds;
    rewrite list_lookup_fmap; [by rewrite Hk|by rewrite Hk', Eid].
Qed.

(** The queue of the bidders from [j] on, [k] of them, with the bids [bids] and the
    licences [lic] of the previous round: bids of the right bidder and territory, no two
    for the same, and all that ask for a change. *)
Record enqueued (elig : list Z) (bids : list Bid) (lic : list (list Z)) (j k : nat) (q : list enqueuedBid) : Prop := {
  en_range : Forall (in_range elig (getSupply s)) q;
  en_bidder : Forall (λ e, (j ≤ bidder_of e < j + k)%nat) q;
  en_pos : NoDup (pos <$> q);
  en_demand e : e ∈ q → demand e ∈ demands_ (bids !!! bidder_of e) ∧
    territory_of e = Z.to_nat (getTerritoryIndex s (territoryId_ (demand e)));
  en_all b dem : (j ≤ b < j + k)%nat → dem ∈ demands_ (bids !!! b) →
    quantity_ dem = entry lic b (Z.to_nat (getTerritoryIndex s (territoryId_ dem))) ∨
    ∃ e, e ∈ q ∧ demand e = dem ∧ pos e = (b, Z.to_nat (getTerritoryIndex s (territoryId_ dem))) }.
End rounds.

(** ** Randomness *)

Section random.
Context {W : Type} `{SgxCrypto W} `{Implementation}.
Implicit Types ctx : t_shim_ctx W.

(** The source of randomness works. *)
Definition rand_works : Prop := ∀ w : W, (get_random_bytes 4 w).1.1 = 0.
(** Contexts that differ by random numbers drawn *)
Definition draw ctx ctx' : Prop :=
  ctx' = mkCtx _ (get_random_bytes 4 (world ctx)).2 (read_set ctx) (write_set ctx) (encoded_args ctx)
           (json_args ctx) (shim_log ctx).
Definition draws : relation (t_shim_ctx W) := rtc draw.

Lemma random_uint32_spec ctx : rand_works →
  ∃ x ctx', random_uint32 ctx = Done (Some x) ctx' ∧ draw ctx ctx' ∧ 0 ≤ x.
Proof.
  intros Hw. unfold random_uint32, mbind, SM_bind, ctx_get, draw. specialize (Hw (world ctx)).
  destruct (get_random_bytes 4 (world ctx)) as [[ret bytes] w]. simpl in *. rewrite Hw. simpl.
  eexists _, _. split; [done|]. split; [done|]. generalize (take 4 bytes). intros l.
  induction l as [|b l IH]; simpl; [lia|]. pose proof (uchar_range b). lia.
Qed.

Section enqueue.
Context (Hw : rand_works) (s : StaticAuctionState) (Hs : static_ok s) (d : DynamicAuctionState) (r : nat)
  (elig : list Z) (lic : list (list Z)).
Local Abbreviation bidders_n := (length (bidders_ s)).
Local Abbreviation territories_n := (length (territories_ s)).
(** What the queue is made of *)
Hypotheses (Hround : clockRound_ d = Z.of_nat r) (Hr : (2 ≤ r)%nat ∧ Z.of_nat r < 2 ^ 32)
  (Hel : length elig = bidders_n)
  (Hlic : processedLicenses_ d !! (r - 1)%nat = Some lic) (Hrows : length lic = bidders_n)
  (Hcols : Forall (λ row, length row = territories_n) lic)
  (Hposted : length (postedPrice_ d !!! (r - 1)%nat) = territories_n) (Hpl : (r - 1 < length (postedPrice_ d))%nat)
  (Hclock : length (clockPrice_ d !!! r) = territories_n) (Hcl : (r < length (clockPrice_ d))%nat).

Lemma enqueueDemands_spec b l queue ctx : (b < bidders_n)%nat → NoDup (territoryId_ <$> l) →
  Forall (λ dem, territoryId_ dem ∈ getTerritoryIds s ∧ 0 ≤ quantity_ dem < 2 ^ 32) l →
  ∃ q ctx', enqueueDemands s d (Z.of_nat b) l queue ctx = Done (Some (queue ++ q)) ctx' ∧ draws ctx ctx' ∧
    Forall (in_range elig (getSupply s)) q ∧ Forall (λ e, bidder_of e = b) q ∧ NoDup (pos <$> q) ∧
    (∀ e, e ∈ q → demand e ∈ l ∧ territory_of e = Z.to_nat (getTerritoryIndex s (territoryId_ (demand e)))) ∧
    ∀ dem, dem ∈ l → quantity_ dem = entry lic b (Z.to_nat (getTerritoryIndex s (territoryId_ dem))) ∨
      ∃ e, e ∈ q ∧ demand e = dem ∧ pos e = (b, Z.to_nat (getTerritoryIndex s (territoryId_ dem))).
Proof.
  intros Hb Hnd Hl. revert queue ctx. induction Hl as [|dem l [Hid Hq] Hl IH]; intros queue ctx.
  { exists [], ctx. rewrite app_nil_r. split; [done|]. split; [constructor|]. split_and!; try constructor; set_solver. }
  rewrite fmap_cons in Hnd. apply NoDup_cons in Hnd as [Hnin Hnd]. specialize (IH Hnd).
  destruct (territory_index s _ Hid) as (t & Et & Ht & _).
  pose proof (ok_territories_n _ Hs) as Hmax. unfold size in Hmax.
  cbn [enqueueDemands]. rewrite Et, (wrap32_exact (Z.of_nat t)) by lia.
  rewrite Hround, round_pred by lia.
  assert (Hrow : (t < length (lic !!! b))%nat).
  { rewrite (lookup_total_Forall (λ row, length row = territories_n) lic b Hcols); lia. }
  assert (at3 (processedLicenses_ d) (Z.of_nat (r - 1)) (Z.of_nat b) (Z.of_nat t) = Some (entry lic b t)) as ->.
  { unfold at3. rewrite at_nat, Hlic. simpl. rewrite at2_total by (done || lia). done. }
  unfold mbind at 1, SM_bind at 1, lift at 1. cbn [mret SM_ret].
  destruct (Z.eqb_spec (entry lic b t) (quantity_ dem)) as [Eq|Hne].
  - destruct (IH queue ctx) as (q & ctx' & E & Hdr & K1 & K2 & K3 & K4 & K5). exists q, ctx'.
    split_and!; [done..|set_solver|]. intros dem' [->|Hin]%elem_of_cons; [|by apply K5].
    left. by rewrite Et, Nat2Z.id.
  - rewrite at2_total by lia. rewrite at2_total by lia.
    unfold mbind, SM_bind, lift. cbn [mret SM_ret].
    destruct (random_uint32_spec ctx Hw) as (x & ctx1 & -> & Hd1 & _).
    destruct (IH (queue ++ [mkEnqueuedBid (Z.of_nat b) (Z.of_nat t) dem
      (price_point (price_ dem) (postedPrice_ d !!! (r - 1)%nat !!! t) (clockPrice_ d !!! r !!! t)) x]) ctx1)
      as (q & ctx' & E & Hdr & K1 & K2 & K3 & K4 & K5).
    set (e0 := mkEnqueuedBid _ _ _ _ _) in *.
    exists (e0 :: q), ctx'. rewrite <- app_assoc in E. split; [exact E|].
    assert (Hp0 : pos e0 = (b, t)) by (unfold pos, bidder_of, territory_of; simpl; by rewrite !Nat2Z.id).
    split; [by eapply rtc_l|]. split_and!.
    + constructor; [|done]. constructor; simpl; rewrite ?length_supply, ?Hel; lia.
    + constructor; [|done]. unfold bidder_of. simpl. lia.
    + rewrite fmap_cons. apply NoDup_cons. split; [|done]. intros (e & He & Hin)%list_elem_of_fmap.
      destruct (K4 e Hin) as [Hdm Htr]. apply Hnin. apply list_elem_of_fmap. exists (demand e). split; [|done].
      rewrite Hp0 in He. injection He as _ Het. rewrite Htr in Het.
      rewrite Forall_forall in Hl. destruct (Hl _ Hdm) as [Hid' _].
      destruct (territory_index s _ Hid') as (t' & Et' & _). apply (territory_index_inj s); [done..|].
      rewrite Et' in Het. rewrite Et, Et'. lia.
    + intros e [->|Hin]%elem_of_cons; [|destruct (K4 e Hin); set_solver]. simpl. split; [set_solver|].
      unfold territory_of. simpl. by rewrite Et.
    + intros dem' [->|Hin]%elem_of_cons.
      * right. exists e0. split; [set_solver|]. split; [done|]. by rewrite Hp0, Et, Nat2Z.id.
      * destruct (K5 dem' Hin) as [?|(e & ? & ? & ?)]; [by left|right]. exists e. set_solver.
Qed.

Context (bids : list Bid) (Hbids : clockBids_ d !! r = Some bids) (Hbl : length bids = bidders_n)
  (Hok : ∀ b, (b < bidders_n)%nat → bid_ok s (bids !!! b)).

Lemma enqueueBids_spec k : ∀ j queue ctx, (j + k = bidders_n)%nat →
  ∃ q ctx', enqueueBids s d (Z.of_nat <$> seq j k) queue ctx = Done (Some (queue ++ q)) ctx' ∧ draws ctx ctx' ∧
    enqueued s elig bids lic j k q.
Proof.
  induction k as [|k IH]; intros j queue ctx Hj.
  { exists [], ctx. rewrite app_nil_r. split; [done|]. split; [constructor|].
    constructor; [constructor..| |]; [set_solver|]. intros b dem Hb. lia. }
  cbn [seq fmap list_fmap enqueueBids]. rewrite Hround.
  assert (at2 (clockBids_ d) (Z.of_nat r) (Z.of_nat j) = Some (bids !!! j)) as ->.
  { unfold at2. rewrite at_nat, Hbids. simpl. apply at_some. lia. }
  unfold mbind, SM_bind, lift. cbn [mret SM_ret].
  destruct (Hok j ltac:(lia)) as [Hnd Hdm].
  destruct (enqueueDemands_spec j (reverse (demands_ (bids !!! j))) queue ctx) as (q1 & ctx1 & -> & Hd1 & K1 & K2 & K3 & K4 & K5).
  - lia.
  - rewrite fmap_reverse. by rewrite reverse_Permutation.
  - by rewrite reverse_Permutation.
  - destruct (IH (S j) (queue ++ q1) ctx1 ltac:(lia)) as (q2 & ctx2 & E & Hd2 & [L1 L2 L3 L5 L4]).
    exists (q1 ++ q2), ctx2. rewrite app_assoc. split; [exact E|]. split; [by etrans|].
    rewrite Forall_forall in K2, L2. constructor.
    + by apply Forall_app.
    + apply Forall_app. split; apply Forall_forall; intros e He; [rewrite (K2 e He)|specialize (L2 e He)]; lia.
    + rewrite fmap_app. apply NoDup_app. split_and!; [done| |done].
      intros x (e1 & -> & He1)%list_elem_of_fmap (e2 & He & He2)%list_elem_of_fmap.
      injection He as He _. rewrite (K2 e1 He1) in He. specialize (L2 e2 He2). lia.
    + intros e [He|He]%elem_of_app; [|by apply L5]. destruct (K4 e He) as [K K']. rewrite (K2 e He).
      by rewrite elem_of_reverse in K.
    + intros b dem Hb Hdem. destruct (decide (b = j)) as [->|Hn].
      * destruct (K5 dem) as [?|(e & ? & ? & ?)]; [by rewrite elem_of_reverse|by left|right].
        exists e. rewrite elem_of_app. tauto.
      * destruct (L4 b dem ltac:(lia) Hdem) as [?|(e & ? & ? & ?)]; [by left|right].
        exists e. rewrite elem_of_app. tauto.
Qed.
End enqueue.

(** *** The evaluation of a later round *)

(** What the bids of round [r] did: a bidder holds what it asked for, or it asked for more
    and used up its eligibility, or for less and there is no excess demand any more;
    licences move from the previous number towards what was asked; a territory is not
    left below its supply, unless it was before. *)
Record round_settled (s : StaticAuctionState) (d d' : DynamicAuctionState) (r : nat) : Prop := {
  rset_asked b t : (b < length (bidders_ s))%nat → (t < length (territories_ s))%nat →
    let x := entry (processedLicenses_ d' !!! r) b t in
    let q := asked s (clockBids_ d !!! r !!! b) t in
    x = q ∨ (x < q ∧ Zsum (processedLicenses_ d' !!! r !!! b) = eligibility_ d !!! r !!! b) ∨
    (q < x ∧ excessDemand_ d' !!! r !!! t ≤ 0);
  rset_between b t : (b < length (bidders_ s))%nat → (t < length (territories_ s))%nat →
    let x := entry (processedLicenses_ d' !!! r) b t in
    let x0 := entry (processedLicenses_ d !!! (r - 1)%nat) b t in
    let q := asked s (clockBids_ d !!! r !!! b) t in
    x0 ≤ x ≤ q ∨ q ≤ x ≤ x0;
  rset_excess t : (t < length (territories_ s))%nat →
    Z.min 0 (excessDemand_ d !!! (r - 1)%nat !!! t) ≤ excessDemand_ d' !!! r !!! t }.

Section regular.
Context (Hw : rand_works) (s : StaticAuctionState) (Hs : static_ok s).

(** From the queue to the round *)
Lemma settles_round elig bids orig p q p' left b t :
  account elig (getSupply s) p' → length elig = length (bidders_ s) →
  enqueued s elig bids (licenses p) 0 (length (bidders_ s)) q →
  settles elig (getSupply s) p q p' left →
  (b < length (bidders_ s))%nat → (t < length (territories_ s))%nat →
  bid_ok s (bids !!! b) → getDemandedTerritoryIds (bids !!! b) ≡ₚ getTerritoryIds s →
  (∃ l, demands_ (bids !!! b) = demands_ orig ++ l ∧ Forall (λ dem, quantity_ dem = 0) l) →
  let x := entry (licenses p') b t in
  (x = asked s orig t ∨ (x < asked s orig t ∧ Zsum (licenses p' !!! b) = elig !!! b) ∨
   (asked s orig t < x ∧ excess p' !!! t ≤ 0)) ∧
  (entry (licenses p) b t ≤ x ≤ asked s orig t ∨ asked s orig t ≤ x ≤ entry (licenses p) b t).
Proof.
  intros Hp' Hel Hq Hset Hb Ht Hbid Hids (l & Hl & Hzero) x.
  destruct (asked_complete s Hs orig (bids !!! b) l t Ht Hids Hl Hzero) as (dem & Hdem & Ei & <-).
  destruct (decide ((b, t) ∈ pos <$> q)) as [(e & Epos & He)%list_elem_of_fmap|Hn].
  - destruct (en_demand _ _ _ _ _ _ _ Hq e He) as [Hde Hte]. injection Epos as Eb Et. rewrite <- Eb in Hde.
    assert (demand e = dem) as <- by (eapply (demand_unique s); [done..|]; rewrite <- Hte; by rewrite Ei).
    assert (Ex : x = owned p' e) by (unfold x, owned; by rewrite <- Eb, <- Et).
    assert (Ex0 : entry (licenses p) b t = owned p e) by (unfold owned; by rewrite <- Eb, <- Et).
    rewrite Ex, Ex0. split; [|exact (settled_between _ _ _ _ _ _ Hset e He)].
    destruct (settled _ _ _ _ _ _ Hset e He) as [Hleft|?]; [|by left].
    pose proof (settled_left _ _ _ _ _ _ Hset) as Hblk. rewrite Forall_forall in Hblk. specialize (Hblk e Hleft).
    unfold blocked in Hblk. rewrite <- Eb, <- Et in Hblk. destruct (acc_cap _ _ _ Hp' b ltac:(lia)) as [Ec _]. lia.
  - destruct (en_all _ _ _ _ _ _ _ Hq b dem ltac:(lia) Hdem) as [E|(e & He & _ & Ep)].
    + rewrite Ei in E. unfold x. rewrite (settled_frame _ _ _ _ _ _ Hset b t) by (lia || done). lia.
    + destruct Hn. rewrite Ei in Ep. rewrite <- Ep. by apply list_elem_of_fmap_2.
Qed.

Lemma round_state_bids d r bids : round_state s d r → round_state s (set_bids bids d) r.
Proof. by intros []; constructor. Qed.
Lemma insert_snoc {A} (l : list A) a x r : length l = r → <[r := x]> (l ++ [a]) = l ++ [x].
Proof. intros <-. by rewrite insert_app_r_alt, Nat.sub_diag by lia. Qed.

(** The state when the queue starts, for the bids that were completed *)
Lemma start_of_round d r bids row ctx : round_state s d r → (2 ≤ r)%nat →
  length (clockBids_ d) = S r → length bids = length (bidders_ s) →
  (∀ b, (b < length (bidders_ s))%nat → bid_ok s (bids !!! b)) → length row = length (territories_ s) →
  let d1 := set_prices (postedPrice_ d ++ [row]) (clockPrice_ d) (set_bids (<[r := bids]> (clockBids_ d)) d) in
  ∃ q ctx', enqueueBids s d1 (upto (getBiddersN s)) [] ctx = Done (Some q) ctx' ∧ draws ctx ctx' ∧
    enqueued s (eligibility_ d !!! r) bids (processedLicenses_ d !!! (r - 1)%nat) 0 (length (bidders_ s)) q.
Proof.
  intros Hd Hr Hcb Hbl Hok Hrow d1. destruct (rs_bounds _ _ _ Hd) as [_ Hb].
  destruct (rs_balanced _ _ _ Hd Hr) as (caps & Hacc). pose proof (rs_elig_row _ _ _ Hd) as He.
  pose proof (rs_posted _ _ _ Hd) as Hpl. rewrite Nat.max_l in Hpl by lia.
  pose proof (acc_cols _ _ _ Hacc) as Hcols. simpl in Hcols. rewrite length_supply in Hcols.
  rewrite (getBiddersN_nat s Hs), upto_nat.
  destruct (enqueueBids_spec Hw s Hs d1 r (eligibility_ d !!! r) (processedLicenses_ d !!! (r - 1)%nat)
    (rs_round _ _ _ Hd) ltac:(lia)) with (bids := bids) (k := length (bidders_ s)) (j := 0%nat) (queue := @nil enqueuedBid) (ctx := ctx)
    as (q & ctx' & E & Hdr & Hq); try done.
  - apply He.
  - apply list_lookup_lookup_total_lt. simpl. rewrite (rs_licenses _ _ _ Hd). lia.
  - apply (progress_rows s _ _ Hacc He).
  - simpl. rewrite total_snoc by lia. apply Hd.
  - simpl. rewrite length_app. lia.
  - apply Hd.
  - simpl. rewrite (rs_clock _ _ _ Hd). lia.
  - simpl. apply list_lookup_insert_eq. lia.
  - by exists q, ctx'.
Qed.

Lemma processRegularRoundBids_spec d r i ctx : round_state s d r → bids_ok s d r → (2 ≤ r)%nat →
  Z.of_nat r + 2 < 2 ^ 32 →
  ∃ N, ∀ fuel, (N ≤ fuel)%nat → ∃ d' ctx', processRegularRoundBids fuel s i d ctx = Done d' ctx' ∧ draws ctx ctx' ∧
    evaluated s d' r ∧ kept d d' ∧ length (clockBids_ d') = S r ∧ round_settled s d d' r.
Proof.
  intros Hd Hb Hr Hmax. destruct (fillMissingBids_spec s Hs d r i Hd Hb) as (bids & Ef & Hbl & Hbids).
  pose proof (rs_posted _ _ _ Hd) as Hpl. rewrite Nat.max_l in Hpl by lia.
  pose proof (rs_elig_row _ _ _ Hd) as He.
  set (d1 := set_bids (<[r := bids]> (clockBids_ d)) d) in *.
  assert (Hd1 : round_state s d1 r) by (by apply round_state_bids).
  set (zeros := replicate (length (territories_ s)) (S754_zero false)).
  destruct (presetPrices_spec s d1 r (seq 0 (length (territories_ s))) (postedPrice_ d ++ [zeros])) as (row & Ep & Hrl); try done.
  { rewrite length_app. simpl. lia. }
  { rewrite <- Hpl, snoc_total. apply length_replicate. }
  { rewrite total_snoc by lia. done. }
  { apply Forall_seq. lia. }
  rewrite insert_snoc in Ep by done.
  destruct (start_of_round d r bids row ctx Hd Hr (bo_length _ _ _ Hb) Hbl (λ b Hi, proj1 (Hbids b Hi)) Hrl)
    as (q & ctx' & Eq & Hdr & Hq). fold d1 in Eq.
  destruct (open_round_spec s Hs d1 r row Hd1 Hr Hrl Hpl) as (caps & ex & Hacc & Hex & Eo). simpl in Hacc, Hex.
  set (p := mkProgress _ _ row caps) in Hacc.
  pose proof (rs_clock _ _ _ Hd) as Hcl. pose proof (rs_clock_row _ _ _ Hd) as Hclr.
  assert (Hperm : sort_bids q ≡ₚ q) by apply list_sort_elements.
  exists (enough p (sort_bids q)). intros fuel Hfuel.
  destruct (processQueue_settles (eligibility_ d !!! r) (getSupply s) (clockPrice_ d !!! r)
    (elig_sizes s Hs _ _ He Hclr) (length (sort_bids q)) fuel p [] (sort_bids q)) as (p' & left & Erun & Hp' & Hset); try done.
  { rewrite Hperm. apply Hq. }
  { simpl. rewrite Hperm. apply Hq. }
  assert (Hset' : settles (eligibility_ d !!! r) (getSupply s) p q p' left).
  { destruct Hset as [S1 S2 S3 S4 S5]. constructor; [done|..|done]; intros *; rewrite <- Hperm; [apply S2|apply S3|apply S4]. }
  exists (store_progress p' (set_excess (excessDemand_ d ++ [ex])
    (set_licenses (processedLicenses_ d ++ [processedLicenses_ d !!! (r - 1)%nat])
      (set_prices (postedPrice_ d ++ [row]) (clockPrice_ d) d1)))), ctx'.
  split.
  { unfold processRegularRoundBids. rewrite Ef. fold d1. unfold mbind, SM_bind, lift at 1. cbn [mret SM_ret].
    rewrite (getTerritoryN_nat s Hs), upto_nat, Nat2Z.id. fold zeros. unfold lift at 1.
    change (postedPrice_ d1) with (postedPrice_ d). rewrite Ep. cbn [mret SM_ret].
    change (clockPrice_ d1) with (clockPrice_ d). rewrite Eq. unfold lift. simpl in Eo. rewrite Eo. cbn [mret SM_ret].
    change (clockPrice_ (set_excess _ _)) with (clockPrice_ d). change (clockRound_ (set_excess _ _)) with (clockRound_ d).
    rewrite (rs_round _ _ _ Hd), at_some by lia. cbn [default id from_option]. rewrite Hex. unfold id. unfold p in Erun. rewrite Erun. done. }
  pose proof (rs_licenses _ _ _ Hd) as Hll. pose proof (rs_excess _ _ _ Hd) as Hxl.
  unfold store_progress. cbn [clockRound_ processedLicenses_ excessDemand_ postedPrice_ clockPrice_ set_licenses set_excess
    set_prices set_bids d1]. rewrite (rs_round _ _ _ Hd), Nat2Z.id, !insert_snoc by done.
  split_and!; [done| |done|simpl; rewrite length_insert; apply Hb|].
  - constructor; simpl; rewrite ?length_app; simpl; try lia; try apply Hd.
    exists (excess p'). rewrite !(last_snoc _ _ r) by done. split; [|right; split; [lia|done]].
    exists (eligibilityCap p'). by destruct p'.
  - pose proof (elig_length _ _ He) as Hel.
    assert (Hall : ∀ b t, (b < length (bidders_ s))%nat → (t < length (territories_ s))%nat →
      let x := entry (licenses p') b t in let a := asked s (clockBids_ d !!! r !!! b) t in
      (x = a ∨ (x < a ∧ Zsum (licenses p' !!! b) = eligibility_ d !!! r !!! b) ∨ (a < x ∧ excess p' !!! t ≤ 0)) ∧
      (entry (licenses p) b t ≤ x ≤ a ∨ a ≤ x ≤ entry (licenses p) b t)).
    { intros b t Hbn Htn. destruct (Hbids b Hbn) as (Hbk & Hids & Hdem).
      by apply (settles_round (eligibility_ d !!! r) bids (clockBids_ d !!! r !!! b) p q p' left b t Hp' Hel Hq Hset'). }
    constructor; simpl; rewrite !(last_snoc _ _ r) by done; [intros b t Hbn Htn; by apply Hall..|].
    intros t Ht. rewrite <- (length_supply s) in Ht. apply (settled_excess _ _ _ _ _ _ Hset' t Ht).
Qed.
End regular.
End random.
