(* ===== verification/SpectrumAssign.v ===== *)
(** * The spectrum auction: the assignment round

    The channels of every territory are dealt out in a random order: each bidder gets as
    many as it has licences there. *)
From stdpp Require Import base list numbers option strings sorting sets relations.
From Stdlib Require Import ZArith Lia.
From S2P Require Import Prelude ParsonText CNum CDouble JsonSpec SgxCCLib EnclaveCrypto Shim Chaincodes.
From S2P Require Import Spectrum SpectrumEval SpectrumProof SpectrumRounds.
Local Open Scope Z_scope.

(** ** Counting *)

Definition count (v : Z) (l : list Z) : nat := length (filter (λ x, x = v) l).
#[global] Instance count_proper v : Proper ((≡ₚ) ==> (=)) (count v).
Proof. intros l k Hlk. unfold count. by rewrite Hlk. Qed.
Lemma count_app v l k : count v (l ++ k) = (count v l + count v k)%nat.
Proof. unfold count. by rewrite filter_app, length_app. Qed.
Lemma count_cons v x l : count v (x :: l) = ((if decide (x = v) then 1 else 0) + count v l)%nat.
Proof. unfold count. rewrite filter_cons. by case_decide. Qed.
Lemma count_replicate v n x : count v (replicate n x) = if decide (x = v) then n else 0%nat.
Proof.
  induction n as [|n IH]; simpl; [by case_decide|]. rewrite count_cons, IH. case_decide; lia.
Qed.

Lemma delete_insert_eq {A} (l : list A) i y : delete i (<[i := y]> l) = delete i l.
Proof. revert i. induction l as [|x l IH]; intros [|i]; simpl; try done. f_equal. apply IH. Qed.
Lemma insert_Permutation {A} (l : list A) i x y : l !! i = Some x → <[i := y]> l ≡ₚ y :: delete i l.
Proof.
  intros Hi. rewrite <- (delete_insert_eq l i y). apply delete_Permutation.
  apply list_lookup_insert_eq. by eapply lookup_lt_Some.
Qed.
Lemma count_insert v l i x y : l !! i = Some x → x ≠ v →
  count v (<[i := y]> l) = ((if decide (y = v) then 1 else 0) + count v l)%nat.
Proof.
  intros Hi Hx. rewrite (insert_Permutation l i x y Hi), count_cons.
  assert (count v l = count v (x :: delete i l)) as -> by (by rewrite <- (delete_Permutation l i x Hi)).
  rewrite count_cons, (decide_False (P := x = v)) by done. lia.
Qed.

(** Swapping two elements *)
Lemma swap_Permutation {A} (l : list A) i j a b : l !! i = Some a → l !! j = Some b →
  <[j := a]> (<[i := b]> l) ≡ₚ l.
Proof.
  intros Hi Hj. assert (H1 : <[i := b]> l !! j = Some b).
  { destruct (decide (i = j)) as [->|Hn]; [|by rewrite list_lookup_insert_ne].
    apply list_lookup_insert_eq. by eapply lookup_lt_Some. }
  assert (E : b :: delete i l ≡ₚ b :: delete j (<[i := b]> l)).
  { by rewrite <- (delete_Permutation _ _ _ H1), <- (insert_Permutation l i a b Hi). }
  apply Permutation_cons_inv in E.
  by rewrite (insert_Permutation _ _ _ a H1), <- E, <- (delete_Permutation _ _ _ Hi).
Qed.

(** ** Dealing out channels *)

Lemma assign_spec w : ∀ indexes row, NoDup indexes →
  Forall (λ c, 0 ≤ c ∧ row !! Z.to_nat c = Some (-1)) indexes → (length w ≤ length indexes)%nat →
  ∃ row', assign w indexes row = Some row' ∧ length row' = length row ∧
    (∀ v, v ≠ -1 → count v row' = (count v row + count v w)%nat) ∧
    ∀ P : Z → Prop, Forall P row → Forall P w → Forall P row'.
Proof.
  induction w as [|j w IH]; intros [|c indexes] row Hnd Hrow Hlen; simpl in Hlen; try lia.
  - exists row. split_and!; [done..| |done]. intros v _. change (count v []) with 0%nat. lia.
  - exists row. split_and!; [done..| |done]. intros v _. change (count v []) with 0%nat. lia.
  - apply NoDup_cons in Hnd as [Hnin Hnd]. apply Forall_cons in Hrow as [[Hc Hrc] Hrow].
    simpl. rewrite <- (Z2Nat.id c Hc), upd_nat by (by eapply lookup_lt_Some). simpl.
    destruct (IH indexes (<[Z.to_nat c := j]> row)) as (row' & -> & Hl & Hcount & Hall); [done| |lia|].
    { apply Forall_forall. intros c' Hin. rewrite Forall_forall in Hrow. destruct (Hrow c' Hin) as [Hc' Hrc'].
      split; [done|]. rewrite list_lookup_insert_ne; [done|]. intros E. apply Hnin.
      assert (c = c') as -> by lia. done. }
    exists row'. rewrite length_insert in Hl. split_and!; [done..| |].
    + intros v Hv. rewrite Hcount, (count_insert v _ _ (-1)) by done. rewrite count_cons. lia.
    + intros P HP [Hj Hw]%Forall_cons. apply Hall; [by apply Forall_insert|done].
Qed.

Lemma upto_NoDup n : NoDup (upto n).
Proof. unfold upto. apply NoDup_fmap_2; [intros x y; lia|]. apply NoDup_seq. Qed.
Lemma elem_of_upto n i : i ∈ upto n ↔ 0 ≤ i < n.
Proof.
  unfold upto. rewrite list_elem_of_fmap. setoid_rewrite elem_of_seq. split; [intros (k & -> & Hk); lia|].
  intros Hi. exists (Z.to_nat i). lia.
Qed.
Lemma length_upto n : length (upto n) = Z.to_nat n.
Proof. unfold upto. by rewrite length_fmap, length_seq. Qed.

Section winners.
Context (s : StaticAuctionState) (Hs : static_ok s) (d : DynamicAuctionState) (r : nat) (lic : list (list Z)).
Context (Hround : clockRound_ d = Z.of_nat r) (Hlic : processedLicenses_ d !! r = Some lic)
  (Hrows : length lic = length (bidders_ s)) (Hn : Forall (Forall (Z.le 0)) lic) (t : nat)
  (Hcols : Forall (λ row, (t < length row)%nat) lic).

(** Each bidder is as many times among the winners as it has licences. *)
Lemma winners_spec : ∃ w, winners s d (Z.of_nat t) = Some w ∧ Z.of_nat (length w) = colsum t lic ∧
  (∀ b, (b < length (bidders_ s))%nat → Z.of_nat (count (Z.of_nat b) w) = entry lic b t) ∧
  Forall (λ v, 0 ≤ v < Z.of_nat (length (bidders_ s))) w.
Proof.
  unfold winners. rewrite Hround, (getBiddersN_nat s Hs).
  destruct (mapM_upto (λ j, n ← at3 (processedLicenses_ d) (Z.of_nat r) j (Z.of_nat t); Some (replicate (Z.to_nat n) j))
    (length (bidders_ s)) (λ b l, l = replicate (Z.to_nat (entry lic b t)) (Z.of_nat b))) as (l & -> & Hlen & Hl).
  { intros b Hb. unfold at3. rewrite at_nat, Hlic. simpl. rewrite at2_total; [by eexists|lia|].
    apply (lookup_total_Forall (λ row, (t < length row)%nat)); [done|lia]. }
  simpl. eexists. split; [done|].
  assert (Hcount : ∀ k n, (n + k = length (bidders_ s))%nat →
    Z.of_nat (length (concat (drop n l))) = Zsum ((λ row, row !!! t) <$> drop n lic) ∧
    ∀ b, Z.of_nat (count (Z.of_nat b) (concat (drop n l))) =
      if decide (n ≤ b < length (bidders_ s))%nat then entry lic b t else 0).
  { intros k. induction k as [|k IH]; intros n Hk.
    { rewrite !drop_ge by lia. split; [done|]. intros b. rewrite decide_False by lia. done. }
    destruct (IH (S n) ltac:(lia)) as [IHl IHc].
    rewrite (drop_S l (l !!! n) n), (drop_S lic (lic !!! n) n) by (apply list_lookup_lookup_total_lt; lia).
    rewrite (Hl n) by lia. cbn [concat fmap list_fmap].
    assert (H0 : 0 ≤ entry lic n t).
    { apply (lookup_total_Forall (Z.le 0)); [apply (lookup_total_Forall (Forall (Z.le 0))); [done|lia]|].
      apply (lookup_total_Forall (λ row, (t < length row)%nat)); [done|lia]. }
    rewrite length_app, length_replicate, Nat2Z.inj_add, IHl, Z2Nat.id by done. split; [done|]. intros b.
    rewrite count_app, count_replicate, Nat2Z.inj_add, IHc.
    destruct (decide (Z.of_nat n = Z.of_nat b)) as [E|Hne].
    - assert (b = n) as -> by lia. rewrite (decide_False (P := (S n ≤ n < _)%nat)) by lia. rewrite decide_True by lia. lia.
    - assert ((S n ≤ b < length (bidders_ s))%nat ↔ (n ≤ b < length (bidders_ s))%nat) as Hiff by lia.
      destruct (decide (S n ≤ b < length (bidders_ s))%nat), (decide (n ≤ b < length (bidders_ s))%nat); lia. }
  destruct (Hcount (length (bidders_ s)) 0%nat eq_refl) as [Hlw Hcw]. rewrite drop_0 in Hlw, Hcw.
  split; [by rewrite drop_0 in Hlw|]. split; [intros b Hb; by rewrite Hcw, decide_True by lia|].
  apply Forall_concat, Forall_forall. intros row [b Hrow]%list_elem_of_lookup.
  assert (Hb : (b < length l)%nat) by (by eapply lookup_lt_Some). rewrite <- (list_lookup_total_correct _ _ _ Hrow), Hl by lia.
  apply Forall_replicate. lia.
Qed.
End winners.

Section assignment.
Context {W : Type} `{SgxCrypto W} `{Implementation} (Hw : rand_works (W := W)).
Implicit Types ctx : t_shim_ctx W.

Lemma shuffle_spec N js l ctx : length l = Z.to_nat N → Forall (λ j, 0 ≤ j < N) js →
  ∃ l' ctx', shuffle N js l ctx = Done (Some l') ctx' ∧ draws ctx ctx' ∧ l' ≡ₚ l.
Proof.
  intros Hl Hjs. revert l ctx Hl. induction Hjs as [|j js Hj Hjs IH]; intros l ctx Hl.
  { exists l, ctx. split_and!; [done|constructor|done]. }
  cbn [shuffle]. unfold mbind, SM_bind. destruct (random_uint32_spec ctx Hw) as (x & ctx1 & -> & Hd1 & Hx).
  pose proof (Z.mod_pos_bound x N ltac:(lia)) as Hm. set (k := x mod N) in *.
  destruct (lookup_lt_is_Some_2 l (Z.to_nat j) ltac:(lia)) as [a Ha].
  destruct (lookup_lt_is_Some_2 l (Z.to_nat k) ltac:(lia)) as [b Hb].
  rewrite <- (Z2Nat.id j), <- (Z2Nat.id k) by lia. rewrite !at_nat, Ha, Hb. unfold lift. cbn [mret SM_ret].
  rewrite upd_nat by lia. cbn [mret SM_ret]. rewrite upd_nat by (rewrite length_insert; lia). cbn [mret SM_ret].
  destruct (IH (<[Z.to_nat k := a]> (<[Z.to_nat j := b]> l)) ctx1) as (l' & ctx' & -> & Hd' & Hp).
  { by rewrite !length_insert. }
  exists l', ctx'. split_and!; [done|by eapply rtc_l|]. rewrite Hp. by apply swap_Permutation.
Qed.

Section territories.
Context (s : StaticAuctionState) (Hs : static_ok s) (d : DynamicAuctionState) (r : nat) (elig : list Z) (p : progress).
Context (Hround : clockRound_ d = Z.of_nat r) (Hlic : processedLicenses_ d !! r = Some (licenses p))
  (Hposted : postedPrice_ d !! r = Some (posted p)) (Hp : account elig (getSupply s) p) (He : elig_ok s elig)
  (Hex : Forall (λ x, x ≤ 0) (excess p)).
Local Abbreviation territories_n := (length (territories_ s)).

(** The row of a territory: one entry per channel, and of every bidder as many as it has
    licences *)
Definition assigned (t : nat) (row : list Z) : Prop :=
  Z.of_nat (length row) = getSupply s !!! t ∧
  (∀ b, (b < length (bidders_ s))%nat → Z.of_nat (count (Z.of_nat b) row) = entry (licenses p) b t) ∧
  Forall (λ v, v = -1 ∨ 0 ≤ v < Z.of_nat (length (bidders_ s))) row.
(** The rows of costs and prices have an entry per bidder and per channel. *)
Definition priced (t : nat) (cost price : list (list double)) : Prop :=
  length (cost !!! t) = length (bidders_ s) ∧ Z.of_nat (length (price !!! t)) = getSupply s !!! t.

Lemma territory_at t : (t < territories_n)%nat → ∃ ter, (id ← at_ (getTerritoryIds s) (Z.of_nat t); getTerritory s id) = Some ter ∧
  numberOfChannels ter = getSupply s !!! t ∧ length (channels_ ter) = Z.to_nat (getSupply s !!! t).
Proof.
  intros Ht. destruct (lookup_lt_is_Some_2 _ _ Ht) as [ter Hter]. exists ter.
  assert (Hid : getTerritoryIds s !! t = Some (territory_id_ ter)) by (unfold getTerritoryIds; by rewrite list_lookup_fmap, Hter).
  rewrite at_nat, Hid. simpl. unfold getTerritory.
  assert (Hsup : getSupply s !!! t = numberOfChannels ter).
  { apply list_lookup_total_correct. unfold getSupply. by rewrite list_lookup_fmap, Hter. }
  rewrite Hsup. split_and!; [|done|].
  - assert (list_find (λ u, (territory_id_ u =? territory_id_ ter) = true) (territories_ s) = Some (t, ter)) as ->; [|done].
    apply (list_find_key _ territory_id_); [intros u; apply Z.eqb_eq|apply Hs|done].
  - pose proof (Forall_lookup_1 _ _ _ _ (ok_channels _ Hs) Hter) as Hc. simpl in Hc. unfold numberOfChannels.
    rewrite wrap32_exact; unfold size in *; lia.
Qed.

Lemma assignTerritories_spec k : ∀ j win cost price ctx, (j + k = territories_n)%nat →
  length win = territories_n → length cost = territories_n → length price = territories_n →
  (∀ t, (j ≤ t < territories_n)%nat → win !!! t = []) →
  ∃ win' cost' price' ctx', assignTerritories s d (Z.of_nat <$> seq j k) win cost price ctx =
      Done (true, (win', cost', price')) ctx' ∧ draws ctx ctx' ∧
    (length win' = territories_n ∧ length cost' = territories_n ∧ length price' = territories_n) ∧
    (∀ t, (t < j)%nat → win' !!! t = win !!! t ∧ cost' !!! t = cost !!! t ∧ price' !!! t = price !!! t) ∧
    ∀ t, (j ≤ t < territories_n)%nat → assigned t (win' !!! t) ∧ priced t cost' price'.
Proof.
  induction k as [|k IH]; intros j win cost price ctx Hj Hwl Hcl Hpl Hempty.
  { exists win, cost, price, ctx. split_and!; [done|constructor|done..|]. intros t Ht. lia. }
  cbn [seq fmap list_fmap assignTerritories].
  destruct (territory_at j ltac:(lia)) as (ter & -> & Hn & Hch). unfold mbind, SM_bind, lift at 1. cbn [mret SM_ret].
  set (N := getSupply s !!! j) in *. rewrite Hn.
  assert (HN : 0 ≤ N < 2 ^ 31) by (apply (lookup_total_Forall _ _ j (supply_ok s Hs)); rewrite length_supply; lia).
  rewrite (at_some win j ltac:(lia)), (Hempty j) by lia. unfold lift at 1. cbn [mret SM_ret]. rewrite resize_nil.
  rewrite upd_nat by lia. unfold lift at 1. cbn [mret SM_ret].
  rewrite (at_some price j ltac:(lia)). unfold lift at 1. cbn [mret SM_ret].
  rewrite upd_nat by lia. unfold lift at 1. cbn [mret SM_ret].
  rewrite (at_some cost j ltac:(lia)). unfold lift at 1. cbn [mret SM_ret].
  rewrite upd_nat by lia. unfold lift at 1. cbn [mret SM_ret].
  destruct (shuffle_spec N (upto N) (upto N) ctx) as (idx & ctx1 & -> & Hd1 & Hperm).
  { apply length_upto. } { apply Forall_forall. intros x Hx. by apply elem_of_upto. }
  pose proof (elig_length _ _ He) as Hel. pose proof (acc_posted _ _ _ Hp) as Hposl. rewrite length_supply in Hposl.
  destruct (mapM_upto (λ c, posted ← at2 (postedPrice_ d) (clockRound_ d) (Z.of_nat j);
      impairment ← at_ (getChannelImpairments ter) c;
      Some (dmul posted (ddiv (dsub (double_of_int 100) (double_of_int impairment)) (double_of_int 100))))
    (Z.to_nat N) (λ _ _, True)) as (prices & Epr & Hprl & _).
  { intros c Hc. unfold at2. rewrite Hround, (at_nat (postedPrice_ d)), Hposted. simpl. rewrite (at_some (posted p)) by lia. simpl.
    rewrite at_some by (unfold getChannelImpairments; rewrite length_fmap; lia). by eexists. }
  rewrite Z2Nat.id in Epr by lia. unfold mbind in Epr. rewrite Epr. cbn [lift mret SM_ret].
  rewrite upd_nat by (rewrite length_insert; lia). cbn [lift mret SM_ret].
  destruct (winners_spec s Hs d r (licenses p) Hround Hlic) with (t := j) as (w & -> & Hlw & Hcw & Hrw).
  { apply (progress_rows s _ p Hp He). } { apply Hp. }
  { eapply Forall_impl; [apply (acc_cols _ _ _ Hp)|]. simpl. intros row ->. rewrite length_supply. lia. }
  cbn [lift mret SM_ret]. rewrite at_some by (rewrite length_insert; lia). cbn [lift mret SM_ret].
  rewrite list_lookup_total_insert_eq by lia.
  assert (Hfit : (length w ≤ length idx)%nat).
  { rewrite Hperm, length_upto. pose proof (acc_excess _ _ _ Hp j ltac:(rewrite length_supply; lia)) as Ee. fold N in Ee.
    pose proof (lookup_total_Forall _ _ j Hex ltac:(rewrite (acc_excs _ _ _ Hp), length_supply; lia)) as Hle. simpl in Hle. lia. }
  destruct (assign_spec w idx (replicate (Z.to_nat N) (-1))) as (row & -> & Hrl & Hcount & Hrow).
  { rewrite Hperm. apply upto_NoDup. }
  { apply Forall_forall. intros c Hc. rewrite Hperm, elem_of_upto in Hc. split; [lia|]. apply lookup_replicate_2. lia. }
  { done. }
  cbn [lift mret SM_ret]. rewrite upd_nat by (rewrite length_insert; lia). cbn [lift mret SM_ret].
  rewrite !list_insert_insert_eq.
  match goal with |- context [assignTerritories s d _ ?w' ?c' ?p' ctx1] =>
    destruct (IH (S j) w' c' p' ctx1) as (win' & cost' & price' & ctx' & E & Hd' & Hl' & Hkeep & Hass)
  end; rewrite ?length_insert; try lia.
  { intros t Ht. rewrite list_lookup_total_insert_ne by lia. apply Hempty. lia. }
  exists win', cost', price', ctx'. split; [exact E|]. split; [by etrans|]. split; [done|]. split.
  - intros t Ht. destruct (Hkeep t ltac:(lia)) as (-> & -> & ->). rewrite !list_lookup_total_insert_ne by lia. done.
  - intros t Ht. destruct (decide (t = j)) as [->|Hne]; [|apply Hass; lia]. unfold priced.
    destruct (Hkeep j ltac:(lia)) as (-> & -> & ->). rewrite !list_lookup_total_insert_eq by lia. split; [split_and!|split].
    + rewrite Hrl, length_replicate. fold N. lia.
    + intros b Hb. rewrite Hcount by lia. rewrite count_replicate, decide_False by lia. by apply Hcw.
    + apply Hrow; [apply Forall_replicate; by left|]. eapply Forall_impl; [exact Hrw|]. by right.
    + rewrite length_resize, (getBiddersN_nat s Hs). lia.
    + rewrite Hprl. fold N. lia.
Qed.
End territories.

(** The assignment round closes the auction with every licence assigned. *)
Lemma processAssignmentRound_spec s d r ctx : static_ok s → assignable s d r →
  ∃ d' ctx', processAssignmentRound s d ctx = Done d' ctx' ∧ draws ctx ctx' ∧ auctionState_ d' = CLOSED ∧
    kept d d' ∧ (length (winAssign_ d') = length (territories_ s) ∧ length (assignCost_ d') = length (territories_ s) ∧
      length (channelPrice_ d') = length (territories_ s)) ∧
    (clockRound_ d' = clockRound_ d ∧ processedLicenses_ d' = processedLicenses_ d) ∧
    ∀ t, (t < length (territories_ s))%nat →
      (Z.of_nat (length (winAssign_ d' !!! t)) = getSupply s !!! t ∧
       (∀ b, (b < length (bidders_ s))%nat →
         Z.of_nat (count (Z.of_nat b) (winAssign_ d' !!! t)) = entry (processedLicenses_ d !!! r) b t) ∧
       Forall (λ v, v = -1 ∨ 0 ≤ v < Z.of_nat (length (bidders_ s))) (winAssign_ d' !!! t)) ∧
      priced s t (assignCost_ d') (channelPrice_ d').
Proof.
  intros Hs Hd. destruct (as_balanced _ _ _ Hd) as (ex & (caps & Hp) & Hex). set (p := mkProgress _ ex _ caps) in Hp.
  unfold processAssignmentRound. rewrite (as_fresh _ _ _ Hd), resize_nil.
  assert (Hids : length (getTerritoryIds s) = length (territories_ s)) by apply length_fmap. rewrite Hids, upto_nat.
  destruct (assignTerritories_spec s Hs d r (eligibility_ d !!! r) p) with (k := length (territories_ s)) (j := 0%nat)
    (win := replicate (length (territories_ s)) (@nil Z)) (cost := resize (length (territories_ s)) [] (assignCost_ d))
    (price := resize (length (territories_ s)) [] (channelPrice_ d)) (ctx := ctx)
    as (win & cost & price & ctx' & E & Hdr & Hl & _ & Hass).
  - apply Hd.
  - apply list_lookup_lookup_total_lt. rewrite (as_licenses _ _ _ Hd). lia.
  - apply list_lookup_lookup_total_lt. rewrite (as_posted _ _ _ Hd). lia.
  - done.
  - apply Hd.
  - done.
  - done.
  - apply length_replicate.
  - apply length_resize.
  - apply length_resize.
  - intros t Ht. apply list_lookup_total_correct. apply lookup_replicate_2. lia.
  - unfold mbind, SM_bind. rewrite E. eexists _, ctx'. split; [done|]. split; [done|]. split; [done|]. split; [done|]. split; [exact Hl|]. split; [done|].
    intros t Ht. apply (Hass t). lia.
Qed.
End assignment.
