(* ===== verification/SpectrumTheorems.v ===== *)
(** * The spectrum auction: what holds of every auction

    An auction in order (distinct territories, eligibilities listed in the order of the
    bidders, sizes far from the limits of [uint32_t]) stays in order: in all states that
    creating it, opening rounds, storing valid bids and ending rounds lead to, the next
    round can be evaluated, and the assignment gives every bidder its licences. *)
From stdpp Require Import base list numbers option strings sorting sets relations.
From Stdlib Require Import ZArith Lia.
From S2P Require Import Prelude ParsonText CNum CDouble JsonSpec StdMap SgxCCLib EnclaveCrypto Shim Samples Peer Chaincodes.
From S2P Require Import Spectrum SpectrumEval SpectrumProof SpectrumRounds SpectrumAssign.
Local Open Scope Z_scope.

(** ** Valid bids *)

Lemma checked_bind_good {A B} (c : checked A) (k : A → checked B) b :
  c ≫= k = Good b → ∃ a, c = Good a ∧ k a = Good b.
Proof. destruct c; simpl; [eauto|done..]. Qed.
Lemma fast_fail_good `{Implementation} f l c b u : FAST_FAIL_CHECK f l c b = Good u → b = false.
Proof. unfold FAST_FAIL_CHECK. by destruct b. Qed.
Lemma defined_good {A} (o : option A) a : defined o = Good a → o = Some a.
Proof. destruct o; simpl; by intros [= ->]. Qed.

(** An auction in order *)
Record auction_ok (s : StaticAuctionState) : Prop := {
  auction_static : static_ok s;
  auction_bidders : NoDup (bidder_id_ <$> bidders_ s);
  auction_aligned : elig_bidderId_ <$> initialEligibilities_ s = bidder_id_ <$> bidders_ s;
  auction_supply : Zsum (getSupply s) < 2 ^ 32;
  auction_eligibility : elig_ok s (getInitialEligibilities s) }.

(** The quantities of a bid have their type. *)
Definition typed_bid (b : Bid) : Prop := Forall (λ dem, 0 ≤ quantity_ dem < 2 ^ 32) (demands_ b).

Lemma Zsum_sub (l k : list Z) : Forall (Z.le 0) k → l ⊆+ k → Zsum l ≤ Zsum k.
Proof.
  intros Hk [r Hr]%submseteq_Permutation.
  assert (Hperm : ∀ a b, a ≡ₚ b → Zsum a = Zsum b).
  { intros a b Hab. unfold Zsum. induction Hab; simpl; lia. }
  rewrite (Hperm k _ Hr), Zsum_app. rewrite Hr, Forall_app in Hk.
  pose proof (Zsum_nonneg r (proj2 Hk)). lia.
Qed.

Section valid.
Context `{Implementation} (s : StaticAuctionState) (Hs : auction_ok s) (d : DynamicAuctionState) (bid : Bid).

(** The demands that passed name territories of the auction, none twice and none of those
    seen before, and stay within the supply. *)
Lemma validDemands_good seen l : validDemands s d bid seen l = Good () →
  NoDup (territoryId_ <$> l) ∧ (∀ x, x ∈ territoryId_ <$> l → x ∉ seen) ∧
  Forall (λ dem, territoryId_ dem ∈ getTerritoryIds s ∧
    quantity_ dem ≤ getSupply s !!! Z.to_nat (getTerritoryIndex s (territoryId_ dem))) l ∧
  (l ≠ [] → clockRound_ d = 1 →
    ∃ elig, getEligibilityNumber s (fromPrincipalToBidderId s (submitterPrincipal_ d)) = Some elig ∧
      sumQuantityDemands bid ≤ elig).
Proof.
  revert seen. induction l as [|dem l IH]; intros seen E; [split_and!; [constructor|set_solver|constructor|done]|].
  cbn [validDemands] in E. apply checked_bind_good in E as ([] & Ed & E). destruct (IH _ E) as (Hnd & Hnew & Hl & _).
  unfold isValidDemand in Ed.
  apply checked_bind_good in Ed as (u1 & E1%fast_fail_good & Ed). apply orb_false_iff in E1 as [E1 _].
  apply checked_bind_good in Ed as (u2 & E2%fast_fail_good & Ed). apply bool_decide_eq_false in E1, E2.
  apply checked_bind_good in Ed as (t & Et%defined_good & Ed).
  apply checked_bind_good in Ed as (u3 & E3%fast_fail_good & Ed).
  assert (Ht : territoryId_ dem ∈ getTerritoryIds s ∧
    getSupply s !!! Z.to_nat (getTerritoryIndex s (territoryId_ dem)) = numberOfChannels t).
  { unfold getTerritory, getTerritoryIndex, index_of in *.
    destruct (list_find _ (territories_ s)) as [[i t']|] eqn:Ef; [|done]. injection Et as ->. simpl.
    apply list_find_Some in Ef as (Hi & Hid%Z.eqb_eq & _). rewrite Nat2Z.id. split.
    - rewrite <- Hid. apply list_elem_of_fmap_2. by eapply list_elem_of_lookup_2.
    - apply list_lookup_total_correct. unfold getSupply. by rewrite list_lookup_fmap, Hi. }
  rewrite fmap_cons. split_and!.
  - apply NoDup_cons. split; [|done]. intros Hin. specialize (Hnew _ Hin). set_solver.
  - intros x [->|Hin]%elem_of_cons; [done|]. specialize (Hnew x Hin). set_solver.
  - constructor; [|done]. destruct Ht as [Hid ->]. split; [done|]. rewrite Z.gtb_ltb in E3. by apply Z.ltb_ge.
  - intros _ Hround. rewrite Hround in Ed. simpl in Ed. apply checked_bind_good in Ed as (elig & Ee%defined_good & Ec%fast_fail_good).
    exists elig. split; [done|]. rewrite Z.gtb_ltb in Ec. by apply Z.ltb_ge.
Qed.

Lemma isValidBid_good : isValidBid s d bid = Good () → isValidBidder s d = true ∧
  clockRound_ d = round_ bid ∧ roundActive_ d = true ∧ validDemands s d bid [] (demands_ bid) = Good ().
Proof.
  unfold isValidBid. intros E.
  apply checked_bind_good in E as (u1 & E1%fast_fail_good%negb_false_iff & E).
  apply checked_bind_good in E as (u2 & E2%fast_fail_good%negb_false_iff%Z.eqb_eq & E).
  apply checked_bind_good in E as (u3 & E3%fast_fail_good%negb_false_iff & E). done.
Qed.

Lemma sum_demands (l : list Demand) : NoDup (territoryId_ <$> l) →
  Forall (λ dem, territoryId_ dem ∈ getTerritoryIds s ∧
    quantity_ dem ≤ getSupply s !!! Z.to_nat (getTerritoryIndex s (territoryId_ dem))) l →
  Zsum (quantity_ <$> l) ≤ Zsum (getSupply s).
Proof.
  intros Hnd Hl. pose proof (auction_static _ Hs) as Hst.
  set (idx := λ dem, Z.to_nat (getTerritoryIndex s (territoryId_ dem))).
  assert (Hidx : ∀ dem, dem ∈ l → (idx dem < length (territories_ s))%nat ∧ getTerritoryIds s !! idx dem = Some (territoryId_ dem)).
  { intros dem Hin. rewrite Forall_forall in Hl. destruct (Hl dem Hin) as [Hid _].
    destruct (territory_index s _ Hid) as (t & Et & Ht & Hid'). unfold idx. by rewrite Et, Nat2Z.id. }
  transitivity (Zsum ((λ i, getSupply s !!! i) <$> (idx <$> l))).
  - clear Hnd Hidx. induction Hl as [|dem l [_ Hq] Hl IH]; [done|].
    rewrite !fmap_cons. fold (idx dem) in Hq. unfold Zsum in *. simpl. lia.
  - etrans; [apply (Zsum_sub _ ((λ i, getSupply s !!! i) <$> seq 0 (length (territories_ s))))|].
    + apply Forall_fmap, Forall_seq. intros i Hi. simpl.
      pose proof (lookup_total_Forall _ _ i (supply_ok s Hst) ltac:(rewrite length_supply; lia)) as K. simpl in K. lia.
    + apply fmap_submseteq, NoDup_submseteq.
      * apply NoDup_alt. intros i j x Hi Hj. rewrite list_lookup_fmap in Hi, Hj.
        apply fmap_Some in Hi as (di & Hi & ->), Hj as (dj & Hj & Ej).
        destruct (Hidx di ltac:(by eapply list_elem_of_lookup_2)) as [_ Ki].
        destruct (Hidx dj ltac:(by eapply list_elem_of_lookup_2)) as [_ Kj]. rewrite Ej in Ki.
        eapply (NoDup_lookup _ i j (territoryId_ di) Hnd); rewrite list_lookup_fmap; [by rewrite Hi|].
        rewrite Hj. simpl. congruence.
      * intros i (dem & -> & Hin)%list_elem_of_fmap. apply elem_of_seq. destruct (Hidx dem Hin). lia.
    + apply Z.eq_le_incl. f_equal. apply list_eq_total; rewrite length_fmap, length_seq; [by rewrite length_supply|].
      intros i Hi. apply list_lookup_total_correct. by rewrite list_lookup_fmap, lookup_seq_lt by done.
Qed.

(** The submitter's bidder, its index and its eligibility *)
Lemma valid_bidder : isValidBidder s d = true → ∃ b, (b < length (bidders_ s))%nat ∧
  fromBidderIdToBidderIndex s (fromPrincipalToBidderId s (submitterPrincipal_ d)) = Z.of_nat b ∧
  getEligibilityNumber s (fromPrincipalToBidderId s (submitterPrincipal_ d)) = Some (getInitialEligibilities s !!! b).
Proof.
  unfold isValidBidder, fromPrincipalToBidderId.
  destruct (list_find (λ b, matchPrincipal b (submitterPrincipal_ d) = true) (bidders_ s)) as [[b bd]|] eqn:E; [|done]. intros _.
  apply list_find_Some in E as (Hb & _ & _). exists b.
  assert (Hlt : (b < length (bidders_ s))%nat) by (by eapply lookup_lt_Some). split; [done|].
  unfold fromBidderIdToBidderIndex, index_of, getEligibilityNumber, matchBidderId.
  rewrite (list_find_key _ bidder_id_ _ b bd); [|intros u; apply Z.eqb_eq|apply Hs|done]. split; [done|].
  assert (Hel : length (initialEligibilities_ s) = length (bidders_ s)).
  { pose proof (f_equal length (auction_aligned _ Hs)) as K. by rewrite !length_fmap in K. }
  destruct (lookup_lt_is_Some_2 (initialEligibilities_ s) b ltac:(lia)) as [e He].
  assert (Eid : elig_bidderId_ e = bidder_id_ bd).
  { pose proof (f_equal (.!! b) (auction_aligned _ Hs)) as K. simpl in K. rewrite !list_lookup_fmap, Hb, He in K. by injection K. }
  rewrite (list_find_key _ elig_bidderId_ _ b e); [|intros u; rewrite <- Eid; rewrite Z.eqb_eq; done| |done].
  - simpl. f_equal. symmetry. apply list_lookup_total_correct. unfold getInitialEligibilities. by rewrite list_lookup_fmap, He.
  - rewrite (auction_aligned _ Hs). apply Hs.
Qed.

Lemma valid_bid_ok : typed_bid bid → isValidBid s d bid = Good () → bid_ok s bid ∧
  ∃ b, (b < length (bidders_ s))%nat ∧
    fromBidderIdToBidderIndex s (fromPrincipalToBidderId s (submitterPrincipal_ d)) = Z.of_nat b ∧
    (clockRound_ d = 1 → Zsum (quantity_ <$> demands_ bid) ≤ getInitialEligibilities s !!! b).
Proof.
  intros Ht (Hbid & _ & _ & Hdem)%isValidBid_good. destruct (validDemands_good _ _ Hdem) as (Hnd & _ & Hl & Hsum).
  destruct (valid_bidder Hbid) as (b & Hb & Hidx & Hel). split.
  { constructor; [done|]. apply Forall_forall. intros dem Hin. unfold typed_bid in Ht. rewrite Forall_forall in Ht, Hl.
    split; [by apply Hl|by apply Ht]. }
  exists b. split_and!; [done..|]. intros Hround. pose proof (auction_eligibility _ Hs) as He.
  destruct (demands_ bid) as [|dem l] eqn:E.
  { simpl. unfold Zsum. simpl. apply (lookup_total_Forall (Z.le 0)); [apply He|]. rewrite (elig_length _ _ He). done. }
  rewrite <- E in *. destruct (Hsum ltac:(by rewrite E) Hround) as (elig & Ee & Hle). rewrite Hel in Ee. injection Ee as <-.
  unfold sumQuantityDemands in Hle. rewrite sum32_exact in Hle; [done| |].
  - apply Forall_fmap. eapply Forall_impl; [exact Ht|]. simpl. lia.
  - pose proof (sum_demands _ Hnd Hl). pose proof (auction_supply _ Hs). lia.
Qed.
End valid.

(** ** The steps of an auction *)

Section steps.
Context {W : Type} `{SgxCrypto W} `{Implementation}.
Implicit Types ctx : t_shim_ctx W.

(** What the invocations of an auction do with its state: [startNextRound],
    [submitClockBid] and [endRound], whose guards are those of the code. *)
Inductive auction_step (s : StaticAuctionState) : DynamicAuctionState → DynamicAuctionState → Prop :=
  | Invoked p d : auction_step s d (as_submitter p d)
  | Started d d' : roundActive_ d = false → isStateClockPhase d || isStateAssignmentPhase d = true →
      startRound s d = Some d' → auction_step s d d'
  | Submitted bid d d' : isStateClockPhase d = true → typed_bid bid → isValidBid s d bid = Good () →
      storeBid s bid d = Some d' → auction_step s d d'
  | Ended fuel i d d' ctx ctx' : roundActive_ d = true → isStateClockPhase d || isStateAssignmentPhase d = true →
      clockRound_ d + 2 < 2 ^ 32 → closeRound fuel s i d ctx = Done (Good d') ctx' → auction_step s d d'.

(** The states: in a round, or over *)
Record in_round (s : StaticAuctionState) (d : DynamicAuctionState) (r : nat) : Prop := {
  ir_state : round_state s d r;
  ir_bids : length (clockBids_ d) = r ∨ bids_ok s d r;
  ir_active : roundActive_ d = true → bids_ok s d r;
  ir_first : r = 1%nat → eligibility_ d !!! 1%nat = getInitialEligibilities s }.
Definition auction_inv (s : StaticAuctionState) (d : DynamicAuctionState) : Prop :=
  (∃ r, in_round s d r) ∨ auctionState_ d = FSR_FAILED ∨ auctionState_ d = CLOSED.

Lemma initialize_in_round s p : auction_ok s → ∃ d,
  initialize CLOCK_PHASE 1 false s (fresh p) = Some (setOwner s p, d) ∧ in_round (setOwner s p) d 1.
Proof.
  intros Hs. unfold initialize. simpl. eexists. split; [done|].
  assert (Hpl : length (getInitialPrices s) = length (territories_ s)) by apply length_fmap.
  constructor; simpl; [|by left|done|done].
  constructor; simpl; try done; [by rewrite length_fmap| |lia].
  by destruct (auction_eligibility _ Hs); constructor.
Qed.
Lemma setOwner_ok s p : auction_ok s → auction_ok (setOwner s p).
Proof. intros [K1 K2 K3 K4 K5]. constructor; try done; [by destruct K1; constructor|by destruct K5; constructor]. Qed.

Lemma emptyBid_ok s : bid_ok s emptyBid.
Proof. constructor; constructor. Qed.
Lemma startRound_spec s d r : static_ok s → in_round s d r → roundActive_ d = false →
  ∃ d', startRound s d = Some d' ∧ in_round s d' r ∧ bids_ok s d' r.
Proof.
  intros Hs [Hd Hb _ K1] _. destruct (rs_bounds _ _ _ Hd) as [Hr1 Hr2]. unfold startRound, isStateClockPhase.
  rewrite bool_decide_eq_true_2 by apply Hd. rewrite (rs_round _ _ _ Hd), wrap32_exact by lia. simpl. unfold size.
  assert (Hset : ∀ bids, bids_ok s (set_bids bids d) r → in_round s (set_active true (set_bids bids d)) r ∧
    bids_ok s (set_active true (set_bids bids d)) r).
  { intros bids [B1 B2 B3 B4]. assert (bids_ok s (set_active true (set_bids bids d)) r) by (by constructor).
    split; [|done]. constructor; [by destruct Hd; constructor|by right|done|done]. }
  destruct Hb as [Hlen|Hb].
  - rewrite (proj2 (Z.ltb_lt _ _)) by lia. rewrite at_snoc by done. simpl. rewrite resize_nil.
    rewrite upd_nat by (rewrite length_app; simpl; lia). simpl. eexists. split; [done|]. apply Hset.
    rewrite insert_snoc by done. rewrite (getBiddersN_nat s Hs), Nat2Z.id.
    constructor; simpl; rewrite ?length_app; simpl; rewrite ?(last_snoc _ _ r) by done; [lia|apply length_replicate| |].
    + apply Forall_replicate, emptyBid_ok.
    + intros b _ Hb. pose proof (rs_elig_row _ _ _ Hd) as He.
      rewrite (list_lookup_total_correct _ _ emptyBid) by (by apply lookup_replicate_2). simpl. unfold Zsum. simpl.
      apply (lookup_total_Forall (Z.le 0)); [apply He|]. rewrite (elig_length _ _ He). done.
  - rewrite (bo_length _ _ _ Hb), (proj2 (Z.ltb_ge _ _)) by lia. simpl. eexists. split; [done|]. apply Hset.
    by destruct Hb; constructor.
Qed.

Lemma storeBid_spec s d r bid : auction_ok s → in_round s d r → typed_bid bid → isValidBid s d bid = Good () →
  ∃ d', storeBid s bid d = Some d' ∧ in_round s d' r.
Proof.
  intros Hs [Hd _ Hact K1] Ht Hv. destruct (isValidBid_good s d bid Hv) as (_ & _ & Ha & _). specialize (Hact Ha).
  destruct (valid_bid_ok s Hs d bid Ht Hv) as (Hbid & b & Hb & Hidx & Hsum). unfold storeBid.
  destruct Hact as [B1 B2 B3 B4]. rewrite (rs_round _ _ _ Hd), at_some by lia. simpl. rewrite Hidx, upd_nat by lia. simpl.
  rewrite upd_nat by lia. simpl. eexists. split; [done|].
  assert (Hok : bids_ok s (set_bids (<[r := <[b := bid]> (clockBids_ d !!! r)]> (clockBids_ d)) d) r).
  { constructor; simpl; rewrite ?list_lookup_total_insert_eq, ?length_insert by lia; [done..|by apply Forall_insert|].
    intros b' Hr Hb'. destruct (decide (b' = b)) as [->|Hn].
    - rewrite list_lookup_total_insert_eq by lia. subst r. rewrite K1 by done. apply Hsum. apply Hd.
    - rewrite list_lookup_total_insert_ne by done. by apply B4. }
  constructor; [by apply round_state_bids|by right|done|done].
Qed.

(** *** Evaluation *)

Lemma evaluateClockRound_spec s d r i ctx : rand_works (W := W) → static_ok s → round_state s d r → bids_ok s d r →
  Z.of_nat r + 2 < 2 ^ 32 →
  ∃ N, ∀ fuel, (N ≤ fuel)%nat → ∃ d' ctx', evaluateClockRound fuel s i d ctx = Done d' ctx' ∧ draws ctx ctx' ∧
    isSuccess (er_ d') = true ∧ roundActive_ d' = roundActive_ d ∧ length (clockBids_ d') = S r ∧ round_result s d' r.
Proof.
  intros Hw Hs Hd Hb Hmax. unfold evaluateClockRound. set (d0 := processBidsPreamble d).
  assert (Hd0 : round_state s d0 r) by (by destruct Hd; constructor).
  assert (Hb0 : bids_ok s d0 r) by (by destruct Hb; constructor).
  rewrite (rs_round _ _ _ Hd0). destruct (Z.eqb_spec (Z.of_nat r) 1) as [E|E].
  - assert (r = 1%nat) as -> by lia. exists 0%nat. intros fuel _.
    destruct (processInitialRoundBids_spec s Hs d0 i Hd0 Hb0) as (d1 & -> & Hev & [Her Hact] & Hcb).
    destruct (processBidsPostamble_spec s Hs d1 1 Hev) as (d2 & E2 & [Her2 Hact2] & Hcb2 & Hres).
    exists d2, ctx. unfold mbind, SM_bind. cbn [lift mret SM_ret]. rewrite E2.
    split; [done|]. split; [constructor|]. rewrite Her2, Her, Hact2, Hact, Hcb2. done.
  - destruct (rs_bounds _ _ _ Hd) as [Hr1 _].
    destruct (processRegularRoundBids_spec Hw s Hs d0 r i ctx Hd0 Hb0 ltac:(lia) Hmax) as (N & HN).
    exists N. intros fuel Hf. destruct (HN fuel Hf) as (d1 & ctx1 & E1 & Hdr & Hev & [Her Hact] & Hcb & _).
    destruct (processBidsPostamble_spec s Hs d1 r Hev) as (d2 & E2 & [Her2 Hact2] & Hcb2 & Hres).
    exists d2, ctx1. unfold mbind, SM_bind. rewrite E1, E2.
    split; [done|]. split; [done|]. rewrite Her2, Her, Hact2, Hact, Hcb2. done.
Qed.

Lemma closeRound_spec s d r i ctx : rand_works (W := W) → static_ok s → in_round s d r → roundActive_ d = true →
  Z.of_nat r + 2 < 2 ^ 32 →
  ∃ N, ∀ fuel, (N ≤ fuel)%nat → ∃ d' ctx', closeRound fuel s i d ctx = Done (Good d') ctx' ∧ draws ctx ctx' ∧
    auction_inv s d'.
Proof.
  intros Hw Hs Hd Hact Hmax. pose proof (ir_active _ _ _ Hd Hact) as Hb. pose proof (ir_state _ _ _ Hd) as Hrs.
  destruct (evaluateClockRound_spec s (endRound d) r i ctx Hw Hs) as (N & HN);
    [by destruct Hrs; constructor|by destruct Hb; constructor|done|].
  exists N. intros fuel Hf. destruct (HN fuel Hf) as (d1 & ctx1 & E1 & Hdr & Hok & Ha & Hcb & Hres).
  unfold closeRound, mbind, SM_bind. rewrite E1, Hok. simpl. unfold isStateAssignmentPhase.
  destruct Hres as [Hph|Has|Hnext].
  - rewrite Hph. simpl. exists d1, ctx1. split_and!; [done..|]. right. by left.
  - rewrite (as_phase _ _ _ Has), bool_decide_eq_true_2 by done. unfold startRound at 1, isStateClockPhase.
    rewrite (as_phase _ _ _ Has), bool_decide_eq_false_2 by done. simpl.
    match goal with |- context [evaluateAssignmentRound s ?x ctx1] => set (d2 := x) end.
    destruct (processAssignmentRound_spec Hw s d2 r ctx1 Hs) as (d3 & ctx3 & E3 & Hdr3 & Hc & _);
      [by destruct Has; constructor|].
    unfold evaluateAssignmentRound. rewrite E3. unfold isStateClosedPhase. rewrite Hc, bool_decide_eq_true_2 by done.
    exists d3, ctx3. split; [done|]. split; [by etrans|]. right. by right.
  - rewrite (rs_phase _ _ _ Hnext). simpl. exists d1, ctx1. split_and!; [done..|]. left. exists (S r).
    constructor; [done|by left|by rewrite Ha|]. intros Hr. pose proof (rs_bounds _ _ _ Hrs). lia.
Qed.

(** More fuel does not change a result. *)
Lemma processQueue_mono clock fuel : ∀ fuel' p before after x, (fuel ≤ fuel')%nat →
  processQueue clock fuel p before after = Finished x → processQueue clock fuel' p before after = Finished x.
Proof.
  induction fuel as [|fuel IH]; intros [|fuel'] p before [|e after] x Hf E; simpl in *; try done; [lia|].
  destruct (processBid clock p e) as [[|p' full]|]; [| |done]; (eapply IH; [lia|exact E]).
Qed.
Lemma processRegularRoundBids_mono fuel fuel' s i d ctx : (fuel ≤ fuel')%nat →
  processRegularRoundBids fuel s i d ctx ≠ Crash →
  processRegularRoundBids fuel' s i d ctx = processRegularRoundBids fuel s i d ctx.
Proof.
  intros Hf. unfold processRegularRoundBids, mbind, SM_bind.
  destruct (fillMissingBids s i d) as [d1|]; [|done]. cbn [lift mret SM_ret].
  destruct (presetPrices _ _ _) as [posted|]; [|done]. cbn [lift mret SM_ret].
  destruct (enqueueBids _ _ _ _ ctx) as [[q|] ctx1| |]; [|done..].
  destruct (open_round _ _) as [[d2 p]|]; [|done]. cbn [lift mret SM_ret].
  destruct (processQueue _ fuel p [] (sort_bids q)) as [x| |] eqn:E; [|done..].
  by rewrite (processQueue_mono _ _ fuel' _ _ _ _ Hf E).
Qed.
Lemma closeRound_mono fuel fuel' s i d ctx d' ctx' : (fuel ≤ fuel')%nat →
  closeRound fuel s i d ctx = Done (Good d') ctx' → closeRound fuel' s i d ctx = Done (Good d') ctx'.
Proof.
  intros Hf. unfold closeRound, mbind, SM_bind.
  destruct (evaluateClockRound fuel s i (endRound d) ctx) as [d1 ctx1| |] eqn:E; [|done..].
  assert (evaluateClockRound fuel' s i (endRound d) ctx = Done d1 ctx1) as ->; [|done].
  revert E. unfold evaluateClockRound, mbind, SM_bind. destruct (_ =? 1); [done|].
  destruct (processRegularRoundBids fuel s i _ ctx) as [d2 ctx2| |] eqn:E; [|done..].
  rewrite (processRegularRoundBids_mono fuel fuel'), E; [trivial|done|by rewrite E].
Qed.

(** *** Rule induction *)
Lemma auction_step_inv s d d' : rand_works (W := W) → auction_ok s → auction_inv s d → auction_step s d d' → auction_inv s d'.
Proof.
  intros Hw Hs Hinv Hstep.
  assert (Hclock : auction_inv s d → isStateClockPhase d || isStateAssignmentPhase d = true → ∃ r, in_round s d r).
  { unfold isStateClockPhase, isStateAssignmentPhase. intros [?|[-> | ->]]; done. }
  destruct Hstep as [p d|d d' Ha Hp E|bid d d' Hp Ht Hv E|fuel i d d' ctx ctx' Ha Hp Hr E].
  - destruct Hinv as [[r [K1 K2 K3 K4]]|Hph]; [left; exists r|by right].
    assert (Hb : bids_ok s d r → bids_ok s (as_submitter p d) r) by (intros []; by constructor).
    constructor; [by destruct K1; constructor|by destruct K2; [left|right; apply Hb]|by intros Ha; apply Hb, K3|done].
  - destruct (Hclock Hinv Hp) as [r Hd]. destruct (startRound_spec s d r (auction_static _ Hs) Hd Ha) as (d1 & E1 & Hd1 & _).
    rewrite E in E1. injection E1 as <-. left. by exists r.
  - destruct (Hclock Hinv) as [r Hd]; [by rewrite Hp|]. destruct (storeBid_spec s d r bid Hs Hd Ht Hv) as (d1 & E1 & Hd1).
    rewrite E in E1. injection E1 as <-. left. by exists r.
  - destruct (Hclock Hinv Hp) as [r Hd]. rewrite (rs_round _ _ _ (ir_state _ _ _ Hd)) in Hr.
    destruct (closeRound_spec s d r i ctx Hw (auction_static _ Hs) Hd Ha Hr) as (N & HN).
    destruct (HN (Nat.max N fuel) ltac:(lia)) as (d1 & ctx1 & E1 & _ & Hd1).
    apply (closeRound_mono fuel (Nat.max N fuel)) in E; [|lia]. rewrite E in E1. injection E1 as <- <-. done.
Qed.
End steps.
