(* ===== verification/SpectrumClaims.v ===== *)
(** * The spectrum auction: the properties

    The theorems about auctions in order, with an auction that satisfies their
    hypotheses (the one of the demo's test script), and what happens to auctions that
    [checkValidity] accepts although they are not in order. *)
From stdpp Require Import base list numbers option strings sorting sets relations.
From Stdlib Require Import ZArith Lia.
From S2P Require Import Prelude ParsonText CNum CDouble JsonSpec StdMap SgxCCLib EnclaveCrypto Shim Samples Peer Chaincodes.
From S2P Require Import Spectrum SpectrumEval SpectrumProof SpectrumRounds SpectrumAssign SpectrumTheorems.
Local Open Scope Z_scope.

(** ** Theorems *)

(** C5. The restarting loop over the queue of bids always ends, in any order of the
    queue, if no two bids are for the same bidder and territory: within a number of steps
    given by the licences that are asked to change.  It keeps the account of licences,
    eligibility and excess demand; every bid is then satisfied, or blocked because its
    bidder has no eligibility left or its territory no excess demand; all other licences
    are as before, and no territory with excess demand falls below its supply. *)
Theorem bid_queue_settles elig supply clock p queue (Hsizes : sizes_ok elig supply clock)
    (Hp : account elig supply p) (Hrange : Forall (in_range elig supply) queue) (Hpos : NoDup (pos <$> queue)) :
  ∃ p' left, processQueue clock (enough p queue) p [] queue = Finished (p', left) ∧
    account elig supply p' ∧ settles elig supply p queue p' left.
Proof. by apply (processQueue_settles elig supply clock Hsizes (length queue)). Qed.

Section theorems.
Context {W : Type} `{SgxCrypto W} `{Implementation}.
Implicit Types ctx : t_shim_ctx W.

(** C14. The bids of a later round, if random numbers can be drawn: for every bidder and
    territory the licences after the round are what the bidder asked for (nothing, where its
    bid does not name the territory), or fewer and its eligibility is used up, or more and
    the territory has no excess demand; they lie between the previous number and what was
    asked, and excess demand is not turned into a shortage.  [list::sort] may leave the bids
    in whatever order. *)
Theorem regular_round_settles s d r i ctx (Hw : rand_works (W := W)) (Hs : static_ok s)
    (Hd : round_state s d r) (Hb : bids_ok s d r) (Hr : (2 ≤ r)%nat) (Hmax : Z.of_nat r + 2 < 2 ^ 32) :
  ∃ N, ∀ fuel, (N ≤ fuel)%nat → ∃ d' ctx', processRegularRoundBids fuel s i d ctx = Done d' ctx' ∧
    round_settled s d d' r.
Proof.
  destruct (processRegularRoundBids_spec Hw s Hs d r i ctx Hd Hb Hr Hmax) as (N & HN). exists N. intros fuel Hf.
  destruct (HN fuel Hf) as (d' & ctx' & E & _ & _ & _ & _ & Hset). by exists d', ctx'.
Qed.

(** C3. An auction in order stays in order: whatever sequence of openings of rounds,
    valid bids and ends of rounds follows its creation, by whomever, the state is that of
    a clock round with all its vectors in place and licences, eligibility and excess
    demand in balance, or the auction is over. *)
Theorem auction_stays_in_order s p d d' (Hw : rand_works (W := W)) (Hs : auction_ok s)
    (Hinit : initialize CLOCK_PHASE 1 false s (fresh p) = Some (setOwner s p, d))
    (Hrun : rtc (auction_step (W := W) (setOwner s p)) d d') :
  auction_inv (setOwner s p) d'.
Proof.
  destruct (initialize_in_round s p Hs) as (d0 & E & Hd0). rewrite Hinit in E. injection E as <-.
  assert (Hinv : auction_inv (setOwner s p) d) by (left; by exists 1%nat). clear Hinit Hd0.
  induction Hrun as [d|d d1 d2 Hstep _ IH]; [done|]. apply IH. eapply auction_step_inv; [done|by apply setOwner_ok|done..].
Qed.

(** C12. If random numbers can be drawn ([rand_works]), a round that is active in an auction
    in order can be ended: its evaluation returns, without an error and without reading
    outside a vector, whatever order [list::sort] leaves the bids in, and leaves the
    auction in order.  When no random number can be drawn it does read outside
    ([random_failure_reads_outside]). *)
Theorem round_can_be_ended s d i ctx (Hw : rand_works (W := W)) (Hs : static_ok s) (Hinv : auction_inv s d)
    (Hactive : roundActive_ d = true) (Hphase : auctionState_ d = CLOCK_PHASE) (Hmax : clockRound_ d + 2 < 2 ^ 32) :
  ∃ N, ∀ fuel, (N ≤ fuel)%nat → ∃ d' ctx', closeRound fuel s i d ctx = Done (Good d') ctx' ∧ auction_inv s d'.
Proof.
  destruct Hinv as [[r Hd]|[E|E]]; [|congruence..]. rewrite (rs_round _ _ _ (ir_state _ _ _ Hd)) in Hmax.
  destruct (closeRound_spec s d r i ctx Hw Hs Hd Hactive Hmax) as (N & HN). exists N. intros fuel Hf.
  destruct (HN fuel Hf) as (d' & ctx' & E & _ & Hinv). by exists d', ctx'.
Qed.

(** C15. If random numbers can be drawn, the assignment round closes the auction and gives
    every bidder, in every territory, exactly as many channels as it holds licences there. *)
Theorem assignment_exact s d r ctx (Hw : rand_works (W := W)) (Hs : static_ok s) (Hd : assignable s d r) :
  ∃ d' ctx', processAssignmentRound s d ctx = Done d' ctx' ∧ auctionState_ d' = CLOSED ∧
    ∀ t, (t < length (territories_ s))%nat →
      Z.of_nat (length (winAssign_ d' !!! t)) = getSupply s !!! t ∧
      ∀ b, (b < length (bidders_ s))%nat →
        Z.of_nat (count (Z.of_nat b) (winAssign_ d' !!! t)) = entry (processedLicenses_ d !!! r) b t.
Proof.
  destruct (processAssignmentRound_spec Hw s d r ctx Hs Hd) as (d' & ctx' & E & _ & Hc & _ & _ & _ & Ht).
  exists d', ctx'. split_and!; [done..|]. intros t Hlt. destruct (Ht t Hlt) as [(Hl & Hb & _) _]. by split.
Qed.
End theorems.

(** ** An auction *)

#[local] Existing Instances store_platform store_crypto.
#[local] Instance less_dec {A} (less : A → A → bool) a b : Decision (less a b = true) := decide (_ = true).
Definition sample_implementation : Implementation := {|
  location f _ := bs f; lround_outside _ := - 2 ^ 63; list_sort A less := @merge_sort A (λ a b, less a b = true) (less_dec less);
  list_sort_elements A less := merge_sort_Permutation _ |}.
#[local] Existing Instance sample_implementation.

Definition person (dn : string) : Principal := mkPrincipal (bs "Org1MSP") (bs dn).
Definition channel (i impairment : Z) : Channel := mkChannel i (bs "channel") impairment.
Definition sample_auction : StaticAuctionState := mkStatic (person "Auctioneer") (bs "bruno")
  [mkTerritory 1 (bs "myterritory") false (double_of_int 200) [channel 1 20; channel 2 40; channel 3 60];
   mkTerritory 2 (bs "myterritory2") false (double_of_int 300) [channel 1 33; channel 2 66; channel 3 99]]
  [mkBidder 1 (bs "mickey") (person "User-1"); mkBidder 2 (bs "duffy") (person "User-2"); mkBidder 3 (bs "goku") (person "User-3")]
  [mkEligibility 1 4; mkEligibility 2 6; mkEligibility 3 6] 0 20.
Definition sample_ctx : t_shim_ctx (omap bytes) := mkCtx _ [] [] [] [] [] [].

(** Running an auction: bids by name, and the end of a round *)
Definition ask (t q price : Z) : Demand := mkDemand t q (double_of_int price).
Definition submit (s : StaticAuctionState) (who : string) (l : list Demand) (d : DynamicAuctionState)
    : option DynamicAuctionState :=
  let d := as_submitter (person who) d in
  let bid := mkBid 1 (clockRound_ d) l in
  match isValidBid s d bid with Good _ => storeBid s bid d | _ => None end.
Definition close (s : StaticAuctionState) (d : DynamicAuctionState) : option DynamicAuctionState :=
  match closeRound 200 s 1 d sample_ctx with Done (Good d) _ => Some d | _ => None end.

Definition sample_start : option DynamicAuctionState :=
  '(_, d) ← initialize CLOCK_PHASE 1 false sample_auction (fresh (person "Auctioneer"));
  d ← startRound sample_auction d;
  d ← submit sample_auction "User-1" [ask 1 2 1500] d;
  submit sample_auction "User-2" [ask 1 3 1588; ask 2 3 1588] d.
(** The second round, with its bids *)
Definition sample_second : option DynamicAuctionState :=
  d ← sample_start;
  d ← close sample_auction d;
  d ← startRound sample_auction d;
  d ← submit sample_auction "User-1" [ask 1 2 200; ask 2 2 300] d;
  submit sample_auction "User-2" [ask 1 3 208; ask 2 3 308] d.
Definition sample_third : option DynamicAuctionState :=
  d ← sample_second;
  d ← close sample_auction d;
  d ← startRound sample_auction d;
  d ← submit sample_auction "User-1" [ask 1 2 240; ask 2 2 360] d;
  close sample_auction d.

(** The script of the demo ends with a closed auction. *)
Example sample_run : (λ d, (auctionState_ d, processedLicenses_ d !!! 3%nat)) <$> sample_third =
  Some (CLOSED, [[2; 2]; [1; 1]; [0; 0]]).
Proof. vm_compute. reflexivity. Qed.

(** Evaluation of a closed decidable proposition *)
Ltac compute_decide := apply (bool_decide_unpack _); vm_compute; exact I.

Lemma sample_ok : auction_ok sample_auction.
Proof.
  constructor.
  - constructor; compute_decide.
  - compute_decide.
  - reflexivity.
  - compute_decide.
  - constructor; [reflexivity|compute_decide..].
Qed.
Lemma sample_rand : rand_works (W := omap bytes).
Proof. by intros w. Qed.

Definition second_state : DynamicAuctionState :=
  Eval vm_compute in default (fresh (person "Auctioneer")) sample_second.
Lemma second_round : round_state sample_auction second_state 2 ∧ bids_ok sample_auction second_state 2.
Proof.
  split.
  - constructor; try reflexivity; try compute_decide.
    + constructor; [reflexivity|compute_decide..].
    + intros _. exists [2; 0; 6]. constructor; try reflexivity; try compute_decide.
      * intros [|[|[|b]]] Hb; try (simpl in Hb; lia); (split; [reflexivity|vm_compute; discriminate]).
      * intros [|[|t]] Ht; try (simpl in Ht; lia); reflexivity.
  - constructor; try reflexivity; [|discriminate].
    let l := eval vm_compute in (clockBids_ second_state !!! 2%nat) in change (Forall (bid_ok sample_auction) l).
    repeat (apply Forall_cons_2; [constructor; compute_decide|]). apply Forall_nil_2.
Qed.

(** The same auction when the clock phase is over *)
Definition last_state : DynamicAuctionState := Eval vm_compute in
  default (fresh (person "Auctioneer")) (
    d ← sample_second; d ← close sample_auction d; d ← startRound sample_auction d;
    d ← submit sample_auction "User-1" [ask 1 2 240; ask 2 2 360] d;
    match evaluateClockRound 200 sample_auction 1 (endRound d) sample_ctx with Done d _ => Some d | _ => None end).
Lemma last_assignable : assignable sample_auction last_state 3.
Proof.
  constructor; try reflexivity; [constructor; [reflexivity|compute_decide..]|].
  exists [0; 0]. split; [|compute_decide]. exists [0; 4; 6]. constructor; try reflexivity; try compute_decide.
  - intros [|[|[|b]]] Hb; try (simpl in Hb; lia); (split; [reflexivity|vm_compute; discriminate]).
  - intros [|[|t]] Ht; try (simpl in Ht; lia); reflexivity.
Qed.

(** A queue of two bids for one territory with three channels and five licences *)
Definition sample_progress : progress := mkProgress [[2]; [3]] [2] [double_of_int 200] [2; 3].
Definition sample_queue : list enqueuedBid :=
  [mkEnqueuedBid 1 0 (ask 1 0 210) 25 7; mkEnqueuedBid 0 0 (ask 1 4 220) 50 9].

Lemma bid_queue_settles_witness : ∃ p' left,
  processQueue [double_of_int 240] (enough sample_progress sample_queue) sample_progress [] sample_queue =
    Finished (p', left) ∧ account [4; 6] [3] p' ∧ settles [4; 6] [3] sample_progress sample_queue p' left.
Proof.
  apply (bid_queue_settles [4; 6] [3] [double_of_int 240] sample_progress sample_queue).
  - constructor; [compute_decide..|reflexivity].
  - constructor; try reflexivity; try compute_decide.
    + intros [|[|b]] Hb; try (simpl in Hb; lia); (split; [reflexivity|vm_compute; discriminate]).
    + intros [|t] Ht; try (simpl in Ht; lia); reflexivity.
  - repeat (apply Forall_cons_2; [constructor; compute_decide|]). apply Forall_nil_2.
  - compute_decide.
Defined.
Lemma regular_round_settles_witness : ∃ N, ∀ fuel, (N ≤ fuel)%nat → ∃ d' ctx',
  processRegularRoundBids fuel sample_auction 1 second_state sample_ctx = Done d' ctx' ∧
  round_settled sample_auction second_state d' 2.
Proof.
  apply (regular_round_settles sample_auction second_state 2 1 sample_ctx sample_rand (auction_static _ sample_ok)
    (proj1 second_round) (proj2 second_round)); [lia|reflexivity].
Defined.
Definition first_state : DynamicAuctionState := Eval vm_compute in
  match initialize CLOCK_PHASE 1 false sample_auction (fresh (person "Auctioneer")) with
  | Some (_, d) => d | None => fresh (person "Auctioneer") end.
Definition started_state : DynamicAuctionState := Eval vm_compute in
  default first_state (startRound sample_auction first_state).
Lemma auction_stays_in_order_witness : auction_inv sample_auction started_state.
Proof.
  apply (auction_stays_in_order (W := omap bytes) sample_auction (person "Auctioneer") first_state started_state sample_rand sample_ok).
  - reflexivity.
  - apply rtc_once. apply Started; reflexivity.
Defined.
Lemma round_can_be_ended_witness : ∃ N, ∀ fuel, (N ≤ fuel)%nat → ∃ d' ctx',
  closeRound fuel sample_auction 1 second_state sample_ctx = Done (Good d') ctx' ∧ auction_inv sample_auction d'.
Proof.
  apply (round_can_be_ended sample_auction second_state 1 sample_ctx sample_rand (auction_static _ sample_ok)); [|reflexivity..].
  left. exists 2%nat. constructor; [apply second_round|right; apply second_round|intros _; apply second_round|discriminate].
Defined.
Lemma assignment_exact_witness : ∃ d' ctx',
  processAssignmentRound sample_auction last_state sample_ctx = Done d' ctx' ∧ auctionState_ d' = CLOSED ∧
  ∀ t, (t < 2)%nat →
    Z.of_nat (length (winAssign_ d' !!! t)) = getSupply sample_auction !!! t ∧
    ∀ b, (b < 3)%nat → Z.of_nat (count (Z.of_nat b) (winAssign_ d' !!! t)) = entry (processedLicenses_ last_state !!! 3%nat) b t.
Proof.
  apply (assignment_exact sample_auction last_state 3 sample_ctx sample_rand (auction_static _ sample_ok) last_assignable).
Defined.
