(* ===== verification/SpectrumFaults.v ===== *)
(** * The spectrum auction: auctions that are not in order

    [checkValidity] accepts auctions in which two territories have the same identifier,
    or in which the eligibilities are not listed in the order of the bidders.  The first
    can make the evaluation of a round run for ever, the second gives a bidder an
    eligibility of four thousand million.  A failure of the source of randomness is
    reported by [processRegularRoundBids], but the code after it goes on. *)
From stdpp Require Import base list numbers option strings sorting sets relations.
From Stdlib Require Import ZArith Lia.
From S2P Require Import Prelude ParsonText CNum CDouble JsonSpec StdMap SgxCCLib EnclaveCrypto Shim Samples Peer Chaincodes.
From S2P Require Import Spectrum SpectrumEval SpectrumProof SpectrumRounds SpectrumAssign SpectrumTheorems SpectrumClaims.
Local Open Scope Z_scope.

(** A source of randomness that counts, and one that fails *)
Definition counting_crypto (status : Z) : SgxCrypto (omap bytes) (H := store_platform) := {|
  SGX_ERROR_INVALID_PARAMETER := 2; sgx_invalid_error := toy_invalid _ _ _;
  sgx_sha256_msg m := m;
  sgx_cmac128 _ m := m;
  sgx_read_rand n w :=
    let k := default [] (map_find w (bs "random")) in
    (status, take n (to_byte (Z.of_nat (length k)) :: replicate n x00), map_assign w (bs "random") (x00 :: k));
  sgx_rijndael128GCM_encrypt _ _ plain := (0, plain, replicate 16 x00);
  sgx_rijndael128GCM_decrypt _ _ _ ct := (0, ct);
  sgx_ecc256_open_context w := (0, w);
  sgx_ecc256_create_key_pair w := (0, replicate 32 x01, replicate 64 x02, w);
  sgx_ecdsa_sign _ _ := (0, replicate 64 x03);
  sgx_ecc256_compute_shared_dhkey _ _ := (0, replicate 32 x04);
  sgx_create_report _ data := (0, data);
  sgx_verify_report _ := 0;
  report_data r := r
|}.
#[local] Existing Instances store_platform sample_implementation.
#[local] Instance good_random : SgxCrypto (omap bytes) (H := store_platform) := counting_crypto 0.

(** The end of a round as in the samples, with these random numbers *)
Definition close' (s : StaticAuctionState) (d : DynamicAuctionState) : option DynamicAuctionState :=
  match closeRound 200 s 1 d sample_ctx with Done (Good d) _ => Some d | _ => None end.

(** ** Two territories with one identifier *)

Definition twice : StaticAuctionState := mkStatic (person "Auctioneer") (bs "twice")
  [mkTerritory 1 (bs "a") false (double_of_int 100) [channel 1 0; channel 2 0; channel 3 0];
   mkTerritory 1 (bs "b") false (double_of_int 100) [channel 1 0];
   mkTerritory 2 (bs "c") false (double_of_int 100) [channel 1 0]]
  [mkBidder 1 (bs "mickey") (person "User-1"); mkBidder 2 (bs "duffy") (person "User-2")]
  [mkEligibility 1 3; mkEligibility 2 3] 0 20.
(** Three rounds of valid bids, the last one not yet ended *)
Definition twice_run : option DynamicAuctionState :=
  '(_, d) ← initialize CLOCK_PHASE 1 false twice (fresh (person "Auctioneer"));
  d ← startRound twice d;
  d ← submit twice "User-1" [ask 2 1 100] d;
  d ← submit twice "User-2" [ask 2 1 100] d;
  d ← close' twice d;
  d ← startRound twice d;
  d ← submit twice "User-1" [ask 1 1 100; ask 2 1 110] d;
  d ← submit twice "User-2" [ask 1 2 100; ask 2 1 110] d;
  d ← close' twice d;
  d ← startRound twice d;
  d ← submit twice "User-1" [ask 1 3 100; ask 2 1 130] d;
  submit twice "User-2" [ask 1 2 100; ask 2 1 130] d.
Definition twice_state : DynamicAuctionState :=
  Eval vm_compute in default (fresh (person "Auctioneer")) twice_run.

(** When the queue of a round is never worked off, neither is the round ended. *)
Lemma closeRound_stuck s i d ctx d1 prices q ctx1 d2 p :
  (clockRound_ d =? 1) = false →
  fillMissingBids s i (processBidsPreamble (endRound d)) = Some d1 →
  presetPrices d1 (upto (getTerritoryN s))
    (postedPrice_ d1 ++ [replicate (Z.to_nat (getTerritoryN s)) (S754_zero false)]) = Some prices →
  enqueueBids s (set_prices prices (clockPrice_ d1) d1) (upto (getBiddersN s)) [] ctx = Done (Some q) ctx1 →
  open_round s (set_prices prices (clockPrice_ d1) d1) = Some (d2, p) →
  (∀ fuel, processQueue (default [] (at_ (clockPrice_ d2) (clockRound_ d2))) fuel p [] (sort_bids q) = OutOfFuel) →
  ∀ fuel, closeRound fuel s i d ctx = Crash.
Proof.
  intros Hr Ef Ep Eq Eo Hloop fuel. unfold closeRound, evaluateClockRound.
  change (clockRound_ (processBidsPreamble (endRound d))) with (clockRound_ d). rewrite Hr.
  unfold processRegularRoundBids, mbind, SM_bind. rewrite Ef. cbn [lift mret SM_ret]. rewrite Ep. cbn [lift mret SM_ret].
  rewrite Eq, Eo. cbn [lift mret SM_ret]. by rewrite Hloop.
Qed.

(** The pieces of the evaluation of the third round: the missing bids and the prices
    filled in, the queue, and the licences it starts from.  Bidder 1 has two entries for
    territory 1, one for three licences and, because the identifier is listed twice, one
    for none. *)
Definition twice_filled : DynamicAuctionState := Eval vm_compute in
  default twice_state (fillMissingBids twice 1 (processBidsPreamble (endRound twice_state))).
Definition twice_prices : list (list double) := Eval vm_compute in
  default [] (presetPrices twice_filled (upto (getTerritoryN twice))
    (postedPrice_ twice_filled ++ [replicate (Z.to_nat (getTerritoryN twice)) (S754_zero false)])).
Definition twice_priced : DynamicAuctionState := set_prices twice_prices (clockPrice_ twice_filled) twice_filled.
Definition twice_enqueued : list enqueuedBid * t_shim_ctx (omap bytes) := Eval vm_compute in
  match enqueueBids twice twice_priced (upto (getBiddersN twice)) [] sample_ctx with
  | Done (Some q) ctx => (q, ctx) | _ => ([], sample_ctx) end.
Definition twice_opened : DynamicAuctionState * progress := Eval vm_compute in
  default (twice_priced, mkProgress [] [] [] []) (open_round twice twice_priced).
Definition twice_clock : list double := Eval vm_compute in
  default [] (at_ (clockPrice_ twice_opened.1) (clockRound_ twice_opened.1)).
Definition twice_queue : list enqueuedBid := Eval vm_compute in sort_bids twice_enqueued.1.

(** The third step leads back to the licences and the queue of the start, only the posted
    price is another one: one licence is given to bidder 1 and taken away again. *)
Definition twice_again : progress :=
  mkProgress (licenses twice_opened.2) (excess twice_opened.2)
    (<[0%nat := default (S754_zero false) (price_ ∘ demand <$> head twice_queue)]> (posted twice_opened.2))
    (eligibilityCap twice_opened.2).
Lemma twice_cycle n : Forall (λ p,
    processQueue twice_clock (3 + n) p [] twice_queue = processQueue twice_clock n twice_again [] twice_queue)
  [twice_opened.2; twice_again].
Proof. repeat (apply Forall_cons_2; [reflexivity|]). apply Forall_nil_2. Qed.
Lemma twice_cycles fuel : Forall (λ p, processQueue twice_clock fuel p [] twice_queue = OutOfFuel)
  [twice_opened.2; twice_again].
Proof.
  induction fuel as [fuel IH] using lt_wf_ind.
  destruct fuel as [|[|[|n]]]; [repeat (apply Forall_cons_2; [reflexivity|]); apply Forall_nil_2..|].
  assert (Hn : processQueue twice_clock n twice_again [] twice_queue = OutOfFuel).
  { assert (Hlt : (n < S (S (S n)))%nat) by lia. apply IH in Hlt. rewrite Forall_forall in Hlt. apply Hlt. set_solver. }
  eapply Forall_impl; [apply (twice_cycle n)|]. intros p Hp. by etrans; [exact Hp|].
Qed.

(** C39. An auction with two territories of the same identifier passes [checkValidity];
    three rounds of valid bids lead to a round whose end never returns: its evaluation gets
    as far as the loop over the queue of bids, with every access inside the vectors, and the
    loop runs out of any number of steps.  So the end of the round has no result. *)
Theorem duplicate_territories_loop :
  checkValidity twice = Good () ∧ twice_run = Some twice_state ∧ roundActive_ twice_state = true ∧
  (fillMissingBids twice 1 (processBidsPreamble (endRound twice_state)) = Some twice_filled ∧
   enqueueBids twice twice_priced (upto (getBiddersN twice)) [] sample_ctx = Done (Some twice_enqueued.1) twice_enqueued.2 ∧
   open_round twice twice_priced = Some twice_opened ∧
   ∀ fuel, processQueue twice_clock fuel twice_opened.2 [] (sort_bids twice_enqueued.1) = OutOfFuel) ∧
  ∀ fuel, closeRound fuel twice 1 twice_state sample_ctx = Crash.
Proof.
  assert (Hloop : ∀ fuel, processQueue twice_clock fuel twice_opened.2 [] (sort_bids twice_enqueued.1) = OutOfFuel).
  { intros fuel. replace (sort_bids twice_enqueued.1) with twice_queue by (vm_compute; reflexivity).
    pose proof (twice_cycles fuel) as Hc. rewrite Forall_forall in Hc. apply Hc. set_solver. }
  split_and!; [vm_compute; reflexivity..|exact Hloop|].
  by apply (closeRound_stuck twice 1 twice_state sample_ctx twice_filled twice_prices twice_enqueued.1 twice_enqueued.2
    twice_opened.1 twice_opened.2); [vm_compute; reflexivity..|].
Qed.

(** ** Eligibilities that are not in the order of the bidders *)

Definition crossed : StaticAuctionState := mkStatic (person "Auctioneer") (bs "crossed")
  [mkTerritory 1 (bs "a") false (double_of_int 100) [channel 1 0; channel 2 0; channel 3 0]]
  [mkBidder 1 (bs "mickey") (person "User-1"); mkBidder 2 (bs "duffy") (person "User-2")]
  [mkEligibility 2 1; mkEligibility 1 3] 0 20.
Definition crossed_run : option DynamicAuctionState :=
  '(_, d) ← initialize CLOCK_PHASE 1 false crossed (fresh (person "Auctioneer"));
  d ← startRound crossed d;
  d ← submit crossed "User-1" [ask 1 3 100] d;
  d ← submit crossed "User-2" [ask 1 1 100] d;
  d ← close' crossed d;
  startRound crossed d.

(** An auction whose eligibilities are not listed in the order of its bidders passes
    [checkValidity]: the bids of the first round are checked against the eligibility
    found by identifier, the later rounds use the position.  The first bidder holds three
    licences with an eligibility of one, and its remaining eligibility wraps around. *)
Theorem eligibility_order :
  checkValidity crossed = Good () ∧
  (d ← crossed_run; availableEligibility crossed d) = Some [2 ^ 32 - 2; 2].
Proof. split; vm_compute; reflexivity. Qed.

(** ** Randomness that is not available *)

(** When no random number can be drawn, the end of a later round in which a bid asks
    for a change reads past the end of the table of licences: the error that
    [processRegularRoundBids] records is not looked at. *)
Theorem random_failure_reads_outside status fuel (Hs : status ≠ 0) :
  closeRound (H0 := counting_crypto status) fuel sample_auction 1 second_state sample_ctx = Crash.
Proof. destruct status as [|n|n]; [done|vm_compute; reflexivity..]. Qed.
Lemma random_failure_reads_outside_witness :
  closeRound (H0 := counting_crypto 1) 10 sample_auction 1 second_state sample_ctx = Crash.
Proof. apply (random_failure_reads_outside 1 10). discriminate. Defined.
