(* ===== verification/SpectrumJsonProof.v ===== *)
(** * The spectrum auction: states survive being stored

    For every class the values that can be stored, and that reading what was printed gives
    them back: first as trees, where each class has an instance of [JsonCodec], then as
    text. *)
From stdpp Require Import base list numbers option sets strings.
From Stdlib Require Import ZArith Lia.
From S2P Require Import Prelude ParsonText CNum JsonSpec JsonRoundTrip CNumProof CDouble.
From S2P Require Import SgxCCLib EnclaveCrypto Ledger Shim Chaincodes ChaincodeJson.
From S2P Require Import Spectrum SpectrumEval SpectrumJson SpectrumStorage.
From Stdlib Require Import ssreflect.
Local Open Scope Z_scope.

(** ** Trees that are printed and read back *)

(** A well-formed tree with numbers that survive, of depth at most [n] *)
Definition good (n : nat) (t : json) : Prop :=
  json_wf t ∧ Forall normal_number (json_numbers t) ∧ (depth t ≤ n)%nat.

Lemma normal_finite d : normal_number d → is_finite d = true.
Proof. by destruct d. Qed.
Lemma good_number n d : normal_number d → good (S n) (JNumber d).
Proof. intros Hd. split_and!; [by apply normal_finite|by constructor|simpl; lia]. Qed.
Lemma good_string n s : nonul s → good (S n) (JString s).
Proof. intros Hs. split_and!; [done|constructor|simpl; lia]. Qed.
Lemma good_bool n b : good (S n) (JBool b).
Proof. split_and!; [done|constructor|simpl; lia]. Qed.
Lemma good_array n l : Forall (good n) l → good (S n) (JArray l).
Proof.
  intros Hl. split_and!.
  - apply json_wf_array. eapply Forall_impl; [exact Hl|]. by intros t (? & _).
  - apply Forall_forall. intros d. rewrite /json_numbers /= => /list_elem_of_join [ds [Hd Hds]].
    apply list_elem_of_fmap in Hds as (t & -> & Ht). rewrite Forall_forall in Hl.
    destruct (Hl t Ht) as (_ & Hn & _). rewrite Forall_forall in Hn. by apply Hn.
  - simpl. apply le_n_S. induction Hl as [|t l (_ & _ & Ht) _ IH]; simpl; lia.
Qed.
Lemma good_object n l : NoDup l.*1 → Forall (λ kv, nonul kv.1 ∧ good n kv.2) l → good (S n) (JObject l).
Proof.
  intros Hnd Hl. split_and!.
  - apply json_wf_object. split; [done|]. eapply Forall_impl; [exact Hl|]. by intros t (? & ? & _).
  - apply Forall_forall. intros d. rewrite /json_numbers /= => /list_elem_of_join [ds [Hd Hds]].
    apply list_elem_of_fmap in Hds as ([k ds'] & -> & Hkv). apply list_elem_of_fmap in Hkv as (kv & [= -> ->] & Hkv).
    rewrite Forall_forall in Hl. destruct (Hl kv Hkv) as (_ & _ & Hn & _). rewrite Forall_forall in Hn. by apply Hn.
  - simpl. apply le_n_S. induction Hl as [|t l (_ & _ & _ & Ht) _ IH]; simpl in *; [lia|].
    apply NoDup_cons in Hnd as [_ Hnd]. specialize (IH Hnd). lia.
Qed.
Lemma good_mono n m t : good n t → (n ≤ m)%nat → good m t.
Proof. intros (? & ? & ?) ?. split_and!; [done..|lia]. Qed.
Create HintDb spectrum_json.
#[export] Hint Resolve good_number good_string good_bool good_array : spectrum_json.

(** A printed object of a depth that parson accepts is read back. *)
Lemma openJsonObject_text kvs : good 100 (JObject kvs) →
  openJsonObject (json_text (JObject kvs)) = Some (JObject kvs).
Proof.
  intros (Hwf & Hn & Hd). rewrite /openJsonObject /json_text -(app_nil_r (serialize_json _ _ _)).
  rewrite parse_buffer //. lia.
Qed.
Lemma json_text_nonul kvs n : good n (JObject kvs) → nonul (json_text (JObject kvs)).
Proof. intros (Hwf & _). by apply nonul_serialize. Qed.

(** ** Numbers *)

Definition int31 (z : Z) : Prop := 0 ≤ z < 2 ^ 31.
Definition uint32 (z : Z) : Prop := 0 ≤ z < 2 ^ 32.
#[global] Instance int31_dec z : Decision (int31 z) := and_dec _ _.
#[global] Instance uint32_dec z : Decision (uint32 z) := and_dec _ _.

Lemma int31_int z : int31 z → in_int z = true.
Proof. intros [? ?]. unfold in_int, INT_MAX. apply andb_true_iff. split; apply Z.leb_le; lia. Qed.
Lemma double_of_uint32 z : uint32 z →
  uint32_of_double (double_of_int z) = Some z ∧ normal_number (double_of_int z).
Proof.
  intros [Hz Hmax]. destruct z as [|p|p]; [done| |lia]. cbn [double_of_int].
  destruct (round_ratio_int false p) as (m & e & -> & Hn & He & Hm); [lia|].
  split; [|done]. cbn [uint32_of_double]. rewrite (proj2 (Z.leb_gt 0 e)); last done.
  rewrite Hm Z.div_mul; last (apply Z.pow_nonzero; lia). by rewrite (proj2 (Z.ltb_lt _ _)).
Qed.
Lemma double_of_int31 z : int31 z →
  uint32_of_double (double_of_int z) = Some z ∧ normal_number (double_of_int z).
Proof. intros Hz. apply double_of_uint32. unfold int31, uint32 in *. lia. Qed.
Lemma double_normal z : in_int z = true → normal_number (double_of_int z).
Proof. intros Hz. by destruct (double_of_int_spec z Hz) as (_ & ? & _). Qed.
Lemma SFeqb_refl d : normal_number d → SFeqb d d = true.
Proof.
  intros Hd. unfold SFeqb, SFcompare. destruct d as [[]|[]| |[] m e]; try done; rewrite Z.compare_refl Pos.compare_cont_refl //.
Qed.
Lemma int_entry_normal k z : normal_number (double_of_int z) → int_entry k z = [(k, JNumber (double_of_int z))].
Proof. intros Hz. by rewrite /int_entry /number_entry normal_finite. Qed.
Lemma number_entry_normal k d : normal_number d → number_entry k d = [(k, JNumber d)].
Proof. intros Hd. by rewrite /number_entry normal_finite. Qed.
Lemma numbers_normal l : Forall normal_number l → numbers l = JArray (JNumber <$> l).
Proof.
  intros Hl. rewrite /numbers. f_equal. f_equal. induction Hl as [|d l Hd _ IH]; [done|].
  by rewrite filter_cons decide_True ?IH //; apply normal_finite.
Qed.

(** ** Members *)

Section members.
Context `{Implementation}.

Lemma check_pass file line code b : b = false → FAST_FAIL_CHECK file line code b = Good ().
Proof. by intros ->. Qed.

(** What an entry of an object reads as; the member is found by computation. *)
Lemma has_number_ok kvs k d : olookup (bs k) kvs = Some (JNumber d) → has_number (Some (JObject kvs)) (bs k) = true.
Proof. intros E. by rewrite /has_number /= E. Qed.
Lemma isInteger_int z : in_int z = true → isInteger (double_of_int z) = Good true.
Proof.
  intros Hz. destruct (double_of_int_spec z Hz) as (Hi & Hn & _). rewrite /isInteger Hi /=. by rewrite SFeqb_refl.
Qed.
Lemma integer_member_ok file l1 l2 kvs k z : olookup (bs k) kvs = Some (JNumber (double_of_int z)) → int31 z →
  integer_member file l1 l2 (Some (JObject kvs)) k = Good z.
Proof.
  intros E Hz. rewrite /integer_member (has_number_ok _ _ _ E). cbn [negb]. rewrite /= E /= isInteger_int /=; last by apply int31_int.
  by destruct (double_of_int31 z Hz) as [-> _].
Qed.
Lemma string_member_ok file line kvs k s : olookup (bs k) kvs = Some (JString s) →
  string_member file line (Some (JObject kvs)) k = Good s.
Proof. intros E. by rewrite /string_member /= E. Qed.
Lemma array_member_ok file line kvs k l : olookup (bs k) kvs = Some (JArray l) →
  array_member file line (Some (JObject kvs)) k = Good l.
Proof. intros E. by rewrite /array_member /= E. Qed.

(** A loop that reads every element *)
Lemma mapM_good {A B} (f : B → checked A) (g : A → B) l : Forall (λ a, f (g a) = Good a) l →
  mapM f (g <$> l) = Good l.
Proof. induction 1 as [|a l Ha _ IH]; [done|]. cbn [fmap list_fmap mapM]. by rewrite Ha /= IH. Qed.
Lemma number_row_ok {A} (conv : double → option A) (back : A → double) l :
  Forall (λ a, conv (back a) = Some a ∧ normal_number (back a)) l →
  number_row conv (numbers (back <$> l)) = Good l.
Proof.
  intros Hl. rewrite numbers_normal; last (apply Forall_fmap; eapply Forall_impl; [exact Hl|]; by intros a []).
  rewrite /number_row /= -list_fmap_compose. apply mapM_good. eapply Forall_impl; [exact Hl|].
  intros a [Ha _]. by rewrite /= Ha.
Qed.

Definition convertible {A} (conv : double → option A) (back : A → double) (a : A) : Prop :=
  conv (back a) = Some a ∧ normal_number (back a).
Lemma matrix_member_ok {A} (conv : double → option A) (back : A → double) line kvs k m :
  olookup (bs k) kvs = Some (JArray ((λ row, numbers (back <$> row)) <$> m)) →
  Forall (Forall (convertible conv back)) m → matrix_member conv line (Some (JObject kvs)) k = Good m.
Proof.
  intros E Hm. unfold matrix_member. rewrite (array_member_ok _ _ _ _ _ E). apply (mapM_good (number_row conv)).
  eapply Forall_impl; [exact Hm|]. apply number_row_ok.
Qed.
Lemma price_matrix_ok line kvs k (m : list (list double)) :
  olookup (bs k) kvs = Some (JArray (numbers <$> m)) → Forall (Forall normal_number) m →
  matrix_member Some line (Some (JObject kvs)) k = Good m.
Proof.
  intros E Hm. apply (matrix_member_ok Some id).
  - rewrite E. do 2 f_equal. apply list_fmap_ext. intros i row _. by rewrite list_fmap_id.
  - eapply Forall_impl; [exact Hm|]. intros row Hrow. eapply Forall_impl; [exact Hrow|]. by intros d Hd.
Qed.
Lemma numbers_good n l : Forall normal_number l → good (S (S n)) (numbers l).
Proof. intros Hl. rewrite numbers_normal //. apply good_array, Forall_fmap. eapply Forall_impl; [exact Hl|]. apply good_number. Qed.
Lemma matrix_good n {A} (back : A → double) m : Forall (Forall (λ a, normal_number (back a))) m →
  good (S (S (S n))) (JArray ((λ row, numbers (back <$> row)) <$> m)).
Proof.
  intros Hm. apply good_array, Forall_fmap. eapply Forall_impl; [exact Hm|]. intros row Hrow.
  by apply numbers_good, Forall_fmap.
Qed.

End members.

(** Members are read from a literal object, and a literal object is good when its values
    are. *)
Ltac read_members :=
  repeat (first [erewrite integer_member_ok; [|reflexivity|assumption]
                |erewrite string_member_ok; [|reflexivity]
                |erewrite array_member_ok; [|reflexivity]];
          cbn [mbind checked_bind mret checked_ret]).
Ltac good_members :=
  apply good_object; [cbn [fmap list_fmap fst]; apply (bool_decide_unpack _); vm_compute; exact I|];
  repeat (apply Forall_cons; split; [split; [apply (bool_decide_unpack _); vm_compute; exact I|cbn [snd]]|]);
  [..|apply Forall_nil; exact I].

(** ** Classes *)

Section classes.
Context `{Implementation}.

(** The values of a class that can be stored: they are read back, and their trees are of a
    small depth. *)
Class JsonCodec (A : Type) `{ToJson A} `{FromJson A} := {
  storable : A → Prop;
  stored_depth : nat;
  codec_roundtrip a : storable a → fromJsonObject (Some (toJsonObject a)) = Good a;
  codec_good a : storable a → good stored_depth (toJsonObject a)
}.

Lemma objects_ok {A} `{JsonCodec A} (l : list A) : Forall storable l → objects (toJsonObject <$> l) = Good l.
Proof. intros Hl. apply mapM_good. eapply Forall_impl; [exact Hl|]. apply codec_roundtrip. Qed.
Lemma objects_good {A} `{JsonCodec A} (l : list A) : Forall storable l →
  good (S stored_depth) (JArray (toJsonObject <$> l)).
Proof. intros Hl. apply good_array, Forall_fmap. eapply Forall_impl; [exact Hl|]. apply codec_good. Qed.

Definition principal_storable (p : Principal) : Prop := good_name (mspId_ p) ∧ good_name (dn_ p).
Lemma principal_tree p : principal_storable p →
  Principal_toJsonObject p = JObject [(bs "mspId", JString (mspId_ p)); (bs "dn", JString (dn_ p))].
Proof. intros [Hm Hd]. unfold Principal_toJsonObject. by rewrite !string_entry_good. Qed.
#[export] Program Instance principal_codec : JsonCodec Principal := {| storable := principal_storable; stored_depth := 2 |}.
Next Obligation.
  intros p Hp. unfold toJsonObject, Principal_to_json. rewrite principal_tree //.
  unfold fromJsonObject, Principal_from_json, Principal_fromJsonObject. read_members. by destruct p.
Qed.
Next Obligation.
  intros p Hp. unfold toJsonObject, Principal_to_json. rewrite principal_tree //. destruct Hp as [[Hm _] [Hd _]].
  good_members; by apply good_string.
Qed.

Record bidder_storable (b : Bidder) : Prop := {
  bidder_id_int : int31 (bidder_id_ b);
  bidder_name : good_name (displayName_ b);
  bidder_principal : storable (principal_ b) }.
Lemma bidder_tree b : bidder_storable b →
  Bidder_toJsonObject b = JObject [(bs "id", JNumber (double_of_int (bidder_id_ b)));
    (bs "displayName", JString (displayName_ b)); (bs "principal", toJsonObject (principal_ b))].
Proof.
  intros [Hi Hn _]. unfold Bidder_toJsonObject. rewrite int_entry_normal; last by apply double_of_int31.
  by rewrite string_entry_good.
Qed.
#[export] Program Instance bidder_codec : JsonCodec Bidder := {| storable := bidder_storable; stored_depth := 3 |}.
Next Obligation.
  intros b Hb. unfold toJsonObject at 1, Bidder_to_json. rewrite bidder_tree //. destruct Hb as [Hi Hn Hp].
  unfold fromJsonObject, Bidder_from_json, Bidder_fromJsonObject. read_members. cbn [member olookup].
  change (olookup (bs "principal") _) with (Some (toJsonObject (principal_ b))).
  cbn [FAST_FAIL_CHECK bool_decide mbind checked_bind mret checked_ret].
  rewrite (codec_roundtrip (principal_ b)) //. by destruct b.
Qed.
Next Obligation.
  intros b Hb. unfold toJsonObject at 1, Bidder_to_json. rewrite bidder_tree //. destruct Hb as [Hi [Hn _] Hp].
  good_members; [by apply good_number, double_of_int31|by apply good_string|apply (codec_good _ Hp)].
Qed.

Record eligibility_storable (e : Eligibility) : Prop := {
  elig_bidder_int : int31 (elig_bidderId_ e);
  elig_number_int : int31 (number_ e) }.
Lemma eligibility_tree e : eligibility_storable e →
  Eligibility_toJsonObject e = JObject [(bs "bidderId", JNumber (double_of_int (elig_bidderId_ e)));
    (bs "number", JNumber (double_of_int (number_ e)))].
Proof. intros [Hi Hn]. unfold Eligibility_toJsonObject. by rewrite !int_entry_normal; try by apply double_of_int31. Qed.
#[export] Program Instance eligibility_codec : JsonCodec Eligibility :=
  {| storable := eligibility_storable; stored_depth := 2 |}.
Next Obligation.
  intros e He. unfold toJsonObject, Eligibility_to_json. rewrite eligibility_tree //. destruct He as [Hi Hn].
  unfold fromJsonObject, Eligibility_from_json, Eligibility_fromJsonObject. read_members. by destruct e.
Qed.
Next Obligation.
  intros e He. unfold toJsonObject, Eligibility_to_json. rewrite eligibility_tree //. destruct He as [Hi Hn].
  good_members; by apply good_number, double_of_int31.
Qed.

Record channel_storable (c : Channel) : Prop := {
  channel_id_int : int31 (channel_id_ c);
  channel_name : good_name (channel_name_ c);
  channel_impairment : int31 (impairment_ c) }.
Lemma channel_tree c : channel_storable c →
  Channel_toJsonObject c = JObject [(bs "id", JNumber (double_of_int (channel_id_ c)));
    (bs "name", JString (channel_name_ c)); (bs "impairment", JNumber (double_of_int (impairment_ c)))].
Proof.
  intros [Hi Hn Hm]. unfold Channel_toJsonObject.
  rewrite !int_entry_normal; try by apply double_of_int31. by rewrite string_entry_good.
Qed.
#[export] Program Instance channel_codec : JsonCodec Channel := {| storable := channel_storable; stored_depth := 2 |}.
Next Obligation.
  intros c Hc. unfold toJsonObject, Channel_to_json. rewrite channel_tree //. destruct Hc as [Hi Hn Hm].
  unfold fromJsonObject, Channel_from_json, Channel_fromJsonObject. read_members. by destruct c.
Qed.
Next Obligation.
  intros c Hc. unfold toJsonObject, Channel_to_json. rewrite channel_tree //. destruct Hc as [Hi [Hn _] Hm].
  good_members; [by apply good_number, double_of_int31|by apply good_string|by apply good_number, double_of_int31].
Qed.

Record territory_storable (t : Territory) : Prop := {
  territory_id_int : int31 (territory_id_ t);
  territory_name : good_name (territory_name_ t);
  territory_price : normal_number (minPrice_ t) ∧ dlt (minPrice_ t) (S754_zero false) = false;
  territory_channels : Forall storable (channels_ t) }.
Lemma territory_tree t : territory_storable t →
  Territory_toJsonObject t = JObject [(bs "id", JNumber (double_of_int (territory_id_ t)));
    (bs "name", JString (territory_name_ t)); (bs "isHighDemand", JBool (isHighDemand_ t));
    (bs "minPrice", JNumber (minPrice_ t)); (bs "channels", JArray (toJsonObject <$> channels_ t))].
Proof.
  intros [Hi Hn [Hp _] _]. unfold Territory_toJsonObject.
  rewrite int_entry_normal; last by apply double_of_int31. by rewrite string_entry_good // number_entry_normal.
Qed.
#[export] Program Instance territory_codec : JsonCodec Territory := {| storable := territory_storable; stored_depth := 4 |}.
Next Obligation.
  intros t Ht. unfold toJsonObject at 1, Territory_to_json. rewrite territory_tree //. destruct Ht as [Hi Hn [Hp Hpos] Hc].
  unfold fromJsonObject, Territory_from_json, Territory_fromJsonObject. read_members.
  set (kvs := [_; _; _; _; _]).
  change (has_number (Some (JObject kvs)) (bs "minPrice")) with true.
  change (as_number (member (Some (JObject kvs)) (bs "minPrice"))) with (minPrice_ t).
  change (member (Some (JObject kvs)) (bs "isHighDemand")) with (Some (JBool (isHighDemand_ t))).
  rewrite Hpos. replace (as_boolean _ =? -1) with false by by destruct (isHighDemand_ t).
  cbn [negb FAST_FAIL_CHECK mbind checked_bind mret checked_ret]. unfold kvs. read_members.
  rewrite objects_ok //=. by destruct t as [i n [] p c].
Qed.
Next Obligation.
  intros t Ht. unfold toJsonObject at 1, Territory_to_json. rewrite territory_tree //. destruct Ht as [Hi [Hn _] [Hp _] Hc].
  good_members; [by apply good_number, double_of_int31|by apply good_string|apply good_bool|by apply good_number|].
  apply (objects_good _ Hc).
Qed.

(** A price is read as an integer. *)
Record demand_storable (d : Demand) : Prop := {
  demand_territory : int31 (territoryId_ d);
  demand_quantity : int31 (quantity_ d);
  demand_price : ∃ p, int31 p ∧ price_ d = double_of_int p }.
Lemma demand_tree d : int31 (territoryId_ d) → int31 (quantity_ d) → normal_number (price_ d) →
  Demand_toJsonObject d = JObject [(bs "terId", JNumber (double_of_int (territoryId_ d)));
    (bs "qty", JNumber (double_of_int (quantity_ d))); (bs "price", JNumber (price_ d))].
Proof.
  intros Ht Hq Hp. unfold Demand_toJsonObject. rewrite !int_entry_normal; try by apply double_of_int31.
  by rewrite number_entry_normal.
Qed.
Lemma demand_price_normal d : demand_storable d → normal_number (price_ d).
Proof. intros [_ _ (p & Hp & ->)]. by apply double_of_int31. Qed.
#[export] Program Instance demand_codec : JsonCodec Demand := {| storable := demand_storable; stored_depth := 2 |}.
Next Obligation.
  intros d Hd. unfold toJsonObject, Demand_to_json.
  rewrite demand_tree; [|by destruct Hd..|by apply demand_price_normal]. destruct Hd as [Ht Hq (p & Hp & E)]. rewrite E.
  unfold fromJsonObject, Demand_from_json, Demand_fromJsonObject. read_members. rewrite -E. by destruct d.
Qed.
Next Obligation.
  intros d Hd. unfold toJsonObject, Demand_to_json. pose proof (demand_price_normal d Hd) as Hn.
  rewrite demand_tree; [|by destruct Hd..|done]. destruct Hd as [Ht Hq _].
  good_members; [by apply good_number, double_of_int31..|by apply good_number].
Qed.

Record bid_storable (b : Bid) : Prop := {
  bid_auction : int31 (auctionId_ b);
  bid_round : int31 (round_ b);
  bid_demands : Forall storable (demands_ b);
  bid_empty : demands_ b = [] → auctionId_ b = 0 }.
Lemma bid_tree b : int31 (auctionId_ b) → int31 (round_ b) →
  Bid_toJsonObject b = JObject [(bs "auctionId", JNumber (double_of_int (auctionId_ b)));
    (bs "round", JNumber (double_of_int (round_ b))); (bs "bids", JArray (toJsonObject <$> demands_ b))].
Proof. intros Ha Hr. unfold Bid_toJsonObject. by rewrite !int_entry_normal; try by apply double_of_int31. Qed.
#[export] Program Instance bid_codec : JsonCodec Bid := {| storable := bid_storable; stored_depth := 4 |}.
Next Obligation.
  intros b Hb. unfold toJsonObject at 1, Bid_to_json. rewrite bid_tree; [|by destruct Hb..]. destruct Hb as [Ha Hr Hd He].
  unfold fromJsonObject, Bid_from_json, Bid_fromJsonObject. read_members.
  assert (Hsize : (size (toJsonObject <$> demands_ b) =? 0) && negb (auctionId_ b =? 0) = false).
  { unfold size. rewrite length_fmap. destruct (demands_ b); [by rewrite He|done]. }
  rewrite Hsize. cbn [FAST_FAIL_CHECK mbind checked_bind mret checked_ret]. rewrite objects_ok //=. by destruct b.
Qed.
Next Obligation.
  intros b Hb. unfold toJsonObject at 1, Bid_to_json. rewrite bid_tree; [|by destruct Hb..]. destruct Hb as [Ha Hr Hd _].
  good_members; [by apply good_number, double_of_int31..|apply (objects_good _ Hd)].
Qed.

(** ** The static state *)

Lemma percentage_read z : 0 ≤ z ≤ 100 → dlt (double_of_int 100) (double_of_int z) = false.
Proof.
  intros Hz. assert (Hall : forallb (λ n, negb (dlt (double_of_int 100) (double_of_int (Z.of_nat n)))) (seq 0 101) = true)
    by (vm_compute; reflexivity).
  rewrite forallb_forall in Hall. specialize (Hall (Z.to_nat z) ltac:(apply in_seq; lia)).
  rewrite Z2Nat.id in Hall; last lia. by apply negb_true_iff in Hall.
Qed.
Lemma dlt_zero z : uint32 z → dlt (double_of_int z) (S754_zero false) = false.
Proof.
  intros [Hz Hmax]. destruct z as [|p|p]; [done| |lia]. cbn [double_of_int].
  by destruct (round_ratio_int false p) as (m & e & -> & _); [lia|].
Qed.

Record static_storable (s : StaticAuctionState) : Prop := {
  static_owner : storable (owner_ s);
  static_name : good_name (name_ s);
  static_territories : Forall storable (territories_ s);
  static_bidders : Forall storable (bidders_ s);
  static_eligibilities : Forall storable (initialEligibilities_ s);
  static_activity : 0 ≤ activityRequirementPercentage_ s ≤ 100;
  static_increment : uint32 (clockPriceIncrementPercentage_ s) }.
Lemma static_tree s : static_storable s → StaticAuctionState_toJsonObject s =
  JObject [(bs "owner", toJsonObject (owner_ s)); (bs "name", JString (name_ s));
    (bs "territories", JArray (toJsonObject <$> territories_ s)); (bs "bidders", JArray (toJsonObject <$> bidders_ s));
    (bs "initialEligibilities", JArray (toJsonObject <$> initialEligibilities_ s));
    (bs "activityRequirementPercentage", JNumber (double_of_int (activityRequirementPercentage_ s)));
    (bs "clockPriceIncrementPercentage", JNumber (double_of_int (clockPriceIncrementPercentage_ s)))].
Proof.
  intros [_ Hn _ _ _ Ha Hc]. unfold StaticAuctionState_toJsonObject. rewrite string_entry_good //.
  rewrite !int_entry_normal //; apply double_of_uint32; unfold uint32 in *; lia.
Qed.
Lemma static_good s : static_storable s → good 100 (StaticAuctionState_toJsonObject s).
Proof.
  intros Hs. rewrite static_tree //. destruct Hs as [Ho [Hn _] Ht Hb He Ha Hc]. apply (good_mono 6); [|lia].
  good_members.
  - apply (good_mono 2); [apply (codec_good _ Ho)|lia].
  - by apply good_string.
  - apply (objects_good _ Ht).
  - apply (good_mono 4); [apply (objects_good _ Hb)|lia].
  - apply (good_mono 3); [apply (objects_good _ He)|lia].
  - apply good_number, double_of_uint32. unfold uint32. lia.
  - by apply good_number, double_of_uint32.
Qed.
Lemma static_roundtrip s : static_storable s →
  fromExtendedJsonObject StaticAuctionState_new (Some (StaticAuctionState_toJsonObject s)) = Good s.
Proof.
  intros Hs. rewrite static_tree //. destruct Hs as [Ho Hn Ht Hb He Ha Hc].
  set (kvs := [_; _; _; _; _; _; _]). unfold fromExtendedJsonObject. cbn [is_object negb FAST_FAIL_CHECK mbind checked_bind].
  change (member (Some (JObject kvs)) (bs "owner")) with (Some (toJsonObject (owner_ s))).
  cbn [bool_decide mbind checked_bind mret checked_ret]. rewrite (codec_roundtrip _ Ho). cbn [mbind checked_bind].
  unfold StaticAuctionState_fromJsonObject. cbn [is_object negb FAST_FAIL_CHECK mbind checked_bind mret checked_ret].
  unfold kvs. read_members. rewrite (objects_ok _ Ht). cbn [mbind checked_bind]. read_members.
  rewrite (objects_ok _ Hb). cbn [mbind checked_bind]. read_members. rewrite (objects_ok _ He). cbn [mbind checked_bind].
  fold kvs. change (has_number (Some (JObject kvs)) (bs "activityRequirementPercentage")) with true.
  change (has_number (Some (JObject kvs)) (bs "clockPriceIncrementPercentage")) with true.
  change (as_number (member (Some (JObject kvs)) (bs "activityRequirementPercentage")))
    with (double_of_int (activityRequirementPercentage_ s)).
  change (as_number (member (Some (JObject kvs)) (bs "clockPriceIncrementPercentage")))
    with (double_of_int (clockPriceIncrementPercentage_ s)).
  assert (Ha32 : uint32 (activityRequirementPercentage_ s)) by (unfold uint32; lia).
  rewrite (proj1 (double_of_uint32 _ Ha32)) (proj1 (double_of_uint32 _ Hc)) !dlt_zero // percentage_read //.
  by destruct s.
Qed.

(** ** The dynamic state *)

Record dynamic_storable (d : DynamicAuctionState) : Prop := {
  dynamic_phase : auctionState_ d ≠ STATE_UNDEFINED;
  dynamic_round : int31 (clockRound_ d) ∧ clockRound_ d ≠ 0;
  dynamic_posted : Forall (Forall normal_number) (postedPrice_ d);
  dynamic_clock : Forall (Forall normal_number) (clockPrice_ d);
  dynamic_eligibility : Forall (Forall uint32) (eligibility_ d);
  dynamic_bids : Forall (Forall storable) (clockBids_ d);
  dynamic_licenses : Forall (Forall (Forall uint32)) (processedLicenses_ d);
  dynamic_excess : Forall (Forall (λ z, in_int z = true)) (excessDemand_ d);
  dynamic_win : Forall (Forall (λ z, in_int z = true)) (winAssign_ d);
  dynamic_cost : Forall (Forall normal_number) (assignCost_ d);
  dynamic_price : Forall (Forall normal_number) (channelPrice_ d) }.

(** The members of the tree, with the bids given as a tree of their own *)
Definition dynamic_members (d : DynamicAuctionState) : list (bytes * json) :=
  [(bs "state", JString (AUCTION_STATE_STRINGS (auctionState_ d)));
   (bs "clockRound", JNumber (double_of_int (clockRound_ d)));
   (bs "roundActive", JBool (roundActive_ d));
   (bs "postedPrice", JArray (numbers <$> postedPrice_ d));
   (bs "clockPrice", JArray (numbers <$> clockPrice_ d));
   (bs "eligibility", JArray (integers <$> eligibility_ d));
   (bs "clockBids", JArray ((λ row, JArray (toJsonObject <$> row)) <$> clockBids_ d));
   (bs "processedLicenses", JArray ((λ m, JArray (integers <$> m)) <$> processedLicenses_ d));
   (bs "excessDemand", JArray (integers <$> excessDemand_ d));
   (bs "winAssign", JArray (integers <$> winAssign_ d));
   (bs "assignCost", JArray (numbers <$> assignCost_ d));
   (bs "channelPrice", JArray (numbers <$> channelPrice_ d))].
Lemma dynamic_tree d : int31 (clockRound_ d) → DynamicAuctionState_toJsonObject d = JObject (dynamic_members d).
Proof.
  intros Hr. unfold DynamicAuctionState_toJsonObject. rewrite int_entry_normal //. by apply double_of_int31.
Qed.

Lemma uint32_convertible z : uint32 z → convertible uint32_of_double double_of_int z.
Proof. apply double_of_uint32. Qed.
Lemma int_convertible z : in_int z = true → convertible int32_of_double double_of_int z.
Proof. intros Hz. by destruct (double_of_int_spec z Hz) as (? & ? & _). Qed.
Lemma matrix_impl {A} (P Q : A → Prop) m : Forall (Forall P) m → (∀ a, P a → Q a) → Forall (Forall Q) m.
Proof. intros Hm HPQ. eapply Forall_impl; [exact Hm|]. intros row Hrow. eapply Forall_impl; [exact Hrow|exact HPQ]. Qed.
Lemma bids_member_ok kvs m :
  olookup (bs "clockBids") kvs = Some (JArray ((λ row : list Bid, JArray (toJsonObject <$> row)) <$> m)) →
  Forall (Forall storable) m → bids_member (Some (JObject kvs)) = Good m.
Proof.
  intros E Hm. unfold bids_member. rewrite (array_member_ok _ _ _ _ _ E). apply mapM_good.
  eapply Forall_impl; [exact Hm|]. intros row. apply objects_ok.
Qed.
Lemma licenses_member_ok kvs m :
  olookup (bs "processedLicenses") kvs = Some (JArray ((λ m, JArray (integers <$> m)) <$> m)) →
  Forall (Forall (Forall uint32)) m → licenses_member (Some (JObject kvs)) = Good m.
Proof.
  intros E Hm. unfold licenses_member. rewrite (array_member_ok _ _ _ _ _ E). apply mapM_good.
  eapply Forall_impl; [exact Hm|]. intros rows Hrows. apply (mapM_good (number_row uint32_of_double)).
  eapply Forall_impl; [exact Hrows|]. intros row Hrow. apply number_row_ok. eapply Forall_impl; [exact Hrow|].
  apply uint32_convertible.
Qed.

(** All members but the bids, which may fail *)
Lemma dynamic_read d d0 bids : dynamic_storable (set_bids [] d) → bids_member (Some (JObject (dynamic_members d))) = bids →
  DynamicAuctionState_fromJsonObject d0 (Some (JObject (dynamic_members d))) =
  (b ← bids; Good (mkDynamic (auctionState_ d) (clockRound_ d) (roundActive_ d) (submitterPrincipal_ d0)
    (postedPrice_ d0 ++ postedPrice_ d) (clockPrice_ d0 ++ clockPrice_ d) (eligibility_ d0 ++ eligibility_ d)
    (clockBids_ d0 ++ b) (excessDemand_ d0 ++ excessDemand_ d) (processedLicenses_ d0 ++ processedLicenses_ d)
    (winAssign_ d0 ++ winAssign_ d) (assignCost_ d0 ++ assignCost_ d) (channelPrice_ d0 ++ channelPrice_ d) (er_ d0))).
Proof.
  intros [Hph [Hr Hr0] Hpo Hcl Hel _ Hli Hex Hwi Hco Hpr] Hb. simpl in *.
  set (kvs := dynamic_members d) in *. unfold DynamicAuctionState_fromJsonObject.
  rewrite (string_member_ok _ _ kvs "state" (AUCTION_STATE_STRINGS (auctionState_ d))) //. cbn [mbind checked_bind].
  rewrite (_ : stateMap_ _ = Some (auctionState_ d)); last (destruct (auctionState_ d); vm_compute; reflexivity).
  cbn [mbind checked_bind]. rewrite (check_pass _ 567) //. cbn [defined mbind checked_bind].
  rewrite (check_pass _ 569); last by apply bool_decide_eq_false_2. cbn [mbind checked_bind].
  rewrite (integer_member_ok _ _ _ kvs "clockRound" (clockRound_ d)) //. cbn [mbind checked_bind].
  rewrite (check_pass _ 577); last by apply Z.eqb_neq. cbn [mbind checked_bind].
  rewrite (price_matrix_ok _ kvs "postedPrice" (postedPrice_ d)) //. cbn [mbind checked_bind].
  rewrite (price_matrix_ok _ kvs "clockPrice" (clockPrice_ d)) //. cbn [mbind checked_bind].
  rewrite (matrix_member_ok uint32_of_double double_of_int _ kvs "eligibility" (eligibility_ d)) //;
    last by (eapply matrix_impl; [exact Hel|apply uint32_convertible]).
  cbn [mbind checked_bind]. rewrite Hb. destruct bids as [b|er|]; [|reflexivity..]. cbn [mbind checked_bind].
  rewrite (licenses_member_ok kvs (processedLicenses_ d)) //. cbn [mbind checked_bind].
  rewrite (matrix_member_ok int32_of_double double_of_int _ kvs "excessDemand" (excessDemand_ d)) //;
    last by (eapply matrix_impl; [exact Hex|apply int_convertible]).
  cbn [mbind checked_bind]. rewrite (matrix_member_ok int32_of_double double_of_int _ kvs "winAssign" (winAssign_ d)) //;
    last by (eapply matrix_impl; [exact Hwi|apply int_convertible]).
  cbn [mbind checked_bind]. rewrite (price_matrix_ok _ kvs "assignCost" (assignCost_ d)) //. cbn [mbind checked_bind].
  rewrite (price_matrix_ok _ kvs "channelPrice" (channelPrice_ d)) //. cbn [mbind checked_bind mret checked_ret].
  change (member (Some (JObject kvs)) (bs "roundActive")) with (Some (JBool (roundActive_ d))).
  by destruct (roundActive_ d).
Qed.
Lemma dynamic_roundtrip p d : dynamic_storable d →
  DynamicAuctionState_fromJsonObject (fresh p) (Some (DynamicAuctionState_toJsonObject d)) = Good (as_submitter p d).
Proof.
  intros Hd. rewrite dynamic_tree; last apply Hd. rewrite (dynamic_read d (fresh p) (Good (clockBids_ d))).
  - done.
  - destruct Hd. by constructor.
  - apply bids_member_ok; [done|apply Hd].
Qed.

(** Trees of the bids may hold any normal price. *)
Definition demand_printable (d : Demand) : Prop :=
  int31 (territoryId_ d) ∧ int31 (quantity_ d) ∧ normal_number (price_ d).
Definition bid_printable (b : Bid) : Prop :=
  int31 (auctionId_ b) ∧ int31 (round_ b) ∧ Forall demand_printable (demands_ b).
Lemma bid_printed b : bid_printable b → good 4 (toJsonObject b).
Proof.
  intros (Ha & Hr & Hd). unfold toJsonObject, Bid_to_json. rewrite bid_tree //.
  good_members; [by apply good_number, double_of_int31..|]. apply good_array, Forall_fmap.
  eapply Forall_impl; [exact Hd|]. intros dem (Ht & Hq & Hp). simpl. unfold toJsonObject, Demand_to_json.
  rewrite demand_tree //. good_members; [by apply good_number, double_of_int31..|by apply good_number].
Qed.
Lemma bid_storable_printable b : bid_storable b → bid_printable b.
Proof.
  intros [Ha Hr Hd _]. split_and!; [done..|]. eapply Forall_impl; [exact Hd|]. intros d Hst.
  split_and!; [by destruct Hst..|by apply demand_price_normal].
Qed.
Lemma dynamic_good d : dynamic_storable (set_bids [] d) → Forall (Forall bid_printable) (clockBids_ d) →
  good 100 (JObject (dynamic_members d)).
Proof.
  intros [Hph [Hr Hr0] Hpo Hcl Hel _ Hli Hex Hwi Hco Hpr] Hb. simpl in *. apply (good_mono 7); [|lia].
  assert (Hprices : ∀ m, Forall (Forall normal_number) m → good 6 (JArray (numbers <$> m))).
  { intros m Hm. apply good_array, Forall_fmap. eapply Forall_impl; [exact Hm|]. apply numbers_good. }
  assert (Hints : ∀ m, Forall (Forall (λ z, normal_number (double_of_int z))) m → good 6 (JArray (integers <$> m))).
  { intros m Hm. apply (matrix_good _ double_of_int). done. }
  good_members; try by apply Hprices.
  - apply good_string. destruct (auctionState_ d); apply (bool_decide_unpack _); vm_compute; exact I.
  - by apply good_number, double_of_int31.
  - apply good_bool.
  - apply Hints. eapply matrix_impl; [exact Hel|]. apply double_of_uint32.
  - apply good_array, Forall_fmap. eapply Forall_impl; [exact Hb|]. intros row Hrow. apply good_array, Forall_fmap.
    eapply Forall_impl; [exact Hrow|]. apply bid_printed.
  - apply good_array, Forall_fmap. eapply Forall_impl; [exact Hli|]. intros m Hm.
    apply (matrix_good _ double_of_int). eapply matrix_impl; [exact Hm|]. apply double_of_uint32.
  - apply Hints. eapply matrix_impl; [exact Hex|]. apply double_normal.
  - apply Hints. eapply matrix_impl; [exact Hwi|]. apply double_normal.
Qed.
End classes.

(** ** Every dynamic state is printed as a well-formed tree, as parson leaves out what is not *)

(** The entries of an object, some of which may be left out *)
Ltac wf_members :=
  unfold int_entry, number_entry; repeat case_match; cbn [app]; apply json_wf_object;
  (split; [cbn [fmap list_fmap fst]; apply (bool_decide_unpack _); vm_compute; exact I|]);
  repeat (apply Forall_cons; split; [split; [by apply nonul_lit|]|]); try apply Forall_nil; cbn [snd]; try done.
Lemma numbers_wf l : json_wf (numbers l).
Proof.
  apply json_wf_array, Forall_fmap, Forall_forall. intros d Hd. by apply list_elem_of_filter in Hd as [Hd _].
Qed.
Lemma array_wf {A} (f : A → json) l : (∀ a, json_wf (f a)) → json_wf (JArray (f <$> l)).
Proof. intros Hf. apply json_wf_array, Forall_fmap, Forall_forall. intros a _. apply Hf. Qed.
Lemma demand_wf d : json_wf (Demand_toJsonObject d).
Proof. unfold Demand_toJsonObject. wf_members. Qed.
Lemma bid_wf b : json_wf (Bid_toJsonObject b).
Proof. unfold Bid_toJsonObject. wf_members; apply array_wf, demand_wf. Qed.
Lemma dynamic_wf d : json_wf (DynamicAuctionState_toJsonObject d).
Proof.
  unfold DynamicAuctionState_toJsonObject. wf_members;
    try (by destruct (auctionState_ d); apply nonul_lit); apply array_wf; intros row; try apply numbers_wf;
    apply array_wf; first [apply bid_wf|intros r; apply numbers_wf].
Qed.
