(* ===== verification/SpectrumStorageProof.v ===== *)
(** * The spectrum auction: what is stored is loaded

    With an honest peer a string that was stored is read back, and so is an auction whose
    state is [static_storable] and [dynamic_storable]; what is stored under the number of
    an auction does not touch another one. *)
From stdpp Require Import base list numbers option sets strings pretty.
From Stdlib Require Import ZArith Lia.
From S2P Require Import Prelude ParsonText CNum JsonSpec JsonRoundTrip CNumProof CDouble StdMap.
From S2P Require Import SgxCCLib EnclaveCrypto Ledger Shim EnclaveProof Peer Chaincodes ChaincodeJson.
From S2P Require Import Spectrum SpectrumEval SpectrumJson SpectrumStorage SpectrumJsonProof.
From Stdlib Require Import ssreflect.
Local Open Scope Z_scope.

(** ** Decimal numbers *)

Lemma digit_char x : (x < 10)%N → ∃ c, bs (String (pretty_N_char x) "") = [c] ∧ isdigit c = true ∧
  hex_char_to_int c = Z.of_N x.
Proof.
  intros Hx. assert (x ∈ [0; 1; 2; 3; 4; 5; 6; 7; 8; 9]%N) as Hin.
  { apply list_elem_of_In. simpl. lia. }
  repeat (apply elem_of_cons in Hin as [->|Hin]; [eexists; split; [reflexivity|split; vm_compute; reflexivity]|]).
  by apply not_elem_of_nil in Hin.
Qed.
Lemma bs_cons c s : bs (String c s) = bs (String c "") ++ bs s.
Proof. done. Qed.
(** The digits that are put in front of [s] *)
Lemma pretty_digits x : ∀ s, ∃ ds, bs (pretty_N_go x s) = ds ++ bs s ∧ digits ds ∧ digits_value 10 ds = Z.of_N x ∧
  (x ≠ 0%N → ds ≠ []) ∧ ∀ k, Z.of_N x < 10 ^ Z.of_nat k → (length ds ≤ k)%nat.
Proof.
  induction (N.lt_wf_0 x) as [x _ IH]. intros s. destruct (decide (x = 0%N)) as [->|Hx].
  { exists []. split_and!; [done|constructor|done|done|simpl; lia]. }
  rewrite pretty_N_go_step; last lia. pose proof (N.mod_lt x 10 ltac:(lia)) as Hmod.
  destruct (IH (x / 10)%N ltac:(apply N.div_lt; lia) (String (pretty_N_char (x mod 10)) s)) as (ds & E & Hd & Hv & _ & Hk).
  destruct (digit_char (x mod 10) Hmod) as (c & Ec & Hc & Hcv).
  exists (ds ++ [c]). rewrite E bs_cons Ec -app_assoc. split_and!.
  - done.
  - apply Forall_app. split; [done|by constructor].
  - rewrite digits_value_app Hv. change (10 ^ Z.of_nat (length [c])) with 10.
    change (digits_value 10 [c]) with (0 * 10 + hex_char_to_int c). rewrite Hcv.
    pose proof (N.div_mod x 10 ltac:(lia)). lia.
  - intros _. by destruct ds.
  - intros [|k] Hlt; [simpl in Hlt; lia|]. rewrite length_app /=.
    rewrite Nat2Z.inj_succ Z.pow_succ_r in Hlt; last lia. pose proof (N.div_mod x 10 ltac:(lia)).
    enough (length ds ≤ k)%nat by lia. apply Hk. rewrite N2Z.inj_div. apply Z.div_lt_upper_bound; [done|exact Hlt].
Qed.
Lemma show_int_digits z : 0 ≤ z → digits (show_int z) ∧ digits_value 10 (show_int z) = z ∧ show_int z ≠ [] ∧
  ∀ k, (0 < k)%nat → z < 10 ^ Z.of_nat k → (length (show_int z) ≤ k)%nat.
Proof.
  intros Hz. destruct z as [|p|p]; [|clear Hz|lia].
  { split_and!; [by repeat constructor|done|done|]. intros k Hk _. change (length (show_int 0)) with 1%nat. lia. }
  unfold show_int. change (pretty (Zpos p)) with (pretty_N_go (N.pos p) "").
  destruct (pretty_digits (N.pos p) "") as (ds & E & Hd & Hv & Hne & Hk). rewrite E app_nil_r.
  split_and!; [done|done|by apply Hne|]. intros k _. apply Hk.
Qed.
Lemma show_int_nonul z : 0 ≤ z → nonul (show_int z).
Proof. intros Hz. by apply digits_nonul, show_int_digits. Qed.

Section storage.
Context {W : Type} `{HonestPeer W} `{Implementation} `{Stack}.
Implicit Types (ctx : t_shim_ctx W) (w : W) (key val : bytes).

Lemma stoul_show z ctx : 0 ≤ z < 2 ^ 32 → stoul (show_int z) ctx = Done z ctx.
Proof.
  intros Hz. destruct (show_int_digits z) as (Hd & Hv & Hne & _); [lia|]. unfold stoul.
  rewrite cstr_nonul; last by apply digits_nonul.
  destruct (show_int z) as [|c ds] eqn:E; [done|]. pose proof Hd as Hd'. apply Forall_cons in Hd' as [Hc _].
  assert (Hc' : isspace c = false ∧ c ≠ "-"%byte ∧ c ≠ "+"%byte).
  { destruct c; try done; split_and!; done. }
  destruct Hc' as (Hsp & Hm & Hp). cbn [SKIP_WHITESPACES]. rewrite Hsp. cbn [hd_c].
  case_decide as Hdash; [done|]. case_decide as Hplus; [done|].
  rewrite (_ : span isdigit (c :: ds) = (c :: ds, [])); last by rewrite -{1}(app_nil_r (c :: ds)) span_app.
  cbv beta iota. try (case_decide; [done|]). rewrite Hv.
  rewrite Z.geb_leb (proj2 (Z.leb_gt _ _)) //. lia.
Qed.

(** ** Strings *)

(** A string that the peer holds *)
Definition holds_string w key val : Prop :=
  private w (key ++ bs "L") (show_int (Z.of_nat (length val) + 1) ++ [x00]) ∧ private w (key ++ bs "K") (val ++ [x00]).
(** The values that can be read back; those of a billion bytes and more cannot. *)
Definition fits val : Prop := nonul val ∧ Z.of_nat (length val) + 1 < 10 ^ 9.

Lemma holds_string_same w w' key val : same_holds w w' → holds_string w key val → holds_string w' key val.
Proof. intros Hs [Hl Hk]. split; by eapply private_same. Qed.

Lemma put_string_ok key val ctx : nonul key →
  ∃ ctx', ledgerPrivatePutString key val ctx = Done () ctx' ∧ (fits val → holds_string (world ctx') key val) ∧
    ∀ k, k ∉ [key ++ bs "L"; key ++ bs "K"] → holds (world ctx') k = holds (world ctx) k.
Proof.
  intros Hkey. unfold ledgerPrivatePutString, put_string, ledgerPrivatePutBinary.
  set (n := wrap32 _). assert (Hn : 0 ≤ n < 2 ^ 32) by apply Z.mod_pos_bound, eq_refl.
  destruct (show_int_digits n) as (_ & _ & Hne & Hd); [lia|]. specialize (Hd 10%nat ltac:(lia) ltac:(lia)).
  assert (Hsize : (size (show_int n) =? 0) || (size (show_int n) >? MAX_LENGTH_STRING_SIZE) = false).
  { unfold size, MAX_LENGTH_STRING_SIZE. destruct (show_int n); [done|]. rewrite Z.gtb_ltb. simpl in *.
    apply Z.ltb_ge. lia. }
  rewrite Hsize !cstr_nonul; [|apply nonul_app; split; [done|by apply nonul_lit]..].
  destruct (put_private (key ++ bs "L") (show_int n ++ [x00]) ctx) as (ctx1 & E1 & Hp1 & Hf1 & _).
  destruct (put_private (key ++ bs "K") (take (Z.to_nat n) (val ++ [x00])) ctx1) as (ctx2 & E2 & Hp2 & Hf2 & _).
  exists ctx2. unfold mbind, SM_bind. rewrite E1 E2. split; [done|]. split.
  - intros [_ Hlen]. assert (n = Z.of_nat (length val) + 1) as -> by (apply wrap32_exact; lia). split.
    + destruct Hp1 as (stored & Hh & Hs). exists stored. rewrite Hf2 //. intros Heq%app_inj_tail_iff. by destruct Heq.
    + rewrite take_ge in Hp2; [done|rewrite length_app /=; lia].
  - intros k Hk. apply not_elem_of_cons in Hk as [Ha Hk]. apply not_elem_of_cons in Hk as [Hb _].
    rewrite Hf2 // Hf1 //.
Qed.

Lemma get_string_ok key val ctx : nonul key → fits val → holds_string (world ctx) key val →
  ∃ ctx', ledgerPrivateGetString key ctx = Done val ctx' ∧ same_holds (world ctx) (world ctx').
Proof.
  intros Hkey [Hn Hlen] [Hl Hk]. unfold ledgerPrivateGetString, ledgerPrivateGetBinary.
  rewrite !cstr_nonul; [|apply nonul_app; split; [done|by apply nonul_lit]..].
  set (n := Z.of_nat (length val) + 1) in *.
  destruct (show_int_digits n) as (_ & _ & Hne & Hd); [lia|]. specialize (Hd 9%nat ltac:(lia) ltac:(lia)).
  destruct (get_private _ _ (MAX_LENGTH_STRING_SIZE + 1) ctx Hl) as (ctx1 & E1 & Hs1 & _);
    [rewrite length_app /=; unfold MAX_LENGTH_STRING_SIZE; lia|unfold MAX_LENGTH_STRING_SIZE; lia|].
  destruct (get_private _ _ n ctx1 (private_same _ _ _ _ Hs1 Hk)) as (ctx2 & E2 & Hs2 & _);
    [rewrite length_app /=; lia|lia|].
  exists ctx2. split; [|by etrans]. unfold mbind, SM_bind. rewrite E1 /size length_app.
  rewrite (proj2 (Z.eqb_neq _ _)); last (simpl; lia). rewrite Z.gtb_ltb (proj2 (Z.ltb_ge _ _)); last (unfold MAX_LENGTH_STRING_SIZE; simpl; lia).
  rewrite last_snoc bool_decide_eq_true_2 //. cbn [negb].
  rewrite cstr_app_nul; last (apply show_int_nonul; lia). rewrite stoul_show; last lia. rewrite wrap32_exact; last lia.
  rewrite (proj2 (Z.eqb_neq _ _)); last lia. rewrite E2 length_app.
  rewrite (proj2 (Z.eqb_eq _ _)); last (simpl; lia). rewrite last_snoc bool_decide_eq_true_2 //. cbn [negb].
  by rewrite cstr_app_nul.
Qed.
Lemma get_string_absent key ctx : nonul key → holds (world ctx) (key ++ bs "L") = None →
  ∃ ctx', ledgerPrivateGetString key ctx = Done [] ctx' ∧ same_holds (world ctx) (world ctx').
Proof.
  intros Hkey Hh. unfold ledgerPrivateGetString, ledgerPrivateGetBinary.
  rewrite !cstr_nonul; [|apply nonul_app; split; [done|by apply nonul_lit]..].
  destruct (get_absent _ (MAX_LENGTH_STRING_SIZE + 1) ctx Hh) as (ctx1 & E1 & Hs1 & _).
  exists ctx1. split; [|done]. unfold mbind, SM_bind. by rewrite E1.
Qed.

(** ** Auctions *)

(** The keys of an auction are its own. *)
Definition auction_keys (i : Z) : list bytes :=
  [auction_key i ".staticAuctionState" ++ bs "L"; auction_key i ".staticAuctionState" ++ bs "K";
   auction_key i ".dynamicAuctionState" ++ bs "L"; auction_key i ".dynamicAuctionState" ++ bs "K"].
Lemma auction_key_nonul i suffix : 0 ≤ i → nonul (bs suffix) → nonul (auction_key i suffix).
Proof.
  intros Hi Hs. unfold auction_key. rewrite !nonul_app. split_and!; [by apply nonul_lit|by apply show_int_nonul|done].
Qed.
Lemma auction_key_form i k : k ∈ auction_keys i → ∃ r, k = bs "Auction." ++ show_int i ++ "."%byte :: r.
Proof.
  intros Hk. unfold auction_keys, auction_key in Hk. repeat setoid_rewrite elem_of_cons in Hk.
  destruct Hk as [->|[->|[->|[->|Hk]]]]; [eexists; rewrite -!app_assoc; reflexivity..|by apply not_elem_of_nil in Hk].
Qed.
Lemma auction_states_apart i r r' : auction_key i ".staticAuctionState" ++ r ≠ auction_key i ".dynamicAuctionState" ++ r'.
Proof. unfold auction_key. rewrite -!app_assoc. by intros E%app_inv_head%app_inv_head. Qed.
Lemma auction_keys_disjoint i j k : 0 ≤ i → 0 ≤ j → k ∈ auction_keys i → k ∈ auction_keys j → i = j.
Proof.
  intros Hi Hj (r & ->)%auction_key_form (r' & E)%auction_key_form. apply app_inv_head in E.
  destruct (show_int_digits i Hi) as (Hdi & Hvi & _). destruct (show_int_digits j Hj) as (Hdj & Hvj & _).
  assert (Hspan : span isdigit (show_int i ++ "."%byte :: r) = span isdigit (show_int j ++ "."%byte :: r')) by by rewrite E.
  rewrite !span_app // in Hspan. injection Hspan as Heq _. by rewrite -Hvi -Hvj Heq.
Qed.
Lemma counter_key_other i : AUCTION_ID_COUNTER_STRING ∉ auction_keys i.
Proof. intros (r & E)%auction_key_form. done. Qed.

(** The peer holds the texts of an auction. *)
Definition holds_auction w i (s : StaticAuctionState) (d : DynamicAuctionState) : Prop :=
  holds_string w (auction_key i ".staticAuctionState") (json_text (StaticAuctionState_toJsonObject s)) ∧
  holds_string w (auction_key i ".dynamicAuctionState") (json_text (DynamicAuctionState_toJsonObject d)).
(** Its texts are not too long. *)
Definition texts_fit (s : StaticAuctionState) (d : DynamicAuctionState) : Prop :=
  Z.of_nat (length (json_text (StaticAuctionState_toJsonObject s))) + 1 < 10 ^ 9 ∧
  Z.of_nat (length (json_text (DynamicAuctionState_toJsonObject d))) + 1 < 10 ^ 9.
(** The states that can be stored and loaded again *)
Record auction_storable (s : StaticAuctionState) (d : DynamicAuctionState) : Prop := {
  storable_static : static_storable s;
  storable_dynamic : dynamic_storable d;
  storable_size : texts_fit s d }.

Lemma static_text_fits s d : static_storable s → texts_fit s d → fits (json_text (StaticAuctionState_toJsonObject s)).
Proof. intros Hs [Hl _]. split; [|done]. destruct (static_good s Hs) as (Hwf & _). by apply nonul_serialize. Qed.
Lemma dynamic_text_good d : dynamic_storable d → good 100 (JObject (dynamic_members d)).
Proof.
  intros Hd. apply dynamic_good; [by destruct Hd; constructor|]. eapply matrix_impl; [apply Hd|].
  apply bid_storable_printable.
Qed.
Lemma dynamic_text_fits s d : texts_fit s d → fits (json_text (DynamicAuctionState_toJsonObject d)).
Proof. intros [_ Hl]. split; [|done]. apply nonul_serialize, dynamic_wf. Qed.

Lemma storeAuctionState_ok i s d ctx : 0 ≤ i → static_storable s →
  ∃ ctx', storeAuctionState i s d ctx = Done () ctx' ∧ (texts_fit s d → holds_auction (world ctx') i s d) ∧
    ∀ k, k ∉ auction_keys i → holds (world ctx') k = holds (world ctx) k.
Proof.
  intros Hi Hs. unfold storeAuctionState.
  destruct (put_string_ok (auction_key i ".staticAuctionState") (json_text (StaticAuctionState_toJsonObject s)) ctx)
    as (ctx1 & E1 & H1' & F1); [by apply auction_key_nonul; last apply nonul_lit|].
  destruct (put_string_ok (auction_key i ".dynamicAuctionState") (json_text (DynamicAuctionState_toJsonObject d)) ctx1)
    as (ctx2 & E2 & H2' & F2); [by apply auction_key_nonul; last apply nonul_lit|].
  exists ctx2. unfold mbind, SM_bind. rewrite E1 E2. split; [done|]. split.
  - intros Hf. split; [|exact (H2' (dynamic_text_fits _ _ Hf))].
    destruct (H1' (static_text_fits _ _ Hs Hf)) as [(v1 & Ha & Hb) (v2 & Hc & He)].
    split; [exists v1|exists v2]; (rewrite F2; [done|apply not_elem_of_cons; split; [apply auction_states_apart|]];
      apply not_elem_of_cons; split; [apply auction_states_apart|apply not_elem_of_nil]).
  - intros k Hk. apply not_elem_of_cons in Hk as [Ha Hk]. apply not_elem_of_cons in Hk as [Hb Hk].
    rewrite F2 // F1 //. apply not_elem_of_cons. split; [done|]. by apply not_elem_of_cons; split; [|apply not_elem_of_nil].
Qed.

Lemma object_text_some kvs : size (json_text (JObject kvs)) =? 0 = false.
Proof. done. Qed.
Lemma loadAuctionState_static i d0 s d ctx : 0 ≤ i → static_storable s → texts_fit s d → holds_auction (world ctx) i s d →
  ∃ ctx', same_holds (world ctx) (world ctx') ∧
    loadAuctionState i d0 ctx =
      match DynamicAuctionState_fromJsonObject d0
              (openJsonObject (json_text (DynamicAuctionState_toJsonObject d))) with
      | Good d' => Done (Good (s, d')) ctx'
      | Failed er => Done (Failed er) ctx'
      | Undefined => Crash
      end.
Proof.
  intros Hi Hs Hf [Hhs Hhd]. unfold loadAuctionState.
  destruct (get_string_ok (auction_key i ".staticAuctionState") _ ctx
    ltac:(by apply auction_key_nonul; last apply nonul_lit) (static_text_fits _ _ Hs Hf) Hhs) as (ctx1 & E1 & S1).
  destruct (get_string_ok (auction_key i ".dynamicAuctionState") _ ctx1
    ltac:(by apply auction_key_nonul; last apply nonul_lit) (dynamic_text_fits _ _ Hf) (holds_string_same _ _ _ _ S1 Hhd)) as (ctx2 & E2 & S2).
  exists ctx2. split; [by etrans|]. unfold mbind, CM_bind, running, checking, mbind, SM_bind.
  rewrite E1. cbn [mret SM_ret]. unfold StaticAuctionState_toJsonObject at 1. rewrite object_text_some.
  cbn [FAST_FAIL_CHECK mret checked_ret SM_ret].
  pose proof (static_good s Hs) as Hg. pose proof (static_roundtrip s Hs) as Hr. unfold StaticAuctionState_toJsonObject in Hg, Hr |- *.
  rewrite (openJsonObject_text _ Hg) Hr. cbn [mret SM_ret]. rewrite E2. cbn [mret SM_ret].
  unfold DynamicAuctionState_toJsonObject at 1. rewrite object_text_some. cbn [FAST_FAIL_CHECK mret checked_ret SM_ret].
  by destruct (DynamicAuctionState_fromJsonObject d0 _).
Qed.

(** The auction is loaded as the one that was stored, with the submitter of the request. *)
Lemma loadAuctionState_ok i p s d ctx : 0 ≤ i → auction_storable s d → holds_auction (world ctx) i s d →
  ∃ ctx', loadAuctionState i (fresh p) ctx = Done (Good (s, as_submitter p d)) ctx' ∧ same_holds (world ctx) (world ctx').
Proof.
  intros Hi [Hs Hd Hf] Hh. destruct (loadAuctionState_static i (fresh p) s d ctx) as (ctx' & Hsame & E); [done..|].
  exists ctx'. split; [|done]. rewrite E. pose proof (dynamic_roundtrip p d Hd) as Hr.
  rewrite dynamic_tree in Hr |- *; last apply Hd. by rewrite (openJsonObject_text _ (dynamic_text_good d Hd)) Hr.
Qed.
End storage.
