(* ===== verification/SpectrumContext.v ===== *)
(** * The spectrum auction: what its requests do to the context

    Requests that only ask, and requests that fail, write nothing; all of them leave the
    context in order, as the other chaincodes do.  Both follow from the structure of the
    requests: they are proved for every relation between contexts that the operations of
    the shim respect. *)
From stdpp Require Import base list numbers option strings.
From Stdlib Require Import ZArith Lia.
From S2P Require Import Prelude ParsonText CNum JsonSpec StdMap SgxCCLib EnclaveCrypto Ledger LedgerTheorems Shim EnclaveProof Samples Peer.
From S2P Require Import Chaincodes Echo Helloworld Auction ChaincodeProof ObliviousAsm ObliviousAuction ObliviousProof ObliviousKeys ObliviousKeysProof.
From S2P Require Import Spectrum SpectrumEval SpectrumJson SpectrumStorage SpectrumApi SpectrumClaims.
Local Open Scope Z_scope.

(** ** Relations that reads respect, and those that writes respect too *)

Class Reading {W : Type} `{SgxCrypto W} (R : relation (t_shim_ctx W)) := {
  reading_preorder :: PreOrder R;
  reading_world (w : W) : leads R (set_world w);
  reading_error e : leads R (shim_error e);
  reading_get_public_state k v n : leads R (get_public_state k v n) }.
Class Writing {W : Type} `{SgxCrypto W} (R : relation (t_shim_ctx W)) := {
  writing_reading :: Reading R;
  writing_put_public_state k v : leads R (put_public_state k v) }.
#[export] Hint Extern 1 (leads _ (set_world _)) => apply reading_world : leads.
#[export] Hint Extern 1 (leads _ (shim_error _)) => apply reading_error : leads.
#[export] Hint Extern 1 (leads _ (get_public_state _ _ _)) => apply reading_get_public_state : leads.
#[export] Hint Extern 1 (leads _ (put_public_state _ _)) => apply writing_put_public_state : leads.

Definition same_writes {W} (ctx ctx' : t_shim_ctx W) : Prop := write_set ctx' = write_set ctx.

Section instances.
Context {W : Type} `{SgxCrypto W}.
#[export] Instance later_writing : Writing (W := W) later.
Proof. split; [split|]; eauto with leads typeclass_instances. Qed.
#[export] Instance same_writes_preorder : PreOrder (same_writes (W := W)).
Proof. unfold same_writes. split; [done|]. intros c1 c2 c3 E1 E2. congruence. Qed.
#[export] Instance same_writes_reading : Reading (W := W) same_writes.
Proof.
  split; [exact _|by intros w ctx a ctx' [= _ <-]|by intros e ctx a ctx' [= _ <-]|].
  intros k v n ctx a ctx'. unfold get_public_state, mbind, SM_bind, ctx_get, set_read_set, set_world.
  destruct (ocall_get_state _ _ _ _ _ _) as [[[val len] cmac] w]. destruct (len >? n); [done|].
  destruct (negb _); by intros [= _ <-].
Qed.
End instances.

Section reading.
Context {W : Type} `{SgxCrypto W} `{Implementation} `{Stack} (R : relation (t_shim_ctx W)) `{!Reading R}.

Lemma leads_cbind {A B} (c : CM W A) (k : A → CM W B) :
  leads R c → (∀ a, leads R (k a)) → leads R (mbind (M := CM W) k c).
Proof. intros Hc Hk. apply leads_bind; [exact _|done|]. intros [a|er|]; [apply Hk|by apply leads_ret; exact _|done]. Qed.
Lemma leads_cret {A} (a : A) : leads R (mret (M := CM W) a).
Proof. apply leads_ret. exact _. Qed.
Lemma leads_checking {A} (c : checked A) : leads R (checking c).
Proof. intros ctx r ctx'. apply (leads_ret R c). Qed.
Lemma leads_running {A} (c : SM W A) : leads R c → leads R (running c).
Proof. intros Hc. apply leads_bind; [exact _|done|]. intros a. apply leads_ret. exact _. Qed.
Lemma leads_lift {A} (o : option A) : leads R (lift o).
Proof. unfold lift. leads_steps. Qed.
Lemma leads_sound {A} (o : option A) : leads R (sound o).
Proof. apply leads_running, leads_lift. Qed.
#[local] Hint Resolve leads_cret leads_checking leads_running leads_lift leads_sound : leads.

(** *** The evaluation of rounds *)
Lemma leads_random : leads R random_uint32.
Proof. unfold random_uint32. leads_steps. Qed.
#[local] Hint Resolve leads_random : leads.
Lemma leads_enqueueDemands s d i l : ∀ queue, leads R (enqueueDemands s d i l queue).
Proof. induction l as [|dem l IH]; intros queue; cbn [enqueueDemands]; leads_steps. Qed.
#[local] Hint Resolve leads_enqueueDemands : leads.
Lemma leads_enqueueBids s d l : ∀ queue, leads R (enqueueBids s d l queue).
Proof. induction l as [|i l IH]; intros queue; cbn [enqueueBids]; leads_steps. Qed.
Lemma leads_shuffle n js : ∀ l, leads R (shuffle n js l).
Proof. induction js as [|j js IH]; intros l; cbn [shuffle]; leads_steps. Qed.
#[local] Hint Resolve leads_enqueueBids leads_shuffle : leads.
Lemma leads_assignTerritories s d l : ∀ win cost price, leads R (assignTerritories s d l win cost price).
Proof. induction l as [|i l IH]; intros win cost price; cbn [assignTerritories]; leads_steps. Qed.
#[local] Hint Resolve leads_assignTerritories : leads.
Lemma leads_closeRound fuel s i d : leads R (closeRound fuel s i d).
Proof.
  unfold closeRound, evaluateClockRound, processRegularRoundBids, evaluateAssignmentRound, processAssignmentRound.
  leads_steps.
Qed.

(** *** Loading *)
Lemma leads_get_state k n : leads R (get_state k n).
Proof. unfold get_state. leads_steps. Qed.
Lemma leads_stoul s : leads R (stoul s).
Proof. unfold stoul. leads_steps. Qed.
#[local] Hint Resolve leads_closeRound leads_get_state leads_stoul : leads.
Lemma leads_getString k : leads R (ledgerPrivateGetString k).
Proof. unfold ledgerPrivateGetString, ledgerPrivateGetBinary. leads_steps. Qed.
#[local] Hint Resolve leads_getString : leads.
Local Ltac request_steps := repeat first
  [ apply leads_cbind; [|intros ?]
  | match goal with |- leads _ (match ?x with _ => _ end) => destruct x end
  | solve [auto with leads] ].
Lemma leads_load i d : leads R (loadAuctionState i d).
Proof. unfold loadAuctionState. request_steps. Qed.
Lemma leads_counter : leads R InitializeAuctionIdCounter.
Proof. unfold InitializeAuctionIdCounter, ledgerPrivateGetBinary. leads_steps. Qed.
#[local] Hint Resolve leads_load leads_counter : leads.

(** *** The requests that ask *)
Definition queries : list bytes :=
  bs <$> ["getAuctionDetails"; "getAuctionStatus"; "getRoundInfo"; "getBidderRoundResults"; "getOwnerRoundResults";
          "submitAssignmentBid"; "getAssignmentResults"].
Lemma leads_query fuel name f d input : name ∈ queries → api_function fuel name = Some f → leads R (f d input).
Proof.
  intros Hq E. unfold queries in Hq. repeat (apply elem_of_cons in Hq as [->|Hq]); [..|by apply not_elem_of_nil in Hq];
    injection E as <-.
  - unfold getAuctionDetails. request_steps.
  - unfold getAuctionStatus. request_steps.
  - unfold getRoundInfo. request_steps.
  - unfold getBidderRoundResults. request_steps.
  - unfold getOwnerRoundResults. request_steps.
  - unfold submitAssignmentBid. request_steps.
  - unfold getAssignmentResults. request_steps.
Qed.

(** *** The requests that write *)
Context (HW : Writing R).
Lemma leads_put_state k v : leads R (put_state k v).
Proof. unfold put_state. leads_steps. Qed.
#[local] Hint Resolve leads_put_state : leads.
Lemma leads_put_string put k v : (∀ k v, leads R (put k v)) → leads R (put_string put k v).
Proof. intros Hput. unfold put_string. leads_steps. Qed.
Lemma leads_store i s d : leads R (storeAuctionState i s d).
Proof.
  unfold storeAuctionState, ledgerPrivatePutString.
  repeat (apply leads_bind; [exact _| |intros ?] || (apply leads_put_string; intros ??; apply leads_put_state)).
Qed.
Lemma leads_publish k v : leads R (ledgerPublicPutString k v).
Proof. apply leads_put_string. intros ??. apply writing_put_public_state. Qed.
Lemma leads_increment i : leads R (IncrementAndStoreAuctionIdCounter i).
Proof. apply leads_put_state. Qed.
#[local] Hint Resolve leads_store leads_publish leads_increment : leads.

Definition writers (fuel : nat) : list (DynamicAuctionState → bytes → CM W bytes) :=
  [createAuction; startNextRound; endRoundRequest fuel; submitClockBid; publishAssignmentResults].
Lemma api_writer fuel name f : name ∉ queries → api_function fuel name = Some f → f ∈ writers fuel.
Proof.
  intros Hq E. unfold api_function in E. apply fmap_Some in E as ([n g] & Hh%head_Some_elem_of & ->).
  apply list_elem_of_filter in Hh as [<- Hin]. unfold writers. cbn [snd].
  repeat (apply elem_of_cons in Hin as [[= -> ->]|Hin]); [..|by apply not_elem_of_nil in Hin];
    first [exfalso; apply Hq, (bool_decide_unpack _); vm_compute; exact I | repeat constructor].
Qed.
Lemma leads_request fuel name f d input : api_function fuel name = Some f → leads R (f d input).
Proof.
  intros E. destruct (decide (name ∈ queries)) as [Hq|Hq]; [by eapply leads_query|].
  apply (api_writer _ _ _ Hq) in E. unfold writers in E.
  repeat (apply elem_of_cons in E as [->|E]); [..|by apply not_elem_of_nil in E].
  - unfold createAuction. request_steps.
  - unfold startNextRound. request_steps.
  - unfold endRoundRequest. request_steps.
  - unfold submitClockBid. request_steps.
  - unfold publishAssignmentResults. request_steps.
Qed.
End reading.

(** ** Failing requests *)

Section clean.
Context {W : Type} `{SgxCrypto W} `{Implementation} `{Stack}.

(** A computation that writes nothing when it fails, and one that does not fail *)
Definition clean {A} (c : CM W A) : Prop :=
  ∀ ctx er ctx', c ctx = Done (Failed er) ctx' → same_writes ctx ctx'.
Definition infallible {A} (c : CM W A) : Prop := ∀ ctx er ctx', c ctx ≠ Done (Failed er) ctx'.

Lemma clean_reads {A} (c : CM W A) : leads same_writes c → clean c.
Proof. intros Hc ctx er ctx'. apply Hc. Qed.
Lemma clean_infallible {A} (c : CM W A) : infallible c → clean c.
Proof. intros Hc ctx er ctx' E. by destruct (Hc _ _ _ E). Qed.
Lemma clean_bind {A B} (c : CM W A) (k : A → CM W B) : leads same_writes c → (∀ a, clean (k a)) →
  clean (mbind (M := CM W) k c).
Proof.
  intros Hc Hk ctx er ctx'. unfold mbind, CM_bind, mbind, SM_bind.
  destruct (c ctx) as [[a|e|] ctx1| |] eqn:E; try done; specialize (Hc _ _ _ E); intros E'.
  - unfold same_writes in *. rewrite <- Hc. by eapply Hk.
  - by injection E' as <- <-.
Qed.
Lemma infallible_ret {A} (a : A) : infallible (mret (M := CM W) a).
Proof. done. Qed.
Lemma infallible_running {A} (c : SM W A) : infallible (running c).
Proof. intros ctx er ctx'. unfold running, mbind, SM_bind. by destruct (c ctx). Qed.
Lemma infallible_sound {A} (o : option A) : infallible (sound o).
Proof. apply infallible_running. Qed.
Lemma infallible_bind {A B} (c : CM W A) (k : A → CM W B) : infallible c → (∀ a, infallible (k a)) →
  infallible (mbind (M := CM W) k c).
Proof.
  intros Hc Hk ctx er ctx'. unfold mbind, CM_bind, mbind, SM_bind.
  destruct (c ctx) as [[a|e|] ctx1| |] eqn:E; try done; [apply Hk|]. intros [= -> ->]. by apply Hc in E.
Qed.

Local Ltac reads := first [apply leads_checking | apply leads_sound | apply leads_load
  | apply leads_running, leads_counter | apply leads_closeRound]; exact _.
(** Reads and checks, and from the first write on no more checks *)
Local Ltac clean_steps := repeat first
  [ apply clean_bind; [reads|intros ?]
  | match goal with |- clean (match ?x with _ => _ end) => destruct x end ];
  apply clean_infallible; repeat first
  [ apply infallible_bind; [|intros ?] | apply infallible_ret | apply infallible_running | apply infallible_sound
  | match goal with |- infallible (match ?x with _ => _ end) => destruct x end ].

Lemma clean_request fuel name f d input : api_function fuel name = Some f → clean (f d input).
Proof.
  intros E. destruct (decide (name ∈ queries)) as [Hq|Hq].
  { apply clean_reads. exact (leads_query same_writes fuel name f d input Hq E). }
  apply (api_writer _ _ _ Hq) in E. unfold writers in E.
  repeat (apply elem_of_cons in E as [->|E]); [..|by apply not_elem_of_nil in E].
  - unfold createAuction. clean_steps.
  - unfold startNextRound. clean_steps.
  - unfold endRoundRequest. clean_steps.
  - unfold submitClockBid. clean_steps.
  - unfold publishAssignmentResults. clean_steps.
Qed.

(** C17. Whatever the peer answers, a request that fails has written nothing: every check
    comes before the first write.  A request that only asks never writes. *)
Theorem failed_request_writes_nothing fuel name f d input ctx r ctx'
    (Hf : api_function fuel name = Some f) (Hrun : f d input ctx = Done r ctx')
    (Hr : (∃ er, r = Failed er) ∨ name ∈ queries) :
  write_set ctx' = write_set ctx.
Proof.
  destruct Hr as [(er & ->)|Hq]; [exact (clean_request fuel name f d input Hf _ _ _ Hrun)|].
  exact (leads_query same_writes fuel name f d input Hq Hf _ _ _ Hrun).
Qed.
End clean.

(** ** Invocations *)

Section invocations.
Context {W : Type} `{SgxCrypto W} `{Implementation} `{Stack}.
Implicit Types ctx : t_shim_ctx W.

Lemma leads_prepare (R : relation (t_shim_ctx W)) `{!PreOrder R} n r : leads R (prepare_response n r).
Proof. unfold prepare_response. leads_steps. Qed.
Lemma leads_identify (R : relation (t_shim_ctx W)) `{!Reading R} : leads R identifySubmitter.
Proof. unfold identifySubmitter, get_creator_name. leads_steps. Qed.
Lemma steady_spectrum fuel n : leads (W := W) later (SpectrumApi.invoke fuel n).
Proof.
  unfold SpectrumApi.invoke, Dispatcher. apply leads_bind; [exact _|auto with leads|]. intros [[rc name] params].
  apply leads_bind; [exact _| |intros [er resp]; apply leads_ret; exact _].
  apply leads_bind; [exact _|apply leads_identify; exact _|]. intros p.
  apply leads_bind; [exact _| |intros r; apply leads_prepare; exact _].
  destruct (api_function fuel name) as [f|] eqn:E; [|apply leads_ret; exact _].
  apply leads_bind; [exact _|auto with leads|]. intros input. exact (leads_request later later_writing fuel name f _ _ E).
Qed.

(** The context is an invariant of every chaincode: an invocation of echo, helloworld,
    auction, the spectrum auction or the oblivious auction (of auction_final.cpp or of
    july15.cpp) never changes the recorded arguments, keeps the read and write sets
    ordered, and only adds to them, so that what was read or first written stays in the
    signed sets. *)
Theorem chaincodes_keep_context fuel n ctx r ctx'
    (Hcall : Echo.invoke n ctx = Done r ctx' ∨ Helloworld.invoke n ctx = Done r ctx' ∨
             Auction.invoke n ctx = Done r ctx' ∨ SpectrumApi.invoke fuel n ctx = Done r ctx' ∨
             (∃ (C : Compiler) g g', ObliviousAuction.invoke n g ctx = Done (r, g') ctx') ∨
             ∃ (C : Compiler) (L : RsaLib W) j j', july_invoke n j ctx = Done (r, j') ctx') :
  later ctx ctx'.
Proof.
  destruct Hcall as [E|[E|[E|[E|[(C & g & g' & E)|(C & L & j & j' & E)]]]]].
  - exact (steady_echo n _ _ _ E).
  - exact (steady_helloworld n _ _ _ E).
  - exact (steady_auction n _ _ _ E).
  - exact (steady_spectrum fuel n _ _ _ E).
  - exact (steady_oblivious n g _ _ _ E).
  - exact (steady_july n j _ _ _ E).
Qed.

Lemma prepare_response_bounded max r er response ctx ctx' : 0 ≤ max →
  prepare_response max r ctx = Done (er, response) ctx' → size response ≤ max.
Proof.
  intros Hmax. unfold prepare_response, mbind, SM_bind.
  destruct r as [l|e|]; cbn [mret SM_ret]; [..|done];
    destruct (if size _ >? max then _ else _) as [er1 l1]; destruct (Z.gtb_spec (size l1) max); by intros [= <- <- <-].
Qed.

(** The answer to an invocation fits the buffer of the peer, whatever was asked, and
    the status says whether there is one: 0 only with an answer, and otherwise -1. *)
Theorem response_bounded fuel max ctx ret response ctx' (Hmax : 0 ≤ max)
    (Hrun : SpectrumApi.invoke fuel max ctx = Done (ret, response) ctx') :
  size response ≤ max ∧ (ret = 0 ∧ response ≠ [] ∨ ret = -1).
Proof.
  revert Hrun. unfold SpectrumApi.invoke, mbind, SM_bind.
  destruct (get_func_and_params ctx) as [[[rc name] params] ctx1| |]; [|done..].
  destruct (Dispatcher fuel name params max ctx1) as [[er resp] ctx2| |] eqn:E; [|done..].
  assert (Hsize : size resp ≤ max).
  { revert E. unfold Dispatcher, mbind, SM_bind. destruct (identifySubmitter ctx1) as [p ctx3| |]; [|done..].
    destruct (api_function fuel name) as [f|]; cbn [mret SM_ret]; [|by apply prepare_response_bounded].
    destruct (vector_at params 0 ctx3) as [input ctx4| |]; [|done..].
    destruct (f _ input ctx4) as [r ctx5| |]; [|done..]. by apply prepare_response_bounded. }
  intros [= <- <- <-]. split; [done|]. destruct resp as [|c resp]; [by right|]. simpl.
  destruct (negb _); [by right|by left].
Qed.
End invocations.

(** ** Instances *)
#[local] Existing Instances store_platform store_crypto sample_stack sample_implementation.

Definition id_request (i : Z) : bytes := json_text (JObject (int_entry (bs "auctionId") i)).
(** An invocation that asks the empty peer for the status of auction 1 *)
Definition status_ctx : t_shim_ctx (omap bytes) :=
  mkCtx (omap bytes) [] [] [] [] (json_text (JArray [JString (bs "getAuctionStatus"); JString (id_request 1)])) [].
Definition status_done : Z * bytes * t_shim_ctx (omap bytes) := Eval vm_compute in
  match SpectrumApi.invoke 0 100 status_ctx with Done (ret, r) ctx => (ret, r, ctx) | _ => (0, [], status_ctx) end.

Lemma chaincodes_keep_context_witness : later status_ctx status_done.2.
Proof.
  apply (chaincodes_keep_context 0 100 status_ctx status_done.1 status_done.2). right; right; right; left. vm_compute. reflexivity.
Defined.
Lemma response_bounded_witness : size status_done.1.2 ≤ 100 ∧ (status_done.1.1 = 0 ∧ status_done.1.2 ≠ [] ∨ status_done.1.1 = -1).
Proof.
  apply (response_bounded 0 100 status_ctx status_done.1.1 status_done.1.2 status_done.2); [lia|vm_compute; reflexivity].
Defined.
Lemma failed_request_writes_nothing_witness : ∃ er ctx',
  startNextRound (fresh (person "Auctioneer")) (id_request 1) sample_ctx = Done (Failed er) ctx' ∧ write_set ctx' = [].
Proof.
  assert (E : ∃ er ctx', startNextRound (fresh (person "Auctioneer")) (id_request 1) sample_ctx = Done (Failed er) ctx').
  { eexists _, _. vm_compute. reflexivity. }
  destruct E as (er & ctx' & E). exists er, ctx'. split; [exact E|].
  apply (failed_request_writes_nothing 0 (bs "startNextRound") startNextRound (fresh (person "Auctioneer")) (id_request 1)
    sample_ctx (Failed er) ctx'); [reflexivity|exact E|left; by exists er].
Defined.
