(* ===== verification/SpectrumRefine.v ===== *)
(** * The spectrum auction: requests are steps of the auction

    The abstract auction is a state with the steps of [auction_step].  With an honest peer
    the requests implement it: what the peer holds for an auction is a state, a request
    that is answered is one step by a submitter who may take it, and a request that fails
    is none.  Other auctions are not touched. *)
From stdpp Require Import base list numbers option sets strings pretty relations.
From Stdlib Require Import ZArith Lia.
From S2P Require Import Prelude ParsonText CNum JsonSpec JsonRoundTrip CNumProof CDouble StdMap SgxCCLib EnclaveCrypto Ledger.
From S2P Require Import LedgerTheorems Shim EnclaveProof Samples Peer Chaincodes ChaincodeJson.
From S2P Require Import Spectrum SpectrumEval SpectrumJson SpectrumStorage SpectrumApi SpectrumProof SpectrumRounds.
From S2P Require Import SpectrumTheorems SpectrumClaims SpectrumJsonProof SpectrumStorageProof SpectrumContext.
Local Open Scope Z_scope.

(** ** Running requests *)

Section running.
Context {W : Type} `{SgxCrypto W} `{Implementation}.
Implicit Types ctx : t_shim_ctx W.

Lemma CM_bind_good {A B} (c : CM W A) (k : A → CM W B) a ctx ctx1 :
  c ctx = Done (Good a) ctx1 → mbind (M := CM W) k c ctx = k a ctx1.
Proof. intros E. unfold mbind, CM_bind, mbind, SM_bind. by rewrite E. Qed.
Lemma CM_bind_failed {A B} (c : CM W A) (k : A → CM W B) er ctx ctx1 :
  c ctx = Done (Failed er) ctx1 → mbind (M := CM W) k c ctx = Done (Failed er) ctx1.
Proof. intros E. unfold mbind, CM_bind, mbind, SM_bind. by rewrite E. Qed.
Lemma checking_bind {A B} (c : checked A) (k : A → CM W B) ctx : mbind (M := CM W) k (checking c) ctx =
  match c with Good a => k a ctx | Failed er => Done (Failed er) ctx | Undefined => Crash end.
Proof. by destruct c. Qed.
Lemma check_bind {B} f line code b (k : unit → CM W B) ctx :
  mbind (M := CM W) k (checking (FAST_FAIL_CHECK f line code b)) ctx =
  if b then Done (Failed (DEFAULT_ERROR_REPORT f line code)) ctx else k () ctx.
Proof. by destruct b. Qed.
Lemma running_done {A} (c : SM W A) a ctx ctx1 : c ctx = Done a ctx1 → running c ctx = Done (Good a) ctx1.
Proof. intros E. unfold running, mbind, SM_bind. by rewrite E. Qed.
Lemma sound_some {A} (o : option A) a ctx : o = Some a → sound o ctx = Done (Good a) ctx.
Proof. by intros ->. Qed.
End running.

(** ** What requests name *)

Lemma uint32_range d z : uint32_of_double d = Some z → uint32 z.
Proof.
  unfold uint32_of_double, uint32. destruct d as [b|b| |b m e]; [by intros [= <-]|done..|].
  set (v := if 0 <=? e then _ else _).
  assert (Hv : 0 ≤ v).
  { unfold v. destruct (Z.leb_spec 0 e); [apply Z.mul_nonneg_nonneg; [lia|apply Z.pow_nonneg; lia]|].
    apply Z.div_pos; [lia|apply Z.pow_pos_nonneg; lia]. }
  destruct b; [destruct (v =? 0); by intros [= <-]|]. destruct (Z.ltb_spec v (2 ^ 32)); [|done]. by intros [= <-].
Qed.
Lemma fromAuctionIdJson_range input i b : fromAuctionIdJson input = Some (i, b) → uint32 i.
Proof. unfold fromAuctionIdJson. destruct (uint32_member _ _) as [z|] eqn:E; [|done]. intros [= <- <-]. by eapply uint32_range. Qed.

Section parsed.
Context `{Implementation}.
Lemma integer_member_range f l1 l2 root k z : integer_member f l1 l2 root k = Good z → uint32 z.
Proof.
  unfold integer_member. intros E. apply checked_bind_good in E as (u & _ & E). apply checked_bind_good in E as (b & _ & E).
  apply checked_bind_good in E as (u' & _ & E). apply defined_good in E. by eapply uint32_range.
Qed.
Lemma mapM_checked {A B} (f : A → checked B) l k : mapM f l = Good k → Forall2 (λ a b, f a = Good b) l k.
Proof.
  revert k. induction l as [|a l IH]; intros k E; [injection E as <-; constructor|]. cbn [mapM] in E.
  apply checked_bind_good in E as (b & Eb & E). apply checked_bind_good in E as (k' & Ek & E). injection E as <-.
  constructor; [done|by apply IH].
Qed.
(** The numbers in a bid that was read have their type. *)
Lemma bid_read_typed root bid : Bid_fromJsonObject root = Good bid → uint32 (auctionId_ bid) ∧ typed_bid bid.
Proof.
  unfold Bid_fromJsonObject. intros E.
  apply checked_bind_good in E as (a & Ea & E). apply checked_bind_good in E as (r & _ & E).
  apply checked_bind_good in E as (l & _ & E). apply checked_bind_good in E as (u & _ & E).
  apply checked_bind_good in E as (k & Ek%mapM_checked & E). injection E as <-. split; [by eapply integer_member_range|].
  unfold typed_bid. cbn [demands_]. clear u. induction Ek as [|o dem l k Eo _ IH]; constructor; [|done].
  unfold fromJsonObject, Demand_from_json, Demand_fromJsonObject in Eo.
  apply checked_bind_good in Eo as (tr & _ & Eo). apply checked_bind_good in Eo as (q & Eq & Eo).
  apply checked_bind_good in Eo as (pr & _ & Eo). injection Eo as <-. by eapply integer_member_range.
Qed.

(** The check of a bid in a round has a result. *)
Lemma checked_bind_defined {A B} (c : checked A) (k : A → checked B) :
  c ≠ Undefined → (∀ a, c = Good a → k a ≠ Undefined) → c ≫= k ≠ Undefined.
Proof. destruct c; simpl; auto. Qed.
Lemma fast_fail_defined f l c b : FAST_FAIL_CHECK f l c b ≠ Undefined.
Proof. by destruct b. Qed.
Local Ltac next_check := apply checked_bind_defined; [apply fast_fail_defined|intros ? ?Hc%fast_fail_good].
Lemma isValidDemand_defined s d r bid seen dem : auction_ok s → in_round s d r → isValidBidder s d = true →
  isValidDemand s d bid seen dem ≠ Undefined.
Proof.
  intros Hs Hr Hb. pose proof (ir_state _ _ _ Hr) as Hd. destruct (rs_bounds _ _ _ Hd) as [Hr1 Hr2].
  unfold isValidDemand. next_check. next_check. apply orb_false_iff in Hc as [Ht _]. apply bool_decide_eq_false in Ht.
  destruct (getTerritory s (territoryId_ dem)) as [t|] eqn:Et; [|done]. cbn [defined mbind checked_bind]. next_check.
  assert (Hid : territoryId_ dem ∈ getTerritoryIds s).
  { unfold getTerritory in Et. destruct (list_find _ _) as [[k t']|] eqn:Ef; [|done].
    apply list_find_Some in Ef as (Hk & Hid%Z.eqb_eq & _). rewrite <- Hid. apply list_elem_of_fmap_2.
    by eapply list_elem_of_lookup_2. }
  destruct (territory_index s _ Hid) as (k & -> & Hk & _). destruct (clockRound_ d =? 1).
  - destruct (valid_bidder s Hs d Hb) as (b & _ & _ & ->). cbn [defined mbind checked_bind]. apply fast_fail_defined.
  - rewrite (rs_round _ _ _ Hd). replace (Z.of_nat r - 1) with (Z.of_nat (r - 1)) by lia. rewrite wrap32_exact by lia.
    pose proof (rs_posted _ _ _ Hd). pose proof (rs_posted_row _ _ _ Hd). pose proof (rs_clock _ _ _ Hd).
    pose proof (rs_clock_row _ _ _ Hd). rewrite !at_some by lia. cbn [mbind option_bind]. rewrite !at_some by lia.
    cbn [defined mbind checked_bind]. next_check. apply fast_fail_defined.
Qed.
Lemma isValidBid_defined s d r bid : auction_ok s → in_round s d r → isValidBidder s d = true →
  isValidBid s d bid ≠ Undefined.
Proof.
  intros Hs Hr Hb. unfold isValidBid. do 3 next_check. generalize (@nil Z) as seen.
  induction (demands_ bid) as [|dem l IH]; intros seen; [done|]. cbn [validDemands].
  apply checked_bind_defined; [by eapply isValidDemand_defined|]. intros _ _. apply IH.
Qed.
End parsed.

(** ** The refinement *)

Section refinement.
Context {W : Type} `{HonestPeer W} `{Implementation} `{Stack}.
Implicit Types (ctx : t_shim_ctx W) (w : W) (name input : bytes).

(** A text that asks for a step of auction [i] *)
Inductive step_request (i : Z) : bytes → bytes → Prop :=
  | StartRequest input : fromStartNextRoundJson input = Some (i, true) → step_request i (bs "startNextRound") input
  | EndRequest input : fromEndRoundJson input = Some (i, true) → step_request i (bs "endRound") input
  | BidRequest input bid : fromSubmitClockBidJson input = Good bid → auctionId_ bid = i →
      step_request i (bs "submitClockBid") input.
(** Who may ask *)
Definition may_ask (s : StaticAuctionState) (p : Principal) name : Prop :=
  if decide (name = bs "submitClockBid") then isValidBidder s (fresh p) = true else isValidOwner s (fresh p) = true.

(** What the peer holds of auction [i] is the state that a step leads to, and everything
    else is as it was.  After the opening of a round or a bid it can be loaded again if the
    bids can. *)
Record stepped (i : Z) (s : StaticAuctionState) (p : Principal) (d : DynamicAuctionState) name ctx ctx' : Prop := {
  stepped_state : ∃ d', auction_step (W := W) s (as_submitter p d) d' ∧ auction_inv s d' ∧
    (texts_fit s d' → holds_auction (world ctx') i s d') ∧
    (name ≠ bs "endRound" → Forall (Forall storable) (clockBids_ d') → texts_fit s d' → auction_storable s d');
  stepped_allowed : may_ask s p name;
  stepped_others k : k ∉ auction_keys i → holds (world ctx') k = holds (world ctx) k }.
Definition answered (i : Z) (s : StaticAuctionState) (p : Principal) (d : DynamicAuctionState) name ctx
    (o : outcome W (checked bytes)) : Prop :=
  match o with
  | Done (Good _) ctx' => stepped i s p d name ctx ctx'
  | Done (Failed _) ctx' => same_holds (world ctx) (world ctx')
  | _ => False
  end.

Lemma draws_same ctx ctx' : draws ctx ctx' → same_holds (world ctx) (world ctx').
Proof.
  induction 1 as [ctx|ctx ctx1 ctx2 -> _ IH]; [done|]. etrans; [|exact IH]. intros k. apply peer_rand.
Qed.

Section auction.
Context (i : Z) (s : StaticAuctionState) (p : Principal) (d : DynamicAuctionState).
Context (Hi : 0 ≤ i) (Hw : rand_works (W := W)) (Hs : auction_ok s) (Hinv : auction_inv s d) (Hst : auction_storable s d).

(** The openings of rounds and the bids change two members only. *)
Definition between_rounds (d' : DynamicAuctionState) : Prop :=
  ∃ bids active, d' = set_active active (set_bids bids (as_submitter p d)).
Lemma startRound_between d' : startRound s (as_submitter p d) = Some d' → between_rounds d'.
Proof. intros (bids & _ & [= <-])%bind_Some. by exists bids, true. Qed.
Lemma storeBid_between bid d' : storeBid s bid (as_submitter p d) = Some d' → between_rounds d'.
Proof.
  unfold storeBid. intros (row & _ & (row' & _ & (bids & _ & [= <-])%bind_Some)%bind_Some)%bind_Some.
  by exists bids, (roundActive_ d).
Qed.
Lemma between_storable d' : between_rounds d' → Forall (Forall storable) (clockBids_ d') → texts_fit s d' → auction_storable s d'.
Proof.
  intros (bids & active & ->) Hb Hfit. destruct Hst as [Hst' [] _]. split; [done| |done]. by split.
Qed.

(** The end of every step: the new state is stored. *)
Lemma store_answered name ctx ctx1 d' (response : bytes) (c : CM W bytes) :
  same_holds (world ctx) (world ctx1) → auction_step (W := W) s (as_submitter p d) d' → may_ask s p name →
  (name ≠ bs "endRound" → between_rounds d') → c = (running (storeAuctionState i s d');; mret response) → answered i s p d name ctx (c ctx1).
Proof.
  intros Hsame Hstep Hmay Hbetween ->. destruct (storeAuctionState_ok i s d' ctx1 Hi (storable_static _ _ Hst)) as (ctx2 & E & Hh & Ho).
  rewrite (CM_bind_good _ _ () _ ctx2) by (by apply running_done). constructor; [|done|].
  - exists d'. split; [done|]. split; [|split; [done|]].
    + eapply auction_step_inv; [done..| |exact Hstep]. eapply auction_step_inv; [done..|]. constructor.
    + intros Hname. by apply between_storable, Hbetween.
  - intros k Hk. by rewrite Ho, Hsame.
Qed.

Context (ctx : t_shim_ctx W) (Hheld : holds_auction (world ctx) i s d).
Notation d0 := (as_submitter p d).

Lemma inv_in_round : isStateClockPhase d0 || isStateAssignmentPhase d0 = true → ∃ r, in_round s d0 r.
Proof.
  intros Hp. assert (Hinv0 : auction_inv s d0) by (eapply auction_step_inv; [done..|]; constructor).
  revert Hp. unfold isStateClockPhase, isStateAssignmentPhase. by destruct Hinv0 as [?|[-> | ->]].
Qed.
Lemma phase_check : negb (isStateClockPhase d0) && negb (isStateAssignmentPhase d0) = false →
  isStateClockPhase d0 || isStateAssignmentPhase d0 = true.
Proof. by destruct (isStateClockPhase d0), (isStateAssignmentPhase d0). Qed.

Lemma startNextRound_answered input : fromStartNextRoundJson input = Some (i, true) →
  answered i s p d (bs "startNextRound") ctx (startNextRound (fresh p) input ctx).
Proof.
  intros E. unfold startNextRound. rewrite (CM_bind_good _ _ (i, true) _ ctx) by (by apply sound_some).
  rewrite check_bind. cbn [negb]. destruct (loadAuctionState_ok i p s d ctx Hi Hst Hheld) as (ctx1 & El & Hsame).
  rewrite (CM_bind_good _ _ _ _ _ El), check_bind. destruct (roundActive_ d0) eqn:Ea; [done|].
  rewrite check_bind. destruct (negb _ && negb _) eqn:Ep; [done|]. apply phase_check in Ep.
  rewrite check_bind. destruct (negb (isValidOwner s d0)) eqn:Eo; [done|]. apply negb_false_iff in Eo.
  destruct (inv_in_round Ep) as [r Hr]. destruct (startRound_spec s d0 r (auction_static _ Hs) Hr Ea) as (d' & Ed & _).
  rewrite (CM_bind_good _ _ d' _ ctx1) by (by apply sound_some).
  eapply (store_answered _ _ _ d'); [done|by eapply Started|done|by intros _; apply startRound_between|done].
Qed.

Lemma submitClockBid_answered input bid : fromSubmitClockBidJson input = Good bid → auctionId_ bid = i →
  answered i s p d (bs "submitClockBid") ctx (submitClockBid (fresh p) input ctx).
Proof.
  intros E Hid. unfold submitClockBid. rewrite checking_bind, E. cbv zeta. rewrite Hid.
  destruct (loadAuctionState_ok i p s d ctx Hi Hst Hheld) as (ctx1 & El & Hsame).
  rewrite (CM_bind_good _ _ _ _ _ El), check_bind. destruct (isStateClockPhase d0) eqn:Ep; [cbn [negb]|done].
  rewrite check_bind. destruct (negb (isValidBidder s d0)) eqn:Eb; [done|]. apply negb_false_iff in Eb.
  destruct (inv_in_round ltac:(by rewrite Ep)) as [r Hr].
  rewrite checking_bind. destruct (isValidBid s d0 bid) as [[]|er|] eqn:Ev; [|done|].
  - destruct (bid_read_typed _ _ E) as [_ Ht].
    destruct (storeBid_spec s d0 r bid Hs Hr Ht Ev) as (d' & Ed & _).
    rewrite (CM_bind_good _ _ d' _ ctx1) by (by apply sound_some).
    eapply (store_answered _ _ _ d'); [done|by eapply Submitted|done|by intros _; eapply storeBid_between|done].
  - by apply (isValidBid_defined s d0 r bid Hs Hr Eb) in Ev.
Qed.

Lemma endRound_answered input : clockRound_ d + 2 < 2 ^ 32 → fromEndRoundJson input = Some (i, true) →
  ∃ N, ∀ fuel, (N ≤ fuel)%nat → answered i s p d (bs "endRound") ctx (endRoundRequest fuel (fresh p) input ctx).
Proof.
  intros Hmax E. destruct (loadAuctionState_ok i p s d ctx Hi Hst Hheld) as (ctx1 & El & Hsame).
  destruct (decide (roundActive_ d0 = true ∧ isStateClockPhase d0 || isStateAssignmentPhase d0 = true)) as [[Ha Hp]|Hno].
  - destruct (inv_in_round Hp) as [r Hr]. pose proof (rs_round _ _ _ (ir_state _ _ _ Hr)) as Er.
    destruct (closeRound_spec s d0 r i ctx1 Hw (auction_static _ Hs) Hr Ha) as (N & HN); [simpl in Er; lia|].
    exists N. intros fuel Hf. destruct (HN fuel Hf) as (d' & ctx2 & Ec & Hdr & _). unfold endRoundRequest.
    rewrite (CM_bind_good _ _ (i, true) _ ctx) by (by apply sound_some).
    rewrite check_bind. cbn [negb]. rewrite (CM_bind_good _ _ _ _ _ El), check_bind, Ha. cbn [negb].
    rewrite check_bind. destruct (negb _ && negb _) eqn:Ep; [done|].
    rewrite check_bind. destruct (negb (isValidOwner s d0)) eqn:Eo; [done|]. apply negb_false_iff in Eo.
    rewrite (CM_bind_good _ _ _ _ _ Ec).
    eapply (store_answered _ _ _ d'); [|by eapply Ended|done|done|done].
    etrans; [exact Hsame|by apply draws_same].
  - exists 0%nat. intros fuel _. unfold endRoundRequest.
    rewrite (CM_bind_good _ _ (i, true) _ ctx) by (by apply sound_some).
    rewrite check_bind. cbn [negb]. rewrite (CM_bind_good _ _ _ _ _ El), check_bind.
    destruct (roundActive_ d0); [cbn [negb]|done]. rewrite check_bind. destruct (negb _ && negb _) eqn:Ep; [done|].
    apply phase_check in Ep. by destruct Hno.
Qed.
End auction.

(** C2. The requests implement the abstract auction.  Let an honest peer hold a state of an
    auction in order that can be loaded again: the prices of its bids are integers, its
    numbers fit their types and its texts a billion bytes ([auction_storable]).  Let the
    generator of random numbers work ([rand_works]) and the round counter not be at its
    end.  Then every request to open a round, to bid or to end a round returns, given
    enough steps for the queue of bids.  Either it fails and the peer holds what it held, or
    the submitter was entitled to it, the new state is one step of the auction from the old
    one and in order again, the peer holds it (if its text has not grown beyond a billion
    bytes), and nothing that belongs to another auction is changed.  After the opening of a
    round or a bid the new state can be loaded again if its bids can, so that the same is
    true of the next request; after the end of a round its numbers have to fit again too.
    A state with a bid at a price that is no integer cannot be loaded
    ([fractional_price_locks]), and without random numbers the end of a later round is
    undefined ([random_failure_reads_outside]).  Of [list::sort] it is assumed that it leaves
    the same bids, in whatever order. *)
Theorem requests_refine_auction i s p d name input ctx (Hw : rand_works (W := W)) (Hs : auction_ok s)
    (Hinv : auction_inv s d) (Hst : auction_storable s d) (Hheld : holds_auction (world ctx) i s d)
    (Hmax : clockRound_ d + 2 < 2 ^ 32) (Hreq : step_request i name input) :
  ∃ N, ∀ fuel, (N ≤ fuel)%nat → ∃ f, api_function fuel name = Some f ∧
    answered i s p d name ctx (f (fresh p) input ctx).
Proof.
  destruct Hreq as [input E|input E|input bid E Hid].
  - exists 0%nat. intros fuel _. exists startNextRound. split; [done|]. destruct (fromAuctionIdJson_range _ _ _ E).
    by apply startNextRound_answered.
  - destruct (fromAuctionIdJson_range _ _ _ E) as [Hi _].
    destruct (endRound_answered i s p d Hi Hw Hs Hinv Hst ctx Hheld input Hmax E) as (N & HN).
    exists N. intros fuel Hf. exists (endRoundRequest fuel). split; [done|by apply HN].
  - exists 0%nat. intros fuel _. exists submitClockBid. split; [done|]. destruct (bid_read_typed _ _ E) as [[Hi _] _].
    rewrite Hid in Hi. by eapply submitClockBid_answered.
Qed.

(** C8. What is stored is loaded, for states that can be ([auction_storable]: the prices of
    the bids are integers, the numbers fit their types, the texts are UTF-8 and shorter than
    a billion bytes): printed as two JSON texts that are each kept with their length under
    encrypted keys, the state of an auction comes back whole from an honest peer, with the
    submitter of the later request in place of the earlier one.  A state with a bid at
    another price is stored and cannot be loaded ([fractional_price_locks]). *)
Theorem stored_auction_loaded i s d p ctx (Hi : 0 ≤ i) (Hst : auction_storable s d) :
  ∃ ctx1, storeAuctionState i s d ctx = Done () ctx1 ∧
    ∀ ctx2, same_holds (world ctx1) (world ctx2) →
      ∃ ctx3, loadAuctionState i (fresh p) ctx2 = Done (Good (s, as_submitter p d)) ctx3.
Proof.
  destruct (storeAuctionState_ok i s d ctx Hi (storable_static _ _ Hst)) as (ctx1 & E1 & Hh & _).
  specialize (Hh (storable_size _ _ Hst)). exists ctx1. split; [done|]. intros ctx2 Hs.
  destruct (loadAuctionState_ok i p s d ctx2 Hi Hst) as (ctx3 & E3 & _); [|by exists ctx3].
  destruct Hh. split; by eapply holds_string_same.
Qed.

(** ** Creating auctions *)

(** The number of the next auction *)
Definition next_id w (n : Z) : Prop := 1 ≤ n < 2 ^ 32 - 1 ∧
  (private w AUCTION_ID_COUNTER_STRING (int_bytes n) ∨ holds w AUCTION_ID_COUNTER_STRING = None ∧ n = 1).

Lemma of_little_endian_int n : uint32 n → of_little_endian (int_bytes n) = n.
Proof.
  intros [Hn0 Hn]. unfold of_little_endian, int_bytes. cbn [foldr]. rewrite !uchar_to_byte.
  change (2 ^ 8) with 256. change (2 ^ 16) with (256 * 256). change (2 ^ 24) with (256 * 256 * 256).
  rewrite <- !Z.div_div by lia. pose proof (Z.div_mod n 256). pose proof (Z.div_mod (n / 256) 256).
  pose proof (Z.div_mod (n / 256 / 256) 256). rewrite (Z.mod_small (n / 256 / 256 / 256)); [lia|].
  split; [repeat (apply Z.div_pos; [|lia]); lia|]. repeat (apply Z.div_lt_upper_bound; [lia|]). lia.
Qed.
Lemma InitializeAuctionIdCounter_ok n ctx : next_id (world ctx) n →
  ∃ ctx', InitializeAuctionIdCounter ctx = Done n ctx' ∧ same_holds (world ctx) (world ctx').
Proof.
  intros [Hn Hc]. unfold InitializeAuctionIdCounter, ledgerPrivateGetBinary, mbind, SM_bind.
  rewrite cstr_nonul by (by apply nonul_lit). destruct Hc as [Hp|[Ha ->]].
  - destruct (get_private _ _ 4 ctx Hp) as (ctx1 & -> & Hs & _); [done..|]. exists ctx1. split; [|done].
    cbn [mret SM_ret size length int_bytes]. by rewrite take_app_le, take_ge, of_little_endian_int by (try done; split; lia).
  - destruct (get_absent _ 4 ctx Ha) as (ctx1 & -> & Hs & _). by exists ctx1.
Qed.

(** C13. With an honest peer, a new auction in order that passes the checks gets the next
    number and is held in its initial state, opened by its creator; the auctions that exist
    are not touched, and the number is not given again. *)
Theorem createAuction_refines s p n input ctx (Hread : fromCreateAuctionJson StaticAuctionState_new input = Good s)
    (Hvalid : checkValidity s = Good ()) (Hs : auction_ok s) (Hst : static_storable (setOwner s p))
    (Hn : next_id (world ctx) n) (Hlast : n + 1 < 2 ^ 32 - 1) :
  ∃ d ctx', createAuction (fresh p) input ctx = Done (Good (toCreateAuctionJson 0 (bs "Auction created") n)) ctx' ∧
    initialize CLOCK_PHASE 1 false s (fresh p) = Some (setOwner s p, d) ∧ auction_inv (setOwner s p) d ∧
    (texts_fit (setOwner s p) d → holds_auction (world ctx') n (setOwner s p) d) ∧
    next_id (world ctx') (n + 1) ∧
    ∀ j k, 0 ≤ j → j ≠ n → k ∈ auction_keys j → holds (world ctx') k = holds (world ctx) k.
Proof.
  destruct (initialize_in_round s p Hs) as (d & Ei & Hd). destruct (InitializeAuctionIdCounter_ok n ctx Hn) as (ctx1 & E1 & S1).
  destruct (put_private AUCTION_ID_COUNTER_STRING (int_bytes (n + 1)) ctx1) as (ctx2 & E2 & Hp & Ho & _). destruct Hn as [Hn _].
  destruct (storeAuctionState_ok n (setOwner s p) d ctx2) as (ctx3 & E3 & Hh & Hk); [lia|done|].
  exists d, ctx3. split_and!.
  - unfold createAuction. rewrite checking_bind, Hread, checking_bind, Hvalid.
    rewrite (CM_bind_good _ _ n _ ctx1) by (by apply running_done). rewrite (CM_bind_good _ _ () _ ctx2).
    + rewrite (CM_bind_good _ _ (setOwner s p, d) _ ctx2) by (by apply sound_some).
      by rewrite (CM_bind_good _ _ () _ ctx3) by (by apply running_done).
    + apply running_done. unfold IncrementAndStoreAuctionIdCounter, ledgerPrivatePutBinary.
      rewrite cstr_nonul by (by apply nonul_lit). by rewrite wrap32_exact by lia.
  - done.
  - left. by exists 1%nat.
  - done.
  - split; [lia|]. left. destruct Hp as (v & Ev & Hv). exists v. split; [|done]. rewrite Hk; [done|apply counter_key_other].
  - intros j k Hj Hne Hin. rewrite Hk; [|intros Hin'; apply Hne; by eapply auction_keys_disjoint; [..|lia| |]].
    rewrite Ho; [apply S1|]. intros ->. by apply counter_key_other in Hin.
Qed.
End refinement.

(** ** Instances *)
#[local] Existing Instances store_platform store_crypto store_peer sample_stack sample_implementation.

(** Proves that a concrete state can be stored *)
Ltac storable_now := repeat match goal with
  | |- Forall _ [] => apply Forall_nil_2
  | |- Forall _ (_ :: _) => apply Forall_cons_2
  | |- Forall _ ?l => let k := eval vm_compute in l in change l with k
  | |- good_name _ => split; [compute_decide|vm_compute; reflexivity]
  | |- storable ?x => let y := eval vm_compute in x in change x with y; cbn [storable]; constructor
  | |- ∃ p, int31 p ∧ ?x = _ => let z := eval vm_compute in (default 0 (int_of_double x)) in exists z; split
  | |- _ = [] → _ => intros E; first [discriminate E|reflexivity]
  | |- normal_number _ ∧ _ => split
  | |- _ => first [compute_decide|vm_compute; reflexivity]
  end.
Lemma sample_static_storable : static_storable sample_auction.
Proof. constructor; storable_now. Qed.
Lemma second_storable : auction_storable sample_auction second_state.
Proof. constructor; [apply sample_static_storable|constructor; storable_now|split; compute_decide]. Qed.


Lemma stored_auction_loaded_witness : ∃ ctx1 ctx2, storeAuctionState 1 sample_auction second_state sample_ctx = Done () ctx1 ∧
  loadAuctionState 1 (fresh (person "User-1")) ctx1 = Done (Good (sample_auction, as_submitter (person "User-1") second_state)) ctx2.
Proof.
  destruct (stored_auction_loaded (W := omap bytes) 1 sample_auction second_state (person "User-1") sample_ctx) as (ctx1 & E1 & Hl);
    [lia|exact second_storable|].
  destruct (Hl ctx1) as (ctx2 & E2); [done|]. exists ctx1, ctx2. split; [exact E1|exact E2].
Defined.
Lemma requests_refine_auction_witness : ∃ ctx N, ∀ fuel, (N ≤ fuel)%nat → ∃ f, api_function fuel (bs "endRound") = Some f ∧
  answered (W := omap bytes) 1 sample_auction (person "Auctioneer") second_state (bs "endRound") ctx
    (f (fresh (person "Auctioneer")) (id_request 1) ctx).
Proof.
  destruct (storeAuctionState_ok (W := omap bytes) 1 sample_auction second_state sample_ctx) as (ctx & _ & Hh & _);
    [lia|exact sample_static_storable|].
  exists ctx. apply (requests_refine_auction (W := omap bytes) 1 sample_auction (person "Auctioneer") second_state
    (bs "endRound") (id_request 1) ctx sample_rand sample_ok).
  - left. exists 2%nat. constructor; [apply second_round|right; apply second_round|intros _; apply second_round|discriminate].
  - exact second_storable.
  - exact (Hh (storable_size _ _ second_storable)).
  - reflexivity.
  - constructor. vm_compute. reflexivity.
Defined.
Lemma createAuction_refines_witness : ∃ d ctx',
  createAuction (W := omap bytes) (fresh (person "Auctioneer")) (json_text (StaticAuctionState_toJsonObject sample_auction)) sample_ctx =
    Done (Good (toCreateAuctionJson 0 (bs "Auction created") 1)) ctx' ∧ auction_inv sample_auction d ∧
  (texts_fit sample_auction d → holds_auction (world ctx') 1 sample_auction d).
Proof.
  destruct (createAuction_refines (W := omap bytes) (setOwner sample_auction (mkPrincipal [] [])) (person "Auctioneer") 1
    (json_text (StaticAuctionState_toJsonObject sample_auction)) sample_ctx) as (d & ctx' & E & _ & Hd & Hh & _).
  - vm_compute. reflexivity.
  - vm_compute. reflexivity.
  - apply setOwner_ok, sample_ok.
  - exact sample_static_storable.
  - split; [lia|]. right. split; reflexivity.
  - lia.
  - exists d, ctx'. split; [exact E|]. split; [exact Hd|exact Hh].
Defined.
