(* ===== verification/SpectrumLock.v ===== *)
(** * The spectrum auction: a price that is not an integer locks an auction

    Prices are doubles, and the state is stored with any of them, but [Demand::fromJsonObject]
    reads the price of a demand as an integer.  Once a bid with another price is stored,
    the auction cannot be loaded any more and every request to it fails.  Bidders cannot
    cause that, since their bids are read by the same function; the code does it by itself
    when it fills in the bids that are missing at the posted prices. *)
From stdpp Require Import base list numbers option sets strings pretty.
From Stdlib Require Import ZArith Lia.
From S2P Require Import Prelude ParsonText CNum JsonSpec JsonRoundTrip CNumProof CDouble StdMap SgxCCLib EnclaveCrypto Ledger.
From S2P Require Import LedgerTheorems Shim EnclaveProof Samples Peer Chaincodes ChaincodeJson.
From S2P Require Import Spectrum SpectrumEval SpectrumJson SpectrumStorage SpectrumApi SpectrumProof SpectrumRounds.
From S2P Require Import SpectrumTheorems SpectrumClaims SpectrumJsonProof SpectrumStorageProof SpectrumContext SpectrumRefine.
Local Open Scope Z_scope.

(** The requests that name auction [i] and need its state *)
Inductive names_auction `{Implementation} (i : Z) : bytes → bytes → Prop :=
  | ByNumber name input : name ∈ bs <$> ["getAuctionDetails"; "getAuctionStatus"; "startNextRound"; "endRound";
      "getAssignmentResults"; "publishAssignmentResults"]%string →
      fromAuctionIdJson input = Some (i, true) → names_auction i name input
  | ByRound name r input : name ∈ bs <$> ["getRoundInfo"; "getBidderRoundResults"; "getOwnerRoundResults"]%string →
      fromRoundJson input = Some (i, r, true) → names_auction i name input
  | ByBid bid input : fromSubmitClockBidJson input = Good bid → auctionId_ bid = i →
      names_auction i (bs "submitClockBid") input.

(** ** Reading fails *)

Lemma mapM_fails {A B} (f : A → checked B) l e : Forall (λ a, (∃ b, f a = Good b) ∨ f a = Failed e) l →
  Exists (λ a, f a = Failed e) l → mapM f l = Failed e.
Proof.
  intros Hl Hex. induction Hl as [|a l Ha Hl IH]; [by apply Exists_nil in Hex|]. cbn [mapM].
  destruct Ha as [(b & Ea)|Ea]; rewrite Ea; [|done]. cbn [mbind checked_bind].
  apply Exists_cons in Hex as [Ea'|Hex]; [congruence|]. by rewrite IH.
Qed.

Lemma Forall_or_Exists {A} (P Q : A → Prop) l : Forall (λ a, P a ∨ Q a) l → Forall P l ∨ Exists Q l.
Proof.
  induction 1 as [|a l [Ha|Ha] _ [IH|IH]]; [by left; constructor|by left; constructor|right; by constructor..].
Qed.

Section lock.
Context {W : Type} `{HonestPeer W} `{Implementation} `{Stack}.
Implicit Types (ctx : t_shim_ctx W).

(** A demand at a price that is no integer *)
Record demand_fractional (dem : Demand) : Prop := {
  fractional_territory : int31 (territoryId_ dem);
  fractional_quantity : int31 (quantity_ dem);
  fractional_normal : normal_number (price_ dem);
  fractional_price : isInteger (price_ dem) = Good false }.
(** Bids whose demands are at any price, and those with one that is no integer *)
Record bid_priced (b : Bid) : Prop := {
  priced_auction : int31 (auctionId_ b);
  priced_round : int31 (round_ b);
  priced_demands : Forall (λ dem, demand_storable dem ∨ demand_fractional dem) (demands_ b);
  priced_empty : demands_ b = [] → auctionId_ b = 0 }.
Definition bid_fractional (b : Bid) : Prop := Exists demand_fractional (demands_ b).

Definition price_report : ErrorReport := DEFAULT_ERROR_REPORT "bid.cpp" 38 EC_INVALID_INPUT.

Lemma fractional_read dem : demand_fractional dem → fromJsonObject (Some (toJsonObject dem)) = Failed (A := Demand) price_report.
Proof.
  intros [Ht Hq Hn Hp]. unfold toJsonObject, Demand_to_json. rewrite demand_tree by done.
  unfold fromJsonObject, Demand_from_json, Demand_fromJsonObject.
  rewrite (integer_member_ok _ _ _ _ "terId" (territoryId_ dem)) by done. cbn [mbind checked_bind].
  rewrite (integer_member_ok _ _ _ _ "qty" (quantity_ dem)) by done. cbn [mbind checked_bind].
  unfold integer_member at 1. rewrite (has_number_ok _ _ (price_ dem)) by reflexivity. cbn [negb FAST_FAIL_CHECK mbind checked_bind mret checked_ret].
  change (as_number _) with (price_ dem). by rewrite Hp.
Qed.
Lemma fractional_bid_read b : bid_priced b → bid_fractional b →
  fromJsonObject (Some (toJsonObject b)) = Failed (A := Bid) price_report.
Proof.
  intros [Ha Hr Hd He] Hf. unfold toJsonObject at 1, Bid_to_json. rewrite bid_tree by done.
  unfold fromJsonObject, Bid_from_json, Bid_fromJsonObject.
  rewrite (integer_member_ok _ _ _ _ "auctionId" (auctionId_ b)) by done. cbn [mbind checked_bind].
  rewrite (integer_member_ok _ _ _ _ "round" (round_ b)) by done. cbn [mbind checked_bind].
  rewrite (array_member_ok _ _ _ "bids" (toJsonObject <$> demands_ b)) by done. cbn [mbind checked_bind mret checked_ret].
  rewrite check_pass.
  - cbn [mbind checked_bind]. unfold objects. rewrite (mapM_fails _ _ price_report); [done| |].
    + apply Forall_fmap. eapply Forall_impl; [exact Hd|]. intros dem [Hs|Hx]; simpl; [left; exists dem; by apply codec_roundtrip|].
      right. by apply fractional_read.
    + apply Exists_exists in Hf as (dem & Hin & Hx). apply Exists_exists. exists (toJsonObject dem).
      split; [by apply list_elem_of_fmap_2|by apply fractional_read].
  - unfold size. rewrite length_fmap. unfold bid_fractional in Hf. destruct (demands_ b); [by apply Exists_nil in Hf|done].
Qed.
Lemma priced_bid_read b : bid_priced b →
  (∃ b', fromJsonObject (Some (toJsonObject b)) = Good b') ∨
  fromJsonObject (Some (toJsonObject b)) = Failed (A := Bid) price_report.
Proof.
  intros Hb. destruct (Forall_or_Exists _ _ _ (priced_demands _ Hb)) as [Hs|Hx].
  - left. exists b. apply codec_roundtrip. by destruct Hb; constructor.
  - right. by apply fractional_bid_read.
Qed.

(** ** Loading fails *)

Definition locked (d : DynamicAuctionState) : Prop :=
  Forall (Forall bid_priced) (clockBids_ d) ∧ Exists (Exists bid_fractional) (clockBids_ d).
Lemma bid_priced_printable b : bid_priced b → bid_printable b.
Proof.
  intros [Ha Hr Hd _]. split_and!; [done..|]. eapply Forall_impl; [exact Hd|]. intros dem [Hs|Hx].
  - pose proof (demand_price_normal dem Hs). by destruct Hs.
  - by destruct Hx.
Qed.
Lemma locked_read d : locked d → bids_member (Some (JObject (dynamic_members d))) = Failed price_report.
Proof.
  intros [Hall Hex]. unfold bids_member.
  rewrite (array_member_ok _ _ _ "clockBids" ((λ row : list Bid, JArray (toJsonObject <$> row)) <$> clockBids_ d)) by done.
  cbn [mbind checked_bind]. apply mapM_fails.
  - apply Forall_fmap. eapply Forall_impl; [exact Hall|]. intros row Hrow. simpl. unfold objects.
    destruct (Forall_or_Exists (λ b, ∃ b', fromJsonObject (Some (toJsonObject b)) = Good b')
      (λ b, fromJsonObject (Some (toJsonObject b)) = Failed (A := Bid) price_report) row) as [Hg|Hx].
    + eapply Forall_impl; [exact Hrow|]. apply priced_bid_read.
    + left. clear -Hg. induction Hg as [|b row (b' & Eb) _ (l & IH)]; [by exists []|].
      exists (b' :: l). cbn [fmap list_fmap mapM]. by rewrite Eb, IH.
    + right. apply mapM_fails; [apply Forall_fmap; eapply Forall_impl; [exact Hrow|]; apply priced_bid_read|].
      by apply Exists_fmap.
  - apply Exists_fmap. apply Exists_exists in Hex as (row & Hin & Hex). apply Exists_exists. exists row. split; [done|].
    rewrite Forall_forall in Hall. specialize (Hall row Hin). simpl. apply mapM_fails.
    + apply Forall_fmap. eapply Forall_impl; [exact Hall|]. apply priced_bid_read.
    + apply Exists_fmap. apply Exists_exists in Hex as (b & Hb & Hf). apply Exists_exists. exists b. split; [done|].
      rewrite Forall_forall in Hall. apply fractional_bid_read; auto.
Qed.

Context (i : Z) (s : StaticAuctionState) (d : DynamicAuctionState).
Context (Hs : static_storable s) (Hd : dynamic_storable (set_bids [] d)) (Hlock : locked d) (Hfit : texts_fit s d).

Lemma locked_load p ctx : 0 ≤ i → holds_auction (world ctx) i s d →
  ∃ ctx', loadAuctionState i (fresh p) ctx = Done (Failed price_report) ctx' ∧ same_holds (world ctx) (world ctx').
Proof.
  intros Hi Hh. destruct (loadAuctionState_static i (fresh p) s d ctx) as (ctx' & Hsame & E); [done..|].
  exists ctx'. split; [|done]. rewrite E, dynamic_tree by apply (dynamic_round _ Hd). rewrite openJsonObject_text.
  - rewrite (dynamic_read d (fresh p) (Failed price_report)) by (try done; by apply locked_read). done.
  - apply dynamic_good; [done|]. eapply matrix_impl; [apply Hlock|]. apply bid_priced_printable.
Qed.

(** C35. An auction that holds one bid at a price that is not an integer is locked: with an
    honest peer every request that needs its state, by whomever, fails at the same check
    and changes nothing, so that the auction can be neither continued nor evaluated. *)
Theorem fractional_price_locks fuel name input f p ctx (Hheld : holds_auction (world ctx) i s d)
    (Hname : names_auction i name input) (Hf : api_function fuel name = Some f) :
  ∃ ctx', f (fresh p) input ctx = Done (Failed price_report) ctx' ∧ same_holds (world ctx) (world ctx').
Proof.
  assert (Hi : 0 ≤ i).
  { destruct Hname as [? ? _ E|? r ? _ E|bid ? E <-].
    - by destruct (fromAuctionIdJson_range _ _ _ E).
    - unfold fromRoundJson in E. destruct (uint32_member _ "auctionId") as [z|] eqn:Ez; [|done]. simpl in E.
      destruct (uint32_member _ "round") as [z'|]; [|done]. simpl in E. injection E as -> _ _. by apply uint32_range in Ez as [? _].
    - by destruct (bid_read_typed _ _ E) as [[? _] _]. }
  destruct (locked_load p ctx Hi Hheld) as (ctx' & El & Hsame). exists ctx'. split; [|done].
  destruct Hname as [name input Hin E|name r input Hin E|bid input E Hid].
  - cbn in Hin. repeat (apply elem_of_cons in Hin as [->|Hin]); [..|by apply not_elem_of_nil in Hin];
      injection Hf as <-;
      unfold getAuctionDetails, getAuctionStatus, startNextRound, endRoundRequest, getAssignmentResults, publishAssignmentResults;
      rewrite (CM_bind_good _ _ (i, true) _ ctx) by (by apply sound_some); rewrite check_bind; exact (CM_bind_failed _ _ _ _ _ El).
  - cbn in Hin. repeat (apply elem_of_cons in Hin as [->|Hin]); [..|by apply not_elem_of_nil in Hin];
      injection Hf as <-;
      unfold getRoundInfo, getBidderRoundResults, getOwnerRoundResults;
      rewrite (CM_bind_good _ _ (i, r, true) _ ctx) by (by apply sound_some); rewrite check_bind; exact (CM_bind_failed _ _ _ _ _ El).
  - injection Hf as <-. unfold submitClockBid. rewrite checking_bind, E. cbv zeta. rewrite Hid.
    exact (CM_bind_failed _ _ _ _ _ El).
Qed.
End lock.

(** ** An auction of integer prices *)
#[local] Existing Instances store_platform store_crypto store_peer sample_stack sample_implementation.

(** One channel at 101, with two bidders *)
Definition lock_auction : StaticAuctionState := mkStatic (person "Auctioneer") (bs "lock")
  [mkTerritory 1 (bs "myterritory") false (double_of_int 101) [channel 1 0]]
  [mkBidder 1 (bs "mickey") (person "User-1"); mkBidder 2 (bs "duffy") (person "User-2")]
  [mkEligibility 1 1; mkEligibility 2 1] 0 20.

(** A request after those that were answered *)
Definition after {A} (o : outcome (omap bytes) (checked A)) (request : CM (omap bytes) bytes)
    : outcome (omap bytes) (checked bytes) :=
  match o with Done (Good _) ctx => request ctx | _ => Crash end.
Definition bid_for (who : string) (round price : Z) : CM (omap bytes) bytes :=
  submitClockBid (fresh (person who)) (json_text (Bid_toJsonObject (mkBid 1 round [ask 1 1 price]))).
Definition start_round : CM (omap bytes) bytes := startNextRound (fresh (person "Auctioneer")) (id_request 1).
Definition end_round : CM (omap bytes) bytes := endRoundRequest 100 (fresh (person "Auctioneer")) (id_request 1).
(** Three rounds; the second bidder does not bid in the third. *)
Definition lock_requests : list (CM (omap bytes) bytes) :=
  [start_round; bid_for "User-1" 1 101; bid_for "User-2" 1 101; end_round;
   start_round; bid_for "User-1" 2 110; bid_for "User-2" 2 110; end_round;
   start_round; bid_for "User-1" 3 130; end_round].
Definition lock_run : outcome (omap bytes) (checked bytes) :=
  foldl after (createAuction (fresh (person "Auctioneer"))
    (json_text (StaticAuctionState_toJsonObject lock_auction)) sample_ctx) lock_requests.

(** Every request of the run is answered, and then the auction cannot be read: the posted
    price of the second round is 101 plus 20 per cent, and the third round stores it in
    the bid that the second bidder did not submit. *)
Theorem integer_auction_locks :
  (∃ ctx, lock_run = Done (Good (toEndRoundJson 0 (bs "End round"))) ctx) ∧
  ∃ ctx, after lock_run (getAssignmentResults (fresh (person "User-1")) (id_request 1)) = Done (Failed price_report) ctx.
Proof. split; eexists; vm_compute; reflexivity. Qed.

Definition lock_state : DynamicAuctionState := Eval vm_compute in
  default (fresh (person "Auctioneer")) (
    '(_, d) ← initialize CLOCK_PHASE 1 false lock_auction (fresh (person "Auctioneer"));
    d ← startRound lock_auction d;
    d ← submit lock_auction "User-1" [ask 1 1 101] d;
    d ← submit lock_auction "User-2" [ask 1 1 101] d;
    d ← close lock_auction d;
    d ← startRound lock_auction d;
    d ← submit lock_auction "User-1" [ask 1 1 110] d;
    d ← submit lock_auction "User-2" [ask 1 1 110] d;
    d ← close lock_auction d;
    d ← startRound lock_auction d;
    d ← submit lock_auction "User-1" [ask 1 1 130] d;
    close lock_auction d).
Lemma lock_static : static_storable lock_auction.
Proof. constructor; storable_now. Qed.
Lemma lock_dynamic : dynamic_storable (set_bids [] lock_state).
Proof. constructor; storable_now. Qed.
Lemma lock_locked : locked lock_state.
Proof.
  split.
  - let l := eval vm_compute in (clockBids_ lock_state) in change (Forall (Forall bid_priced) l).
    repeat match goal with
      | |- Forall _ [] => apply Forall_nil_2
      | |- Forall _ (_ :: _) => apply Forall_cons_2
      | |- Forall _ ?l => let k := eval vm_compute in l in change l with k
      | |- bid_priced _ => constructor; [compute_decide|compute_decide| |intros E; first [discriminate E|reflexivity]]
      end; first [left; constructor; solve [storable_now]|right; constructor; first [compute_decide|vm_compute; reflexivity]].
  - let l := eval vm_compute in (clockBids_ lock_state) in change (Exists (Exists bid_fractional) l).
    do 3 apply Exists_cons_tl. apply Exists_cons_hd, Exists_cons_tl, Exists_cons_hd, Exists_cons_hd.
    constructor; first [compute_decide|vm_compute; reflexivity].
Qed.
Lemma fractional_price_locks_witness : ∃ ctx ctx', holds_auction (world ctx) 1 lock_auction lock_state ∧
  getAssignmentResults (fresh (person "User-1")) (id_request 1) ctx = Done (Failed price_report) ctx'.
Proof.
  destruct (storeAuctionState_ok (W := omap bytes) 1 lock_auction lock_state sample_ctx) as (ctx & _ & Hh & _);
    [lia|exact lock_static|].
  assert (Hfit : texts_fit lock_auction lock_state) by (split; compute_decide). specialize (Hh Hfit).
  destruct (fractional_price_locks (W := omap bytes) 1 lock_auction lock_state lock_static lock_dynamic lock_locked Hfit 0
    (bs "getAssignmentResults") (id_request 1) getAssignmentResults (person "User-1") ctx Hh) as (ctx' & E & _).
  - apply ByNumber; [compute_decide|vm_compute; reflexivity].
  - reflexivity.
  - exists ctx, ctx'. split; [exact Hh|exact E].
Defined.
