(* ===== verification/SpectrumResults.v ===== *)
(** * The spectrum auction: the results that are published

    After the assignment the results can be printed, and they name for every bidder and
    territory as many channels as the bidder has licences.  The results of a round that a
    bidder asks for depend only on what concerns the bidder.  In a closed auction the
    round that is asked for is not checked. *)
From stdpp Require Import base list numbers option strings pretty relations.
From Stdlib Require Import ZArith Lia.
From S2P Require Import Prelude ParsonText CNum JsonSpec CDouble StdMap SgxCCLib EnclaveCrypto Ledger LedgerTheorems Shim EnclaveProof.
From S2P Require Import Samples Peer Chaincodes ChaincodeJson Spectrum SpectrumEval SpectrumJson SpectrumStorage SpectrumApi.
From S2P Require Import SpectrumProof SpectrumRounds SpectrumAssign SpectrumTheorems SpectrumClaims SpectrumJsonProof.
From S2P Require Import SpectrumStorageProof SpectrumContext SpectrumRefine.
Local Open Scope Z_scope.

(** ** The results of the assignment *)

(** The channels of a row of winners that bidder [b] won, with their prices *)
Definition channel_entry (c : Z * double) : json :=
  JObject (int_entry (bs "channelId") c.1 ++ number_entry (bs "price") c.2).
Definition channels_of (b : Z) (row ids : list Z) (prices : list double) : list json :=
  channel_entry ∘ snd <$> filter (λ x, x.1 = b) (zip row (zip ids prices)).
Lemma length_channels_of b row ids prices : length row = length ids → length prices = length ids →
  length (channels_of b row ids prices) = count b row.
Proof.
  unfold channels_of, count. rewrite length_fmap. revert ids prices.
  induction row as [|w row IH]; intros [|x ids] [|pr prices] Hr Hp; try done. cbn [zip zip_with]. rewrite !filter_cons. simpl.
  injection Hr as Hr. injection Hp as Hp. specialize (IH ids prices Hr Hp). case_decide; cbn [length]; by rewrite IH.
Qed.

Lemma won_channels_exact d j b row prices ids : winAssign_ d !! j = Some row → channelPrice_ d !! j = Some prices →
  length row = length ids → length prices = length ids → Z.of_nat b < 2 ^ 32 - 1 →
  Forall (λ v, v = -1 ∨ 0 ≤ v < 2 ^ 32 - 1) row →
  won_channels d (Z.of_nat b) (Z.of_nat j) ids = Some (channels_of (Z.of_nat b) row ids prices).
Proof.
  intros Hrow Hprices Hlr Hlp Hb Hv. unfold won_channels, at2. rewrite !at_nat, Hrow, Hprices. cbn [mbind option_bind].
  match goal with |- (l0 ← mapM ?g _; _) = _ => set (f := g) end.
  assert (Hf : ∀ k x w pr, row !! k = Some w → prices !! k = Some pr →
    f (Z.of_nat k, x) = Some (if decide (w = Z.of_nat b) then [channel_entry (x, pr)] else [])).
  { intros k x w pr Hw Hpr. unfold f. rewrite !at_nat, Hw, Hpr. cbn [mbind option_bind].
    assert (Hwb : wrap32 w = Z.of_nat b ↔ w = Z.of_nat b).
    { pose proof (Forall_lookup_1 _ _ _ _ Hv Hw) as [-> |Hr]; [change (wrap32 (-1)) with (2 ^ 32 - 1); lia|].
      by rewrite wrap32_exact by lia. }
    destruct (Z.eqb_spec (wrap32 w) (Z.of_nat b)) as [Eb|Eb].
    - by rewrite decide_True by (by apply Hwb).
    - by rewrite decide_False by (by rewrite <- Hwb). }
  clearbody f.
  enough (∀ n, ∃ l, mapM f (zip (Z.of_nat <$> seq n (length ids - n)) (drop n ids)) = Some l ∧
    concat l = channels_of (Z.of_nat b) (drop n row) (drop n ids) (drop n prices)) as Hall.
  { destruct (Hall 0%nat) as (l & E & Hl). rewrite Nat.sub_0_r, !drop_0 in *. unfold indices, upto, size.
    rewrite Nat2Z.id, E. cbn [mbind option_bind]. by rewrite Hl. }
  intros n. remember (length ids - n)%nat as m eqn:Em. revert n Em. induction m as [|m IH]; intros n Em.
  { exists []. rewrite !drop_ge by lia. done. }
  destruct (lookup_lt_is_Some_2 ids n ltac:(lia)) as [x Hx]. destruct (lookup_lt_is_Some_2 row n ltac:(lia)) as [w Hw].
  destruct (lookup_lt_is_Some_2 prices n ltac:(lia)) as [pr Hpr].
  destruct (IH (S n) ltac:(lia)) as (l & E & Hl). rewrite (drop_S _ _ _ Hx), (drop_S _ _ _ Hw), (drop_S _ _ _ Hpr).
  change (zip (Z.of_nat <$> seq n (S m)) (x :: drop (S n) ids)) with
    ((Z.of_nat n, x) :: zip (Z.of_nat <$> seq (S n) m) (drop (S n) ids)).
  cbn [mapM]. rewrite (Hf n x w pr Hw Hpr), E. cbn [mbind option_bind mret option_ret].
  eexists. split; [done|]. cbn [concat]. rewrite Hl. unfold channels_of. cbn [zip zip_with]. rewrite filter_cons. simpl.
  by case_decide.
Qed.

(** The state after the assignment, with the licences [lic] of the last round *)
Record assignment_done (s : StaticAuctionState) (d : DynamicAuctionState) (r : nat) (lic : list (list Z)) : Prop := {
  done_round : clockRound_ d = Z.of_nat r;
  done_licenses : processedLicenses_ d !! r = Some lic;
  done_rows : length lic = length (bidders_ s);
  done_row b : (b < length (bidders_ s))%nat → length (lic !!! b) = length (territories_ s);
  done_lengths : length (winAssign_ d) = length (territories_ s) ∧ length (assignCost_ d) = length (territories_ s) ∧
    length (channelPrice_ d) = length (territories_ s);
  done_territory t : (t < length (territories_ s))%nat →
    (Z.of_nat (length (winAssign_ d !!! t)) = getSupply s !!! t ∧
     (∀ b, (b < length (bidders_ s))%nat → Z.of_nat (count (Z.of_nat b) (winAssign_ d !!! t)) = entry lic b t) ∧
     Forall (λ v, v = -1 ∨ 0 ≤ v < Z.of_nat (length (bidders_ s))) (winAssign_ d !!! t)) ∧
    priced s t (assignCost_ d) (channelPrice_ d) }.

(** What the results say of a bidder and a territory: nothing without licences, and
    otherwise a list of channels *)
Definition assignment_entry (terId lic : Z) (cost : double) (channels : list json) : list json :=
  if lic =? 0 then []
  else [JObject (int_entry (bs "territoryId") terId ++ number_entry (bs "assignCost") cost ++ [(bs "channels", JArray channels)])].

Section published.
Context (s : StaticAuctionState) (Hs : static_ok s) (d : DynamicAuctionState) (r : nat) (lic : list (list Z)).
Context (Hd : assignment_done s d r lic).

Lemma getTerritory_lookup t ter : territories_ s !! t = Some ter → getTerritory s (territory_id_ ter) = Some ter.
Proof.
  intros Hter. unfold getTerritory.
  assert (list_find (λ u, (territory_id_ u =? territory_id_ ter) = true) (territories_ s) = Some (t, ter)) as ->; [|done].
  apply (list_find_key _ territory_id_); [intros u; apply Z.eqb_eq|apply Hs|done].
Qed.

(** The entry of bidder [b] for territory [t]: the channels it won there *)
Definition published_entry (b t : nat) (ter : Territory) : list json :=
  assignment_entry (territory_id_ ter) (entry lic b t) (assignCost_ d !!! t !!! b)
    (channels_of (Z.of_nat b) (winAssign_ d !!! t) (getChannelIds ter) (channelPrice_ d !!! t)).

Lemma bidder_assignment_exact b t ter : (b < length (bidders_ s))%nat → territories_ s !! t = Some ter →
  bidder_assignment d s (Z.of_nat b) (Z.of_nat t) (territory_id_ ter) = Some (published_entry b t ter) ∧
  Z.of_nat (length (channels_of (Z.of_nat b) (winAssign_ d !!! t) (getChannelIds ter) (channelPrice_ d !!! t))) = entry lic b t.
Proof.
  intros Hb Hter. destruct Hd as [Er El Hrows Hrow (Hwl & Hcl & Hpl) Ht]. pose proof (lookup_lt_Some _ _ _ Hter) as Htn.
  pose proof (ok_bidders_n _ Hs) as Hbn. unfold size in Hbn. destruct (Ht t Htn) as ((Hlen & Hcount & Hval) & Hcost & Hprice).
  assert (Hsup : getSupply s !!! t = numberOfChannels ter).
  { apply list_lookup_total_correct. unfold getSupply. by rewrite list_lookup_fmap, Hter. }
  pose proof (Forall_lookup_1 _ _ _ _ (ok_channels _ Hs) Hter) as Hc. simpl in Hc.
  assert (Hch : Z.of_nat (length (getChannelIds ter)) = getSupply s !!! t).
  { rewrite Hsup. unfold numberOfChannels, getChannelIds. rewrite length_fmap, wrap32_exact; unfold size in *; lia. }
  split; [|rewrite length_channels_of by lia; by apply Hcount].
  unfold bidder_assignment, published_entry, assignment_entry, at3. rewrite Er, (at_nat (processedLicenses_ d)), El.
  cbn [mbind option_bind]. rewrite (at2_total lic) by (rewrite ?Hrow; lia). cbn [mbind option_bind].
  unfold entry. destruct (lic !!! b !!! t =? 0); [done|]. rewrite at2_total by lia. cbn [mbind option_bind].
  rewrite (getTerritory_lookup t ter Hter). cbn [mbind option_bind].
  rewrite (won_channels_exact d t b (winAssign_ d !!! t) (channelPrice_ d !!! t)); [done| | |lia|lia|lia|].
  - apply list_lookup_lookup_total_lt. lia.
  - apply list_lookup_lookup_total_lt. lia.
  - eapply Forall_impl; [exact Hval|]. simpl. lia.
Qed.

(** What is published of bidder [b] *)
Definition published_bidder (b : nat) (bd : Bidder) : json :=
  JObject (int_entry (bs "bidderId") (bidder_id_ bd) ++
    [(bs "assignment", JArray (concat (imap (published_entry b) (territories_ s))))]).

Lemma mapM_imap {A B C} (f : C → option B) (g : nat → A → B) (h : nat → A → C) (l : list A) :
  (∀ k x, l !! k = Some x → f (h k x) = Some (g k x)) → mapM f (imap h l) = Some (imap g l).
Proof.
  revert g h. induction l as [|x l IH]; intros g h Hf; [done|]. cbn [imap mapM].
  rewrite (Hf 0%nat x eq_refl), (IH (g ∘ S) (h ∘ S)); [done|]. intros k y Hy. by apply (Hf (S k)).
Qed.
Lemma indexed_imap {A} (l : list A) : zip (indices l) l = imap (λ k x, (Z.of_nat k, x)) l.
Proof.
  unfold indices, upto, size. rewrite Nat2Z.id. apply list_eq. intros k.
  rewrite list_lookup_imap, lookup_zip_with, list_lookup_fmap.
  destruct (l !! k) as [x|] eqn:E; [|by destruct (_ <$> _)]. apply lookup_lt_Some in E. by rewrite lookup_seq_lt.
Qed.

Lemma toAssignmentResults_exact :
  toAssignmentResultsJsonObject d s = Some (JObject [(bs "result", JArray (imap published_bidder (bidders_ s)))]).
Proof.
  unfold toAssignmentResultsJsonObject. rewrite (getBiddersN_nat s Hs).
  assert (upto (Z.of_nat (length (bidders_ s))) = imap (λ k _, Z.of_nat k) (bidders_ s)) as ->.
  { unfold upto. rewrite Nat2Z.id. apply list_eq. intros k. rewrite list_lookup_fmap, list_lookup_imap.
    destruct (bidders_ s !! k) as [x|] eqn:E.
    - apply lookup_lt_Some in E. by rewrite lookup_seq_lt.
    - apply lookup_ge_None in E. by rewrite lookup_seq_ge. }
  rewrite (mapM_imap _ published_bidder); [done|]. intros b bd Hbd. pose proof (lookup_lt_Some _ _ _ Hbd) as Hb.
  unfold fromBidderIndexToBidderId. rewrite at_nat, Hbd. cbn [fmap option_fmap option_map mbind option_bind].
  unfold getTerritoryIds. rewrite indexed_imap, imap_fmap.
  rewrite (mapM_imap _ (published_entry b)); [done|]. intros t ter Hter. simpl. by apply bidder_assignment_exact.
Qed.
End published.

Section results.
Context {W : Type} `{SgxCrypto W} `{Implementation}.
Implicit Types ctx : t_shim_ctx W.

(** C16. When the generator of random numbers works, the results after the assignment round
    are printed without undefined behaviour: one object for every bidder, in order, with
    its number, and in it one for every territory in which the bidder has licences, in
    order, with the number of the territory, the cost, and exactly the channels that the
    assignment gave to this bidder there, with their prices; they are as many as the
    licences. *)
Theorem assignment_results_exact s d r ctx (Hw : rand_works (W := W)) (Hs : static_ok s) (Hd : assignable s d r) :
  ∃ d' ctx', processAssignmentRound s d ctx = Done d' ctx' ∧
    let lic := processedLicenses_ d !!! r in
    toAssignmentResultsJsonObject d' s = Some (JObject [(bs "result", JArray (imap (published_bidder s d' lic) (bidders_ s)))]) ∧
    ∀ b t ter, (b < length (bidders_ s))%nat → territories_ s !! t = Some ter →
      Z.of_nat (length (channels_of (Z.of_nat b) (winAssign_ d' !!! t) (getChannelIds ter) (channelPrice_ d' !!! t))) = entry lic b t.
Proof.
  destruct (processAssignmentRound_spec Hw s d r ctx Hs Hd) as (d' & ctx' & E & _ & _ & _ & Hlen & (Er & El) & Ht).
  destruct (as_balanced _ _ _ Hd) as (ex & (caps & Hacc) & _).
  assert (Hdone : assignment_done s d' r (processedLicenses_ d !!! r)).
  { constructor; [by rewrite Er; apply Hd| | | |done..].
    - rewrite El. apply list_lookup_lookup_total_lt. rewrite (as_licenses _ _ _ Hd). lia.
    - exact (progress_rows s _ _ Hacc (as_elig_row _ _ _ Hd)).
    - exact (progress_row s _ _ Hacc (as_elig_row _ _ _ Hd)). }
  exists d', ctx'. split; [done|]. split; [by eapply toAssignmentResults_exact|]. intros b t ter. by eapply bidder_assignment_exact.
Qed.
End results.

(** ** The results of a round *)

(** What concerns the bidder at an index: phase, round, prices and demands of the
    territories, its own licences and its own eligibility *)
Record same_view (b : Z) (d1 d2 : DynamicAuctionState) : Prop := {
  view_phase : auctionState_ d1 = auctionState_ d2;
  view_round : clockRound_ d1 = clockRound_ d2;
  view_posted : postedPrice_ d1 = postedPrice_ d2;
  view_excess : excessDemand_ d1 = excessDemand_ d2;
  view_licenses r t : at3 (processedLicenses_ d1) r b t = at3 (processedLicenses_ d2) r b t;
  view_eligibility r : at2 (eligibility_ d1) r b = at2 (eligibility_ d2) r b }.
(** The index by which the code finds the bidder [p] *)
Definition bidder_index (s : StaticAuctionState) (p : Principal) : Z :=
  wrap32 (fromBidderIdToBidderIndex s (fromPrincipalToBidderId s p)).
(** The same answer, in contexts that may differ *)
Definition same_answer {W A} (o1 o2 : outcome W A) : Prop :=
  match o1, o2 with
  | Done a1 _, Done a2 _ => a1 = a2
  | Throw e1 _, Throw e2 _ => e1 = e2
  | Crash, Crash => True
  | _, _ => False
  end.

Lemma bidder_results_view s d1 d2 p r : same_view (bidder_index s p) d1 d2 →
  toBidderRoundResultsJsonObject (as_submitter p d1) s r = toBidderRoundResultsJsonObject (as_submitter p d2) s r.
Proof.
  intros [Hph Hro Hpo Hex Hli Hel]. unfold toBidderRoundResultsJsonObject, isLastClockRound, isStateAssignmentPhase, isStateClosedPhase.
  cbn [as_submitter submitterPrincipal_ clockRound_ auctionState_ eligibility_]. fold (bidder_index s p). rewrite Hph, Hro, Hel.
  f_equal. apply mapM_ext. intros [i terId]. unfold bidder_result.
  cbn [as_submitter processedLicenses_ postedPrice_ excessDemand_]. by rewrite Hli, Hpo, Hex.
Qed.

Lemma at3_out {A} (l : list (list (list A))) r b t : size l ≤ r → at3 l r b t = None.
Proof.
  unfold at3, at_ at 1, size. intros Hr. rewrite (proj2 (Z.ltb_ge _ _)) by lia. by rewrite lookup_ge_None_2 by lia.
Qed.

Section answers.
Context {W : Type} `{HonestPeer W} `{Implementation} `{Stack}.
Implicit Types ctx : t_shim_ctx W.

(** C18. What a bidder is told of a round is the same in any two states of the auction that
    an honest peer can give back (their bids have integer prices, [auction_storable]), that
    are in the same phase and round and agree on the bidder's own licences and eligibility
    and on the prices and demands of the territories: nothing else about the other bidders,
    such as their bids, licences or eligibility, has an influence on the answer.  Only in
    a state that cannot be loaded any more, because of a bid at another price, every
    request fails ([fractional_price_locks]). *)
Theorem bidder_results_confidential i s p d1 d2 input ctx1 ctx2 (Hi : 0 ≤ i)
    (Hst1 : auction_storable s d1) (Hst2 : auction_storable s d2)
    (Hheld1 : holds_auction (world ctx1) i s d1) (Hheld2 : holds_auction (world ctx2) i s d2)
    (Hview : same_view (bidder_index s p) d1 d2) (r : Z)
    (Hinput : fromGetBidderRoundResultsJson input = Some (i, r, true)) :
  same_answer (getBidderRoundResults (fresh p) input ctx1) (getBidderRoundResults (fresh p) input ctx2).
Proof.
  destruct (loadAuctionState_ok i p s d1 ctx1 Hi Hst1 Hheld1) as (ctx1' & E1 & _).
  destruct (loadAuctionState_ok i p s d2 ctx2 Hi Hst2 Hheld2) as (ctx2' & E2 & _).
  unfold getBidderRoundResults. rewrite (CM_bind_good _ _ (i, r, true) _ ctx1), (CM_bind_good _ _ (i, r, true) _ ctx2)
    by (by apply sound_some). rewrite !check_bind. cbn [negb]. rewrite (CM_bind_good _ _ _ _ _ E1), (CM_bind_good _ _ _ _ _ E2).
  assert (Hphase : in_phase (as_submitter p d1) = in_phase (as_submitter p d2) ∧
    isStateClockPhase (as_submitter p d1) = isStateClockPhase (as_submitter p d2)).
  { unfold in_phase, isStateClockPhase, isStateAssignmentPhase, isStateClosedPhase. simpl. by rewrite (view_phase _ _ _ Hview). }
  destruct Hphase as [-> ->]. rewrite !check_bind. destruct (negb (in_phase _)); [done|].
  change (clockRound_ (as_submitter p d1)) with (clockRound_ d1). change (clockRound_ (as_submitter p d2)) with (clockRound_ d2).
  rewrite (view_round _ _ _ Hview). destruct (isStateClockPhase _ && _); [done|].
  change (isValidBidder s (as_submitter p d1)) with (isValidBidder s (as_submitter p d2)).
  destruct (negb (isValidBidder s _)); [done|]. unfold toGetBidderRoundResultsJson. rewrite (bidder_results_view s d1 d2 p r Hview).
  by destruct (toBidderRoundResultsJsonObject _ s r).
Qed.

(** In a closed auction the round is not checked: a bidder who asks for the results of
    a round that never was makes the enclave read outside its vectors. *)
Theorem closed_results_out_of_range i s p d input ctx r (Hi : 0 ≤ i) (Hst : auction_storable s d)
    (Hheld : holds_auction (world ctx) i s d) (Hclosed : auctionState_ d = CLOSED) (Hter : territories_ s ≠ [])
    (Hbidder : isValidBidder s (fresh p) = true) (Hinput : fromGetBidderRoundResultsJson input = Some (i, r, true))
    (Hr : size (processedLicenses_ d) ≤ r) :
  getBidderRoundResults (fresh p) input ctx = Crash.
Proof.
  destruct (loadAuctionState_ok i p s d ctx Hi Hst Hheld) as (ctx' & E & _). unfold getBidderRoundResults.
  rewrite (CM_bind_good _ _ (i, r, true) _ ctx) by (by apply sound_some). rewrite check_bind. cbn [negb].
  assert (Hphase : in_phase (as_submitter p d) = true ∧ isStateClockPhase (as_submitter p d) = false).
  { unfold in_phase, isStateClosedPhase, isStateClockPhase, isStateAssignmentPhase. simpl. by rewrite Hclosed. }
  destruct Hphase as [Hin Hnot]. rewrite (CM_bind_good _ _ _ _ _ E), check_bind, Hin. cbn [negb].
  rewrite check_bind, Hnot. cbn [andb]. rewrite check_bind.
  change (isValidBidder s (as_submitter p d)) with (isValidBidder s (fresh p)). rewrite Hbidder. cbn [negb].
  unfold toGetBidderRoundResultsJson. assert (toBidderRoundResultsJsonObject (as_submitter p d) s r = None) as ->; [|done].
  assert (Hnone : ∀ b k terId, bidder_result (as_submitter p d) r b k terId = None).
  { intros b k terId. unfold bidder_result. by rewrite at3_out. }
  unfold toBidderRoundResultsJsonObject, getTerritoryIds. destruct (territories_ s) as [|t l]; [done|].
  cbn [fmap list_fmap]. unfold indices at 1, upto, size. rewrite Nat2Z.id. cbn [length seq fmap list_fmap zip zip_with mapM].
  by rewrite Hnone.
Qed.
End answers.

(** ** Instances *)
#[local] Existing Instances store_platform store_crypto store_peer sample_stack sample_implementation.

Definition round_request (i r : Z) : bytes := json_text (JObject (int_entry (bs "auctionId") i ++ int_entry (bs "round") r)).
Definition closed_state : DynamicAuctionState := Eval vm_compute in default second_state sample_third.
(** The second round of the sample without any bid *)
Definition silent_state : DynamicAuctionState := set_bids [] second_state.
Lemma closed_storable : auction_storable sample_auction closed_state.
Proof. constructor; [apply sample_static_storable|constructor; storable_now|split; compute_decide]. Qed.
Lemma silent_storable : auction_storable sample_auction silent_state.
Proof. constructor; [apply sample_static_storable|constructor; storable_now|split; compute_decide]. Qed.
(** A peer that holds a state of the sample *)
Lemma sample_held d : auction_storable sample_auction d → ∃ ctx : t_shim_ctx (omap bytes), holds_auction (world ctx) 1 sample_auction d.
Proof.
  intros Hd. destruct (storeAuctionState_ok (W := omap bytes) 1 sample_auction d sample_ctx) as (ctx & _ & Hh & _);
    [lia|exact sample_static_storable|]. exists ctx. exact (Hh (storable_size _ _ Hd)).
Qed.

Lemma assignment_results_exact_witness : ∃ d' ctx', processAssignmentRound sample_auction last_state sample_ctx = Done d' ctx' ∧
  toAssignmentResultsJsonObject d' sample_auction =
    Some (JObject [(bs "result", JArray (imap (published_bidder sample_auction d' [[2; 2]; [1; 1]; [0; 0]]) (bidders_ sample_auction)))]).
Proof.
  destruct (assignment_results_exact sample_auction last_state 3 sample_ctx sample_rand (auction_static _ sample_ok) last_assignable)
    as (d' & ctx' & E & Hb & _). exists d', ctx'. split; [exact E|exact Hb].
Defined.
Lemma bidder_results_confidential_witness : ∃ ctx1 ctx2, holds_auction (world ctx1) 1 sample_auction second_state ∧
  holds_auction (world ctx2) 1 sample_auction silent_state ∧
  same_answer (getBidderRoundResults (W := omap bytes) (fresh (person "User-1")) (round_request 1 1) ctx1)
    (getBidderRoundResults (fresh (person "User-1")) (round_request 1 1) ctx2).
Proof.
  destruct (sample_held _ second_storable) as (ctx1 & Hh1). destruct (sample_held _ silent_storable) as (ctx2 & Hh2).
  exists ctx1, ctx2. split; [exact Hh1|]. split; [exact Hh2|].
  apply (bidder_results_confidential (W := omap bytes) 1 sample_auction (person "User-1") second_state silent_state (round_request 1 1)
    ctx1 ctx2 ltac:(lia) second_storable silent_storable Hh1 Hh2) with (r := 1); [constructor; reflexivity|vm_compute; reflexivity].
Defined.
Lemma closed_results_out_of_range_witness : ∃ ctx, holds_auction (world ctx) 1 sample_auction closed_state ∧
  getBidderRoundResults (W := omap bytes) (fresh (person "User-1")) (round_request 1 9) ctx = Crash.
Proof.
  destruct (sample_held _ closed_storable) as (ctx & Hh). exists ctx. split; [exact Hh|].
  apply (closed_results_out_of_range (W := omap bytes) 1 sample_auction (person "User-1") closed_state (round_request 1 9) ctx 9
    ltac:(lia) closed_storable Hh); [reflexivity|discriminate|reflexivity|vm_compute; reflexivity|vm_compute; discriminate].
Defined.
